(* ===== verification/_CoqProject ===== *)
-Q . S2P
Prelude.v
Sha256.v
Rolling.v
Signature.v
Delta.v
DeltaGen.v
BufferPool.v
Fs.v
Chunk.v
Pools.v
ChunkStore.v
BlobStore.v
StoreSpec.v
Merkle.v
MerkleSpec.v
DiffSpec.v
Manifest.v
TreePrint.v
DiffTrees.v
Wire.v
Transport.v
TransportLife.v
SyncNet.v
SyncPool.v
Build.v
Reconstruct.v
Index.v
Cli.v
SyncSpec.v
SyncWire.v
Signaling.v
SignalingLife.v
Stun.v
Db.v
DbSpec.v
Watcher.v
WatcherSpec.v
WatcherScan.v
WatcherStart.v
WatcherLive.v
WatcherStop.v
Relay.v
RelaySpec.v
RelayLife.v
Holepunch.v
HolepunchSpec.v
Rendezvous.v
Metrics.v
MetricsRegistry.v
Logging.v
Commands.v
Daemon.v
Main.v
