(* ===== verification/Prelude.v ===== *)
(** * p2p-file-sync: a verification library

    The program synchronises directories between peers. A directory is split
    into 4 KiB chunks that are kept in a content-addressed store below
    [.storage/chunks]; a Merkle tree over the visible files is compared with the
    peer's; missing chunks are fetched over framed protobuf messages on QUIC
    streams, and the files are written from the store. Beside that there are a
    delta codec in the manner of rsync, helpers for peers behind NATs, a file
    watcher that keeps an SQLite database of the tracked files, and metrics.

    ** Parts, files and sources (paths below src/)

    - Generic data: this file ([bytes], machine-width integers [u16 u32 u64 s64],
      big-endian codecs, hexadecimal, Go slices and [copy], readers as
      [stream]s, the error type [outcome] with [Panic] for Go panics, runs of
      transition systems, chunks of a list) and [Sha256]: the hash as the class
      [HashFn] with the two facts used of it (32 bytes; [Write] appends), and
      the FIPS 180-4 function as the instance the witnesses run.
    - Delta codec, internal/delta: [Rolling] (ring-buffer rolling checksum),
      [Signature] (block signatures and their encoding), [Delta] (delta
      operations, encoding, [ApplyDelta]), [DeltaGen] ([GenerateSignature],
      [GenerateDelta]), [BufferPool] (the generator's pool of buffers).
    - File system: [Fs] models the part of os and path/filepath the program
      uses, a finite map from paths to files and directories.
    - Shared buffers: [Pools] (the chunker's buffer pool with interleaved calls
      of [Next], the pool of rolling hashes).
    - Content-addressed store, internal/cas: [Chunk] (chunker and hasher),
      [BlobStore] (store operations with injected system-call faults),
      [StoreSpec] (its contract). [ChunkStore] is the class of stores that the
      synchroniser relies on, with the on-disk store and a finite map as
      instances.
    - Merkle trees, internal/merkle: [Merkle] and [MerkleSpec] (nodes, hashing,
      the tree invariant), [DiffSpec] ([Diff]), [Build] ([BuildFromFS]),
      [Manifest] (all tree/manifest converters and the counters), [TreePrint]
      ([PrintTree]).
    - Manifest difference, internal/diff: [DiffTrees].
    - Wire protocol, internal/proto/messages.go: [Wire]. The generated code of
      sync.pb.go is a parameter, the class [ProtoCodec], whose law is that
      Unmarshal inverts Marshal; [Wire.CountableCodec] is an instance.
    - Transport and sync manager, internal/net: [Transport] (handshake, request
      handlers, and the peer table as a transition system with interleaved
      connections), [TransportLife] (construction, listening, and a running
      transport as a transition system of its goroutines: accept loop,
      connection handlers, stream loops and [Close]), [SyncNet] ([SyncWithPeer]
      over any [ChunkStore]), [SyncPool] (the worker pool and its channels as a
      transition system).
    - Command line, cmd/p2p-file-sync/main.go: [Index] ([indexDirectory], the
      chunk handler of serve), [Reconstruct] ([collectMissingChunks],
      [reconstructFiles]), [Cli] (the sync command, the manifest handler of
      serve), [SyncSpec] (serve and sync together), [SyncWire] (the sync command
      over a network: dial, handshake, one stream per request, with the
      transport and the protocol of a serve command at the other end),
      [Commands] (init, status and the start of serve), [Daemon] (serve from
      start to return), [Main] (flags, arguments, the commands as the program
      runs them with what they log, the exit status).
    - NAT helpers, internal/nat: [Signaling] (signaling server and client),
      [SignalingLife] (the server's goroutines and its shutdown), [Stun] (STUN
      client), [Relay] and [RelaySpec] (the relay server as a transition system
      of its connections, tables, handlers, copying loops and the stages of its
      shutdown; the relay client), [RelayLife] (listening, the accept loop and
      [Close] around it), [Holepunch] and [HolepunchSpec] (packets,
      listener, punching loop, hole puncher, fallback strategy, two peers with
      their targets over a lossy network), [Rendezvous] (addresses as text; STUN client, signaling
      server and hole puncher together).
    - Metadata store, internal/db: [Db] (the four tables as finite maps, a call
      as a sequence of SQL statements whose faults, clock and connection are
      arguments) and [DbSpec] (its invariant and contract).
    - File watcher, internal/watcher: [Watcher] (the handlers and both directory
      walks), [WatcherSpec] and [WatcherScan] (single handlers and the initial
      scan), [WatcherStart] (the watched directories), [WatcherLive] (both
      goroutines, the event queue and the program that changes the tree as one
      transition system), [WatcherStop] (cancellation and [Stop] around it, with
      the call for a file that is under way).
    - Metrics, internal/metrics: [Metrics] (the speed tracker, each recording
      method as the operations it performs on the registry, the global instance
      and the routes of the endpoint), [MetricsRegistry] (the instruments as
      declared, over the class [PromLib] that states what the Prometheus library
      documents).
    - Logging, internal/logging: [Logging] (the global logger, contexts,
      operations and sync events over a model of slog's levels, attributes and
      argument pairing).

    ** What the theorems show

    - Synchronisation ([SyncWire], [SyncSpec], [Cli], [Index], [Reconstruct],
      [Build]): one run of sync that talks to an honest serve in framed messages
      brings the server's non-empty visible files and its directories to the
      client, removes what the server lacks in the directories both have, and
      touches nothing hidden or outside; whatever bytes a hostile network
      delivers, the download ends, does not panic and stores no wrong content;
      the tree stands for exactly the visible files; what a manifest announces
      can be served; a file with chunks is written as their concatenation.
    - Store ([StoreSpec]): refinement of a finite map with faults in every system
      call of [Put], [Get], [Has], [Verify] and [Delete], for hashes of two bytes
      or more; atomicity of [Put], the stream round trip, exactness of
      [VerifyAll].
    - Trees ([MerkleSpec], [DiffSpec], [DiffTrees]): the tree invariant, both
      difference algorithms report exactly the specified differences for every
      map iteration order, and equal root hashes mean equal contents where the
      hash inputs are unambiguous.
    - Delta codec: the whole round trip from signature to applied delta, the
      encodings, totality with exact accounting, the ring buffer as a refinement
      of the last bytes read.
    - Protocol ([Wire], [Transport], [SyncNet]): framing, handshake and request
      round trips, what [SyncWithPeer] fetches; a running transport refines the
      peer table under every interleaving, and its [Close] terminates with an
      empty table and matched callbacks.
    - NAT helpers: the signaling server refines a directory whose entries expire,
      with bounds on the life of an entry, and its shutdown terminates; STUN
      responses round trip; the relay keeps sessions apart under every
      interleaving of the system calls of its handlers, up to the error that a
      first peer's own timer writes into its session, and delivers; its
      handshake round trips, its Close is final for what its tables hold and
      returns after three steps whatever its sessions do; hole punching succeeds
      between equal session ids, never between peers with different ones (but a
      peer can succeed with itself), and is bounded; the address a STUN server reports is the one another
      peer punches.
    - Shared buffers ([Pools]): calls that share the chunker's pool each return
      what the chunker computes on their own reader; a recycled rolling hash is
      as good as a new one.
    - Metadata store ([DbSpec]): the tables stay well typed whatever fails, the
      files table refines a finite map, snapshots are permanent, records round
      trip at second precision.
    - Watcher: an update is atomic, [Start] watches exactly the visible
      directories, the initial scan records each visible file or reports its
      failure, the recorded root is that of the Merkle tree, the
      running watcher converges to a database that describes the tree, for the
      paths whose changes were announced and did not fail, and [Stop] terminates
      and freezes the database but for the file that is being written.
    - Worker pool, commands, metrics, logging: no request is lost or answered
      twice and shutdown terminates when the fetches do; a directory is usable
      exactly after init, with the exit status and log lines that go with it;
      serve ends in order after a signal; the instruments are registered, a
      recording call panics exactly on negative counts and on names that are not
      UTF-8, transfers are counted exactly and the speed gauge is off by one sample; a
      line is logged exactly when its level is enabled, with the attributes of
      its context, and by the logger of its operation's start.
    - Theorems of kind error state where the code falls short: each describes
      the behaviour of the code as it is.

    ** Conventions

    A function that can fail returns [outcome E A]; [Panic] is a Go panic (slice
    out of range, nil dereference, division by zero). The order in which Go
    ranges over a map is a parameter that permutes its list. Faults of system
    calls, unreadable paths, the answers of a peer, cancellation and time are
    arguments. SHA-256 collisions are excluded where needed for the finitely
    many byte strings a theorem is about, never in general. Loops that are not
    structural take fuel: one turn per input byte in [GenerateDelta], the
    chunker and the stream handlers (each turn consumes a byte or ends), the
    length of the longest path for directory walks, the height of the local
    tree for [DiffTrees], the number of needed hashes for the download loops,
    the number of attribute bytes for STUN; the theorems show that it suffices.
    Transition systems are not bounded: their theorems hold for runs of every
    length, and termination is shown by a decreasing measure.

    ** Not modelled

    QUIC, TLS and its configuration, the generation of keys and the encoding of
    certificates, sockets and their deadlines outside the relay, SQLite's SQL
    text and indexes, fsnotify (whose reports are an assumption of
    [WatcherLive]), the inside of the Prometheus registry and the HTTP server,
    the text of a log line, the generated protobuf code, goroutine scheduling
    below the level of critical sections, cobra's parsing of the command line,
    the lookup of host names, signals and terminal output. Constants, fields and
    wrappers that no code reads (the protocol's error codes, the statistics of
    the sync manager, the database's [Close]) have no definition. These are
    libraries, generated code or pure output: what the program relies on is a
    parameter of the definitions that use it.

    Within modelled parts: [reconstructFiles] does not fail for permissions or
    the umask, only where files and directories are in each other's way or a
    chunk is missing; a failed COMMIT and a cancelled context leave the tables as
    they were, which SQLite and database/sql document; the counter of written
    bytes in [ApplyDelta] is not wrapped at 63 bits, which no output reaches; a
    turn of the relay's copying loop, a read and the write of what was read, is
    one step; the log lines that sync writes per chunk and per file are left out
    of [Main]. *)
From Stdlib Require Export ZArith Lia.
From Stdlib Require Import Strings.Byte Strings.String.
From stdpp Require Export base tactics numbers list gmap strings option sorting.

(** ** Bytes

    Go's [byte] is the 256-element enumeration [Byte.byte]; Go's [string] and
    [[]byte] are both lists of bytes. *)
Abbreviation byte := Byte.byte.
Abbreviation bytes := (list byte).

Definition byte_val (b : byte) : Z := Z.of_N (Byte.to_N b).

(** The conversion [byte(z)]: the low eight bits. *)
Definition byte_of (z : Z) : byte :=
  default x00 (Byte.of_N (Z.to_N (z mod 256))).

Definition bytes_of_string (s : string) : bytes := String.list_byte_of_string s.

Lemma byte_val_range b : (0 ≤ byte_val b < 256)%Z.
Proof. unfold byte_val. pose proof (Byte.to_N_bounded b). lia. Qed.

Lemma byte_val_of z : byte_val (byte_of z) = (z mod 256)%Z.
Proof.
  unfold byte_val, byte_of.
  pose proof (Z.mod_pos_bound z 256 ltac:(lia)) as Hr.
  destruct (Byte.of_N (Z.to_N (z mod 256))) as [b|] eqn:E; simpl.
  - apply Byte.to_of_N in E. rewrite E. lia.
  - apply Byte.of_N_None_iff in E. lia.
Qed.

Lemma byte_of_val b : byte_of (byte_val b) = b.
Proof.
  unfold byte_of. rewrite Z.mod_small by apply byte_val_range.
  unfold byte_val. by rewrite N2Z.id, Byte.of_to_N.
Qed.

Lemma byte_val_inj a b : byte_val a = byte_val b → a = b.
Proof. intros E. by rewrite <- (byte_of_val a), <- (byte_of_val b), E. Qed.

#[global] Instance byte_eq_dec : EqDecision byte.
Proof. intros a b. apply Byte.byte_eq_dec. Defined.

#[global] Program Instance byte_countable : Countable byte :=
  inj_countable Byte.to_N Byte.of_N _.
Next Obligation. intros b. apply Byte.of_to_N. Qed.

(** ** Machine integers

    Integers are [Z]; each conversion or operation that can leave the type's
    range is wrapped explicitly. *)
Definition u16 (z : Z) : Z := z mod 2 ^ 16.
Definition u32 (z : Z) : Z := z mod 2 ^ 32.
Definition u64 (z : Z) : Z := z mod 2 ^ 64.
Definition s64 (z : Z) : Z := (z + 2 ^ 63) mod 2 ^ 64 - 2 ^ 63.

Lemma u32_range z : (0 ≤ u32 z < 2 ^ 32)%Z.
Proof. apply Z.mod_pos_bound. lia. Qed.

Lemma u32_small z : (0 ≤ z < 2 ^ 32)%Z → u32 z = z.
Proof. apply Z.mod_small. Qed.

Lemma u16_range z : (0 ≤ u16 z < 2 ^ 16)%Z.
Proof. apply Z.mod_pos_bound. lia. Qed.

Lemma u16_small z : (0 ≤ z < 2 ^ 16)%Z → u16 z = z.
Proof. apply Z.mod_small. Qed.

Lemma u64_small z : (0 ≤ z < 2 ^ 64)%Z → u64 z = z.
Proof. apply Z.mod_small. Qed.

Lemma s64_small z : (- 2 ^ 63 ≤ z < 2 ^ 63)%Z → s64 z = z.
Proof. intros H. unfold s64. rewrite Z.mod_small; lia. Qed.

Lemma s64_u64 z : s64 (u64 z) = s64 z.
Proof. unfold s64, u64. rewrite Zplus_mod_idemp_l. done. Qed.

(** ** Big-endian fields: [binary.BigEndian.PutUintN] and [UintN] *)
Fixpoint be_put (n : nat) (v : Z) : bytes :=
  match n with
  | O => []
  | S n' => byte_of (Z.shiftr v (8 * Z.of_nat n')) :: be_put n' v
  end.

Fixpoint be_get_acc (acc : Z) (l : bytes) : Z :=
  match l with
  | [] => acc
  | b :: l' => be_get_acc (acc * 256 + byte_val b) l'
  end.

Definition be_get (l : bytes) : Z := be_get_acc 0 l.

Lemma length_be_put n v : length (be_put n v) = n.
Proof. induction n; simpl; congruence. Qed.

Lemma be_get_acc_put n acc v :
  be_get_acc acc (be_put n v) = (acc * 256 ^ Z.of_nat n + v mod 256 ^ Z.of_nat n)%Z.
Proof.
  revert acc. induction n as [|n IH]; intros acc.
  - simpl. rewrite Z.mod_1_r. lia.
  - cbn [be_put be_get_acc]. rewrite IH, byte_val_of, Z.shiftr_div_pow2 by lia.
    rewrite Nat2Z.inj_succ, Z.pow_succ_r by lia.
    replace (2 ^ (8 * Z.of_nat n))%Z with (256 ^ Z.of_nat n)%Z
      by (rewrite Z.pow_mul_r by lia; done).
    rewrite (Z.mul_comm 256 (256 ^ Z.of_nat n)), Z.rem_mul_r by lia. lia.
Qed.

Lemma be_get_put n v : be_get (be_put n v) = (v mod 256 ^ Z.of_nat n)%Z.
Proof. unfold be_get. rewrite be_get_acc_put. lia. Qed.

Lemma be_get_acc_bound l acc :
  (0 ≤ acc → acc * 256 ^ Z.of_nat (length l) ≤ be_get_acc acc l
             < (acc + 1) * 256 ^ Z.of_nat (length l))%Z.
Proof.
  revert acc. induction l as [|b l IH]; intros acc Ha; [simpl; lia|].
  pose proof (byte_val_range b). cbn [be_get_acc length].
  rewrite Nat2Z.inj_succ, Z.pow_succ_r by lia.
  specialize (IH (acc * 256 + byte_val b)%Z ltac:(lia)). nia.
Qed.

Lemma be_get_bound l : (0 ≤ be_get l < 256 ^ Z.of_nat (length l))%Z.
Proof. pose proof (be_get_acc_bound l 0). unfold be_get. lia. Qed.

Lemma be_put_get l : be_put (length l) (be_get l) = l.
Proof.
  cut (∀ k acc, (0 ≤ acc)%Z → k = be_get_acc acc l → be_put (length l) k = l).
  { intros H. by apply (H _ 0%Z). }
  induction l as [|b l IH]; intros k acc Ha ->; [done|].
  cbn [length be_put be_get_acc]. f_equal.
  - rewrite <- (byte_of_val b). apply byte_val_inj. rewrite !byte_val_of.
    pose proof (byte_val_range b) as Hb.
    pose proof (be_get_acc_bound l (acc * 256 + byte_val b) ltac:(lia)) as Hk.
    rewrite Z.shiftr_div_pow2, Z.pow_mul_r by lia. change (2 ^ 8)%Z with 256%Z.
    rewrite (Z.mod_small (byte_val b)) by lia.
    rewrite <- (Z.div_unique_pos _ _ (acc * 256 + byte_val b)
      (be_get_acc (acc * 256 + byte_val b) l
        - (acc * 256 + byte_val b) * 256 ^ Z.of_nat (length l))) by nia.
    rewrite Z.add_comm, Z.mod_add by lia. rewrite Z.mod_small; lia.
  - pose proof (byte_val_range b). by apply (IH _ (acc * 256 + byte_val b)%Z); [lia|].
Qed.

(** ** Hexadecimal: [hex.EncodeToString] *)
Definition hex_digit (n : Z) : byte := byte_of (if (n <? 10)%Z then 48 + n else 87 + n).

Definition hex_encode (m : bytes) : bytes :=
  concat ((λ b, [hex_digit (byte_val b / 16); hex_digit (byte_val b mod 16)]) <$> m).

Lemma hex_digit_inj n m :
  (0 ≤ n < 16)%Z → (0 ≤ m < 16)%Z → hex_digit n = hex_digit m → n = m.
Proof.
  intros Hn Hm E%(f_equal byte_val). unfold hex_digit in E. rewrite !byte_val_of in E.
  destruct (Z.ltb_spec n 10), (Z.ltb_spec m 10); rewrite !Z.mod_small in E; lia.
Qed.

Lemma length_hex_encode m : length (hex_encode m) = 2 * length m.
Proof.
  induction m as [|b m IH]; [done|].
  change (S (S (length (hex_encode m))) = 2 * S (length m)). lia.
Qed.

#[global] Instance hex_encode_inj : Inj (=) (=) hex_encode.
Proof.
  intros l. induction l as [|a l IH]; intros [|b k] E; try done.
  injection E as E1 E2 E3. apply (IH k) in E3 as ->. f_equal. apply byte_val_inj.
  pose proof (byte_val_range a). pose proof (byte_val_range b).
  apply hex_digit_inj in E1; [|Z.div_mod_to_equations; lia..].
  apply hex_digit_inj in E2; [|Z.div_mod_to_equations; lia..].
  Z.div_mod_to_equations. lia.
Qed.

(** ** Outcomes of Go functions

    A Go function that returns [(T, error)] and may panic is a function into
    [outcome E T]: [Ret] is a return with a nil error, [Err] a return with a
    non-nil error, [Panic] a run-time panic (index out of range, integer
    division by zero, nil dereference). *)
Inductive outcome (E A : Type) : Type :=
| Ret (a : A)
| Err (e : E)
| Panic.
Arguments Ret {E A} _.
Arguments Err {E A} _.
Arguments Panic {E A}.

#[global] Instance outcome_eq_dec E A `{EqDecision E, EqDecision A} : EqDecision (outcome E A).
Proof. solve_decision. Defined.

#[global] Instance outcome_ret E : MRet (outcome E) := λ A a, Ret a.
#[global] Instance outcome_bind E : MBind (outcome E) := λ A B f m,
  match m with
  | Ret a => f a
  | Err e => Err e
  | Panic => Panic
  end.

(** An expression that panics when it has no value ([l[i]] out of range). *)
Definition or_panic {E A} (o : option A) : outcome E A :=
  match o with Some a => Ret a | None => Panic end.

Definition is_ret {E A} (m : outcome E A) : bool :=
  match m with Ret _ => true | _ => false end.

Lemma Ret_bind {E A B} (a : A) (f : A → outcome E B) : (Ret a ≫= f) = f a.
Proof. done. Qed.

Lemma or_panic_bind {E A B} (a : A) (f : A → outcome E B) : (or_panic (Some a) ≫= f) = f a.
Proof. done. Qed.

Lemma bind_Ret_inv {E A B} (m : outcome E A) (f : A → outcome E B) b :
  (m ≫= f) = Ret b → ∃ a, m = Ret a ∧ f a = Ret b.
Proof. destruct m; simpl; intros; [eauto|done..]. Qed.

Ltac inv_bind H :=
  let a := fresh "a" in let Ha := fresh "Ha" in
  apply bind_Ret_inv in H; destruct H as (a & Ha & H).

(** ** Slices

    [l[i:j]] for indices already known to be in range, and [l[i]] with a
    possibly negative or too large index. *)
Definition slice {A} (i j : nat) (l : list A) : list A := take (j - i) (drop i l).

Definition idx {A} (l : list A) (i : Z) : option A :=
  if (0 <=? i)%Z then l !! Z.to_nat i else None.

Lemma slice_0 {A} j (l : list A) : slice 0 j l = take j l.
Proof. unfold slice. by rewrite drop_0, Nat.sub_0_r. Qed.

Lemma length_slice {A} i j (l : list A) :
  length (slice i j l) = Nat.min (j - i) (length l - i).
Proof. unfold slice. by rewrite length_take, length_drop. Qed.

Lemma slice_app_r {A} (l1 l2 : list A) i j :
  length l1 ≤ i → slice i j (l1 ++ l2) = slice (i - length l1) (j - length l1) l2.
Proof.
  intros Hi. unfold slice. rewrite drop_app_ge by done. f_equal. lia.
Qed.

Lemma slice_app_at {A} i j (l1 l2 : list A) :
  length l1 = i → slice i j (l1 ++ l2) = take (j - i) l2.
Proof. intros <-. unfold slice. by rewrite drop_app_length. Qed.

(** The field [l2] between a prefix of length [i] and a suffix. *)
Lemma slice_field {A} i j (l1 l2 l3 : list A) :
  length l1 = i → i + length l2 = j → slice i j (l1 ++ l2 ++ l3) = l2.
Proof.
  intros H1 H2. rewrite slice_app_at by done. replace (j - i) with (length l2) by lia.
  apply take_app_length.
Qed.

Lemma slice_app_here {A} (l1 l2 l3 : list A) :
  slice (length l1) (length l1 + length l2) (l1 ++ l2 ++ l3) = l2.
Proof.
  unfold slice. rewrite drop_app_length. replace (_ + _ - _) with (length l2) by lia.
  by rewrite take_app_length.
Qed.

(** [take]/[drop] on an append whose left part has exactly the given length. *)
Lemma take_app_exact {A} n (l1 l2 : list A) : length l1 = n → take n (l1 ++ l2) = l1.
Proof. intros <-. apply take_app_length. Qed.

Lemma drop_app_exact {A} n (l1 l2 : list A) : length l1 = n → drop n (l1 ++ l2) = l2.
Proof. intros <-. apply drop_app_length. Qed.

Lemma idx_Some {A} (l : list A) (i : nat) : idx l (Z.of_nat i) = l !! i.
Proof. unfold idx. rewrite (proj2 (Z.leb_le 0 _)) by lia. by rewrite Nat2Z.id. Qed.

(** ** Streams: [io.Reader]

    A reader yields its bytes and then, at the end, either [io.EOF]
    ([st_fin = None]) or a read error. *)
Inductive read_error : Type := ReadError (msg : bytes).

Record stream : Type := Stream { st_buf : bytes; st_fin : option read_error }.

Definition stream_of (l : bytes) : stream := Stream l None.

Inductive read_status : Type :=
| ReadOk
| ReadEOF            (* io.EOF *)
| ReadUnexpectedEOF  (* io.ErrUnexpectedEOF *)
| ReadFailed (e : read_error).

(** [bufio.Reader.ReadByte]. *)
Definition ReadByte (s : stream) : option byte * read_status * stream :=
  match st_buf s with
  | b :: l => (Some b, ReadOk, Stream l (st_fin s))
  | [] => (None, match st_fin s with None => ReadEOF | Some e => ReadFailed e end, s)
  end.

(** [io.ReadFull(r, buf)] with [len(buf) = n]: the bytes read, the error. *)
Definition ReadFull (n : nat) (s : stream) : bytes * read_status * stream :=
  let got := take n (st_buf s) in
  let s' := Stream (drop n (st_buf s)) (st_fin s) in
  if decide (length got = n) then (got, ReadOk, s')
  else match st_fin s with
       | Some e => (got, ReadFailed e, s')
       | None => if decide (length got = 0) then (got, ReadEOF, s')
                 else (got, ReadUnexpectedEOF, s')
       end.

(** ** Runs of a transition system *)
Inductive star {A} (R : A → A → Prop) : A → A → Prop :=
| star_refl a : star R a a
| star_step a b c : R a b → star R b c → star R a c.

Lemma star_invariant {A} (R : A → A → Prop) (I : A → Prop) :
  (∀ a b, I a → R a b → I b) → ∀ a b, star R a b → I a → I b.
Proof. intros HI a b Hs. induction Hs; eauto. Qed.

Lemma star_trans {A} (R : A → A → Prop) a b c : star R a b → star R b c → star R a c.
Proof. induction 1; eauto using @star_step. Qed.

Lemma star_one {A} (R : A → A → Prop) a b : R a b → star R a b.
Proof. eauto using @star_step, @star_refl. Qed.

(** ** Automation *)
Create HintDb bytes_db.
Create Rewrite HintDb bytes_db.
#[export] Hint Rewrite @length_app @length_take @length_drop @length_be_put @length_slice
  @length_replicate @length_map @length_fmap @length_insert : bytes_db.
#[export] Hint Resolve byte_val_range u32_range u16_range be_get_bound : bytes_db.

(** Normalise list lengths everywhere and finish with [lia]. *)
Ltac len := autorewrite with bytes_db in *; simpl in *; try lia.

(** Split every boolean test and [decide] in the goal, with [lia] to close
    impossible cases. *)
Ltac case_tests :=
  repeat (case_decide || case_bool_decide ||
    match goal with
    | |- context [if (?a <? ?b)%Z then _ else _] => destruct (Z.ltb_spec a b)
    | |- context [if (?a <=? ?b)%Z then _ else _] => destruct (Z.leb_spec a b)
    | |- context [if (?a =? ?b)%Z then _ else _] => destruct (Z.eqb_spec a b)
    end); try lia.

(** ** Checked slicing and [copy]

    [slicez l i j] is [l[i:j]] on a slice whose capacity is its length: [None]
    is the out-of-range panic. [copy_into dst src] is the content of [dst]
    after [copy(dst, src)]. *)
Definition slicez {A} (l : list A) (i j : Z) : option (list A) :=
  if ((0 <=? i) && (i <=? j) && (j <=? Z.of_nat (length l)))%Z
  then Some (slice (Z.to_nat i) (Z.to_nat j) l) else None.

Definition copy_into {A} (dst src : list A) : list A :=
  take (length dst) src ++ drop (length src) dst.

Lemma slicez_ok {A} (l : list A) i j :
  (0 ≤ i)%Z → (i ≤ j)%Z → (j ≤ Z.of_nat (length l))%Z →
  slicez l i j = Some (slice (Z.to_nat i) (Z.to_nat j) l).
Proof.
  intros H1 H2 H3. unfold slicez.
  by rewrite (proj2 (Z.leb_le _ _) H1), (proj2 (Z.leb_le _ _) H2), (proj2 (Z.leb_le _ _) H3).
Qed.

Lemma length_copy_into {A} (dst src : list A) : length (copy_into dst src) = length dst.
Proof. unfold copy_into. len. Qed.

(** A ring index one lap away at most. *)
Lemma mod_near x s :
  (0 ≤ x < 2 * s)%Z → (x mod s = if x <? s then x else x - s)%Z.
Proof.
  intros H. destruct (Z.ltb_spec x s); [apply Z.mod_small; lia|].
  rewrite <- (Z.mod_add x (-1) s) by lia. rewrite Z.mod_small; lia.
Qed.

(** ** Fixed-size chunking, the reference *)
Fixpoint pieces {A} (fuel n : nat) (l : list A) : list (list A) :=
  match fuel, l with
  | O, _ | _, [] => []
  | S fuel', _ => take n l :: pieces fuel' n (drop n l)
  end.

Definition chunks_of {A} (n : nat) (l : list A) : list (list A) := pieces (length l) n l.

Lemma pieces_fuel {A} f n (l : list A) :
  0 < n → length l ≤ f → pieces f n l = chunks_of n l.
Proof.
  intros Hn Hf. unfold chunks_of. generalize (le_n (length l)). generalize (length l) at 2 3.
  revert l Hf. induction f as [|f IH]; intros [|x l] Hf [|g] Hg; simpl in *; try done; try lia.
  f_equal. assert (length (drop n (x :: l)) ≤ length l) by (rewrite length_drop; simpl; lia).
  apply IH; lia.
Qed.

Lemma chunks_of_nil {A} n : chunks_of n (@nil A) = [].
Proof. done. Qed.

Lemma chunks_of_cons {A} n (l : list A) :
  0 < n → l ≠ [] → chunks_of n l = take n l :: chunks_of n (drop n l).
Proof.
  intros Hn Hl. destruct l as [|x l]; [done|]. unfold chunks_of at 1. cbn [length pieces].
  f_equal. apply pieces_fuel; [done|]. rewrite length_drop. simpl. lia.
Qed.

(** Induction along the chunks of a list. *)
Lemma chunks_ind {A} n (Hn : 0 < n) (P : list A → Prop) :
  P [] → (∀ l, l ≠ [] → P (drop n l) → P l) → ∀ l, P l.
Proof.
  intros H0 Hs l. remember (length l) as k eqn:Hk. revert l Hk.
  induction k as [k IH] using lt_wf_ind. intros [|x l] ->; [done|].
  apply Hs; [done|]. eapply IH; [|done]. rewrite length_drop. simpl. lia.
Qed.

Lemma concat_chunks_of {A} n (l : list A) : 0 < n → concat (chunks_of n l) = l.
Proof.
  intros Hn. induction l as [|l Hl IH] using (chunks_ind n Hn); [done|].
  rewrite chunks_of_cons by done. simpl. by rewrite IH, take_drop.
Qed.

Lemma chunks_of_lookup {A} n (l : list A) i c :
  0 < n → chunks_of n l !! i = Some c → c = take n (drop (i * n) l) ∧ i * n < length l.
Proof.
  intros Hn. revert i. induction l as [|l Hl IH] using (chunks_ind n Hn); intros i Hi; [done|].
  assert (0 < length l) by (destruct l; simpl; [done|lia]).
  rewrite chunks_of_cons in Hi by done. destruct i as [|i]; simpl in Hi.
  - injection Hi as <-. by rewrite drop_0.
  - apply IH in Hi as [-> Hi]. rewrite drop_drop, length_drop in *. split; [|lia].
    done.
Qed.

Lemma chunks_of_lookup_Some {A} n (l : list A) i :
  0 < n → i * n < length l → chunks_of n l !! i = Some (take n (drop (i * n) l)).
Proof.
  intros Hn. revert i. induction l as [|l Hl IH] using (chunks_ind n Hn); intros i Hi; [simpl in Hi; lia|].
  rewrite chunks_of_cons by done. destruct i as [|i]; simpl in *; [by rewrite drop_0|].
  rewrite IH by (rewrite length_drop; lia). by rewrite drop_drop.
Qed.

Lemma chunks_of_bounds {A} n (l : list A) :
  0 < n → Forall (λ c, 0 < length c ≤ n) (chunks_of n l).
Proof.
  intros Hn. apply Forall_lookup_2. intros i c Hi. apply chunks_of_lookup in Hi as [-> Hi]; [|done].
  rewrite length_take, length_drop. lia.
Qed.

Lemma length_chunks_of_le {A} n (l : list A) : 0 < n → length (chunks_of n l) ≤ length l.
Proof.
  intros Hn. induction l as [|l Hl IH] using (chunks_ind n Hn); [done|].
  rewrite chunks_of_cons by done. simpl. rewrite length_drop in IH. destruct l; [done|]. simpl in *. lia.
Qed.

(** ** The order of Go strings: byte-wise lexicographic *)
Fixpoint bytes_leb (a b : bytes) : bool :=
  match a, b with
  | [], _ => true
  | _ :: _, [] => false
  | x :: a', y :: b' =>
      if (byte_val x <? byte_val y)%Z then true
      else if (byte_val y <? byte_val x)%Z then false
      else bytes_leb a' b'
  end.

Definition bytes_le (a b : bytes) : Prop := Is_true (bytes_leb a b).

#[global] Instance bytes_le_dec : RelDecision bytes_le.
Proof. intros a b. unfold bytes_le. apply _. Defined.

#[global] Instance bytes_le_refl : Reflexive bytes_le.
Proof. intros a. unfold bytes_le. induction a; simpl; [done|]. by rewrite Z.ltb_irrefl. Qed.

#[global] Instance bytes_le_total : Total bytes_le.
Proof.
  intros a. unfold bytes_le. induction a as [|x a IH]; intros [|y b]; simpl; auto.
  destruct (Z.ltb_spec (byte_val x) (byte_val y)), (Z.ltb_spec (byte_val y) (byte_val x)); auto.
Qed.

#[global] Instance bytes_le_antisymm : AntiSymm (=) bytes_le.
Proof.
  intros a. unfold bytes_le. induction a as [|x a IH]; intros [|y b]; simpl; try done.
  destruct (Z.ltb_spec (byte_val x) (byte_val y)), (Z.ltb_spec (byte_val y) (byte_val x));
    try done; try lia.
  intros H1 H2. f_equal; [apply byte_val_inj; lia|by apply IH].
Qed.

#[global] Instance bytes_le_trans : Transitive bytes_le.
Proof.
  intros a. unfold bytes_le. induction a as [|x a IH]; intros [|y b] [|z c]; simpl; try done.
  destruct (Z.ltb_spec (byte_val x) (byte_val y)), (Z.ltb_spec (byte_val y) (byte_val x)),
    (Z.ltb_spec (byte_val y) (byte_val z)), (Z.ltb_spec (byte_val z) (byte_val y)),
    (Z.ltb_spec (byte_val x) (byte_val z)), (Z.ltb_spec (byte_val z) (byte_val x)); try done; try lia.
  apply IH.
Qed.

(** ** Sums over finite maps *)
Section total.
Context `{Countable K} {A : Type}.
Implicit Types (f : A → nat) (m : gmap K A) (k : K).

Definition total f m : nat := map_fold (λ _ a n, f a + n) 0 m.

Lemma total_insert_new f m k a : m !! k = None → total f (<[k := a]> m) = f a + total f m.
Proof. intros Hk. unfold total. rewrite map_fold_insert_L; [done|intros; lia|done]. Qed.

Lemma total_delete f m k a : m !! k = Some a → total f m = f a + total f (delete k m).
Proof. intros Hk. unfold total. rewrite (map_fold_delete_L _ _ k a); [done|intros; lia|done]. Qed.

Lemma total_insert f m k a b : m !! k = Some a → total f (<[k := b]> m) + f a = total f m + f b.
Proof.
  intros Hk. rewrite (total_delete f m k a), (total_delete f (<[k := b]> m) k b), delete_insert_eq
    by (done || apply lookup_insert_eq). lia.
Qed.

Lemma total_le f m k a : m !! k = Some a → f a ≤ total f m.
Proof. intros Hk. rewrite (total_delete f m k a) by done. lia. Qed.

Lemma total_alter f (g : A → A) m k : (∀ a, f (g a) = f a) → total f (alter g k m) = total f m.
Proof.
  intros Hg. destruct (m !! k) as [a|] eqn:E.
  - rewrite (total_delete f m k a), (total_delete f (alter g k m) k (g a)), delete_alter_eq, Hg by
      (done || (rewrite lookup_alter_eq, E; done)). done.
  - by rewrite alter_id by (intros ? Ha; congruence).
Qed.

Lemma total_zero f m : (∀ k a, m !! k = Some a → f a = 0) → total f m = 0.
Proof.
  unfold total. induction m as [|k a m Hk IH] using map_ind; [done|].
  intros Hz. fold (total f (<[k := a]> m)). rewrite total_insert_new by done.
  rewrite (Hz k a) by apply lookup_insert_eq. apply IH. intros k' a' Ha'. apply (Hz k').
  rewrite lookup_insert_ne; [done|]. intros ->. congruence.
Qed.
End total.
