(* ===== verification/Sha256.v ===== *)
(** * The hash interface and SHA-256

    The program hashes with Go's [crypto/sha256] everywhere: chunk addresses,
    block signatures, Merkle nodes, certificate fingerprints. The components
    are written against the class [HashFn]; its instance [sha256_fips] is an
    executable SHA-256 (FIPS 180-4), checked on published vectors. Theorems
    hold for every instance, and collision resistance appears in them only as
    [collision_free], an explicit hypothesis on the finite sets of messages
    that are compared. *)
From Stdlib Require Import Strings.Byte Strings.String.
From S2P Require Import Prelude.
Local Open Scope Z_scope.

Class HashFn := {
  sha256 : bytes → bytes;
  sha256_length : ∀ m, length (sha256 m) = 32%nat;
}.

(** No message of [xs] collides with a different message of [ys]. *)
Definition collision_free `{HashFn} (xs ys : list bytes) : Prop :=
  ∀ x y, x ∈ xs → y ∈ ys → sha256 x = sha256 y → x = y.

(** A test that hashes each message once. *)
Definition collision_freeb `{HashFn} (xs ys : list bytes) : bool :=
  let hys := (λ y, (y, sha256 y)) <$> ys in
  forallb (λ x, let hx := sha256 x in
    forallb (λ yh, implb (bool_decide (hx = yh.2)) (bool_decide (x = yh.1))) hys) xs.

Lemma collision_freeb_sound `{HashFn} xs ys :
  collision_freeb xs ys = true → collision_free xs ys.
Proof.
  unfold collision_freeb. intros Hb x y Hx Hy E.
  rewrite List.forallb_forall in Hb.
  specialize (Hb x (proj1 (list_elem_of_In _ _) Hx)).
  rewrite List.forallb_forall in Hb.
  specialize (Hb (y, sha256 y)). rewrite <- list_elem_of_In, list_elem_of_fmap in Hb.
  specialize (Hb ltac:(eauto)). simpl in Hb.
  rewrite (bool_decide_eq_true_2 _ E) in Hb. simpl in Hb.
  by apply bool_decide_eq_true in Hb.
Qed.

(** A hasher accumulates what is written to it; [Sum] hashes all of it. *)
Record hasher := Hasher { hs_written : bytes }.
Definition hasher_New : hasher := Hasher [].
Definition hasher_Write (h : hasher) (p : bytes) : hasher := Hasher (hs_written h ++ p).
Definition hasher_Sum `{HashFn} (h : hasher) : bytes := sha256 (hs_written h).

Lemma hasher_writes `{HashFn} (ps : list bytes) h :
  hs_written (foldl hasher_Write h ps) = hs_written h ++ concat ps.
Proof.
  revert h. induction ps as [|p ps IH]; intros h; simpl; [by rewrite app_nil_r|].
  rewrite IH. simpl. by rewrite app_assoc.
Qed.

Module FIPS180.

Definition mask32 : Z := 2 ^ 32 - 1.
Definition add32 (x y : Z) : Z := Z.land (x + y) mask32.
Definition rotr (n x : Z) : Z := Z.lor (Z.shiftr x n) (Z.land (Z.shiftl x (32 - n)) mask32).
Definition not32 (x : Z) : Z := Z.lxor x mask32.
Definition xor3 (x y z : Z) : Z := Z.lxor x (Z.lxor y z).

Definition ch (x y z : Z) : Z := Z.lxor (Z.land x y) (Z.land (not32 x) z).
Definition maj (x y z : Z) : Z := xor3 (Z.land x y) (Z.land x z) (Z.land y z).
Definition big_sigma0 (x : Z) : Z := xor3 (rotr 2 x) (rotr 13 x) (rotr 22 x).
Definition big_sigma1 (x : Z) : Z := xor3 (rotr 6 x) (rotr 11 x) (rotr 25 x).
Definition small_sigma0 (x : Z) : Z := xor3 (rotr 7 x) (rotr 18 x) (Z.shiftr x 3).
Definition small_sigma1 (x : Z) : Z := xor3 (rotr 17 x) (rotr 19 x) (Z.shiftr x 10).

(** The sixty-four round constants of section 4.2.2, in decimal. *)
Definition round_constants : list Z :=
  [1116352408; 1899447441; 3049323471; 3921009573; 961987163; 1508970993; 2453635748; 2870763221;
   3624381080; 310598401; 607225278; 1426881987; 1925078388; 2162078206; 2614888103; 3248222580;
   3835390401; 4022224774; 264347078; 604807628; 770255983; 1249150122; 1555081692; 1996064986;
   2554220882; 2821834349; 2952996808; 3210313671; 3336571891; 3584528711; 113926993; 338241895;
   666307205; 773529912; 1294757372; 1396182291; 1695183700; 1986661051; 2177026350; 2456956037;
   2730485921; 2820302411; 3259730800; 3345764771; 3516065817; 3600352804; 4094571909; 275423344;
   430227734; 506948616; 659060556; 883997877; 958139571; 1322822218; 1537002063; 1747873779;
   1955562222; 2024104815; 2227730452; 2361852424; 2428436474; 2756734187; 3204031479; 3329325298].

Record working := Working { wa : Z; wb : Z; wc : Z; wd : Z; we : Z; wf : Z; wg : Z; wh : Z }.

Definition initial_state : working :=
  Working 1779033703 3144134277 1013904242 2773480762 1359893119 2600822924 528734635 1541459225.

Definition round (s : working) (kw : Z * Z) : working :=
  let t1 := add32 (add32 (add32 (wh s) (big_sigma1 (we s))) (ch (we s) (wf s) (wg s)))
                  (add32 kw.1 kw.2) in
  let t2 := add32 (big_sigma0 (wa s)) (maj (wa s) (wb s) (wc s)) in
  Working (add32 t1 t2) (wa s) (wb s) (wc s) (add32 (wd s) t1) (we s) (wf s) (wg s).

(** The message schedule: [recent] holds the last sixteen words. *)
Fixpoint extend_schedule (n : nat) (recent : list Z) : list Z :=
  match n with
  | O => []
  | S n' =>
      let w t := nth t recent 0 in
      let next := add32 (add32 (small_sigma1 (w 14%nat)) (w 9%nat))
                        (add32 (small_sigma0 (w 1%nat)) (w 0%nat)) in
      next :: extend_schedule n' (drop 1 recent ++ [next])
  end.

Definition schedule (block : list Z) : list Z := block ++ extend_schedule 48 block.

Definition add_state (s t : working) : working :=
  Working (add32 (wa s) (wa t)) (add32 (wb s) (wb t)) (add32 (wc s) (wc t)) (add32 (wd s) (wd t))
          (add32 (we s) (we t)) (add32 (wf s) (wf t)) (add32 (wg s) (wg t)) (add32 (wh s) (wh t)).

Definition compress (s : working) (block : list Z) : working :=
  add_state s (foldl round s (zip round_constants (schedule block))).

Definition pad (m : bytes) : bytes :=
  let l := Z.of_nat (length m) in
  m ++ x80 :: replicate (Z.to_nat ((55 - l) mod 64)) x00 ++ be_put 8 (8 * l).

Definition words_of (m : bytes) : list Z := be_get <$> pieces (length m) 4 m.

Definition digest (s : working) : bytes :=
  concat (be_put 4 <$> [wa s; wb s; wc s; wd s; we s; wf s; wg s; wh s]).

Definition hash (m : bytes) : bytes :=
  let ws := words_of (pad m) in
  digest (foldl compress initial_state (pieces (length ws) 16 ws)).

Lemma length_hash m : length (hash m) = 32%nat.
Proof. reflexivity. Qed.

Example hash_abc :
  hex_encode (hash (bytes_of_string "abc"))
  = bytes_of_string "ba7816bf8f01cfea414140de5dae2223b00361a396177a9cb410ff61f20015ad".
Proof. vm_compute. reflexivity. Qed.

Example hash_empty :
  hex_encode (hash [])
  = bytes_of_string "e3b0c44298fc1c149afbf4c8996fb92427ae41e4649b934ca495991b7852b855".
Proof. vm_compute. reflexivity. Qed.

Example hash_two_blocks :
  hex_encode (hash (bytes_of_string "abcdbcdecdefdefgefghfghighijhijkijkljklmklmnlmnomnopnopq"))
  = bytes_of_string "248d6a61d20638b8e5c026930c3e6039a33ce45964ff2167f6ecedd419db06c1".
Proof. vm_compute. reflexivity. Qed.

End FIPS180.

Definition sha256_fips : HashFn :=
  {| sha256 := FIPS180.hash; sha256_length := FIPS180.length_hash |}.
