(* ===== verification/Rolling.v ===== *)
(** * The rolling hash of internal/delta/rolling.go

    [RollingHash] is a ring buffer with an Adler-32 style sum. The state is
    the Go struct; [represents rh l] relates it to the byte list [l] it holds,
    and every operation is proved against that abstract list. Index panics
    and division by a zero size are explicit outcomes. *)
From Stdlib Require Import Strings.Byte.
From S2P Require Import Prelude.
Local Open Scope Z_scope.

Definition DefaultBlockSize : Z := 4 * 1024.
Definition RollingHashMod : Z := 65521.
Definition MaxBlockSize : Z := 64 * 1024.

Record RollingHash := {
  rh_a : Z;          (* uint32 *)
  rh_b : Z;          (* uint32 *)
  rh_window : bytes;
  rh_size : Z;
  rh_pos : Z;
  rh_count : Z;
  rh_blockSize : Z;
}.

(** The loop body shared by [recompute] and [ComputeBlockSignature]. *)
Definition adler_step (ab : Z * Z) (c : byte) : Z * Z :=
  let a := u32 (ab.1 + byte_val c) mod RollingHashMod in
  let b := u32 (ab.2 + a) mod RollingHashMod in
  (a, b).

Definition adler (l : bytes) : Z * Z := foldl adler_step (1, 0) l.

(** [(b << 16) | a] on [uint32]. *)
Definition pack (ab : Z * Z) : Z := Z.lor (u32 (Z.shiftl ab.2 16)) ab.1.

Definition Reset (rh : RollingHash) (blockSize : Z) : RollingHash := {|
  rh_a := 1;
  rh_b := 0;
  rh_window := replicate (length (rh_window rh)) x00;
  rh_size := Z.of_nat (length (rh_window rh));
  rh_pos := 0;
  rh_count := 0;
  rh_blockSize := blockSize;
|}.

(** [pooled] is the backing array of the window of the pooled object, whose
    length is the capacity of that slice. *)
Definition NewRollingHash (pooled : bytes) (blockSize : Z) : RollingHash :=
  let blockSize := if blockSize <=? 0 then DefaultBlockSize else blockSize in
  let blockSize := if MaxBlockSize <? blockSize then MaxBlockSize else blockSize in
  let window := if Z.of_nat (length pooled) <? blockSize
                then replicate (Z.to_nat blockSize) x00
                else take (Z.to_nat blockSize) pooled in
  Reset {| rh_a := 0; rh_b := 0; rh_window := window; rh_size := 0; rh_pos := 0;
           rh_count := 0; rh_blockSize := 0 |} blockSize.

(** Go's [%]: truncated remainder, a panic on zero. *)
Definition go_rem {E} (x y : Z) : outcome E Z :=
  if y =? 0 then Panic else Ret (Z.rem x y).

Definition startPos {E} (rh : RollingHash) : outcome E Z :=
  go_rem (rh_pos rh - rh_count rh + rh_size rh) (rh_size rh).

Fixpoint recompute_loop {E} (window : bytes) (size start i : Z) (n : nat) (ab : Z * Z)
    : outcome E (Z * Z) :=
  match n with
  | O => Ret ab
  | S n' =>
      k ← go_rem (start + i) size;
      c ← or_panic (idx window k);
      recompute_loop window size start (i + 1) n' (adler_step ab c)
  end.

Definition set_sums (rh : RollingHash) (ab : Z * Z) : RollingHash := {|
  rh_a := ab.1; rh_b := ab.2; rh_window := rh_window rh; rh_size := rh_size rh;
  rh_pos := rh_pos rh; rh_count := rh_count rh; rh_blockSize := rh_blockSize rh |}.

Definition recompute {E} (rh : RollingHash) : outcome E RollingHash :=
  start ← startPos rh;
  ab ← recompute_loop (rh_window rh) (rh_size rh) start 0 (Z.to_nat (rh_count rh)) (1, 0);
  Ret (set_sums rh ab).

(** [rh.window[i] = b] *)
Definition set_window {E} (rh : RollingHash) (i : Z) (b : byte) : outcome E bytes :=
  _ ← or_panic (idx (rh_window rh) i);
  Ret (<[Z.to_nat i := b]> (rh_window rh)).

Definition RollIn {E} (rh : RollingHash) (b : byte) : outcome E (bool * RollingHash) :=
  if rh_count rh <? rh_blockSize rh then
    window ← set_window rh (rh_pos rh) b;
    pos ← go_rem (rh_pos rh + 1) (rh_size rh);
    rh' ← recompute {| rh_a := rh_a rh; rh_b := rh_b rh; rh_window := window;
                       rh_size := rh_size rh; rh_pos := pos; rh_count := rh_count rh + 1;
                       rh_blockSize := rh_blockSize rh |};
    Ret (rh_count rh' =? rh_blockSize rh', rh')
  else Ret (true, rh).

Definition Roll {E} (rh : RollingHash) (newByte : byte) : outcome E RollingHash :=
  let oldPos := rh_pos rh in
  window ← set_window rh oldPos newByte;
  pos ← go_rem (rh_pos rh + 1) (rh_size rh);
  recompute {| rh_a := rh_a rh; rh_b := rh_b rh; rh_window := window;
               rh_size := rh_size rh; rh_pos := pos; rh_count := rh_count rh;
               rh_blockSize := rh_blockSize rh |}.

Definition Sum (rh : RollingHash) : Z := pack (rh_a rh, rh_b rh).

Definition Window {E} (rh : RollingHash) : outcome E bytes :=
  let result := replicate (Z.to_nat (rh_blockSize rh)) x00 in
  start ← startPos rh;
  if start + rh_count rh <=? rh_size rh then
    src ← or_panic (slicez (rh_window rh) start (start + rh_count rh));
    Ret (copy_into result src)
  else
    let firstPart := rh_size rh - start in
    d1 ← or_panic (slicez result 0 firstPart);
    s1 ← or_panic (slicez (rh_window rh) start (Z.of_nat (length (rh_window rh))));
    d2 ← or_panic (slicez result firstPart (Z.of_nat (length result)));
    s2 ← or_panic (slicez (rh_window rh) 0 (rh_count rh - firstPart));
    Ret (copy_into d1 s1 ++ copy_into d2 s2).

Definition IsFull (rh : RollingHash) : bool := rh_blockSize rh <=? rh_count rh.

(** ** The abstract window

    [ring window size pos l]: reading [length l] cells that end just before
    [pos], wrapping around, gives [l]. *)
Definition ring (window : bytes) (size pos : Z) (l : bytes) : Prop :=
  ∀ i x, l !! i = Some x →
    idx window ((pos - Z.of_nat (length l) + size + Z.of_nat i) mod size) = Some x.

Record represents (rh : RollingHash) (l : bytes) : Prop := {
  rep_size : rh_size rh = Z.of_nat (length (rh_window rh));
  rep_block : rh_blockSize rh = rh_size rh;
  rep_pos : 0 ≤ rh_pos rh < rh_size rh;
  rep_count : rh_count rh = Z.of_nat (length l);
  rep_fits : rh_count rh ≤ rh_size rh;
  rep_ring : ring (rh_window rh) (rh_size rh) (rh_pos rh) l;
  rep_sums : (rh_a rh, rh_b rh) = adler l;
}.

Lemma go_rem_ok {E} x y : 0 ≤ x → 0 < y → go_rem (E:=E) x y = Ret (x mod y).
Proof.
  intros Hx Hy. unfold go_rem. rewrite (proj2 (Z.eqb_neq y 0)) by lia.
  by rewrite Z.rem_mod_nonneg by lia.
Qed.

Lemma idx_insert_eq (w : bytes) p b :
  0 ≤ p < Z.of_nat (length w) → idx (<[Z.to_nat p := b]> w) p = Some b.
Proof.
  intros Hp. unfold idx. rewrite (proj2 (Z.leb_le 0 p)) by lia.
  apply list_lookup_insert_eq. lia.
Qed.

Lemma idx_insert_ne (w : bytes) p q b :
  0 ≤ p → p ≠ q → idx (<[Z.to_nat p := b]> w) q = idx w q.
Proof.
  intros Hp Hne. unfold idx. destruct (Z.leb_spec 0 q); [|done].
  apply list_lookup_insert_ne. lia.
Qed.

Lemma set_window_ok {E} rh i b :
  0 ≤ i < Z.of_nat (length (rh_window rh)) →
  set_window (E:=E) rh i b = Ret (<[Z.to_nat i := b]> (rh_window rh)).
Proof.
  intros Hi. unfold set_window, idx. rewrite (proj2 (Z.leb_le 0 i)) by lia.
  destruct (lookup_lt_is_Some_2 (rh_window rh) (Z.to_nat i)) as [x Hx]; [lia|].
  by rewrite Hx.
Qed.

Lemma ring_nil w s pos : ring w s pos [].
Proof. intros i x H. by rewrite lookup_nil in H. Qed.

(** Forgetting the oldest byte moves no cell. *)
Lemma ring_tail w s pos x l : ring w s pos (x :: l) → ring w s pos l.
Proof.
  intros H i y Hy. specialize (H (S i) y Hy). simpl in H.
  by replace (pos - Z.of_nat (length l) + s + Z.of_nat i)
    with (pos - Z.of_nat (S (length l)) + s + Z.of_nat (S i)) by lia.
Qed.

(** Writing at [pos] and advancing appends one byte, if a cell is free. *)
Lemma ring_push w s pos l b :
  s = Z.of_nat (length w) → 0 ≤ pos < s → Z.of_nat (length l) < s →
  ring w s pos l → ring (<[Z.to_nat pos := b]> w) s ((pos + 1) mod s) (l ++ [b]).
Proof.
  intros Hs Hpos Hlen H i y Hy. rewrite length_app. simpl.
  assert (Hi : (i < length l + 1)%nat).
  { apply lookup_lt_Some in Hy. by rewrite length_app in Hy. }
  replace (((pos + 1) mod s - Z.of_nat (length l + 1) + s + Z.of_nat i) mod s)
    with ((pos - Z.of_nat (length l) + s + Z.of_nat i) mod s).
  2:{ replace ((pos + 1) mod s - Z.of_nat (length l + 1) + s + Z.of_nat i)
        with ((pos + 1) mod s + (s + Z.of_nat i - Z.of_nat (length l + 1))) by lia.
      rewrite Zplus_mod_idemp_l. f_equal. lia. }
  destruct (decide (i = length l)) as [->|Hne].
  - rewrite lookup_app_r in Hy by lia. rewrite Nat.sub_diag in Hy. injection Hy as <-.
    replace (pos - Z.of_nat (length l) + s + Z.of_nat (length l)) with (pos + 1 * s) by lia.
    rewrite Z.mod_add by lia. rewrite Z.mod_small by lia. apply idx_insert_eq. lia.
  - rewrite lookup_app_l in Hy by lia. rewrite idx_insert_ne; [by apply H|lia|].
    rewrite mod_near by lia. destruct (Z.ltb_spec (pos - Z.of_nat (length l) + s + Z.of_nat i) s); lia.
Qed.

Lemma recompute_loop_ok {E} w s start i l ab :
  0 < s → 0 ≤ start → 0 ≤ i →
  (∀ j x, l !! j = Some x → idx w ((start + i + Z.of_nat j) mod s) = Some x) →
  recompute_loop (E:=E) w s start i (length l) ab = Ret (foldl adler_step ab l).
Proof.
  intros Hs Hst. revert i ab. induction l as [|c l IH]; intros i ab Hi H; [done|].
  cbn [length recompute_loop]. rewrite go_rem_ok by lia. simpl.
  pose proof (H 0%nat c eq_refl) as H0. rewrite Z.add_0_r in H0. rewrite H0. simpl.
  apply IH; [lia|]. intros j x Hj. specialize (H (S j) x Hj).
  by replace (start + (i + 1) + Z.of_nat j) with (start + i + Z.of_nat (S j)) by lia.
Qed.

Lemma recompute_ok {E} rh l :
  rh_size rh = Z.of_nat (length (rh_window rh)) → 0 ≤ rh_pos rh < rh_size rh →
  rh_count rh = Z.of_nat (length l) → rh_count rh ≤ rh_size rh →
  ring (rh_window rh) (rh_size rh) (rh_pos rh) l →
  recompute (E:=E) rh = Ret (set_sums rh (adler l)).
Proof.
  intros Hs Hp Hc Hf Hr. unfold recompute, startPos. rewrite go_rem_ok by lia. simpl.
  rewrite Hc, Nat2Z.id. rewrite recompute_loop_ok with (l := l); try done; [lia| |].
  - apply Z.mod_pos_bound. lia.
  - intros j x Hj. specialize (Hr j x Hj). rewrite Z.add_0_r, Zplus_mod_idemp_l. done.
Qed.

Lemma RollIn_ok {E} rh l b :
  represents rh l → Z.of_nat (length l) < rh_size rh →
  ∃ rh', RollIn (E:=E) rh b = Ret (Z.of_nat (length l) + 1 =? rh_size rh, rh')
    ∧ represents rh' (l ++ [b]) ∧ rh_size rh' = rh_size rh.
Proof.
  intros [Hs Hb Hp Hc Hf Hr Hab] Hlt. unfold RollIn.
  rewrite (proj2 (Z.ltb_lt (rh_count rh) _)) by lia.
  rewrite set_window_ok by lia. simpl. rewrite go_rem_ok by lia. simpl.
  rewrite recompute_ok with (l := l ++ [b]); simpl; [|len..].
  - eexists. split; [rewrite Hb, Hc; done|]. split; [|done].
    constructor; simpl; len; try done.
    + apply Z.mod_pos_bound; lia.
    + by apply ring_push.
    + by destruct (adler (l ++ [b])).
  - apply Z.mod_pos_bound; lia.
  - by apply ring_push.
Qed.

Lemma RollIn_full {E} rh l b :
  represents rh l → Z.of_nat (length l) = rh_size rh → RollIn (E:=E) rh b = Ret (true, rh).
Proof.
  intros [Hs Hb Hp Hc Hf Hr Hab] Heq. unfold RollIn.
  by rewrite (proj2 (Z.ltb_ge (rh_count rh) _)) by lia.
Qed.

Lemma Roll_ok {E} rh x l b :
  represents rh (x :: l) → Z.of_nat (length (x :: l)) = rh_size rh →
  ∃ rh', Roll (E:=E) rh b = Ret rh' ∧ represents rh' (l ++ [b]) ∧ rh_size rh' = rh_size rh.
Proof.
  intros [Hs Hb Hp Hc Hf Hr Hab] Hlen. simpl in *. unfold Roll.
  rewrite set_window_ok by lia. simpl. rewrite go_rem_ok by lia. simpl.
  apply ring_tail in Hr.
  rewrite recompute_ok with (l := l ++ [b]); simpl; [|len..].
  - eexists. split; [done|]. split; [|done]. constructor; simpl; len; try done.
    + apply Z.mod_pos_bound; lia.
    + apply ring_push; try done; lia.
    + by destruct (adler (l ++ [b])).
  - apply Z.mod_pos_bound; lia.
  - apply ring_push; try done; lia.
Qed.

Lemma Reset_represents rh bs :
  bs = Z.of_nat (length (rh_window rh)) → 0 < bs → represents (Reset rh bs) [].
Proof. intros -> H. constructor; simpl; len; first [done | apply ring_nil]. Qed.

Lemma NewRollingHash_represents pooled bs :
  0 < bs ≤ MaxBlockSize →
  represents (NewRollingHash pooled bs) [] ∧ rh_size (NewRollingHash pooled bs) = bs.
Proof.
  intros H. unfold NewRollingHash.
  rewrite (proj2 (Z.leb_gt bs 0)), (proj2 (Z.ltb_ge MaxBlockSize bs)) by lia.
  set (w := if _ <? _ then _ else _).
  assert (Z.of_nat (length w) = bs) by (subst w; destruct (Z.ltb_spec (Z.of_nat (length pooled)) bs); len).
  split; [|done]. apply Reset_represents; simpl; lia.
Qed.

(** ** The window in order *)
Lemma ring_slice w s pos l start :
  s = Z.of_nat (length w) → 0 ≤ pos < s → Z.of_nat (length l) ≤ s →
  ring w s pos l → start = (pos - Z.of_nat (length l) + s) mod s →
  l = take (length l) (drop (Z.to_nat start) w ++ take (Z.to_nat start) w).
Proof.
  intros Hs Hp Hl Hr ->. set (st := (pos - Z.of_nat (length l) + s) mod s).
  assert (Hst : 0 ≤ st < s) by (apply Z.mod_pos_bound; lia).
  apply list_eq_same_length with (length l); [len|done|].
  intros i x y Hi Hx Hy. pose proof (Hr i x Hx) as Hix.
  rewrite <- (Zplus_mod_idemp_l (pos - _ + s)) in Hix. fold st in Hix.
  rewrite lookup_take_lt in Hy by done. rewrite mod_near in Hix by lia.
  unfold idx in Hix. destruct (Z.ltb_spec (st + Z.of_nat i) s).
  - rewrite lookup_app_l in Hy by len. rewrite lookup_drop in Hy.
    rewrite (proj2 (Z.leb_le 0 _)) in Hix by lia.
    replace (Z.to_nat (st + Z.of_nat i)) with (Z.to_nat st + i)%nat in Hix by lia. congruence.
  - rewrite lookup_app_r in Hy by len. rewrite length_drop in Hy.
    rewrite (proj2 (Z.leb_le 0 _)) in Hix by lia.
    rewrite lookup_take_lt in Hy by lia.
    replace (Z.to_nat (st + Z.of_nat i - s)) with (i - (length w - Z.to_nat st))%nat in Hix by lia.
    congruence.
Qed.

Lemma copy_into_zeros (n : nat) (src : bytes) :
  (length src ≤ n)%nat → copy_into (replicate n x00) src = src ++ replicate (n - length src) x00.
Proof.
  intros H. unfold copy_into. rewrite length_replicate, take_ge, drop_replicate by done. done.
Qed.

(** [Window] returns the held bytes, oldest first, zero-padded to the block
    size. *)
Lemma Window_ok {E} rh l :
  represents rh l →
  Window (E:=E) rh = Ret (l ++ replicate (Z.to_nat (rh_size rh) - length l) x00).
Proof.
  intros [Hs Hb Hp Hc Hf Hr Hab]. unfold Window, startPos. rewrite go_rem_ok by lia. simpl.
  set (st := (rh_pos rh - rh_count rh + rh_size rh) mod rh_size rh).
  assert (Hst : 0 ≤ st < rh_size rh) by (apply Z.mod_pos_bound; lia).
  assert (Hl : l = take (length l) (drop (Z.to_nat st) (rh_window rh) ++ take (Z.to_nat st) (rh_window rh))).
  { apply (ring_slice _ (rh_size rh) (rh_pos rh)); try done; [lia|]. by unfold st; rewrite Hc. }
  rewrite Hb. replace (Z.to_nat (rh_size rh)) with (length (rh_window rh)) by lia.
  destruct (Z.leb_spec (st + rh_count rh) (rh_size rh)).
  - rewrite slicez_ok by lia. simpl.
    rewrite copy_into_zeros by len. unfold slice.
    rewrite take_app_le in Hl by len.
    replace (Z.to_nat (st + rh_count rh) - Z.to_nat st)%nat with (length l) by lia.
    by rewrite <- Hl.
  - rewrite (slicez_ok _ 0 (rh_size rh - st)) by len. simpl.
    rewrite slicez_ok by lia. simpl. rewrite slicez_ok by len. simpl.
    rewrite slicez_ok by lia. simpl. f_equal.
    unfold slice. rewrite drop_0, Nat.sub_0_r, take_replicate, drop_replicate, take_replicate.
    rewrite !copy_into_zeros by len. len. rewrite app_assoc.
    rewrite take_app_ge in Hl by len. rewrite take_take in Hl.
    f_equal.
    + match goal with |- context [replicate ?n _] => replace n with 0%nat by lia end.
      simpl. rewrite app_nil_r, take_ge, drop_0 by len. etransitivity; [|symmetry; exact Hl]. f_equal. f_equal. len.
    + f_equal. len.
Qed.

(** ** Closed form of the sum *)
Fixpoint byte_sum (l : bytes) : Z :=
  match l with [] => 0 | c :: l' => byte_val c + byte_sum l' end.

Fixpoint weighted_sum (l : bytes) : Z :=
  match l with [] => 0 | c :: l' => Z.of_nat (length l) * byte_val c + weighted_sum l' end.

Lemma adler_step_mod a b c :
  0 ≤ a < RollingHashMod → 0 ≤ b < RollingHashMod →
  adler_step (a, b) c
  = ((a + byte_val c) mod RollingHashMod, (b + a + byte_val c) mod RollingHashMod).
Proof.
  intros Ha Hb. unfold adler_step, RollingHashMod in *. simpl. pose proof (byte_val_range c).
  rewrite (u32_small (a + _)) by lia.
  pose proof (Z.mod_pos_bound (a + byte_val c) 65521 ltac:(lia)).
  rewrite u32_small by lia. f_equal.
  rewrite Zplus_mod_idemp_r. f_equal. lia.
Qed.

Lemma adler_foldl l a b :
  0 ≤ a < RollingHashMod → 0 ≤ b < RollingHashMod →
  foldl adler_step (a, b) l
  = ((a + byte_sum l) mod RollingHashMod,
     (b + Z.of_nat (length l) * a + weighted_sum l) mod RollingHashMod).
Proof.
  revert a b. induction l as [|c l IH]; intros a b Ha Hb.
  - simpl. rewrite !Z.add_0_r, !Z.mod_small by done. done.
  - cbn [foldl byte_sum weighted_sum length]. rewrite adler_step_mod by done.
    rewrite IH by (apply Z.mod_pos_bound; done). f_equal.
    + rewrite Zplus_mod_idemp_l. f_equal. lia.
    + rewrite <- Z.add_assoc, Zplus_mod_idemp_l, Z.add_assoc.
      rewrite <- (Zplus_mod_idemp_l (_ + _ * _)), <- (Zplus_mod_idemp_r (_ * _)).
      rewrite Zmult_mod_idemp_r, Zplus_mod_idemp_r, Zplus_mod_idemp_l. f_equal. nia.
Qed.

Lemma adler_closed l :
  adler l = ((1 + byte_sum l) mod RollingHashMod,
             (Z.of_nat (length l) + weighted_sum l) mod RollingHashMod).
Proof.
  unfold adler. rewrite adler_foldl by (unfold RollingHashMod; lia).
  f_equal. f_equal. lia.
Qed.

Lemma adler_range l :
  0 ≤ (adler l).1 < RollingHashMod ∧ 0 ≤ (adler l).2 < RollingHashMod.
Proof. rewrite adler_closed. simpl. split; apply Z.mod_pos_bound; done. Qed.

Lemma byte_sum_app l k : byte_sum (l ++ k) = byte_sum l + byte_sum k.
Proof. induction l; simpl; lia. Qed.

Lemma weighted_sum_snoc l c :
  weighted_sum (l ++ [c]) = weighted_sum l + byte_sum l + byte_val c.
Proof.
  induction l as [|d l IH]; [simpl; lia|]. cbn [weighted_sum app byte_sum]. rewrite IH.
  simpl length. rewrite length_app. simpl length. lia.
Qed.

(** Sliding the window changes both components by a constant-time formula. *)
Lemma adler_slide x l c :
  let n := Z.of_nat (length (x :: l)) in
  let a' := ((adler (x :: l)).1 - byte_val x + byte_val c) mod RollingHashMod in
  adler (l ++ [c])
  = (a', ((adler (x :: l)).2 - n * byte_val x + a' - 1) mod RollingHashMod).
Proof.
  rewrite !adler_closed. cbn [fst snd byte_sum weighted_sum]. simpl length.
  rewrite byte_sum_app, weighted_sum_snoc, length_app. cbn [byte_sum length].
  set (M := RollingHashMod). f_equal.
  - rewrite <- Z.add_opp_r, <- Z.add_assoc, Zplus_mod_idemp_l. f_equal. lia.
  - rewrite <- (Z.add_opp_r (_ mod M) (byte_val x)), <- (Z.add_assoc (_ mod M)), Zplus_mod_idemp_l.
    rewrite <- Z.add_opp_r, <- !(Z.add_opp_r (_ mod M)).
    rewrite <- !Z.add_assoc, Zplus_mod_idemp_l.
    rewrite (Z.add_comm (_ mod M) (- (1))), !Z.add_assoc, Zplus_mod_idemp_r.
    f_equal. nia.
Qed.

(** ** Packing: the 32-bit value determines both components *)
Lemma pack_arith a b : 0 ≤ a < 2 ^ 16 → 0 ≤ b < 2 ^ 16 → pack (a, b) = b * 2 ^ 16 + a.
Proof.
  intros Ha Hb. unfold pack. simpl. rewrite Z.shiftl_mul_pow2, u32_small by lia.
  rewrite <- Z.add_lor_land.
  replace (Z.land (b * 2 ^ 16) a) with 0; [lia|].
  symmetry. apply Z.bits_inj'. intros k Hk. rewrite Z.land_spec, Z.bits_0.
  destruct (Z.lt_ge_cases k 16).
  - rewrite Z.mul_pow2_bits_low by lia. done.
  - rewrite <- (Z.mod_small a (2 ^ 16)) by lia.
    rewrite Z.mod_pow2_bits_high by lia.
    by rewrite andb_false_r.
Qed.

Lemma pack_inj ab cd :
  0 ≤ ab.1 < 2 ^ 16 → 0 ≤ ab.2 < 2 ^ 16 → 0 ≤ cd.1 < 2 ^ 16 → 0 ≤ cd.2 < 2 ^ 16 →
  pack ab = pack cd → ab = cd.
Proof.
  destruct ab as [a b], cd as [c d]. simpl. intros. rewrite !pack_arith in * by done.
  f_equal; lia.
Qed.

(** ** Feeding a stream through the hash

    [advance] is how the delta loop moves the window by one byte. *)
Definition advance {E} (rh : RollingHash) (b : byte) : outcome E RollingHash :=
  if IsFull rh then Roll rh b else r ← RollIn rh b; Ret r.2.

Fixpoint advance_all {E} (rh : RollingHash) (l : bytes) : outcome E RollingHash :=
  match l with
  | [] => Ret rh
  | b :: l' => rh' ← advance rh b; advance_all rh' l'
  end.

Definition last_n (n : nat) (l : bytes) : bytes := drop (length l - n) l.

Lemma IsFull_spec rh l :
  represents rh l → IsFull rh = bool_decide (Z.of_nat (length l) = rh_size rh).
Proof.
  intros [Hs Hb Hp Hc Hf Hr Hab]. unfold IsFull. rewrite Hb, Hc.
  case_bool_decide; [apply Z.leb_le|apply Z.leb_gt]; lia.
Qed.

Lemma last_n_snoc n l b :
  (0 < n)%nat →
  last_n n (l ++ [b]) = (if decide (length l < n)%nat then last_n n l else drop 1 (last_n n l)) ++ [b].
Proof.
  intros Hn. unfold last_n. rewrite length_app. simpl. case_decide.
  - replace (length l + 1 - n)%nat with 0%nat by lia.
    by replace (length l - n)%nat with 0%nat by lia.
  - rewrite drop_app_le by lia. rewrite drop_drop. do 2 f_equal. lia.
Qed.

Lemma length_last_n n l : length (last_n n l) = Nat.min n (length l).
Proof. unfold last_n. len. Qed.

Lemma advance_ok {E} rh l b :
  represents rh (last_n (Z.to_nat (rh_size rh)) l) →
  ∃ rh', advance (E:=E) rh b = Ret rh'
    ∧ represents rh' (last_n (Z.to_nat (rh_size rh)) (l ++ [b])) ∧ rh_size rh' = rh_size rh.
Proof.
  intros Hrep. pose proof (rep_pos _ _ Hrep) as Hp. unfold advance.
  rewrite (IsFull_spec _ _ Hrep), length_last_n, last_n_snoc by lia. case_bool_decide as Hf.
  - destruct (decide (length l < _)%nat); [lia|].
    destruct (last_n (Z.to_nat (rh_size rh)) l) as [|x k] eqn:Ek.
    { apply (f_equal length) in Ek. rewrite length_last_n in Ek. simpl in Ek. lia. }
    simpl. rewrite drop_0. apply (Roll_ok _ x); [done|].
    apply (f_equal length) in Ek. rewrite length_last_n in Ek. simpl in *. lia.
  - destruct (decide (length l < _)%nat); [|lia].
    destruct (RollIn_ok (E:=E) rh _ b Hrep) as (rh' & -> & H1 & H2); [rewrite length_last_n; lia|].
    simpl. eauto.
Qed.

Lemma advance_all_ok {E} l rh fed :
  represents rh (last_n (Z.to_nat (rh_size rh)) fed) →
  ∃ rh', advance_all (E:=E) rh l = Ret rh'
    ∧ represents rh' (last_n (Z.to_nat (rh_size rh)) (fed ++ l)) ∧ rh_size rh' = rh_size rh.
Proof.
  revert rh fed. induction l as [|b l IH]; intros rh dn Hrep; simpl.
  - rewrite app_nil_r. eauto.
  - destruct (advance_ok (E:=E) rh dn b Hrep) as (rh1 & -> & H1 & H2). simpl.
    rewrite <- H2 in H1. destruct (IH rh1 _ H1) as (rh2 & -> & H3 & H4).
    rewrite <- app_assoc in H3. rewrite H2 in *. eauto.
Qed.

Lemma feed_new {E} pooled bs l :
  0 < bs ≤ MaxBlockSize →
  ∃ rh, advance_all (E:=E) (NewRollingHash pooled bs) l = Ret rh
    ∧ represents rh (last_n (Z.to_nat bs) l) ∧ rh_size rh = bs.
Proof.
  intros Hbs. destruct (NewRollingHash_represents pooled bs Hbs) as [Hrep Hsz].
  destruct (advance_all_ok (E:=E) l (NewRollingHash pooled bs) []) as (rh & H1 & H2 & H3).
  - by rewrite Hsz.
  - rewrite Hsz in *. eauto.
Qed.

(** C20: whatever a pooled object held before, feeding any stream through a
    fresh rolling hash of block size 1..64K never panics; afterwards the ring
    buffer holds exactly the last [bs] bytes and [Sum] is the weak checksum of
    those bytes, as [ComputeBlockSignature] computes it from scratch. *)
Theorem rolling_sum_of_window (pooled l : bytes) (bs : Z) :
  0 < bs ≤ MaxBlockSize →
  ∃ rh, advance_all (E:=Empty_set) (NewRollingHash pooled bs) l = Ret rh
    ∧ Window (E:=Empty_set) rh
      = Ret (last_n (Z.to_nat bs) l ++ replicate (Z.to_nat bs - length l) x00)
    ∧ Sum rh = pack (adler (last_n (Z.to_nat bs) l)).
Proof.
  intros Hbs. destruct (feed_new (E:=Empty_set) pooled bs l Hbs) as (rh & H1 & H2 & H3).
  exists rh. split; [done|]. split.
  - rewrite (Window_ok _ _ H2), H3, length_last_n. 
    by replace (Z.to_nat bs - Nat.min (Z.to_nat bs) (length l))%nat with (Z.to_nat bs - length l)%nat by lia.
  - unfold Sum. by rewrite (rep_sums _ _ H2).
Qed.

Lemma rolling_sum_of_window_witness :
  0 < 4 ≤ MaxBlockSize ∧
  ∃ rh, advance_all (E:=Empty_set) (NewRollingHash [x41] 4) [x01; x02; x03; x04; x05; x06] = Ret rh
    ∧ Window (E:=Empty_set) rh = Ret [x03; x04; x05; x06]
    ∧ Sum rh = 2883603.
Proof.
  split; [by vm_compute|].
  destruct (rolling_sum_of_window [x41] [x01; x02; x03; x04; x05; x06] 4 ltac:(by vm_compute))
    as (rh & H1 & H2 & H3).
  exists rh. split; [exact H1|]. split; [exact H2|exact H3].
Defined.

(** On a full window the from-scratch recomputation done by [Roll] agrees
    with the constant-time Adler update: [a] changes by the byte that enters
    minus the byte that leaves, [b] by the new [a] minus one minus [bs] times
    the byte that leaves, all modulo 65521. *)
Theorem Roll_is_incremental (pooled l : bytes) (bs : Z) (old new : byte) :
  0 < bs ≤ MaxBlockSize → bs = Z.of_nat (length (old :: l)) →
  ∃ rh rh', advance_all (E:=Empty_set) (NewRollingHash pooled bs) (old :: l) = Ret rh
    ∧ Roll (E:=Empty_set) rh new = Ret rh'
    ∧ rh_a rh' = (rh_a rh - byte_val old + byte_val new) mod RollingHashMod
    ∧ rh_b rh' = (rh_b rh - bs * byte_val old + rh_a rh' - 1) mod RollingHashMod.
Proof.
  intros Hbs Hlen. destruct (feed_new (E:=Empty_set) pooled bs (old :: l) Hbs) as (rh & H1 & H2 & H3).
  unfold last_n in H2. replace (length _ - _)%nat with 0%nat in H2 by lia. rewrite drop_0 in H2.
  destruct (Roll_ok (E:=Empty_set) rh old l new H2) as (rh' & H4 & H5 & H6); [lia|].
  exists rh, rh'. split; [done|]. split; [done|].
  pose proof (rep_sums _ _ H5) as E5. rewrite (adler_slide old l new), <- (rep_sums _ _ H2) in E5.
  simpl fst in E5; simpl snd in E5. rewrite <- Hlen in E5. by injection E5 as -> ->.
Qed.

Lemma Roll_is_incremental_witness :
  ∃ rh rh', advance_all (E:=Empty_set) (NewRollingHash [] 3) [x61; x62; x63] = Ret rh
    ∧ Roll (E:=Empty_set) rh x7a = Ret rh'
    ∧ rh_a rh' = (rh_a rh - byte_val x61 + byte_val x7a) mod RollingHashMod
    ∧ rh_b rh' = (rh_b rh - 3 * byte_val x61 + rh_a rh' - 1) mod RollingHashMod.
Proof. apply (Roll_is_incremental [] [x62; x63] 3 x61 x7a); by vm_compute. Defined.
