(* ===== verification/Signature.v ===== *)
(** * Block signatures: the second half of internal/delta/rolling.go

    [Signature], its weak-hash index, the signature builder and the binary
    encoding. The invariant [sig_wf] says that the index lists, for each weak
    hash, exactly the positions of the blocks that carry it. *)
From Stdlib Require Import Strings.Byte.
From S2P Require Import Prelude Sha256 Rolling.
Local Open Scope Z_scope.

Record BlockSignature := {
  Index : Z;          (* uint32 *)
  WeakHash : Z;       (* uint32 *)
  StrongHash : bytes; (* [32]byte *)
}.

Record Signature := {
  BlockSize : Z;
  FileSize : Z;
  Blocks : list BlockSignature;
  weakIndex : gmap Z (list nat);
}.

(** [make([]BlockSignature, 0, n)] panics on a negative or unallocatable
    capacity; a [BlockSignature] takes 40 bytes of a 48-bit address space. *)
Definition max_alloc : Z := 2 ^ 48.

Definition NewSignature {E} (blockSize fileSize : Z) : outcome E Signature :=
  if blockSize =? 0 then Panic
  else
    let numBlocks := s64 (Z.quot (s64 (s64 (fileSize + blockSize) - 1)) blockSize) in
    if (numBlocks <? 0) || (max_alloc <? numBlocks * 40) then Panic
    else Ret {| BlockSize := blockSize; FileSize := fileSize; Blocks := []; weakIndex := ∅ |}.

Definition AddBlock (s : Signature) (index weakHash : Z) (strongHash : bytes) : Signature :=
  let i := length (Blocks s) in
  {| BlockSize := BlockSize s;
     FileSize := FileSize s;
     Blocks := Blocks s ++ [{| Index := index; WeakHash := weakHash; StrongHash := strongHash |}];
     weakIndex := <[weakHash := default [] (weakIndex s !! weakHash) ++ [i]]> (weakIndex s) |}.

Definition FindByWeakHash (s : Signature) (weakHash : Z) : list nat :=
  default [] (weakIndex s !! weakHash).

Definition GetBlock (s : Signature) (i : Z) : option BlockSignature := idx (Blocks s) i.

(** The builder keeps the block size; its hasher is reset for every block. *)
Definition NewSignatureBuilder (blockSize : Z) : Z := if blockSize <=? 0 then DefaultBlockSize else blockSize.

Section builder.
Context `{HashFn}.

Definition ComputeBlockSignature (data : bytes) : Z * bytes :=
  (pack (adler data), hasher_Sum (hasher_Write hasher_New data)).

Lemma ComputeBlockSignature_strong data : (ComputeBlockSignature data).2 = sha256 data.
Proof. done. Qed.
End builder.

(** ** Encoding *)
Definition encode_block (b : BlockSignature) : bytes :=
  be_put 4 (Index b) ++ be_put 4 (WeakHash b) ++ StrongHash b.

Definition Signature_Encode (s : Signature) : bytes :=
  be_put 4 (u32 (BlockSize s)) ++ be_put 8 (u64 (FileSize s))
  ++ be_put 4 (u32 (Z.of_nat (length (Blocks s)))) ++ concat (encode_block <$> Blocks s).

(** The loop [for i := 0; i < numBlocks && offset+40 <= len(data); i++]; [rest]
    is [data[offset:]]. *)
Fixpoint decode_blocks (fuel : nat) (i numBlocks : Z) (rest : bytes) (sig : Signature) : Signature :=
  match fuel with
  | O => sig
  | S fuel' =>
      if (i <? numBlocks) && (40 <=? Z.of_nat (length rest)) then
        decode_blocks fuel' (i + 1) numBlocks (drop 40 rest)
          (AddBlock sig (be_get (slice 0 4 rest)) (be_get (slice 4 8 rest)) (slice 8 40 rest))
      else sig
  end.

(** [None] is the [(nil, nil)] returned for an input shorter than the header. *)
Definition DecodeSignature {E} (data : bytes) : outcome E (option Signature) :=
  if Z.of_nat (length data) <? 16 then Ret None
  else
    let blockSize := be_get (slice 0 4 data) in
    let fileSize := s64 (be_get (slice 4 12 data)) in
    let numBlocks := be_get (slice 12 16 data) in
    sig ← NewSignature blockSize fileSize;
    Ret (Some (decode_blocks (length data) 0 numBlocks (drop 16 data) sig)).

(** ** The index invariant *)
Fixpoint positions (w : Z) (i : nat) (bs : list BlockSignature) : list nat :=
  match bs with
  | [] => []
  | b :: bs' => if WeakHash b =? w then i :: positions w (S i) bs' else positions w (S i) bs'
  end.

Definition sig_wf (s : Signature) : Prop :=
  ∀ w, weakIndex s !! w = match positions w 0 (Blocks s) with [] => None | l => Some l end.

Lemma positions_snoc w i bs b :
  positions w i (bs ++ [b])
  = positions w i bs ++ (if WeakHash b =? w then [(i + length bs)%nat] else []).
Proof.
  revert i. induction bs as [|c bs IH]; intros i; simpl.
  - by rewrite Nat.add_0_r.
  - rewrite IH, Nat.add_succ_r. by destruct (WeakHash c =? w).
Qed.

Lemma positions_spec w i bs k :
  k ∈ positions w i bs ↔ ∃ j b, k = (i + j)%nat ∧ bs !! j = Some b ∧ WeakHash b = w.
Proof.
  revert i. induction bs as [|c bs IH]; intros i; simpl.
  - split; [by intros ?%not_elem_of_nil|intros (j & b & _ & Hb & _); by rewrite lookup_nil in Hb].
  - assert (Hrec : k ∈ positions w (S i) bs
      ↔ ∃ j b, k = (i + S j)%nat ∧ bs !! j = Some b ∧ WeakHash b = w).
    { rewrite IH. by setoid_rewrite Nat.add_succ_r. }
    destruct (Z.eqb_spec (WeakHash c) w).
    + rewrite elem_of_cons, Hrec. split.
      * intros [->|(j & b & ? & ? & ?)]; [exists 0%nat, c|exists (S j), b]; simpl; eauto with lia.
      * intros ([|j] & b & -> & Hb & Hw); simpl in Hb; [left; lia|right; eauto].
    + rewrite Hrec. split.
      * intros (j & b & ? & ? & ?). exists (S j), b. eauto.
      * intros ([|j] & b & -> & Hb & Hw); simpl in Hb; [congruence|eauto].
Qed.

Lemma sig_wf_empty bsz fsz :
  sig_wf {| BlockSize := bsz; FileSize := fsz; Blocks := []; weakIndex := ∅ |}.
Proof. intros w. simpl. by rewrite lookup_empty. Qed.

Lemma AddBlock_wf s i w h : sig_wf s → sig_wf (AddBlock s i w h).
Proof.
  intros Hwf w'. simpl. rewrite positions_snoc. simpl. rewrite lookup_insert.
  destruct (decide (w = w')) as [<-|Hne].
  - rewrite Z.eqb_refl, Hwf. by destruct (positions w 0 (Blocks s)).
  - rewrite (proj2 (Z.eqb_neq w w')) by done. by rewrite app_nil_r, Hwf.
Qed.

(** Under the invariant, the index is a correct multimap. *)
Lemma FindByWeakHash_spec s w k :
  sig_wf s →
  k ∈ FindByWeakHash s w ↔ ∃ b, GetBlock s (Z.of_nat k) = Some b ∧ WeakHash b = w.
Proof.
  intros Hwf. unfold FindByWeakHash, GetBlock. rewrite Hwf, idx_Some.
  transitivity (k ∈ positions w 0 (Blocks s)).
  { by destruct (positions w 0 (Blocks s)). }
  rewrite positions_spec. simpl. split.
  - intros (j & b & -> & ? & ?). eauto.
  - intros (b & ? & ?). eauto.
Qed.

#[export] Hint Resolve AddBlock_wf sig_wf_empty : bytes_db.

(** Two well-formed signatures with the same public fields are equal. *)
Lemma sig_wf_ext s t :
  sig_wf s → sig_wf t → BlockSize s = BlockSize t → FileSize s = FileSize t →
  Blocks s = Blocks t → s = t.
Proof.
  destruct s as [b1 f1 l1 w1], t as [b2 f2 l2 w2]. simpl. intros Hs Ht -> -> ->.
  f_equal. apply map_eq. intros w. specialize (Hs w). specialize (Ht w). simpl in *. congruence.
Qed.

(** ** Round trip *)
Definition block_ok (b : BlockSignature) : Prop :=
  0 ≤ Index b < 2 ^ 32 ∧ 0 ≤ WeakHash b < 2 ^ 32 ∧ length (StrongHash b) = 32%nat.

Definition add_block (s : Signature) (b : BlockSignature) : Signature :=
  AddBlock s (Index b) (WeakHash b) (StrongHash b).

Lemma add_blocks_fields bs s :
  Blocks (foldl add_block s bs) = Blocks s ++ bs
  ∧ BlockSize (foldl add_block s bs) = BlockSize s
  ∧ FileSize (foldl add_block s bs) = FileSize s
  ∧ (sig_wf s → sig_wf (foldl add_block s bs)).
Proof.
  revert s. induction bs as [|b bs IH]; intros s; cbn [foldl].
  - by rewrite app_nil_r.
  - destruct (IH (add_block s b)) as (-> & -> & -> & H4). simpl. rewrite <- app_assoc.
    repeat split; [by destruct b|]. intros Hs. apply H4. by apply AddBlock_wf.
Qed.

Lemma length_encode_block b : block_ok b → length (encode_block b) = 40%nat.
Proof. intros (_ & _ & H). unfold encode_block. len. Qed.

Lemma decode_encode_block b l :
  block_ok b →
  be_get (slice 0 4 (encode_block b ++ l)) = Index b
  ∧ be_get (slice 4 8 (encode_block b ++ l)) = WeakHash b
  ∧ slice 8 40 (encode_block b ++ l) = StrongHash b.
Proof.
  intros (Hi & Hw & Hs). unfold encode_block. rewrite <- !app_assoc. repeat split.
  - rewrite slice_0, take_app_exact by apply length_be_put. rewrite be_get_put.
    by rewrite Z.mod_small.
  - rewrite slice_field by len. by rewrite be_get_put, Z.mod_small.
  - rewrite (app_assoc (be_put 4 _)). by rewrite slice_field by len.
Qed.

(** The decoder stops either at the announced count or when fewer than 40
    bytes remain. *)
Lemma decode_blocks_ok fuel i n bs tail sig :
  (length bs ≤ fuel)%nat → Forall block_ok bs →
  (i + Z.of_nat (length bs) = n ∨ i + Z.of_nat (length bs) ≤ n ∧ (length tail < 40)%nat) →
  decode_blocks fuel i n (concat (encode_block <$> bs) ++ tail) sig = foldl add_block sig bs.
Proof.
  revert i bs sig. induction fuel as [|fuel IH]; intros i [|b bs] sig Hf Hok Hend;
    simpl in Hf; try lia; try done.
  - simpl. destruct Hend as [Hend|[_ Hend]].
    + by rewrite (proj2 (Z.ltb_ge i n)) by (simpl in Hend; lia).
    + by rewrite (proj2 (Z.leb_gt 40 (Z.of_nat (length tail)))), andb_false_r by lia.
  - apply Forall_cons in Hok as [Hb Hbs]. cbn [decode_blocks fmap list_fmap concat foldl].
    simpl in Hend. rewrite <- app_assoc.
    destruct (decode_encode_block b (concat (encode_block <$> bs) ++ tail) Hb) as (E1 & E2 & E3).
    rewrite E1, E2, E3, drop_app_exact by by apply length_encode_block.
    rewrite (proj2 (Z.ltb_lt i n)) by lia.
    rewrite (proj2 (Z.leb_le 40 _)) by (rewrite length_app, length_encode_block by done; lia).
    apply IH; [lia|done|]. lia.
Qed.

Definition sig_size_ok (s : Signature) : Prop :=
  0 < BlockSize s < 2 ^ 32 ∧ 0 ≤ FileSize s < 2 ^ 62
  ∧ (FileSize s + BlockSize s - 1) / BlockSize s * 40 ≤ max_alloc.

Lemma NewSignature_ok {E} bsz fsz :
  0 < bsz < 2 ^ 32 → 0 ≤ fsz < 2 ^ 62 → (fsz + bsz - 1) / bsz * 40 ≤ max_alloc →
  NewSignature (E:=E) bsz fsz
  = Ret {| BlockSize := bsz; FileSize := fsz; Blocks := []; weakIndex := ∅ |}.
Proof.
  intros Hb Hf Hm. unfold NewSignature. rewrite (proj2 (Z.eqb_neq bsz 0)) by lia.
  rewrite (s64_small (fsz + bsz)), (s64_small (_ - 1)) by lia.
  rewrite Z.quot_div_nonneg by lia.
  pose proof (Z.div_pos (fsz + bsz - 1) bsz ltac:(lia) ltac:(lia)).
  unfold max_alloc in *. rewrite s64_small by lia.
  by rewrite (proj2 (Z.ltb_ge _ 0)), (proj2 (Z.ltb_ge _ _)) by lia.
Qed.

Lemma concat_encode_length bs :
  Forall block_ok bs → length (concat (encode_block <$> bs)) = (40 * length bs)%nat.
Proof.
  induction 1 as [|b bs Hb _ IH]; [done|]. cbn [fmap list_fmap concat length].
  rewrite length_app, IH, length_encode_block by done. lia.
Qed.

(** What the decoder makes of an encoded header followed by [body]. *)
Lemma decode_header {E} s body :
  sig_size_ok s →
  DecodeSignature (E:=E)
    (be_put 4 (u32 (BlockSize s)) ++ be_put 8 (u64 (FileSize s))
     ++ be_put 4 (u32 (Z.of_nat (length (Blocks s)))) ++ body)
  = Ret (Some (decode_blocks (16 + length body) 0 (u32 (Z.of_nat (length (Blocks s)))) body
      {| BlockSize := BlockSize s; FileSize := FileSize s; Blocks := []; weakIndex := ∅ |})).
Proof.
  intros (Hb & Hf & Hm). unfold DecodeSignature.
  rewrite (proj2 (Z.ltb_ge _ 16)) by len.
  rewrite slice_0, take_app_exact by apply length_be_put.
  rewrite (slice_field 4 12) by len.
  rewrite (app_assoc (be_put 4 _)), (slice_field 12 16), (drop_app_ge _ _ 16) by len.
  replace (16 - length (be_put 4 (u32 (BlockSize s)) ++ be_put 8 (u64 (FileSize s))))%nat
    with 4%nat by len. rewrite drop_app_exact by apply length_be_put.
  rewrite !be_get_put. simpl Z.of_nat. change (256 ^ 4) with (2 ^ 32). change (256 ^ 8) with (2 ^ 64).
  rewrite (u32_small (BlockSize s)), (u64_small (FileSize s)) by lia.
  rewrite !Z.mod_small by (try apply u32_range; lia). rewrite s64_small by lia.
  rewrite NewSignature_ok by done. cbn [mbind outcome_bind].
  by rewrite !length_app, !length_be_put.
Qed.

Lemma decode_encoded_signature {E} (s : Signature) (tail : bytes) :
  sig_wf s → Forall block_ok (Blocks s) → sig_size_ok s →
  Z.of_nat (length (Blocks s)) < 2 ^ 32 →
  DecodeSignature (E:=E) (Signature_Encode s ++ tail) = Ret (Some s).
Proof.
  intros Hwf Hok Hsz Hn. unfold Signature_Encode. rewrite <- !app_assoc.
  rewrite decode_header by done. do 2 f_equal. rewrite u32_small by lia.
  rewrite decode_blocks_ok; [|rewrite length_app, concat_encode_length by done; lia|done|left; lia].
  set (e := Build_Signature _ _ _ _).
  destruct (add_blocks_fields (Blocks s) e) as (E1 & E2 & E3 & E4).
  apply sig_wf_ext; auto. apply E4, sig_wf_empty.
Qed.

(** Decoding an encoded signature, whatever bytes follow it, gives the
    signature back: block size, file size, every block in order, and the same
    weak-hash index. *)
Theorem signature_roundtrip (s : Signature) (tail : bytes) :
  sig_wf s → Forall block_ok (Blocks s) → sig_size_ok s →
  Z.of_nat (length (Blocks s)) < 2 ^ 32 →
  DecodeSignature (E:=Empty_set) (Signature_Encode s ++ tail) = Ret (Some s).
Proof. apply decode_encoded_signature. Qed.

Definition sample_signature : Signature :=
  AddBlock (AddBlock {| BlockSize := 4096; FileSize := 5000; Blocks := []; weakIndex := ∅ |}
    0 77 (replicate 32 x0a)) 1 77 (replicate 32 x0b).

Lemma signature_roundtrip_witness :
  DecodeSignature (E:=Empty_set) (Signature_Encode sample_signature ++ [x00]) = Ret (Some sample_signature).
Proof.
  apply (signature_roundtrip sample_signature [x00]).
  - apply AddBlock_wf, AddBlock_wf, sig_wf_empty.
  - repeat constructor; vm_compute; congruence.
  - repeat split; vm_compute; congruence.
  - by vm_compute.
Defined.

(** a signature cut short anywhere after its 16-byte header still decodes
    without an error, into a signature that has lost its last blocks: exactly
    the complete 40-byte records survive. *)
Theorem truncated_signature_accepted (s : Signature) (n : nat) :
  sig_wf s → Forall block_ok (Blocks s) → sig_size_ok s →
  Z.of_nat (length (Blocks s)) < 2 ^ 32 →
  ∃ s', DecodeSignature (E:=Empty_set) (take (16 + n) (Signature_Encode s)) = Ret (Some s')
    ∧ Blocks s' = take (n / 40) (Blocks s) ∧ BlockSize s' = BlockSize s ∧ sig_wf s'.
Proof.
  intros Hwf Hok Hsz Hn. unfold Signature_Encode.
  rewrite !take_app_ge, !length_be_put by len.
  replace (16 + n - 4 - 8 - 4)%nat with n by lia.
  rewrite decode_header by done. eexists. split; [done|]. rewrite u32_small by lia.
  set (k := (n / 40)%nat). set (e := Build_Signature _ _ _ _).
  assert (Hcut : ∃ rest, take n (concat (encode_block <$> Blocks s))
      = concat (encode_block <$> take k (Blocks s)) ++ rest ∧ (length rest < 40)%nat).
  { pose proof (Nat.div_mod_eq n 40) as Hdm. pose proof (Nat.mod_upper_bound n 40 ltac:(lia)).
    fold k in Hdm.
    assert (Hsplit : concat (encode_block <$> Blocks s)
      = concat (encode_block <$> take k (Blocks s)) ++ concat (encode_block <$> drop k (Blocks s))).
    { by rewrite <- concat_app, <- fmap_app, take_drop. }
    rewrite Hsplit.
    pose proof (concat_encode_length _ (Forall_take _ k _ Hok)) as Hl. rewrite length_take in Hl.
    destruct (decide (length (Blocks s) ≤ k)%nat).
    - exists []. rewrite drop_ge by lia. simpl. rewrite !app_nil_r, take_ge by lia. split; [done|lia].
    - eexists. rewrite take_app_ge by lia. split; [done|]. rewrite length_take. lia. }
  destruct Hcut as (rest & -> & Hrest).
  rewrite decode_blocks_ok; [|rewrite length_app, concat_encode_length by auto using Forall_take; lia
    |by apply Forall_take|right; rewrite length_take; lia].
  destruct (add_blocks_fields (take k (Blocks s)) e) as (E1 & E2 & E3 & E4).
  rewrite E1, E2. split; [done|]. split; [done|]. apply E4, sig_wf_empty.
Qed.

Lemma truncated_signature_accepted_witness :
  ∃ s', DecodeSignature (E:=Empty_set) (take (16 + 50) (Signature_Encode sample_signature)) = Ret (Some s')
    ∧ Blocks s' = take (50 / 40) (Blocks sample_signature)
    ∧ BlockSize s' = BlockSize sample_signature ∧ sig_wf s'.
Proof.
  apply (truncated_signature_accepted sample_signature 50).
  - apply AddBlock_wf, AddBlock_wf, sig_wf_empty.
  - repeat constructor; vm_compute; congruence.
  - repeat split; vm_compute; congruence.
  - by vm_compute.
Defined.

(** sixteen or more received bytes that start with four zero bytes (a block
    size of zero) make [DecodeSignature] panic with an integer division by
    zero, although it returns an error value. *)
Theorem DecodeSignature_zero_block_panics (data : bytes) :
  (12 ≤ length data)%nat →
  DecodeSignature (E:=Empty_set) (replicate 4 x00 ++ data) = Panic.
Proof.
  intros Hd. unfold DecodeSignature. rewrite (proj2 (Z.ltb_ge _ 16)) by len.
  rewrite slice_0, take_app_exact by done. done.
Qed.

Lemma DecodeSignature_zero_block_panics_witness :
  DecodeSignature (E:=Empty_set) (replicate 4 x00 ++ replicate 12 x01) = Panic.
Proof. apply (DecodeSignature_zero_block_panics (replicate 12 x01)). by vm_compute. Defined.
