(* ===== verification/Delta.v ===== *)
(** * Deltas: the data types and codec of internal/delta/delta.go, and ApplyDelta

    [DeltaOp], [Delta], the binary encoding and its decoder, and the receiver
    side, which rebuilds the file and verifies its SHA-256. *)
From Stdlib Require Import Strings.Byte.
From S2P Require Import Prelude Sha256 Rolling Signature.
Local Open Scope Z_scope.

Inductive DeltaOp :=
| OpCopy (BlockIndex : Z)   (* uint32 *)
| OpData (Data : bytes).

Record Delta := {
  Ops : list DeltaOp;
  NewFileSize : Z;
  NewFileHash : bytes;   (* [32]byte *)
  BlocksCopied : Z;
  BytesCopied : Z;
  BytesLiteral : Z;
}.

(** The errors of the package, one constructor per [fmt.Errorf].
    [LoopExhausted] is not an error of the code: it marks a run that used up
    the iterations granted to a loop. *)
Inductive delta_error :=
| DeltaTooShort
| TruncatedCopyOp
| TruncatedDataLength
| TruncatedDataOp
| ReadingInitialWindow (e : read_error)
| ReadingAfterMatch (e : read_error)
| ReadingFile (e : read_error)
| ReadingBlock (index : Z) (e : read_error)
| GettingBlock (index : Z)
| WritingBlock
| WritingLiteral
| HashMismatch
| SizeMismatch (expected written : Z)
| LoopExhausted.

Definition op_Encode (op : DeltaOp) : bytes :=
  match op with
  | OpCopy i => x01 :: be_put 4 i
  | OpData d => x02 :: be_put 4 (u32 (Z.of_nat (length d))) ++ d
  end.

Definition Delta_Encode (d : Delta) : bytes :=
  be_put 8 (u64 (NewFileSize d)) ++ NewFileHash d
  ++ be_put 4 (u32 (Z.of_nat (length (Ops d)))) ++ concat (op_Encode <$> Ops d).

(** The loop [for i := 0; i < numOps && offset < len(data); i++]; [rest] is
    [data[offset:]]. An opcode other than 1 and 2 is skipped and counted. *)
Fixpoint decode_ops (fuel : nat) (i numOps : Z) (rest : bytes) (ops : list DeltaOp)
    : outcome delta_error (list DeltaOp) :=
  match fuel, rest with
  | S fuel', opcode :: rest' =>
      if i <? numOps then
        if bool_decide (opcode = x01) then
          if Z.of_nat (length rest') <? 4 then Err TruncatedCopyOp
          else decode_ops fuel' (i + 1) numOps (drop 4 rest') (ops ++ [OpCopy (be_get (take 4 rest'))])
        else if bool_decide (opcode = x02) then
          if Z.of_nat (length rest') <? 4 then Err TruncatedDataLength
          else
            let dataLen := be_get (take 4 rest') in
            let body := drop 4 rest' in
            if Z.of_nat (length body) <? dataLen then Err TruncatedDataOp
            else decode_ops fuel' (i + 1) numOps (drop (Z.to_nat dataLen) body)
                   (ops ++ [OpData (take (Z.to_nat dataLen) body)])
        else decode_ops fuel' (i + 1) numOps rest' ops
      else Ret ops
  | _, _ => Ret ops
  end.

Definition DecodeDelta (data : bytes) : outcome delta_error Delta :=
  if Z.of_nat (length data) <? 44 then Err DeltaTooShort
  else
    ops ← decode_ops (length data) 0 (be_get (slice 40 44 data)) (drop 44 data) [];
    Ret {| Ops := ops; NewFileSize := s64 (be_get (slice 0 8 data));
           NewFileHash := slice 8 40 data;
           BlocksCopied := 0; BytesCopied := 0; BytesLiteral := 0 |}.

Definition TransferSize (d : Delta) : Z :=
  Z.of_nat (length (Ops d)) * 5 + BytesLiteral d.

(** [CompressionRatio] as an exact fraction: bytes copied over file size, and
    0/1 for an empty file. *)
Definition CompressionRatio (d : Delta) : Z * Z :=
  if NewFileSize d =? 0 then (0, 1) else (BytesCopied d, NewFileSize d).

(** ** Applying a delta

    [oldBlocks] is the caller's block source ([None] is its error); the writer
    fails on its [k]-th call when [wfail k] holds. The result is what reached
    the writer, with the returned error. *)
Record apply_state := { ap_out : bytes; ap_calls : nat; ap_written : Z }.

Section apply.
Context `{HashFn}.
Variable oldBlocks : Z → option bytes.
Variable wfail : nat → bool.

Definition mw_Write (s : apply_state) (p : bytes) (e : delta_error)
    : apply_state * outcome delta_error unit :=
  if wfail (ap_calls s)
  then ({| ap_out := ap_out s; ap_calls := S (ap_calls s); ap_written := ap_written s |}, Err e)
  else ({| ap_out := ap_out s ++ p; ap_calls := S (ap_calls s);
           ap_written := ap_written s + Z.of_nat (length p) |}, Ret tt).

Definition apply_op (s : apply_state) (op : DeltaOp) : apply_state * outcome delta_error unit :=
  match op with
  | OpCopy i =>
      match oldBlocks i with
      | None => (s, Err (GettingBlock i))
      | Some data => mw_Write s data WritingBlock
      end
  | OpData data => mw_Write s data WritingLiteral
  end.

Fixpoint apply_ops (s : apply_state) (ops : list DeltaOp) : apply_state * outcome delta_error unit :=
  match ops with
  | [] => (s, Ret tt)
  | op :: ops' =>
      match apply_op s op with
      | (s', Ret _) => apply_ops s' ops'
      | (s', r) => (s', r)
      end
  end.

(** The multi-writer's hasher has received exactly what the writer has. *)
Definition ApplyDelta (d : Delta) : bytes * outcome delta_error unit :=
  match apply_ops {| ap_out := []; ap_calls := 0; ap_written := 0 |} (Ops d) with
  | (s, Ret _) =>
      (ap_out s,
       if bool_decide (sha256 (ap_out s) = NewFileHash d) then
         if ap_written s =? NewFileSize d then Ret tt
         else Err (SizeMismatch (NewFileSize d) (ap_written s))
       else Err HashMismatch)
  | (s, r) => (ap_out s, r)
  end.
End apply.

(** ** Meaning of a sequence of operations *)
Definition op_bytes (oldBlocks : Z → option bytes) (op : DeltaOp) : option bytes :=
  match op with OpCopy i => oldBlocks i | OpData d => Some d end.

Definition expand (oldBlocks : Z → option bytes) (ops : list DeltaOp) : option bytes :=
  (λ l, concat l) <$> mapM (op_bytes oldBlocks) ops.

Lemma expand_app blk ops1 ops2 :
  expand blk (ops1 ++ ops2)
  = x ← expand blk ops1; y ← expand blk ops2; Some (x ++ y).
Proof.
  unfold expand. induction ops1 as [|op ops1 IH]; simpl.
  - by destruct (mapM _ ops2).
  - destruct (op_bytes blk op); simpl; [|done].
    destruct (mapM _ ops1), (mapM _ ops2), (mapM _ (ops1 ++ ops2)); simpl in *; try done.
    injection IH as ->. by rewrite app_assoc.
Qed.

Lemma expand_cons blk op ops :
  expand blk (op :: ops) = x ← op_bytes blk op; y ← expand blk ops; Some (x ++ y).
Proof.
  unfold expand. simpl. destruct (op_bytes blk op); simpl; [|done]. by destruct (mapM _ ops).
Qed.

Lemma expand_snoc blk ops op :
  expand blk (ops ++ [op]) = x ← expand blk ops; y ← op_bytes blk op; Some (x ++ y).
Proof.
  rewrite expand_app, expand_cons. destruct (expand blk ops); simpl; [|done].
  destruct (op_bytes blk op); simpl; [|done]. by rewrite app_nil_r.
Qed.

Lemma apply_ops_expand blk ops s out :
  expand blk ops = Some out →
  apply_ops blk (λ _, false) s ops
  = ({| ap_out := ap_out s ++ out; ap_calls := ap_calls s + length ops;
        ap_written := ap_written s + Z.of_nat (length out) |}, Ret tt).
Proof.
  revert s out. induction ops as [|op ops IH]; intros s out Hx; simpl.
  - injection Hx as <-. destruct s. simpl. by rewrite app_nil_r, Nat.add_0_r, Z.add_0_r.
  - rewrite expand_cons in Hx.
    destruct (op_bytes blk op) as [p|] eqn:Eop; simpl in Hx; [|done].
    destruct (expand blk ops) as [out'|] eqn:Eo; simpl in Hx; [|done].
    injection Hx as <-.
    assert (apply_op blk (λ _, false) s op
      = ({| ap_out := ap_out s ++ p; ap_calls := S (ap_calls s);
            ap_written := ap_written s + Z.of_nat (length p) |}, Ret tt)) as ->.
    { destruct op; simpl in *; [by rewrite Eop|by injection Eop as ->]. }
    rewrite (IH _ _ eq_refl). simpl. rewrite <- app_assoc. do 2 f_equal; [lia|len].
Qed.

(** ** ApplyDelta: soundness on any writer, completeness on a working one *)
Lemma apply_ops_sound blk wf ops s s' :
  apply_ops blk wf s ops = (s', Ret tt) →
  ∃ out, expand blk ops = Some out ∧ ap_out s' = ap_out s ++ out
    ∧ ap_written s' = ap_written s + Z.of_nat (length out).
Proof.
  revert s. induction ops as [|op ops IH]; intros s Ha; simpl in Ha.
  - injection Ha as <-. exists []. simpl. by rewrite app_nil_r, Z.add_0_r.
  - destruct (apply_op blk wf s op) as [s1 [[]| |]] eqn:Eop; try done.
    destruct (IH _ Ha) as (out & Hx & Ho & Hw).
    assert (∃ p, op_bytes blk op = Some p ∧ ap_out s1 = ap_out s ++ p
      ∧ ap_written s1 = ap_written s + Z.of_nat (length p)) as (p & Hp & Hp1 & Hp2).
    { unfold apply_op, mw_Write in Eop. destruct op as [i|d]; simpl.
      - destruct (blk i) as [d|]; [|done]. destruct (wf _); [done|]. injection Eop as <-. eauto.
      - destruct (wf _); [done|]. injection Eop as <-. eauto. }
    exists (p ++ out). rewrite expand_cons, Hp, Hx. simpl.
    rewrite Ho, Hp1, Hw, Hp2, <- app_assoc. split; [done|]. split; [done|]. len.
Qed.

(** C19: when [ApplyDelta] returns no error, on any block source, any writer and
    any delta (also one decoded from the network), the writer holds exactly
    the expansion of the operations, its SHA-256 is the announced hash and its
    length the announced size. *)
Theorem ApplyDelta_sound `{HashFn} (blk : Z → option bytes) (wfail : nat → bool) (d : Delta) (out : bytes) :
  ApplyDelta blk wfail d = (out, Ret tt) →
  expand blk (Ops d) = Some out ∧ sha256 out = NewFileHash d
  ∧ Z.of_nat (length out) = NewFileSize d.
Proof.
  unfold ApplyDelta. destruct (apply_ops _ _ _ _) as [s [[]| |]] eqn:Ea; try done.
  intros [= <- Hr]. apply apply_ops_sound in Ea as (out' & Hx & Ho & Hw). simpl in Ho, Hw.
  case_bool_decide as Hh; [|done]. destruct (Z.eqb_spec (ap_written s) (NewFileSize d)); [|done].
  rewrite Ho in *. repeat split; [done|done|lia].
Qed.

Lemma ApplyDelta_complete `{HashFn} blk d out :
  expand blk (Ops d) = Some out → sha256 out = NewFileHash d →
  NewFileSize d = Z.of_nat (length out) →
  ApplyDelta blk (λ _, false) d = (out, Ret tt).
Proof.
  intros Hx Hh Hn. unfold ApplyDelta. rewrite (apply_ops_expand _ _ _ _ Hx). simpl.
  rewrite bool_decide_eq_true_2 by done. by rewrite (proj2 (Z.eqb_eq _ _)) by lia.
Qed.

Lemma ApplyDelta_sound_witness :
  let d := {| Ops := [OpCopy 1; OpData [x41]]; NewFileSize := 3;
              NewFileHash := @sha256 sha256_fips [x62; x63; x41];
              BlocksCopied := 1; BytesCopied := 2; BytesLiteral := 1 |} in
  let blk := λ i, if i =? 1 then Some [x62; x63] else None in
  expand blk (Ops d) = Some [x62; x63; x41]
  ∧ @sha256 sha256_fips [x62; x63; x41] = NewFileHash d
  ∧ Z.of_nat (length [x62; x63; x41]) = NewFileSize d.
Proof.
  intros d blk. apply (@ApplyDelta_sound sha256_fips blk (λ _, false) d). by vm_compute.
Defined.

(** ** Round trip of the encoding *)
Definition op_ok (op : DeltaOp) : Prop :=
  match op with
  | OpCopy i => 0 ≤ i < 2 ^ 32
  | OpData d => Z.of_nat (length d) < 2 ^ 32
  end.

Lemma decode_ops_ok fuel i n ops tail acc :
  (length ops < fuel)%nat → Forall op_ok ops → i + Z.of_nat (length ops) = n →
  decode_ops fuel i n (concat (op_Encode <$> ops) ++ tail) acc = Ret (acc ++ ops).
Proof.
  revert i ops acc. induction fuel as [|fuel IH]; intros i ops acc Hf Hok Hn; [lia|].
  destruct ops as [|op ops].
  - simpl. rewrite app_nil_r. destruct tail; [done|].
    by rewrite (proj2 (Z.ltb_ge i n)) by (simpl in Hn; lia).
  - apply Forall_cons in Hok as [Hop Hok]. simpl in Hf, Hn.
    replace (acc ++ op :: ops) with ((acc ++ [op]) ++ ops) by by rewrite <- app_assoc.
    cbn [fmap list_fmap concat]. rewrite <- app_assoc.
    destruct op as [k|dd]; cbn [op_Encode app decode_ops];
      rewrite (proj2 (Z.ltb_lt i n)) by lia.
    + rewrite bool_decide_eq_true_2 by done. rewrite (proj2 (Z.ltb_ge _ 4)) by len.
      rewrite take_app_exact, drop_app_exact, be_get_put by apply length_be_put.
      rewrite Z.mod_small by done. apply IH; [lia|done|lia].
    + rewrite bool_decide_eq_false_2, bool_decide_eq_true_2 by done.
      rewrite <- app_assoc, (proj2 (Z.ltb_ge _ 4)) by len.
      rewrite take_app_exact, drop_app_exact, be_get_put by apply length_be_put.
      simpl in Hop. rewrite u32_small, Z.mod_small by lia. rewrite Nat2Z.id.
      rewrite (proj2 (Z.ltb_ge _ _)) by len.
      rewrite take_app_length, drop_app_length. apply IH; [lia|done|lia].
Qed.

Lemma length_ops_le ops : (length ops ≤ length (concat (op_Encode <$> ops)))%nat.
Proof.
  induction ops as [|[k|dd] ops IH]; [done|..]; cbn [fmap list_fmap concat length op_Encode app];
    rewrite length_app; len.
Qed.

Lemma decode_encoded_delta (d : Delta) (tail : bytes) :
  Forall op_ok (Ops d) → length (NewFileHash d) = 32%nat →
  - 2 ^ 63 ≤ NewFileSize d < 2 ^ 63 → Z.of_nat (length (Ops d)) < 2 ^ 32 →
  DecodeDelta (Delta_Encode d ++ tail)
  = Ret {| Ops := Ops d; NewFileSize := NewFileSize d; NewFileHash := NewFileHash d;
           BlocksCopied := 0; BytesCopied := 0; BytesLiteral := 0 |}.
Proof.
  intros Hok Hh Hs Hn. unfold DecodeDelta, Delta_Encode. rewrite <- !app_assoc.
  rewrite (proj2 (Z.ltb_ge _ 44)) by len.
  rewrite slice_0, take_app_exact by apply length_be_put.
  rewrite (slice_field 8 40) by len.
  rewrite (app_assoc (be_put 8 _)), (slice_field 40 44) by len.
  rewrite (app_assoc (_ ++ NewFileHash d)), drop_app_exact by len.
  rewrite !be_get_put. change (256 ^ Z.of_nat 8) with (2 ^ 64). change (256 ^ Z.of_nat 4) with (2 ^ 32).
  rewrite (u32_small (Z.of_nat _)), (Z.mod_small (Z.of_nat _)) by lia.
  rewrite decode_ops_ok; [|pose proof (length_ops_le (Ops d)); len|done|lia]. simpl.
  do 2 f_equal. unfold u64. rewrite Z.mod_mod by lia. fold (u64 (NewFileSize d)).
  by rewrite s64_u64, s64_small.
Qed.

(** Decoding an encoded delta, whatever bytes follow it, returns the same
    operations, file size and file hash; the three statistics fields are not
    transmitted and come back as zero. *)
Theorem delta_codec_roundtrip (d : Delta) (tail : bytes) :
  Forall op_ok (Ops d) → length (NewFileHash d) = 32%nat →
  - 2 ^ 63 ≤ NewFileSize d < 2 ^ 63 → Z.of_nat (length (Ops d)) < 2 ^ 32 →
  DecodeDelta (Delta_Encode d ++ tail)
  = Ret {| Ops := Ops d; NewFileSize := NewFileSize d; NewFileHash := NewFileHash d;
           BlocksCopied := 0; BytesCopied := 0; BytesLiteral := 0 |}.
Proof. apply decode_encoded_delta. Qed.

Lemma delta_codec_roundtrip_witness :
  let d := {| Ops := [OpCopy 7; OpData [x41; x42]; OpCopy 0]; NewFileSize := 8194;
              NewFileHash := replicate 32 x11; BlocksCopied := 0; BytesCopied := 0; BytesLiteral := 0 |} in
  DecodeDelta (Delta_Encode d ++ [xff]) = Ret d.
Proof.
  intros d. apply (delta_codec_roundtrip d [xff]); [|done|by vm_compute|by vm_compute].
  repeat constructor; by vm_compute.
Defined.
