(* ===== verification/DeltaGen.v ===== *)
(** * Generating signatures and deltas: GenerateSignature and GenerateDelta
      of internal/delta/delta.go

    The sender's streaming loop is modelled step by step over a reader that
    ends in EOF or in a read error, with the rolling hash of [Rolling] as its
    window. One [gen_step] is one iteration of the main [for !eofReached]
    loop. *)
From Stdlib Require Import Strings.Byte.
From S2P Require Import Prelude Sha256 Rolling Signature Delta.
Local Open Scope Z_scope.

Section generate.
Context `{HashFn}.

(** ** GenerateSignature *)
Fixpoint gensig_loop (fuel : nat) (blockSize : nat) (r : stream) (sig : Signature)
    (fileSize blockIndex : Z) : outcome delta_error (Signature * Z) :=
  match fuel with
  | O => Err LoopExhausted
  | S fuel' =>
      let '(got, st, r') := ReadFull blockSize r in
      let n := Z.of_nat (length got) in
      let '(sig', fileSize', blockIndex') :=
        if 0 <? n then
          let '(weakHash, strongHash) := ComputeBlockSignature got in
          (AddBlock sig blockIndex weakHash strongHash, fileSize + n, u32 (blockIndex + 1))
        else (sig, fileSize, blockIndex) in
      match st with
      | ReadEOF | ReadUnexpectedEOF => Ret (sig', fileSize')
      | ReadFailed e => Err (ReadingBlock blockIndex' e)
      | ReadOk => gensig_loop fuel' blockSize r' sig' fileSize' blockIndex'
      end
  end.

Definition GenerateSignature (r : stream) (blockSize : Z) : outcome delta_error Signature :=
  let blockSize := if blockSize <=? 0 then DefaultBlockSize else blockSize in
  let sig := {| BlockSize := blockSize; FileSize := 0; Blocks := []; weakIndex := ∅ |} in
  res ← gensig_loop (S (length (st_buf r))) (Z.to_nat blockSize) r sig 0 0;
  Ret {| BlockSize := BlockSize res.1; FileSize := res.2; Blocks := Blocks res.1;
         weakIndex := weakIndex res.1 |}.

(** ** GenerateDelta *)
Record gstate := {
  g_ops : list DeltaOp;
  g_blocksCopied : Z;
  g_bytesCopied : Z;
  g_bytesLiteral : Z;
  g_literal : bytes;      (* literalBuf *)
  g_rh : RollingHash;
  g_reader : stream;
  g_hasher : hasher;      (* fileHasher *)
  g_total : Z;            (* totalBytes *)
  g_eof : bool;           (* eofReached *)
}.

(** The loop [for i := 0; i < sig.BlockSize; i++] that fills the window: the
    number of bytes read, how it ended, the window and the reader. *)
Fixpoint fill (n : nat) (i : Z) (rh : RollingHash) (r : stream)
    : outcome delta_error (Z * read_status * RollingHash * stream) :=
  match n with
  | O => Ret (i, ReadOk, rh, r)
  | S n' =>
      match ReadByte r with
      | (Some b, _, r') => res ← RollIn rh b; fill n' (i + 1) res.2 r'
      | (None, st, r') => Ret (i, st, rh, r')
      end
  end.

(** [rh.Window()[:n]] *)
Definition window_prefix (rh : RollingHash) (n : Z) : outcome delta_error bytes :=
  w ← Window rh; or_panic (slicez w 0 n).

Definition gen_start (pooled : bytes) (sig : Signature) (newFile : stream)
    : outcome delta_error gstate :=
  let rh := NewRollingHash pooled (BlockSize sig) in
  res ← fill (Z.to_nat (BlockSize sig)) 0 rh newFile;
  let '(i, st, rh', r') := res in
  match st with
  | ReadFailed e => Err (ReadingInitialWindow e)
  | ReadEOF | ReadUnexpectedEOF =>
      window ← (if 0 <? i then window_prefix rh' i else Ret []);
      Ret {| g_ops := []; g_blocksCopied := 0; g_bytesCopied := 0; g_bytesLiteral := 0;
             g_literal := window; g_rh := rh'; g_reader := r';
             g_hasher := hasher_Write hasher_New window; g_total := i; g_eof := true |}
  | ReadOk =>
      Ret {| g_ops := []; g_blocksCopied := 0; g_bytesCopied := 0; g_bytesLiteral := 0;
             g_literal := []; g_rh := rh'; g_reader := r'; g_hasher := hasher_New;
             g_total := 0; g_eof := false |}
  end.

(** The first candidate whose strong hash agrees. *)
Fixpoint find_match (sig : Signature) (strongHash : bytes) (candidates : list nat)
    : option BlockSignature :=
  match candidates with
  | [] => None
  | i :: rest =>
      match GetBlock sig (Z.of_nat i) with
      | Some block =>
          if bool_decide (strongHash = StrongHash block) then Some block
          else find_match sig strongHash rest
      | None => find_match sig strongHash rest
      end
  end.

(** [sig.FindByWeakHash] followed by the strong comparison, as done for full
    windows and for the partial block at the end. *)
Definition lookup_block (sig : Signature) (weakHash : Z) (data : bytes) : option BlockSignature :=
  find_match sig (ComputeBlockSignature data).2 (FindByWeakHash sig weakHash).

(** Flush the literal buffer into the operations, if it is not empty. *)
Definition flush_literal (s : gstate) : gstate :=
  if bool_decide (g_literal s = []) then s else {|
    g_ops := g_ops s ++ [OpData (g_literal s)];
    g_blocksCopied := g_blocksCopied s; g_bytesCopied := g_bytesCopied s;
    g_bytesLiteral := g_bytesLiteral s + Z.of_nat (length (g_literal s));
    g_literal := []; g_rh := g_rh s; g_reader := g_reader s; g_hasher := g_hasher s;
    g_total := g_total s; g_eof := g_eof s |}.

(** Emit a copy of [block], accounting for the bytes [data] it stands for and
    [counted] copied bytes. *)
Definition emit_copy (s : gstate) (block : BlockSignature) (data : bytes) (counted : Z) : gstate := {|
  g_ops := g_ops s ++ [OpCopy (Index block)];
  g_blocksCopied := g_blocksCopied s + 1;
  g_bytesCopied := g_bytesCopied s + counted;
  g_bytesLiteral := g_bytesLiteral s; g_literal := g_literal s;
  g_rh := g_rh s; g_reader := g_reader s;
  g_hasher := hasher_Write (g_hasher s) data;
  g_total := g_total s + Z.of_nat (length data); g_eof := g_eof s |}.

(** Append [data] to the literal buffer, the file hash and the byte count. *)
Definition emit_literal (s : gstate) (data : bytes) : gstate := {|
  g_ops := g_ops s; g_blocksCopied := g_blocksCopied s; g_bytesCopied := g_bytesCopied s;
  g_bytesLiteral := g_bytesLiteral s; g_literal := g_literal s ++ data;
  g_rh := g_rh s; g_reader := g_reader s; g_hasher := hasher_Write (g_hasher s) data;
  g_total := g_total s + Z.of_nat (length data); g_eof := g_eof s |}.

Definition set_input (s : gstate) (rh : RollingHash) (r : stream) (eof : bool) : gstate := {|
  g_ops := g_ops s; g_blocksCopied := g_blocksCopied s; g_bytesCopied := g_bytesCopied s;
  g_bytesLiteral := g_bytesLiteral s; g_literal := g_literal s;
  g_rh := rh; g_reader := r; g_hasher := g_hasher s; g_total := g_total s; g_eof := eof |}.

(** A full-window match: flush, copy, refill, and treat a partial last block. *)
Definition gen_match (sig : Signature) (s : gstate) (block : BlockSignature) (window : bytes)
    : outcome delta_error gstate :=
  let s1 := emit_copy (flush_literal s) block window (BlockSize sig) in
  res ← fill (Z.to_nat (BlockSize sig)) 0 (Reset (g_rh s1) (BlockSize sig)) (g_reader s1);
  let '(partialCount, st, rh', r') := res in
  match st with
  | ReadFailed e => Err (ReadingAfterMatch e)
  | ReadOk => Ret (set_input s1 rh' r' false)
  | ReadEOF | ReadUnexpectedEOF =>
      let s2 := set_input s1 rh' r' true in
      if 0 <? partialCount then
        partialData ← window_prefix rh' partialCount;
        match lookup_block sig (ComputeBlockSignature partialData).1 partialData with
        | Some pBlock => Ret (emit_copy s2 pBlock partialData partialCount)
        | None => Ret (emit_literal s2 partialData)
        end
      else Ret s2
  end.

(** No match: emit the oldest byte, read the next one and roll. *)
Definition gen_roll (s : gstate) : outcome delta_error gstate :=
  s1 ← (if IsFull (g_rh s) then
          oldestPos ← startPos (g_rh s);
          oldestByte ← or_panic (idx (rh_window (g_rh s)) oldestPos);
          Ret (emit_literal s [oldestByte])
        else Ret s);
  match ReadByte (g_reader s1) with
  | (Some nextByte, _, r') =>
      rh' ← advance (g_rh s1) nextByte;
      Ret (set_input s1 rh' r' false)
  | (None, ReadFailed e, _) => Err (ReadingFile e)
  | (None, _, r') =>
      s2 ← (if IsFull (g_rh s1) then
              w ← Window (g_rh s1);
              tail ← or_panic (slicez w 1 (Z.of_nat (length w)));
              Ret (emit_literal s1 tail)
            else Ret s1);
      Ret (set_input s2 (g_rh s2) r' true)
  end.

(** One iteration of [for !eofReached]. *)
Definition gen_step (sig : Signature) (s : gstate) : outcome delta_error gstate :=
  if IsFull (g_rh s) then
    let weakHash := Sum (g_rh s) in
    if bool_decide (FindByWeakHash sig weakHash = []) then gen_roll s
    else
      window ← Window (g_rh s);
      match lookup_block sig weakHash window with
      | Some block => gen_match sig s block window
      | None => gen_roll s
      end
  else gen_roll s.

Fixpoint gen_loop (fuel : nat) (sig : Signature) (s : gstate) : outcome delta_error gstate :=
  if g_eof s then Ret s
  else match fuel with
       | O => Err LoopExhausted
       | S fuel' => s' ← gen_step sig s; gen_loop fuel' sig s'
       end.

Definition gen_finish (s : gstate) : Delta :=
  let s := flush_literal s in
  {| Ops := g_ops s; NewFileSize := g_total s; NewFileHash := hasher_Sum (g_hasher s);
     BlocksCopied := g_blocksCopied s; BytesCopied := g_bytesCopied s;
     BytesLiteral := g_bytesLiteral s |}.

(** Every iteration reads a byte or reaches the end, so one iteration per
    input byte and one for the end suffice. *)
Definition GenerateDelta (pooled : bytes) (newFile : stream) (sig : Signature)
    : outcome delta_error Delta :=
  s0 ← gen_start pooled sig newFile;
  s ← gen_loop (S (length (st_buf newFile))) sig s0;
  Ret (gen_finish s).
End generate.

(** ** Filling the window *)
Definition end_status (r : stream) : read_status :=
  match st_fin r with None => ReadEOF | Some e => ReadFailed e end.

(** Filling reads [n] bytes but the window keeps only what it has room for. *)
Lemma fill_clamped n i rh r l :
  represents rh l →
  ∃ rh', fill n i rh r
      = Ret (i + Z.of_nat (length (take n (st_buf r))),
             if decide (length (take n (st_buf r)) = n) then ReadOk else end_status r,
             rh', Stream (drop n (st_buf r)) (st_fin r))
    ∧ represents rh' (take (Z.to_nat (rh_size rh)) (l ++ take n (st_buf r)))
    ∧ rh_size rh' = rh_size rh.
Proof.
  revert i rh r l. induction n as [|n IH]; intros i rh [buf fin] l Hrep; simpl.
  - exists rh. pose proof (rep_count _ _ Hrep). pose proof (rep_fits _ _ Hrep).
    rewrite app_nil_r, Z.add_0_r, drop_0, take_ge by lia. done.
  - pose proof (rep_count _ _ Hrep). pose proof (rep_fits _ _ Hrep).
    destruct buf as [|b buf]; simpl; [exists rh; rewrite app_nil_r, Z.add_0_r, take_ge by lia; done|].
    assert (∃ ok rh1, RollIn (E:=delta_error) rh b = Ret (ok, rh1) ∧ rh_size rh1 = rh_size rh
      ∧ represents rh1 (take (Z.to_nat (rh_size rh)) (l ++ [b]))) as (ok & rh1 & -> & H2 & H1).
    { destruct (decide (Z.of_nat (length l) < rh_size rh)).
      - destruct (RollIn_ok (E:=delta_error) rh l b Hrep) as (rh1 & -> & H1 & H2); [lia|].
        rewrite take_ge by len. eauto.
      - rewrite (RollIn_full rh l) by (done || lia). rewrite take_app_le, take_ge by lia. eauto. }
    simpl. destruct (IH (i + 1) rh1 (Stream buf fin) _ H1) as (rh2 & -> & H3 & H4).
    exists rh2. simpl in *. split; [|split; [|congruence]].
    + replace (i + 1 + Z.of_nat (length (take n buf)))
        with (i + Z.of_nat (S (length (take n buf)))) by lia.
      destruct (decide (length (take n buf) = n)), (decide (S (length (take n buf)) = S n));
        try done; lia.
    + rewrite H2 in H3. replace (l ++ b :: take n buf) with ((l ++ [b]) ++ take n buf)
        by by rewrite <- app_assoc.
      destruct (decide (length (l ++ [b]) ≤ Z.to_nat (rh_size rh))%nat).
      * by rewrite (take_ge (l ++ [b])) in H3.
      * rewrite take_app_le in H3 by len. rewrite take_take, Nat.min_id in H3.
        by rewrite take_app_le by lia.
Qed.

Lemma fill_ok n i rh r l :
  represents rh l → Z.of_nat (length l + n) = rh_size rh →
  ∃ rh', fill n i rh r
      = Ret (i + Z.of_nat (length (take n (st_buf r))),
             if decide (length (take n (st_buf r)) = n) then ReadOk else end_status r,
             rh', Stream (drop n (st_buf r)) (st_fin r))
    ∧ represents rh' (l ++ take n (st_buf r)) ∧ rh_size rh' = rh_size rh.
Proof.
  intros Hrep Hn. destruct (fill_clamped n i rh r l Hrep) as (rh' & H1 & H2 & H3).
  exists rh'. rewrite take_ge in H2 by len. done.
Qed.

Lemma window_prefix_ok rh l :
  represents rh l → window_prefix rh (Z.of_nat (length l)) = Ret l.
Proof.
  intros Hrep. unfold window_prefix. rewrite (Window_ok _ _ Hrep). simpl.
  rewrite slicez_ok by len. simpl. by rewrite slice_0, Nat2Z.id, take_app_length.
Qed.

Lemma window_full {E} rh l :
  represents rh l → Z.of_nat (length l) = rh_size rh → Window (E:=E) rh = Ret l.
Proof.
  intros Hrep Hl. rewrite (Window_ok _ _ Hrep). replace (_ - _)%nat with 0%nat by lia.
  by rewrite app_nil_r.
Qed.

Lemma oldest_byte {E} rh x l :
  represents rh (x :: l) → Z.of_nat (length (x :: l)) = rh_size rh →
  ∃ p, startPos (E:=E) rh = Ret p ∧ idx (rh_window rh) p = Some x.
Proof.
  intros [Hs Hb Hp Hc Hf Hr Hab] Hl. unfold startPos. rewrite go_rem_ok by lia.
  eexists. split; [done|]. specialize (Hr 0%nat x eq_refl). rewrite Hc.
  by rewrite Z.add_0_r in Hr.
Qed.

(** ** A proof rule for GenerateDelta

    [P s c] is any property of the sender state after it has emitted the
    prefix [c] of the new file, that is kept by emitting copies of matched
    data and literals. [Miss] is what a failed block lookup is allowed to
    establish before literals are emitted. *)
Section rule.
Context `{HashFn} (sig : Signature) (new : bytes).
Hypothesis bs_ok : 0 < BlockSize sig ≤ MaxBlockSize.
Variable P : gstate → bytes → Prop.
Variable Miss : Prop.
Hypothesis P_start : ∀ rh r e, P {| g_ops := []; g_blocksCopied := 0; g_bytesCopied := 0;
  g_bytesLiteral := 0; g_literal := []; g_rh := rh; g_reader := r; g_hasher := hasher_New;
  g_total := 0; g_eof := e |} [].
Hypothesis miss_short : Z.of_nat (length new) < BlockSize sig → Miss.
Hypothesis P_input : ∀ s c rh r e, P s c → P (set_input s rh r e) c.
Hypothesis P_flush : ∀ s c, P s c → P (flush_literal s) c.
Hypothesis P_copy : ∀ s c w rest block,
  P s c → g_literal s = [] → c ++ w ++ rest = new → w ≠ [] →
  (Z.of_nat (length w) = BlockSize sig ∨ Z.of_nat (length w) < BlockSize sig ∧ rest = []) →
  lookup_block sig (pack (adler w)) w = Some block →
  P (emit_copy s block w (Z.of_nat (length w))) (c ++ w).
Hypothesis P_literal : ∀ s c d, Miss → P s c → P (emit_literal s d) (c ++ d).
Hypothesis miss_intro : ∀ s c w rest,
  P s c → c ++ w ++ rest = new → w ≠ [] →
  (Z.of_nat (length w) = BlockSize sig ∨ Z.of_nat (length w) < BlockSize sig ∧ rest = []) →
  lookup_block sig (pack (adler w)) w = None → Miss.

Record live (s : gstate) (c win : bytes) : Prop := {
  lv_P : P s c;
  lv_eof : g_eof s = false;
  lv_rep : represents (g_rh s) win;
  lv_size : rh_size (g_rh s) = BlockSize sig;
  lv_full : Z.of_nat (length win) = BlockSize sig;
  lv_new : c ++ win ++ st_buf (g_reader s) = new;
  lv_fin : st_fin (g_reader s) = None;
}.

(** What one iteration achieves: the end with all of [new] emitted, or a live
    state with fewer bytes to read. *)
Definition progressed (s s' : gstate) : Prop :=
  (g_eof s' = true ∧ P s' new)
  ∨ (∃ c win, live s' c win ∧ (length (st_buf (g_reader s')) < length (st_buf (g_reader s)))%nat).

Lemma gen_roll_rule s c win :
  live s c win → Miss → ∃ s', gen_roll s = Ret s' ∧ progressed s s'.
Proof.
  intros [HP Heof Hrep Hsz Hfull Hnew Hfin] HM. unfold gen_roll.
  assert (IsFull (g_rh s) = true) as Hif.
  { rewrite (IsFull_spec _ _ Hrep). apply bool_decide_eq_true. lia. }
  destruct win as [|x k]; [simpl in *; lia|].
  destruct (oldest_byte (E:=delta_error) _ x k Hrep) as (p & Hp & Hx); [lia|].
  rewrite Hif, Hp. simpl. rewrite Hx. simpl. rewrite Hif.
  unfold ReadByte. destruct (st_buf (g_reader s)) as [|b buf] eqn:Ebuf; rewrite ?Hfin; simpl.
  - rewrite (window_full _ _ Hrep) by lia. simpl. rewrite slicez_ok by (simpl; lia). simpl.
    eexists. split; [done|]. left. split; [done|]. apply P_input.
    replace new with ((c ++ [x]) ++ k) by (rewrite <- Hnew, app_nil_r, <- app_assoc; done).
    unfold slice. rewrite Nat2Z.id. change (Z.to_nat 1) with 1%nat.
    simpl. rewrite drop_0, take_ge by lia. repeat (apply P_literal; [done|]). done.
  - unfold advance. rewrite Hif.
    destruct (Roll_ok (E:=delta_error) _ x k b Hrep) as (rh' & -> & H1 & H2); [lia|]. simpl.
    eexists. split; [done|]. right. exists (c ++ [x]), (k ++ [b]). rewrite Ebuf. simpl. split; [|lia].
    constructor; simpl; try done; try congruence.
    + by apply P_input, P_literal.
    + rewrite length_app. simpl in *. lia.
    + rewrite <- Hnew, <- !app_assoc. done.
Qed.

Lemma gen_match_rule s c win block :
  live s c win → lookup_block sig (pack (adler win)) win = Some block →
  ∃ s', gen_match sig s block win = Ret s' ∧ progressed s s'.
Proof.
  intros [HP Heof Hrep Hsz Hfull Hnew Hfin] Hlk. unfold gen_match.
  assert (win ≠ []) as Hne by (intros ->; simpl in *; lia).
  assert (g_rh (flush_literal s) = g_rh s ∧ g_reader (flush_literal s) = g_reader s
    ∧ g_literal (flush_literal s) = []) as (E1 & E2 & E3).
  { unfold flush_literal. case_bool_decide; done. }
  set (s1 := emit_copy (flush_literal s) block win (BlockSize sig)).
  assert (HP1 : P s1 (c ++ win)).
  { subst s1. rewrite <- Hfull. eapply P_copy; eauto. }
  replace (g_rh s1) with (g_rh s) by done. replace (g_reader s1) with (g_reader s) by done.
  assert (Hreset : represents (Reset (g_rh s) (BlockSize sig)) []).
  { apply Reset_represents; [rewrite <- (rep_size _ _ Hrep); lia|lia]. }
  set (n := Z.to_nat (BlockSize sig)).
  destruct (fill_ok n 0 _ (g_reader s) [] Hreset) as (rh' & -> & H1 & H2).
  { simpl. rewrite <- (rep_size _ _ Hrep). lia. }
  set (got := take n (st_buf (g_reader s))) in *. simpl in H1.
  assert (Hrh' : rh_size rh' = BlockSize sig).
  { rewrite H2. simpl. rewrite <- (rep_size _ _ Hrep). lia. }
  assert (Hrest : got ++ drop n (st_buf (g_reader s)) = st_buf (g_reader s)) by apply take_drop.
  simpl. case_decide as Hgot.
  - eexists. split; [done|]. right. exists (c ++ win), got. split.
    + constructor; simpl; try done; [by apply P_input|lia|]. by rewrite Hrest, <- app_assoc.
    + simpl. rewrite <- Hrest at 2. rewrite length_app. lia.
  - unfold end_status. rewrite Hfin.
    assert (Hnil : drop n (st_buf (g_reader s)) = []).
    { apply drop_ge. unfold got in Hgot. rewrite length_take in Hgot. lia. }
    rewrite Hnil in *. rewrite app_nil_r in Hrest.
    assert (Hall : new = (c ++ win) ++ got) by (rewrite <- Hnew, Hrest, <- app_assoc; done).
    destruct (decide (got = [])) as [Hg|Hg].
    + rewrite Hg. simpl. eexists. split; [done|]. left. split; [done|]. apply P_input.
      rewrite Hall, Hg, app_nil_r. done.
    + assert (0 < length got)%nat by (destruct got; [done|simpl; lia]).
      assert (Hshape : Z.of_nat (length got) = BlockSize sig
        ∨ Z.of_nat (length got) < BlockSize sig ∧ @nil byte = []).
      { right. split; [|done]. unfold got in *. rewrite length_take in *. lia. }
      rewrite (proj2 (Z.ltb_lt 0 _)) by lia.
      rewrite Z.add_0_l, (window_prefix_ok _ _ H1). simpl.
      destruct (lookup_block sig (pack (adler got)) got) as [pb|] eqn:Epb; eexists;
        (split; [done|]); left; (split; [done|]); rewrite Hall.
      * eapply P_copy; eauto. by rewrite app_nil_r.
      * apply P_literal; [|by apply P_input]. eapply miss_intro; [done|..]; eauto.
        by rewrite app_nil_r.
Qed.

Lemma gen_step_rule s c win :
  live s c win → ∃ s', gen_step sig s = Ret s' ∧ progressed s s'.
Proof.
  intros Hl. pose proof Hl as [HP Heof Hrep Hsz Hfull Hnew Hfin]. unfold gen_step.
  assert (win ≠ []) as Hne by (intros ->; simpl in *; lia).
  rewrite (IsFull_spec _ _ Hrep), bool_decide_eq_true_2 by lia.
  assert (HS : Sum (g_rh s) = pack (adler win)) by (unfold Sum; by rewrite (rep_sums _ _ Hrep)).
  rewrite HS. case_bool_decide as Hc.
  - eapply gen_roll_rule; [done|]. eapply (miss_intro s c win); eauto.
    unfold lookup_block. by rewrite Hc.
  - rewrite (window_full _ _ Hrep) by lia. simpl.
    destruct (lookup_block sig (pack (adler win)) win) as [block|] eqn:Elk.
    + by eapply gen_match_rule.
    + eapply gen_roll_rule; [done|]. eapply (miss_intro s c win); eauto.
Qed.

Lemma gen_loop_rule fuel s c win :
  live s c win → (length (st_buf (g_reader s)) < fuel)%nat →
  ∃ s', gen_loop fuel sig s = Ret s' ∧ P s' new.
Proof.
  revert s c win. induction fuel as [|fuel IH]; intros s c win Hl Hf; [lia|].
  cbn [gen_loop]. rewrite (lv_eof _ _ _ Hl).
  destruct (gen_step_rule s c win Hl) as (s' & -> & [[He HP]|(c' & win' & Hl' & Hlt)]); simpl.
  - destruct fuel; simpl; rewrite He; eauto.
  - eapply IH; [done|lia].
Qed.

Lemma GenerateDelta_rule pooled :
  ∃ s, GenerateDelta pooled (stream_of new) sig = Ret (gen_finish s) ∧ P s new.
Proof.
  unfold GenerateDelta, gen_start.
  destruct (NewRollingHash_represents pooled (BlockSize sig) bs_ok) as [Hrep Hsz].
  set (n := Z.to_nat (BlockSize sig)).
  destruct (fill_ok n 0 _ (stream_of new) [] Hrep) as (rh' & -> & H1 & H2).
  { rewrite Hsz. simpl length. lia. }
  cbn [st_buf stream_of st_fin mbind outcome_bind app] in *. rewrite Z.add_0_l. case_decide as Hfull.
  - cbn [mbind outcome_bind].
    match goal with |- context [gen_loop _ _ ?s0] =>
      destruct (gen_loop_rule (S (length new)) s0 [] (take n new)) as (s & -> & HP) end.
    + constructor; cbn; [apply P_start|done|exact H1|by rewrite H2|lia|apply take_drop|done].
    + cbn. rewrite length_drop. lia.
    + by exists s.
  - assert (Hlt : (length new < n)%nat) by (rewrite length_take in Hfull; lia).
    rewrite take_ge in * by lia. cbn [end_status st_fin stream_of].
    assert (Hw : (if 0 <? Z.of_nat (length new) then window_prefix rh' (Z.of_nat (length new)) else Ret [])
      = Ret new).
    { destruct (Z.ltb_spec 0 (Z.of_nat (length new))); [by apply window_prefix_ok|].
      destruct new; [done|simpl in *; lia]. }
    rewrite Hw. simpl. eexists. split; [done|].
    pose proof (P_literal _ _ new ltac:(apply miss_short; lia)
      (P_start rh' (Stream (drop n new) None) true)) as HP. exact HP.
Qed.
End rule.

(** ** Instances of the rule *)
Definition accounts (s : gstate) (c : bytes) : Prop :=
  hs_written (g_hasher s) = c ∧ g_total s = Z.of_nat (length c)
  ∧ g_bytesCopied s + g_bytesLiteral s + Z.of_nat (length (g_literal s)) = Z.of_nat (length c).

Lemma flush_fields s :
  g_hasher (flush_literal s) = g_hasher s ∧ g_total (flush_literal s) = g_total s
  ∧ g_bytesCopied (flush_literal s) = g_bytesCopied s
  ∧ g_bytesLiteral (flush_literal s) = g_bytesLiteral s + Z.of_nat (length (g_literal s))
  ∧ g_literal (flush_literal s) = [].
Proof. unfold flush_literal. case_bool_decide as E; simpl; [rewrite E; simpl|]; repeat split; lia. Qed.

Lemma accounts_flush s c : accounts s c → accounts (flush_literal s) c.
Proof.
  intros (H1 & H2 & H3). destruct (flush_fields s) as (E1 & E2 & E3 & E4 & E5).
  unfold accounts. rewrite E1, E2, E3, E4, E5. repeat split; try done. simpl. lia.
Qed.

Lemma GenerateDelta_accounts `{HashFn} pooled sig new :
  0 < BlockSize sig ≤ MaxBlockSize →
  ∃ s, GenerateDelta pooled (stream_of new) sig = Ret (gen_finish s) ∧ accounts s new.
Proof.
  intros Hbs. apply (GenerateDelta_rule sig new Hbs accounts True); try done.
  - exact accounts_flush.
  - intros s c w rest b (H1 & H2 & H3) Hl _ _ _ _. unfold accounts, emit_copy. simpl.
    rewrite H1, length_app. repeat split; lia.
  - intros s c d _ (H1 & H2 & H3). unfold accounts, emit_literal. simpl.
    rewrite H1, !length_app. repeat split; lia.
Qed.

(** C10: with a block size between 1 and 64K, [GenerateDelta] returns a delta for
    every input and every signature, well-formed or not: no panic, no endless
    loop. The announced size and hash are those of the whole new file, and
    every byte is accounted for exactly once, as copied or as literal. *)
Theorem GenerateDelta_total `{HashFn} (pooled : bytes) (sig : Signature) (new : bytes) :
  0 < BlockSize sig ≤ MaxBlockSize →
  ∃ d, GenerateDelta pooled (stream_of new) sig = Ret d
    ∧ NewFileSize d = Z.of_nat (length new) ∧ NewFileHash d = sha256 new
    ∧ BytesCopied d + BytesLiteral d = NewFileSize d.
Proof.
  intros Hbs. destruct (GenerateDelta_accounts pooled sig new Hbs) as (s & -> & Ha).
  eexists. split; [done|]. apply accounts_flush in Ha as (H1 & H2 & H3).
  destruct (flush_fields s) as (_ & _ & _ & _ & E5). rewrite E5 in H3. simpl in *.
  unfold hasher_Sum. rewrite H1. repeat split; lia.
Qed.

Lemma GenerateDelta_total_witness :
  let sig := AddBlock {| BlockSize := 2; FileSize := 2; Blocks := []; weakIndex := ∅ |} 9
               (pack (adler [x61; x62])) (@sha256 sha256_fips [x61; x62]) in
  ∃ d, @GenerateDelta sha256_fips [] (stream_of [x7a; x61; x62; x63]) sig = Ret d
    ∧ NewFileSize d = 4 ∧ NewFileHash d = @sha256 sha256_fips [x7a; x61; x62; x63]
    ∧ BytesCopied d + BytesLiteral d = NewFileSize d.
Proof.
  intros sig. apply (@GenerateDelta_total sha256_fips [] sig [x7a; x61; x62; x63]). by vm_compute.
Defined.

(** ** GenerateSignature against the chunking reference *)
Section signature_spec.
Context `{HashFn}.

Fixpoint block_sigs (i : Z) (cs : list bytes) : list BlockSignature :=
  match cs with
  | [] => []
  | c :: cs' =>
      {| Index := i; WeakHash := pack (adler c); StrongHash := sha256 c |}
      :: block_sigs (u32 (i + 1)) cs'
  end.

Lemma gensig_loop_ok fuel bs l sig fsz bi :
  (0 < bs)%nat → (length l < fuel)%nat →
  gensig_loop fuel bs (Stream l None) sig fsz bi
  = Ret (foldl add_block sig (block_sigs bi (chunks_of bs l)), fsz + Z.of_nat (length l)).
Proof.
  intros Hbs. revert fuel sig fsz bi.
  induction l as [|l Hl IH] using (chunks_ind bs Hbs); intros [|fuel] sig fsz bi Hf; try lia.
  - simpl. unfold ReadFull. simpl. rewrite take_nil. simpl.
    rewrite decide_False by lia. simpl. by rewrite Z.add_0_r.
  - cbn [gensig_loop]. unfold ReadFull. cbn [st_buf st_fin].
    rewrite chunks_of_cons by done. cbn [block_sigs foldl].
    assert (0 < length l)%nat by (destruct l; [done|simpl; lia]).
    assert (0 < length (take bs l))%nat by (rewrite length_take; lia).
    case_decide as Hfull.
    + cbv beta iota zeta. rewrite (proj2 (Z.ltb_lt 0 _)) by lia.
      unfold ComputeBlockSignature. cbv beta iota zeta.
      rewrite IH by (rewrite length_drop; lia). f_equal. f_equal. rewrite length_take, length_drop in *. lia.
    + rewrite decide_False by lia. cbv beta iota zeta. rewrite (proj2 (Z.ltb_lt 0 _)) by lia.
      rewrite length_take in Hfull. rewrite drop_ge, chunks_of_nil, take_ge by lia. done.
Qed.

Lemma GenerateSignature_ok l bs :
  0 < bs →
  ∃ sig, GenerateSignature (stream_of l) bs = Ret sig
    ∧ BlockSize sig = bs ∧ FileSize sig = Z.of_nat (length l)
    ∧ Blocks sig = block_sigs 0 (chunks_of (Z.to_nat bs) l) ∧ sig_wf sig.
Proof.
  intros Hbs. unfold GenerateSignature, stream_of. rewrite (proj2 (Z.leb_gt bs 0)) by lia.
  rewrite gensig_loop_ok by (simpl; lia). cbn [mbind outcome_bind fst snd].
  set (e := {| BlockSize := bs; FileSize := 0; Blocks := []; weakIndex := ∅ |}).
  destruct (add_blocks_fields (block_sigs 0 (chunks_of (Z.to_nat bs) l)) e) as (E1 & E2 & E3 & E4).
  eexists. split; [done|]. cbn [BlockSize FileSize Blocks]. rewrite E1, E2.
  repeat split; try done. intros w. pose proof (E4 (sig_wf_empty _ _) w) as Hw.
  by rewrite E1 in Hw.
Qed.

Lemma block_sigs_lookup i cs j b :
  0 ≤ i < 2 ^ 32 → block_sigs i cs !! j = Some b →
  ∃ c, cs !! j = Some c
    ∧ b = {| Index := u32 (i + Z.of_nat j); WeakHash := pack (adler c); StrongHash := sha256 c |}.
Proof.
  revert i j. induction cs as [|c cs IH]; intros i j Hi Hb; [done|].
  destruct j as [|j]; simpl in Hb.
  - injection Hb as <-. exists c. rewrite Z.add_0_r, u32_small by done. done.
  - apply IH in Hb as (c' & Hc & ->); [|apply u32_range]. exists c'. split; [done|].
    f_equal. unfold u32. rewrite Zplus_mod_idemp_l. f_equal. lia.
Qed.

Lemma block_sigs_lookup_inv i cs j c :
  0 ≤ i < 2 ^ 32 → cs !! j = Some c →
  block_sigs i cs !! j
  = Some {| Index := u32 (i + Z.of_nat j); WeakHash := pack (adler c); StrongHash := sha256 c |}.
Proof.
  revert i j. induction cs as [|c' cs IH]; intros i [|j] Hi Hc; simpl in *; try done.
  - injection Hc as ->. by rewrite Z.add_0_r, u32_small.
  - rewrite (IH _ j) by (done || apply u32_range). do 2 f_equal.
    unfold u32. rewrite Zplus_mod_idemp_l. f_equal. lia.
Qed.

Lemma length_block_sigs i cs : length (block_sigs i cs) = length cs.
Proof. revert i. induction cs; intros; simpl; congruence. Qed.

Lemma block_sigs_ok i cs : 0 ≤ i < 2 ^ 32 → Forall block_ok (block_sigs i cs).
Proof.
  intros Hi. apply Forall_lookup_2. intros j b Hj.
  apply block_sigs_lookup in Hj as (c & _ & ->); [|done]. unfold block_ok. simpl.
  split; [apply u32_range|]. split; [|apply sha256_length].
  pose proof (adler_range c) as [Ha Hb]. unfold RollingHashMod in *. destruct (adler c) as [a b].
  simpl in *. rewrite pack_arith by lia. lia.
Qed.

(** ** Looking up a block *)
Lemma find_match_sound sig h cands b :
  find_match sig h cands = Some b → b ∈ Blocks sig ∧ StrongHash b = h.
Proof.
  induction cands as [|i cands IH]; simpl; [done|].
  destruct (GetBlock sig (Z.of_nat i)) as [b'|] eqn:Eg; [|auto].
  case_bool_decide; [|auto]. intros [= <-]. split; [|done].
  unfold GetBlock in Eg. rewrite idx_Some in Eg. by eapply list_elem_of_lookup_2.
Qed.

Lemma lookup_block_sound sig w data b :
  lookup_block sig w data = Some b → b ∈ Blocks sig ∧ StrongHash b = sha256 data.
Proof. apply find_match_sound. Qed.

Lemma find_match_complete sig h cands i b :
  i ∈ cands → GetBlock sig (Z.of_nat i) = Some b → StrongHash b = h →
  is_Some (find_match sig h cands).
Proof.
  intros Hi Hg Hh. induction Hi as [i cands|i j cands Hi IH]; simpl.
  - rewrite Hg, bool_decide_eq_true_2 by done. eauto.
  - destruct (GetBlock sig (Z.of_nat j)); [case_bool_decide|]; eauto.
Qed.

(** A well-formed signature finds every block it was built from. *)
Lemma lookup_block_complete sig data b :
  sig_wf sig → b ∈ Blocks sig → WeakHash b = pack (adler data) → StrongHash b = sha256 data →
  is_Some (lookup_block sig (pack (adler data)) data).
Proof.
  intros Hwf Hb Hw Hs. apply list_elem_of_lookup in Hb as [i Hi].
  assert (Hg : GetBlock sig (Z.of_nat i) = Some b) by (unfold GetBlock; by rewrite idx_Some).
  eapply find_match_complete; [|done|done]. apply FindByWeakHash_spec; eauto.
Qed.
End signature_spec.

(** ** End to end *)

(** All contiguous parts of a list. *)
Definition infixes (l : bytes) : list bytes :=
  concat ((λ i, (λ j, slice i j l) <$> seq 0 (S (length l))) <$> seq 0 (S (length l))).

Lemma elem_of_infixes c w rest : w ∈ infixes (c ++ w ++ rest).
Proof.
  unfold infixes. rewrite list_elem_of_In, in_concat.
  set (l := c ++ w ++ rest).
  assert (Hl : length l = (length c + (length w + length rest))%nat) by (subst l; len).
  exists ((λ j, slice (length c) j l) <$> seq 0 (S (length l))). split.
  - rewrite <- list_elem_of_In. apply list_elem_of_fmap. exists (length c). split; [done|].
    apply elem_of_seq. lia.
  - rewrite <- list_elem_of_In. apply list_elem_of_fmap. exists (length c + length w)%nat. split.
    + subst l. by rewrite slice_field.
    + apply elem_of_seq. lia.
Qed.

(** The receiver's block source: the [i]-th block of its old file. *)
Definition old_block (bs : Z) (old : bytes) (i : Z) : option bytes :=
  idx (chunks_of (Z.to_nat bs) old) i.

Section end_to_end.
Context `{HashFn}.

(** The operations emitted so far, with the pending literal, spell out [c]. *)
Definition explains (blk : Z → option bytes) (s : gstate) (c : bytes) : Prop :=
  ∃ e, expand blk (g_ops s) = Some e ∧ e ++ g_literal s = c.

Lemma explains_flush blk s c : explains blk s c → explains blk (flush_literal s) c.
Proof.
  intros (e & He & Hc). unfold flush_literal. case_bool_decide as El; [by exists e|].
  exists (e ++ g_literal s). simpl. rewrite expand_snoc, He, app_nil_r. done.
Qed.

Lemma GenerateDelta_explains blk pooled sig new :
  0 < BlockSize sig ≤ MaxBlockSize →
  (∀ b w, b ∈ Blocks sig → w ∈ infixes new → StrongHash b = sha256 w → blk (Index b) = Some w) →
  ∃ s, GenerateDelta pooled (stream_of new) sig = Ret (gen_finish s) ∧ explains blk s new.
Proof.
  intros Hbs Hblk. apply (GenerateDelta_rule sig new Hbs (explains blk) True); try done.
  - intros. by exists [].
  - exact (explains_flush blk).
  - intros s c w rest b (e & He & Hc) Hl Hnew _ _ Hlk.
    apply lookup_block_sound in Hlk as [Hb Hs]. exists (e ++ w).
    simpl. rewrite expand_snoc, He. simpl.
    rewrite (Hblk b w); [|done|rewrite <- Hnew; apply elem_of_infixes|done].
    rewrite Hl, app_nil_r in *. by subst.
  - intros s c d _ (e & He & Hc). exists e. simpl. by rewrite app_assoc, Hc.
Qed.

(** What the wire format can carry. *)
Definition wire_ok (s : gstate) (c : bytes) : Prop :=
  Forall op_ok (g_ops s) ∧ (length (g_literal s) ≤ length c)%nat
  ∧ (length (g_ops s) + Nat.min 1 (length (g_literal s)) ≤ length c)%nat.

Lemma wire_ok_flush s c :
  Z.of_nat (length c) < 2 ^ 32 → wire_ok s c → wire_ok (flush_literal s) c.
Proof.
  intros Hc (H1 & H2 & H3). unfold flush_literal. case_bool_decide as El; [done|].
  unfold wire_ok. simpl. rewrite length_app. destruct (g_literal s) as [|x l] eqn:E; [done|].
  simpl in *. split; [|lia]. apply Forall_app. split; [done|]. repeat constructor. simpl in *. lia.
Qed.

Lemma GenerateDelta_wire_ok pooled sig new :
  0 < BlockSize sig ≤ MaxBlockSize → Z.of_nat (length new) < 2 ^ 32 →
  Forall block_ok (Blocks sig) →
  ∃ s, GenerateDelta pooled (stream_of new) sig = Ret (gen_finish s) ∧ wire_ok s new.
Proof.
  intros Hbs Hn Hok.
  set (Q := λ s c, Z.of_nat (length c) < 2 ^ 32 → wire_ok s c).
  destruct (GenerateDelta_rule sig new Hbs Q True) with (pooled := pooled) as (s & HG & HQ);
    [..|exists s; split; [done|by apply HQ]]; try done; subst Q; simpl.
  - intros s c HQ Hc. apply wire_ok_flush; auto.
  - intros s c w rest b HQ Hl Hnew Hw _ Hlk Hc. rewrite length_app in Hc.
    destruct HQ as (H1 & H2 & H3); [lia|]. apply lookup_block_sound in Hlk as [Hb _].
    rewrite Forall_forall in Hok. specialize (Hok b Hb) as (Hi & _).
    unfold wire_ok. simpl. rewrite !length_app, Hl. destruct w; [done|]. simpl. split; [|lia].
    apply Forall_app. split; [done|]. by apply Forall_singleton.
  - intros s c d _ HQ Hc. rewrite length_app in Hc. destruct HQ as (H1 & H2 & H3); [lia|].
    unfold wire_ok. cbn [g_ops g_literal emit_literal]. rewrite !length_app. split; [done|]. lia.
Qed.

(** Facts about the delta itself. *)
Lemma explains_finish blk s new : explains blk s new → expand blk (Ops (gen_finish s)) = Some new.
Proof.
  intros Hx. apply explains_flush in Hx as (e & He & Hc).
  destruct (flush_fields s) as (_ & _ & _ & _ & E5). rewrite E5, app_nil_r in Hc.
  unfold gen_finish. simpl. by rewrite He, Hc.
Qed.

Lemma old_block_sound bs old sig new :
  0 < bs → Z.of_nat (length (chunks_of (Z.to_nat bs) old)) ≤ 2 ^ 32 →
  Blocks sig = block_sigs 0 (chunks_of (Z.to_nat bs) old) →
  collision_free (chunks_of (Z.to_nat bs) old) (infixes new) →
  ∀ b w, b ∈ Blocks sig → w ∈ infixes new → StrongHash b = sha256 w →
    old_block bs old (Index b) = Some w.
Proof.
  intros Hbs Hn HB Hcf b w Hb Hw Hs. rewrite HB in Hb. apply list_elem_of_lookup in Hb as [j Hj].
  apply block_sigs_lookup in Hj as (c & Hc & ->); [|lia]. simpl in *.
  pose proof (lookup_lt_Some _ _ _ Hc) as Hlt. rewrite u32_small by lia.
  unfold old_block. rewrite Z.add_0_l, idx_Some, Hc. f_equal.
  apply Hcf; [by eapply list_elem_of_lookup_2|done|done].
Qed.

Lemma delta_on_generated_signature pooled old new bs :
  0 < bs ≤ MaxBlockSize → Z.of_nat (length old) < 2 ^ 32 → Z.of_nat (length new) < 2 ^ 32 →
  collision_free (chunks_of (Z.to_nat bs) old) (infixes new) →
  ∃ sig d, GenerateSignature (stream_of old) bs = Ret sig
    ∧ (sig_wf sig ∧ Forall block_ok (Blocks sig) ∧ sig_size_ok sig
       ∧ Z.of_nat (length (Blocks sig)) < 2 ^ 32)
    ∧ GenerateDelta pooled (stream_of new) sig = Ret d
    ∧ expand (old_block bs old) (Ops d) = Some new
    ∧ (Forall op_ok (Ops d) ∧ (length (Ops d) ≤ length new)%nat)
    ∧ NewFileSize d = Z.of_nat (length new) ∧ NewFileHash d = sha256 new.
Proof.
  intros Hbs Ho Hn Hcf.
  destruct (GenerateSignature_ok old bs) as (sig & HG & EB & EF & EBl & Hwf); [lia|].
  pose proof (length_chunks_of_le (Z.to_nat bs) old ltac:(lia)) as Hle.
  assert (Hok : Forall block_ok (Blocks sig)) by (rewrite EBl; by apply block_sigs_ok).
  rewrite <- EB in Hbs.
  destruct (GenerateDelta_explains (old_block bs old) pooled sig new Hbs) as (s1 & H1 & H2).
  { apply old_block_sound; try done; lia. }
  destruct (GenerateDelta_wire_ok pooled sig new Hbs Hn Hok) as (s2 & H3 & H4).
  destruct (GenerateDelta_accounts pooled sig new Hbs) as (s3 & H5 & H6).
  exists sig, (gen_finish s1). split; [done|]. split.
  { split; [done|]. split; [done|]. split; [|rewrite EBl, length_block_sigs; lia].
    unfold sig_size_ok. rewrite EF. unfold MaxBlockSize, max_alloc in *. split; [lia|]. split; [lia|].
    assert ((Z.of_nat (length old) + BlockSize sig - 1) / BlockSize sig
      ≤ Z.of_nat (length old) + 1) by (apply Z.div_le_upper_bound; nia). lia. }
  split; [done|]. split; [by apply explains_finish|].
  rewrite H1 in H3, H5. split.
  - assert (gen_finish s1 = gen_finish s2) as -> by congruence.
    apply wire_ok_flush in H4 as (? & ? & ?); [|done]. unfold gen_finish. simpl. split; [done|lia].
  - assert (gen_finish s1 = gen_finish s3) as -> by congruence. apply accounts_flush in H6 as (E1 & E2 & E3).
    unfold gen_finish, hasher_Sum. simpl. by rewrite E1, E2.
Qed.
End end_to_end.

(** C2: the whole delta protocol over the wire. The receiver signs its old file
    and sends the encoded signature; the sender decodes it, computes a delta
    for its new file and sends the encoded delta; the receiver decodes it and
    applies it to its own blocks. For files below 4 GiB, any block size from 1
    to 64K and no SHA-256 collision between a block of the old file and a part
    of the new one, every step succeeds and the receiver writes exactly the
    new file. *)
Theorem delta_sync_roundtrip `{HashFn} (pooled old new : bytes) (bs : Z) :
  0 < bs ≤ MaxBlockSize → Z.of_nat (length old) < 2 ^ 32 → Z.of_nat (length new) < 2 ^ 32 →
  collision_free (chunks_of (Z.to_nat bs) old) (infixes new) →
  ∃ sig d d', GenerateSignature (stream_of old) bs = Ret sig
    ∧ DecodeSignature (E:=delta_error) (Signature_Encode sig) = Ret (Some sig)
    ∧ GenerateDelta pooled (stream_of new) sig = Ret d
    ∧ DecodeDelta (Delta_Encode d) = Ret d'
    ∧ ApplyDelta (old_block bs old) (λ _, false) d' = (new, Ret tt).
Proof.
  intros Hbs Ho Hn Hcf.
  destruct (delta_on_generated_signature pooled old new bs Hbs Ho Hn Hcf)
    as (sig & d & H1 & (W1 & W2 & W3 & W4) & H2 & H3 & (O1 & O2) & S1 & S2).
  eexists sig, d, _. split; [done|]. split.
  { rewrite <- (app_nil_r (Signature_Encode sig)). by apply decode_encoded_signature. }
  split; [done|]. split.
  { rewrite <- (app_nil_r (Delta_Encode d)). apply decode_encoded_delta; try done; [|lia..].
    rewrite S2. apply sha256_length. }
  by apply ApplyDelta_complete.
Qed.

Lemma delta_sync_roundtrip_witness :
  ∃ sig d d', @GenerateSignature sha256_fips (stream_of [x61; x62; x63; x64; x65]) 2 = Ret sig
    ∧ DecodeSignature (E:=delta_error) (Signature_Encode sig) = Ret (Some sig)
    ∧ @GenerateDelta sha256_fips [] (stream_of [x7a; x61; x62; x79; x63; x64; x65]) sig = Ret d
    ∧ DecodeDelta (Delta_Encode d) = Ret d'
    ∧ @ApplyDelta sha256_fips (old_block 2 [x61; x62; x63; x64; x65]) (λ _, false) d'
      = ([x7a; x61; x62; x79; x63; x64; x65], Ret tt).
Proof.
  apply (@delta_sync_roundtrip sha256_fips [] [x61; x62; x63; x64; x65]
    [x7a; x61; x62; x79; x63; x64; x65] 2); [by vm_compute..|].
  apply collision_freeb_sound. by vm_compute.
Defined.

(** ** An unchanged file *)
Definition is_copy (op : DeltaOp) : bool := match op with OpCopy _ => true | OpData _ => false end.

Definition only_copies (n : nat) (old : bytes) (s : gstate) (c : bytes) : Prop :=
  g_literal s = [] ∧ g_bytesLiteral s = 0 ∧ forallb is_copy (g_ops s) = true
  ∧ ((∃ k, length c = (k * n)%nat) ∨ c = old).

Lemma aligned_part n k (c w rest old : bytes) :
  (0 < n)%nat → length c = (k * n)%nat → c ++ w ++ rest = old → w ≠ [] →
  (length w = n ∨ (length w < n)%nat ∧ rest = []) → chunks_of n old !! k = Some w.
Proof.
  intros Hn Hc <- Hw Hs. assert (0 < length w)%nat by (destruct w; [done|simpl; lia]).
  rewrite chunks_of_lookup_Some by len. f_equal. rewrite drop_app_exact by done.
  destruct Hs as [<-|[Hlt ->]]; [by rewrite take_app_length|]. rewrite app_nil_r, take_ge by lia. done.
Qed.

(** Re-sending an unchanged file of at least one block costs no literal
    data: every operation is a block copy, also for a shorter last block, and
    the bytes copied are the whole file. No assumption on the hash is needed. *)
Theorem unchanged_file_is_all_copies `{HashFn} (pooled old : bytes) (bs : Z) :
  0 < bs ≤ MaxBlockSize → bs ≤ Z.of_nat (length old) →
  ∃ sig d, GenerateSignature (stream_of old) bs = Ret sig
    ∧ GenerateDelta pooled (stream_of old) sig = Ret d
    ∧ forallb is_copy (Ops d) = true ∧ BytesLiteral d = 0 ∧ BytesCopied d = Z.of_nat (length old).
Proof.
  intros Hbs Hold.
  destruct (GenerateSignature_ok old bs) as (sig & HG & EB & EF & EBl & Hwf); [lia|].
  rewrite <- EB in Hbs. set (n := Z.to_nat bs).
  destruct (GenerateDelta_rule sig old Hbs (only_copies n old) False) with (pooled := pooled)
    as (s & H1 & H2 & H3 & H4 & _); try done.
  - intros rh r e. repeat split. left. by exists 0%nat.
  - lia.
  - intros s c (H1 & H2 & H3 & H4). unfold flush_literal. by rewrite bool_decide_eq_true_2.
  - intros s c w rest b (H1 & H2 & H3 & H4) _ Hnew Hw Hshape _. unfold only_copies. simpl.
    rewrite forallb_app, H3. repeat split; try done. destruct H4 as [[k Hk]| ->].
    + destruct Hshape as [Hs|[_ ->]]; [left; exists (S k); rewrite length_app; subst n; lia|].
      right. by rewrite app_nil_r in Hnew.
    + right. apply (f_equal length) in Hnew. rewrite !length_app in Hnew. destruct w; [done|simpl in *; lia].
  - intros s c w rest (H1 & H2 & H3 & H4) Hnew Hw Hshape Hlk. destruct H4 as [[k Hk]| ->].
    + assert (Hchunk : chunks_of n old !! k = Some w).
      { eapply aligned_part; eauto; [lia|].
        destruct Hshape as [?|[? ?]]; [left|right; split]; (done || lia). }
      eapply (block_sigs_lookup_inv 0) in Hchunk; [|lia]. subst n. rewrite <- EBl in Hchunk.
      destruct (lookup_block_complete sig w _ Hwf (list_elem_of_lookup_2 _ _ _ Hchunk) eq_refl eq_refl)
        as [b Hb]. congruence.
    + apply (f_equal length) in Hnew. rewrite !length_app in Hnew. destruct w; [done|simpl in *; lia].
  - destruct (GenerateDelta_accounts pooled sig old Hbs) as (s' & H5 & H6).
    exists sig, (gen_finish s). split; [done|]. split; [done|].
    assert (gen_finish s' = gen_finish s) as Es by congruence.
    apply accounts_flush in H6 as (_ & _ & H6). destruct (flush_fields s') as (_ & _ & _ & _ & E5).
    rewrite E5 in H6. simpl in H6.
    change (BytesCopied (gen_finish s') + BytesLiteral (gen_finish s') + 0 = Z.of_nat (length old)) in H6.
    rewrite Es in H6. unfold gen_finish, flush_literal in *.
    rewrite bool_decide_eq_true_2 in * by done. simpl in *. repeat split; [done|done|lia].
Qed.

Lemma unchanged_file_is_all_copies_witness :
  ∃ sig d, @GenerateSignature sha256_fips (stream_of [x61; x62; x63; x64; x65]) 2 = Ret sig
    ∧ @GenerateDelta sha256_fips [] (stream_of [x61; x62; x63; x64; x65]) sig = Ret d
    ∧ forallb is_copy (Ops d) = true ∧ BytesLiteral d = 0 ∧ BytesCopied d = 5.
Proof.
  apply (@unchanged_file_is_all_copies sha256_fips [] [x61; x62; x63; x64; x65] 2); by vm_compute.
Defined.

(** ** Block sizes above the maximum *)
Lemma NewRollingHash_clamped pooled bs :
  MaxBlockSize < bs → NewRollingHash pooled bs = NewRollingHash pooled MaxBlockSize.
Proof.
  intros H. unfold NewRollingHash. rewrite (proj2 (Z.leb_gt bs 0)) by (unfold MaxBlockSize in *; lia).
  rewrite (proj2 (Z.ltb_lt MaxBlockSize bs)) by done. done.
Qed.

(** The window of an oversized block holds the first 64K of the bytes read. *)
Lemma gen_start_oversized `{HashFn} pooled sig new :
  MaxBlockSize < BlockSize sig → Z.of_nat (length new) = BlockSize sig →
  ∃ rh, gen_start pooled sig (stream_of new)
      = Ret {| g_ops := []; g_blocksCopied := 0; g_bytesCopied := 0; g_bytesLiteral := 0;
               g_literal := []; g_rh := rh; g_reader := stream_of []; g_hasher := hasher_New;
               g_total := 0; g_eof := false |}
    ∧ represents rh (take (Z.to_nat MaxBlockSize) new) ∧ rh_size rh = MaxBlockSize.
Proof.
  intros Hbs Hlen. unfold gen_start. rewrite NewRollingHash_clamped by done.
  destruct (NewRollingHash_represents pooled MaxBlockSize) as [Hrep Hsz]; [unfold MaxBlockSize; lia|].
  destruct (fill_clamped (Z.to_nat (BlockSize sig)) 0 _ (stream_of new) [] Hrep) as (rh & -> & H1 & H2).
  exists rh. rewrite Hsz in *. cbn [st_buf st_fin stream_of app mbind outcome_bind] in *.
  rewrite (take_ge new) in * by lia. rewrite drop_ge by lia. rewrite decide_True by lia. done.
Qed.

(** Without candidate blocks, a full window at the end of the input becomes
    one literal. *)
Lemma lone_window_literal `{HashFn} fuel sig rh x k :
  (∀ w, FindByWeakHash sig w = []) → represents rh (x :: k) →
  Z.of_nat (length (x :: k)) = rh_size rh →
  ∃ s, gen_loop (S fuel) sig
      {| g_ops := []; g_blocksCopied := 0; g_bytesCopied := 0; g_bytesLiteral := 0;
         g_literal := []; g_rh := rh; g_reader := stream_of []; g_hasher := hasher_New;
         g_total := 0; g_eof := false |} = Ret s
    ∧ g_ops s = [] ∧ g_literal s = x :: k ∧ hs_written (g_hasher s) = x :: k
    ∧ g_total s = Z.of_nat (length (x :: k)).
Proof.
  intros Hnone Hrep Hlen.
  assert (Hfull : IsFull rh = true) by (rewrite (IsFull_spec _ _ Hrep); apply bool_decide_eq_true; lia).
  destruct (oldest_byte (E:=delta_error) rh x k Hrep Hlen) as (p & Hp & Hx).
  cbn [gen_loop g_eof]. unfold gen_step, gen_roll. cbn [g_rh g_reader].
  rewrite Hfull, Hnone, bool_decide_eq_true_2 by done.
  rewrite Hp. cbn [mbind outcome_bind]. rewrite Hx.
  cbn [or_panic mbind outcome_bind g_reader emit_literal ReadByte stream_of st_buf st_fin g_rh].
  rewrite Hfull, (window_full _ _ Hrep) by lia. cbn [mbind outcome_bind].
  rewrite slicez_ok by (simpl length; lia).
  assert (slice (Z.to_nat 1) (Z.to_nat (Z.of_nat (length (x :: k)))) (x :: k) = k) as ->.
  { unfold slice. rewrite Nat2Z.id. simpl. by rewrite drop_0, take_ge by lia. }
  cbn [or_panic mbind outcome_bind].
  eexists. split; [by destruct fuel|]. simpl. repeat split. lia.
Qed.

(** The rolling hash silently caps its window at 64K while the fill loop
    reads a whole signature block. With a signature of a larger block size,
    generating a delta for a file of exactly one block loses everything after
    the first 64K, and since the announced size and hash are computed from what
    was kept, the receiver accepts the truncated file without an error. *)
Theorem oversized_block_truncates `{HashFn} (pooled new : bytes) (bs : Z) (blk : Z → option bytes) :
  MaxBlockSize < bs → Z.of_nat (length new) = bs →
  ∃ sig d, GenerateSignature (stream_of []) bs = Ret sig
    ∧ GenerateDelta pooled (stream_of new) sig = Ret d
    ∧ ApplyDelta blk (λ _, false) d = (take (Z.to_nat MaxBlockSize) new, Ret tt)
    ∧ take (Z.to_nat MaxBlockSize) new ≠ new.
Proof.
  intros Hbs Hlen. pose proof (eq_refl : MaxBlockSize = 65536) as HM.
  destruct (GenerateSignature_ok [] bs) as (sig & HG & EB & EF & EBl & Hwf); [lia|].
  destruct (gen_start_oversized pooled sig new) as (rh & Hst & Hrep & Hsz); [lia..|].
  set (win := take (Z.to_nat MaxBlockSize) new) in *.
  assert (Hwl : Z.of_nat (length win) = MaxBlockSize) by (subst win; rewrite length_take; lia).
  destruct win as [|x k] eqn:Ewin; [simpl in *; lia|].
  destruct (lone_window_literal (length new) sig rh x k) as (s & Hl & E1 & E2 & E3 & E4);
    [|done|lia|].
  { intros w. unfold FindByWeakHash. by rewrite Hwf, EBl. }
  exists sig, (gen_finish s). split; [done|]. split; [|split].
  - unfold GenerateDelta. rewrite Hst. cbn [mbind outcome_bind stream_of st_buf]. by rewrite Hl.
  - unfold gen_finish, flush_literal. rewrite bool_decide_eq_false_2 by (rewrite E2; done).
    apply ApplyDelta_complete; simpl; [by rewrite E1, E2, expand_snoc|unfold hasher_Sum; by rewrite E3|done].
  - rewrite <- Ewin. intros E%(f_equal length). subst win. rewrite length_take in E. lia.
Qed.

Lemma oversized_block_truncates_witness :
  ∃ sig d, @GenerateSignature sha256_fips (stream_of []) 65537 = Ret sig
    ∧ @GenerateDelta sha256_fips [] (stream_of (replicate (Z.to_nat 65537) x61)) sig = Ret d
    ∧ @ApplyDelta sha256_fips (λ _, None) (λ _, false) d
      = (take (Z.to_nat MaxBlockSize) (replicate (Z.to_nat 65537) x61), Ret tt)
    ∧ take (Z.to_nat MaxBlockSize) (replicate (Z.to_nat 65537) x61) ≠ replicate (Z.to_nat 65537) x61.
Proof.
  apply (@oversized_block_truncates sha256_fips [] (replicate (Z.to_nat 65537) x61) 65537).
  - by vm_compute.
  - rewrite length_replicate. apply Z2Nat.id. discriminate.
Defined.
