(* ===== verification/BufferPool.v ===== *)
(** * The buffer pool of the delta generator ([internal/delta/delta.go])

    A pool is a buffered channel of byte slices; a slice is known by the array
    it points to and its length. [nextID] numbers the arrays that [make]
    allocates. *)
From S2P Require Import Prelude Rolling.

Open Scope Z_scope.

Record buffer := mkBuffer { b_array : nat; b_len : Z }.

Record bufferPool := mkBufferPool { bp_pool : list buffer; bp_count : nat; bp_size : Z }.

(** The loop that fills the channel. *)
Fixpoint fill_pool (size : Z) (n : nat) (nextID : nat) : list buffer :=
  match n with O => [] | S n' => mkBuffer nextID size :: fill_pool size n' (S nextID) end.

(** [make] panics on a negative length. *)
Definition newBufferPool (size : Z) (count : nat) (nextID : nat) : outcome unit (bufferPool * nat) :=
  if (size <? 0) && negb (Nat.eqb count 0) then Panic
  else Ret (mkBufferPool (fill_pool size count nextID) count size, (nextID + count)%nat).

Definition pool_get (bp : bufferPool) (nextID : nat) : buffer * bufferPool * nat :=
  match bp_pool bp with
  | b :: rest => (b, mkBufferPool rest (bp_count bp) (bp_size bp), nextID)
  | [] => (mkBuffer nextID (bp_size bp), bp, S nextID)
  end.

(** A full pool drops the buffer. *)
Definition pool_put (bp : bufferPool) (b : buffer) : bufferPool :=
  if (length (bp_pool bp) <? bp_count bp)%nat
  then mkBufferPool (bp_pool bp ++ [b]) (bp_count bp) (bp_size bp) else bp.

Record DeltaGenerator := mkDeltaGenerator { dg_blockSize : Z; dg_bufPool : bufferPool }.

Definition NewDeltaGenerator (blockSize : Z) (nextID : nat) : outcome unit (DeltaGenerator * nat) :=
  let blockSize := if blockSize <=? 0 then DefaultBlockSize else blockSize in
  '(bp, nextID') ← newBufferPool blockSize 4 nextID;
  Ret (mkDeltaGenerator blockSize bp, nextID').

(** ** Clients that give back what they hold *)
Inductive pool_call := CallGet | CallPut (i : nat).   (* the [i]th buffer that is held *)

Record pool_state := mkPoolState { ps_pool : bufferPool; ps_held : list buffer; ps_next : nat }.

Definition pool_call_step (s : pool_state) (c : pool_call) : option pool_state :=
  match c with
  | CallGet =>
      let '(b, bp, next) := pool_get (ps_pool s) (ps_next s) in
      Some (mkPoolState bp (b :: ps_held s) next)
  | CallPut i =>
      b ← ps_held s !! i;
      Some (mkPoolState (pool_put (ps_pool s) b) (delete i (ps_held s)) (ps_next s))
  end.

Fixpoint pool_calls (s : pool_state) (l : list pool_call) : option pool_state :=
  match l with
  | [] => Some s
  | c :: l' => s' ← pool_call_step s c; pool_calls s' l'
  end.

Record pool_ok (s : pool_state) : Prop := {
  po_size : Forall (λ b, b_len b = bp_size (ps_pool s) ∧ (b_array b < ps_next s)%nat) (bp_pool (ps_pool s) ++ ps_held s);
  po_distinct : NoDup (b_array <$> bp_pool (ps_pool s) ++ ps_held s);
  po_count : (length (bp_pool (ps_pool s)) ≤ bp_count (ps_pool s))%nat;
}.

Lemma pool_ok_sub s pool held :
  pool_ok s → pool ++ held ⊆+ bp_pool (ps_pool s) ++ ps_held s → (length pool ≤ bp_count (ps_pool s))%nat →
  pool_ok (mkPoolState (mkBufferPool pool (bp_count (ps_pool s)) (bp_size (ps_pool s))) held (ps_next s)).
Proof.
  intros [H1 H2 H3] [k Hk]%submseteq_Permutation Hl. rewrite Hk in H1, H2.
  rewrite fmap_app in H2. apply NoDup_app in H2 as [H2 _]. apply Forall_app in H1 as [H1 _]. by constructor.
Qed.

Lemma pool_call_ok s c s' : pool_ok s → pool_call_step s c = Some s' → pool_ok s'.
Proof.
  destruct s as [[pool n size] held next]. intros Hok. pose proof Hok as [H1 H2 H3]. cbn in *.
  destruct c as [|i]; cbn [pool_call_step ps_pool ps_held ps_next].
  - destruct pool as [|b pool]; cbn; intros [= <-].
    + constructor; cbn in *; [|constructor; [|done]|lia].
      * constructor; [cbn; lia|]. eapply Forall_impl; [exact H1|]. cbn. intros b [? ?]. lia.
      * intros Hin. apply list_elem_of_fmap in Hin as (b & -> & Hb). rewrite Forall_forall in H1. specialize (H1 b Hb). lia.
    + apply (pool_ok_sub _ pool (b :: held)) in Hok; [exact Hok| |cbn in *; lia]. cbn.
      by rewrite <- Permutation_middle.
  - destruct (held !! i) as [b|] eqn:Eb; [|done]. cbn [mbind option_bind]. intros [= <-].
    unfold pool_put. cbn [bp_pool bp_count bp_size].
    assert (b :: delete i held ≡ₚ held) as Hp by (symmetry; by apply delete_Permutation).
    destruct (Nat.ltb_spec (length pool) n).
    + apply (pool_ok_sub _ (pool ++ [b]) (delete i held)) in Hok; [exact Hok| |rewrite length_app; cbn; lia]. cbn.
      by rewrite <- app_assoc, Hp.
    + apply (pool_ok_sub _ pool (delete i held)) in Hok; [exact Hok| |done]. cbn.
      apply submseteq_app; [done|]. rewrite <- Hp at 2. by apply submseteq_cons.
Qed.

Lemma fill_pool_spec size n next :
  length (fill_pool size n next) = n ∧ (b_array <$> fill_pool size n next) = seq next n ∧
  Forall (λ b, b_len b = size) (fill_pool size n next).
Proof.
  revert next. induction n as [|n IH]; intros next; cbn; [done|]. destruct (IH (S next)) as (-> & E & Hf).
  split_and!; [done|by rewrite E|by constructor].
Qed.

(** The pool of [size] buffers of [count] with its clients. *)
Definition pool_inv (size : Z) (count : nat) (s : pool_state) : Prop :=
  pool_ok s ∧ bp_size (ps_pool s) = size ∧ bp_count (ps_pool s) = count.

Lemma newBufferPool_ok size count next bp next' :
  newBufferPool size count next = Ret (bp, next') → pool_inv size count (mkPoolState bp [] next').
Proof.
  unfold newBufferPool. destruct (_ && _); [done|]. intros [= <- <-].
  destruct (fill_pool_spec size count next) as (Hl & Ha & Hf). split; [|done].
  constructor; cbn; rewrite ?app_nil_r; [|rewrite Ha; apply NoDup_seq|lia].
  rewrite Forall_forall in *. intros b Hb. split; [by apply Hf|].
  apply (list_elem_of_fmap_2 b_array) in Hb. rewrite Ha in Hb. apply elem_of_seq in Hb. lia.
Qed.

Lemma pool_calls_inv size count l s0 s :
  pool_inv size count s0 → pool_calls s0 l = Some s → pool_inv size count s.
Proof.
  revert s0. induction l as [|c l IH]; intros s0 (Hok & Hz & Hc) Hs; cbn in Hs; [by simplify_eq|].
  apply bind_Some in Hs as (s1 & Hs1 & Hs). apply (IH s1); [|done].
  split; [by eapply pool_call_ok|]. destruct s0 as [[pool n sz] held nx], c as [|i]; cbn in *.
  - destruct pool; cbn in Hs1; by simplify_eq.
  - destruct (held !! i); cbn in Hs1; simplify_eq. unfold pool_put. by case_match.
Qed.

(** A delta generator's pool never hands out a buffer that is still in use:
    for clients that put back only what they hold, the arrays of all buffers in
    the pool and in use are different; every buffer has the block size; and the
    pool never keeps more than four. *)
Theorem pool_exclusive blockSize next dg next' calls s :
  NewDeltaGenerator blockSize next = Ret (dg, next') →
  pool_calls (mkPoolState (dg_bufPool dg) [] next') calls = Some s →
  0 < dg_blockSize dg ∧
  NoDup (b_array <$> bp_pool (ps_pool s) ++ ps_held s) ∧
  Forall (λ b, b_len b = dg_blockSize dg) (ps_held s) ∧ (length (bp_pool (ps_pool s)) ≤ 4)%nat.
Proof.
  intros E Hr. unfold NewDeltaGenerator in E.
  set (bs := if blockSize <=? 0 then DefaultBlockSize else blockSize) in *.
  assert (0 < bs) as Hbs by (unfold bs, DefaultBlockSize; destruct (Z.leb_spec blockSize 0); lia).
  destruct (newBufferPool bs 4 next) as [[bp nx]| |] eqn:Ep; try done. rewrite Ret_bind in E. injection E as <- <-.
  apply newBufferPool_ok in Ep. apply (pool_calls_inv _ _ _ _ _ Ep) in Hr as ([H1 H2 H3] & Hz & Hc). cbn.
  split_and!; [done..| |lia]. apply Forall_app in H1 as [_ H1]. eapply Forall_impl; [exact H1|]. intros b [Hb _]. by rewrite Hb.
Qed.

Module BufferPoolExample.
Definition gen : DeltaGenerator * nat :=
  match NewDeltaGenerator 0 7 with Ret p => p | _ => (mkDeltaGenerator 0 (mkBufferPool [] 0 0), 0%nat) end.
Definition start : pool_state := mkPoolState (dg_bufPool gen.1) [] gen.2.
Definition calls : list pool_call := replicate 5 CallGet ++ replicate 5 (CallPut 0).
Definition fin : pool_state := default start (pool_calls start calls).

Lemma pool_exclusive_witness : b_array <$> bp_pool (ps_pool fin) = [11; 10; 9; 8]%nat ∧ (length (bp_pool (ps_pool fin)) ≤ 4)%nat.
Proof.
  assert (NewDeltaGenerator 0 7 = Ret (gen.1, gen.2)) as H1 by (vm_compute; reflexivity).
  assert (pool_calls start calls = Some fin) as H2 by (vm_compute; reflexivity).
  split; [vm_compute; reflexivity|]. apply (pool_exclusive 0 7 gen.1 gen.2 calls fin H1 H2).
Defined.
End BufferPoolExample.
