(* ===== verification/Fs.v ===== *)
(** * The file system as the program sees it through Go's [os] package

    A file system is a finite map from absolute paths (lists of components) to
    files and directories. The operations are those the program calls:
    [os.Stat], [os.MkdirAll], [os.OpenFile] with truncation, [os.Rename],
    [os.Remove] and reading a whole file. Symbolic links, permissions checks
    and hard links are not represented; I/O faults are injected by the callers
    of these operations. *)
From Stdlib Require Import Strings.Byte.
From S2P Require Import Prelude.

Abbreviation path := (list bytes).

(** ** Lexical paths

    [filepath.Join] and [filepath.Clean] on slash-separated names: empty and
    [.] components vanish, [..] removes the component before it. Every path is
    resolved against a working directory, so it is absolute and its [..] never
    escapes the root. *)
Definition slash : byte := x2f.
Definition dot : bytes := [x2e].
Definition dotdot : bytes := [x2e; x2e].

Fixpoint split_slash (s cur : bytes) : list bytes :=
  match s with
  | [] => [cur]
  | b :: s' => if decide (b = slash) then cur :: split_slash s' [] else split_slash s' (cur ++ [b])
  end.

Definition clean_step (acc : path) (c : bytes) : path :=
  if decide (c = [] ∨ c = dot) then acc
  else if decide (c = dotdot) then removelast acc
  else acc ++ [c].

(** [filepath.Join(base, elems...)] for a clean absolute [base]. *)
Definition Join (base : path) (elems : list bytes) : path :=
  foldl clean_step base (concat ((λ e, split_slash e []) <$> elems)).

(** The absolute path a name denotes in the working directory [cwd]. *)
Definition resolve (cwd : path) (name : bytes) : path :=
  match name with
  | b :: _ => if decide (b = slash) then Join [] [name] else Join cwd [name]
  | [] => cwd
  end.

Fixpoint join_slash (p : path) : bytes :=
  match p with
  | [] => []
  | [c] => c
  | c :: p' => c ++ [slash] ++ join_slash p'
  end.

(** [filepath.Clean] and the two-element [filepath.Join] on path strings. A
    relative path keeps the [..] it starts with. *)
Definition clean_rel (acc : path) (c : bytes) : path :=
  if decide (c = [] ∨ c = dot) then acc
  else if decide (c = dotdot ∧ acc ≠ [] ∧ last acc ≠ Some dotdot) then removelast acc
  else acc ++ [c].

Definition Clean (s : bytes) : bytes :=
  match s with
  | [] => dot
  | b :: _ =>
      if decide (b = slash) then slash :: join_slash (Join [] [s])
      else match foldl clean_rel [] (split_slash s []) with
           | [] => dot
           | p => join_slash p
           end
  end.

Definition Join2 (a b : bytes) : bytes :=
  match a, b with
  | [], [] => []
  | [], s | s, [] => Clean s
  | _, _ => Clean (a ++ [slash] ++ b)
  end.

Definition plain_name (s : bytes) : Prop := (slash ∉ s) ∧ s ≠ [] ∧ s ≠ dot ∧ s ≠ dotdot.

#[global] Instance plain_name_dec s : Decision (plain_name s).
Proof. unfold plain_name. apply _. Defined.

Inductive fnode :=
| FFile (content : bytes) (mode : Z)
| FDir (mode : Z).

Abbreviation fs := (gmap path fnode).

Inductive fs_error :=
| ENOENT
| ENOTDIR
| EISDIR
| ENOTEMPTY
| EIO.   (* an injected fault *)

#[global] Instance fs_error_eq_dec : EqDecision fs_error.
Proof. solve_decision. Defined.

(** [os.IsNotExist]. *)
Definition IsNotExist (e : fs_error) : bool := bool_decide (e = ENOENT).

Definition is_dir (n : fnode) : bool := match n with FDir _ => true | FFile _ _ => false end.

(** Some proper prefix of the path is a file. *)
Fixpoint through_file (f : fs) (done p : path) : bool :=
  match p with
  | [] => false
  | c :: p' =>
      match f !! done with
      | Some (FFile _ _) => true
      | _ => through_file f (done ++ [c]) p'
      end
  end.

Definition Stat (f : fs) (p : path) : outcome fs_error fnode :=
  if through_file f [] p then Err ENOTDIR
  else match f !! p with Some n => Ret n | None => Err ENOENT end.

(** [os.MkdirAll(p, perm)]: every missing directory on the way is created. *)
Fixpoint mkdir_all (f : fs) (done p : path) (perm : Z) : outcome fs_error fs :=
  match f !! done with
  | Some (FFile _ _) => Err ENOTDIR
  | d =>
      let f' := match d with Some _ => f | None => <[done := FDir perm]> f end in
      match p with
      | [] => Ret f'
      | c :: p' => mkdir_all f' (done ++ [c]) p' perm
      end
  end.

Definition MkdirAll (f : fs) (p : path) (perm : Z) : outcome fs_error fs := mkdir_all f [] p perm.

(** [filepath.Dir] on a clean absolute path. *)
Definition Dir (p : path) : path := removelast p.

(** [os.OpenFile(p, O_WRONLY|O_CREATE|O_TRUNC, perm)]: an empty file at [p]. *)
Definition OpenTrunc (f : fs) (p : path) (perm : Z) : outcome fs_error fs :=
  match Stat f (Dir p) with
  | Ret (FDir _) =>
      match f !! p with
      | Some (FDir _) => Err EISDIR
      | Some (FFile _ m) => Ret (<[p := FFile [] m]> f)
      | None => Ret (<[p := FFile [] perm]> f)
      end
  | Ret (FFile _ _) => Err ENOTDIR
  | Err e => Err e
  | Panic => Panic
  end.

(** Appending to an open file. *)
Definition WriteAt (f : fs) (p : path) (data : bytes) : fs :=
  match f !! p with
  | Some (FFile c m) => <[p := FFile (c ++ data) m]> f
  | _ => f
  end.

Definition ReadFile (f : fs) (p : path) : outcome fs_error bytes :=
  match Stat f p with
  | Ret (FFile c _) => Ret c
  | Ret (FDir _) => Err EISDIR
  | Err e => Err e
  | Panic => Panic
  end.

(** Is some entry strictly below the directory [p]? *)
Definition has_children (f : fs) (p : path) : bool :=
  existsb (λ kv, bool_decide (p `prefix_of` kv.1 ∧ p ≠ kv.1)) (map_to_list f).

Definition Remove (f : fs) (p : path) : outcome fs_error fs :=
  match Stat f p with
  | Ret (FFile _ _) => Ret (delete p f)
  | Ret (FDir _) => if has_children f p then Err ENOTEMPTY else Ret (delete p f)
  | Err e => Err e
  | Panic => Panic
  end.

(** [os.Rename] of a file. *)
Definition Rename (f : fs) (old new : path) : outcome fs_error fs :=
  match Stat f old with
  | Ret (FFile c m) =>
      match f !! new with
      | Some (FDir _) => Err EISDIR
      | _ => Ret (<[new := FFile c m]> (delete old f))
      end
  | Ret (FDir _) => Err EISDIR
  | Err e => Err e
  | Panic => Panic
  end.

(** ** Joining plain names *)
Lemma split_slash_plain s cur : slash ∉ s → split_slash s cur = [cur ++ s].
Proof.
  revert cur. induction s as [|b s IH]; intros cur H; simpl; [by rewrite app_nil_r|].
  apply not_elem_of_cons in H as [Hb H]. rewrite decide_False by congruence.
  rewrite IH by done. by rewrite <- app_assoc.
Qed.

Lemma clean_step_plain acc s : plain_name s → clean_step acc s = acc ++ [s].
Proof. intros (H1 & H2 & H3 & H4). unfold clean_step.
  rewrite decide_False by (intros [?|?]; done). by rewrite decide_False. Qed.

Lemma Join_plain base elems : Forall plain_name elems → Join base elems = base ++ elems.
Proof.
  unfold Join. intros H. revert base. induction H as [|e elems He Hes IH]; intros base; simpl.
  - by rewrite app_nil_r.
  - rewrite split_slash_plain by apply He. simpl. rewrite clean_step_plain by done.
    rewrite IH. by rewrite <- app_assoc.
Qed.

Lemma split_slash_join s rest cur :
  slash ∉ s → split_slash (s ++ slash :: rest) cur = (cur ++ s) :: split_slash rest [].
Proof.
  revert cur. induction s as [|b s IH]; intros cur H; simpl.
  - by rewrite app_nil_r.
  - apply not_elem_of_cons in H as [Hb H]. rewrite decide_False by congruence.
    rewrite IH by done. by rewrite <- app_assoc.
Qed.

Lemma split_join_slash p :
  p ≠ [] → Forall plain_name p → split_slash (join_slash p) [] = p.
Proof.
  induction p as [|c p IH]; intros Hne Hp; [done|]. apply Forall_cons in Hp as [Hc Hp].
  destruct p as [|d p]; [apply split_slash_plain, Hc|].
  change (join_slash (c :: d :: p)) with (c ++ slash :: join_slash (d :: p)).
  rewrite split_slash_join by apply Hc. by rewrite IH.
Qed.

Lemma clean_rel_plain acc s : plain_name s → clean_rel acc s = acc ++ [s].
Proof.
  intros (H1 & H2 & H3 & H4). unfold clean_rel.
  rewrite decide_False by (intros [?|?]; done). by rewrite decide_False by (intros [? _]; done).
Qed.

Lemma foldl_clean_rel acc p : Forall plain_name p → foldl clean_rel acc p = acc ++ p.
Proof.
  intros Hp. revert acc. induction Hp as [|c p Hc Hp IH]; intros acc; simpl; [by rewrite app_nil_r|].
  rewrite clean_rel_plain, IH by done. by rewrite <- app_assoc.
Qed.

Lemma plain_not_slash b s : plain_name (b :: s) → b ≠ slash.
Proof. intros [H _] ->. apply H. left. Qed.

Lemma join_slash_snoc p c : p ≠ [] → join_slash (p ++ [c]) = join_slash p ++ slash :: c.
Proof.
  induction p as [|d p IH]; intros Hne; [done|]. destruct p as [|e p]; [done|].
  change (join_slash ((d :: e :: p) ++ [c])) with (d ++ slash :: join_slash ((e :: p) ++ [c])).
  rewrite IH by done. change (join_slash (d :: e :: p)) with (d ++ slash :: join_slash (e :: p)).
  by rewrite <- app_assoc.
Qed.

Lemma join_slash_head c p : plain_name c → ∃ b s, join_slash (c :: p) = b :: s ∧ b ≠ slash.
Proof.
  intros Hc. destruct c as [|b c]; [by destruct Hc as (_ & ? & _)|].
  exists b. destruct p; simpl; eexists; (split; [done|by eapply plain_not_slash]).
Qed.

(** On plain names [filepath.Join] of a relative path and a name only adds a
    separator, and joining the result to a directory appends the names. *)
Lemma Join2_plain p c :
  p ≠ [] → Forall plain_name p → plain_name c → Join2 (join_slash p) c = join_slash (p ++ [c]).
Proof.
  intros Hne Hp Hc. assert (Forall plain_name (p ++ [c])) as Hpc by (apply Forall_app; auto).
  destruct p as [|d p]; [done|].
  destruct (join_slash_head d p) as (b & s & E & Hb); [by apply Forall_cons in Hp as [? _]|].
  destruct c as [|x c]; [by destruct Hc as (_ & ? & _)|].
  unfold Join2. rewrite E. change ((b :: s) ++ [slash] ++ x :: c) with (b :: s ++ slash :: x :: c).
  unfold Clean. rewrite decide_False by done.
  change (b :: s ++ slash :: x :: c) with ((b :: s) ++ slash :: x :: c).
  rewrite <- E, <- join_slash_snoc, split_join_slash by (done || by destruct p).
  rewrite foldl_clean_rel by done. simpl app. by destruct (p ++ [x :: c]).
Qed.

Lemma Join_rel base p :
  p ≠ [] → Forall plain_name p → Join base [join_slash p] = base ++ p.
Proof.
  intros Hne Hp. rewrite <- (Join_plain base p) by done. unfold Join. f_equal.
  cbn [fmap list_fmap concat]. rewrite app_nil_r, split_join_slash by done.
  clear Hne. induction Hp as [|c p Hc Hp IH]; [done|]. cbn [fmap list_fmap concat].
  by rewrite <- IH, split_slash_plain by apply Hc.
Qed.

(** ** Paths whose ancestors are all directories *)
Definition dirs_above (f : fs) (p : path) : Prop :=
  ∀ q, q `prefix_of` p → q ≠ p → ∃ m, f !! q = Some (FDir m).

Lemma through_file_false f done p :
  (∀ q, q `prefix_of` p → q ≠ p → ∀ c m, f !! (done ++ q) ≠ Some (FFile c m)) →
  through_file f done p = false.
Proof.
  revert done. induction p as [|c p IH]; intros dn Hq; [done|]. cbn [through_file].
  pose proof (Hq [] (prefix_nil _) ltac:(done)) as H0. rewrite app_nil_r in H0.
  destruct (f !! dn) as [[c' m|m]|] eqn:E; [by destruct (H0 c' m)|..];
    apply IH; intros q Hp Hne c0 m0; rewrite <- app_assoc; apply Hq;
    (by apply prefix_cons) || (intros [=]; done).
Qed.

Lemma dirs_above_through f p : dirs_above f p → through_file f [] p = false.
Proof.
  intros H. apply through_file_false. intros q Hq Hne c m E.
  destruct (H q Hq Hne) as [m' E']. simpl in E. congruence.
Qed.

Lemma Stat_dirs f p n : dirs_above f p → f !! p = Some n → Stat f p = Ret n.
Proof. intros H E. unfold Stat. by rewrite (dirs_above_through _ _ H), E. Qed.

Lemma Stat_absent f p : dirs_above f p → f !! p = None → Stat f p = Err ENOENT.
Proof. intros H E. unfold Stat. by rewrite (dirs_above_through _ _ H), E. Qed.

Lemma Stat_Ret_inv f p n : Stat f p = Ret n → f !! p = Some n.
Proof. unfold Stat. destruct (through_file f [] p); [done|]. by destruct (f !! p); intros [= ->]. Qed.

(** Adding an entry, or turning an absent path into a directory, keeps
    ancestors directories. *)
Lemma dirs_above_insert f p q n :
  dirs_above f p → (q `prefix_of` p → q = p ∨ is_dir n = true) →
  dirs_above (<[q := n]> f) p.
Proof.
  intros H Hn r Hr Hne. rewrite lookup_insert. case_decide as E; [|by apply H]. subst r.
  destruct (Hn Hr) as [->|Hd]; [done|]. destruct n; [done|eauto].
Qed.

Lemma dirs_above_delete f p q :
  dirs_above f p → (q `prefix_of` p → q = p) → dirs_above (delete q f) p.
Proof.
  intros H Hn r Hr Hne. rewrite lookup_delete. case_decide as E; [|by apply H]. subst r.
  by rewrite (Hn Hr) in Hne.
Qed.

(** One missing level: the case the blob store needs. *)
Lemma mkdir_all_existing f done p perm :
  (∀ q, q `prefix_of` p → ∃ m, f !! (done ++ q) = Some (FDir m)) →
  mkdir_all f done p perm = Ret f.
Proof.
  revert done. induction p as [|c p IH]; intros dn H; simpl;
    destruct (H [] (prefix_nil _)) as [m Hm]; rewrite app_nil_r in Hm; rewrite Hm; [done|].
  apply IH. intros q Hq. rewrite <- app_assoc. apply H. by apply prefix_cons.
Qed.

Lemma mkdir_all_last f done p c perm :
  (∀ q, q `prefix_of` p → ∃ m, f !! (done ++ q) = Some (FDir m)) →
  (∀ x m, f !! (done ++ p ++ [c]) ≠ Some (FFile x m)) →
  mkdir_all f done (p ++ [c]) perm
  = Ret (match f !! (done ++ p ++ [c]) with Some _ => f | None => <[done ++ p ++ [c] := FDir perm]> f end).
Proof.
  revert done. induction p as [|d p IH]; intros dn H Hc; simpl;
    destruct (H [] (prefix_nil _)) as [m Hm]; rewrite app_nil_r in Hm; rewrite Hm; simpl in *.
  - destruct (f !! (dn ++ [c])) as [[x m'|m']|] eqn:E; [by destruct (Hc x m')|..]; done.
  - rewrite IH.
    + by rewrite <- !app_assoc.
    + intros q Hq. rewrite <- app_assoc. apply H. by apply prefix_cons.
    + intros x m'. rewrite <- app_assoc. apply Hc.
Qed.

(** After [MkdirAll] every directory on the way exists and nothing else
    changed. *)
Lemma mkdir_all_post f done p perm f' :
  mkdir_all f done p perm = Ret f' →
  (∀ q, q `prefix_of` p → ∃ m, f' !! (done ++ q) = Some (FDir m)) ∧
  (∀ r, (∀ q, q `prefix_of` p → r ≠ done ++ q) → f' !! r = f !! r) ∧
  (∀ r n, f !! r = Some n → f' !! r = Some n).
Proof.
  revert f done. induction p as [|c p IH]; intros f dn Hm; cbn [mkdir_all] in Hm;
    destruct (f !! dn) as [[x m|m]|] eqn:E; try done.
  - injection Hm as <-. split_and!; [|done..]. intros q ->%prefix_nil_inv. rewrite app_nil_r. eauto.
  - injection Hm as <-. split_and!.
    + intros q ->%prefix_nil_inv. rewrite app_nil_r, lookup_insert_eq. eauto.
    + intros r Hr. rewrite lookup_insert_ne; [done|]. specialize (Hr [] (prefix_nil _)).
      rewrite app_nil_r in Hr. congruence.
    + intros r n Hr. rewrite lookup_insert_ne; [done|congruence].
  - apply IH in Hm as (H1 & H2 & H3). split_and!; [|intros r Hr; apply H2|done].
    + intros [|d q] Hq; [rewrite app_nil_r; eauto|]. apply prefix_cons_inv_1 in Hq as Hd.
      apply prefix_cons_inv_2 in Hq. subst d. destruct (H1 q Hq) as [m' Hm']. exists m'.
      by rewrite <- app_assoc in Hm'.
    + intros q Hq. rewrite <- app_assoc. apply Hr. by apply prefix_cons.
  - apply IH in Hm as (H1 & H2 & H3). split_and!.
    + intros [|d q] Hq.
      { rewrite app_nil_r. exists perm. apply H3, lookup_insert_eq. }
      apply prefix_cons_inv_1 in Hq as Hd. apply prefix_cons_inv_2 in Hq. subst d.
      destruct (H1 q Hq) as [m' Hm']. exists m'. by rewrite <- app_assoc in Hm'.
    + intros r Hr. rewrite H2.
      * rewrite lookup_insert_ne; [done|]. specialize (Hr [] (prefix_nil _)).
        rewrite app_nil_r in Hr. congruence.
      * intros q Hq. rewrite <- app_assoc. apply Hr. by apply prefix_cons.
    + intros r n Hr. apply H3. rewrite lookup_insert_ne; [done|congruence].
Qed.
