(* ===== verification/Chunk.v ===== *)
(** * Fixed-size chunking ([internal/cas/chunk.go])

    A [Chunker] is its reader; [Next] cuts the next block of at most
    [ChunkSize] bytes off the stream and hashes it. The pooled buffer holds the
    block only between the read and the copy, so it is the list of bytes read.
    [ChunkStream] is the sequence of channel operations it performs. *)
From Stdlib Require Import Strings.Byte.
From S2P Require Import Prelude Sha256.

Definition ChunkSize : nat := 4 * 1024.

Record Chunk := mkChunk { ch_Hash : bytes; ch_Size : Z; ch_Data : bytes }.

Definition HashHex (c : Chunk) : bytes := hex_encode (ch_Hash c).

#[global] Instance Chunk_eq_dec : EqDecision Chunk.
Proof. solve_decision. Defined.

Inductive next_error :=
| NextEOF                       (* io.EOF *)
| NextFailed (e : read_error).

Section chunker.
Context `{HashFn}.

Definition make_chunk (data : bytes) : Chunk :=
  mkChunk (sha256 data) (u32 (Z.of_nat (length data))) data.

Definition Next (r : stream) : outcome next_error Chunk * stream :=
  let '(buf, err, r') := ReadFull ChunkSize r in
  match err with
  | ReadEOF => (Err NextEOF, r')
  | ReadFailed e => (Err (NextFailed e), r')
  | ReadUnexpectedEOF | ReadOk =>
      if decide (length buf = 0) then (Err NextEOF, r') else (Ret (make_chunk buf), r')
  end.

(** The loop of [ChunkAll]; running out of fuel is [Panic]. *)
Fixpoint chunk_loop (fuel : nat) (r : stream) (chunks : list Chunk) : outcome read_error (list Chunk) :=
  match fuel with
  | O => Panic
  | S fuel' =>
      match Next r with
      | (Err NextEOF, _) => Ret chunks
      | (Err (NextFailed e), _) => Err e
      | (Ret c, r') => chunk_loop fuel' r' (chunks ++ [c])
      | (Panic, _) => Panic
      end
  end.

Definition ChunkAll (r : stream) : outcome read_error (list Chunk) :=
  chunk_loop (S (length (st_buf r))) r [].

(** The channel operations of [ChunkStream], in program order; the deferred
    closes run last registered first. *)
Inductive chan_op :=
| SendChunk (c : Chunk)
| SendErr (e : read_error)
| CloseErrs
| CloseChunks.

Fixpoint stream_loop (fuel : nat) (r : stream) : list chan_op :=
  match fuel with
  | O => []
  | S fuel' =>
      match Next r with
      | (Err NextEOF, _) => [CloseErrs; CloseChunks]
      | (Err (NextFailed e), _) => [SendErr e; CloseErrs; CloseChunks]
      | (Ret c, r') => SendChunk c :: stream_loop fuel' r'
      | (Panic, _) => [CloseErrs; CloseChunks]
      end
  end.

Definition ChunkStream (r : stream) : list chan_op := stream_loop (S (length (st_buf r))) r.

(** ** The chunker against the reference splitting *)
Lemma ChunkSize_pos : 0 < ChunkSize.
Proof. unfold ChunkSize. lia. Qed.

Lemma Next_step l fin :
  l ≠ [] → (fin = None ∨ ChunkSize ≤ length l) →
  Next (Stream l fin) = (Ret (make_chunk (take ChunkSize l)), Stream (drop ChunkSize l) fin).
Proof.
  intros Hl Hf. pose proof ChunkSize_pos. assert (length l ≠ 0) by by destruct l.
  unfold Next, ReadFull. cbn [st_buf st_fin]. rewrite length_take.
  case_decide; [|destruct Hf as [->|?]; [|lia]; rewrite decide_False by lia];
    cbn beta iota; rewrite length_take, decide_False by lia; done.
Qed.

Lemma Next_end : Next (Stream [] None) = (Err NextEOF, Stream [] None).
Proof. done. Qed.

Lemma Next_fail l e :
  length l < ChunkSize → ∃ r, Next (Stream l (Some e)) = (Err (NextFailed e), r).
Proof.
  intros Hl. unfold Next, ReadFull. cbn [st_buf st_fin].
  rewrite length_take, decide_False by lia. by eexists.
Qed.

Lemma chunk_loop_ok fuel l acc :
  length l < fuel →
  chunk_loop fuel (stream_of l) acc = Ret (acc ++ (make_chunk <$> chunks_of ChunkSize l)).
Proof.
  revert l acc. induction fuel as [|fuel IH]; intros l acc Hf; [lia|]. cbn [chunk_loop].
  destruct (decide (l = [])) as [->|Hl].
  { unfold stream_of. rewrite Next_end. by rewrite chunks_of_nil, app_nil_r. }
  pose proof ChunkSize_pos. assert (length l ≠ 0) by by destruct l.
  unfold stream_of. rewrite Next_step by auto.
  change (Stream ?x None) with (stream_of x). rewrite IH by (rewrite length_drop; lia).
  rewrite (chunks_of_cons _ l) by done. cbn [fmap list_fmap]. by rewrite <- app_assoc.
Qed.

Lemma chunk_loop_fail fuel l e acc :
  length l < fuel → chunk_loop fuel (Stream l (Some e)) acc = Err e.
Proof.
  revert l acc. induction fuel as [|fuel IH]; intros l acc Hf; [lia|]. cbn [chunk_loop].
  pose proof ChunkSize_pos.
  destruct (le_lt_dec ChunkSize (length l)) as [Hc|Hc].
  - assert (l ≠ []) by (intros ->; simpl in *; lia).
    rewrite Next_step by auto. apply IH. rewrite length_drop. lia.
  - destruct (Next_fail l e Hc) as [r ->]. done.
Qed.

Lemma stream_loop_ok fuel l :
  length l < fuel →
  stream_loop fuel (stream_of l)
  = (SendChunk <$> (make_chunk <$> chunks_of ChunkSize l)) ++ [CloseErrs; CloseChunks].
Proof.
  revert l. induction fuel as [|fuel IH]; intros l Hf; [lia|]. cbn [stream_loop].
  destruct (decide (l = [])) as [->|Hl].
  { unfold stream_of. by rewrite Next_end, chunks_of_nil. }
  pose proof ChunkSize_pos. assert (length l ≠ 0) by by destruct l.
  unfold stream_of. rewrite Next_step by auto.
  change (Stream ?x None) with (stream_of x). rewrite IH by (rewrite length_drop; lia).
  by rewrite (chunks_of_cons _ l).
Qed.

(** A chunk as [Next] makes it: addressed by the hash of its own data. *)
Definition chunk_valid (c : Chunk) : Prop :=
  ch_Hash c = sha256 (ch_Data c) ∧ ch_Size c = Z.of_nat (length (ch_Data c)) ∧
  0 < length (ch_Data c) ≤ ChunkSize.

Lemma make_chunk_valid l :
  0 < length l ≤ ChunkSize → chunk_valid (make_chunk l).
Proof.
  intros Hl. unfold make_chunk. repeat split; simpl; try lia.
  apply u32_small. split; [lia|]. unfold ChunkSize in *. lia.
Qed.

Lemma chunks_valid l : Forall chunk_valid (make_chunk <$> chunks_of ChunkSize l).
Proof.
  apply Forall_fmap. eapply Forall_impl; [apply chunks_of_bounds, ChunkSize_pos|].
  intros c Hc. by apply make_chunk_valid.
Qed.

Lemma chunks_data l : concat (ch_Data <$> (make_chunk <$> chunks_of ChunkSize l)) = l.
Proof.
  rewrite <- list_fmap_compose. etransitivity; [|apply (concat_chunks_of ChunkSize l), ChunkSize_pos].
  f_equal. rewrite <- (list_fmap_id (chunks_of ChunkSize l)) at 2. by apply list_fmap_ext.
Qed.

(** ChunkAll on a readable stream of any length terminates and returns
    chunks whose data concatenate to the stream, each of 1 to 4096 bytes (all
    full but the last) with its true size and the SHA-256 of its own data;
    ChunkStream sends the same chunks in the same order and then closes both
    channels; a stream that fails yields the read error and no chunks, however
    many chunks preceded the failure. *)
Theorem ChunkAll_partitions (l : bytes) :
  (∃ cs, ChunkAll (stream_of l) = Ret cs ∧
     concat (ch_Data <$> cs) = l ∧ Forall chunk_valid cs ∧
     (∀ i c, cs !! i = Some c → S i < length cs → length (ch_Data c) = ChunkSize) ∧
     ChunkStream (stream_of l) = (SendChunk <$> cs) ++ [CloseErrs; CloseChunks]) ∧
  (∀ e, ChunkAll (Stream l (Some e)) = Err e).
Proof.
  split; [|intros e; apply chunk_loop_fail; simpl; lia].
  exists (make_chunk <$> chunks_of ChunkSize l). split_and!.
  - apply chunk_loop_ok. simpl. lia.
  - apply chunks_data.
  - apply chunks_valid.
  - intros i c Hi Hlt. pose proof ChunkSize_pos as Hp. rewrite length_fmap in Hlt.
    apply list_lookup_fmap_Some in Hi as (d & -> & Hd).
    apply chunks_of_lookup in Hd as [-> Hd]; [|done].
    destruct (lookup_lt_is_Some_2 (chunks_of ChunkSize l) (S i) Hlt) as [d' Hd'].
    apply chunks_of_lookup in Hd' as [_ Hd']; [|done].
    simpl. rewrite length_take, length_drop. lia.
  - apply stream_loop_ok. simpl. lia.
Qed.

End chunker.
