(* ===== verification/Pools.v ===== *)
(** * Shared buffers ([internal/cas/chunk.go], [internal/delta/rolling.go])

    Both packages keep a [sync.Pool]. The chunker's buffers are shared by all
    chunkers of the program: a call of [Next] takes one, reads into it, hashes
    and copies, and gives it back when it returns. Here the arrays live in a
    heap, calls of [Next] interleave, and what a buffer held before stays in it;
    [Chunk.Next] is what each call is shown to compute. A pooled rolling hash
    keeps the backing array of its window. *)
From Stdlib Require Import Strings.Byte.
From S2P Require Import Prelude Sha256 Rolling Chunk.

Section chunker.
Context `{HashFn}.

(** ** A call of [Next], step by step *)
Inductive next_phase :=
| Waiting                              (* before [getBuffer] *)
| Holding (b : nat)
| HasRead (b n : nat)                  (* [ReadFull] has read [n > 0] bytes *)
| Hashed (b n : nat) (hash : bytes)
| Copied (b : nat) (c : Chunk)         (* the chunk is made, the defer is to run *)
| Failed (b : nat) (e : next_error)    (* an error is returned, the defer is to run *)
| Finished (o : outcome next_error Chunk).

(** The reader when the call began, the reader now. *)
Record thread := mkThread { th_start : stream; th_reader : stream; th_phase : next_phase }.

Definition held (ph : next_phase) : option nat :=
  match ph with
  | Holding b | HasRead b _ | Hashed b _ _ | Copied b _ | Failed b _ => Some b
  | Waiting | Finished _ => None
  end.

#[local] Abbreviation heap := (gmap nat bytes).

(** [ReadFull] into the buffer, the hash and the copy of its first bytes. *)
Definition local_step (hp : heap) (th : thread) : option (heap * thread) :=
  match th_phase th with
  | Holding b =>
      buf ← hp !! b;
      let '(got, err, r) := ReadFull (length buf) (th_reader th) in
      Some (<[b := copy_into buf got]> hp,
            mkThread (th_start th) r
              match err with
              | ReadEOF => Failed b NextEOF
              | ReadFailed e => Failed b (NextFailed e)
              | ReadUnexpectedEOF | ReadOk =>
                  if decide (length got = 0) then Failed b NextEOF else HasRead b (length got)
              end)
  | HasRead b n =>
      buf ← hp !! b;
      Some (hp, mkThread (th_start th) (th_reader th) (Hashed b n (sha256 (take n buf))))
  | Hashed b n hash =>
      buf ← hp !! b;
      Some (hp, mkThread (th_start th) (th_reader th) (Copied b (mkChunk hash (u32 (Z.of_nat n)) (take n buf))))
  | _ => None
  end.

(** [putBuffer], and what the call returns. *)
Definition put_step (th : thread) : option (nat * thread) :=
  match th_phase th with
  | Copied b c => Some (b, mkThread (th_start th) (th_reader th) (Finished (Ret c)))
  | Failed b e => Some (b, mkThread (th_start th) (th_reader th) (Finished (Err e)))
  | _ => None
  end.

(** What the pool's [New] makes. *)
Definition new_buffer : bytes := replicate ChunkSize x00.

Record pools := mkPools { pl_heap : heap; pl_pool : list nat; pl_threads : gmap nat thread }.

Definition no_calls : pools := mkPools ∅ [] ∅.

(** [Get] returns any buffer of the pool or a new one; the pool may forget
    buffers; a reader that is done may be used again. *)
Inductive buffer_step : pools → pools → Prop :=
| step_call hp pl ths t r :
    ths !! t = None → buffer_step (mkPools hp pl ths) (mkPools hp pl (<[t := mkThread r r Waiting]> ths))
| step_again hp pl ths t st r o :
    ths !! t = Some (mkThread st r (Finished o)) →
    buffer_step (mkPools hp pl ths) (mkPools hp pl (<[t := mkThread r r Waiting]> ths))
| step_new hp pl ths t st r b :
    ths !! t = Some (mkThread st r Waiting) → hp !! b = None →
    buffer_step (mkPools hp pl ths)
      (mkPools (<[b := new_buffer]> hp) pl (<[t := mkThread st r (Holding b)]> ths))
| step_get hp pl pl' ths t st r b :
    ths !! t = Some (mkThread st r Waiting) → pl ≡ₚ b :: pl' →
    buffer_step (mkPools hp pl ths) (mkPools hp pl' (<[t := mkThread st r (Holding b)]> ths))
| step_forget hp pl pl' ths b :
    pl ≡ₚ b :: pl' → buffer_step (mkPools hp pl ths) (mkPools hp pl' ths)
| step_local hp hp' pl ths t th th' :
    ths !! t = Some th → local_step hp th = Some (hp', th') →
    buffer_step (mkPools hp pl ths) (mkPools hp' pl (<[t := th']> ths))
| step_put hp pl ths t th th' b :
    ths !! t = Some th → put_step th = Some (b, th') →
    buffer_step (mkPools hp pl ths) (mkPools hp (b :: pl) (<[t := th']> ths)).

(** ** The invariant *)
Definition has_bytes (hp : heap) (b : nat) (data : bytes) : Prop :=
  ∃ buf, hp !! b = Some buf ∧ take (length data) buf = data.

(** What a phase means for the call that is made. *)
Definition thread_ok (hp : heap) (th : thread) : Prop :=
  match th_phase th with
  | Waiting | Holding _ => th_reader th = th_start th
  | HasRead b n => ∃ data, Next (th_start th) = (Ret (make_chunk data), th_reader th) ∧ n = length data ∧ has_bytes hp b data
  | Hashed b n hash => ∃ data, Next (th_start th) = (Ret (make_chunk data), th_reader th) ∧ n = length data ∧
      has_bytes hp b data ∧ hash = sha256 data
  | Copied _ c => Next (th_start th) = (Ret c, th_reader th)
  | Failed _ e => Next (th_start th) = (Err e, th_reader th)
  | Finished o => Next (th_start th) = (o, th_reader th)
  end.

(** The state of one call: it holds a buffer that is not in the pool, alone. *)
Definition owns (hp : heap) (pl : list nat) (ths : gmap nat thread) (t : nat) (th : thread) : Prop :=
  ∀ b, held (th_phase th) = Some b →
    (b ∉ pl) ∧ is_Some (hp !! b) ∧
    ∀ t' th', t' ≠ t → ths !! t' = Some th' → held (th_phase th') ≠ Some b.

Record pools_ok (s : pools) : Prop := {
  pk_len : ∀ b buf, pl_heap s !! b = Some buf → length buf = ChunkSize;
  pk_nodup : NoDup (pl_pool s);
  pk_pool : ∀ b, b ∈ pl_pool s → is_Some (pl_heap s !! b);
  pk_owns : ∀ t th, pl_threads s !! t = Some th → owns (pl_heap s) (pl_pool s) (pl_threads s) t th;
  pk_thread : ∀ t th, pl_threads s !! t = Some th → thread_ok (pl_heap s) th;
}.

Lemma no_calls_ok : pools_ok no_calls.
Proof. split; cbn; [done|constructor|by intros b ?%not_elem_of_nil|done|done]. Qed.

Lemma thread_ok_heap hp hp' th :
  (∀ b, held (th_phase th) = Some b → hp' !! b = hp !! b) → thread_ok hp th → thread_ok hp' th.
Proof.
  unfold thread_ok, has_bytes. destruct th as [st r [| b|b n|b n h|b c|b e|o]]; cbn; intros Hb; try done;
    by rewrite (Hb b eq_refl).
Qed.

(** A step of call [t]: it may change the buffer it holds afterwards, and nobody
    else's. *)
Lemma pools_ok_update hp hp' pl pl' ths t th' :
  pools_ok (mkPools hp pl ths) →
  (∀ b buf, hp' !! b = Some buf → length buf = ChunkSize) →
  (∀ b, is_Some (hp !! b) → is_Some (hp' !! b)) →
  NoDup pl' → (∀ b, b ∈ pl' → is_Some (hp' !! b)) →
  (∀ t2 th2 b, t2 ≠ t → ths !! t2 = Some th2 → held (th_phase th2) = Some b → hp' !! b = hp !! b ∧ (b ∉ pl') ∧ held (th_phase th') ≠ Some b) →
  (∀ b, held (th_phase th') = Some b → (b ∉ pl') ∧ is_Some (hp' !! b)) →
  thread_ok hp' th' → pools_ok (mkPools hp' pl' (<[t := th']> ths)).
Proof.
  intros [H1 H2 H3 H4 H5] Hl Hs Hn Hp Ho Ht Hk. split; cbn [pl_heap pl_pool pl_threads] in *; [done|done|done| |].
  - intros t2 th2. rewrite lookup_insert_Some. intros [[<- <-]|[Hne Hth]] b Hb.
    + destruct (Ht b Hb) as [Hb1 Hb2]. split_and!; [done|done|]. intros t3 th3 Hne3 Hth3 Hb3.
      rewrite lookup_insert_ne in Hth3 by done. by destruct (Ho t3 th3 b Hne3 Hth3 Hb3) as (_ & _ & []).
    + destruct (Ho t2 th2 b ltac:(done) Hth Hb) as (_ & Hb2 & Hb3). destruct (H4 t2 th2 Hth b Hb) as (_ & Hb5 & Hb6).
      split_and!; [done|by apply Hs|]. intros t3 th3 Hne3. rewrite lookup_insert_Some.
      intros [[<- <-]|[_ Hth3]]; [done|by apply (Hb6 t3)].
  - intros t2 th2. rewrite lookup_insert_Some. intros [[<- <-]|[Hne Hth]]; [done|].
    apply (thread_ok_heap hp); [|by apply (H5 t2)]. intros b Hb. by apply (Ho t2 th2).
Qed.

(** What [local_step] does to the heap and to its call. *)
Lemma local_step_ok hp th hp' th' :
  (∀ b buf, hp !! b = Some buf → length buf = ChunkSize) → thread_ok hp th → local_step hp th = Some (hp', th') →
  ∃ b buf buf', hp !! b = Some buf ∧ held (th_phase th) = Some b ∧ held (th_phase th') = Some b ∧
    hp' = <[b := buf']> hp ∧ length buf' = ChunkSize ∧ thread_ok hp' th'.
Proof.
  intros Hl Hok. unfold local_step. destruct th as [st r [| b|b n|b n hash|b c|b e|o]]; cbn -[ChunkSize] in *; try done;
    destruct (hp !! b) as [buf|] eqn:Eb; cbn -[ChunkSize]; try done.
  - rewrite (Hl b buf Eb). destruct (ReadFull ChunkSize r) as [[got err] r'] eqn:Er. intros [= <- <-].
    exists b, buf, (copy_into buf got). subst r.
    assert (length got ≤ ChunkSize) as Hg.
    { unfold ReadFull in Er. repeat case_match; simplify_eq; rewrite length_take; lia. }
    assert (has_bytes (<[b := copy_into buf got]> hp) b got) as Hb.
    { exists (copy_into buf got). split; [apply lookup_insert_eq|]. unfold copy_into. rewrite (Hl b buf Eb), (take_ge got) by lia.
      by rewrite take_app_length. }
    split_and!; [done|done|by repeat case_match|done|by rewrite length_copy_into, (Hl b buf Eb)|].
    unfold thread_ok, Next. cbn [th_phase th_start th_reader]. rewrite Er.
    destruct err; try done; case_decide; eauto.
  - destruct Hok as (data & Hn & -> & buf0 & E0 & Ed). rewrite Eb in E0. injection E0 as <-. intros [= <- <-].
    exists b, buf, buf. rewrite insert_id by done. split_and!; [done|done|done|done|by apply (Hl b)|].
    exists data. cbn. rewrite Ed. split_and!; [done|done|by exists buf|done].
  - destruct Hok as (data & Hn & -> & (buf0 & E0 & Ed) & ->). rewrite Eb in E0. injection E0 as <-. intros [= <- <-].
    exists b, buf, buf. rewrite insert_id by done. split_and!; [done|done|done|done|by apply (Hl b)|].
    cbn. rewrite Ed. exact Hn.
Qed.

Lemma put_step_ok hp th b th' :
  thread_ok hp th → put_step th = Some (b, th') →
  held (th_phase th) = Some b ∧ held (th_phase th') = None ∧ thread_ok hp th'.
Proof. destruct th as [st r [| b'|b' n|b' n h|b' c|b' e|o]]; cbn; try done; intros Hok [= <- <-]; done. Qed.

Lemma local_step_keeps hp pl ths t th hp' th' :
  pools_ok (mkPools hp pl ths) → ths !! t = Some th → local_step hp th = Some (hp', th') →
  pools_ok (mkPools hp' pl (<[t := th']> ths)).
Proof.
  intros Hok Ht Hs. pose proof Hok as [H1 H2 H3 H4 H5]. cbn [pl_heap pl_pool pl_threads] in *.
  destruct (local_step_ok hp th hp' th' H1 (H5 t th Ht) Hs) as (b & buf & buf' & Eb & Hh & Hh' & -> & Hl & Hk).
  destruct (H4 t th Ht b Hh) as (Hb1 & Hb2 & Hb3).
  assert (∀ b', is_Some (hp !! b') → is_Some (<[b := buf']> hp !! b')) as Hm.
  { intros b' Hb'. rewrite lookup_insert_is_Some. destruct (decide (b = b')); auto. }
  apply (pools_ok_update hp _ pl); try done.
  - intros b' x. rewrite lookup_insert_Some. intros [[_ <-]|[_ Hb']]; [done|by apply (H1 b')].
  - intros b' Hb'. by apply Hm, H3.
  - intros t2 th2 b' Hne Hth Hb'. destruct (H4 t2 th2 Hth b' Hb') as (Hx & _ & _).
    assert (b' ≠ b) as Hbb by (intros ->; by apply (Hb3 t2 th2)).
    rewrite lookup_insert_ne by done. split_and!; [done|done|]. rewrite Hh'. by intros [= ->].
  - intros b' Hb'. rewrite Hh' in Hb'. injection Hb' as <-. split; [done|by apply Hm].
Qed.

Lemma pool_step_ok s s' : pools_ok s → buffer_step s s' → pools_ok s'.
Proof.
  intros Hok Hs. pose proof Hok as [H1 H2 H3 H4 H5].
  destruct Hs as [hp pl ths t r Ht|hp pl ths t st r o Ht|hp pl ths t st r b Ht Hb|hp pl pl' ths t st r b Ht Hp
    |hp pl pl' ths b Hp|hp hp' pl ths t th th' Ht Hs|hp pl ths t th th' b Ht Hs]; cbn [pl_heap pl_pool pl_threads] in *.
  - eapply pools_ok_update; try done. intros t2 th2 b Hne Hth Hb. by destruct (H4 t2 th2 Hth b Hb).
  - eapply pools_ok_update; try done. intros t2 th2 b Hne Hth Hb. by destruct (H4 t2 th2 Hth b Hb).
  - assert (∀ b', is_Some (hp !! b') → b' ≠ b) as Hne by (intros b' [x Hx] ->; congruence).
    apply (pools_ok_update hp _ pl); try done.
    + intros b' buf. rewrite lookup_insert_Some. intros [[<- <-]|[_ Hb']]; [apply length_replicate|by apply (H1 b')].
    + intros b' Hb'. by rewrite lookup_insert_ne by (symmetry; by apply Hne).
    + intros b' Hb'%H3. by rewrite lookup_insert_ne by (symmetry; by apply Hne).
    + intros t2 th2 b' _ Hth Hb'. destruct (H4 t2 th2 Hth b' Hb') as (Hp' & Hs' & _). pose proof (Hne b' Hs').
      rewrite lookup_insert_ne by done. split_and!; [done|done|by intros [= ->]].
    + intros b' [= <-]. split; [intros Hin%H3; by destruct (Hne b Hin)|by rewrite lookup_insert_eq].
    + exact (H5 t _ Ht).
  - assert (b ∈ pl) as Hin by (rewrite Hp; left). rewrite Hp in H2. apply NoDup_cons in H2 as [Hnb Hn].
    apply (pools_ok_update hp _ pl); try done.
    + intros b' Hb'. apply H3. rewrite Hp. by right.
    + intros t2 th2 b' _ Hth Hb'. destruct (H4 t2 th2 Hth b' Hb') as (Hp' & _ & _). rewrite Hp in Hp'.
      apply not_elem_of_cons in Hp' as [Hx Hy]. split_and!; [done|done|by intros [= ->]].
    + intros b' [= <-]. split; [done|by apply H3].
    + exact (H5 t _ Ht).
  - rewrite Hp in H2. apply NoDup_cons in H2 as [_ Hn]. split; cbn [pl_heap pl_pool pl_threads]; [done|done| |intros t th Ht b' Hb'|done].
    + intros b' Hb'. apply H3. rewrite Hp. by right.
    + destruct (H4 t th Ht b' Hb') as (Hx & Hy & Hz). split_and!; [|done|done].
      intros Hin. apply Hx. rewrite Hp. by right.
  - by eapply local_step_keeps.
  - destruct (put_step_ok hp th b th' (H5 t th Ht) Hs) as (Hh & Hh' & Hk).
    destruct (H4 t th Ht b Hh) as (Hb1 & Hb2 & Hb3). apply (pools_ok_update hp _ pl); try done.
    + by constructor.
    + intros b' [->|Hb']%elem_of_cons; [done|by apply H3].
    + intros t2 th2 b' Hne Hth Hb'. destruct (H4 t2 th2 Hth b' Hb') as (Hx & _ & _). rewrite Hh'.
      split_and!; [done| |done]. intros [->|?]%elem_of_cons; [by apply (Hb3 t2 th2)|done].
    + intros b'. by rewrite Hh'.
Qed.

(** ** Every call ends *)
Definition rank (ph : next_phase) : nat :=
  match ph with
  | Waiting => 4 | Holding _ => 3 | HasRead _ _ => 2 | Hashed _ _ _ => 1 | Copied _ _ | Failed _ _ => 0 | Finished _ => 0
  end.

Definition finished (ph : next_phase) : bool := match ph with Finished _ => true | _ => false end.

Lemma local_defined hp b th :
  held (th_phase th) = Some b → is_Some (hp !! b) → 0 < rank (th_phase th) →
  ∃ hp' th', local_step hp th = Some (hp', th') ∧ th_start th' = th_start th ∧ rank (th_phase th') < rank (th_phase th).
Proof.
  destruct th as [st r ph]. intros Hh [buf Hb] Hr. unfold local_step. cbn [th_phase th_start th_reader] in *.
  destruct ph as [|b'|b' n|b' n h|b' c|b' e|o]; cbn in Hh, Hr; simplify_eq; try lia; rewrite Hb; cbn [mbind option_bind].
  - destruct (ReadFull (length buf) r) as [[got err] r']. eexists _, _. split_and!; [done..|].
    cbn. repeat case_match; cbn; lia.
  - eexists _, _. split_and!; [done..|]. cbn. lia.
  - eexists _, _. split_and!; [done..|]. cbn. lia.
Qed.

Lemma call_progress s t th :
  pools_ok s → pl_threads s !! t = Some th → finished (th_phase th) = false →
  ∃ s' th', buffer_step s s' ∧ pl_threads s' !! t = Some th' ∧ th_start th' = th_start th ∧
    (finished (th_phase th') = true ∨ rank (th_phase th') < rank (th_phase th)).
Proof.
  destruct s as [hp pl ths]. intros Hok Ht Hf. cbn [pl_threads] in *.
  destruct (decide (held (th_phase th) = None)) as [Hn|[b Hb]%not_eq_None_Some].
  { destruct th as [st r ph]. cbn [th_phase th_start] in *. destruct ph as [| | | | | |o]; try done.
    exists (mkPools (<[fresh (dom hp) := new_buffer]> hp) pl (<[t := mkThread st r (Holding (fresh (dom hp)))]> ths)),
      (mkThread st r (Holding (fresh (dom hp)))). split.
    { apply (step_new hp pl ths t st r (fresh (dom hp))); [done|]. apply not_elem_of_dom, is_fresh. }
    cbn [pl_threads]. rewrite lookup_insert_eq. cbn. auto with lia. }
  destruct (pk_owns _ Hok t _ Ht b Hb) as (_ & Hs & _). cbn [pl_heap] in Hs.
  destruct (decide (0 < rank (th_phase th))) as [Hr|Hr].
  - destruct (local_defined hp b th Hb Hs Hr) as (hp' & th' & El & Hst & Hlt).
    exists (mkPools hp' pl (<[t := th']> ths)), th'. split; [by eapply step_local|].
    cbn [pl_threads]. rewrite lookup_insert_eq. auto.
  - assert (∃ th', put_step th = Some (b, th') ∧ th_start th' = th_start th ∧ finished (th_phase th') = true) as (th' & Ep & Hst & Hfi).
    { destruct th as [st r [| | | |b' c|b' e|o]]; cbn in *; simplify_eq; try lia; by eexists. }
    exists (mkPools hp (b :: pl) (<[t := th']> ths)), th'. split; [by eapply step_put|].
    cbn [pl_threads]. rewrite lookup_insert_eq. auto.
Qed.

Lemma call_finishes s t th :
  pools_ok s → pl_threads s !! t = Some th →
  ∃ s' th', star buffer_step s s' ∧ pl_threads s' !! t = Some th' ∧ th_start th' = th_start th ∧
    finished (th_phase th') = true.
Proof.
  remember (rank (th_phase th)) as n eqn:En. revert s th En. induction n as [n IH] using lt_wf_ind. intros s th -> Hok Ht.
  destruct (finished (th_phase th)) eqn:Ef; [exists s, th; split_and!; [apply star_refl|done..]|].
  destruct (call_progress s t th Hok Ht Ef) as (s1 & th1 & Hs & Ht1 & Hst & [Hf|Hr]).
  - exists s1, th1. split_and!; [by eapply star_step; [|apply star_refl]|done..].
  - destruct (IH _ Hr s1 th1 eq_refl (pool_step_ok _ _ Hok Hs) Ht1) as (s2 & th2 & Hs2 & Ht2 & Hst2 & Hf2).
    exists s2, th2. split_and!; [by eapply star_step|done|congruence|done].
Qed.

(** C18: Sharing buffers is invisible. However calls of [Next] on any number of
    readers interleave, whatever their buffers held before and whichever buffer
    the pool hands out, a call that has returned has returned exactly the chunk
    (or the error) of its own reader, and left its reader where it should; a
    buffer in use is in no other hands and not in the pool; and every call that
    has begun can return. *)
Theorem pooled_chunkers (s : pools) (t : nat) (th : thread) :
  star buffer_step no_calls s → pl_threads s !! t = Some th →
  (∀ o, th_phase th = Finished o → Next (th_start th) = (o, th_reader th)) ∧
  (∀ b, held (th_phase th) = Some b →
     (b ∉ pl_pool s) ∧ ∀ t' th', t' ≠ t → pl_threads s !! t' = Some th' → held (th_phase th') ≠ Some b) ∧
  (∃ s' r, star buffer_step s s' ∧ ∃ o, pl_threads s' !! t = Some (mkThread (th_start th) r (Finished o)) ∧
     Next (th_start th) = (o, r)).
Proof.
  intros Hs Ht. assert (pools_ok s) as Hok
    by (eapply (star_invariant buffer_step pools_ok pool_step_ok); [exact Hs|apply no_calls_ok]).
  split_and!.
  - intros o Ho. pose proof (pk_thread _ Hok t th Ht) as Hk. unfold thread_ok in Hk. by rewrite Ho in Hk.
  - intros b Hb. by destruct (pk_owns _ Hok t th Ht b Hb) as (? & _ & ?).
  - destruct (call_finishes s t th Hok Ht) as (s' & [st r ph] & Hs' & Ht' & Hst & Hf). cbn in Hst, Hf. subst st.
    destruct ph as [| | | | | |o]; try done. exists s', r. split; [done|]. exists o. split; [done|].
    assert (pools_ok s') as Hok' by (by eapply (star_invariant buffer_step pools_ok pool_step_ok)).
    exact (pk_thread _ Hok' t _ Ht').
Qed.
End chunker.

(** ** Rolling hashes

    A released rolling hash goes to the pool with the backing array of its
    window, whose first cells are the window. *)
Definition hash_pool : Type := list bytes.

(** What the pool's [New] makes: only the array matters. *)
Definition new_array : bytes := replicate (Z.to_nat DefaultBlockSize) x00.

Definition pool_Get (pool : hash_pool) (pick : option nat) : bytes * hash_pool :=
  match pick ≫= λ i, pool !! i with
  | Some a => (a, delete (default 0 pick) pool)
  | None => (new_array, pool)
  end.

(** [NewRollingHash] with the pool, and the array behind its window. *)
Definition hash_Get (pool : hash_pool) (pick : option nat) (blockSize : Z) : RollingHash * bytes * hash_pool :=
  let '(a, pool') := pool_Get pool pick in
  let rh := NewRollingHash a blockSize in
  (rh, rh_window rh ++ drop (length (rh_window rh)) a, pool').

Definition Release (pool : hash_pool) (rh : RollingHash) (array : bytes) : hash_pool :=
  (rh_window rh ++ drop (length (rh_window rh)) array) :: pool.

(** A recycled hash is as good as a new one: nothing of its earlier life is
    left, whatever the pool holds and whichever object it hands out. *)
Theorem recycled_hash (pool : hash_pool) (pick : option nat) (blockSize : Z) :
  (hash_Get pool pick blockSize).1.1 = NewRollingHash new_array blockSize.
Proof.
  unfold hash_Get. destruct (pool_Get pool pick) as [a pool']. cbn [fst]. unfold NewRollingHash, Reset. cbn [rh_window].
  set (bs := if (MaxBlockSize <? _)%Z then _ else _).
  assert (∀ c : bytes, length (if (Z.of_nat (length c) <? bs)%Z then replicate (Z.to_nat bs) x00 else take (Z.to_nat bs) c) = Z.to_nat bs) as Hl.
  { intros c. destruct (Z.ltb_spec (Z.of_nat (length c)) bs); [apply length_replicate|rewrite length_take; lia]. }
  by rewrite !Hl.
Qed.

(** Two readers; the second one may get the buffer of the first. *)
Module PoolsExample.
#[local] Existing Instance sha256_fips.

Definition readers : pools :=
  mkPools ∅ [] (<[1 := mkThread (stream_of [x68; x69]) (stream_of [x68; x69]) Waiting]>
                  (<[0 := mkThread (stream_of [x6f]) (stream_of [x6f]) Waiting]> ∅)).

Lemma readers_reachable : star buffer_step no_calls readers.
Proof.
  eapply star_step; [apply (step_call ∅ [] ∅ 0 (stream_of [x6f])); reflexivity|].
  eapply star_step; [apply (step_call ∅ [] _ 1 (stream_of [x68; x69])); reflexivity|]. apply star_refl.
Qed.

Lemma pooled_chunkers_witness :
  ∃ s' r o, star buffer_step readers s' ∧
    pl_threads s' !! 1 = Some (mkThread (stream_of [x68; x69]) r (Finished o)) ∧ Next (stream_of [x68; x69]) = (o, r).
Proof.
  destruct (pooled_chunkers readers 1 (mkThread (stream_of [x68; x69]) (stream_of [x68; x69]) Waiting)
    readers_reachable eq_refl) as (_ & _ & s' & r & Hs & o & Ht & Hn).
  exists s', r, o. split; [exact Hs|]. split; [exact Ht|exact Hn].
Defined.
End PoolsExample.
