(* ===== verification/ChunkStore.v ===== *)
(** * What a chunk store promises to its clients

    The synchroniser, the command-line reconstruction and the manifest server
    use the store through [Has], [Get] and [Put] only. The class [ChunkStore]
    states what they rely on; [BlobStore.blob_chunk_store] is the on-disk
    implementation, [map_chunk_store] the abstract one, a finite map from
    hashes to contents. A [Put] may fail, and then changes nothing visible. *)
From S2P Require Import Prelude Chunk.

(** Hashes of at least two bytes; all the program computes have 32. *)
Definition long_hash (h : bytes) : Prop := 2 ≤ length h.

#[global] Instance long_hash_dec h : Decision (long_hash h).
Proof. unfold long_hash. apply _. Defined.

Class ChunkStore (St E : Type) := {
  cs_wf : St → Prop;
  cs_view : St → bytes → option bytes;
  cs_has : St → bytes → bool;
  cs_get : St → bytes → outcome E Chunk;
  cs_put : St → Chunk → St * outcome E bool;
  cs_has_spec st h :
    cs_wf st → long_hash h → cs_has st h = bool_decide (is_Some (cs_view st h));
  cs_get_spec st h :
    cs_wf st → long_hash h →
    match cs_view st h with
    | Some d => cs_get st h = Ret (mkChunk h (u32 (Z.of_nat (length d))) d)
    | None => ∃ e, cs_get st h = Err e
    end;
  cs_put_spec st c :
    cs_wf st → long_hash (ch_Hash c) →
    let st' := (cs_put st c).1 in
    cs_wf st' ∧
    (∀ k, long_hash k → k ≠ ch_Hash c → cs_view st' k = cs_view st k) ∧
    match (cs_put st c).2 with
    | Ret isNew => isNew = bool_decide (cs_view st (ch_Hash c) = None) ∧
                   cs_view st' (ch_Hash c) = Some (default (ch_Data c) (cs_view st (ch_Hash c)))
    | Err _ => cs_view st' (ch_Hash c) = cs_view st (ch_Hash c)
    | Panic => False
    end;
}.

(** The abstract store: a finite map. *)
#[global, program] Instance map_chunk_store : ChunkStore (gmap bytes bytes) unit := {|
  cs_wf _ := True;
  cs_view m h := m !! h;
  cs_has m h := bool_decide (is_Some (m !! h));
  cs_get m h :=
    match m !! h with
    | Some d => Ret (mkChunk h (u32 (Z.of_nat (length d))) d)
    | None => Err tt
    end;
  cs_put m c :=
    match m !! ch_Hash c with
    | Some _ => (m, Ret false)
    | None => (<[ch_Hash c := ch_Data c]> m, Ret true)
    end;
|}.
Next Obligation. done. Qed.
Next Obligation. intros m h _ _. simpl. destruct (m !! h); eauto. Qed.
Next Obligation.
  intros m c _ _. simpl. destruct (m !! ch_Hash c) as [d|] eqn:E; simpl.
  - by rewrite E.
  - rewrite lookup_insert_eq. split_and!; try done.
    intros k _ Hk. by rewrite lookup_insert_ne.
Qed.

Section client.
Context {St E : Type} `{ChunkStore St E}.

(** A stored chunk is never overwritten. *)
Lemma cs_put_keeps st c h d :
  cs_wf st → long_hash (ch_Hash c) → long_hash h →
  cs_view st h = Some d → cs_view (cs_put st c).1 h = Some d.
Proof.
  intros Hw Hc Hh Hd. destruct (cs_put_spec st c Hw Hc) as (_ & Ho & Hr).
  destruct (decide (h = ch_Hash c)) as [->|Hne]; [|by rewrite Ho].
  destruct ((cs_put st c).2); [|by rewrite Hr|done]. destruct Hr as [_ ->]. by rewrite Hd.
Qed.

Lemma cs_put_wf st c : cs_wf st → long_hash (ch_Hash c) → cs_wf (cs_put st c).1.
Proof. intros. by apply cs_put_spec. Qed.
End client.
