(* ===== verification/BlobStore.v ===== *)
(** * The content-addressed store ([internal/cas/store.go])

    A [BlobStore] is its base directory; every operation takes the file system
    and returns the file system it leaves. The mutex serialises the
    operations, so each is one atomic step. I/O faults are arguments: a [faults]
    record has a field per system call of [Put], a [read_faults] record one per
    system call of [Get] and [Verify], and [Has] and [Delete] make a single
    call. The plain [Get], [Has], [Verify] and [Delete] are those without a
    fault. *)
From Stdlib Require Import Strings.Byte Strings.String.
From S2P Require Import Prelude Sha256 Fs Chunk ChunkStore.

Definition DefaultStorageDir : bytes := bytes_of_string ".storage/chunks".
Definition PrefixLength : nat := 2.
Definition FilePermissions : Z := 384.   (* 0600 *)
Definition DirPermissions : Z := 448.    (* 0700 *)
Definition BufferSize : nat := 64 * 1024.
Definition tmp_ext : bytes := bytes_of_string ".tmp".

Record BlobStore := mkBlobStore { bs_baseDir : path }.

Inductive store_error :=
| CreatingStorageDir (e : fs_error)
| CreatingChunkDir (e : fs_error)
| CreatingTemp (e : fs_error)
| WritingData
| FlushingData
| ClosingFile
| RenamingFile (e : fs_error)
| ChunkNotFound (hashHex : bytes)
| OpeningFile (e : fs_error)
| GettingStats (e : fs_error)
| ReadingData (e : fs_error)
| Corruption (expected got : bytes)
| DeletingChunk (e : fs_error)
| ChunkingData (e : read_error)
| StoringChunk (hashHex : bytes) (e : store_error).

#[global] Instance read_error_eq_dec : EqDecision read_error.
Proof. solve_decision. Defined.

#[global] Instance store_error_eq_dec : EqDecision store_error.
Proof. intros x. induction x; intros []; try (by right); solve_decision. Defined.

(** ** Faults: which system call of a [Put] fails *)
Record faults := Faults {
  ft_stat : bool;
  ft_mkdir : bool;
  ft_open : bool;
  ft_write : option nat;   (* Some k: the write fails after k bytes *)
  ft_close : bool;
  ft_rename : bool;
  ft_remove : bool;
}.

Definition no_faults : faults := Faults false false false None false false false.

(** Which system call of a [Get] or a [Verify] fails. *)
Record read_faults := ReadFaults {
  rf_open : bool;
  rf_stat : bool;          (* [f.Stat] on the open file, only in [Get] *)
  rf_read : bool;
}.

Definition no_read_faults : read_faults := ReadFaults false false false.

(** A system call that may be made to fail. *)
Definition faulty {A} (fault : bool) (m : outcome fs_error A) : outcome fs_error A :=
  if fault then Err EIO else m.

(** ** Operations *)
Definition NewBlobStore (f : fs) (cwd : path) (dir : bytes) : fs * outcome store_error BlobStore :=
  let dir := if decide (dir = []) then DefaultStorageDir else dir in
  match MkdirAll f (resolve cwd dir) DirPermissions with
  | Ret f' => (f', Ret (mkBlobStore (resolve cwd dir)))
  | Err e => (f, Err (CreatingStorageDir e))
  | Panic => (f, Panic)
  end.

Definition chunkPath (s : BlobStore) (hashHex : bytes) : path :=
  if decide (length hashHex < PrefixLength) then Join (bs_baseDir s) [hashHex]
  else
    let prefix := take PrefixLength hashHex in
    let suffix := drop PrefixLength hashHex in
    Join (bs_baseDir s) [prefix; suffix].

(** [path + ".tmp"]: the extension goes to the last component. *)
Definition tmpPath (p : path) : path :=
  match last p with
  | Some n => removelast p ++ [n ++ tmp_ext]
  | None => [tmp_ext]
  end.

(** [writer.Write] then [writer.Flush] of a 64 KiB buffered writer: data that
    does not fit the buffer goes straight to the file, so its fault is a write
    error; otherwise the fault shows when the buffer is flushed. *)
Definition bufio_write (f : fs) (p : path) (data : bytes) (fault : option nat)
    : fs * option store_error :=
  match fault with
  | None => (WriteAt f p data, None)
  | Some k =>
      (WriteAt f p (take k data),
       if decide (data = []) then None
       else if decide (BufferSize < length data) then Some WritingData else Some FlushingData)
  end.

(** The clean-up [os.Remove(tmpPath)], its error ignored. *)
Definition cleanup (f : fs) (p : path) (ft : faults) : fs :=
  match faulty (ft_remove ft) (Remove f p) with Ret f' => f' | _ => f end.

Definition Put (f : fs) (s : BlobStore) (chunk : Chunk) (ft : faults)
    : fs * outcome store_error bool :=
  let path := chunkPath s (HashHex chunk) in
  match faulty (ft_stat ft) (Stat f path) with
  | Ret _ => (f, Ret false)
  | _ =>
      match faulty (ft_mkdir ft) (MkdirAll f (Dir path) DirPermissions) with
      | Err e => (f, Err (CreatingChunkDir e))
      | Panic => (f, Panic)
      | Ret f1 =>
          let tmp := tmpPath path in
          match faulty (ft_open ft) (OpenTrunc f1 tmp FilePermissions) with
          | Err e => (f1, Err (CreatingTemp e))
          | Panic => (f1, Panic)
          | Ret f2 =>
              let '(f3, ioErr) := bufio_write f2 tmp (ch_Data chunk) (ft_write ft) in
              match ioErr with
              | Some e => (cleanup f3 tmp ft, Err e)
              | None =>
                  if ft_close ft then (cleanup f3 tmp ft, Err ClosingFile)
                  else match faulty (ft_rename ft) (Rename f3 tmp path) with
                       | Err e => (cleanup f3 tmp ft, Err (RenamingFile e))
                       | Panic => (f3, Panic)
                       | Ret f4 => (f4, Ret true)
                       end
              end
          end
      end
  end.

(** [os.Open]: a missing file is reported as such. *)
Definition open_chunk (fault : bool) (f : fs) (p : path) (hashHex : bytes) : outcome store_error fnode :=
  match faulty fault (Stat f p) with
  | Ret n => Ret n
  | Err e => if IsNotExist e then Err (ChunkNotFound hashHex) else Err (OpeningFile e)
  | Panic => Panic
  end.

(** Reading an open file whole: a directory opens and then fails to read. *)
Definition read_chunk (fault : bool) (n : fnode) : outcome store_error bytes :=
  if fault then Err (ReadingData EIO)
  else match n with FFile c _ => Ret c | FDir _ => Err (ReadingData EISDIR) end.

Definition Get_io (rf : read_faults) (f : fs) (s : BlobStore) (hash : bytes) : outcome store_error Chunk :=
  let hashHex := hex_encode hash in
  file ← open_chunk (rf_open rf) f (chunkPath s hashHex) hashHex;
  if rf_stat rf then Err (GettingStats EIO)
  else
    data ← read_chunk (rf_read rf) file;
    Ret (mkChunk hash (u32 (Z.of_nat (length data))) data).

Definition Get : fs → BlobStore → bytes → outcome store_error Chunk := Get_io no_read_faults.

Definition Has_io (fault : bool) (f : fs) (s : BlobStore) (hash : bytes) : bool :=
  is_ret (faulty fault (Stat f (chunkPath s (hex_encode hash)))).

Definition Has : fs → BlobStore → bytes → bool := Has_io false.

Section store.
Context `{HashFn}.

Definition Verify_io (rf : read_faults) (f : fs) (s : BlobStore) (hash : bytes) : outcome store_error unit :=
  let hashHex := hex_encode hash in
  file ← open_chunk (rf_open rf) f (chunkPath s hashHex) hashHex;
  data ← read_chunk (rf_read rf) file;
  let computed := sha256 data in
  if decide (computed = hash) then Ret () else Err (Corruption hashHex (hex_encode computed)).

Definition Verify : fs → BlobStore → bytes → outcome store_error unit := Verify_io no_read_faults.

Definition Delete_io (fault : bool) (f : fs) (s : BlobStore) (hash : bytes) : fs * outcome store_error unit :=
  match faulty fault (Remove f (chunkPath s (hex_encode hash))) with
  | Ret f' => (f', Ret ())
  | Err e => if IsNotExist e then (f, Ret ()) else (f, Err (DeletingChunk e))
  | Panic => (f, Panic)
  end.

Definition Delete : fs → BlobStore → bytes → fs * outcome store_error unit := Delete_io false.

(** [StoreReader]: the chunking loop with a fault record per [Put]; running
    out of fuel is [Panic]. *)
Fixpoint store_loop (fuel : nat) (f : fs) (s : BlobStore) (r : stream) (fts : list faults)
    (stored : list Chunk) : fs * outcome store_error (list Chunk) :=
  match fuel with
  | O => (f, Panic)
  | S fuel' =>
      match Next r with
      | (Err NextEOF, _) => (f, Ret stored)
      | (Err (NextFailed e), _) => (f, Err (ChunkingData e))
      | (Panic, _) => (f, Panic)
      | (Ret c, r') =>
          match Put f s c (default no_faults (head fts)) with
          | (f', Ret _) =>
              store_loop fuel' f' s r' (tail fts) (stored ++ [mkChunk (ch_Hash c) (ch_Size c) []])
          | (f', Err e) => (f', Err (StoringChunk (HashHex c) e))
          | (f', Panic) => (f', Panic)
          end
      end
  end.

Definition StoreReader (f : fs) (s : BlobStore) (r : stream) (fts : list faults)
    : fs * outcome store_error (list Chunk) :=
  store_loop (S (length (st_buf r))) f s r fts [].

(** ** [VerifyAll] *)

(** [hex.DecodeString]: both letter cases, an even number of digits. *)
Definition hex_value (b : byte) : option Z :=
  let v := byte_val b in
  if ((48 <=? v) && (v <=? 57))%Z then Some (v - 48)%Z
  else if ((97 <=? v) && (v <=? 102))%Z then Some (v - 87)%Z
  else if ((65 <=? v) && (v <=? 70))%Z then Some (v - 55)%Z
  else None.

Fixpoint hex_decode (s : bytes) : option bytes :=
  match s with
  | [] => Some []
  | [_] => None
  | a :: b :: s' =>
      x ← hex_value a; y ← hex_value b; r ← hex_decode s';
      Some (byte_of (16 * x + y) :: r)
  end.

(** The path of [p] relative to [base], when [p] lies below it. *)
Fixpoint rel (base p : path) : option path :=
  match base, p with
  | [], _ => Some p
  | b :: base', c :: p' => if decide (b = c) then rel base' p' else None
  | _ :: _, [] => None
  end.

(** [filepath.Dir(rel) + filepath.Base(rel)]. *)
Definition rel_hash (r : path) : bytes :=
  match removelast r with
  | [] => dot ++ default dot (last r)
  | d => join_slash d ++ default dot (last r)
  end.

(** [filepath.Ext(path) == ".tmp"]. *)
Definition has_tmp_ext (r : path) : bool :=
  match last r with
  | Some n => bool_decide (drop (length n - length tmp_ext) n = tmp_ext)
  | None => false
  end.

(** What the walk function adds to [corrupted] for one entry. *)
Definition verify_entry (f : fs) (s : BlobStore) (p : path) (n : fnode) : option (bytes * store_error) :=
  match n with
  | FDir _ => None
  | FFile _ _ =>
      r ← rel (bs_baseDir s) p;
      if has_tmp_ext r then None
      else
        hash ← hex_decode (rel_hash r);
        match Verify f s hash with
        | Err e => Some (rel_hash r, e)
        | _ => None
        end
  end.

(** The walk visits every entry below the base directory once; the result is
    a map, so the order of the visits only matters for entries with one key. *)
Definition VerifyAll (f : fs) (s : BlobStore) : gmap bytes store_error :=
  list_to_map (omap (λ kv, verify_entry f s kv.1 kv.2) (map_to_list f)).
End store.

(** ** Where a chunk lives

    Hashes of at least two bytes get a directory and a file name of their
    own. *)
Definition pfx (h : bytes) : bytes := take PrefixLength (hex_encode h).
Definition sfx (h : bytes) : bytes := drop PrefixLength (hex_encode h).

Lemma hex_digit_val n : (0 ≤ n < 16)%Z →
  (48 ≤ byte_val (hex_digit n) ≤ 57)%Z ∨ (97 ≤ byte_val (hex_digit n) ≤ 102)%Z.
Proof.
  intros Hn. unfold hex_digit. rewrite byte_val_of.
  destruct (Z.ltb_spec n 10); rewrite Z.mod_small by lia; lia.
Qed.

Lemma hex_encode_digits m b : b ∈ hex_encode m → (48 ≤ byte_val b)%Z.
Proof.
  unfold hex_encode. rewrite list_elem_of_In, in_concat. setoid_rewrite <- list_elem_of_In.
  intros (x & (y & -> & _)%list_elem_of_fmap & Hb).
  pose proof (byte_val_range y). rewrite !elem_of_cons in Hb.
  assert (0 ≤ byte_val y / 16 < 16)%Z as H1 by (Z.div_mod_to_equations; lia).
  assert (0 ≤ byte_val y mod 16 < 16)%Z as H2 by (Z.div_mod_to_equations; lia).
  apply hex_digit_val in H1, H2.
  destruct Hb as [->|[->|?%not_elem_of_nil]]; [| |done].
  - lia.
  - lia.
Qed.

(** Text made of characters from ['0'] up is a plain name. *)
Lemma digits_plain s : (∀ b, b ∈ s → (48 ≤ byte_val b)%Z) → s ≠ [] → plain_name s.
Proof.
  intros Hs Hne. repeat split; [|done|..].
  - intros Hb. by apply Hs in Hb.
  - intros ->. assert (x2e ∈ dot) as Hb by (by left). by apply Hs in Hb.
  - intros ->. assert (x2e ∈ dotdot) as Hb by (by left). by apply Hs in Hb.
Qed.

Lemma pfx_sfx_plain h : long_hash h → plain_name (pfx h) ∧ plain_name (sfx h).
Proof.
  unfold long_hash. intros Hl. pose proof (length_hex_encode h) as Hh.
  split; apply digits_plain; unfold pfx, sfx, PrefixLength.
  - intros b Hb%elem_of_take. destruct Hb as (i & Hb & _).
    eapply hex_encode_digits, list_elem_of_lookup_2, Hb.
  - intros E%(f_equal length). rewrite length_take in E. cbn [length] in E. lia.
  - intros b Hb. apply (hex_encode_digits h). rewrite <- (take_drop 2 (hex_encode h)).
    apply elem_of_app. by right.
  - intros E%(f_equal length). rewrite length_drop in E. cbn [length] in E. lia.
Qed.

Lemma chunkPath_long s h : long_hash h → chunkPath s (hex_encode h) = bs_baseDir s ++ [pfx h; sfx h].
Proof.
  intros Hl. unfold chunkPath. unfold long_hash in Hl. pose proof (length_hex_encode h) as Hh.
  rewrite decide_False by (unfold PrefixLength; lia).
  apply Join_plain. destruct (pfx_sfx_plain h Hl). rewrite !Forall_cons. auto using Forall_nil_2.
Qed.

Lemma chunkPath_inj s h k :
  long_hash h → long_hash k → chunkPath s (hex_encode h) = chunkPath s (hex_encode k) → h = k.
Proof.
  intros Hh Hk. rewrite !chunkPath_long by done. intros E%app_inv_head.
  injection E as E1 E2. apply (inj hex_encode).
  rewrite <- (take_drop PrefixLength (hex_encode h)), <- (take_drop PrefixLength (hex_encode k)).
  unfold pfx, sfx in *. congruence.
Qed.

Lemma app_two {A} (l : list A) a b : l ++ [a; b] = (l ++ [a]) ++ [b].
Proof. by rewrite <- app_assoc. Qed.

Lemma tmpPath_long s h :
  long_hash h → tmpPath (chunkPath s (hex_encode h)) = bs_baseDir s ++ [pfx h; sfx h ++ tmp_ext].
Proof.
  intros Hl. rewrite chunkPath_long by done.
  rewrite !app_two. unfold tmpPath. by rewrite last_snoc, removelast_last.
Qed.

Lemma Dir_long s h : long_hash h → Dir (chunkPath s (hex_encode h)) = bs_baseDir s ++ [pfx h].
Proof.
  intros Hl. rewrite chunkPath_long by done.
  rewrite app_two. apply removelast_last.
Qed.

(** No chunk file is a temporary file. *)
Lemma sfx_not_tmp h x : sfx h ≠ x ++ tmp_ext.
Proof.
  intros E. assert (x2e ∈ hex_encode h) as Hb.
  { rewrite <- (take_drop PrefixLength (hex_encode h)). apply elem_of_app. right.
    change (x2e ∈ sfx h). rewrite E. apply elem_of_app. right. by left. }
  by apply hex_encode_digits in Hb.
Qed.

(** ** The store invariant and its abstract content *)
Record store_wf (f : fs) (s : BlobStore) : Prop := {
  wf_base : ∀ q, q `prefix_of` bs_baseDir s → ∃ m, f !! q = Some (FDir m);
  wf_pfx : ∀ h c m, long_hash h → f !! (bs_baseDir s ++ [pfx h]) ≠ Some (FFile c m);
  wf_chunk : ∀ h m, long_hash h → f !! (bs_baseDir s ++ [pfx h; sfx h]) ≠ Some (FDir m);
  wf_tmp : ∀ h m, long_hash h → f !! (bs_baseDir s ++ [pfx h; sfx h ++ tmp_ext]) ≠ Some (FDir m);
}.

(** The content stored under a hash. *)
Definition view (f : fs) (s : BlobStore) (h : bytes) : option bytes :=
  match f !! chunkPath s (hex_encode h) with Some (FFile c _) => Some c | _ => None end.

Lemma prefix_two {A} (q base : list A) a b :
  q `prefix_of` base ++ [a; b] → q `prefix_of` base ∨ q = base ++ [a] ∨ q = base ++ [a; b].
Proof.
  intros [k E]. revert base E. induction q as [|x q IH]; intros base E; [left; apply prefix_nil|].
  destruct base as [|y base]; simpl in *.
  - injection E as <- E. destruct q as [|z q]; [by right; left|]. injection E as <- E.
    symmetry in E. apply app_nil in E as [-> ->]. by right; right.
  - injection E as <- E. destruct (IH base E) as [?|[->| ->]]; [left; by apply prefix_cons|auto..].
Qed.

Lemma prefix_one {A} (q base : list A) a :
  q `prefix_of` base ++ [a] → q ≠ base ++ [a] → q `prefix_of` base.
Proof.
  intros Hq Hne. destruct (prefix_two q base a a) as [?|[->| ->]]; [|done..|].
  - destruct Hq as [k Hk]. exists (k ++ [a]). by rewrite app_two, Hk, <- app_assoc.
  - apply prefix_length in Hq. rewrite !length_app in Hq. simpl in Hq. lia.
Qed.

Lemma through_chunk f s h x :
  store_wf f s → long_hash h → through_file f [] (bs_baseDir s ++ [pfx h; x]) = false.
Proof.
  intros Hw Hl. apply through_file_false. intros q Hq Hne c m E. simpl in E.
  apply prefix_two in Hq as [Hq|[->| ->]]; [|by eapply (wf_pfx _ _ Hw)|done].
  destruct (wf_base _ _ Hw q Hq) as [m' E']. congruence.
Qed.

Lemma Stat_chunk f s h :
  store_wf f s → long_hash h →
  match view f s h with
  | Some c => ∃ m, f !! chunkPath s (hex_encode h) = Some (FFile c m) ∧
                   Stat f (chunkPath s (hex_encode h)) = Ret (FFile c m)
  | None => f !! chunkPath s (hex_encode h) = None ∧ Stat f (chunkPath s (hex_encode h)) = Err ENOENT
  end.
Proof.
  intros Hw Hl. unfold view, Stat. rewrite chunkPath_long by done.
  rewrite through_chunk by done.
  destruct (f !! (bs_baseDir s ++ [pfx h; sfx h])) as [[c m|m]|] eqn:E; [eauto| |done].
  by apply (wf_chunk _ _ Hw) in E.
Qed.

(** ** Frame conditions of the updates a [Put] makes *)
Ltac path_neq :=
  let E := fresh "E" in
  intros E; apply (f_equal length) in E; autorewrite with bytes_db in E; simpl in E; lia.

Lemma wf_insert_dir f s h m :
  store_wf f s → long_hash h → store_wf (<[bs_baseDir s ++ [pfx h] := FDir m]> f) s.
Proof.
  intros Hw Hl. split.
  - intros q Hq. rewrite lookup_insert. case_decide; [eauto|by apply Hw].
  - intros k c m' Hk. rewrite lookup_insert. case_decide; [done|by apply Hw].
  - intros k m' Hk. rewrite lookup_insert_ne by path_neq. by apply Hw.
  - intros k m' Hk. rewrite lookup_insert_ne by path_neq. by apply Hw.
Qed.

Lemma prefix_neq {A} (q base : list A) a b : q `prefix_of` base → base ++ [a; b] ≠ q.
Proof. intros Hq%prefix_length E%(f_equal length). rewrite length_app in E. simpl in E. lia. Qed.

Lemma wf_insert_file f s h x c m :
  store_wf f s → store_wf (<[bs_baseDir s ++ [pfx h; x] := FFile c m]> f) s.
Proof.
  intros Hw. split.
  - intros q Hq. rewrite lookup_insert_ne by by apply prefix_neq. by apply Hw.
  - intros k c' m' Hk. rewrite lookup_insert_ne by path_neq. by apply Hw.
  - intros k m' Hk. rewrite lookup_insert. case_decide; [done|by apply Hw].
  - intros k m' Hk. rewrite lookup_insert. case_decide; [done|by apply Hw].
Qed.

Lemma wf_delete_file f s h x :
  store_wf f s → store_wf (delete (bs_baseDir s ++ [pfx h; x]) f) s.
Proof.
  intros Hw. split.
  - intros q Hq. rewrite lookup_delete_ne by by apply prefix_neq. by apply Hw.
  - intros k c' m' Hk. rewrite lookup_delete_ne by path_neq. by apply Hw.
  - intros k m' Hk. rewrite lookup_delete. case_decide; [done|by apply Hw].
  - intros k m' Hk. rewrite lookup_delete. case_decide; [done|by apply Hw].
Qed.

(** The file system once the chunk's directory exists. *)
Definition with_dir (f : fs) (s : BlobStore) (h : bytes) : fs :=
  match f !! (bs_baseDir s ++ [pfx h]) with
  | Some _ => f
  | None => <[bs_baseDir s ++ [pfx h] := FDir DirPermissions]> f
  end.

Lemma wf_with_dir f s h : store_wf f s → long_hash h → store_wf (with_dir f s h) s.
Proof. intros. unfold with_dir. case_match; [done|by apply wf_insert_dir]. Qed.

Lemma with_dir_dir f s h :
  store_wf f s → long_hash h → ∃ m, with_dir f s h !! (bs_baseDir s ++ [pfx h]) = Some (FDir m).
Proof.
  intros Hw Hl. unfold with_dir. destruct (f !! (bs_baseDir s ++ [pfx h])) as [[c m|m]|] eqn:E.
  - by apply (wf_pfx _ _ Hw) in E.
  - eauto.
  - rewrite lookup_insert_eq. eauto.
Qed.

Lemma with_dir_other f s h q :
  q ≠ bs_baseDir s ++ [pfx h] → with_dir f s h !! q = f !! q.
Proof. intros Hq. unfold with_dir. case_match; [done|by rewrite lookup_insert_ne]. Qed.

Lemma mkdir_chunk f s h :
  store_wf f s → long_hash h →
  MkdirAll f (bs_baseDir s ++ [pfx h]) DirPermissions = Ret (with_dir f s h).
Proof.
  intros Hw Hl. apply (mkdir_all_last f []); [by apply Hw|]. intros x m. by apply Hw.
Qed.

(** ** What a [Put] can do, whatever fails *)
Section put.
Context (f : fs) (s : BlobStore) (c : Chunk) (ft : faults).
Context (Hw : store_wf f s) (Hl : long_hash (ch_Hash c)).

Let h := ch_Hash c.
Let dst := bs_baseDir s ++ [pfx h; sfx h].
Let tmp := bs_baseDir s ++ [pfx h; sfx h ++ tmp_ext].
Let f1 := with_dir f s h.

(** [Put] goes past its first check. *)
Definition unseen : Prop := view f s h = None ∨ ft_stat ft = true.

Inductive put_effect : fs → outcome store_error bool → Prop :=
| put_dup d : view f s h = Some d → ft_stat ft = false → put_effect f (Ret false)
| put_failed f' e :
    unseen → ft ≠ no_faults →
    (f' = f ∨ f' = f1 ∨ f' = delete tmp f1 ∨
     ft_remove ft = true ∧ ∃ d m, f' = <[tmp := FFile d m]> f1) →
    put_effect f' (Err e)
| put_new m :
    unseen →
    put_effect (<[dst := FFile (ch_Data c) m]> (delete tmp f1)) (Ret true).

Lemma open_tmp : ∃ m, OpenTrunc f1 tmp FilePermissions = Ret (<[tmp := FFile [] m]> f1).
Proof.
  assert (store_wf f1 s) as Hw1 by by apply wf_with_dir.
  destruct (with_dir_dir f s h Hw Hl) as [m Hd]. fold f1 in Hd.
  unfold OpenTrunc. replace (Dir tmp) with (bs_baseDir s ++ [pfx h]).
  2:{ unfold tmp, Dir. by rewrite app_two, removelast_last. }
  rewrite (Stat_dirs _ _ (FDir m)); [|intros q Hq Hne|done].
  - destruct (f1 !! tmp) as [[d m'|m']|] eqn:E; [eauto| |eauto].
    by apply (wf_tmp _ _ Hw1) in E.
  - apply (wf_base _ _ Hw1). by eapply prefix_one.
Qed.

Lemma bufio_tmp m :
  ∃ d e, bufio_write (<[tmp := FFile [] m]> f1) tmp (ch_Data c) (ft_write ft)
           = (<[tmp := FFile d m]> f1, e) ∧
         match e with None => d = ch_Data c | Some _ => ft_write ft ≠ None end.
Proof.
  unfold bufio_write, WriteAt. destruct (ft_write ft) as [k|];
    rewrite lookup_insert_eq, insert_insert_eq; simpl.
  - do 2 eexists. split; [done|]. case_decide as E; [by rewrite E, take_nil|].
    by case_decide.
  - do 2 eexists. split; [done|]. done.
Qed.

Lemma Stat_tmp d m : Stat (<[tmp := FFile d m]> f1) tmp = Ret (FFile d m).
Proof.
  unfold Stat. rewrite lookup_insert_eq. unfold tmp at 2.
  rewrite through_chunk; [done| |done]. by apply wf_insert_file, wf_with_dir.
Qed.

Lemma cleanup_tmp d m :
  ft_remove ft = false → cleanup (<[tmp := FFile d m]> f1) tmp ft = delete tmp f1.
Proof. intros E. unfold cleanup, Remove, faulty. by rewrite Stat_tmp, E, delete_insert_eq. Qed.

Lemma cleanup_effect d m e :
  unseen → ft ≠ no_faults →
  put_effect (cleanup (<[tmp := FFile d m]> f1) tmp ft) (Err e).
Proof.
  intros Hv Hf. apply put_failed; [done..|].
  destruct (ft_remove ft) eqn:E; [|rewrite cleanup_tmp by done; auto].
  unfold cleanup, faulty. rewrite E. eauto 10.
Qed.

Lemma rename_tmp d m :
  Rename (<[tmp := FFile d m]> f1) tmp dst = Ret (<[dst := FFile d m]> (delete tmp f1)).
Proof.
  unfold Rename. rewrite Stat_tmp, delete_insert_eq.
  assert (tmp ≠ dst) as Hne.
  { unfold tmp, dst. intros E%app_inv_head. injection E as E. symmetry in E. by apply sfx_not_tmp in E. }
  rewrite lookup_insert_ne by done.
  destruct (f1 !! dst) as [[d' m'|m']|] eqn:E; [done| |done].
  by apply (wf_chunk _ _ (wf_with_dir _ _ _ Hw Hl)) in E.
Qed.

Lemma Put_cases : put_effect (Put f s c ft).1 (Put f s c ft).2.
Proof.
  unfold Put, HashHex. fold h. pose proof (Stat_chunk f s h Hw Hl) as Hs.
  rewrite Dir_long, tmpPath_long by done.
  destruct (decide unseen) as [Hu|Hu].
  2:{ destruct (view f s h) as [d|] eqn:Hv; [|by destruct Hu; left]. destruct Hs as (m & _ & ->).
      assert (ft_stat ft = false) as E0 by (destruct (ft_stat ft) eqn:E0; [by destruct Hu; right|done]).
      rewrite E0. by eapply put_dup. }
  assert (∃ e, faulty (ft_stat ft) (Stat f (chunkPath s (hex_encode h))) = Err e) as [e0 ->].
  { destruct Hu as [Hu| ->]; [|by eexists]. rewrite Hu in Hs. destruct Hs as [_ ->]. by destruct (ft_stat ft); eexists. }
  rewrite mkdir_chunk, chunkPath_long by done. fold f1 dst tmp.
  unfold faulty. destruct (ft_mkdir ft) eqn:E1.
  { apply put_failed; [done|intros ->; done|auto]. }
  destruct (ft_open ft) eqn:E2.
  { apply put_failed; [done|intros ->; done|auto]. }
  destruct open_tmp as [m ->]. destruct (bufio_tmp m) as (d & e & -> & He). cbn [fst snd].
  destruct e as [e|].
  { apply cleanup_effect; [done|]. intros ->. done. }
  subst d. destruct (ft_close ft) eqn:E3.
  { apply cleanup_effect; [done|]. intros ->. done. }
  destruct (ft_rename ft) eqn:E4.
  { apply cleanup_effect; [done|]. intros ->. done. }
  rewrite rename_tmp. by apply put_new.
Qed.
End put.

(** ** Consequences *)
Lemma dst_neq_dir s h k x : bs_baseDir s ++ [pfx h; x] ≠ bs_baseDir s ++ [pfx k].
Proof. path_neq. Qed.

Lemma view_insert_tmp f s h k d m :
  long_hash k → view (<[bs_baseDir s ++ [pfx h; sfx h ++ tmp_ext] := FFile d m]> f) s k = view f s k.
Proof.
  intros Hk. unfold view. rewrite chunkPath_long by done. rewrite lookup_insert_ne; [done|].
  intros E%app_inv_head. injection E as E1 E2. symmetry in E2. by apply sfx_not_tmp in E2.
Qed.

Lemma view_delete_tmp f s h k :
  long_hash k → view (delete (bs_baseDir s ++ [pfx h; sfx h ++ tmp_ext]) f) s k = view f s k.
Proof.
  intros Hk. unfold view. rewrite chunkPath_long by done. rewrite lookup_delete_ne; [done|].
  intros E%app_inv_head. injection E as E1 E2. symmetry in E2. by apply sfx_not_tmp in E2.
Qed.

Lemma view_with_dir f s h k : long_hash k → view (with_dir f s h) s k = view f s k.
Proof.
  intros Hk. unfold view. rewrite chunkPath_long by done. by rewrite with_dir_other by apply dst_neq_dir.
Qed.

Lemma view_insert_dst f s h k d m :
  long_hash h → long_hash k →
  view (<[bs_baseDir s ++ [pfx h; sfx h] := FFile d m]> f) s k = if decide (k = h) then Some d else view f s k.
Proof.
  intros Hh Hk. unfold view. case_decide as E.
  - subst k. rewrite chunkPath_long by done. by rewrite lookup_insert_eq.
  - rewrite <- chunkPath_long by done. rewrite lookup_insert_ne; [done|].
    intros E'%chunkPath_inj; by subst.
Qed.

#[export] Hint Rewrite view_insert_tmp view_delete_tmp view_with_dir using done : bytes_db.

(** The state and the content a [Put] leaves. *)
Lemma put_effect_spec f s c ft f' r :
  store_wf f s → long_hash (ch_Hash c) → put_effect f s c ft f' r →
  store_wf f' s ∧
  (∀ k, long_hash k → view f' s k =
     if decide (k = ch_Hash c ∧ r = Ret true) then Some (ch_Data c) else view f s k) ∧
  match r with
  | Ret false => is_Some (view f s (ch_Hash c)) ∧ ft_stat ft = false
  | Ret true | Err _ => view f s (ch_Hash c) = None ∨ ft_stat ft = true
  | Panic => False
  end.
Proof.
  intros Hw Hl [d Hv Hst|f0 e Hv Hne Hf|m Hv].
  - split_and!; [done| |by rewrite Hv|done]. intros k Hk. by rewrite decide_False by (intros [??]; congruence).
  - split_and!; [|intros k Hk; rewrite decide_False by (intros [??]; congruence)|done].
    + destruct Hf as [->|[->|[->|(_ & d & m & ->)]]]; [done|by apply wf_with_dir|..].
      * by apply wf_delete_file, wf_with_dir.
      * by apply wf_insert_file, wf_with_dir.
    + destruct Hf as [->|[->|[->|(_ & d & m & ->)]]]; by autorewrite with bytes_db.
  - split_and!; [by apply wf_insert_file, wf_delete_file, wf_with_dir| |done].
    intros k Hk. rewrite view_insert_dst by done. autorewrite with bytes_db.
    case_decide as E1; case_decide as E2; try done; [by destruct E2|by destruct E2 as [-> _]].
Qed.

Lemma Put_spec f s c ft :
  store_wf f s → long_hash (ch_Hash c) →
  let f' := (Put f s c ft).1 in let r := (Put f s c ft).2 in
  store_wf f' s ∧
  (∀ k, long_hash k → view f' s k =
     if decide (k = ch_Hash c ∧ r = Ret true) then Some (ch_Data c) else view f s k) ∧
  match r with
  | Ret false => is_Some (view f s (ch_Hash c)) ∧ ft_stat ft = false
  | Ret true | Err _ => view f s (ch_Hash c) = None ∨ ft_stat ft = true
  | Panic => False
  end.
Proof. intros Hw Hl. eapply put_effect_spec; [done..|]. by apply Put_cases. Qed.

(** When the first check works, [Put] knows whether the chunk was there. *)
Lemma Put_seen f s c ft :
  store_wf f s → long_hash (ch_Hash c) → ft_stat ft = false →
  match (Put f s c ft).2 with
  | Ret isNew => isNew = bool_decide (view f s (ch_Hash c) = None)
  | Err _ => view f s (ch_Hash c) = None
  | Panic => False
  end.
Proof.
  intros Hw Hl Hst. pose proof (Put_spec f s c ft Hw Hl) as (_ & _ & Hr). rewrite Hst in Hr.
  destruct (Put f s c ft).2 as [[]|e|]; [|destruct Hr as [[d ->] _]|..].
  - destruct Hr as [->|?]; [|done]. by rewrite bool_decide_eq_true_2.
  - by rewrite bool_decide_eq_false_2.
  - by destruct Hr.
  - done.
Qed.

Lemma Put_reliable f s c :
  store_wf f s → long_hash (ch_Hash c) →
  (Put f s c no_faults).2 = Ret (bool_decide (view f s (ch_Hash c) = None)).
Proof.
  intros Hw Hl. pose proof (Put_seen f s c no_faults Hw Hl eq_refl) as Hr.
  destruct (Put_cases f s c no_faults Hw Hl); [by rewrite Hr|done|by rewrite Hr].
Qed.

Lemma Has_io_spec fault f s h :
  store_wf f s → long_hash h → Has_io fault f s h = negb fault && bool_decide (is_Some (view f s h)).
Proof.
  intros Hw Hl. unfold Has_io. destruct fault; [done|]. pose proof (Stat_chunk f s h Hw Hl) as Hs.
  destruct (view f s h) as [c|].
  - destruct Hs as (m & _ & ->). done.
  - destruct Hs as [_ ->]. done.
Qed.

Lemma Has_spec f s h :
  store_wf f s → long_hash h → Has f s h = bool_decide (is_Some (view f s h)).
Proof. apply (Has_io_spec false). Qed.

Lemma open_chunk_spec fault f s h :
  store_wf f s → long_hash h →
  match open_chunk fault f (chunkPath s (hex_encode h)) (hex_encode h) with
  | Ret n => fault = false ∧ ∃ d m, view f s h = Some d ∧ n = FFile d m
  | Err e => if fault then e = OpeningFile EIO else view f s h = None ∧ e = ChunkNotFound (hex_encode h)
  | Panic => False
  end.
Proof.
  intros Hw Hl. unfold open_chunk. destruct fault; [done|]. pose proof (Stat_chunk f s h Hw Hl) as Hs.
  destruct (view f s h) as [c|].
  - destruct Hs as (m & _ & ->). cbn. eauto.
  - destruct Hs as [_ ->]. done.
Qed.

Lemma Get_io_spec rf f s h :
  store_wf f s → long_hash h →
  Get_io rf f s h =
    if rf_open rf then Err (OpeningFile EIO)
    else match view f s h with
         | None => Err (ChunkNotFound (hex_encode h))
         | Some d => if rf_stat rf then Err (GettingStats EIO)
                     else if rf_read rf then Err (ReadingData EIO)
                     else Ret (mkChunk h (u32 (Z.of_nat (length d))) d)
         end.
Proof.
  intros Hw Hl. unfold Get_io. pose proof (open_chunk_spec (rf_open rf) f s h Hw Hl) as Ho.
  destruct (open_chunk _ _ _ _) as [n|e|]; [|destruct (rf_open rf); [by subst|by destruct Ho as [-> ->]]|done].
  destruct Ho as (-> & d & m & -> & ->). cbn. destruct (rf_stat rf); [done|]. by destruct (rf_read rf).
Qed.

Lemma Get_spec f s h :
  store_wf f s → long_hash h →
  Get f s h = match view f s h with
              | Some d => Ret (mkChunk h (u32 (Z.of_nat (length d))) d)
              | None => Err (ChunkNotFound (hex_encode h))
              end.
Proof. apply (Get_io_spec no_read_faults). Qed.

Lemma Verify_io_spec `{HashFn} rf f s h :
  store_wf f s → long_hash h →
  Verify_io rf f s h =
    if rf_open rf then Err (OpeningFile EIO)
    else match view f s h with
         | None => Err (ChunkNotFound (hex_encode h))
         | Some d => if rf_read rf then Err (ReadingData EIO)
                     else if decide (sha256 d = h) then Ret ()
                     else Err (Corruption (hex_encode h) (hex_encode (sha256 d)))
         end.
Proof.
  intros Hw Hl. unfold Verify_io. pose proof (open_chunk_spec (rf_open rf) f s h Hw Hl) as Ho.
  destruct (open_chunk _ _ _ _) as [n|e|]; [|destruct (rf_open rf); [by subst|by destruct Ho as [-> ->]]|done].
  destruct Ho as (-> & d & m & -> & ->). cbn. by destruct (rf_read rf).
Qed.

Lemma Verify_spec `{HashFn} f s h :
  store_wf f s → long_hash h →
  Verify f s h = match view f s h with
                 | Some d => if decide (sha256 d = h) then Ret ()
                             else Err (Corruption (hex_encode h) (hex_encode (sha256 d)))
                 | None => Err (ChunkNotFound (hex_encode h))
                 end.
Proof.
  intros Hw Hl. rewrite (Verify_io_spec no_read_faults f s h Hw Hl : Verify f s h = _). by destruct (view f s h).
Qed.

Lemma Delete_fault f s h : Delete_io true f s h = (f, Err (DeletingChunk EIO)).
Proof. done. Qed.

Lemma Delete_spec f s h :
  store_wf f s → long_hash h →
  (Delete f s h).2 = Ret () ∧ store_wf (Delete f s h).1 s ∧
  ∀ k, long_hash k → view (Delete f s h).1 s k = if decide (k = h) then None else view f s k.
Proof.
  intros Hw Hl. unfold Delete, Delete_io, faulty, Remove. pose proof (Stat_chunk f s h Hw Hl) as Hs.
  destruct (view f s h) as [c|] eqn:Hv.
  - destruct Hs as (m & _ & ->). rewrite chunkPath_long by done. cbn [fst snd].
    split_and!; [done|by apply wf_delete_file|]. intros k Hk.
    unfold view. rewrite (chunkPath_long s k) by done. rewrite lookup_delete.
    destruct (decide (k = h)) as [->|Hne]; [by rewrite decide_True|].
    rewrite decide_False; [done|]. rewrite <- !chunkPath_long by done.
    intros E%chunkPath_inj; by subst.
  - destruct Hs as [_ ->]. cbn. split_and!; [done..|]. intros k Hk.
    case_decide as E; [by rewrite E|done].
Qed.

(** The faults of a [Put] whose first check works. *)
Definition seen (ft : faults) : faults :=
  Faults false (ft_mkdir ft) (ft_open ft) (ft_write ft) (ft_close ft) (ft_rename ft) (ft_remove ft).

(** The on-disk store implements the interface; each [Put] consumes one fault
    record of an arbitrary sequence. The interface promises that a chunk that is
    there is reported and left alone, which is true as long as the check whether
    it is there does not fail: reads and this check work in the instance, every
    other system call may fail. *)
#[global, program] Instance blob_chunk_store (s : BlobStore) : ChunkStore (fs * list faults) store_error := {|
  cs_wf st := store_wf st.1 s;
  cs_view st h := view st.1 s h;
  cs_has st h := Has st.1 s h;
  cs_get st h := Get st.1 s h;
  cs_put st c :=
    let '(f', r) := Put st.1 s c (seen (default no_faults (head st.2))) in ((f', tail st.2), r);
|}.
Next Obligation. intros s [f fts] h Hw Hl. by apply Has_spec. Qed.
Next Obligation.
  intros s [f fts] h Hw Hl. simpl in *. rewrite Get_spec by done. destruct (view f s h); eauto.
Qed.
Next Obligation.
  intros s [f fts] c Hw Hl. simpl in *.
  set (ft := seen _). pose proof (Put_spec f s c ft Hw Hl) as (Hw' & Hv & _).
  pose proof (Put_seen f s c ft Hw Hl eq_refl) as Hr. destruct (Put f s c ft) as [f' r]. cbn [fst snd] in *. split_and!; [done|..].
  - intros k Hk Hne. rewrite Hv by done. by rewrite decide_False by (intros [??]; congruence).
  - destruct r as [isNew|e|]; [|rewrite Hv by done; by rewrite decide_False by (intros [??]; congruence)|done].
    split; [done|]. rewrite Hv by done. rewrite Hr.
    destruct (view f s (ch_Hash c)); [by rewrite decide_False by (by intros [_ [=]])|].
    by rewrite decide_True.
Qed.
