(* ===== verification/StoreSpec.v ===== *)
(** * The content-addressed store: theorems

    The store of [BlobStore] against its abstract specification, a finite map
    from hashes to contents, under arbitrary I/O faults; atomicity of [Put];
    the chunk-and-store round trip; corruption detection. *)
From Stdlib Require Import Strings.Byte Strings.String.
From S2P Require Import Prelude Sha256 Fs Chunk ChunkStore BlobStore.

(** ** Sequences of operations *)
Inductive store_op :=
| OPut (c : Chunk) (ft : faults)
| OGet (h : bytes) (rf : read_faults)
| OHas (h : bytes) (fault : bool)
| OVerify (h : bytes) (rf : read_faults)
| ODelete (h : bytes) (fault : bool).

Definition op_hash (op : store_op) : bytes :=
  match op with OPut c _ => ch_Hash c | OGet h _ | OHas h _ | OVerify h _ | ODelete h _ => h end.

Inductive store_res :=
| RPut (r : outcome store_error bool)
| RGet (r : outcome store_error Chunk)
| RHas (b : bool)
| RVerify (r : outcome store_error unit)
| RDelete (r : outcome store_error unit).

Section spec.
Context `{HashFn}.

Definition run_op (f : fs) (s : BlobStore) (op : store_op) : fs * store_res :=
  match op with
  | OPut c ft => let '(f', r) := Put f s c ft in (f', RPut r)
  | OGet h rf => (f, RGet (Get_io rf f s h))
  | OHas h fault => (f, RHas (Has_io fault f s h))
  | OVerify h rf => (f, RVerify (Verify_io rf f s h))
  | ODelete h fault => let '(f', r) := Delete_io fault f s h in (f', RDelete r)
  end.

Fixpoint run_ops (f : fs) (s : BlobStore) (ops : list store_op) : fs * list store_res :=
  match ops with
  | [] => (f, [])
  | op :: ops' =>
      let '(f', r) := run_op f s op in
      let '(f'', rs) := run_ops f' s ops' in (f'', r :: rs)
  end.

(** What a failing system call of a read is reported as. *)
Inductive read_failure (rf : read_faults) : store_error → Prop :=
| fail_open : rf_open rf = true → read_failure rf (OpeningFile EIO)
| fail_stat : rf_stat rf = true → read_failure rf (GettingStats EIO)
| fail_read : rf_read rf = true → read_failure rf (ReadingData EIO).

(** The specification: a map from hashes to contents. *)
Inductive abs_step (m : gmap bytes bytes) : store_op → store_res → gmap bytes bytes → Prop :=
| abs_put_dup c ft d :
    m !! ch_Hash c = Some d → ft_stat ft = false → abs_step m (OPut c ft) (RPut (Ret false)) m
| abs_put_new c ft :
    m !! ch_Hash c = None ∨ ft_stat ft = true →
    abs_step m (OPut c ft) (RPut (Ret true)) (<[ch_Hash c := ch_Data c]> m)
| abs_put_fail c ft e :
    m !! ch_Hash c = None ∨ ft_stat ft = true → ft ≠ no_faults → abs_step m (OPut c ft) (RPut (Err e)) m
| abs_get_hit h rf d :
    m !! h = Some d → rf = no_read_faults →
    abs_step m (OGet h rf) (RGet (Ret (mkChunk h (u32 (Z.of_nat (length d))) d))) m
| abs_get_miss h rf :
    m !! h = None → rf_open rf = false → abs_step m (OGet h rf) (RGet (Err (ChunkNotFound (hex_encode h)))) m
| abs_get_fail h rf e : read_failure rf e → abs_step m (OGet h rf) (RGet (Err e)) m
| abs_has h fault : abs_step m (OHas h fault) (RHas (negb fault && bool_decide (is_Some (m !! h)))) m
| abs_verify_ok h rf d :
    m !! h = Some d → sha256 d = h → rf_open rf = false → rf_read rf = false →
    abs_step m (OVerify h rf) (RVerify (Ret ())) m
| abs_verify_bad h rf d :
    m !! h = Some d → sha256 d ≠ h → rf_open rf = false → rf_read rf = false →
    abs_step m (OVerify h rf) (RVerify (Err (Corruption (hex_encode h) (hex_encode (sha256 d))))) m
| abs_verify_miss h rf :
    m !! h = None → rf_open rf = false → abs_step m (OVerify h rf) (RVerify (Err (ChunkNotFound (hex_encode h)))) m
| abs_verify_fail h rf e : read_failure rf e → abs_step m (OVerify h rf) (RVerify (Err e)) m
| abs_delete h : abs_step m (ODelete h false) (RDelete (Ret ())) (delete h m)
| abs_delete_fail h : abs_step m (ODelete h true) (RDelete (Err (DeletingChunk EIO))) m.

Inductive abs_run : gmap bytes bytes → list store_op → list store_res → gmap bytes bytes → Prop :=
| abs_run_nil m : abs_run m [] [] m
| abs_run_cons m op r m' ops rs m'' :
    abs_step m op r m' → abs_run m' ops rs m'' → abs_run m (op :: ops) (r :: rs) m''.

(** The simulation relation. *)
Definition sim (f : fs) (s : BlobStore) (m : gmap bytes bytes) : Prop :=
  store_wf f s ∧ ∀ h, long_hash h → view f s h = m !! h.

Lemma sim_put f s m c ft :
  sim f s m → long_hash (ch_Hash c) →
  ∃ m', abs_step m (OPut c ft) (RPut (Put f s c ft).2) m' ∧ sim (Put f s c ft).1 s m'.
Proof.
  intros [Hw Hm] Hl. pose proof (Put_spec f s c ft Hw Hl) as (Hw' & Hv & Hr).
  pose proof (Put_cases f s c ft Hw Hl) as Hc.
  destruct (Put f s c ft) as [f' r]. cbn [fst snd] in *.
  inversion Hc as [d Hv0 Hst|f0 e Hv0 Hne _|m0 Hv0]; subst; unfold unseen in Hv0; rewrite Hm in Hv0 by done;
    eexists; (split; [by econstructor|split; [done|]]); intros k Hk; rewrite Hv by done.
  - rewrite decide_False by (by intros [_ [=]]). by apply Hm.
  - rewrite decide_False by (by intros [_ [=]]). by apply Hm.
  - rewrite lookup_insert. destruct (decide (k = ch_Hash c)) as [->|Hne].
    + by rewrite !decide_True.
    + rewrite decide_False by (by intros [? _]). rewrite decide_False by done. by apply Hm.
Qed.

Lemma sim_step f s m op :
  sim f s m → long_hash (op_hash op) →
  ∃ m', abs_step m op (run_op f s op).2 m' ∧ sim (run_op f s op).1 s m'.
Proof.
  intros Hsim Hl. destruct op as [c ft|h rf|h fault|h rf|h fault]; simpl in Hl; unfold run_op.
  { pose proof (sim_put f s m c ft Hsim Hl) as Hp. by destruct (Put f s c ft) as [f' r]. }
  all: destruct Hsim as [Hw Hm].
  - rewrite Get_io_spec, (Hm _ Hl) by done. destruct rf as [[] st rd]; cbn [rf_open rf_stat rf_read];
      [eexists; split; [by apply abs_get_fail, fail_open|done]|].
    destruct (m !! h) eqn:E; [|eexists; split; [by apply abs_get_miss|done]].
    destruct st; [eexists; split; [by apply abs_get_fail, fail_stat|done]|].
    destruct rd; [eexists; split; [by apply abs_get_fail, fail_read|done]|].
    eexists; split; [by econstructor|done].
  - rewrite Has_io_spec, (Hm _ Hl) by done. eexists; (split; [by econstructor|done]).
  - rewrite Verify_io_spec, (Hm _ Hl) by done. destruct rf as [[] st rd]; cbn [rf_open rf_stat rf_read];
      [eexists; split; [by apply abs_verify_fail, fail_open|done]|].
    destruct (m !! h) eqn:E; [|eexists; split; [by apply abs_verify_miss|done]].
    destruct rd; [eexists; split; [by apply abs_verify_fail, fail_read|done]|].
    case_decide; eexists; (split; [by econstructor|done]).
  - destruct fault; [rewrite Delete_fault; eexists; split; [by econstructor|done]|].
    pose proof (Delete_spec f s h Hw Hl) as (Hr & Hw' & Hv). unfold Delete in *.
    destruct (Delete_io false f s h) as [f' r]. cbn [fst snd] in *. subst r.
    eexists. split; [by econstructor|]. split; [done|]. intros k Hk. rewrite Hv by done.
    rewrite lookup_delete. case_decide as E1; case_decide as E2; try congruence. by apply Hm.
Qed.

Lemma sim_run f s m ops :
  sim f s m → Forall (λ op, long_hash (op_hash op)) ops →
  ∃ m', abs_run m ops (run_ops f s ops).2 m' ∧ sim (run_ops f s ops).1 s m'.
Proof.
  intros Hs Hl. revert f m Hs. induction Hl as [|op ops Hop Hl IH]; intros f m Hs.
  { exists m. split; [constructor|done]. }
  destruct (sim_step f s m op Hs Hop) as (m' & H1 & H2). cbn [run_ops].
  destruct (run_op f s op) as [f' r]. cbn [fst snd] in *.
  destruct (IH f' m' H2) as (m'' & H3 & H4). destruct (run_ops f' s ops) as [f'' rs].
  exists m''. split; [by econstructor|done].
Qed.

(** ** A new store is empty *)
Definition nothing_below (f : fs) (p : path) : Prop :=
  ∀ q, p `prefix_of` q → p ≠ q → f !! q = None.

Lemma NewBlobStore_sim f cwd dir f' s :
  NewBlobStore f cwd dir = (f', Ret s) → nothing_below f (bs_baseDir s) → sim f' s ∅.
Proof.
  unfold NewBlobStore. set (d := if decide (dir = []) then _ else dir).
  destruct (MkdirAll f (resolve cwd d) DirPermissions) as [f1| |] eqn:E; [|done..].
  intros [= -> <-] Hn. simpl in Hn. apply mkdir_all_post in E as (H1 & H2 & H3).
  assert (∀ x, x ≠ [] → f' !! (resolve cwd d ++ x) = None) as Hb.
  { intros x Hx. rewrite H2.
    - apply Hn; [by eexists|]. intros E%(f_equal length). rewrite length_app in E.
      destruct x; [done|simpl in E; lia].
    - intros q Hq%prefix_length E%(f_equal length). rewrite length_app in E.
      destruct x; [done|simpl in *; lia]. }
  split; [split|]; simpl.
  - exact H1.
  - intros h c m _. by rewrite Hb.
  - intros h m _. by rewrite Hb.
  - intros h m _. by rewrite Hb.
  - intros h Hl. unfold view. rewrite chunkPath_long by done. simpl. by rewrite Hb, lookup_empty.
Qed.

(** C3: From a freshly created store, every sequence of Put, Get, Has, Verify
    and Delete on hashes of two bytes or more, with a fault injected into any of
    their system calls, returns exactly the results of a finite map from hashes
    to contents. Put inserts once and reports whether the chunk was new; when it
    cannot find out whether the chunk is there, it binds the hash to the new
    data and reports it as new, or fails; a failed Put leaves the map unchanged
    and only happens under a fault. Get, Has and Verify read the map, and Verify
    compares the content's SHA-256 with the hash; a failing open, stat or read is
    reported as that error, and Has then denies that the chunk is there. Delete
    is idempotent, and a failing one leaves the map unchanged. *)
Theorem store_refines_map (f : fs) (cwd : path) (dir : bytes) (f' : fs) (s : BlobStore)
    (ops : list store_op) :
  NewBlobStore f cwd dir = (f', Ret s) → nothing_below f (bs_baseDir s) →
  Forall (λ op, long_hash (op_hash op)) ops →
  ∃ m', abs_run ∅ ops (run_ops f' s ops).2 m' ∧
        ∀ h, long_hash h → view (run_ops f' s ops).1 s h = m' !! h.
Proof.
  intros HN Hb Hl. destruct (sim_run f' s ∅ ops) as (m' & H1 & _ & H2); [|done|eauto].
  by eapply NewBlobStore_sim.
Qed.

Lemma absent_view f s h :
  store_wf f s → long_hash h → f !! chunkPath s (hex_encode h) = None ↔ view f s h = None.
Proof.
  intros Hw Hl. pose proof (Stat_chunk f s h Hw Hl) as Hs. destruct (view f s h) as [d|].
  - destruct Hs as (m & -> & _). done.
  - destruct Hs as [-> _]. done.
Qed.

(** A Put without faults. *)
Lemma retry_result f s c :
  store_wf f s → long_hash (ch_Hash c) →
  (Put f s c no_faults).2 = Ret (bool_decide (view f s (ch_Hash c) = None)) ∧
  view (Put f s c no_faults).1 s (ch_Hash c) = Some (default (ch_Data c) (view f s (ch_Hash c))).
Proof.
  intros Hw Hl. pose proof (Put_reliable f s c Hw Hl) as Hr. split; [done|].
  pose proof (Put_spec f s c no_faults Hw Hl) as (_ & Hv & _). rewrite Hv, Hr by done.
  destruct (view f s (ch_Hash c)); [by rewrite decide_False by (by intros [_ [=]])|by rewrite decide_True].
Qed.

(** C21: Put is atomic under every combination of failing system calls, the
    check whether the chunk exists included. Only the chunk's directory, its
    temporary file and its final path can change. Either the chunk was there
    and nothing changes; or the final path holds the complete data and no
    temporary file remains; or an error is returned, the final path is as it
    was, a temporary file is left behind only when its removal failed too, and a
    retry without faults on the resulting state succeeds: the final path then
    holds what it held before, or the data if it did not exist. A chunk that is
    there is written again, or an error is returned for it, only when the check
    itself failed. Put never panics. *)
Theorem Put_atomic (f : fs) (s : BlobStore) (c : Chunk) (ft : faults) :
  store_wf f s → long_hash (ch_Hash c) →
  let h := ch_Hash c in
  let dir := bs_baseDir s ++ [pfx h] in
  let dst := chunkPath s (HashHex c) in
  let '(f', r) := Put f s c ft in
  (∀ q, q ≠ dir → q ≠ dst → q ≠ tmpPath dst → f' !! q = f !! q) ∧
  match r with
  | Ret false => f' = f ∧ is_Some (f !! dst) ∧ ft_stat ft = false
  | Ret true =>
      (f !! dst = None ∨ ft_stat ft = true) ∧
      f' !! tmpPath dst = None ∧ ∃ m, f' !! dst = Some (FFile (ch_Data c) m)
  | Err _ =>
      (f !! dst = None ∨ ft_stat ft = true) ∧ f' !! dst = f !! dst ∧
      (ft_remove ft = false → f' !! tmpPath dst = None ∨ f' !! tmpPath dst = f !! tmpPath dst) ∧
      (Put f' s c no_faults).2 = Ret (bool_decide (f !! dst = None)) ∧
      view (Put f' s c no_faults).1 s h = Some (default (ch_Data c) (view f s h))
  | Panic => False
  end.
Proof.
  intros Hw Hl h dir dst. pose proof (Put_cases f s c ft Hw Hl) as Hc.
  unfold dst, HashHex in *. fold h. rewrite tmpPath_long by done.
  pose proof (absent_view f s h Hw Hl) as Habs.
  assert (bs_baseDir s ++ [pfx h; sfx h ++ tmp_ext] ≠ bs_baseDir s ++ [pfx h; sfx h]) as Hne.
  { intros E%app_inv_head. injection E as E. symmetry in E. by apply sfx_not_tmp in E. }
  pose proof (Put_spec f s c ft Hw Hl) as (Hw' & Hv & _).
  destruct (Put f s c ft) as [f' r]. cbn [fst snd] in *.
  inversion Hc as [d Hv0 Hst|f0 e Hv0 Hft Hf|m Hv0]; subst; try unfold unseen in Hv0; fold h in Hv0; fold h in Habs.
  - split; [done|]. split_and!; [done| |done]. apply not_eq_None_Some. rewrite Habs. by rewrite Hv0.
  - rewrite <- Habs in Hv0. rewrite chunkPath_long in * by done.
    assert (f' !! (bs_baseDir s ++ [pfx h; sfx h]) = f !! (bs_baseDir s ++ [pfx h; sfx h])) as Hdst.
    { destruct Hf as [->|[->|[->|(_ & d & m & ->)]]]; rewrite ?lookup_delete_ne, ?lookup_insert_ne by done;
        [done|by apply with_dir_other, dst_neq_dir..]. }
    assert (view f' s h = view f s h) as Hv' by (rewrite Hv, decide_False by (try done; by intros [_ [=]]); done).
    pose proof (retry_result f' s c Hw' Hl) as [Hr Hr2]. fold h in Hr, Hr2. rewrite Hv' in Hr, Hr2.
    split; [|split_and!; [done|done| |by rewrite Hr; f_equal; apply bool_decide_ext; rewrite Habs|done]].
    + intros q H1 H2 H3. destruct Hf as [->|[->|[->|(_ & d & m & ->)]]];
        rewrite ?lookup_delete_ne, ?lookup_insert_ne by done; [done|by apply with_dir_other..].
    + intros Hrm. destruct Hf as [->|[->|[->|(Hrm' & _)]]].
      * by right.
      * right. by apply with_dir_other, dst_neq_dir.
      * left. apply lookup_delete_eq.
      * congruence.
  - rewrite <- Habs in Hv0. rewrite chunkPath_long in * by done. split; [|split_and!; [done|..]].
    + intros q H1 H2 H3. rewrite lookup_insert_ne, lookup_delete_ne by done. by apply with_dir_other.
    + rewrite lookup_insert_ne by done. apply lookup_delete_eq.
    + exists m. apply lookup_insert_eq.
Qed.

(** ** Storing a stream *)

(** Every stored content is filed under its own hash. *)
Definition content_addressed (f : fs) (s : BlobStore) : Prop :=
  ∀ h d, long_hash h → view f s h = Some d → sha256 d = h.

Lemma sha256_long m : long_hash (sha256 m).
Proof. unfold long_hash. rewrite sha256_length. lia. Qed.

Lemma Next_Ret r c r' : Next r = (Ret c, r') → ∃ d, c = make_chunk d.
Proof.
  unfold Next. destruct (ReadFull ChunkSize r) as [[buf st] r1].
  destruct st; try case_decide; intros [= <- <-]; eauto.
Qed.

(** What was stored is still there. Its content can only have been replaced by
    other data with the same SHA-256, and by nothing when [reliable] holds. *)
Definition preserved (reliable : Prop) (s : BlobStore) (f f' : fs) : Prop :=
  ∀ h x, long_hash h → view f s h = Some x →
    ∃ y, view f' s h = Some y ∧ sha256 y = sha256 x ∧ (reliable → y = x).

Lemma preserved_refl R s f : preserved R s f f.
Proof. intros h x _ Hx. by exists x. Qed.

Lemma preserved_trans R s f1 f2 f3 : preserved R s f1 f2 → preserved R s f2 f3 → preserved R s f1 f3.
Proof.
  intros H1 H2 h x Hh Hx. destruct (H1 h x Hh Hx) as (y & Hy & Ey & Ry).
  destruct (H2 h y Hh Hy) as (z & Hz & Ez & Rz). exists z. split_and!; [done|congruence|].
  intros Hr. by rewrite Rz, Ry.
Qed.

Lemma preserved_mono (R R' : Prop) s f f' : (R' → R) → preserved R s f f' → preserved R' s f f'.
Proof. intros HR Hp h x Hh Hx. destruct (Hp h x Hh Hx) as (y & ? & ? & ?). exists y. auto. Qed.

(** The check of every Put works. *)
Definition stats_work (fts : list faults) : Prop := Forall (λ ft, ft_stat ft = false) fts.

Lemma stats_work_head fts : stats_work fts → ft_stat (default no_faults (head fts)) = false.
Proof. by intros []. Qed.

Lemma stats_work_tail fts : stats_work fts → stats_work (tail fts).
Proof. unfold stats_work. by intros []; simpl. Qed.

Lemma Put_make_chunk f s d ft :
  store_wf f s → content_addressed f s →
  let f' := (Put f s (make_chunk d) ft).1 in
  store_wf f' s ∧ content_addressed f' s ∧
  preserved (ft_stat ft = false) s f f' ∧
  (∀ h x, long_hash h → view f' s h = Some x → view f s h = Some x ∨ x = d).
Proof.
  intros Hw Hca. pose proof (Put_spec f s (make_chunk d) ft Hw (sha256_long d)) as (Hw' & Hv & Hr).
  change (ch_Hash (make_chunk d)) with (sha256 d) in *. change (ch_Data (make_chunk d)) with d in *.
  destruct (Put f s (make_chunk d) ft) as [f' r]. cbn [fst snd] in *. split_and!; [done|..].
  - intros h x Hh. rewrite Hv by done.
    destruct (decide (h = sha256 d ∧ r = Ret true)) as [[-> E]|E]; [by intros [= <-]|by apply Hca].
  - intros h x Hh Hx. rewrite Hv by done.
    destruct (decide (h = sha256 d ∧ r = Ret true)) as [[-> ->]|E]; [|by exists x].
    exists d. split_and!; [done|by rewrite (Hca _ _ Hh Hx)|]. intros Hst. rewrite Hx, Hst in Hr. by destruct Hr.
  - intros h x Hh. rewrite Hv by done.
    destruct (decide (h = sha256 d ∧ r = Ret true)) as [[-> ->]|E]; [intros [= <-]|]; auto.
Qed.

Lemma store_loop_inv fuel f s r fts acc :
  store_wf f s → content_addressed f s →
  let f' := (store_loop fuel f s r fts acc).1 in
  store_wf f' s ∧ content_addressed f' s ∧ preserved (stats_work fts) s f f'.
Proof.
  revert f r fts acc. induction fuel as [|fuel IH]; intros f r fts acc Hw Hca;
    [split_and!; [done..|apply preserved_refl]|].
  cbn [store_loop]. destruct (Next r) as [[c|[|e]|] r'] eqn:HN; try (split_and!; [done..|apply preserved_refl]).
  apply Next_Ret in HN as [d ->].
  pose proof (Put_make_chunk f s d (default no_faults (head fts)) Hw Hca) as (H1 & H2 & H3 & _).
  apply (preserved_mono _ (stats_work fts)) in H3; [|apply stats_work_head].
  destruct (Put f s (make_chunk d) _) as [f1 [b|e|]]; cbn [fst] in *; [|done..].
  destruct (IH f1 r' (tail fts) (acc ++ [mkChunk (ch_Hash (make_chunk d)) (ch_Size (make_chunk d)) []]) H1 H2)
    as (H4 & H5 & H6).
  split_and!; [done..|]. eapply preserved_trans; [exact H3|].
  by eapply preserved_mono, H6; apply stats_work_tail.
Qed.

(** No chunk of [xs] collides with a different stored content. *)
Definition fresh_for (f : fs) (s : BlobStore) (xs : list bytes) : Prop :=
  ∀ x h d, x ∈ xs → long_hash h → view f s h = Some d → sha256 x = sha256 d → x = d.

Definition stored_form (d : bytes) : Chunk := mkChunk (sha256 d) (u32 (Z.of_nat (length d))) [].

Lemma store_loop_ok fuel f s l acc all :
  length l < fuel → store_wf f s → content_addressed f s →
  fresh_for f s all → collision_free all all → chunks_of ChunkSize l ⊆ all →
  let '(f', r) := store_loop fuel f s (stream_of l) [] acc in
  r = Ret (acc ++ (stored_form <$> chunks_of ChunkSize l)) ∧
  ∀ d, d ∈ chunks_of ChunkSize l → view f' s (sha256 d) = Some d.
Proof.
  revert f l acc. induction fuel as [|fuel IH]; intros f l acc Hf Hw Hca Hfr Hcf Hall; [lia|].
  cbn [store_loop]. destruct (decide (l = [])) as [->|Hl].
  { unfold stream_of. rewrite Next_end, chunks_of_nil. split; [by rewrite app_nil_r|].
    intros d Hd. by apply not_elem_of_nil in Hd. }
  pose proof ChunkSize_pos. assert (length l ≠ 0) by by destruct l.
  unfold stream_of. rewrite Next_step by auto. cbn [head default].
  change (Stream ?x None) with (stream_of x). set (d := take ChunkSize l) in *.
  rewrite chunks_of_cons in Hall by done. fold d in Hall.
  pose proof (Put_make_chunk f s d no_faults Hw Hca) as (P1 & P2 & P3 & P4).
  pose proof (Put_reliable f s (make_chunk d) Hw (sha256_long d)) as P5.
  pose proof (Put_spec f s (make_chunk d) no_faults Hw (sha256_long d)) as (_ & P6 & _).
  specialize (P6 _ (sha256_long d)). change (ch_Hash (make_chunk d)) with (sha256 d) in *.
  destruct (Put f s (make_chunk d) no_faults) as [f1 r1]. cbn [fst snd] in *. subst r1.
  assert (view f1 s (sha256 d) = Some d) as Hd.
  { rewrite P6. destruct (view f s (sha256 d)) as [x|] eqn:E; [|by rewrite decide_True].
    rewrite decide_False by (by intros [_ [=]]). f_equal. symmetry.
    apply (Hfr d (sha256 d)); [apply Hall; left|apply sha256_long|done|].
    by rewrite (Hca _ _ (sha256_long d) E). }
  assert (fresh_for f1 s all) as Hfr1.
  { intros x h y Hx Hh Hy Hxy. destruct (P4 h y Hh Hy) as [Ho| ->]; [by eapply Hfr|].
    apply Hcf; [done|apply Hall; left|done]. }
  pose proof (store_loop_inv fuel f1 s (stream_of (drop ChunkSize l)) []
    (acc ++ [stored_form d]) P1 P2) as (_ & _ & Hk).
  specialize (IH f1 (drop ChunkSize l) (acc ++ [stored_form d])).
  cbn [tail]. change (mkChunk _ _ []) with (stored_form d).
  destruct (store_loop fuel f1 s _ [] _) as [f2 r2].
  destruct IH as [-> IH]; [rewrite length_drop; lia|done..|set_solver|].
  rewrite (chunks_of_cons _ l) by done. fold d. cbn [fmap list_fmap].
  split; [by rewrite <- app_assoc|]. intros x [->|Hx]%elem_of_cons; [|by apply IH].
  destruct (Hk _ _ (sha256_long d) Hd) as (y & Hy & _ & Ey). cbn [fst] in Hy. rewrite Hy. f_equal. by apply Ey; constructor.
Qed.

(** StoreReader on a readable stream returns, for every chunk of the
    stream in order, its hash and size without data, and the store afterwards
    gives back each chunk: the contents fetched by these hashes concatenate to
    the stream. Whatever faults are injected, on success or failure, the store
    stays well formed and content-addressed and keeps everything it held; only
    a Put that cannot check for the chunk can replace a content, by one with the
    same SHA-256. *)
Theorem StoreReader_roundtrip (f : fs) (s : BlobStore) (l : bytes) :
  store_wf f s → content_addressed f s →
  fresh_for f s (chunks_of ChunkSize l) →
  collision_free (chunks_of ChunkSize l) (chunks_of ChunkSize l) →
  (∃ f' cs ds, StoreReader f s (stream_of l) [] = (f', Ret cs) ∧
     Forall2 (λ c d, Get f' s (ch_Hash c) = Ret (mkChunk (ch_Hash c) (ch_Size c) d)) cs ds ∧
     Forall (λ c, ch_Data c = []) cs ∧ concat ds = l) ∧
  (∀ r fts, let f' := (StoreReader f s r fts).1 in
     store_wf f' s ∧ content_addressed f' s ∧ preserved (stats_work fts) s f f').
Proof.
  intros Hw Hca Hfr Hcf. split; [|intros r fts; by apply store_loop_inv].
  pose proof (store_loop_ok (S (length l)) f s l [] _ ltac:(lia) Hw Hca Hfr Hcf ltac:(done)) as Hok.
  pose proof (store_loop_inv (S (length l)) f s (stream_of l) [] [] Hw Hca) as (Hw' & _).
  unfold StoreReader. simpl st_buf.
  destruct (store_loop (S (length l)) f s (stream_of l) [] []) as [f' r]. cbn [fst] in Hw'.
  destruct Hok as [-> Hv]. do 2 eexists. exists (chunks_of ChunkSize l).
  split_and!; [done| | |apply concat_chunks_of, ChunkSize_pos].
  - simpl. apply Forall2_fmap_l, Forall_Forall2_diag, Forall_forall. intros d Hd. simpl.
    rewrite Get_spec by (done || apply sha256_long). by rewrite Hv.
  - by apply Forall_fmap, Forall_true.
Qed.

(** ** Detecting corruption *)
Lemma hex_value_digit n : (0 ≤ n < 16)%Z → hex_value (hex_digit n) = Some n.
Proof.
  intros Hn. assert (n ∈ seqZ 0 16) as Hin by (apply elem_of_seqZ; lia).
  revert Hin. rewrite list_elem_of_In. simpl. intuition (subst; reflexivity).
Qed.

Lemma hex_decode_encode h : hex_decode (hex_encode h) = Some h.
Proof.
  induction h as [|b h IH]; [done|].
  change (hex_encode (b :: h)) with
    (hex_digit (byte_val b / 16) :: hex_digit (byte_val b mod 16) :: hex_encode h).
  pose proof (byte_val_range b) as Hb. cbn [hex_decode].
  rewrite !hex_value_digit by (Z.div_mod_to_equations; lia). rewrite IH. simpl.
  by rewrite <- Z.div_mod, byte_of_val by lia.
Qed.

Lemma rel_app base r : rel base (base ++ r) = Some r.
Proof. induction base as [|b base IH]; simpl; [done|]. by rewrite decide_True. Qed.

Lemma chunk_not_tmp h : has_tmp_ext [pfx h; sfx h] = false.
Proof.
  unfold has_tmp_ext. simpl last. apply bool_decide_eq_false. intros E.
  apply (sfx_not_tmp h (take (length (sfx h) - length tmp_ext) (sfx h))).
  rewrite <- E at 2. by rewrite take_drop.
Qed.

Lemma rel_hash_chunk h : rel_hash [pfx h; sfx h] = hex_encode h.
Proof. unfold rel_hash. simpl. apply take_drop. Qed.

Lemma verify_entry_key f s p n k e :
  verify_entry f s p n = Some (k, e) → ∃ h, hex_decode k = Some h ∧ Verify f s h = Err e.
Proof.
  unfold verify_entry. destruct n; [|done]. destruct (rel _ p) as [r|]; simpl; [|done].
  destruct (has_tmp_ext r); [done|]. destruct (hex_decode (rel_hash r)) as [h|] eqn:E; simpl; [|done].
  destruct (Verify f s h) eqn:E2; [done| |done]. intros [= <- <-]. eauto.
Qed.

Lemma VerifyAll_sound f s k e :
  VerifyAll f s !! k = Some e → ∃ h, hex_decode k = Some h ∧ Verify f s h = Err e.
Proof.
  unfold VerifyAll. intros Hk%elem_of_list_to_map_2. apply list_elem_of_omap in Hk as ([p n] & _ & Hk).
  by apply verify_entry_key in Hk.
Qed.

Lemma VerifyAll_entry f s p n k e :
  f !! p = Some n → verify_entry f s p n = Some (k, e) → VerifyAll f s !! k = Some e.
Proof.
  intros Hp He. unfold VerifyAll. apply elem_of_list_to_map'.
  - intros e' _ He'. apply list_elem_of_omap in He' as ([p' n'] & _ & He').
    apply verify_entry_key in He as (h & H1 & H2), He' as (h' & H3 & H4). congruence.
  - apply list_elem_of_omap. exists (p, n). by rewrite elem_of_map_to_list.
Qed.

(** Corruption detection is exact. For every stored chunk, VerifyAll
    reports it, under the hex form of its hash and with both hashes in the
    error, if and only if the SHA-256 of the file's content differs from the
    hash it is filed under; and every report VerifyAll makes is the error that
    Verify returns for the decoded key. *)
Theorem VerifyAll_exact (f : fs) (s : BlobStore) :
  store_wf f s →
  (∀ h d, long_hash h → view f s h = Some d →
     VerifyAll f s !! hex_encode h =
       if decide (sha256 d = h) then None
       else Some (Corruption (hex_encode h) (hex_encode (sha256 d)))) ∧
  (∀ k e, VerifyAll f s !! k = Some e → ∃ h, hex_decode k = Some h ∧ Verify f s h = Err e).
Proof.
  intros Hw. split; [|apply VerifyAll_sound]. intros h d Hl Hv.
  pose proof (Verify_spec f s h Hw Hl) as HV. rewrite Hv in HV.
  pose proof (Stat_chunk f s h Hw Hl) as Hs. rewrite Hv in Hs. destruct Hs as (m & Hf & _).
  rewrite chunkPath_long in Hf by done. case_decide as E.
  - destruct (VerifyAll f s !! hex_encode h) as [e|] eqn:E2; [|done].
    apply VerifyAll_sound in E2 as (h' & Hd & HV'). rewrite hex_decode_encode in Hd. congruence.
  - eapply VerifyAll_entry; [done|]. unfold verify_entry. rewrite rel_app. simpl.
    rewrite chunk_not_tmp, rel_hash_chunk, hex_decode_encode. simpl. by rewrite HV.
Qed.

(** ** Hashes shorter than two bytes *)
Lemma pfx_head b h : pfx (b :: h) = hex_encode [b].
Proof. done. Qed.

Lemma through_file_at f p c r x m :
  f !! p = Some (FFile x m) → (∀ q, q `prefix_of` p → q ≠ p → ∃ m, f !! q = Some (FDir m)) →
  through_file f [] (p ++ c :: r) = true.
Proof.
  intros Hp Hd. change p with ([] ++ p) in Hp.
  assert (∀ q, q `prefix_of` p → q ≠ p → ∃ m, f !! ([] ++ q) = Some (FDir m)) as Hd' by done.
  clear Hd. revert Hp Hd'. generalize (@nil bytes) as dn. induction p as [|a p IH]; intros dn Hp Hd; simpl.
  - by rewrite app_nil_r in Hp; rewrite Hp.
  - destruct (Hd [] (prefix_nil _) ltac:(done)) as [m' Hm]. rewrite app_nil_r in Hm. rewrite Hm.
    apply IH; [by rewrite <- app_assoc|]. intros q Hq Hne. rewrite <- app_assoc. simpl.
    apply Hd; [by apply prefix_cons|congruence].
Qed.

Lemma mkdir_all_blocked f dn p perm x m :
  f !! (dn ++ p) = Some (FFile x m) → ∃ e, mkdir_all f dn p perm = Err e.
Proof.
  revert f dn. induction p as [|c p IH]; intros f dn Hp; cbn [mkdir_all].
  - rewrite app_nil_r in Hp. rewrite Hp. eauto.
  - destruct (f !! dn) as [[y m'|m']|] eqn:E; [eauto|..]; apply IH; rewrite <- app_assoc; [done|].
    rewrite lookup_insert_ne; [done|]. path_neq.
Qed.

(** All directories down to and including [base] exist. *)
Definition base_ok (f : fs) (base : path) : Prop :=
  ∀ q, q `prefix_of` base → ∃ m, f !! q = Some (FDir m).

Lemma base_ok_insert f base y n : base_ok f base → base_ok (<[base ++ [y] := n]> f) base.
Proof.
  intros Hb q Hq. pose proof (prefix_length _ _ Hq). rewrite lookup_insert_ne by path_neq. by apply Hb.
Qed.

Lemma base_ok_delete f base y : base_ok f base → base_ok (delete (base ++ [y]) f) base.
Proof.
  intros Hb q Hq. pose proof (prefix_length _ _ Hq). rewrite lookup_delete_ne by path_neq. by apply Hb.
Qed.

Lemma base_ok_above f base y : base_ok f base → dirs_above f (base ++ [y]).
Proof. intros Hb q Hq Hne. apply Hb. by eapply prefix_one. Qed.

Lemma chunkPath_short s b : chunkPath s (hex_encode [b]) = bs_baseDir s ++ [hex_encode [b]].
Proof.
  unfold chunkPath. set (x := hex_encode [b]). change (length x) with 2.
  rewrite decide_False by (unfold PrefixLength; lia).
  change (take PrefixLength x) with x. change (drop PrefixLength x) with (@nil byte).
  assert (Join (bs_baseDir s) [x; []] = Join (bs_baseDir s) [x]) as ->
    by (unfold Join; cbn [fmap list_fmap concat]; by rewrite !app_nil_r, foldl_app).
  apply Join_plain, Forall_singleton, digits_plain; [|done]. apply hex_encode_digits.
Qed.

(** The file system after putting a chunk with a one-byte hash. *)
Lemma Put_short f s b sz data :
  let base := bs_baseDir s in let x := hex_encode [b] in
  base_ok f base → f !! (base ++ [x]) = None → f !! (base ++ [x ++ tmp_ext]) = None →
  Put f s (mkChunk [b] sz data) no_faults
  = (<[base ++ [x] := FFile data FilePermissions]>
       (delete (base ++ [x ++ tmp_ext]) (<[base ++ [x ++ tmp_ext] := FFile data FilePermissions]> f)),
     Ret true).
Proof.
  intros base x Hb Hd Ht. unfold Put, HashHex. simpl ch_Hash. fold x.
  replace (chunkPath s x) with (base ++ [x]) by (symmetry; apply chunkPath_short).
  rewrite Stat_absent by (by apply base_ok_above || done).
  unfold Dir. rewrite removelast_last. unfold MkdirAll. rewrite mkdir_all_existing by done.
  unfold tmpPath. rewrite last_snoc, removelast_last. unfold OpenTrunc, Dir. rewrite removelast_last.
  destruct (Hb base ltac:(done)) as [mb Hmb].
  cbn [faulty no_faults ft_stat ft_mkdir ft_open ft_write ft_close ft_rename bufio_write ch_Data].
  rewrite (Stat_dirs f base (FDir mb)), Ht by (done || (intros q ? ?; by apply Hb)).
  unfold WriteAt. rewrite lookup_insert_eq, insert_insert_eq. cbn [app].
  unfold Rename. rewrite (Stat_dirs _ _ (FFile data FilePermissions));
    [|by apply base_ok_above, base_ok_insert|apply lookup_insert_eq].
  rewrite lookup_insert_ne, Hd; [done|]. intros E%app_inv_head. injection E as E.
  apply (f_equal length) in E. simpl in E. lia.
Qed.

(** A chunk whose hash is one byte long is stored at the path of the
    directory of all chunks starting with that byte: once such a chunk has been
    put, every later Put and Get of a full-length hash with that first byte
    fails, while the short Put itself reports success. *)
Theorem short_hash_blocks_prefix (f : fs) (s : BlobStore) (b : byte) (sz : Z) (data : bytes) :
  base_ok f (bs_baseDir s) →
  f !! (bs_baseDir s ++ [hex_encode [b]]) = None →
  f !! (bs_baseDir s ++ [hex_encode [b] ++ tmp_ext]) = None →
  let '(f', r) := Put f s (mkChunk [b] sz data) no_faults in
  r = Ret true ∧
  ∀ c rest, ch_Hash c = b :: rest → long_hash (ch_Hash c) →
    (∃ e, (Put f' s c no_faults).2 = Err (CreatingChunkDir e)) ∧
    Get f' s (ch_Hash c) = Err (OpeningFile ENOTDIR).
Proof.
  intros Hb Hd Ht. rewrite Put_short by done. split; [done|]. intros c rest Hc Hl.
  set (base := bs_baseDir s) in *. set (x := hex_encode [b]) in *.
  match goal with |- context [Get ?g _ _] => set (f' := g) end.
  assert (base_ok f' base) as Hb' by (by apply base_ok_insert, base_ok_delete, base_ok_insert).
  assert (f' !! (base ++ [x]) = Some (FFile data FilePermissions)) as Hx' by apply lookup_insert_eq.
  assert (Stat f' (chunkPath s (hex_encode (ch_Hash c))) = Err ENOTDIR) as Hs.
  { rewrite chunkPath_long, app_two by done. rewrite Hc at 1. fold base. unfold Stat.
    rewrite (through_file_at f' (base ++ [x]) _ _ data FilePermissions); [done..|].
    by apply base_ok_above. }
  split; [|unfold Get, Get_io, open_chunk; cbn [no_read_faults rf_open faulty]; by rewrite Hs].
  destruct (mkdir_all_blocked f' [] (base ++ [x]) DirPermissions _ _ Hx') as [e He].
  exists e. unfold Put, HashHex. cbn [no_faults ft_stat faulty]. rewrite Hs, Dir_long by done. rewrite Hc, pfx_head. fold base x.
  unfold MkdirAll, faulty. simpl ft_mkdir. cbv iota. by rewrite He.
Qed.
End spec.

(** ** Witnesses *)
Module StoreExample.
#[local] Existing Instance sha256_fips.

(** A store in the default directory of an empty file system. *)
Definition st0 : fs * outcome store_error BlobStore := NewBlobStore ∅ [] [].
Definition store : BlobStore := mkBlobStore (resolve [] DefaultStorageDir).
Definition hello : Chunk := make_chunk (bytes_of_string "hello").

Lemma st0_ret : st0.2 = Ret store.
Proof. vm_compute. reflexivity. Qed.

Lemma st0_eq : st0 = (st0.1, Ret store).
Proof. rewrite <- st0_ret. apply surjective_pairing. Qed.

Lemma nothing_below_empty p : nothing_below ∅ p.
Proof. intros q _ _. apply lookup_empty. Qed.

Lemma st0_sim : sim st0.1 store ∅.
Proof. apply (NewBlobStore_sim ∅ [] []); [apply st0_eq|apply nothing_below_empty]. Qed.

Lemma st0_view h : long_hash h → view st0.1 store h = None.
Proof. intros Hh. destruct st0_sim as [_ E]. by rewrite E. Qed.

(** A flush that fails after three bytes, then a retry, reads, and calls whose
    check, open or removal fails. *)
Definition flush_fault : faults := Faults false false false (Some 3) false false true.
Definition blind : faults := Faults true false false None false false false.
Definition open_fault : read_faults := ReadFaults true false false.
Definition read_fault : read_faults := ReadFaults false false true.
Definition ops : list store_op :=
  [OPut hello flush_fault; OHas (ch_Hash hello) false; OPut hello no_faults; OPut hello no_faults;
   OPut hello blind; OGet (ch_Hash hello) no_read_faults; OGet (ch_Hash hello) open_fault;
   OVerify (ch_Hash hello) no_read_faults; OVerify (ch_Hash hello) read_fault; OHas (ch_Hash hello) true;
   ODelete (ch_Hash hello) true; ODelete (ch_Hash hello) false; OGet (ch_Hash hello) no_read_faults].

Example ops_results : (run_ops st0.1 store ops).2 =
  [RPut (Err FlushingData); RHas false; RPut (Ret true); RPut (Ret false); RPut (Ret true); RGet (Ret hello);
   RGet (Err (OpeningFile EIO)); RVerify (Ret ()); RVerify (Err (ReadingData EIO)); RHas false;
   RDelete (Err (DeletingChunk EIO)); RDelete (Ret ()); RGet (Err (ChunkNotFound (HashHex hello)))].
Proof. vm_compute. reflexivity. Qed.

Lemma store_refines_map_witness :
  ∃ m', abs_run ∅ ops (run_ops st0.1 store ops).2 m' ∧
        ∀ h, long_hash h → view (run_ops st0.1 store ops).1 store h = m' !! h.
Proof.
  apply (store_refines_map ∅ [] [] st0.1 store ops).
  - apply st0_eq.
  - apply nothing_below_empty.
  - apply (bool_decide_unpack _). vm_compute. exact I.
Defined.

Lemma Put_atomic_witness :
  (Put st0.1 store hello flush_fault).2 = Err FlushingData ∧
  (Put (Put st0.1 store hello flush_fault).1 store hello no_faults).2 = Ret true.
Proof.
  split; [vm_compute; reflexivity|].
  pose proof (Put_atomic st0.1 store hello flush_fault (proj1 st0_sim) (sha256_long _)) as Hp.
  destruct (Put st0.1 store hello flush_fault) as [f' r] eqn:E.
  assert (r = Err FlushingData) as -> by (apply (f_equal snd) in E; vm_compute in E; congruence).
  apply Hp.
Defined.

Lemma StoreReader_roundtrip_witness :
  ∃ f' cs ds, StoreReader st0.1 store (stream_of (bytes_of_string "hello")) [] = (f', Ret cs) ∧
    Forall2 (λ c d, Get f' store (ch_Hash c) = Ret (mkChunk (ch_Hash c) (ch_Size c) d)) cs ds ∧
    Forall (λ c, ch_Data c = []) cs ∧ concat ds = bytes_of_string "hello".
Proof.
  apply (StoreReader_roundtrip st0.1 store (bytes_of_string "hello")).
  - apply st0_sim.
  - intros h d Hh. rewrite st0_view by done. done.
  - intros x h d _ Hh. rewrite st0_view by done. done.
  - apply collision_freeb_sound. vm_compute. reflexivity.
Defined.

Definition bad : Chunk :=
  mkChunk (sha256 (bytes_of_string "hello")) 5 (bytes_of_string "jello").

Lemma VerifyAll_exact_witness :
  VerifyAll (Put st0.1 store bad no_faults).1 store !! hex_encode (ch_Hash bad)
  = Some (Corruption (hex_encode (ch_Hash bad)) (hex_encode (sha256 (ch_Data bad)))).
Proof.
  pose proof (Put_spec st0.1 store bad no_faults (proj1 st0_sim) (sha256_long _)) as (Hw & Hv & _).
  pose proof (Put_reliable st0.1 store bad (proj1 st0_sim) (sha256_long _)) as Hr.
  rewrite st0_view in Hr by apply sha256_long. rewrite (bool_decide_eq_true_2 _ eq_refl) in Hr.
  specialize (Hv (ch_Hash bad) (sha256_long _)).
  rewrite decide_True in Hv by (split; [reflexivity|exact Hr]).
  rewrite (proj1 (VerifyAll_exact _ store Hw) (ch_Hash bad) (ch_Data bad) (sha256_long _) Hv).
  rewrite decide_False; [reflexivity|]. apply (bool_decide_unpack _). vm_compute. exact I.
Defined.

Lemma short_hash_blocks_prefix_witness :
  let f' := (Put st0.1 store (mkChunk [x2c] 0 []) no_faults).1 in
  ch_Hash hello !! 0 = Some x2c ∧ Get f' store (ch_Hash hello) = Err (OpeningFile ENOTDIR).
Proof.
  cbv zeta. split; [vm_compute; reflexivity|].
  pose proof (short_hash_blocks_prefix st0.1 store x2c 0 []
    (wf_base _ _ (proj1 st0_sim)) ltac:(vm_compute; reflexivity) ltac:(vm_compute; reflexivity)) as Hs.
  destruct (Put st0.1 store _ no_faults) as [f' r]. destruct Hs as [_ Hs].
  apply (Hs hello (tail (ch_Hash hello))); [vm_compute; reflexivity|apply sha256_long].
Defined.
End StoreExample.
