(* ===== verification/Merkle.v ===== *)
(** * Merkle trees of file systems ([internal/merkle/tree.go])

    A [Node] is the Go struct; the tree owns its nodes, so pointers are plain
    values and a nil pointer is [None]. Go iterates over a map in an
    unspecified order: the order is a parameter [order] of [diffNodes], any
    function that permutes its argument. *)
From Stdlib Require Import Strings.Byte.
From S2P Require Import Prelude Sha256.

Set Warnings "-register-all".

Inductive NodeType := NodeTypeFile | NodeTypeDir.

#[global] Instance NodeType_eq_dec : EqDecision NodeType.
Proof. solve_decision. Defined.

Inductive Node := mkNode {
  n_Name : bytes;
  n_Type : NodeType;
  n_Hash : bytes;
  n_Mode : Z;
  n_Size : Z;
  n_Children : list Node;
  n_Chunks : list bytes;
}.

Record Tree := mkTree { t_Root : option Node }.

Definition NewTree : Tree := mkTree None.

Definition node_HashHex (n : Node) : bytes := hex_encode (n_Hash n).

Definition IsDir (n : Node) : bool := bool_decide (n_Type n = NodeTypeDir).

(** Induction through the children. *)
Lemma Node_rec_children (P : Node → Prop) :
  (∀ nm ty hs md sz cs ch, Forall P cs → P (mkNode nm ty hs md sz cs ch)) → ∀ n, P n.
Proof.
  intros HP. fix IH 1. intros [nm ty hs md sz cs ch]. apply HP.
  induction cs as [|c cs IHcs]; constructor; [apply IH|apply IHcs].
Qed.

(** ** Construction *)
Definition name_le (a b : Node) : Prop := bytes_le (n_Name a) (n_Name b).

#[global] Instance name_le_dec : RelDecision name_le.
Proof. intros a b. unfold name_le. apply _. Defined.
#[global] Instance name_le_total : Total name_le.
Proof. intros a b. unfold name_le. apply bytes_le_total. Qed.
#[global] Instance name_le_trans : Transitive name_le.
Proof. intros a b c. unfold name_le. apply bytes_le_trans. Qed.

(** [sort.Slice] by name. Nodes with different names have one sorted order
    ([sort_unique] below); for equal names Go's order is unspecified and this
    is one choice. *)
Definition sort_children (cs : list Node) : list Node := merge_sort name_le cs.

Section node.
Context `{HashFn}.

Definition file_preimage (chunks : list bytes) : bytes := concat chunks.
Definition dir_preimage (cs : list Node) : bytes := concat ((λ c, n_Name c ++ n_Hash c) <$> cs).

Definition computeFileHash (n : Node) : Node :=
  let h := foldl hasher_Write hasher_New (n_Chunks n) in
  mkNode (n_Name n) (n_Type n) (hasher_Sum h) (n_Mode n)
    (u64 (Z.of_nat (length (n_Chunks n)) * 4096)) (n_Children n) (n_Chunks n).

Definition computeDirHash (n : Node) : Node :=
  let h := foldl (λ h c, hasher_Write (hasher_Write h (n_Name c)) (n_Hash c)) hasher_New (n_Children n) in
  let totalSize := foldl (λ t c, u64 (t + n_Size c)) 0%Z (n_Children n) in
  mkNode (n_Name n) (n_Type n) (hasher_Sum h) (n_Mode n) totalSize (n_Children n) (n_Chunks n).

Definition NewFileNode (name : bytes) (mode : Z) (chunks : list bytes) : Node :=
  computeFileHash (mkNode name NodeTypeFile [] mode 0 [] chunks).

Definition NewDirNode (name : bytes) (mode : Z) (children : list Node) : Node :=
  computeDirHash (mkNode name NodeTypeDir [] mode 0 (sort_children children) []).

Definition Rehash (n : Node) : Node :=
  match n_Type n with
  | NodeTypeFile => computeFileHash n
  | NodeTypeDir =>
      computeDirHash (mkNode (n_Name n) (n_Type n) (n_Hash n) (n_Mode n) (n_Size n)
                        (sort_children (n_Children n)) (n_Chunks n))
  end.
End node.

(** ** Binary search: [sort.Search] and [GetChild] *)
Fixpoint search_loop (fuel i j : nat) (p : nat → bool) : nat :=
  match fuel with
  | O => i
  | S fuel' =>
      if decide (i < j) then
        let h := (i + j) / 2 in
        if p h then search_loop fuel' i h p else search_loop fuel' (S h) j p
      else i
  end.

Definition sort_Search (n : nat) (p : nat → bool) : nat := search_loop n 0 n p.

Definition GetChild (n : Node) (name : bytes) : option Node :=
  match n_Type n with
  | NodeTypeFile => None
  | NodeTypeDir =>
      let cs := n_Children n in
      let i := sort_Search (length cs) (λ i,
        match cs !! i with Some c => bytes_leb name (n_Name c) | None => true end) in
      match cs !! i with
      | Some c => if decide (n_Name c = name) then Some c else None
      | None => None
      end
  end.

(** ** Differences *)
Inductive DiffType := DiffTypeAdded | DiffTypeDeleted | DiffTypeModified.

#[global] Instance DiffType_eq_dec : EqDecision DiffType.
Proof. solve_decision. Defined.

Record DiffResult := mkDiff {
  d_Path : bytes;
  d_Type : DiffType;
  d_LocalNode : option Node;
  d_RemoteNode : option Node;
  d_Chunks : list bytes;
}.

Definition joinPath (parent child : bytes) : bytes :=
  if decide (parent = []) then child else parent ++ [x2f] ++ child.

Fixpoint collectAll (node : Node) (parentPath : bytes) (ty : DiffType) : list DiffResult :=
  let currentPath := joinPath parentPath (n_Name node) in
  let chunks := match n_Type node with NodeTypeFile => n_Chunks node | NodeTypeDir => [] end in
  (match ty with
   | DiffTypeAdded => mkDiff currentPath ty (Some node) None chunks
   | _ => mkDiff currentPath ty None (Some node) chunks
   end) :: concat (map (λ c, collectAll c currentPath ty) (n_Children node)).

Definition findDifferingChunks (local remote : list bytes) : list bytes :=
  let remoteSet : gset bytes := list_to_set remote in
  filter (λ h, h ∉ remoteSet) local.

(** [for _, child := range children { m[child.Name] = child }]. *)
Definition children_map (cs : list Node) : gmap bytes Node :=
  foldl (λ m c, <[n_Name c := c]> m) ∅ cs.

Section diff.
(** The iteration order of the maps at each path. *)
Variable order : bytes → list (bytes * Node) → list (bytes * Node).

Fixpoint diffNodes (fuel : nat) (local remote : option Node) (path : bytes) : list DiffResult :=
  match fuel with
  | O => []
  | S fuel' =>
      match local, remote with
      | None, None => []
      | Some l, None => collectAll l path DiffTypeAdded
      | None, Some r => collectAll r path DiffTypeDeleted
      | Some l, Some r =>
          let currentPath := joinPath path (n_Name l) in
          if decide (n_Hash l = n_Hash r) then []
          else if decide (n_Type l ≠ n_Type r) then
            [mkDiff currentPath DiffTypeModified (Some l) (Some r) []]
          else if decide (n_Type l = NodeTypeFile) then
            [mkDiff currentPath DiffTypeModified (Some l) (Some r)
               (findDifferingChunks (n_Chunks l) (n_Chunks r))]
          else
            let localChildren := children_map (n_Children l) in
            let remoteChildren := children_map (n_Children r) in
            concat ((λ kv, diffNodes fuel' (Some kv.2) (remoteChildren !! kv.1) currentPath)
                      <$> order currentPath (map_to_list localChildren)) ++
            concat ((λ kv, match localChildren !! kv.1 with
                           | Some _ => []
                           | None => diffNodes fuel' None (Some kv.2) currentPath
                           end)
                      <$> order currentPath (map_to_list remoteChildren))
      end
  end.

Fixpoint height (n : Node) : nat := S (list_max (map height (n_Children n))).

Definition Diff (local remote : Tree) : list DiffResult :=
  match t_Root local, t_Root remote with
  | None, None => []
  | None, Some r => collectAll r [] DiffTypeDeleted
  | Some l, None => collectAll l [] DiffTypeAdded
  | Some l, Some r =>
      if decide (n_Hash l = n_Hash r) then []
      else diffNodes (S (height l)) (Some l) (Some r) []
  end.
End diff.
