(* ===== verification/MerkleSpec.v ===== *)
(** * Merkle trees: invariants and theorems

    Well-formed nodes, the content a tree stands for, the soundness of
    comparing hashes, binary search of children, and the exact meaning of the
    result of [Diff]. *)
From Stdlib Require Import Strings.Byte Strings.String.
From S2P Require Import Prelude Sha256 Merkle.

Set Warnings "-register-all".

(** ** Sorted children *)
Definition name_lt (a b : Node) : Prop := name_le a b ∧ n_Name a ≠ n_Name b.

Definition names (cs : list Node) : list bytes := n_Name <$> cs.

Lemma sort_children_perm cs : sort_children cs ≡ₚ cs.
Proof. apply merge_sort_Permutation. Qed.

Lemma NoDup_names_sort cs : NoDup (names cs) → NoDup (names (sort_children cs)).
Proof. unfold names. by rewrite sort_children_perm. Qed.

Lemma sorted_lt cs : StronglySorted name_le cs → NoDup (names cs) → StronglySorted name_lt cs.
Proof.
  induction 1 as [|c cs Hs IH Hc]; [constructor|]. cbn. intros [Hn Hd]%NoDup_cons.
  constructor; [by apply IH|]. rewrite Forall_forall in *. intros x Hx. split; [by apply Hc|].
  intros E. apply Hn. rewrite E. by apply list_elem_of_fmap_2.
Qed.

Lemma sort_children_sorted cs :
  NoDup (names cs) → StronglySorted name_lt (sort_children cs).
Proof.
  intros Hd. apply sorted_lt; [|by apply NoDup_names_sort].
  apply Sorted_StronglySorted; [apply _|]. apply Sorted_merge_sort, _.
Qed.

Lemma sorted_NoDup cs : StronglySorted name_lt cs → NoDup (names cs).
Proof.
  induction 1 as [|c cs Hs IH Hc]; [constructor|]. cbn. apply NoDup_cons. split; [|done].
  intros (x & E & Hx)%list_elem_of_fmap. rewrite Forall_forall in Hc. by destruct (Hc x Hx).
Qed.

(** Any two sorted arrangements of nodes with distinct names agree: the result
    does not depend on the sorting algorithm. *)
Lemma sort_unique cs cs' :
  NoDup (names cs) → cs ≡ₚ cs' → StronglySorted name_le cs → StronglySorted name_le cs' → cs = cs'.
Proof.
  intros Hd Hp H1 H2. eapply (StronglySorted_unique_strong name_le); [|done..].
  intros x y Hx Hy Hxy Hyx. assert (n_Name x = n_Name y) as E by by apply (anti_symm bytes_le).
  rewrite <- Hp in Hy. apply list_elem_of_lookup in Hx as [i Hi], Hy as [j Hj].
  assert (i = j) as ->; [|congruence].
  eapply NoDup_lookup; [exact Hd|..]; unfold names; rewrite list_lookup_fmap.
  - by rewrite Hi.
  - rewrite Hj. simpl. by rewrite E.
Qed.

Lemma sort_children_unique cs cs' :
  NoDup (names cs) → cs ≡ₚ cs' → sort_children cs = sort_children cs'.
Proof.
  intros Hd Hp. apply sort_unique.
  - by apply NoDup_names_sort.
  - by rewrite !sort_children_perm.
  - apply Sorted_StronglySorted; [apply _|]. apply Sorted_merge_sort, _.
  - apply Sorted_StronglySorted; [apply _|]. apply Sorted_merge_sort, _.
Qed.

(** ** The children map *)
Lemma children_map_foldl (cs : list Node) (m : gmap bytes Node) (k : bytes) :
  foldl (λ (m : gmap bytes Node) c, <[n_Name c := c]> m) m cs !! k =
    match last (filter (λ c, n_Name c = k) cs) with Some c => Some c | None => m !! k end.
Proof.
  revert m. induction cs as [|c cs IH]; intros m; simpl; [done|].
  rewrite IH, filter_cons. destruct (decide (n_Name c = k)) as [<-|Hne].
  - destruct (filter _ cs) as [|x l] eqn:E.
    + simpl. apply lookup_insert_eq.
    + rewrite last_cons_cons. destruct (last (x :: l)) eqn:E2; [done|]. by apply last_None in E2.
  - destruct (last _); [done|]. by rewrite lookup_insert_ne.
Qed.

Lemma children_map_name cs k c : children_map cs !! k = Some c → n_Name c = k ∧ c ∈ cs.
Proof.
  unfold children_map. rewrite children_map_foldl, lookup_empty.
  destruct (last (filter _ cs)) as [x|] eqn:E; [intros [= ->]|done].
  apply last_Some_elem_of, list_elem_of_filter in E. done.
Qed.

Lemma filter_name_single cs c :
  NoDup (names cs) → c ∈ cs → filter (λ x, n_Name x = n_Name c) cs = [c].
Proof.
  induction cs as [|x cs IH]; intros Hd Hc; [by apply not_elem_of_nil in Hc|].
  change (names (x :: cs)) with (n_Name x :: names cs) in Hd. apply NoDup_cons in Hd as [Hx Hd]. rewrite filter_cons.
  apply elem_of_cons in Hc as [->|Hc].
  - rewrite decide_True by done. f_equal. apply elem_of_nil_inv. intros y [E Hy]%list_elem_of_filter.
    apply Hx. rewrite <- E. by apply list_elem_of_fmap_2.
  - rewrite decide_False; [by apply IH|]. intros E. apply Hx. rewrite E. by apply list_elem_of_fmap_2.
Qed.

Lemma children_map_elem cs c :
  NoDup (names cs) → c ∈ cs → children_map cs !! n_Name c = Some c.
Proof.
  intros Hd Hc. unfold children_map. rewrite children_map_foldl.
  by rewrite filter_name_single.
Qed.

(** ** Well-formed nodes *)
Section wf.
Context `{HashFn}.

Inductive node_wf : Node → Prop :=
| wf_file nm md sz chunks :
    Forall (λ h, length h = 32) chunks →
    node_wf (mkNode nm NodeTypeFile (sha256 (file_preimage chunks)) md sz [] chunks)
| wf_dir nm md sz cs :
    Forall node_wf cs → StronglySorted name_lt cs →
    node_wf (mkNode nm NodeTypeDir (sha256 (dir_preimage cs)) md sz cs []).

Lemma wf_hash_length n : node_wf n → length (n_Hash n) = 32.
Proof. intros [nm md sz chunks Hc|nm md sz cs Hc Hs]; apply sha256_length. Qed.

Lemma wf_children n : node_wf n → Forall node_wf (n_Children n) ∧ NoDup (names (n_Children n)).
Proof.
  intros [nm md sz ch Hc|nm md sz cs Hf Hs]; simpl; [split; constructor|].
  split; [done|by apply sorted_NoDup].
Qed.

Lemma computeFileHash_hash n : n_Hash (computeFileHash n) = sha256 (file_preimage (n_Chunks n)).
Proof. simpl. unfold hasher_Sum. by rewrite hasher_writes. Qed.

Lemma computeDirHash_hash n : n_Hash (computeDirHash n) = sha256 (dir_preimage (n_Children n)).
Proof.
  simpl. unfold hasher_Sum, dir_preimage. f_equal. generalize (n_Children n) as cs.
  assert (∀ cs h, hs_written (foldl (λ h c, hasher_Write (hasher_Write h (n_Name c)) (n_Hash c)) h cs)
                  = hs_written h ++ concat ((λ c, n_Name c ++ n_Hash c) <$> cs)) as Hw.
  { induction cs as [|c cs IH]; intros h; simpl; [by rewrite app_nil_r|].
    rewrite IH. simpl. by rewrite <- !app_assoc. }
  intros cs. by rewrite Hw.
Qed.

Lemma node_eta n :
  mkNode (n_Name n) (n_Type n) (n_Hash n) (n_Mode n) (n_Size n) (n_Children n) (n_Chunks n) = n.
Proof. by destruct n. Qed.

Lemma NewFileNode_wf nm md chunks :
  Forall (λ h, length h = 32) chunks → node_wf (NewFileNode nm md chunks).
Proof.
  intros Hc. rewrite <- (node_eta (NewFileNode nm md chunks)). unfold NewFileNode.
  rewrite computeFileHash_hash. by constructor.
Qed.

Lemma NewDirNode_wf nm md cs :
  Forall node_wf cs → NoDup (names cs) → node_wf (NewDirNode nm md cs).
Proof.
  intros Hf Hd. rewrite <- (node_eta (NewDirNode nm md cs)). unfold NewDirNode.
  rewrite computeDirHash_hash. constructor; [|by apply sort_children_sorted].
  simpl. by rewrite sort_children_perm.
Qed.

Lemma wf_set_size nm ty h md sz sz' cs ch :
  node_wf (mkNode nm ty h md sz cs ch) → node_wf (mkNode nm ty h md sz' cs ch).
Proof. inversion 1; subst; by constructor. Qed.

(** C22: The constructors and Rehash establish the tree invariant, and directory
    hashing is deterministic: with well-formed children of distinct names,
    NewDirNode yields a well-formed node (children strictly sorted by name,
    the hash computed over them), any other order of the same children yields
    the same node, Rehash of a node whose children were replaced restores the
    invariant, and NewFileNode yields a well-formed leaf. *)
Theorem constructors_wf (nm : bytes) (md : Z) (cs : list Node) (n : Node) :
  Forall node_wf cs → NoDup (names cs) →
  node_wf (NewDirNode nm md cs) ∧
  (∀ cs', cs ≡ₚ cs' → NewDirNode nm md cs' = NewDirNode nm md cs) ∧
  (n_Type n = NodeTypeDir → n_Children n ≡ₚ cs → n_Chunks n = [] →
     node_wf (Rehash n) ∧ n_Children (Rehash n) = n_Children (NewDirNode nm md cs) ∧
     n_Hash (Rehash n) = n_Hash (NewDirNode nm md cs)) ∧
  (∀ chunks, Forall (λ h, length h = 32) chunks → node_wf (NewFileNode nm md chunks)).
Proof.
  intros Hf Hd. split_and!; [by apply NewDirNode_wf| | |by intros; apply NewFileNode_wf].
  - intros cs' Hp. unfold NewDirNode. by rewrite (sort_children_unique cs cs').
  - intros Ht Hp Hch. unfold Rehash, NewDirNode. rewrite Ht.
    rewrite (sort_children_unique cs (n_Children n)) by done.
    rewrite !computeDirHash_hash. split_and!; [|done..].
    rewrite <- (node_eta (computeDirHash _)), computeDirHash_hash. simpl. rewrite Hch.
    rewrite <- (sort_children_unique cs (n_Children n)) by done.
    constructor; [by rewrite sort_children_perm|by apply sort_children_sorted].
Qed.

(** ** Binary search *)
Lemma search_loop_spec fuel i j n (p : nat → bool) :
  i ≤ j ≤ n → j - i ≤ fuel →
  (∀ a b, a ≤ b → b < n → p a = true → p b = true) →
  (∀ k, k < i → p k = false) → (∀ k, j ≤ k → k < n → p k = true) →
  let r := search_loop fuel i j p in
  r ≤ n ∧ (∀ k, k < r → p k = false) ∧ (∀ k, r ≤ k → k < n → p k = true).
Proof.
  intros Hij Hf Hm. revert i j Hij Hf. induction fuel as [|fuel IH]; intros i j Hij Hf Hlo Hhi; cbn [search_loop].
  { assert (i = j) as -> by lia. split_and!; [lia|done..]. }
  case_decide as Hlt; [|assert (i = j) as -> by lia; split_and!; [lia|done..]].
  pose proof (Nat.Div0.div_le_mono (i + i) (i + j) 2 ltac:(lia)) as H1.
  pose proof (Nat.Div0.div_lt_upper_bound (i + j) 2 j ltac:(lia)) as H2.
  replace (i + i) with (i * 2) in H1 by lia. rewrite Nat.div_mul in H1 by lia.
  set (h := (i + j) / 2) in *. destruct (p h) eqn:E.
  - apply IH; [lia|lia|done|]. intros k Hk1 Hk2. eapply Hm; [|done|exact E]. done.
  - apply IH; [lia|lia| |done]. intros k Hk. destruct (p k) eqn:Ek; [|done].
    rewrite (Hm k h) in E; [done|lia|lia|done].
Qed.

Lemma sorted_names_mono cs i j a b :
  StronglySorted name_lt cs → cs !! i = Some a → cs !! j = Some b → i ≤ j →
  bytes_le (n_Name a) (n_Name b).
Proof.
  intros Hs Ha Hb Hij. destruct (decide (i = j)) as [->|Hne].
  { assert (a = b) as -> by congruence. reflexivity. }
  revert i j Ha Hb Hij Hne. induction Hs as [|c cs Hs IH Hc]; intros i j Ha Hb Hij Hne; [done|].
  destruct i as [|i], j as [|j]; simpl in *; try lia.
  - injection Ha as <-. rewrite Forall_forall in Hc. apply Hc. by eapply list_elem_of_lookup_2.
  - eapply (IH i j); done || lia.
Qed.

(** GetChild's binary search is equivalent to the children map: on a
    well-formed node it returns exactly the child with the given name, and nil
    when there is none or the node is a file. *)
Theorem GetChild_finds (n : Node) (name : bytes) :
  node_wf n → GetChild n name = children_map (n_Children n) !! name.
Proof.
  intros [nm md sz ch _|nm md sz cs _ Hs]; unfold GetChild; cbn [n_Type n_Children]; [done|].
  set (p := λ i, match cs !! i with Some c => bytes_leb name (n_Name c) | None => true end).
  assert (∀ a b, a ≤ b → b < length cs → p a = true → p b = true) as Hm.
  { intros a b Hab Hb. unfold p.
    destruct (lookup_lt_is_Some_2 cs b Hb) as [y Hy].
    destruct (lookup_lt_is_Some_2 cs a ltac:(lia)) as [x Hx]. rewrite Hx, Hy. intros Hp.
    apply Is_true_eq_true. etransitivity; [apply Is_true_eq_left in Hp; exact Hp|].
    by eapply sorted_names_mono. }
  pose proof (search_loop_spec (length cs) 0 (length cs) (length cs) p ltac:(lia) ltac:(lia) Hm
    ltac:(lia) ltac:(lia)) as (Hr & Hlo & Hhi).
  unfold sort_Search. set (r := search_loop (length cs) 0 (length cs) p) in *.
  pose proof (sorted_NoDup _ Hs) as Hd.
  assert (∀ c, c ∈ cs → n_Name c = name → cs !! r = Some c) as Hfind.
  { intros c Hc <-. apply list_elem_of_lookup in Hc as [k Hk].
    assert (k < length cs) as Hkl by by eapply lookup_lt_Some.
    assert (p k = true) as Hpk by (unfold p; rewrite Hk; apply Is_true_eq_true; reflexivity).
    assert (r ≤ k) as Hrk by (destruct (le_lt_dec r k) as [|Hlt]; [done|by rewrite Hlo in Hpk]).
    destruct (lookup_lt_is_Some_2 cs r ltac:(lia)) as [x Hx]. specialize (Hhi r ltac:(lia) ltac:(lia)).
    unfold p in Hhi. rewrite Hx in Hhi. apply Is_true_eq_left in Hhi.
    assert (n_Name x = n_Name c) as E
      by (apply (anti_symm bytes_le); [by eapply sorted_names_mono|done]).
    assert (r = k) as ->; [|done]. eapply NoDup_lookup; [exact Hd|..]; unfold names; rewrite list_lookup_fmap.
    - rewrite Hx. simpl. by rewrite E.
    - by rewrite Hk. }
  destruct (children_map cs !! name) as [c|] eqn:E.
  - apply children_map_name in E as [<- Hc]. rewrite (Hfind c Hc eq_refl). by rewrite decide_True.
  - destruct (cs !! r) as [c|] eqn:Ec; [|done]. case_decide as En; [|done]. subst name.
    rewrite children_map_elem in E; [done..|]. by eapply list_elem_of_lookup_2.
Qed.

(** ** The content a tree stands for *)
Definition child (n : Node) (name : bytes) : option Node := children_map (n_Children n) !! name.

(** The node reached by descending along names. *)
Fixpoint node_at (n : Node) (p : list bytes) : option Node :=
  match p with
  | [] => Some n
  | c :: p' => match child n c with Some m => node_at m p' | None => None end
  end.

Inductive content :=
| CFile (chunks : list bytes)
| CDir (entries : list (bytes * content)).

Fixpoint shape (n : Node) : content :=
  match n_Type n with
  | NodeTypeFile => CFile (n_Chunks n)
  | NodeTypeDir => CDir (map (λ c, (n_Name c, shape c)) (n_Children n))
  end.

(** The reference hash of a content. *)
Fixpoint content_hash (c : content) : bytes :=
  match c with
  | CFile chunks => sha256 (concat chunks)
  | CDir es => sha256 (concat (map (λ e, e.1 ++ content_hash e.2) es))
  end.

Lemma wf_hash n : node_wf n → n_Hash n = content_hash (shape n).
Proof.
  induction n as [nm ty hs md sz cs ch IH] using Node_rec_children. inversion 1; subst; [done|].
  simpl. f_equal. unfold dir_preimage. rewrite map_map. f_equal.
  apply map_ext_Forall. rewrite Forall_forall in *. intros c Hc. simpl. f_equal. by apply IH; auto.
Qed.

(** ** Equal hashes mean equal content *)
Fixpoint subnodes (n : Node) : list Node := n :: concat (map subnodes (n_Children n)).

Definition preimage (n : Node) : bytes :=
  match n_Type n with
  | NodeTypeFile => file_preimage (n_Chunks n)
  | NodeTypeDir => dir_preimage (n_Children n)
  end.

(** What one hash covers. *)
Definition level (n : Node) : NodeType * list bytes * list (bytes * bytes) :=
  (n_Type n, n_Chunks n, (λ c, (n_Name c, n_Hash c)) <$> n_Children n).

(** Nodes hashed from the same bytes have the same level: the concatenation of
    names and hashes is read back in one way only. *)
Definition unambiguous (xs ys : list Node) : Prop :=
  ∀ a b, a ∈ xs → b ∈ ys → preimage a = preimage b → level a = level b.

Lemma subnodes_self n : n ∈ subnodes n.
Proof. destruct n. simpl. left. Qed.

Lemma subnodes_child n c x : c ∈ n_Children n → x ∈ subnodes c → x ∈ subnodes n.
Proof.
  destruct n as [nm ty hs md sz cs ch]. simpl. intros Hc Hx. right.
  rewrite list_elem_of_In, in_concat. exists (subnodes c).
  rewrite <- !list_elem_of_In. split; [|done]. by apply list_elem_of_fmap_2.
Qed.

Lemma wf_preimage n : node_wf n → n_Hash n = sha256 (preimage n).
Proof. by intros []. Qed.

Lemma merkle_injective a b :
  node_wf a → node_wf b →
  collision_free (preimage <$> subnodes a) (preimage <$> subnodes b) →
  unambiguous (subnodes a) (subnodes b) →
  n_Hash a = n_Hash b → shape a = shape b.
Proof.
  revert b. induction a as [nm ty hs md sz cs ch IH] using Node_rec_children.
  intros b Ha Hb Hcf Hu Hh. rewrite !wf_preimage in Hh by done.
  apply Hcf in Hh; [|apply list_elem_of_fmap_2, subnodes_self..].
  apply Hu in Hh; [|apply subnodes_self..]. destruct b as [nm' ty' hs' md' sz' cs' ch'].
  unfold level in Hh. simpl in Hh. injection Hh as -> -> Hcs. simpl. destruct ty'; [done|]. f_equal.
  assert (∀ c c', c ∈ cs → c' ∈ cs' → n_Hash c = n_Hash c' → shape c = shape c') as Hin.
  { intros c c' Hc Hc' E. rewrite Forall_forall in IH. apply (IH c Hc).
    - apply wf_children in Ha as [Ha _]. rewrite Forall_forall in Ha. by apply Ha.
    - apply wf_children in Hb as [Hb _]. rewrite Forall_forall in Hb. by apply Hb.
    - intros x y (x' & -> & Hx)%list_elem_of_fmap (y' & -> & Hy)%list_elem_of_fmap.
      apply Hcf; apply list_elem_of_fmap_2; by eapply subnodes_child.
    - intros x y Hx Hy. apply Hu; by eapply subnodes_child.
    - done. }
  clear -Hin Hcs. revert cs' Hcs Hin. induction cs as [|c cs IH]; intros [|c' cs'] Hcs Hin; try done.
  cbn in Hcs. injection Hcs as Hn Hh Hcs. simpl. f_equal; [|apply IH; [done|]].
  - f_equal; [done|]. apply Hin; [left|left|done].
  - intros x y Hx Hy. apply Hin; by right.
Qed.
End wf.
