(* ===== verification/DiffSpec.v ===== *)
(** * The meaning of [merkle.Diff]

    [Diff] prunes equal hashes, walks maps in an unspecified order and stops at
    type changes. Its result is described by the two trees alone: which paths
    each one has and what is there. *)
From Stdlib Require Import Strings.Byte Strings.String.
From S2P Require Import Prelude Sha256 Merkle MerkleSpec.

Section spec.
Context `{HashFn}.

(** ** Descending *)
Lemma child_name n c m : child n c = Some m → n_Name m = c ∧ m ∈ n_Children n.
Proof. apply children_map_name. Qed.

Lemma child_elem n m : node_wf n → m ∈ n_Children n → child n (n_Name m) = Some m.
Proof. intros [_ Hd]%wf_children. by apply children_map_elem. Qed.

Lemma child_wf n c m : node_wf n → child n c = Some m → node_wf m.
Proof.
  intros [Hf _]%wf_children [_ Hm]%child_name. rewrite Forall_forall in Hf. by apply Hf.
Qed.

Lemma file_no_child n c : node_wf n → n_Type n = NodeTypeFile → child n c = None.
Proof. intros [] Ht; done. Qed.

Lemma child_height n c m : child n c = Some m → height m < height n.
Proof.
  intros [_ Hm]%child_name. destruct n as [nm ty hs md sz cs ch]. simpl in *.
  apply Nat.lt_succ_r. pose proof (proj1 (list_max_le (map height cs) _) (le_n _)) as Hle.
  rewrite List.Forall_forall in Hle. apply Hle, in_map, list_elem_of_In, Hm.
Qed.

(** Contents agree below equal contents. *)
Lemma shape_child a b c :
  node_wf a → node_wf b → shape a = shape b →
  match child a c, child b c with
  | Some x, Some y => shape x = shape y
  | None, None => True
  | _, _ => False
  end.
Proof.
  intros Ha Hb E.
  pose proof (λ x, child_elem a x Ha) as Hel1. pose proof (λ x, child_elem b x Hb) as Hel2.
  destruct a as [nm1 ty1 h1 md1 sz1 cs1 ch1], b as [nm2 ty2 h2 md2 sz2 cs2 ch2].
  destruct ty1, ty2; [|done..|].
  { rewrite !file_no_child by done. done. }
  simpl in E. injection E as E.
  assert (∀ x, x ∈ cs1 → ∃ y, y ∈ cs2 ∧ n_Name y = n_Name x ∧ shape x = shape y) as H12.
  { intros x Hx. assert ((n_Name x, shape x) ∈ map (λ c, (n_Name c, shape c)) cs2) as Hin.
    { rewrite <- E. apply list_elem_of_In, in_map_iff. exists x. by rewrite <- list_elem_of_In. }
    apply list_elem_of_In, in_map_iff in Hin as (y & [= E1 E2] & Hy%list_elem_of_In). eauto. }
  assert (∀ y, y ∈ cs2 → ∃ x, x ∈ cs1 ∧ n_Name x = n_Name y) as H21.
  { intros y Hy. assert ((n_Name y, shape y) ∈ map (λ c, (n_Name c, shape c)) cs1) as Hin.
    { rewrite E. apply list_elem_of_In, in_map_iff. exists y. by rewrite <- list_elem_of_In. }
    apply list_elem_of_In, in_map_iff in Hin as (x & [= E1 E2] & Hx%list_elem_of_In). eauto. }
  destruct (child (mkNode nm1 _ _ _ _ _ _) c) as [x|] eqn:Ex.
  - apply child_name in Ex as [<- Hx]. destruct (H12 x Hx) as (y & Hy & En & Hs).
    rewrite <- En, (Hel2 y) by done. done.
  - destruct (child (mkNode nm2 _ _ _ _ _ _) c) as [y|] eqn:Ey; [|done].
    apply child_name in Ey as [<- Hy]. destruct (H21 y Hy) as (x & Hx & En).
    rewrite <- En, (Hel1 x) in Ex by done. done.
Qed.

Lemma shape_node_at a b p :
  node_wf a → node_wf b → shape a = shape b →
  match node_at a p, node_at b p with
  | Some x, Some y => node_wf x ∧ node_wf y ∧ shape x = shape y
  | None, None => True
  | _, _ => False
  end.
Proof.
  revert a b. induction p as [|c p IH]; intros a b Ha Hb E; simpl; [done|].
  pose proof (shape_child a b c Ha Hb E) as Hc.
  destruct (child a c) as [x|] eqn:Ex, (child b c) as [y|] eqn:Ey; try done.
  apply IH; [by apply (child_wf a c)|by apply (child_wf b c)|done].
Qed.

Lemma node_at_wf n p m : node_wf n → node_at n p = Some m → node_wf m.
Proof.
  revert n. induction p as [|c p IH]; intros n Hn Hp; simpl in Hp; [by simplify_eq|].
  destruct (child n c) as [k|] eqn:Ek; [|done]. by apply (IH k); [apply (child_wf n c)|].
Qed.

(** ** The specification *)
Definition file_chunks (n : Node) : list bytes :=
  match n_Type n with NodeTypeFile => n_Chunks n | NodeTypeDir => [] end.

Definition one_sided (ty : DiffType) (path : bytes) (m : Node) : DiffResult :=
  match ty with
  | DiffTypeAdded => mkDiff path ty (Some m) None (file_chunks m)
  | _ => mkDiff path ty None (Some m) (file_chunks m)
  end.

Definition both_dirs (a b : Node) : Prop := n_Type a = NodeTypeDir ∧ n_Type b = NodeTypeDir.

Definition modified_chunks (a b : Node) : list bytes :=
  match n_Type a, n_Type b with
  | NodeTypeFile, NodeTypeFile => findDifferingChunks (n_Chunks a) (n_Chunks b)
  | _, _ => []
  end.

(** No proper ancestor of [p] in [n] is a file. *)
Definition clear_above (n : Node) (p : list bytes) : Prop :=
  ∀ q s m, p = q ++ s → s ≠ [] → node_at n q = Some m → n_Type m = NodeTypeDir.

Inductive diff_spec (l r : Node) (base : bytes) : DiffResult → Prop :=
| spec_added p m :
    node_at l p = Some m → node_at r p = None → clear_above r p →
    diff_spec l r base (one_sided DiffTypeAdded (foldl joinPath base p) m)
| spec_deleted p m :
    node_at l p = None → node_at r p = Some m → clear_above l p →
    diff_spec l r base (one_sided DiffTypeDeleted (foldl joinPath base p) m)
| spec_modified p a b :
    node_at l p = Some a → node_at r p = Some b → n_Hash a ≠ n_Hash b → ¬ both_dirs a b →
    diff_spec l r base
      (mkDiff (foldl joinPath base p) DiffTypeModified (Some a) (Some b) (modified_chunks a b)).

(** Everything below a node. *)
Definition all_below (ty : DiffType) (n : Node) (base : bytes) (x : DiffResult) : Prop :=
  ∃ p m, node_at n p = Some m ∧ x = one_sided ty (foldl joinPath base p) m.

Lemma collectAll_spec n parent ty x :
  node_wf n → x ∈ collectAll n parent ty ↔ all_below ty n (joinPath parent (n_Name n)) x.
Proof.
  intros Hw. revert parent Hw. induction n as [nm t hs md sz cs ch IH] using Node_rec_children.
  intros parent Hw. rewrite Forall_forall in IH. cbn [collectAll n_Children n_Name n_Type n_Chunks].
  rewrite elem_of_cons. set (n := mkNode nm t hs md sz cs ch) in *. set (cur := joinPath parent nm).
  assert (x ∈ concat (map (λ c, collectAll c cur ty) cs) ↔
          ∃ c, c ∈ cs ∧ all_below ty c (joinPath cur (n_Name c)) x) as ->.
  { rewrite list_elem_of_In, in_concat. setoid_rewrite in_map_iff.
    pose proof (wf_children n Hw) as [Hf _]. rewrite Forall_forall in Hf. split.
    - intros (? & (c & <- & Hc%list_elem_of_In) & Hx%list_elem_of_In). exists c. split; [done|].
      apply IH; [done|by apply Hf|done].
    - intros (c & Hc & Hx). apply IH in Hx; [|done|by apply Hf].
      exists (collectAll c cur ty). rewrite <- list_elem_of_In. split; [|done].
      exists c. by rewrite <- list_elem_of_In. }
  split.
  - intros [->|(c & Hc & p & m & Hp & ->)].
    + exists [], n. split; [done|]. by destruct ty.
    + exists (n_Name c :: p), m. split; [|done]. simpl. by rewrite child_elem.
  - intros (p & m & Hp & ->). destruct p as [|c p]; simpl in Hp.
    + left. injection Hp as <-. by destruct ty.
    + right. destruct (child n c) as [k|] eqn:Ek; [|done]. apply child_name in Ek as [<- Hk].
      exists k. split; [done|]. by exists p, m.
Qed.

Lemma clear_above_cons n c p :
  clear_above n (c :: p) ↔ n_Type n = NodeTypeDir ∧ ∀ m, child n c = Some m → clear_above m p.
Proof.
  unfold clear_above. split.
  - intros Hc. split; [by apply (Hc [] (c :: p))|].
    intros m Hm q s m' -> Hs Hq. apply (Hc (c :: q) s); [done..|]. simpl. by rewrite Hm.
  - intros [Ht Hc] [|x q] s m E Hs Hq; [simpl in Hq; congruence|].
    simpl in *. injection E as <- ->. destruct (child n c) as [k|] eqn:Ek; [|done].
    by eapply (Hc k).
Qed.

(** One level of the specification. *)
Lemma diff_spec_dirs l r base x :
  both_dirs l r →
  diff_spec l r base x ↔
  ∃ c, match child l c, child r c with
       | Some lc, Some rc => diff_spec lc rc (joinPath base c) x
       | Some lc, None => all_below DiffTypeAdded lc (joinPath base c) x
       | None, Some rc => all_below DiffTypeDeleted rc (joinPath base c) x
       | None, None => False
       end.
Proof.
  intros [Hl Hr]. split.
  - intros [p m Hp Hq Hc|p m Hp Hq Hc|p a b Hp Hq Hne Hd]; destruct p as [|c p]; simpl in *;
      simplify_eq; try (by destruct Hd); exists c;
      try (apply clear_above_cons in Hc as [_ Hc]);
      destruct (child l c) as [lc|] eqn:El, (child r c) as [rc|] eqn:Er; try done;
      try (by constructor; auto); by exists p, m.
  - intros [c Hx]. destruct (child l c) as [lc|] eqn:El, (child r c) as [rc|] eqn:Er; [..|done].
    + destruct Hx as [p m Hp Hq Hc|p m Hp Hq Hc|p a b Hp Hq Hne Hd].
      * apply (spec_added _ _ _ (c :: p)); simpl; rewrite ?El, ?Er; [done..|].
        apply clear_above_cons. split; [done|]. intros k ?. by simplify_eq.
      * apply (spec_deleted _ _ _ (c :: p)); simpl; rewrite ?El, ?Er; [done..|].
        apply clear_above_cons. split; [done|]. intros k ?. by simplify_eq.
      * apply (spec_modified _ _ _ (c :: p)); simpl; rewrite ?El, ?Er; done.
    + destruct Hx as (p & m & Hp & ->). apply (spec_added _ _ _ (c :: p)); simpl; rewrite ?El, ?Er; [done..|].
      apply clear_above_cons. split; [done|]. intros k ?. by simplify_eq.
    + destruct Hx as (p & m & Hp & ->). apply (spec_deleted _ _ _ (c :: p)); simpl; rewrite ?El, ?Er; [done..|].
      apply clear_above_cons. split; [done|]. intros k ?. by simplify_eq.
Qed.

(** One node that is not a directory: only a modification at this path. *)
Lemma diff_spec_leaf l r base x :
  node_wf l → node_wf r → ¬ both_dirs l r → n_Hash l ≠ n_Hash r →
  diff_spec l r base x ↔ x = mkDiff base DiffTypeModified (Some l) (Some r) (modified_chunks l r).
Proof.
  intros Hl Hr Hd Hne. split.
  - assert (n_Type l = NodeTypeFile ∨ n_Type r = NodeTypeFile) as Hty.
    { unfold both_dirs in Hd. destruct (n_Type l), (n_Type r); auto. by destruct Hd. }
    intros [p m Hp Hq Hc|p m Hp Hq Hc|p a b Hp Hq Hne' Hd']; destruct p as [|c p]; simpl in *;
      simplify_eq; try done;
      try (apply clear_above_cons in Hc as [Hc _]);
      destruct Hty as [Ht|Ht]; try congruence;
      try rewrite (file_no_child l c Hl Ht) in *; try rewrite (file_no_child r c Hr Ht) in *; done.
  - intros ->. by apply (spec_modified l r base [] l r).
Qed.

Lemma diff_spec_same l r base x :
  node_wf l → node_wf r → shape l = shape r → ¬ diff_spec l r base x.
Proof.
  intros Hl Hr E Hx. destruct Hx as [p m Hp Hq _|p m Hp Hq _|p a b Hp Hq Hne _];
    pose proof (shape_node_at l r p Hl Hr E) as Hs; rewrite Hp, Hq in Hs; [done..|].
  destruct Hs as (Ha & Hb & Hs). by rewrite !wf_hash, Hs in Hne.
Qed.

(** ** [diffNodes] meets the specification *)
Definition comparable (l r : Node) : Prop :=
  node_wf l ∧ node_wf r ∧
  collision_free (preimage <$> subnodes l) (preimage <$> subnodes r) ∧
  unambiguous (subnodes l) (subnodes r).

Lemma comparable_child l r c lc rc :
  comparable l r → child l c = Some lc → child r c = Some rc → comparable lc rc.
Proof.
  intros (Hl & Hr & Hcf & Hu) El Er.
  pose proof (child_name _ _ _ El) as [_ Hlc]. pose proof (child_name _ _ _ Er) as [_ Hrc].
  split_and!; [by apply (child_wf l c lc)|by apply (child_wf r c rc)|..].
  - intros x y (x' & -> & Hx)%list_elem_of_fmap (y' & -> & Hy)%list_elem_of_fmap.
    apply Hcf; apply list_elem_of_fmap_2; by eapply subnodes_child.
  - intros x y Hx Hy. apply Hu; by eapply subnodes_child.
Qed.

Lemma comparable_shape l r : comparable l r → n_Hash l = n_Hash r → shape l = shape r.
Proof. intros (Hl & Hr & Hcf & Hu). by apply merkle_injective. Qed.

Lemma elem_concat_fmap {A B} (f : A → list B) (l : list A) x :
  x ∈ concat (f <$> l) ↔ ∃ a, a ∈ l ∧ x ∈ f a.
Proof.
  rewrite list_elem_of_In, in_concat. split.
  - intros (k & Hk & Hx). apply list_elem_of_In, list_elem_of_fmap in Hk as (a & -> & Ha).
    exists a. split; [done|by apply list_elem_of_In].
  - intros (a & Ha & Hx). exists (f a). rewrite <- !list_elem_of_In. split; [|done].
    by apply list_elem_of_fmap_2.
Qed.

Section order.
Context (order : bytes → list (bytes * Node) → list (bytes * Node)).
Context (Hord : ∀ p l, order p l ≡ₚ l).

(** The two loops over the children maps visit every child name once. *)
Lemma loops_spec (F : Node → option Node → list DiffResult) (G : Node → list DiffResult) l r cur x :
  x ∈ concat ((λ kv, F kv.2 (children_map (n_Children r) !! kv.1))
                <$> order cur (map_to_list (children_map (n_Children l)))) ++
      concat ((λ kv, match children_map (n_Children l) !! kv.1 with Some _ => [] | None => G kv.2 end)
                <$> order cur (map_to_list (children_map (n_Children r)))) ↔
  ∃ c, match child l c, child r c with
       | Some lc, rc => x ∈ F lc rc
       | None, Some rc => x ∈ G rc
       | None, None => False
       end.
Proof.
  rewrite elem_of_app, !elem_concat_fmap. setoid_rewrite Hord. unfold child. split.
  - intros [([c lc] & Hc & Hx)|([c rc] & Hc & Hx)]; apply elem_of_map_to_list in Hc; simpl in Hx;
      exists c; rewrite Hc; [done|].
    destruct (children_map (n_Children l) !! c); [by apply not_elem_of_nil in Hx|done].
  - intros [c Hx]. destruct (children_map (n_Children l) !! c) as [lc|] eqn:El.
    + left. exists (c, lc). by rewrite elem_of_map_to_list.
    + destruct (children_map (n_Children r) !! c) as [rc|] eqn:Er; [|done].
      right. exists (c, rc). rewrite elem_of_map_to_list. simpl. by rewrite El.
Qed.

Lemma diffNodes_spec fuel l r path x :
  comparable l r → height l < fuel →
  x ∈ diffNodes order fuel (Some l) (Some r) path ↔ diff_spec l r (joinPath path (n_Name l)) x.
Proof.
  revert l r path. induction fuel as [|fuel IH]; intros l r path Hc Hf; [lia|].
  cbn [diffNodes]. set (cur := joinPath path (n_Name l)). pose proof Hc as (Hl & Hr & _).
  destruct (decide (n_Hash l = n_Hash r)) as [Hh|Hh].
  { split; [by intros ?%not_elem_of_nil|]. intros Hx. exfalso.
    by eapply diff_spec_same, Hx; [done..|apply comparable_shape]. }
  destruct (decide (n_Type l ≠ n_Type r)) as [Ht|Ht].
  { assert (¬ both_dirs l r) as Hnd by (intros [? ?]; congruence).
    rewrite diff_spec_leaf, list_elem_of_singleton by done. unfold modified_chunks.
    destruct (n_Type l), (n_Type r); done. }
  apply dec_stable in Ht.
  destruct (decide (n_Type l = NodeTypeFile)) as [Hty|Hty].
  { rewrite diff_spec_leaf, list_elem_of_singleton by (done || intros [? ?]; congruence).
    unfold modified_chunks. by rewrite <- Ht, Hty. }
  assert (both_dirs l r) as Hd.
  { unfold both_dirs. rewrite <- Ht. destruct (n_Type l); done. }
  rewrite diff_spec_dirs by done.
  rewrite (loops_spec (λ lc rc, diffNodes order fuel (Some lc) rc cur)
                      (λ rc, diffNodes order fuel None (Some rc) cur)).
  apply exist_proper. intros c.
  destruct fuel as [|fuel]; [destruct l; simpl in Hf; lia|].
  destruct (child l c) as [lc|] eqn:El, (child r c) as [rc|] eqn:Er; [| | |done].
  - pose proof (child_name _ _ _ El) as [<- _]. pose proof (child_height _ _ _ El).
    rewrite IH; [done|by eapply comparable_child|lia].
  - pose proof (child_name _ _ _ El) as [<- _]. simpl. by rewrite collectAll_spec by (by apply (child_wf l (n_Name lc))).
  - pose proof (child_name _ _ _ Er) as [<- _]. simpl. by rewrite collectAll_spec by (by apply (child_wf r (n_Name rc))).
Qed.

Definition tree_spec (local remote : Tree) (x : DiffResult) : Prop :=
  match t_Root local, t_Root remote with
  | None, None => False
  | Some l, None => all_below DiffTypeAdded l (n_Name l) x
  | None, Some r => all_below DiffTypeDeleted r (n_Name r) x
  | Some l, Some r => diff_spec l r (n_Name l) x
  end.

Definition tree_ok (local remote : Tree) : Prop :=
  match t_Root local, t_Root remote with
  | None, None => True
  | Some n, None | None, Some n => node_wf n
  | Some l, Some r => comparable l r
  end.

Lemma Diff_members (local remote : Tree) (x : DiffResult) :
  tree_ok local remote → x ∈ Diff order local remote ↔ tree_spec local remote x.
Proof.
  destruct local as [[l|]], remote as [[r|]]; unfold tree_ok, tree_spec, Diff; cbn [t_Root].
  - intros Hc. pose proof Hc as (Hl & Hr & _). case_decide as Hh.
    + split; [by intros ?%not_elem_of_nil|]. intros Hx. exfalso.
      by eapply diff_spec_same, Hx; [done..|apply comparable_shape].
    + by rewrite diffNodes_spec by (done || lia).
  - intros Hl. by rewrite collectAll_spec.
  - intros Hr. by rewrite collectAll_spec.
  - intros _. split; [by intros ?%not_elem_of_nil|done].
Qed.

(** C4: The result of Diff is exactly determined by the two trees, whatever the
    iteration order of Go's maps: an entry is reported as added (deleted) if
    and only if its path exists only locally (only remotely) and lies below no
    file of the other tree, and as modified if and only if both trees have a
    node at its path, the hashes differ and they are not both directories; the
    path is the joined names, the chunks are those of an added or deleted file
    and the chunks of the local file that the remote file lacks for a
    modified one. Pruning subtrees with equal hashes loses nothing, provided
    SHA-256 does not collide on the trees' nodes and no two nodes are hashed
    from the same bytes with different readings. *)
Theorem Diff_exact (local remote : Tree) (x : DiffResult) :
  tree_ok local remote → x ∈ Diff order local remote ↔ tree_spec local remote x.
Proof. apply Diff_members. Qed.

(** ** An empty difference *)
Lemma entries_unique (cs1 cs2 : list Node) :
  StronglySorted name_lt cs1 → StronglySorted name_lt cs2 →
  (∀ e, e ∈ ((λ c, (n_Name c, shape c)) <$> cs1) ↔ e ∈ ((λ c, (n_Name c, shape c)) <$> cs2)) →
  (λ c, (n_Name c, shape c)) <$> cs1 = (λ c, (n_Name c, shape c)) <$> cs2.
Proof.
  intros H1 H2 Hm. set (g := λ c, (n_Name c, shape c)) in *.
  set (R := λ a b : bytes * content, bytes_le a.1 b.1).
  assert (∀ cs, StronglySorted name_lt cs → StronglySorted R (g <$> cs) ∧ NoDup (fst <$> (g <$> cs))) as Hs.
  { intros cs Hs. split; [|rewrite <- list_fmap_compose; by apply sorted_NoDup].
    induction Hs as [|c cs Hs IH Hc]; [constructor|]. cbn. constructor; [done|].
    apply Forall_fmap. eapply Forall_impl; [exact Hc|]. by intros y [Hy _]. }
  destruct (Hs cs1 H1) as [Hs1 Hd1], (Hs cs2 H2) as [Hs2 Hd2].
  eapply (StronglySorted_unique_strong R); [|done..|].
  - intros [n1 c1] [n2 c2] Hx Hy H12 H21. assert (n1 = n2) as -> by by apply (anti_symm bytes_le).
    f_equal. apply Hm in Hx. apply list_elem_of_lookup in Hx as [i Hi], Hy as [j Hj].
    assert (i = j) as ->; [|congruence].
    eapply NoDup_lookup; [exact Hd2|..]; by rewrite list_lookup_fmap, ?Hi, ?Hj.
  - apply NoDup_Permutation; [by eapply NoDup_fmap_1..|done].
Qed.

Lemma no_diff_same_shape l r base :
  comparable l r → (∀ x, ¬ diff_spec l r base x) → shape l = shape r.
Proof.
  revert r base. induction l as [nm ty hs md sz cs ch IH] using Node_rec_children.
  set (l := mkNode nm ty hs md sz cs ch) in *. intros r base Hc Hno.
  destruct (decide (n_Hash l = n_Hash r)) as [Hh|Hh]; [by apply comparable_shape|].
  pose proof Hc as (Hl & Hr & _).
  destruct (decide (n_Type l = NodeTypeDir)) as [Tl|Tl], (decide (n_Type r = NodeTypeDir)) as [Tr|Tr];
    [|by edestruct Hno; eapply diff_spec_leaf; [done..|intros [??]|done|reflexivity]..].
  assert (both_dirs l r) as Hd by done.
  assert (∀ c, match child l c, child r c with
               | Some x, Some y => shape x = shape y | None, None => True | _, _ => False end) as Hch.
  { intros c. pose proof (λ x Hx, Hno x (proj2 (diff_spec_dirs l r base x Hd) (ex_intro _ c Hx))) as Hn.
    revert Hn. destruct (child l c) as [lc|] eqn:El, (child r c) as [rc|] eqn:Er;
      intros Hn; [| | |done].
    - rewrite Forall_forall in IH. apply (IH lc (proj2 (child_name _ _ _ El)) rc (joinPath base c)).
      + by eapply comparable_child.
      + intros x Hx. apply (Hn x). by rewrite El.
    - eapply Hn. rewrite El. by exists [], lc.
    - eapply Hn. rewrite El. by exists [], rc. }
  assert (n_Children l = cs) as Ecs by done.
  destruct r as [nm' ty' hs' md' sz' cs' ch']. simpl in Tl, Tr. subst ty ty'. simpl. f_equal.
  change (map ?f ?k) with (f <$> k). apply entries_unique.
  - by inversion Hl.
  - by inversion Hr.
  - intros [n c]. rewrite !list_elem_of_fmap. split.
    + intros (x & [= -> ->] & Hx). specialize (Hch (n_Name x)). rewrite (child_elem l x Hl Hx) in Hch.
      destruct (child _ (n_Name x)) as [y|] eqn:Ey in Hch; [|done]. apply child_name in Ey as [En Hy].
      exists y. by rewrite En, Hch.
    + intros (y & [= -> ->] & Hy). specialize (Hch (n_Name y)).
      rewrite (child_elem _ y Hr Hy) in Hch. destruct (child l (n_Name y)) as [x|] eqn:Ex; [|done].
      apply child_name in Ex as [En Hx]. exists x. by rewrite En, Hch.
Qed.

(** Diff of two trees is empty if and only if they have the same content:
    the same names, types and chunk hashes throughout (modes, sizes and the
    name of the root are not compared). Two well-formed trees with equal root
    hashes have the same content, and equal content gives equal root hashes. *)
Theorem Diff_empty_iff (l r : Node) :
  comparable l r →
  (Diff order (mkTree (Some l)) (mkTree (Some r)) = [] ↔ shape l = shape r) ∧
  (n_Hash l = n_Hash r ↔ shape l = shape r).
Proof.
  intros Hc. pose proof Hc as (Hl & Hr & _). split; [split|split].
  - intros E. apply (no_diff_same_shape l r (n_Name l) Hc). intros x Hx.
    assert (n_Hash l = n_Hash r ∨ n_Hash l ≠ n_Hash r) as [Hh|Hh] by (destruct (decide (n_Hash l = n_Hash r)); auto).
    + eapply diff_spec_same, Hx; [done..|by apply comparable_shape].
    + unfold Diff in E. cbn [t_Root] in E. rewrite decide_False in E by done.
      apply (diffNodes_spec (S (height l)) l r [] x Hc) in Hx; [|lia]. rewrite E in Hx.
      by apply not_elem_of_nil in Hx.
  - intros E. unfold Diff. cbn [t_Root]. rewrite decide_True; [done|]. by rewrite !wf_hash, E.
  - by apply comparable_shape.
  - intros E. by rewrite !wf_hash, E.
Qed.
End order.

(** ** What the hashes do not see *)
Lemma equal_hash_no_diff order l r :
  n_Hash l = n_Hash r → Diff order (mkTree (Some l)) (mkTree (Some r)) = [].
Proof. intros E. unfold Diff. simpl. by rewrite decide_True. Qed.

Lemma NewFileNode_hash nm md chunks : n_Hash (NewFileNode nm md chunks) = sha256 (concat chunks).
Proof. unfold NewFileNode. by rewrite computeFileHash_hash. Qed.

Lemma NewDirNode_hash nm md cs :
  n_Hash (NewDirNode nm md cs) = sha256 (dir_preimage (sort_children cs)).
Proof. unfold NewDirNode. by rewrite computeDirHash_hash. Qed.

Lemma sort_two a b : name_lt a b → sort_children [a; b] = [a; b].
Proof.
  intros [Hle Hne]. apply sort_unique.
  - apply NoDup_names_sort. cbn. apply NoDup_cons. split; [|by apply NoDup_singleton].
    by rewrite list_elem_of_singleton.
  - apply sort_children_perm.
  - apply Sorted_StronglySorted; [apply _|]. apply Sorted_merge_sort, _.
  - repeat constructor. done.
Qed.

(** Three changes that Diff cannot see, because the hashed bytes carry
    neither a type tag nor lengths nor modes: an empty file and an empty
    directory have the same hash; a directory with children a and b has the
    same hash as the directory whose only child has b's hash and the name
    a.Name ++ a.Hash ++ b.Name; nodes that differ only in mode have the same
    hash. In each case Diff reports no difference. *)
Theorem hash_confusions (order : bytes → list (bytes * Node) → list (bytes * Node))
    (nm : bytes) (md md' : Z) (chunks : list bytes) (a b x : Node) :
  name_lt a b → n_Name x = n_Name a ++ n_Hash a ++ n_Name b → n_Hash x = n_Hash b →
  let file := NewFileNode nm md in let dir := NewDirNode nm md in
  (n_Type (file []) ≠ n_Type (dir []) ∧
   Diff order (mkTree (Some (file []))) (mkTree (Some (dir []))) = []) ∧
  (length (n_Children (dir [a; b])) ≠ length (n_Children (dir [x])) ∧
   Diff order (mkTree (Some (dir [a; b]))) (mkTree (Some (dir [x]))) = []) ∧
  Diff order (mkTree (Some (file chunks))) (mkTree (Some (NewFileNode nm md' chunks))) = [].
Proof.
  intros Hab Hn Hh file dir. split_and!; unfold file, dir; try done;
    try apply equal_hash_no_diff; rewrite ?NewFileNode_hash, ?NewDirNode_hash; try done.
  - simpl. by rewrite sort_two.
  - rewrite sort_two by done. unfold dir_preimage. cbn. rewrite Hn, Hh. by rewrite <- !app_assoc.
Qed.
End spec.

(** ** Witnesses *)
Module DiffExample.
#[local] Existing Instance sha256_fips.

Definition unambiguousb (xs ys : list Node) : bool :=
  forallb (λ a, forallb (λ b,
    implb (bool_decide (preimage a = preimage b)) (bool_decide (level a = level b))) ys) xs.

Lemma unambiguousb_sound xs ys : unambiguousb xs ys = true → unambiguous xs ys.
Proof.
  unfold unambiguousb. rewrite List.forallb_forall. intros Hx a b Ha%list_elem_of_In Hb%list_elem_of_In E.
  specialize (Hx a Ha). rewrite List.forallb_forall in Hx. specialize (Hx b Hb).
  rewrite (bool_decide_eq_true_2 _ E) in Hx. by apply bool_decide_eq_true in Hx.
Qed.

Definition str := bytes_of_string.
Definition chunk1 : bytes := replicate 32 x01.
Definition chunk2 : bytes := replicate 32 x02.
Definition file_a1 : Node := NewFileNode (str "a") 420 [chunk1].
Definition file_a2 : Node := NewFileNode (str "a") 420 [chunk2; chunk1].
Definition file_b : Node := NewFileNode (str "b") 420 [chunk2].
Definition sub : Node := NewDirNode (str "sub") 493 [file_b].
Definition local : Node := NewDirNode (str "root") 493 [sub; file_a1].
Definition remote : Node := NewDirNode (str "root") 493 [file_a2; file_b].
Definition keep (p : bytes) (l : list (bytes * Node)) : list (bytes * Node) := l.

Lemma leaf_wf nm md c : c = chunk1 ∨ c = chunk2 → node_wf (NewFileNode nm md [c]).
Proof. intros [->| ->]; apply NewFileNode_wf; repeat constructor. Qed.

Lemma local_wf : node_wf local.
Proof.
  apply NewDirNode_wf; [|apply (bool_decide_unpack _); vm_compute; exact I].
  repeat apply Forall_cons_2; [|by apply leaf_wf; auto|constructor].
  apply NewDirNode_wf; [|apply NoDup_singleton]. apply Forall_singleton, leaf_wf. auto.
Qed.

Lemma remote_wf : node_wf remote.
Proof.
  apply NewDirNode_wf; [|apply (bool_decide_unpack _); vm_compute; exact I].
  repeat apply Forall_cons_2; [apply NewFileNode_wf; repeat constructor|by apply leaf_wf; auto|constructor].
Qed.

Lemma local_remote : comparable local remote.
Proof.
  split_and!; [apply local_wf|apply remote_wf|..].
  - apply collision_freeb_sound. vm_compute. reflexivity.
  - apply unambiguousb_sound. vm_compute. reflexivity.
Qed.

(** The paths and kinds reported for the two example trees. *)
Example diff_kinds :
  (λ d, (d_Path d, d_Type d)) <$> Diff keep (mkTree (Some local)) (mkTree (Some remote))
  ≡ₚ [(str "root/sub", DiffTypeAdded); (str "root/sub/b", DiffTypeAdded);
      (str "root/a", DiffTypeModified); (str "root/b", DiffTypeDeleted)].
Proof. apply (bool_decide_unpack _). vm_compute. exact I. Qed.

Lemma Diff_exact_witness :
  mkDiff (str "root/b") DiffTypeDeleted None (Some file_b) [chunk2]
    ∈ Diff keep (mkTree (Some local)) (mkTree (Some remote)).
Proof.
  apply (Diff_exact keep (λ _ _, reflexivity _) (mkTree (Some local)) (mkTree (Some remote)));
    [apply local_remote|].
  apply (spec_deleted local remote (str "root") [str "b"] file_b).
  - vm_compute. reflexivity.
  - vm_compute. reflexivity.
  - apply clear_above_cons. split; [reflexivity|]. intros m Hm. vm_compute in Hm. discriminate Hm.
Defined.

Lemma Diff_empty_iff_witness :
  Diff keep (mkTree (Some local)) (mkTree (Some remote)) ≠ [] ∧
  Diff keep (mkTree (Some local)) (mkTree (Some local)) = [].
Proof.
  split.
  - intros E. apply (Diff_empty_iff keep (λ _ _, reflexivity _) local remote local_remote) in E.
    vm_compute in E. discriminate E.
  - apply (Diff_empty_iff keep (λ _ _, reflexivity _) local local); [|reflexivity].
    split_and!; [apply local_wf|apply local_wf|..].
    + apply collision_freeb_sound. vm_compute. reflexivity.
    + apply unambiguousb_sound. vm_compute. reflexivity.
Defined.

(** A directory entry whose name swallows the name and hash of another. *)
Definition swallow : Node :=
  NewFileNode (n_Name file_a1 ++ n_Hash file_a1 ++ n_Name file_b) 420 [chunk2].

Lemma hash_confusions_witness :
  Diff keep (mkTree (Some (NewDirNode (str "d") 493 [file_a1; file_b])))
    (mkTree (Some (NewDirNode (str "d") 493 [swallow]))) = [].
Proof.
  assert (name_lt file_a1 file_b) as Hlt
    by (split; [vm_compute; exact I|vm_compute; discriminate]).
  assert (n_Hash swallow = n_Hash file_b) as Hh
    by (unfold swallow, file_b; by rewrite !NewFileNode_hash).
  destruct (hash_confusions keep (str "d") 493 0 [] file_a1 file_b swallow Hlt eq_refl Hh)
    as (_ & [_ E] & _).
  exact E.
Defined.

Lemma constructors_wf_witness :
  node_wf local ∧ NewDirNode (str "root") 493 [file_a1; sub] = local.
Proof.
  destruct (constructors_wf (str "root") 493 [sub; file_a1] local) as (Hw & Hp & _).
  - repeat apply Forall_cons_2; [|by apply leaf_wf; auto|constructor].
    apply NewDirNode_wf; [|apply NoDup_singleton]. apply Forall_singleton, leaf_wf. auto.
  - apply (bool_decide_unpack _). vm_compute. exact I.
  - split; [exact Hw|]. apply Hp. constructor.
Defined.

Lemma GetChild_finds_witness :
  GetChild local (str "sub") = children_map (n_Children local) !! str "sub" ∧
  n_Name <$> GetChild local (str "sub") = Some (str "sub").
Proof. split; [apply (GetChild_finds local (str "sub")), local_wf|vm_compute; reflexivity]. Defined.
End DiffExample.
