(* ===== verification/Manifest.v ===== *)
(** * Manifests: trees on the wire

    Three converters between Merkle nodes and manifests: the serialisable
    [merkle.Manifest] ([internal/merkle/build.go]), the protobuf
    [proto.ManifestNode] of the sync manager ([internal/net/sync.go]) and the
    one of the command line ([cmd/p2p-file-sync/main.go]), with the tree
    statistics the command line prints. The Go structs generated from
    [sync.proto] are the records below, one field per field. *)
From Stdlib Require Import Strings.Byte Strings.String.
From S2P Require Import Prelude Sha256 Merkle MerkleSpec.

Set Warnings "-register-all".

(** ** [merkle.Manifest] *)
Inductive MNode := mkMNode {
  mn_Name : bytes;
  mn_Type : NodeType;
  mn_Hash : bytes;
  mn_Mode : Z;
  mn_Size : Z;
  mn_Children : list MNode;
  mn_Chunks : list bytes;
}.

Record Manifest := mkManifest { m_Root : option MNode }.

Fixpoint nodeToManifestNode (n : Node) : MNode :=
  match n_Type n with
  | NodeTypeFile => mkMNode (n_Name n) (n_Type n) (n_Hash n) (n_Mode n) (n_Size n) [] (n_Chunks n)
  | NodeTypeDir =>
      mkMNode (n_Name n) (n_Type n) (n_Hash n) (n_Mode n) (n_Size n)
        (map nodeToManifestNode (n_Children n)) []
  end.

Definition ToManifest (t : Tree) : Manifest :=
  match t_Root t with
  | None => mkManifest None
  | Some n => mkManifest (Some (nodeToManifestNode n))
  end.

Fixpoint manifestNodeToNode (mn : MNode) : Node :=
  match mn_Type mn with
  | NodeTypeFile => mkNode (mn_Name mn) (mn_Type mn) (mn_Hash mn) (mn_Mode mn) (mn_Size mn) [] (mn_Chunks mn)
  | NodeTypeDir =>
      mkNode (mn_Name mn) (mn_Type mn) (mn_Hash mn) (mn_Mode mn) (mn_Size mn)
        (map manifestNodeToNode (mn_Children mn)) []
  end.

Definition BuildFromManifest (m : option Manifest) : Tree :=
  match m with
  | None => mkTree None
  | Some m =>
      match m_Root m with
      | None => mkTree None
      | Some r => mkTree (Some (manifestNodeToNode r))
      end
  end.

(** ** [proto.ManifestNode] *)
Inductive ManifestNode := mkManifestNode {
  pm_Name : bytes;
  pm_IsDir : bool;
  pm_Hash : bytes;
  pm_Mode : Z;
  pm_Size : Z;
  pm_Children : list ManifestNode;
  pm_Chunks : list bytes;
}.

Lemma ManifestNode_rec_children (P : ManifestNode → Prop) :
  (∀ nm d hs md sz cs ch, Forall P cs → P (mkManifestNode nm d hs md sz cs ch)) → ∀ n, P n.
Proof.
  intros HP. fix IH 1. intros [nm d hs md sz cs ch]. apply HP.
  induction cs as [|c cs IHcs]; constructor; [apply IH|apply IHcs].
Qed.

Record ManifestResponse := mkManifestResponse {
  mr_Root : option ManifestNode;
  mr_NodeCount : Z;
}.

(** [internal/net/sync.go]: [nodeToManifest] copies children and chunks of
    every node, whatever its type. *)
Fixpoint nodeToManifest (n : Node) : ManifestNode :=
  mkManifestNode (n_Name n) (bool_decide (n_Type n = NodeTypeDir)) (n_Hash n) (n_Mode n) (n_Size n)
    (map nodeToManifest (n_Children n)) (n_Chunks n).

Fixpoint manifestToNode (mn : ManifestNode) : Node :=
  mkNode (pm_Name mn) (if pm_IsDir mn then NodeTypeDir else NodeTypeFile) (pm_Hash mn) (pm_Mode mn)
    (pm_Size mn) (map manifestToNode (pm_Children mn)) (pm_Chunks mn).

(** [cmd/p2p-file-sync/main.go]: chunks only for files. *)
Fixpoint convertTreeToManifest (n : Node) : ManifestNode :=
  mkManifestNode (n_Name n) (bool_decide (n_Type n = NodeTypeDir)) (n_Hash n) (n_Mode n) (n_Size n)
    (map convertTreeToManifest (n_Children n))
    (match n_Type n with NodeTypeFile => n_Chunks n | NodeTypeDir => [] end).

(** ** Tree statistics of the command line *)
Fixpoint depth_node (n : Node) : nat :=
  match n_Children n with
  | [] => 1
  | cs => foldl (λ m d, if decide (m < d) then d else m) 0 (map depth_node cs) + 1
  end.

Definition calculateTreeDepth (n : option Node) : nat :=
  match n with None => 1 | Some n => depth_node n end.

Fixpoint count_nodes (n : Node) : nat := foldl (λ c k, c + k) 1 (map count_nodes (n_Children n)).

Definition countNodes (n : option Node) : nat :=
  match n with None => 0 | Some n => count_nodes n end.

Fixpoint count_files (n : Node) : nat :=
  match n_Type n with
  | NodeTypeFile => 1
  | NodeTypeDir => foldl (λ c k, c + k) 0 (map count_files (n_Children n))
  end.

Definition countFiles (n : option Node) : nat :=
  match n with None => 0 | Some n => count_files n end.

(** ** Round trips *)
Lemma map_id_Forall {A} (f : A → A) l : Forall (λ x, f x = x) l → map f l = l.
Proof. induction 1; simpl; congruence. Qed.

Lemma manifestToNode_nodeToManifest n : manifestToNode (nodeToManifest n) = n.
Proof.
  induction n as [nm ty hs md sz cs ch IH] using Node_rec_children. simpl.
  rewrite map_map, map_id_Forall by done. by destruct ty.
Qed.

Lemma nodeToManifest_manifestToNode mn : nodeToManifest (manifestToNode mn) = mn.
Proof.
  induction mn as [nm d hs md sz cs ch IH] using ManifestNode_rec_children. simpl.
  rewrite map_map, map_id_Forall by done. by destruct d.
Qed.

Section roundtrip.
Context `{HashFn}.

Lemma merkle_manifest_roundtrip n : node_wf n → manifestNodeToNode (nodeToManifestNode n) = n.
Proof.
  induction n as [nm ty hs md sz cs ch IH] using Node_rec_children. inversion 1; subst; simpl; [done|].
  f_equal. rewrite map_map. apply map_id_Forall. rewrite Forall_forall in *. auto.
Qed.

Lemma convert_is_nodeToManifest n : node_wf n → convertTreeToManifest n = nodeToManifest n.
Proof.
  induction n as [nm ty hs md sz cs ch IH] using Node_rec_children. inversion 1; subst; simpl; [done|].
  f_equal. rewrite Forall_forall in *. apply map_ext_in. intros c Hc%list_elem_of_In. auto.
Qed.

(** Every converter between trees and manifests loses nothing: the sync
    manager's pair are mutually inverse on all nodes and all manifests, the
    serialisable manifest restores every well-formed tree, and on well-formed
    trees the command line's converter agrees with the sync manager's. *)
Theorem manifest_roundtrips (n : Node) (mn : ManifestNode) :
  node_wf n →
  manifestToNode (nodeToManifest n) = n ∧
  nodeToManifest (manifestToNode mn) = mn ∧
  BuildFromManifest (Some (ToManifest (mkTree (Some n)))) = mkTree (Some n) ∧
  manifestToNode (convertTreeToManifest n) = n.
Proof.
  intros Hw. split_and!.
  - apply manifestToNode_nodeToManifest.
  - apply nodeToManifest_manifestToNode.
  - simpl. by rewrite merkle_manifest_roundtrip.
  - by rewrite convert_is_nodeToManifest, manifestToNode_nodeToManifest.
Qed.

Lemma foldl_add (l : list nat) k : foldl (λ c x, c + x) k l = k + sum_list l.
Proof. revert k. induction l as [|x l IH]; intros k; simpl; [lia|]. rewrite IH. lia. Qed.

Lemma foldl_max (l : list nat) k : foldl (λ m d, if decide (m < d) then d else m) k l = Nat.max k (list_max l).
Proof.
  revert k. induction l as [|x l IH]; intros k; simpl; [lia|]. rewrite IH. case_decide; lia.
Qed.

Lemma length_concat_map {A B} (f : A → list B) (l : list A) :
  length (concat (map f l)) = sum_list (map (λ x, length (f x)) l).
Proof. induction l as [|x l IH]; simpl; [done|]. by rewrite length_app, IH. Qed.

Lemma filter_concat_map {A B} (P : B → Prop) `{∀ x, Decision (P x)} (f : A → list B) (l : list A) :
  length (filter P (concat (map f l))) = sum_list (map (λ x, length (filter P (f x))) l).
Proof. induction l as [|x l IH]; simpl; [done|]. by rewrite filter_app, length_app, IH. Qed.

(** The statistics are what they are called: countNodes is the number of
    nodes of the tree, countFiles the number of its file nodes, and
    calculateTreeDepth its height, on every well-formed tree. *)
Theorem tree_statistics (n : Node) :
  node_wf n →
  countNodes (Some n) = length (subnodes n) ∧
  countFiles (Some n) = length (filter (λ x, n_Type x = NodeTypeFile) (subnodes n)) ∧
  calculateTreeDepth (Some n) = height n.
Proof.
  simpl. induction n as [nm ty hs md sz cs ch IH] using Node_rec_children. intros Hw.
  pose proof (wf_children _ Hw) as [Hf _]. cbn [n_Children] in Hf.
  assert (Forall (λ x, count_nodes x = length (subnodes x) ∧
    count_files x = length (filter (λ x, n_Type x = NodeTypeFile) (subnodes x)) ∧
    depth_node x = height x) cs) as Hx.
  { rewrite Forall_forall in *. intros x Hx. by apply IH; auto. }
  clear IH. split_and!.
  - cbn [count_nodes subnodes n_Children length]. rewrite foldl_add, length_concat_map. simpl. do 2 f_equal.
    apply map_ext_Forall. eapply Forall_impl; [exact Hx|]. by intros ? (? & _).
  - cbn [count_files subnodes n_Children n_Type]. rewrite filter_cons. cbn [n_Type].
    inversion Hw; subst; [done|]. rewrite decide_False, foldl_add, filter_concat_map by done.
    simpl. f_equal. apply map_ext_Forall. eapply Forall_impl; [exact Hx|]. by intros ? (_ & ? & _).
  - cbn [depth_node height n_Children]. destruct cs as [|c cs]; [done|].
    rewrite foldl_max, Nat.max_0_l, Nat.add_1_r. do 2 f_equal.
    apply map_ext_Forall. eapply Forall_impl; [exact Hx|]. by intros ? (_ & _ & ?).
Qed.
End roundtrip.

(** ** Witnesses *)
Module ManifestExample.
#[local] Existing Instance sha256_fips.

Definition leaf : Node := NewFileNode (bytes_of_string "a") 420 [replicate 32 x01].
Definition root : Node := NewDirNode (bytes_of_string "r") 493 [leaf].

Lemma root_wf : node_wf root.
Proof.
  apply NewDirNode_wf; [|apply NoDup_singleton]. apply Forall_singleton, NewFileNode_wf.
  repeat constructor.
Qed.

Lemma manifest_roundtrips_witness :
  BuildFromManifest (Some (ToManifest (mkTree (Some root)))) = mkTree (Some root) ∧
  manifestToNode (convertTreeToManifest root) = root.
Proof.
  destruct (manifest_roundtrips root (convertTreeToManifest root) root_wf) as (_ & _ & H1 & H2).
  split; [exact H1|exact H2].
Defined.

Lemma tree_statistics_witness :
  countNodes (Some root) = 2 ∧ countFiles (Some root) = 1 ∧ calculateTreeDepth (Some root) = 2.
Proof.
  destruct (tree_statistics root root_wf) as (H1 & H2 & H3).
  split_and!; [etransitivity; [exact H1|]|etransitivity; [exact H2|]|etransitivity; [exact H3|]];
    vm_compute; reflexivity.
Defined.
End ManifestExample.
