(* ===== verification/TreePrint.v ===== *)
(** * Printing a tree ([internal/merkle/tree.go])

    [PrintTree] as the list of lines it prints. [node.HashHex()[:8]] panics when
    a node's hash has fewer than four bytes. *)
From Stdlib Require Import Strings.Byte Strings.String.
From S2P Require Import Prelude Sha256 Merkle MerkleSpec Manifest.

Abbreviation text := bytes_of_string.

Definition DiffType_String (d : DiffType) : bytes :=
  match d with
  | DiffTypeAdded => text "added"
  | DiffTypeDeleted => text "deleted"
  | DiffTypeModified => text "modified"
  end.

(** What a line says of its node, behind the drawing. *)
Definition label (n : Node) (hex8 : bytes) : bytes :=
  text "[" ++ text (if IsDir n then "D" else "F") ++ text "] " ++ n_Name n ++ text " (" ++ hex8 ++ text ")".

Definition marker (isLast : bool) : bytes := text (if isLast then "└── " else "├── ").

Section children.
Context (print : Node → bytes → bool → outcome unit (list bytes)).

(** The loop over the children. *)
Fixpoint print_children (cs : list Node) (prefix : bytes) : outcome unit (list bytes) :=
  match cs with
  | [] => Ret []
  | c :: cs' =>
      ls ← print c prefix (match cs' with [] => true | _ => false end);
      rest ← print_children cs' prefix;
      Ret (ls ++ rest)
  end.
End children.

Fixpoint printNode (n : Node) (prefix : bytes) (isLast : bool) : outcome unit (list bytes) :=
  hex8 ← or_panic (slicez (node_HashHex n) 0 8);
  let line := prefix ++ marker isLast ++ label n hex8 in
  if IsDir n then
    let newPrefix := prefix ++ text (if isLast then "    " else "│   ") in
    below ← print_children printNode (n_Children n) newPrefix;
    Ret (line :: below)
  else Ret [line].

Definition PrintTree (t : Tree) : outcome unit (list bytes) :=
  match t_Root t with
  | None => Ret [text "<empty tree>"]
  | Some root => printNode root [] true
  end.

Section print.
Context `{HashFn}.

(** A line for a node: a drawing, then its label. *)
Definition shows (line : bytes) (x : Node) : Prop :=
  ∃ prefix isLast, line = prefix ++ marker isLast ++ label x (take 8 (node_HashHex x)).

Lemma hex8_ok n : node_wf n → slicez (node_HashHex n) 0 8 = Some (take 8 (node_HashHex n)).
Proof.
  intros Hw. rewrite slicez_ok; [done|lia|lia|]. unfold node_HashHex. rewrite length_hex_encode.
  inversion Hw; simpl; rewrite sha256_length; lia.
Qed.

Lemma print_children_lines print cs prefix :
  Forall (λ c, ∀ p l, ∃ ls, print c p l = Ret ls ∧ Forall2 shows ls (subnodes c)) cs →
  ∃ ls, print_children print cs prefix = Ret ls ∧ Forall2 shows ls (concat (map subnodes cs)).
Proof.
  induction 1 as [|c cs Hc _ IH]; [by exists []|].
  destruct (Hc prefix (match cs with [] => true | _ => false end)) as (ls & E & Hs). destruct IH as (rest & E' & Hr).
  exists (ls ++ rest). split; [|by apply Forall2_app]. cbn. rewrite E, Ret_bind, E'. done.
Qed.

Lemma printNode_lines n prefix isLast :
  node_wf n → ∃ ls, printNode n prefix isLast = Ret ls ∧ Forall2 shows ls (subnodes n).
Proof.
  revert prefix isLast. induction n as [nm ty hs md sz cs ch IH] using Node_rec_children. intros prefix isLast Hw.
  pose proof (hex8_ok _ Hw) as Hx. cbn [printNode]. rewrite Hx. cbn [or_panic]. rewrite Ret_bind. cbv zeta.
  assert (∀ x : Node, shows (prefix ++ marker isLast ++ label x (take 8 (node_HashHex x))) x) as Hself by (intros x; by eexists _, _).
  inversion Hw; subst; unfold IsDir at 1; cbn [n_Type n_Children].
  - rewrite bool_decide_eq_false_2 by done. eexists. split; [done|]. cbn. constructor; [apply Hself|constructor].
  - rewrite bool_decide_eq_true_2 by done.
    destruct (print_children_lines printNode cs (prefix ++ text (if isLast then "    " else "│   "))) as (ls & E & Hs).
    { rewrite Forall_forall in *. intros c Hc p l. by apply IH; auto. }
    rewrite E, Ret_bind. eexists. split; [done|]. cbn. constructor; [apply Hself|done].
Qed.

(** PrintTree prints one line per node of a well-formed tree, a directory
    before its children and these in order, each line ending with the node's
    kind, name and the first four bytes of its hash; it does not panic. *)
Theorem tree_printed n :
  node_wf n →
  ∃ ls, PrintTree (mkTree (Some n)) = Ret ls ∧ Forall2 shows ls (subnodes n) ∧ length ls = countNodes (Some n).
Proof.
  intros Hw. destruct (printNode_lines n [] true Hw) as (ls & E & Hs). exists ls. split_and!; [done..|].
  rewrite (Forall2_length _ _ _ Hs). symmetry. by apply tree_statistics.
Qed.
End print.

Module PrintExample.
#[local] Existing Instance sha256_fips.
Import ManifestExample.

Example printed :
  PrintTree (mkTree (Some (NewDirNode (text "r") 493 [leaf; NewDirNode (text "d") 493 [leaf]]))) = Ret [
    text "└── [D] r (e496027c)"; text "    ├── [F] a (72cd6e84)"; text "    └── [D] d (29a8ad48)";
    text "        └── [F] a (72cd6e84)"].
Proof. vm_compute. reflexivity. Qed.

(** A node that a peer sent without a hash. *)
Example short_hash_panics : PrintTree (mkTree (Some (mkNode [] NodeTypeFile [] 0 0 [] []))) = Panic.
Proof. reflexivity. Qed.
End PrintExample.
