(* ===== verification/DiffTrees.v ===== *)
(** * The manifest difference of the command line ([internal/diff/diff.go])

    [diffNode] mutates a shared result, which is passed along explicitly. The
    order in which Go ranges over the set of child names is a parameter. A nil
    dereference is [Panic]; so is running out of fuel, which the theorems show
    does not happen with the fuel [DiffTrees] supplies. *)
From Stdlib Require Import Strings.Byte Strings.String.
From S2P Require Import Prelude Sha256 Fs Merkle MerkleSpec DiffSpec Manifest.

Record DResult := mkDResult {
  r_Added : list ManifestNode;
  r_Modified : list ManifestNode;
  r_Deleted : list bytes;
}.

Definition empty_result : DResult := mkDResult [] [] [].

Definition pm_children_map (cs : list ManifestNode) : gmap bytes ManifestNode :=
  foldl (λ m c, <[pm_Name c := c]> m) ∅ cs.

Definition child_path (path name : bytes) : bytes :=
  if decide (path = []) then name else Join2 path name.

Section diff.
Variable order : bytes → list bytes → list bytes.

Fixpoint diffNode (fuel : nat) (local remote : option ManifestNode) (path : bytes) (result : DResult)
    : outcome unit DResult :=
  match fuel with
  | O => Panic
  | S fuel' =>
      match local, remote with
      | None, Some r => Ret (mkDResult (r_Added result ++ [r]) (r_Modified result) (r_Deleted result))
      | Some _, None => Ret (mkDResult (r_Added result) (r_Modified result) (r_Deleted result ++ [path]))
      | None, None => Panic
      | Some l, Some r =>
          if decide (pm_Hash l = pm_Hash r) then Ret result
          else if negb (pm_IsDir l) && negb (pm_IsDir r) then
            Ret (mkDResult (r_Added result) (r_Modified result ++ [r]) (r_Deleted result))
          else
            let localChildren := pm_children_map (pm_Children l) in
            let remoteChildren := pm_children_map (pm_Children r) in
            let allNames : gset bytes := dom localChildren ∪ dom remoteChildren in
            foldl (λ acc name,
                     res ← acc;
                     diffNode fuel' (localChildren !! name) (remoteChildren !! name) (child_path path name) res)
              (Ret result) (order path (elements allNames))
      end
  end.

Fixpoint pm_height (n : ManifestNode) : nat := S (list_max (map pm_height (pm_Children n))).

Definition DiffTrees (local remote : option ManifestNode) : outcome unit DResult :=
  diffNode (S (match local with Some l => pm_height l | None => 0 end)) local remote [] empty_result.
End diff.

(** ** Manifests as trees *)
Definition pm_child (n : ManifestNode) (c : bytes) : option ManifestNode :=
  pm_children_map (pm_Children n) !! c.

Fixpoint pm_at (n : ManifestNode) (p : list bytes) : option ManifestNode :=
  match p with
  | [] => Some n
  | c :: p' => match pm_child n c with Some m => pm_at m p' | None => None end
  end.

Lemma pm_child_elem n c k : pm_child n c = Some k → pm_Name k = c ∧ k ∈ pm_Children n.
Proof.
  intros E. assert (∀ (cs : list ManifestNode) (m : gmap bytes ManifestNode),
    foldl (λ (m : gmap bytes ManifestNode) c, <[pm_Name c := c]> m) m cs !! c = Some k →
    m !! c = Some k ∨ (pm_Name k = c ∧ k ∈ cs)) as Hf.
  { induction cs as [|x cs IH]; intros m Hm; simpl in Hm; [auto|].
    apply IH in Hm as [Hm|[? ?]]; [|right; split; [done|by right]].
    rewrite lookup_insert in Hm. case_decide as Hx; [|auto].
    injection Hm as <-. right. split; [done|left]. }
  apply Hf in E as [E|E]; [by rewrite lookup_empty in E|done].
Qed.

Lemma pm_children_fmap (cs : list ManifestNode) (m : gmap bytes ManifestNode) :
  foldl (λ (m : gmap bytes Node) c, <[n_Name c := c]> m) (manifestToNode <$> m) (map manifestToNode cs)
  = manifestToNode <$> foldl (λ (m : gmap bytes ManifestNode) c, <[pm_Name c := c]> m) m cs.
Proof.
  revert m. induction cs as [|c cs IH]; intros m; simpl; [done|]. rewrite <- IH. f_equal.
  rewrite fmap_insert. by destruct c.
Qed.

Lemma child_manifest n c : child (manifestToNode n) c = manifestToNode <$> pm_child n c.
Proof.
  unfold child, pm_child. destruct n as [nm d hs md sz cs ch]. simpl.
  unfold children_map, pm_children_map. rewrite <- lookup_fmap, <- pm_children_fmap, fmap_empty. done.
Qed.

Lemma node_at_manifest n p : node_at (manifestToNode n) p = manifestToNode <$> pm_at n p.
Proof.
  revert n. induction p as [|c p IH]; intros n; simpl; [done|]. rewrite child_manifest.
  destruct (pm_child n c); simpl; [apply IH|done].
Qed.

Lemma pm_at_app n p q : pm_at n (p ++ q) = match pm_at n p with Some m => pm_at m q | None => None end.
Proof. revert n. induction p as [|c p IH]; intros n; simpl; [done|]. destruct (pm_child n c); [apply IH|done]. Qed.

Lemma pm_height_child n c m : pm_child n c = Some m → pm_height m < pm_height n.
Proof.
  assert (∀ k, height (manifestToNode k) = pm_height k) as Hk.
  { induction k as [nm d hs md sz cs ch IH] using ManifestNode_rec_children. simpl. do 2 f_equal.
    rewrite map_map. by apply map_ext_Forall. }
  intros E. rewrite <- !Hk. apply (child_height _ c). by rewrite child_manifest, E.
Qed.

Lemma pm_hash n : n_Hash (manifestToNode n) = pm_Hash n.
Proof. by destruct n. Qed.

Lemma pm_type n : n_Type (manifestToNode n) = if pm_IsDir n then NodeTypeDir else NodeTypeFile.
Proof. by destruct n. Qed.

(** ** Specification *)
Inductive entry :=
| EAdded (m : ManifestNode)
| EModified (m : ManifestNode)
| EDeleted (path : bytes).

Definition reported (res : DResult) (e : entry) : Prop :=
  match e with
  | EAdded m => m ∈ r_Added res
  | EModified m => m ∈ r_Modified res
  | EDeleted p => p ∈ r_Deleted res
  end.

(** What is reported for [l] against [r] found at the relative path [p0]. *)
Inductive trees_spec (l r : ManifestNode) (p0 : list bytes) : entry → Prop :=
| ts_added p a b c m :
    pm_at l p = Some a → pm_at r p = Some b → pm_child a c = None → pm_child b c = Some m →
    trees_spec l r p0 (EAdded m)
| ts_deleted p a b c m :
    pm_at l p = Some a → pm_at r p = Some b → pm_child a c = Some m → pm_child b c = None →
    trees_spec l r p0 (EDeleted (join_slash (p0 ++ p ++ [c])))
| ts_modified p a b :
    pm_at l p = Some a → pm_at r p = Some b → pm_IsDir a = false → pm_IsDir b = false →
    pm_Hash a ≠ pm_Hash b → trees_spec l r p0 (EModified b).

Definition names_plain (n : ManifestNode) : Prop :=
  ∀ p m c k, pm_at n p = Some m → pm_child m c = Some k → plain_name c.

Lemma names_plain_child n c k : names_plain n → pm_child n c = Some k → plain_name c ∧ names_plain k.
Proof.
  intros Hn Hk. split; [by apply (Hn [] n c k)|].
  intros p m c' k' Hp. apply (Hn (c :: p) m). simpl. by rewrite Hk.
Qed.

Lemma trees_spec_inner l r p0 e :
  pm_IsDir l = true ∨ pm_IsDir r = true →
  trees_spec l r p0 e ↔
  ∃ c, match pm_child l c, pm_child r c with
       | Some a, Some b => trees_spec a b (p0 ++ [c]) e
       | None, Some m => e = EAdded m
       | Some _, None => e = EDeleted (join_slash (p0 ++ [c]))
       | None, None => False
       end.
Proof.
  intros Hd. split.
  - assert (∀ (x : ManifestNode) c p y, pm_at x (c :: p) = Some y →
      ∃ k, pm_child x c = Some k ∧ pm_at k p = Some y) as Hat.
    { intros x c p y. simpl. destruct (pm_child x c); [eauto|done]. }
    intros [p a b c m Ha Hb H1 H2|p a b c m Ha Hb H1 H2|p a b Ha Hb H1 H2 H3]; destruct p as [|d p];
      try (apply Hat in Ha as (la & El & Ha); apply Hat in Hb as (rb & Er & Hb); exists d; rewrite El, Er).
    + simpl in *. simplify_eq. exists c. by rewrite H1, H2.
    + by eapply ts_added.
    + simpl in *. simplify_eq. exists c. by rewrite H1, H2.
    + replace (p0 ++ (d :: p) ++ [c]) with ((p0 ++ [d]) ++ p ++ [c]) by (by rewrite <- app_assoc).
      by eapply ts_deleted.
    + simpl in *. simplify_eq. destruct Hd; congruence.
    + by eapply ts_modified.
  - intros [c Hc]. destruct (pm_child l c) as [a|] eqn:El, (pm_child r c) as [b|] eqn:Er; [..|done].
    + assert (∀ p y, pm_at a p = Some y → pm_at l (c :: p) = Some y) as Hl by (intros; simpl; by rewrite El).
      assert (∀ p y, pm_at b p = Some y → pm_at r (c :: p) = Some y) as Hr by (intros; simpl; by rewrite Er).
      destruct Hc as [p x y d m Ha Hb H1 H2|p x y d m Ha Hb H1 H2|p x y Ha Hb H1 H2 H3].
      * eapply (ts_added _ _ _ (c :: p)); eauto.
      * rewrite <- app_assoc. eapply (ts_deleted l r p0 (c :: p)); eauto.
      * eapply (ts_modified _ _ _ (c :: p)); eauto.
    + subst e. by apply (ts_deleted l r p0 [] l r c a).
    + subst e. by apply (ts_added l r p0 [] l r c b).
Qed.

Section spec.
Context `{HashFn}.

Definition pm_comparable (l r : ManifestNode) : Prop := comparable (manifestToNode l) (manifestToNode r).

Lemma trees_spec_same l r p0 e :
  pm_comparable l r → pm_Hash l = pm_Hash r → ¬ trees_spec l r p0 e.
Proof.
  intros Hc Hh He. pose proof Hc as (Hl & Hr & _).
  assert (shape (manifestToNode l) = shape (manifestToNode r)) as Hs
    by (apply comparable_shape; [done|by rewrite !pm_hash]).
  destruct He as [p a b c m Ha Hb H1 H2|p a b c m Ha Hb H1 H2|p a b Ha Hb H1 H2 H3];
    pose proof (shape_node_at _ _ p Hl Hr Hs) as Hp; rewrite !node_at_manifest, Ha, Hb in Hp;
    simpl in Hp; destruct Hp as (Wa & Wb & Hab).
  1,2: pose proof (shape_child _ _ c Wa Wb Hab) as Hc'; by rewrite !child_manifest, H1, H2 in Hc'.
  apply H3. by rewrite <- !pm_hash, !wf_hash, Hab.
Qed.

(** A file has nothing below it. *)
Lemma pm_file_no_child n c :
  node_wf (manifestToNode n) → pm_IsDir n = false → pm_child n c = None.
Proof.
  intros Hw Hd. pose proof (file_no_child _ c Hw) as Hx. rewrite pm_type, Hd, child_manifest in Hx.
  specialize (Hx eq_refl). by destruct (pm_child n c).
Qed.

Lemma trees_spec_files l r p0 e :
  pm_comparable l r → pm_IsDir l = false → pm_IsDir r = false → pm_Hash l ≠ pm_Hash r →
  trees_spec l r p0 e ↔ e = EModified r.
Proof.
  intros (Hl & Hr & _) Dl Dr Hne.
  assert (∀ c, pm_child l c = None) as Nl by (intros c; by apply pm_file_no_child).
  assert (∀ c, pm_child r c = None) as Nr by (intros c; by apply pm_file_no_child).
  split.
  - intros [p a b c m Ha Hb H1 H2|p a b c m Ha Hb H1 H2|p a b Ha Hb H1 H2 H3];
      destruct p as [|d p]; simpl in *; rewrite ?Nl, ?Nr in *; simplify_eq; try done;
      rewrite ?Nl, ?Nr in *; done.
  - intros ->. by apply (ts_modified l r p0 [] l r).
Qed.

Lemma pm_comparable_child l r c a b :
  pm_comparable l r → pm_child l c = Some a → pm_child r c = Some b → pm_comparable a b.
Proof.
  intros Hc Ha Hb. apply (comparable_child _ _ c _ _ Hc); by rewrite child_manifest, ?Ha, ?Hb.
Qed.

(** A loop whose steps each add the entries [S name]. *)
Lemma fold_reported (step : bytes → DResult → outcome unit DResult) (S : bytes → entry → Prop) names res :
  (∀ c res, c ∈ names → ∃ res', step c res = Ret res' ∧ ∀ e, reported res' e ↔ reported res e ∨ S c e) →
  ∃ res', foldl (λ acc c, r ← acc; step c r) (Ret res) names = Ret res' ∧
    ∀ e, reported res' e ↔ reported res e ∨ ∃ c, c ∈ names ∧ S c e.
Proof.
  revert res. induction names as [|c names IH]; intros res Hs; simpl.
  - exists res. split; [done|]. intros e. split; [auto|]. intros [?|(c & Hc & _)]; [done|].
    by apply not_elem_of_nil in Hc.
  - destruct (Hs c res) as (r1 & E1 & H1); [left|]. rewrite E1.
    destruct (IH r1) as (r2 & E2 & H2); [intros; apply Hs; by right|].
    exists r2. split; [done|]. intros e. rewrite H2, H1. setoid_rewrite elem_of_cons. naive_solver.
Qed.

Lemma child_path_plain p0 c :
  Forall plain_name p0 → plain_name c → child_path (join_slash p0) c = join_slash (p0 ++ [c]).
Proof.
  intros Hp Hc. unfold child_path. destruct p0 as [|d p0]; [done|].
  destruct (join_slash_head d p0) as (b & s & E & _); [by apply Forall_cons in Hp as [? _]|].
  rewrite decide_False by (rewrite E; done). by apply Join2_plain.
Qed.

Section order.
Context (order : bytes → list bytes → list bytes).
Context (Hord : ∀ p l, order p l ≡ₚ l).

(** The entries one child name contributes. *)
Definition child_entries (l r : ManifestNode) (p0 : list bytes) (c : bytes) (e : entry) : Prop :=
  match pm_child l c, pm_child r c with
  | Some a, Some b => trees_spec a b (p0 ++ [c]) e
  | None, Some m => e = EAdded m
  | Some _, None => e = EDeleted (join_slash (p0 ++ [c]))
  | None, None => False
  end.

Lemma reported_snoc res a e :
  reported (match a with
            | EAdded m => mkDResult (r_Added res ++ [m]) (r_Modified res) (r_Deleted res)
            | EModified m => mkDResult (r_Added res) (r_Modified res ++ [m]) (r_Deleted res)
            | EDeleted p => mkDResult (r_Added res) (r_Modified res) (r_Deleted res ++ [p])
            end) e ↔ reported res e ∨ e = a.
Proof.
  destruct a as [m|m|p], e as [m'|m'|p']; simpl; rewrite ?elem_of_app, ?list_elem_of_singleton;
    (split; [intros [?|?]|intros [?|E]]; auto; [by subst; auto|try done; injection E as ->; auto]) ||
    (split; [auto|intros [?|?]; done]).
Qed.

Lemma diffNode_spec fuel l r p0 res :
  pm_comparable l r → names_plain l → Forall plain_name p0 → pm_height l < fuel →
  ∃ res', diffNode order fuel (Some l) (Some r) (join_slash p0) res = Ret res' ∧
    ∀ e, reported res' e ↔ reported res e ∨ trees_spec l r p0 e.
Proof.
  revert l r p0 res. induction fuel as [|fuel IH]; intros l r p0 res Hc Hn Hp Hf; [lia|].
  cbn [diffNode]. destruct (decide (pm_Hash l = pm_Hash r)) as [Hh|Hh].
  { exists res. split; [done|]. intros e. split; [auto|]. intros [?|He]; [done|].
    by apply trees_spec_same in He. }
  destruct (negb (pm_IsDir l) && negb (pm_IsDir r)) eqn:Hd.
  { apply andb_true_iff in Hd as [Dl Dr]. apply negb_true_iff in Dl, Dr.
    eexists. split; [done|]. intros e. rewrite trees_spec_files by done.
    apply (reported_snoc res (EModified r)). }
  assert (pm_IsDir l = true ∨ pm_IsDir r = true) as Hd'.
  { destruct (pm_IsDir l), (pm_IsDir r); auto. }
  set (names := order _ _).
  assert (∀ c, c ∈ names ↔ is_Some (pm_child l c) ∨ is_Some (pm_child r c)) as Hnames.
  { intros c. unfold names. by rewrite Hord, elem_of_elements, elem_of_union, !elem_of_dom. }
  destruct (fold_reported (λ c res, diffNode order fuel (pm_child l c) (pm_child r c)
      (child_path (join_slash p0) c) res) (child_entries l r p0) names res) as (res' & E & Hr).
  - intros c res1 Hin%Hnames. unfold child_entries. destruct fuel as [|fuel]; [destruct l; simpl in Hf; lia|].
    destruct (pm_child l c) as [a|] eqn:El.
    + destruct (names_plain_child _ _ _ Hn El) as [Pc Pa]. rewrite child_path_plain by done.
      destruct (pm_child r c) as [b|] eqn:Er.
      * apply IH; [by eapply pm_comparable_child|done|by apply Forall_app; auto|].
        pose proof (pm_height_child _ _ _ El). lia.
      * eexists. split; [done|]. apply (reported_snoc res1 (EDeleted _)).
    + destruct (pm_child r c) as [b|] eqn:Er; [|by destruct Hin as [[??]|[??]]].
      eexists. split; [done|]. apply (reported_snoc res1 (EAdded _)).
  - exists res'. split; [exact E|]. intros e. rewrite Hr, trees_spec_inner by done.
    apply or_iff_compat_l. apply exist_proper. intros c. unfold child_entries. rewrite Hnames.
    split; [by intros [_ ?]|]. intros He. split; [|done]. revert He.
    destruct (pm_child l c), (pm_child r c); eauto. done.
Qed.

(** C5: DiffTrees of two manifests terminates without a nil dereference and
    reports exactly: as added, the remote nodes whose parent exists on both
    sides and which have no local counterpart; as deleted, the joined path of
    every local node whose parent exists on both sides and which has no remote
    counterpart; as modified, the remote files whose local counterpart is a
    file with another hash. The order of Go's map iteration does not matter,
    and pruning by hash loses nothing under the conditions of Diff_exact. *)
Theorem DiffTrees_exact (l r : ManifestNode) :
  pm_comparable l r → names_plain l →
  ∃ res, DiffTrees order (Some l) (Some r) = Ret res ∧
    ∀ e, reported res e ↔ trees_spec l r [] e.
Proof.
  intros Hc Hn. unfold DiffTrees.
  destruct (diffNode_spec (S (pm_height l)) l r [] empty_result) as (res & E & Hr);
    [done|done|constructor|lia|].
  exists res. split; [exact E|]. intros e. rewrite Hr. split; [|auto]. intros [He|?]; [|done].
  exfalso. by destruct e; apply not_elem_of_nil in He.
Qed.
End order.

(** Two nil manifests are dereferenced. *)
Lemma DiffTrees_nil (order : bytes → list bytes → list bytes) : DiffTrees order None None = Panic.
Proof. done. Qed.

Lemma names_plain_path n p m : names_plain n → pm_at n p = Some m → Forall plain_name p.
Proof.
  revert n. induction p as [|c p IH]; intros n Hn Hp; [constructor|]. simpl in Hp.
  destruct (pm_child n c) as [k|] eqn:Ek; [|done].
  destruct (names_plain_child _ _ _ Hn Ek) as [Hc Hk]. constructor; [done|by apply (IH k)].
Qed.

Lemma join_slash_inj p q :
  Forall plain_name p → Forall plain_name q → join_slash p = join_slash q → p = q.
Proof.
  assert (∀ x, x ≠ [] → Forall plain_name x → join_slash x ≠ []) as Hne.
  { intros [|d x] Hx Hp; [done|]. apply Forall_cons in Hp as [Hd _].
    destruct (join_slash_head d x Hd) as (b & s & E & _). by rewrite E. }
  intros Hp Hq E. destruct (decide (p = [])) as [->|Np], (decide (q = [])) as [->|Nq]; [done|..].
  - by destruct (Hne q).
  - by destruct (Hne p).
  - by rewrite <- (split_join_slash p), <- (split_join_slash q), E.
Qed.

Lemma pm_at_wf n p m :
  node_wf (manifestToNode n) → pm_at n p = Some m → node_wf (manifestToNode m).
Proof.
  intros Hw Hp. apply (node_at_wf (manifestToNode n) p); [done|]. by rewrite node_at_manifest, Hp.
Qed.

End spec.

(** ** Witnesses *)
Module DiffTreesExample.
#[local] Existing Instance sha256_fips.
Import DiffExample.

Definition sorted_order (p : bytes) (l : list bytes) : list bytes := l.

Definition local_m : ManifestNode := convertTreeToManifest local.
Definition remote_m : ManifestNode := convertTreeToManifest remote.

Lemma local_remote_m : pm_comparable local_m remote_m.
Proof.
  unfold pm_comparable, local_m, remote_m.
  rewrite (convert_is_nodeToManifest local local_wf), (convert_is_nodeToManifest remote remote_wf).
  rewrite !manifestToNode_nodeToManifest. apply local_remote.
Qed.

(** All names of a manifest, the root's aside. *)
Fixpoint all_names (n : ManifestNode) : list bytes :=
  concat (map (λ c, pm_Name c :: all_names c) (pm_Children n)).

Lemma names_plain_all n : Forall plain_name (all_names n) → names_plain n.
Proof.
  intros Hn p. revert n Hn. induction p as [|d p IH]; intros n Hn m c k Hp Hk.
  - simpl in Hp. injection Hp as <-. apply pm_child_elem in Hk as [<- Hk].
    rewrite Forall_forall in Hn. apply Hn. destruct n as [nm dd hs md sz cs ch]. simpl in *.
    rewrite list_elem_of_In, in_concat. exists (pm_Name k :: all_names k). split; [|by left].
    apply in_map_iff. exists k. by rewrite <- list_elem_of_In.
  - simpl in Hp. destruct (pm_child n d) as [x|] eqn:Ex; [|done]. eapply (IH x); [|done..].
    apply pm_child_elem in Ex as [_ Hx]. rewrite Forall_forall in *. intros y Hy. apply Hn.
    destruct n as [nm dd hs md sz cs ch]. simpl in *.
    rewrite list_elem_of_In, in_concat. exists (pm_Name x :: all_names x).
    split; [apply in_map_iff; exists x; by rewrite <- list_elem_of_In|].
    right. by apply list_elem_of_In.
Qed.

Lemma local_plain : names_plain local_m.
Proof. apply names_plain_all, (bool_decide_unpack _). vm_compute. exact I. Qed.

Lemma DiffTrees_exact_witness :
  ∃ res, DiffTrees sorted_order (Some local_m) (Some remote_m) = Ret res ∧
    str "sub" ∈ r_Deleted res.
Proof.
  destruct (DiffTrees_exact sorted_order (λ _ _, reflexivity _) local_m remote_m
    local_remote_m local_plain) as (res & E & Hr).
  exists res. split; [exact E|]. apply (Hr (EDeleted (str "sub"))).
  apply (ts_deleted local_m remote_m [] [] local_m remote_m (str "sub") (convertTreeToManifest sub));
    vm_compute; reflexivity.
Defined.

(** [sub] is a directory of the local tree and a file of the remote one. *)
Definition sub_file : Node := NewFileNode (str "sub") 420 [chunk1].
Definition remote_file : Node := NewDirNode (str "root") 493 [file_a2; sub_file].
Definition remote_file_m : ManifestNode := convertTreeToManifest remote_file.

Lemma dir_to_file_comparable : pm_comparable local_m remote_file_m.
Proof.
  assert (node_wf remote_file) as Hw.
  { apply NewDirNode_wf; [|apply (bool_decide_unpack _); vm_compute; exact I].
    repeat apply Forall_cons_2; [apply NewFileNode_wf; repeat constructor|by apply leaf_wf; auto|constructor]. }
  unfold pm_comparable, local_m, remote_file_m.
  rewrite (convert_is_nodeToManifest local local_wf), (convert_is_nodeToManifest _ Hw).
  rewrite !manifestToNode_nodeToManifest. split_and!; [apply local_wf|exact Hw|..].
  - apply collision_freeb_sound. vm_compute. reflexivity.
  - apply unambiguousb_sound. vm_compute. reflexivity.
Qed.


(** The result for these trees names [a] and [sub/b] only. *)
Example dir_to_file_result :
  (λ res, (map pm_Name (r_Added res), map pm_Name (r_Modified res), r_Deleted res)) <$>
    (match DiffTrees sorted_order (Some local_m) (Some remote_file_m) with Ret res => Some res | _ => None end)
  = Some ([], [str "a"], [str "sub/b"]).
Proof. vm_compute. reflexivity. Qed.
End DiffTreesExample.
