(* ===== verification/Wire.v ===== *)
(** * The wire protocol ([internal/proto/messages.go])

    Messages travel in envelopes, framed by a four-byte length. The protobuf
    library is not part of the repository: its [Marshal] and [Unmarshal] are
    the operations of the class [ProtoCodec], with the documented law that a
    marshalled message unmarshals to itself. A writer accepts a bounded or
    unbounded number of bytes before it fails. *)
From Stdlib Require Import Strings.Byte Strings.String.
From S2P Require Import Prelude Manifest.

Definition ProtocolVersion : Z := 1.

(** ** Messages, one record per message of [sync.proto] *)
Inductive MessageType :=
| MESSAGE_TYPE_UNSPECIFIED
| MESSAGE_TYPE_HANDSHAKE
| MESSAGE_TYPE_HANDSHAKE_ACK
| MESSAGE_TYPE_MANIFEST_REQUEST
| MESSAGE_TYPE_MANIFEST_RESPONSE
| MESSAGE_TYPE_CHUNK_REQUEST
| MESSAGE_TYPE_CHUNK_RESPONSE
| MESSAGE_TYPE_ERROR.

#[global] Instance MessageType_eq_dec : EqDecision MessageType.
Proof. solve_decision. Defined.

Record Handshake := mkHandshake {
  hs_ProtocolVersion : Z;
  hs_CertFingerprint : bytes;
  hs_PeerName : bytes;
  hs_Capabilities : Z;
  hs_MerkleRoot : bytes;
  hs_FileCount : Z;
  hs_TotalSize : Z;
}.

Record HandshakeAck := mkHandshakeAck {
  ack_Accepted : bool;
  ack_RejectionReason : bytes;
  ack_CertFingerprint : bytes;
  ack_PeerName : bytes;
  ack_MerkleRoot : bytes;
  ack_ProtocolVersion : Z;
}.

Record ManifestRequest := mkManifestRequest {
  mq_SubtreePath : bytes;
  mq_MaxDepth : Z;
  mq_IncludeChunks : bool;
}.

Record ChunkRequest := mkChunkRequest { cq_ChunkHashes : list bytes; cq_Priority : Z }.

Record ProtoChunk := mkProtoChunk { pc_Hash : bytes; pc_Data : bytes; pc_Size : Z }.

Record ChunkResponse := mkChunkResponse { cr_Chunks : list ProtoChunk; cr_NotFound : list bytes }.

Record ErrorMessage := mkErrorMessage { em_Code : Z; em_Message : bytes; em_RequestId : Z }.

Inductive Message :=
| MHandshake (m : Handshake)
| MHandshakeAck (m : HandshakeAck)
| MManifestRequest (m : ManifestRequest)
| MManifestResponse (m : ManifestResponse)
| MChunkRequest (m : ChunkRequest)
| MChunkResponse (m : ChunkResponse)
| MError (m : ErrorMessage).

Definition kind (m : Message) : MessageType :=
  match m with
  | MHandshake _ => MESSAGE_TYPE_HANDSHAKE
  | MHandshakeAck _ => MESSAGE_TYPE_HANDSHAKE_ACK
  | MManifestRequest _ => MESSAGE_TYPE_MANIFEST_REQUEST
  | MManifestResponse _ => MESSAGE_TYPE_MANIFEST_RESPONSE
  | MChunkRequest _ => MESSAGE_TYPE_CHUNK_REQUEST
  | MChunkResponse _ => MESSAGE_TYPE_CHUNK_RESPONSE
  | MError _ => MESSAGE_TYPE_ERROR
  end.

Record Envelope := mkEnvelope {
  env_Type : MessageType;
  env_RequestId : Z;
  env_Payload : bytes;
}.

(** The protobuf library: [None] is a marshalling or unmarshalling error. *)
Class ProtoCodec := {
  marshal : Message → option bytes;
  unmarshal : MessageType → bytes → option Message;
  marshal_env : Envelope → option bytes;
  unmarshal_env : bytes → option Envelope;
  unmarshal_kind k b m : unmarshal k b = Some m → kind m = k;
  proto_roundtrip m b : marshal m = Some b → unmarshal (kind m) b = Some m;
  env_roundtrip e b : marshal_env e = Some b → unmarshal_env b = Some e;
}.

(** ** Constructors *)
Definition NewHandshake (fp name root : bytes) (fileCount totalSize : Z) : Handshake :=
  mkHandshake ProtocolVersion fp name 0 root fileCount totalSize.

Definition NewHandshakeAck (accepted : bool) (fp name root : bytes) : HandshakeAck :=
  mkHandshakeAck accepted [] fp name root ProtocolVersion.

Definition NewChunkRequest (hashes : list bytes) (priority : Z) : ChunkRequest :=
  mkChunkRequest hashes priority.

Definition NewChunkResponse (chunks : list ProtoChunk) (notFound : list bytes) : ChunkResponse :=
  mkChunkResponse chunks notFound.

Definition NewProtoChunk (hash data : bytes) : ProtoChunk :=
  mkProtoChunk hash data (u32 (Z.of_nat (length data))).

Definition NewManifestRequest (subtree : bytes) (maxDepth : Z) (includeChunks : bool) : ManifestRequest :=
  mkManifestRequest subtree maxDepth includeChunks.

Definition NewErrorMessage (code : Z) (message : bytes) (requestID : Z) : ErrorMessage :=
  mkErrorMessage code message requestID.

(** ** Writers *)
Record writer := mkWriter { w_out : bytes; w_room : option nat }.

Definition w_Write (w : writer) (data : bytes) : writer * bool :=
  match w_room w with
  | None => (mkWriter (w_out w ++ data) None, true)
  | Some k =>
      if decide (length data ≤ k) then (mkWriter (w_out w ++ data) (Some (k - length data)), true)
      else (mkWriter (w_out w ++ take k data) (Some 0), false)
  end.

Definition MaxMessageSize : Z := 16 * 1024 * 1024.

Inductive wire_error :=
| MarshalingPayload
| MarshalingEnvelope
| WritingLength
| WritingData
| ReadingLength
| MessageTooLarge (n : Z)
| ReadingData
| UnmarshalingEnvelope.

#[global] Instance wire_error_eq_dec : EqDecision wire_error.
Proof. solve_decision. Defined.

Section wire.
Context `{ProtoCodec}.

Definition WriteEnvelope (w : writer) (msgType : MessageType) (requestID : Z) (msg : Message)
    : writer * outcome wire_error unit :=
  match marshal msg with
  | None => (w, Err MarshalingPayload)
  | Some payload =>
      match marshal_env (mkEnvelope msgType requestID payload) with
      | None => (w, Err MarshalingEnvelope)
      | Some data =>
          let '(w1, ok1) := w_Write w (be_put 4 (u32 (Z.of_nat (length data)))) in
          if ok1 then
            let '(w2, ok2) := w_Write w1 data in
            if ok2 then (w2, Ret ()) else (w2, Err WritingData)
          else (w1, Err WritingLength)
      end
  end.

Definition ReadEnvelope (r : stream) : outcome wire_error Envelope * stream :=
  let '(lenBuf, st, r1) := ReadFull 4 r in
  match st with
  | ReadOk =>
      let length := be_get lenBuf in
      if (MaxMessageSize <? length)%Z then (Err (MessageTooLarge length), r1)
      else
        let '(data, st2, r2) := ReadFull (Z.to_nat length) r1 in
        match st2 with
        | ReadOk =>
            match unmarshal_env data with
            | Some env => (Ret env, r2)
            | None => (Err UnmarshalingEnvelope, r2)
            end
        | _ => (Err ReadingData, r2)
        end
  | _ => (Err ReadingLength, r1)
  end.

Definition UnmarshalPayload (env : Envelope) (k : MessageType) : option Message :=
  unmarshal k (env_Payload env).

Definition SendHandshake (w : writer) (id : Z) (h : Handshake) := WriteEnvelope w MESSAGE_TYPE_HANDSHAKE id (MHandshake h).
Definition SendHandshakeAck (w : writer) (id : Z) (h : HandshakeAck) := WriteEnvelope w MESSAGE_TYPE_HANDSHAKE_ACK id (MHandshakeAck h).
Definition SendManifestRequest (w : writer) (id : Z) (m : ManifestRequest) := WriteEnvelope w MESSAGE_TYPE_MANIFEST_REQUEST id (MManifestRequest m).
Definition SendManifestResponse (w : writer) (id : Z) (m : ManifestResponse) := WriteEnvelope w MESSAGE_TYPE_MANIFEST_RESPONSE id (MManifestResponse m).
Definition SendChunkRequest (w : writer) (id : Z) (c : ChunkRequest) := WriteEnvelope w MESSAGE_TYPE_CHUNK_REQUEST id (MChunkRequest c).
Definition SendChunkResponse (w : writer) (id : Z) (c : ChunkResponse) := WriteEnvelope w MESSAGE_TYPE_CHUNK_RESPONSE id (MChunkResponse c).
Definition SendError (w : writer) (id : Z) (e : ErrorMessage) := WriteEnvelope w MESSAGE_TYPE_ERROR id (MError e).

(** ** Frames *)
Definition frame (data : bytes) : bytes := be_put 4 (u32 (Z.of_nat (length data))) ++ data.

(** The bytes of the envelope of a message, when it can be marshalled. *)
Definition env_bytes (k : MessageType) (id : Z) (m : Message) : option bytes :=
  payload ← marshal m; marshal_env (mkEnvelope k id payload).

Lemma WriteEnvelope_ok out k id m data :
  env_bytes k id m = Some data →
  WriteEnvelope (mkWriter out None) k id m = (mkWriter (out ++ frame data) None, Ret ()).
Proof.
  unfold env_bytes, WriteEnvelope, frame. destruct (marshal m) as [payload|]; simpl; [|done].
  intros ->. unfold w_Write. simpl. by rewrite <- app_assoc.
Qed.

Lemma ReadFull_exact n a b fin : length a = n → ReadFull n (Stream (a ++ b) fin) = (a, ReadOk, Stream b fin).
Proof.
  intros Hn. unfold ReadFull. cbn [st_buf st_fin].
  rewrite take_app_exact, drop_app_exact by done. by rewrite decide_True.
Qed.

Lemma ReadFull_short n a fin : length a < n → ∃ st, (ReadFull n (Stream a fin)).1.2 = st ∧ st ≠ ReadOk.
Proof.
  intros Hn. unfold ReadFull. cbn [st_buf st_fin]. rewrite length_take, decide_False by lia.
  destruct fin; [|case_decide]; eauto.
Qed.

Lemma be_get_len n : (Z.of_nat n < 2 ^ 32)%Z → be_get (be_put 4 (u32 (Z.of_nat n))) = Z.of_nat n.
Proof. intros Hn. rewrite be_get_put, u32_small by lia. apply Z.mod_small. lia. Qed.

Lemma ReadEnvelope_frame data rest fin :
  (Z.of_nat (length data) ≤ MaxMessageSize)%Z →
  ReadEnvelope (Stream (frame data ++ rest) fin) =
    (match unmarshal_env data with Some e => Ret e | None => Err UnmarshalingEnvelope end, Stream rest fin).
Proof.
  unfold MaxMessageSize. intros Hl. unfold ReadEnvelope, frame. rewrite <- app_assoc.
  rewrite ReadFull_exact by apply length_be_put. rewrite be_get_len by lia.
  destruct (Z.ltb_spec MaxMessageSize (Z.of_nat (length data))); [unfold MaxMessageSize in *; lia|].
  rewrite Nat2Z.id, ReadFull_exact by done. by destruct (unmarshal_env data).
Qed.

Lemma envelope_delivery k id m data rest fin :
  env_bytes k id m = Some data → (Z.of_nat (length data) ≤ MaxMessageSize)%Z →
  ∃ env, ReadEnvelope (Stream (frame data ++ rest) fin) = (Ret env, Stream rest fin) ∧
    env_Type env = k ∧ env_RequestId env = id ∧ (k = kind m → UnmarshalPayload env k = Some m).
Proof.
  intros He Hl. rewrite ReadEnvelope_frame by done. unfold env_bytes in He.
  destruct (marshal m) as [payload|] eqn:Em; [|done]. simpl in He.
  rewrite (env_roundtrip _ _ He). eexists. split; [done|]. split_and!; [done..|].
  intros ->. by apply proto_roundtrip.
Qed.

(** ** Sequences of messages on one stream *)
Fixpoint send_all (w : writer) (ms : list (Z * Message)) : writer * outcome wire_error unit :=
  match ms with
  | [] => (w, Ret ())
  | (id, m) :: ms' =>
      match WriteEnvelope w (kind m) id m with
      | (w', Ret _) => send_all w' ms'
      | (w', Err e) => (w', Err e)
      | (w', Panic) => (w', Panic)
      end
  end.

Fixpoint recv_all (n : nat) (r : stream) : option (list (Z * Message)) * stream :=
  match n with
  | O => (Some [], r)
  | S n' =>
      match ReadEnvelope r with
      | (Ret env, r') =>
          match UnmarshalPayload env (env_Type env), recv_all n' r' with
          | Some m, (Some ms, r'') => (Some ((env_RequestId env, m) :: ms), r'')
          | _, (_, r'') => (None, r'')
          end
      | (_, r') => (None, r')
      end
  end.

(** The message can be marshalled and its envelope fits the receiver's limit. *)
Definition deliverable (im : Z * Message) : Prop :=
  ∃ data, env_bytes (kind im.2) im.1 im.2 = Some data ∧ (Z.of_nat (length data) ≤ MaxMessageSize)%Z.

Lemma send_recv ms : ∀ out rest fin,
  Forall deliverable ms →
  ∃ enc, send_all (mkWriter out None) ms = (mkWriter (out ++ enc) None, Ret ()) ∧
         recv_all (length ms) (Stream (enc ++ rest) fin) = (Some ms, Stream rest fin).
Proof.
  induction ms as [|[id m] ms IH]; intros out rest fin Hd.
  { exists []. by rewrite app_nil_r. }
  apply Forall_cons in Hd as [(data & Hb & Hl) Hd]. simpl in Hb.
  destruct (IH (out ++ frame data) rest fin Hd) as (enc & Hs & Hr).
  exists (frame data ++ enc). cbn [send_all recv_all length].
  rewrite (WriteEnvelope_ok _ _ _ _ _ Hb), Hs. rewrite <- !app_assoc. split; [done|].
  destruct (envelope_delivery (kind m) id m data (enc ++ rest) fin Hb Hl) as (env & -> & Et & Ei & Eu).
  rewrite Et, Eu, Hr by done. by rewrite Ei.
Qed.

Lemma truncated_frame data cut fin :
  (Z.of_nat (length data) ≤ MaxMessageSize)%Z → cut < length (frame data) →
  ∃ e r, ReadEnvelope (Stream (take cut (frame data)) fin) = (Err e, r) ∧ (e = ReadingLength ∨ e = ReadingData).
Proof.
  intros Hl Hc. unfold frame in *. rewrite length_app, length_be_put in Hc. unfold ReadEnvelope.
  destruct (decide (cut < 4)) as [H4|H4].
  - rewrite take_app_le by (rewrite length_be_put; lia).
    destruct (ReadFull_short 4 (take cut (be_put 4 (u32 (Z.of_nat (length data))))) fin) as (st & Hst & Hn).
    { rewrite length_take. lia. }
    destruct (ReadFull 4 _) as [[b st'] r]. simpl in Hst. subst st'. destruct st; [done|..]; eauto.
  - rewrite take_app_ge by (rewrite length_be_put; lia).
    rewrite ReadFull_exact by apply length_be_put. unfold MaxMessageSize in Hl. rewrite be_get_len by lia.
    destruct (Z.ltb_spec MaxMessageSize (Z.of_nat (length data))); [unfold MaxMessageSize in *; lia|].
    rewrite Nat2Z.id, length_be_put.
    destruct (ReadFull_short (length data) (take (cut - 4) data) fin) as (st & Hst & Hn).
    { rewrite length_take. lia. }
    destruct (ReadFull (length data) _) as [[b st'] r]. simpl in Hst. subst st'. destruct st; [done|..]; eauto.
Qed.

(** C23: Framing is a faithful, self-delimiting encoding of message sequences:
    any messages whose envelopes fit in 16 MiB, written one after the other,
    are read back as exactly the same messages with the same request ids in
    the same order, leaving whatever follows on the stream untouched; and a
    frame cut anywhere yields a read error, never an envelope. *)
Theorem framing_roundtrip (ms : list (Z * Message)) (rest : bytes) (fin : option read_error) :
  Forall deliverable ms →
  (∃ enc, send_all (mkWriter [] None) ms = (mkWriter enc None, Ret ()) ∧
     recv_all (length ms) (Stream (enc ++ rest) fin) = (Some ms, Stream rest fin)) ∧
  (∀ im data cut, im ∈ ms → env_bytes (kind im.2) im.1 im.2 = Some data → cut < length (frame data) →
     ∃ e r, ReadEnvelope (Stream (take cut (frame data)) fin) = (Err e, r) ∧
            (e = ReadingLength ∨ e = ReadingData)).
Proof.
  intros Hd. split.
  - destruct (send_recv ms [] rest fin Hd) as (enc & Hs & Hr). by exists enc.
  - intros im data cut Hin Hb. rewrite Forall_forall in Hd. destruct (Hd im Hin) as (data' & Hb' & Hl).
    rewrite Hb in Hb'. injection Hb' as <-. by apply truncated_frame.
Qed.

(** The sender does not enforce the receiver's limit: an envelope of more
    than 16 MiB (and less than 4 GiB) is written without an error, and the
    receiver rejects it after reading only the length, which leaves the body
    on the stream to be misread as the next frame. *)
Theorem oversized_message_rejected (k : MessageType) (id : Z) (m : Message) (data rest : bytes)
    (fin : option read_error) :
  env_bytes k id m = Some data → (MaxMessageSize < Z.of_nat (length data) < 2 ^ 32)%Z →
  WriteEnvelope (mkWriter [] None) k id m = (mkWriter (frame data) None, Ret ()) ∧
  ReadEnvelope (Stream (frame data ++ rest) fin)
    = (Err (MessageTooLarge (Z.of_nat (length data))), Stream (data ++ rest) fin).
Proof.
  intros Hb Hl. split; [by rewrite (WriteEnvelope_ok _ _ _ _ _ Hb)|].
  unfold ReadEnvelope, frame. rewrite <- app_assoc, ReadFull_exact by apply length_be_put.
  rewrite be_get_len by lia.
  destruct (Z.ltb_spec MaxMessageSize (Z.of_nat (length data))); [done|lia].
Qed.
End wire.

(** ** A codec

    An instance of [ProtoCodec]: a message is numbered by stdpp's [Countable]
    and the number written bit by bit. *)
Module CountableCodec.

Definition node_fields : Type := bytes * bool * bytes * Z * Z * list bytes.

Fixpoint to_tree (n : ManifestNode) : gen_tree node_fields :=
  GenNode 0 (GenLeaf (pm_Name n, pm_IsDir n, pm_Hash n, pm_Mode n, pm_Size n, pm_Chunks n)
             :: map to_tree (pm_Children n)).

Fixpoint of_tree (t : gen_tree node_fields) : ManifestNode :=
  match t with
  | GenNode _ (GenLeaf (nm, d, h, md, sz, ch) :: cs) => mkManifestNode nm d h md sz (map of_tree cs) ch
  | _ => mkManifestNode [] false [] 0 0 [] []
  end.

Lemma of_to_tree n : of_tree (to_tree n) = n.
Proof.
  induction n as [nm d hs md sz cs ch IH] using ManifestNode_rec_children. simpl.
  f_equal. rewrite map_map. by apply map_id_Forall.
Qed.

#[global] Instance ManifestNode_eq_dec : EqDecision ManifestNode.
Proof.
  intros x y. destruct (decide (to_tree x = to_tree y)) as [E|E]; [left|right; congruence].
  by rewrite <- (of_to_tree x), <- (of_to_tree y), E.
Defined.

#[global] Instance ManifestNode_countable : Countable ManifestNode := inj_countable' to_tree of_tree of_to_tree.

Definition msg_fields : Type :=
  (Z * bytes * bytes * Z * bytes * Z * Z) + (bool * bytes * bytes * bytes * bytes * Z) +
  (bytes * Z * bool) + (option ManifestNode * Z) + (list bytes * Z) +
  (list (bytes * bytes * Z) * list bytes) + (Z * bytes * Z).

Definition to_fields (m : Message) : msg_fields :=
  match m with
  | MHandshake (mkHandshake a b c d e f g) => inl (inl (inl (inl (inl (inl (a, b, c, d, e, f, g))))))
  | MHandshakeAck (mkHandshakeAck a b c d e f) => inl (inl (inl (inl (inl (inr (a, b, c, d, e, f))))))
  | MManifestRequest (mkManifestRequest a b c) => inl (inl (inl (inl (inr (a, b, c)))))
  | MManifestResponse (mkManifestResponse a b) => inl (inl (inl (inr (a, b))))
  | MChunkRequest (mkChunkRequest a b) => inl (inl (inr (a, b)))
  | MChunkResponse (mkChunkResponse cs nf) =>
      inl (inr ((λ c, (pc_Hash c, pc_Data c, pc_Size c)) <$> cs, nf))
  | MError (mkErrorMessage a b c) => inr (a, b, c)
  end.

Definition of_fields (f : msg_fields) : Message :=
  match f with
  | inl (inl (inl (inl (inl (inl (a, b, c, d, e, f, g)))))) => MHandshake (mkHandshake a b c d e f g)
  | inl (inl (inl (inl (inl (inr (a, b, c, d, e, f)))))) => MHandshakeAck (mkHandshakeAck a b c d e f)
  | inl (inl (inl (inl (inr (a, b, c))))) => MManifestRequest (mkManifestRequest a b c)
  | inl (inl (inl (inr (a, b)))) => MManifestResponse (mkManifestResponse a b)
  | inl (inl (inr (a, b))) => MChunkRequest (mkChunkRequest a b)
  | inl (inr (cs, nf)) => MChunkResponse (mkChunkResponse ((λ '(a, b, c), mkProtoChunk a b c) <$> cs) nf)
  | inr (a, b, c) => MError (mkErrorMessage a b c)
  end.

Lemma of_to_fields m : of_fields (to_fields m) = m.
Proof.
  destruct m as [[]|[]|[]|[]|[]|[cs nf]|[]]; try done. simpl. do 2 f_equal.
  rewrite <- list_fmap_compose. rewrite <- (list_fmap_id cs) at 2. apply list_fmap_ext. intros i []; done.
Qed.

Fixpoint bits (p : positive) : bytes :=
  match p with xH => [] | xO p' => x00 :: bits p' | xI p' => x01 :: bits p' end.

Fixpoint unbits (l : bytes) : positive :=
  match l with [] => xH | b :: l' => if decide (b = x00) then xO (unbits l') else xI (unbits l') end.

Lemma unbits_bits p : unbits (bits p) = p.
Proof. induction p; simpl; congruence. Qed.

Definition dec_msg (k : MessageType) (b : bytes) : option Message :=
  f ← decode (unbits b); let m := of_fields f in if decide (kind m = k) then Some m else None.

Definition kind_code (k : MessageType) : Z :=
  match k with
  | MESSAGE_TYPE_UNSPECIFIED => 0 | MESSAGE_TYPE_HANDSHAKE => 1 | MESSAGE_TYPE_HANDSHAKE_ACK => 2
  | MESSAGE_TYPE_MANIFEST_REQUEST => 3 | MESSAGE_TYPE_MANIFEST_RESPONSE => 4
  | MESSAGE_TYPE_CHUNK_REQUEST => 5 | MESSAGE_TYPE_CHUNK_RESPONSE => 6 | MESSAGE_TYPE_ERROR => 7
  end.

Definition code_kind (z : Z) : MessageType :=
  match z with
  | 1 => MESSAGE_TYPE_HANDSHAKE | 2 => MESSAGE_TYPE_HANDSHAKE_ACK
  | 3 => MESSAGE_TYPE_MANIFEST_REQUEST | 4 => MESSAGE_TYPE_MANIFEST_RESPONSE
  | 5 => MESSAGE_TYPE_CHUNK_REQUEST | 6 => MESSAGE_TYPE_CHUNK_RESPONSE | 7 => MESSAGE_TYPE_ERROR
  | _ => MESSAGE_TYPE_UNSPECIFIED
  end%Z.

(** The envelope as fixed fields: type, request id (a 64-bit number), payload. *)
Definition enc_env (e : Envelope) : option bytes :=
  if decide (0 ≤ env_RequestId e < 2 ^ 64)%Z
  then Some (be_put 1 (kind_code (env_Type e)) ++ be_put 8 (env_RequestId e) ++ env_Payload e)
  else None.

Definition dec_env (b : bytes) : option Envelope :=
  Some (mkEnvelope (code_kind (be_get (take 1 b))) (be_get (slice 1 9 b)) (drop 9 b)).

#[program] Definition codec : ProtoCodec := {|
  marshal m := Some (bits (encode (to_fields m)));
  unmarshal := dec_msg;
  marshal_env := enc_env;
  unmarshal_env := dec_env;
|}.
Next Obligation.
  intros k b m. unfold dec_msg. destruct (decode (unbits b)) as [f|]; simpl; [|done].
  case_decide; [|done]. by intros [= <-].
Qed.
Next Obligation.
  intros m b [= <-]. unfold dec_msg. rewrite unbits_bits, decode_encode. simpl.
  rewrite of_to_fields. by rewrite decide_True.
Qed.
Next Obligation.
  intros [k id p] b. unfold enc_env, dec_env. cbn [env_RequestId env_Type env_Payload].
  case_decide as Hid; [|done]. intros E.
  assert (b = be_put 1 (kind_code k) ++ be_put 8 id ++ p) as -> by congruence.
  rewrite (take_app_exact 1), (slice_field 1 9), !be_get_put by (rewrite ?length_be_put; done).
  rewrite (app_assoc (be_put 1 _)), (drop_app_exact 9) by done.
  rewrite (Z.mod_small id) by lia. by destruct k.
Qed.
End CountableCodec.

(** ** Witnesses *)
Module WireExample.
#[local] Existing Instance CountableCodec.codec.

Definition req : Message := MChunkRequest (NewChunkRequest [bytes_of_string "ab"] 1).
Definition err : Message := MError (NewErrorMessage 2 (bytes_of_string "no") 7).

Lemma req_deliverable : deliverable (7%Z, req).
Proof. eexists. split; [vm_compute; reflexivity|vm_compute; discriminate]. Qed.

Lemma err_deliverable : deliverable (8%Z, err).
Proof. eexists. split; [vm_compute; reflexivity|vm_compute; discriminate]. Qed.

Lemma framing_roundtrip_witness :
  ∃ enc, send_all (mkWriter [] None) [(7%Z, req); (8%Z, err)] = (mkWriter enc None, Ret ()) ∧
    recv_all 2 (Stream (enc ++ [x2a]) None) = (Some [(7%Z, req); (8%Z, err)], Stream [x2a] None).
Proof.
  apply (framing_roundtrip [(7%Z, req); (8%Z, err)] [x2a] None).
  repeat apply Forall_cons_2; [apply req_deliverable|apply err_deliverable|constructor].
Defined.
End WireExample.

Module OversizedExample.
(** A codec for error messages without code and request id: the payload is the
    text. *)
Definition text_marshal (m : Message) : option bytes :=
  match m with
  | MError e => if decide (em_Code e = 0%Z ∧ em_RequestId e = 0%Z) then Some (em_Message e) else None
  | _ => None
  end.

Definition text_unmarshal (k : MessageType) (b : bytes) : option Message :=
  if decide (k = MESSAGE_TYPE_ERROR) then Some (MError (mkErrorMessage 0 b 0)) else None.

#[program] Definition text_codec : ProtoCodec := {|
  marshal := text_marshal;
  unmarshal := text_unmarshal;
  marshal_env := CountableCodec.enc_env;
  unmarshal_env := CountableCodec.dec_env;
|}.
Next Obligation. intros k b m. unfold text_unmarshal. case_decide; [|done]. by intros [= <-]. Qed.
Next Obligation.
  intros [| | | | | |[c t i]] b; try done. simpl. case_decide as E; [|done]. intros [= <-].
  simpl in E. by destruct E as [-> ->].
Qed.
Next Obligation. intros e b. apply (@env_roundtrip CountableCodec.codec). Qed.

#[local] Existing Instance text_codec.

Definition text (n : nat) : Message := MError (mkErrorMessage 0 (replicate n x2a) 0).

Lemma text_env n :
  ∃ data, env_bytes MESSAGE_TYPE_ERROR 0 (text n) = Some data ∧ length data = 9 + n.
Proof.
  unfold env_bytes, marshal, text_codec, text_marshal, text. cbn [em_Code em_RequestId em_Message].
  rewrite decide_True by done. unfold marshal_env. cbn [mbind option_bind].
  unfold CountableCodec.enc_env. rewrite decide_True by done. eexists. split; [done|].
  rewrite !length_app, !length_be_put. cbn [env_Payload]. rewrite length_replicate. lia.
Qed.

Lemma oversized_message_rejected_witness :
  ∃ out e, WriteEnvelope (mkWriter [] None) MESSAGE_TYPE_ERROR 0 (text (Z.to_nat MaxMessageSize))
             = (mkWriter out None, Ret ()) ∧
    (ReadEnvelope (Stream (out ++ []) None)).1 = Err (MessageTooLarge e).
Proof.
  destruct (text_env (Z.to_nat MaxMessageSize)) as (data & Hb & Hl).
  assert (MaxMessageSize < Z.of_nat (length data) < 2 ^ 32)%Z as Hr.
  { rewrite Hl, Nat2Z.inj_add, Z2Nat.id; unfold MaxMessageSize; lia. }
  destruct (oversized_message_rejected MESSAGE_TYPE_ERROR 0 _ data [] None Hb Hr) as [Hw Hd].
  exists (frame data), (Z.of_nat (length data)). rewrite Hd. split; [exact Hw|reflexivity].
Defined.
End OversizedExample.
