(* ===== verification/Transport.v ===== *)
(** * The peer transport ([internal/net/transport.go])

    QUIC and TLS are not part of the repository. A connection is a number with
    the fingerprint of the certificate TLS showed for it; a stream is what one
    side writes and the other reads. The handshake and the request handlers
    are functions on streams; the table of connected peers is a transition
    system whose steps are the sections the code runs under [peersMu], so that
    handlers of different connections interleave. *)
From Stdlib Require Import Strings.Byte Strings.String.
From S2P Require Import Prelude Sha256 Manifest Wire.

(** ** Identity *)
Section identity.
Context `{HashFn}.

(** [CertFingerprint] of a certificate chain in DER form ([None] is a nil
    certificate): 32 zero bytes when there is no certificate. *)
Definition CertFingerprint (chain : option (list bytes)) : bytes :=
  match chain with
  | Some (der :: _) => copy_into (replicate 32 x00) (sha256 der)
  | _ => replicate 32 x00
  end.

Definition certToFingerprint (raw : bytes) : bytes := copy_into (replicate 32 x00) (sha256 raw).

Lemma fingerprint_is_hash der rest :
  CertFingerprint (Some (der :: rest)) = sha256 der ∧ certToFingerprint der = sha256 der.
Proof.
  assert (copy_into (replicate 32 x00) (sha256 der) = sha256 der) as E; [|done].
  unfold copy_into. rewrite length_replicate, take_ge by (rewrite sha256_length; lia).
  by rewrite drop_ge, app_nil_r by (rewrite sha256_length, length_replicate; lia).
Qed.
End identity.

Definition PeerID_String (id : bytes) : bytes := hex_encode id.
Definition PeerID_Short (id : bytes) : bytes := hex_encode (take 8 id).

Record Peer := mkPeer {
  p_ID : bytes;
  p_Name : bytes;
  p_Addr : bytes;
  p_MerkleRoot : bytes;
  p_FileCount : Z;
  p_TotalSize : Z;
  p_conn : nat;
  p_nextReqID : Z;
}.

Record Config := mkConfig {
  cfg_PeerName : bytes;
  cfg_MerkleRoot : bytes;
  cfg_FileCount : Z;
  cfg_TotalSize : Z;
}.

(** The fields of a [Transport] that the handshake reads. *)
Record Transport := mkTransport {
  t_config : Config;
  t_localID : bytes;
  t_merkleRoot : bytes;
}.

Definition NewTransport (cfg : Config) (localID : bytes) : Transport :=
  mkTransport cfg localID (cfg_MerkleRoot cfg).

Definition SetMerkleRoot (t : Transport) (root : bytes) : Transport :=
  mkTransport (t_config t) (t_localID t) root.

Definition MerkleRoot (t : Transport) : bytes := t_merkleRoot t.

(** ** Handshake *)
Inductive handshake_error :=
| SendingHandshake (e : wire_error)
| ReadingAck (e : wire_error)
| ExpectedAck (got : MessageType)
| DecodingAck
| Rejected (reason : bytes)
| ReadingHandshake (e : wire_error)
| ExpectedHandshake (got : MessageType)
| DecodingHandshake
| SendingAck (e : wire_error).

Section transport.
Context `{ProtoCodec}.

Definition local_handshake (t : Transport) : Handshake :=
  mkHandshake ProtocolVersion (t_localID t) (cfg_PeerName (t_config t)) 0 (MerkleRoot t)
    (cfg_FileCount (t_config t)) (cfg_TotalSize (t_config t)).

Definition local_ack (t : Transport) : HandshakeAck :=
  mkHandshakeAck true [] (t_localID t) (cfg_PeerName (t_config t)) (MerkleRoot t) ProtocolVersion.

(** [performHandshake]: what is written, and the peer or the error. *)
Definition performHandshake (t : Transport) (conn : nat) (addr peerID : bytes) (isInitiator : bool)
    (w : writer) (r : stream) : writer * outcome handshake_error Peer :=
  if isInitiator then
    match SendHandshake w 0 (local_handshake t) with
    | (w1, Err e) => (w1, Err (SendingHandshake e))
    | (w1, Panic) => (w1, Panic)
    | (w1, Ret _) =>
        match ReadEnvelope r with
        | (Err e, _) => (w1, Err (ReadingAck e))
        | (Panic, _) => (w1, Panic)
        | (Ret env, _) =>
            if decide (env_Type env ≠ MESSAGE_TYPE_HANDSHAKE_ACK) then (w1, Err (ExpectedAck (env_Type env)))
            else match UnmarshalPayload env MESSAGE_TYPE_HANDSHAKE_ACK with
                 | Some (MHandshakeAck ack) =>
                     if ack_Accepted ack
                     then (w1, Ret (mkPeer peerID (ack_PeerName ack) addr (ack_MerkleRoot ack) 0 0 conn 0))
                     else (w1, Err (Rejected (ack_RejectionReason ack)))
                 | _ => (w1, Err DecodingAck)
                 end
        end
    end
  else
    match ReadEnvelope r with
    | (Err e, _) => (w, Err (ReadingHandshake e))
    | (Panic, _) => (w, Panic)
    | (Ret env, _) =>
        if decide (env_Type env ≠ MESSAGE_TYPE_HANDSHAKE) then (w, Err (ExpectedHandshake (env_Type env)))
        else match UnmarshalPayload env MESSAGE_TYPE_HANDSHAKE with
             | Some (MHandshake hs) =>
                 match SendHandshakeAck w 0 (local_ack t) with
                 | (w1, Ret _) =>
                     (w1, Ret (mkPeer peerID (hs_PeerName hs) addr (hs_MerkleRoot hs)
                                 (hs_FileCount hs) (hs_TotalSize hs) conn 0))
                 | (w1, Err e) => (w1, Err (SendingAck e))
                 | (w1, Panic) => (w1, Panic)
                 end
             | _ => (w, Err DecodingHandshake)
             end
    end.

(** ** Serving requests *)
Section serve.
Context {St : Type}.
(** The callbacks; [None] is a nil callback, a [None] response a nil one. *)
Variable onChunkRequest : option (St → ChunkRequest → St * option ChunkResponse).
Variable onManifestRequest : option (St → option ManifestRequest → St * option ManifestResponse).

Definition handleChunkRequest (s : St) (w : writer) (reqID : Z) (payload : bytes) : St * writer :=
  match unmarshal MESSAGE_TYPE_CHUNK_REQUEST payload with
  | Some (MChunkRequest req) =>
      match onChunkRequest with
      | None => (s, w)
      | Some f =>
          match f s req with
          | (s', None) => (s', w)
          | (s', Some resp) => (s', (SendChunkResponse w reqID resp).1)
          end
      end
  | _ => (s, w)
  end.

(** A request that does not decode is handled as an empty one ([None]). *)
Definition handleManifestRequest (s : St) (w : writer) (reqID : Z) (payload : bytes) : St * writer :=
  let req := match unmarshal MESSAGE_TYPE_MANIFEST_REQUEST payload with
             | Some (MManifestRequest req) => Some req
             | _ => None
             end in
  match onManifestRequest with
  | None => (s, w)
  | Some f =>
      match f s req with
      | (s', None) => (s', w)
      | (s', Some resp) => (s', (SendManifestResponse w reqID resp).1)
      end
  end.

(** [handleStream]: each envelope takes at least four bytes of the stream. *)
Fixpoint stream_requests (fuel : nat) (s : St) (r : stream) (w : writer) : St * writer :=
  match fuel with
  | O => (s, w)
  | S fuel' =>
      match ReadEnvelope r with
      | (Ret env, r') =>
          let '(s', w') :=
            match env_Type env with
            | MESSAGE_TYPE_CHUNK_REQUEST => handleChunkRequest s w (env_RequestId env) (env_Payload env)
            | MESSAGE_TYPE_MANIFEST_REQUEST => handleManifestRequest s w (env_RequestId env) (env_Payload env)
            | _ => (s, w)
            end in
          stream_requests fuel' s' r' w'
      | _ => (s, w)
      end
  end.

Definition handleStream (s : St) (r : stream) : St * bytes :=
  let '(s', w) := stream_requests (S (length (st_buf r))) s r (mkWriter [] None) in (s', w_out w).
End serve.

(** ** Making requests *)
Inductive request_error :=
| OpeningStream
| SendingRequest (e : wire_error)
| ReadingResponse (e : wire_error)
| UnexpectedResponse (got : MessageType)
| DecodingResponse.

(** [RequestChunks]: [exchange] gives, for the bytes sent on the stream, the
    stream that comes back. The peer's request counter is a [uint64]. *)
Definition RequestChunks (exchange : bytes → stream) (peer : Peer) (hashes : list bytes)
    : Peer * outcome request_error ChunkResponse :=
  let reqID := p_nextReqID peer in
  let peer' := mkPeer (p_ID peer) (p_Name peer) (p_Addr peer) (p_MerkleRoot peer) (p_FileCount peer)
                 (p_TotalSize peer) (p_conn peer) (u64 (reqID + 1)) in
  match SendChunkRequest (mkWriter [] None) reqID (mkChunkRequest hashes 1) with
  | (_, Err e) => (peer', Err (SendingRequest e))
  | (_, Panic) => (peer', Panic)
  | (w, Ret _) =>
      match ReadEnvelope (exchange (w_out w)) with
      | (Err e, _) => (peer', Err (ReadingResponse e))
      | (Panic, _) => (peer', Panic)
      | (Ret env, _) =>
          if decide (env_Type env ≠ MESSAGE_TYPE_CHUNK_RESPONSE) then (peer', Err (UnexpectedResponse (env_Type env)))
          else match UnmarshalPayload env MESSAGE_TYPE_CHUNK_RESPONSE with
               | Some (MChunkResponse resp) => (peer', Ret resp)
               | _ => (peer', Err DecodingResponse)
               end
      end
  end.

Lemma sent_and_read k id m rest fin out :
  deliverable (id, m) → k = kind m →
  ∃ data env, WriteEnvelope (mkWriter out None) k id m = (mkWriter (out ++ frame data) None, Ret ()) ∧
    ReadEnvelope (Stream (frame data ++ rest) fin) = (Ret env, Stream rest fin) ∧
    env_Type env = k ∧ env_RequestId env = id ∧ UnmarshalPayload env k = Some m.
Proof.
  intros (data & Hb & Hl) ->. simpl in Hb.
  destruct (envelope_delivery (kind m) id m data rest fin Hb Hl) as (env & E & Ht & Hi & Hu).
  exists data, env. split_and!; [by apply WriteEnvelope_ok|done..|by apply Hu].
Qed.

(** Two transports that shake hands with each other both succeed, and each
    ends with a peer record that carries the other's certificate fingerprint
    (the one TLS showed) as its id, the other's configured name and the
    other's current Merkle root; the responder also learns the initiator's
    file count and total size. The responder checks nothing of what is
    announced: any protocol version and any certificate fingerprint are
    accepted. *)
Theorem handshake_agreement (ti tr : Transport) (ci cr : nat) (ai ar : bytes) :
  deliverable (0%Z, MHandshake (local_handshake ti)) →
  deliverable (0%Z, MHandshakeAck (local_ack tr)) →
  (∃ hello reply,
    performHandshake tr cr ai (t_localID ti) false (mkWriter [] None) (stream_of hello)
      = (mkWriter reply None,
         Ret (mkPeer (t_localID ti) (cfg_PeerName (t_config ti)) ai (t_merkleRoot ti)
                (cfg_FileCount (t_config ti)) (cfg_TotalSize (t_config ti)) cr 0)) ∧
    performHandshake ti ci ar (t_localID tr) true (mkWriter [] None) (stream_of reply)
      = (mkWriter hello None,
         Ret (mkPeer (t_localID tr) (cfg_PeerName (t_config tr)) ar (t_merkleRoot tr) 0 0 ci 0))) ∧
  (∀ version fp name caps root fc ts hello,
    SendHandshake (mkWriter [] None) 0 (mkHandshake version fp name caps root fc ts)
      = (mkWriter hello None, Ret ()) →
    deliverable (0%Z, MHandshake (mkHandshake version fp name caps root fc ts)) →
    ∃ reply, performHandshake tr cr ai (t_localID ti) false (mkWriter [] None) (stream_of hello)
      = (mkWriter reply None, Ret (mkPeer (t_localID ti) name ai root fc ts cr 0))).
Proof.
  intros Hi Hr.
  destruct (sent_and_read MESSAGE_TYPE_HANDSHAKE_ACK 0 _ [] None [] Hr eq_refl) as (d2 & e2 & W2 & R2 & T2 & _ & U2).
  assert (∀ hs, deliverable (0%Z, MHandshake hs) →
    ∃ d1, SendHandshake (mkWriter [] None) 0 hs = (mkWriter (frame d1) None, Ret ()) ∧
      performHandshake tr cr ai (t_localID ti) false (mkWriter [] None) (stream_of (frame d1))
      = (mkWriter (frame d2) None, Ret (mkPeer (t_localID ti) (hs_PeerName hs) ai (hs_MerkleRoot hs)
           (hs_FileCount hs) (hs_TotalSize hs) cr 0))) as Hresp.
  { intros hs Hd.
    destruct (sent_and_read MESSAGE_TYPE_HANDSHAKE 0 _ [] None [] Hd eq_refl) as (d1 & e1 & W1 & R1 & T1 & _ & U1).
    exists d1. split; [exact W1|]. rewrite app_nil_r in R1. simpl app in W2.
    unfold performHandshake, SendHandshakeAck, stream_of. rewrite R1, T1, U1, W2.
    by rewrite decide_False by (intros E; by apply E). }
  split.
  - destruct (Hresp _ Hi) as (d1 & Hs & Hp). exists (frame d1), (frame d2). split; [exact Hp|].
    unfold performHandshake, stream_of. rewrite Hs. rewrite app_nil_r in R2. rewrite R2, T2, U2.
    by rewrite decide_False by (intros E; by apply E).
  - intros version fp name caps root fc ts hello Hs Hd. destruct (Hresp _ Hd) as (d1 & Hs' & Hp).
    rewrite Hs in Hs'. injection Hs' as ->. by exists (frame d2).
Qed.

(** A chunk request is answered by the server's callback: when the request
    and the response fit in an envelope, RequestChunks against a peer that
    serves the stream with handleStream returns exactly the response the
    callback computes for the requested hashes, and the callback runs exactly
    once, on the state it leaves. *)
Theorem chunk_rpc {St : Type} (f : St → ChunkRequest → St * option ChunkResponse)
    (g : option (St → option ManifestRequest → St * option ManifestResponse))
    (s s' : St) (peer : Peer) (hashes : list bytes) (resp : ChunkResponse) :
  f s (mkChunkRequest hashes 1) = (s', Some resp) →
  deliverable (p_nextReqID peer, MChunkRequest (mkChunkRequest hashes 1)) →
  deliverable (p_nextReqID peer, MChunkResponse resp) →
  (RequestChunks (λ out, stream_of (handleStream (Some f) g s (stream_of out)).2) peer hashes).2 = Ret resp ∧
  ∃ out, SendChunkRequest (mkWriter [] None) (p_nextReqID peer) (mkChunkRequest hashes 1)
           = (mkWriter out None, Ret ()) ∧
         (handleStream (Some f) g s (stream_of out)).1 = s'.
Proof.
  intros Hf Hq Hp.
  destruct (sent_and_read MESSAGE_TYPE_CHUNK_REQUEST _ _ [] None [] Hq eq_refl) as (d1 & e1 & W1 & R1 & T1 & I1 & U1).
  destruct (sent_and_read MESSAGE_TYPE_CHUNK_RESPONSE _ _ [] None [] Hp eq_refl) as (d2 & e2 & W2 & R2 & T2 & _ & U2).
  rewrite app_nil_r in R1, R2. simpl app in W1, W2.
  assert (handleStream (Some f) g s (stream_of (frame d1)) = (s', frame d2)) as Hs.
  { assert (length (frame d1) = S (3 + length d1)) as Hl
      by (unfold frame; rewrite length_app, length_be_put; lia).
    unfold handleStream. change (st_buf (stream_of (frame d1))) with (frame d1). rewrite Hl.
    unfold stream_of. cbn [stream_requests]. rewrite R1, T1. unfold handleChunkRequest.
    unfold UnmarshalPayload in U1. rewrite U1, Hf, I1. unfold SendChunkResponse. rewrite W2. cbn [fst].
    unfold ReadEnvelope at 1. done. }
  split.
  - unfold RequestChunks, SendChunkRequest. rewrite W1. cbn [w_out]. rewrite Hs. unfold stream_of. cbn [snd].
    rewrite R2, T2, U2. by rewrite decide_False by (intros E; by apply E).
  - exists (frame d1). split; [exact W1|by rewrite Hs].
Qed.
End transport.

(** ** The table of connected peers

    One handler runs per connection. Its steps are atomic where the code holds
    [peersMu]: the look-up, the registration, the removal. The handshake in
    between runs unlocked, so steps of different handlers interleave. *)
Inductive phase :=
| Handshaking            (* the look-up found nothing *)
| ReturnedExisting       (* the look-up found a peer, which is returned *)
| Streaming (p : Peer)   (* registered, handlePeerStreams is running *)
| Ended.

Record table := mkTable {
  tb_peers : gmap bytes Peer;
  tb_conns : gmap nat phase;
}.

Definition empty_table : table := mkTable ∅ ∅.

Definition GetPeer (tb : table) (id : bytes) : option Peer := tb_peers tb !! id.
Definition Peers (tb : table) : list Peer := (map_to_list (tb_peers tb)).*2.

Definition set_phase (tb : table) (conn : nat) (ph : phase) : table :=
  mkTable (tb_peers tb) (<[conn := ph]> (tb_conns tb)).

(** [removePeer]: the entry goes by id, whichever connection it belongs to. *)
Definition removePeer (tb : table) (p : Peer) : table :=
  mkTable (delete (p_ID p) (tb_peers tb)) (tb_conns tb).

Section table.
(** The fingerprint TLS showed for a connection. *)
Variable fp : nat → bytes.

Inductive table_step (tb : table) : table → Prop :=
| step_existing conn p :
    tb_conns tb !! conn = None → tb_peers tb !! fp conn = Some p →
    table_step tb (set_phase tb conn ReturnedExisting)
| step_lookup conn :
    tb_conns tb !! conn = None → tb_peers tb !! fp conn = None →
    table_step tb (set_phase tb conn Handshaking)
| step_handshake_failed conn :
    tb_conns tb !! conn = Some Handshaking → table_step tb (set_phase tb conn Ended)
| step_register conn p :
    tb_conns tb !! conn = Some Handshaking → p_ID p = fp conn → p_conn p = conn →
    table_step tb (mkTable (<[fp conn := p]> (tb_peers tb)) (<[conn := Streaming p]> (tb_conns tb)))
| step_disconnect conn p :
    tb_conns tb !! conn = Some (Streaming p) →
    table_step tb (set_phase (removePeer tb p) conn Ended).

Definition reachable (tb : table) : Prop := star table_step empty_table tb.

(** The invariant: entries are keyed by the fingerprint of their connection,
    whose handler is streaming, and handlers stream for their own peer. *)
Definition table_ok (tb : table) : Prop :=
  (∀ id p, tb_peers tb !! id = Some p →
     p_ID p = id ∧ fp (p_conn p) = id ∧ tb_conns tb !! p_conn p = Some (Streaming p)) ∧
  (∀ conn p, tb_conns tb !! conn = Some (Streaming p) → p_conn p = conn ∧ p_ID p = fp conn).

Lemma table_ok_phase tb conn ph :
  table_ok tb → (∀ p, tb_conns tb !! conn ≠ Some (Streaming p)) → (∀ p, ph ≠ Streaming p) →
  table_ok (set_phase tb conn ph).
Proof.
  intros [H1 H2] Hc Hph. split; simpl.
  - intros id p Hp. destruct (H1 id p Hp) as (? & ? & Hs). split_and!; [done..|].
    rewrite lookup_insert_ne; [done|]. intros ->. by destruct (Hc p).
  - intros c p. rewrite lookup_insert. case_decide; [|apply H2]. intros [= E]. by destruct (Hph p).
Qed.

Lemma table_step_ok tb tb' : table_ok tb → table_step tb tb' → table_ok tb'.
Proof.
  intros Hok [conn p Hc Hp|conn Hc Hp|conn Hc|conn p Hc Hid Hcn|conn p Hc].
  1-3: apply table_ok_phase; [done| |done]; intros p' E; congruence.
  - destruct Hok as [H1 H2]. split; simpl.
    + intros id q. rewrite !lookup_insert. case_decide as E.
      * intros [= <-]. subst id. split_and!; [done|by rewrite Hcn|by rewrite decide_True].
      * intros Hq. destruct (H1 id q Hq) as (? & ? & Hs). split_and!; [done..|].
        rewrite decide_False; [done|]. intros Eq. rewrite <- Eq, Hc in Hs. done.
    + intros c q. rewrite lookup_insert. case_decide as E; [|apply H2]. intros [= <-]. by subst.
  - destruct Hok as [H1 H2]. destruct (H2 conn p Hc) as [Hcn Hid]. split; simpl.
    + intros id q Hq. rewrite lookup_delete in Hq. case_decide as E; [done|].
      destruct (H1 id q Hq) as (Hq1 & Hq2 & Hs). split_and!; [done..|].
      rewrite lookup_insert_ne; [done|]. intros Eq. rewrite <- Eq in Hq2. congruence.
    + intros c q. rewrite lookup_insert. case_decide; [done|]. apply H2.
Qed.

Lemma empty_table_ok : table_ok empty_table.
Proof. split; intros ? ?; simpl; by rewrite lookup_empty. Qed.

(** In every reachable state, however the handlers of concurrent
    connections interleave, the peer table holds no stale entry: each entry is
    filed under its own id, which is the certificate fingerprint of its
    connection, and that connection's handler is still streaming. *)
Theorem peers_live (tb : table) (id : bytes) (p : Peer) :
  reachable tb → GetPeer tb id = Some p →
  p_ID p = id ∧ fp (p_conn p) = id ∧ tb_conns tb !! p_conn p = Some (Streaming p).
Proof.
  intros Hr Hp.
  assert (table_ok tb) as [Hok _] by (eapply (star_invariant table_step table_ok table_step_ok), empty_table_ok; exact Hr).
  by apply Hok.
Qed.

(** The check for an existing connection and the registration are not one
    atomic step, and removal goes by id. So when one peer opens two
    connections at the same time, a state is reachable in which the second
    connection is registered and streaming but the peer is missing from the
    table, because the end of the first connection removed the entry. *)
Theorem concurrent_connections_lose_peer (c1 c2 : nat) (p1 p2 : Peer) :
  c1 ≠ c2 → fp c1 = fp c2 →
  p_ID p1 = fp c1 → p_conn p1 = c1 → p_ID p2 = fp c2 → p_conn p2 = c2 →
  ∃ tb, reachable tb ∧ tb_conns tb !! c2 = Some (Streaming p2) ∧ GetPeer tb (fp c2) = None.
Proof.
  intros Hne Hfp I1 C1 I2 C2.
  eexists. split; [|split].
  1: unfold reachable.
  1: eapply star_step; [eapply (step_lookup _ c1); [done|done]|].
  1: eapply star_step; [eapply (step_lookup _ c2); [by simpl; rewrite lookup_insert_ne|done]|].
  1: eapply star_step; [eapply (step_register _ c1 p1); [|done|done]|].
  1: simpl; rewrite lookup_insert_ne by done; apply lookup_insert_eq.
  1: eapply star_step; [eapply (step_register _ c2 p2); [|done|done]|].
  1: simpl; rewrite lookup_insert_ne by done; apply lookup_insert_eq.
  1: eapply star_step; [eapply (step_disconnect _ c1 p1)|apply star_refl].
  1: simpl; rewrite lookup_insert_ne by done; apply lookup_insert_eq.
  all: simpl.
  - rewrite lookup_insert_ne by done. apply lookup_insert_eq.
  - unfold GetPeer. simpl. rewrite I1, Hfp. apply lookup_delete_eq.
Qed.
(** A connection of a peer that is already in the table is handed the existing
    entry and nothing else happens to it, ever: it is not closed, and nobody
    accepts its streams, so that a peer which lost its old connection and dials
    again is not served as long as the old entry is there. *)
Theorem second_connection_unserved (tb : table) (conn : nat) (p : Peer) :
  GetPeer tb (fp conn) = Some p → tb_conns tb !! conn = None →
  table_step tb (set_phase tb conn ReturnedExisting) ∧
  ∀ tb', star table_step (set_phase tb conn ReturnedExisting) tb' → tb_conns tb' !! conn = Some ReturnedExisting.
Proof.
  intros Hp Hc. split; [by eapply step_existing|]. intros tb' Hs.
  eapply (star_invariant table_step (λ t, tb_conns t !! conn = Some ReturnedExisting)); [|exact Hs|apply lookup_insert_eq].
  intros t t' Ht [c q Hc1 _|c Hc1 _|c Hc1|c q Hc1 _ _|c q Hc1]; simpl; rewrite lookup_insert_ne; congruence.
Qed.
End table.

(** ** Witnesses *)
Module TransportExample.
#[local] Existing Instance CountableCodec.codec.

Definition cfg (name : string) : Config := mkConfig (bytes_of_string name) [x0a; x0b] 3 4096.
Definition ti : Transport := NewTransport (cfg "alice") [x01; x02].
Definition tr : Transport := SetMerkleRoot (NewTransport (cfg "bob") [x03; x04]) [x0c].

Lemma handshake_agreement_witness :
  ∃ hello reply,
    performHandshake tr 1 [] [x01; x02] false (mkWriter [] None) (stream_of hello)
      = (mkWriter reply None, Ret (mkPeer [x01; x02] (bytes_of_string "alice") [] [x0a; x0b] 3 4096 1 0)) ∧
    performHandshake ti 2 [] [x03; x04] true (mkWriter [] None) (stream_of reply)
      = (mkWriter hello None, Ret (mkPeer [x03; x04] (bytes_of_string "bob") [] [x0c] 0 0 2 0)).
Proof.
  apply (handshake_agreement ti tr 2 1 [] []);
    (eexists; split; [vm_compute; reflexivity|vm_compute; discriminate]).
Defined.

(** A server that owns one chunk. *)
Definition answer (s : nat) (q : ChunkRequest) : nat * option ChunkResponse :=
  (S s, Some (mkChunkResponse ((λ h, NewProtoChunk h [x2a]) <$> cq_ChunkHashes q) [])).
Definition the_peer : Peer := mkPeer [x03] [] [] [] 0 0 1 0.

Lemma chunk_rpc_witness :
  (RequestChunks (λ out, stream_of (handleStream (Some answer) None 0 (stream_of out)).2) the_peer [[x07]]).2
  = Ret (mkChunkResponse [mkProtoChunk [x07] [x2a] 1] []).
Proof.
  refine (proj1 (chunk_rpc answer None 0 1 the_peer [[x07]] _ eq_refl _ _));
    (eexists; split; [vm_compute; reflexivity|vm_compute; discriminate]).
Defined.

(** Two connections of one peer. *)
Definition same_fp (conn : nat) : bytes := [x03].
Definition peer_of (conn : nat) : Peer := mkPeer [x03] [] [] [] 0 0 conn 0.

Lemma concurrent_connections_lose_peer_witness :
  ∃ tb, reachable same_fp tb ∧ tb_conns tb !! 2 = Some (Streaming (peer_of 2)) ∧ GetPeer tb [x03] = None.
Proof. apply (concurrent_connections_lose_peer same_fp 1 2 (peer_of 1) (peer_of 2)); done. Defined.

Definition one_peer : table := mkTable {[ [x03] := peer_of 1 ]} {[ 1 := Streaming (peer_of 1) ]}.

Lemma peers_live_witness :
  GetPeer one_peer [x03] = Some (peer_of 1) ∧ tb_conns one_peer !! 1 = Some (Streaming (peer_of 1)).
Proof.
  split; [reflexivity|].
  apply (peers_live same_fp one_peer [x03] (peer_of 1)); [|reflexivity].
  eapply star_step; [apply (step_lookup _ _ 1); reflexivity|].
  eapply star_step; [apply (step_register _ _ 1 (peer_of 1)); reflexivity|].
  apply star_refl.
Defined.
End TransportExample.
