(* ===== verification/TransportLife.v ===== *)
(** * The life of a transport ([internal/net/transport.go])

    Construction, listening, and the goroutines of a running transport as one
    transition system: the accept loop, one handler per dialled or accepted
    connection ([handleConnection]), one stream loop per registered peer
    ([handlePeerStreams]) and the caller of [Close]. An action is a section the
    code runs under [peersMu], a callback, or an operation on the wait group.
    Remote peers and the network decide when a connection appears or goes away
    and how a handshake ends. [y_log] records the callbacks in the order in
    which they are made. *)
From Stdlib Require Import Strings.Byte Strings.String.
From S2P Require Import Prelude Sha256 Manifest Wire Transport.

(** ** Construction and listening *)
Inductive transport_error :=
| GeneratingCertificate
| ResolvingAddress
| ListeningUDP
| CreatingListener.

(** The certificate template; usages and constraints are fixed. Times are in
    nanoseconds. *)
Record cert_template := mkTemplate { ct_SerialNumber : Z; ct_CommonName : bytes; ct_NotBefore : Z; ct_NotAfter : Z }.

Inductive cert_error := GeneratingKey | GeneratingSerial | CreatingCertificate.

Definition year : Z := 365 * 24 * 3600 * 1000000000.

(** [generateSelfSignedCert]: the library's key, serial number and encoding are
    arguments, [None] where the call fails; the result is the chain. *)
Definition generateSelfSignedCert {Key : Type} (name : bytes) (now : Z) (key : option Key) (serial : option Z)
    (create : cert_template → Key → option bytes) : outcome cert_error (list bytes) :=
  match key with
  | None => Err GeneratingKey
  | Some priv =>
      match serial with
      | None => Err GeneratingSerial
      | Some serialNumber =>
          match create (mkTemplate serialNumber name now (now + year)) priv with
          | None => Err CreatingCertificate
          | Some certDER => Ret [certDER]
          end
      end
  end.

(** [NewTransport]: the configured certificate chain, or a generated one. *)
Definition newTransport `{HashFn} (cfg : Config) (certificate : option (list bytes)) (generated : option (list bytes))
    : outcome transport_error Transport :=
  match certificate with
  | Some chain => Ret (NewTransport cfg (CertFingerprint (Some chain)))
  | None =>
      match generated with
      | Some chain => Ret (NewTransport cfg (CertFingerprint (Some chain)))
      | None => Err GeneratingCertificate
      end
  end.

Definition LocalID (t : Transport) : bytes := t_localID t.

(** A transport without a configured certificate is known by the hash of the
    certificate it made for itself; with one, by the hash of its leaf. A
    configured certificate without a chain gives 32 zero bytes, the identity
    of every other such transport. *)
Lemma transport_identity `{HashFn} {Key : Type} cfg now key serial (create : cert_template → Key → option bytes) chain :
  generateSelfSignedCert (cfg_PeerName cfg) now key serial create = Ret chain →
  (∃ der t, chain = [der] ∧ newTransport cfg None (Some chain) = Ret t ∧ LocalID t = sha256 der) ∧
  (∀ der rest gen, ∃ t, newTransport cfg (Some (der :: rest)) gen = Ret t ∧ LocalID t = sha256 der) ∧
  (∀ gen, ∃ t, newTransport cfg (Some []) gen = Ret t ∧ LocalID t = replicate 32 x00).
Proof.
  intros E. split_and!.
  - unfold generateSelfSignedCert in E. repeat case_match; simplify_eq. eexists _, _.
    split_and!; [done..|]. apply (fingerprint_is_hash _ []).
  - intros der rest gen. eexists. split; [done|]. apply (fingerprint_is_hash der rest).
  - intros gen. by eexists.
Qed.

Definition IPv4zero : bytes := replicate 4 x00.

(** [IP.IsUnspecified] on IPv4 and IPv6 addresses. *)
Definition IsUnspecified (ip : bytes) : bool :=
  bool_decide (ip = replicate 4 x00) || bool_decide (ip = replicate 16 x00) ||
  bool_decide (ip = replicate 10 x00 ++ [xff; xff] ++ replicate 4 x00).

(** [Listen]: the address that is bound. A nil IP is [None]. *)
Definition Listen (resolved : option (option bytes * Z)) (udp_ok quic_ok : bool)
    : outcome transport_error (bytes * Z) :=
  match resolved with
  | None => Err ResolvingAddress
  | Some (ip, port) =>
      let ip' := match ip with
                 | None => IPv4zero
                 | Some a => if IsUnspecified a then IPv4zero else a
                 end in
      if negb udp_ok then Err ListeningUDP
      else if negb quic_ok then Err CreatingListener
      else Ret (ip', port)
  end.

(** What a handshake that succeeds leaves, on either side: a peer with the
    fingerprint TLS showed, on this connection. *)
Lemma handshake_peer `{ProtoCodec} (t : Transport) conn addr peerID isInitiator w r w' p :
  performHandshake t conn addr peerID isInitiator w r = (w', Ret p) → p_ID p = peerID ∧ p_conn p = conn.
Proof. unfold performHandshake. intros E. repeat case_match; simplify_eq; done. Qed.

(** ** Goroutines *)
Inductive hphase :=                (* [handleConnection] *)
| HStart
| HNoCert                          (* returned "no peer certificate" *)
| HExisting                        (* returned the peer of the table *)
| HHandshake                       (* after the look-up *)
| HFailed                          (* returned an error *)
| HRegistered (p : Peer)           (* the peer is in the table *)
| HSpawned (p : Peer)              (* the stream loop is started *)
| HDone (p : Peer).                (* the callback has been made *)

Inductive sphase :=                (* [handlePeerStreams] *)
| SNone
| SRunning (p : Peer)
| SRemoved (p : Peer)              (* [removePeer] up to its callback *)
| SOver (p : Peer).

Record tconn := mkTconn {
  k_open : bool;                   (* not closed by this side *)
  k_remote : bool;                 (* not closed by the other side, not timed out *)
  k_handler : hphase;
  k_stream : sphase;
}.

Inductive lphase := NotListening | Accepting | AcceptOver.
Inductive cphase := NotClosed | Cancelled | Swept | Returned.

Inductive callback := Connected (p : Peer) | Disconnected (p : Peer).

Record tsys := mkTsys {
  y_conns : gmap nat tconn;
  y_peers : gmap bytes Peer;
  y_cancel : bool;
  y_listen : lphase;
  y_wg : Z;
  y_log : list callback;
  y_close : cphase;
}.

Definition tstart : tsys := mkTsys ∅ ∅ false NotListening 0 [] NotClosed.

Definition new_conn : tconn := mkTconn true true HStart SNone.
Definition set_handler (h : hphase) (k : tconn) : tconn := mkTconn (k_open k) (k_remote k) h (k_stream k).
Definition set_stream (st : sphase) (k : tconn) : tconn := mkTconn (k_open k) (k_remote k) (k_handler k) st.
(** [CloseWithError]. *)
Definition close_tconn (k : tconn) : tconn := mkTconn false (k_remote k) (k_handler k) (k_stream k).
Definition lose_tconn (k : tconn) : tconn := mkTconn (k_open k) false (k_handler k) (k_stream k).

Definition upd (y : tsys) (c : nat) (k : tconn) : tsys :=
  mkTsys (<[c := k]> (y_conns y)) (y_peers y) (y_cancel y) (y_listen y) (y_wg y) (y_log y) (y_close y).
Definition with_peers (y : tsys) (m : gmap bytes Peer) : tsys :=
  mkTsys (y_conns y) m (y_cancel y) (y_listen y) (y_wg y) (y_log y) (y_close y).
Definition add_wg (y : tsys) (d : Z) : tsys :=
  mkTsys (y_conns y) (y_peers y) (y_cancel y) (y_listen y) (y_wg y + d) (y_log y) (y_close y).
Definition log (y : tsys) (e : callback) : tsys :=
  mkTsys (y_conns y) (y_peers y) (y_cancel y) (y_listen y) (y_wg y) (y_log y ++ [e]) (y_close y).
Definition set_listen (y : tsys) (l : lphase) : tsys :=
  mkTsys (y_conns y) (y_peers y) (y_cancel y) l (y_wg y) (y_log y) (y_close y).

Inductive tact :=
| AListen
| AAccept (c : nat)                (* the accept loop gets a connection *)
| AAcceptErr                       (* [Accept] fails *)
| ADial (c : nat)                  (* [Connect] has a connection *)
| ANoCert (c : nat)
| ALookup (c : nat)
| AHandshakeOk (c : nat) (p : Peer)
| AHandshakeFail (c : nat)
| ASpawn (c : nat)
| ANotifyUp (c : nat)
| AStreamEnd (c : nat)             (* [AcceptStream] fails *)
| ANotifyDown (c : nat)
| APeerGone (c : nat)
| ACancel                          (* [Close] up to the lock *)
| ASweep                           (* its loop over the peers *)
| AReturn.                         (* [wg.Wait] returns *)

(** What the program does by itself, as opposed to the network and callers. *)
Definition is_internal (a : tact) : bool :=
  match a with AListen | AAccept _ | ADial _ | APeerGone _ | ACancel => false | _ => true end.

Section system.
(** The fingerprint TLS shows for a connection. *)
Variable fp : nat → bytes.

(** One step of the handler of connection [c]. Both callers close the
    connection when the handler returns an error. The guard of a successful
    handshake is [handshake_peer]. *)
Definition handler_step (y : tsys) (c : nat) (k : tconn) (a : tact) : option tsys :=
  match a, k_handler k with
  | ANoCert _, HStart => Some (upd y c (close_tconn (set_handler HNoCert k)))
  | ALookup _, HStart =>
      match y_peers y !! fp c with
      | Some _ => Some (upd y c (set_handler HExisting k))
      | None => Some (upd y c (set_handler HHandshake k))
      end
  | AHandshakeFail _, HHandshake => Some (upd y c (close_tconn (set_handler HFailed k)))
  | AHandshakeOk _ p, HHandshake =>
      if bool_decide (p_ID p = fp c ∧ p_conn p = c) then
        Some (with_peers (upd y c (set_handler (HRegistered p) k)) (<[fp c := p]> (y_peers y)))
      else None
  | ASpawn _, HRegistered p => Some (add_wg (upd y c (set_stream (SRunning p) (set_handler (HSpawned p) k))) 1)
  | ANotifyUp _, HSpawned p => Some (log (upd y c (set_handler (HDone p) k)) (Connected p))
  | _, _ => None
  end.

(** One step of the stream loop: [AcceptStream] fails once the context is
    cancelled or the connection is gone. *)
Definition stream_step (y : tsys) (c : nat) (k : tconn) (a : tact) : option tsys :=
  match a, k_stream k with
  | AStreamEnd _, SRunning p =>
      if y_cancel y || negb (k_open k) || negb (k_remote k) then
        Some (with_peers (upd y c (set_stream (SRemoved p) k)) (delete (p_ID p) (y_peers y)))
      else None
  | ANotifyDown _, SRemoved p => Some (add_wg (log (upd y c (set_stream (SOver p) k)) (Disconnected p)) (-1))
  | _, _ => None
  end.

(** A failed [Accept] is tried again at once unless the transport is shutting
    down, so an error that persists keeps the loop busy. *)
Definition accept_step (y : tsys) (a : tact) : option tsys :=
  match a, y_listen y with
  | AAccept c, Accepting =>
      match y_conns y !! c with None => Some (upd y c new_conn) | Some _ => None end
  | AAcceptErr, Accepting =>
      Some (if y_cancel y then add_wg (set_listen y AcceptOver) (-1) else y)
  | _, _ => None
  end.

(** The connections of the peers in the table are closed. *)
Definition sweep (y : tsys) : gmap nat tconn :=
  foldr (λ kv m, alter close_tconn (p_conn kv.2) m) (y_conns y) (map_to_list (y_peers y)).
#[global] Arguments sweep : simpl never.

Definition close_step (y : tsys) (a : tact) : option tsys :=
  match a, y_close y with
  | ACancel, NotClosed =>
      Some (mkTsys (y_conns y) (y_peers y) true (y_listen y) (y_wg y) (y_log y) Cancelled)
  | ASweep, Cancelled =>
      Some (mkTsys (sweep y) (y_peers y) (y_cancel y) (y_listen y) (y_wg y) (y_log y) Swept)
  | AReturn, Swept =>
      if (y_wg y =? 0)%Z then
        Some (mkTsys (y_conns y) (y_peers y) (y_cancel y) (y_listen y) (y_wg y) (y_log y) Returned)
      else None
  | _, _ => None
  end.

Definition tstep (y : tsys) (a : tact) : option tsys :=
  match a with
  | AListen =>
      match y_listen y with NotListening => Some (add_wg (set_listen y Accepting) 1) | _ => None end
  | AAccept _ | AAcceptErr => accept_step y a
  | ADial c => match y_conns y !! c with None => Some (upd y c new_conn) | Some _ => None end
  | ANoCert c | ALookup c | AHandshakeOk c _ | AHandshakeFail c | ASpawn c | ANotifyUp c =>
      k ← y_conns y !! c; handler_step y c k a
  | AStreamEnd c | ANotifyDown c => k ← y_conns y !! c; stream_step y c k a
  | APeerGone c => k ← y_conns y !! c; Some (upd y c (lose_tconn k))
  | ACancel | ASweep | AReturn => close_step y a
  end.

Fixpoint trun (y : tsys) (l : list tact) : option tsys :=
  match l with
  | [] => Some y
  | a :: l' => y' ← tstep y a; trun y' l'
  end.

(** ** The state of a connection

    The phases of the two goroutines of a connection fit each other, and both
    work for the peer of this connection. *)
Definition k_ok (c : nat) (k : tconn) : Prop :=
  match k_handler k, k_stream k with
  | (HStart | HNoCert | HExisting | HHandshake | HFailed), SNone => True
  | HRegistered p, SNone => p_ID p = fp c ∧ p_conn p = c
  | (HSpawned p | HDone p), (SRunning q | SRemoved q | SOver q) => p = q ∧ p_ID p = fp c ∧ p_conn p = c
  | _, _ => False
  end.

(** What the table of [Transport] sees of a connection. *)
Definition abs_conn (k : tconn) : option phase :=
  match k_handler k, k_stream k with
  | (HStart | HNoCert), _ => None
  | HExisting, _ => Some ReturnedExisting
  | HHandshake, _ => Some Handshaking
  | HFailed, _ => Some Ended
  | HRegistered p, _ => Some (Streaming p)
  | (HSpawned _ | HDone _), SRunning p => Some (Streaming p)
  | (HSpawned _ | HDone _), _ => Some Ended
  end.

Definition absr (y : tsys) : table := mkTable (y_peers y) (omap abs_conn (y_conns y)).

(** Goroutines of a connection that the wait group counts. *)
Definition counted (k : tconn) : nat :=
  match k_stream k with SRunning _ | SRemoved _ => 1 | _ => 0 end.

Definition accepting (y : tsys) : nat := match y_listen y with Accepting => 1 | _ => 0 end.

(** The callbacks of connection [c], and those its goroutines have made. *)
Definition cb_conn (e : callback) : nat := match e with Connected p | Disconnected p => p_conn p end.
Definition callbacks (c : nat) (l : list callback) : list callback := filter (λ e, cb_conn e = c) l.

Definition made (k : tconn) : list callback :=
  match k_handler k with HDone p => [Connected p] | _ => [] end ++
  match k_stream k with SOver p => [Disconnected p] | _ => [] end.

Definition conn_made (c : nat) (ok : option tconn) : list callback := from_option made [] ok.

Record sys_ok (y : tsys) : Prop := {
  so_conns : ∀ c k, y_conns y !! c = Some k → k_ok c k;
  so_wg : y_wg y = Z.of_nat (accepting y + total counted (y_conns y));
  so_log : ∀ c, callbacks c (y_log y) ≡ₚ conn_made c (y_conns y !! c);
  so_cancel : y_cancel y = false ↔ y_close y = NotClosed;
}.

Lemma sys_ok_start : sys_ok tstart.
Proof. split; simpl; [intros ? ?; by rewrite lookup_empty|done|intros c; by rewrite lookup_empty|done]. Qed.

Lemma callbacks_own c c' es :
  Forall (λ e, cb_conn e = c) es → callbacks c' es = if decide (c' = c) then es else [].
Proof.
  induction 1 as [|e es He _ IH]; [by case_decide|]. unfold callbacks in *. rewrite filter_cons, IH, He.
  repeat case_decide; congruence.
Qed.

(** A step of one connection keeps the invariant when it keeps that
    connection's part of it. [d] is what it adds to the wait group, [es] the
    callback it makes. *)
Lemma sys_ok_conn es d y c k k' m w l :
  sys_ok y → y_conns y !! c = Some k → k_ok c k' → w = (y_wg y + d)%Z → l = y_log y ++ es →
  (Z.of_nat (counted k') = Z.of_nat (counted k) + d)%Z →
  made k' ≡ₚ made k ++ es → Forall (λ e, cb_conn e = c) es →
  sys_ok (mkTsys (<[c := k']> (y_conns y)) m (y_cancel y) (y_listen y) w l (y_close y)).
Proof.
  intros [Hc Hw Hl Hx] Hk Hk' -> -> Hd Hm Hes. split; simpl.
  - intros c' k1. rewrite lookup_insert. case_decide; [|apply Hc]. intros [= <-]. by subst.
  - rewrite Hw. pose proof (total_insert counted _ _ _ k' Hk). unfold accepting in *. simpl. lia.
  - intros c'. unfold callbacks. rewrite filter_app. fold (callbacks c' (y_log y)) (callbacks c' es).
    rewrite Hl, (callbacks_own c c' es Hes), lookup_insert. repeat case_decide; try congruence.
    + subst c'. rewrite Hk. simpl. by rewrite Hm.
    + by rewrite app_nil_r.
  - done.
Qed.

Ltac step_cases Hst :=
  repeat match type of Hst with
  | context [match ?x with _ => _ end] => destruct x eqn:?; simplify_eq/=
  end.

Ltac conn_step es d :=
  unfold with_peers, add_wg, log, upd; simpl;
  eapply (sys_ok_conn es d); [eassumption|eassumption|..];
  unfold k_ok; simpl; rewrite ?app_nil_r, ?Z.add_0_r; try done.

Lemma handler_step_ok y c k a y' :
  sys_ok y → y_conns y !! c = Some k → handler_step y c k a = Some y' → sys_ok y'.
Proof.
  intros Hok Hk Hst. pose proof (so_conns y Hok c k Hk) as Hkk. unfold k_ok in Hkk.
  destruct k as [o r h st]. unfold handler_step in Hst. simpl in *. step_cases Hst.
  all: destruct st; try done.
  1-5: conn_step (@nil callback) 0%Z.
  - by apply bool_decide_eq_true in Heqb.
  - conn_step (@nil callback) 1%Z.
  - destruct Hkk as (<- & ? & ?). conn_step [Connected p] 0%Z. by repeat constructor.
  - destruct Hkk as (<- & ? & ?). conn_step [Connected p] 0%Z. by repeat constructor.
  - destruct Hkk as (<- & ? & ?). conn_step [Connected p] 0%Z; [apply Permutation_swap|by repeat constructor].
Qed.

Lemma stream_step_ok y c k a y' :
  sys_ok y → y_conns y !! c = Some k → stream_step y c k a = Some y' → sys_ok y'.
Proof.
  intros Hok Hk Hst. pose proof (so_conns y Hok c k Hk) as Hkk. unfold k_ok in Hkk.
  destruct k as [o r h st]. unfold stream_step in Hst. simpl in *. step_cases Hst.
  all: destruct h; try done; destruct Hkk as (-> & ? & ?).
  1-2: conn_step (@nil callback) 0%Z.
  all: conn_step [Disconnected p] (-1)%Z; by repeat constructor.
Qed.

Lemma sweep_lookup y c : ∃ n, sweep y !! c = Nat.iter n close_tconn <$> (y_conns y !! c).
Proof.
  unfold sweep. induction (map_to_list (y_peers y)) as [|kv l [n IH]]; simpl.
  - exists 0. simpl. by rewrite option_fmap_id.
  - rewrite lookup_alter. case_decide as E.
    + subst. exists (S n). rewrite IH. by destruct (y_conns y !! _).
    + by exists n.
Qed.

Lemma sweep_none y : y_peers y = ∅ → sweep y = y_conns y.
Proof. intros E. unfold sweep. by rewrite E, map_to_list_empty. Qed.

Lemma total_sweep f y : (∀ k, f (close_tconn k) = f k) → total f (sweep y) = total f (y_conns y).
Proof.
  intros Hf. unfold sweep. induction (map_to_list (y_peers y)) as [|kv l IH]; simpl; [done|].
  by rewrite total_alter.
Qed.

Lemma closed_same {B} (f : tconn → B) n k : (∀ k, f (close_tconn k) = f k) → f (Nat.iter n close_tconn k) = f k.
Proof. intros Hf. induction n as [|n IH]; simpl; [done|]. by rewrite Hf. Qed.

Lemma sys_ok_new y c : sys_ok y → y_conns y !! c = None → sys_ok (upd y c new_conn).
Proof.
  intros [Hc Hw Hl Hx] Hn. split; simpl; [| | |done].
  - intros c' k. rewrite lookup_insert. case_decide; [|apply Hc]. by intros [= <-].
  - unfold accepting in *. simpl. by rewrite total_insert_new.
  - intros c'. rewrite Hl, lookup_insert. case_decide; [|done]. subst c'. by rewrite Hn.
Qed.

(** Steps that touch no goroutine of a connection. *)
Lemma sys_ok_ctl y cs x l w cl :
  sys_ok y → (∀ c, ∃ n, cs !! c = Nat.iter n close_tconn <$> (y_conns y !! c)) →
  total counted cs = total counted (y_conns y) →
  (w - Z.of_nat (accepting (mkTsys cs (y_peers y) x l w (y_log y) cl)) = y_wg y - Z.of_nat (accepting y))%Z →
  (x = false ↔ cl = NotClosed) →
  sys_ok (mkTsys cs (y_peers y) x l w (y_log y) cl).
Proof.
  intros [Hc Hw Hl Hx] Hcs Ht Hw' Hx'. split; simpl; [| | |done].
  - intros c k Hk. destruct (Hcs c) as [n Hn]. rewrite Hk in Hn. symmetry in Hn.
    apply fmap_Some in Hn as (k0 & Hk0 & ->). unfold k_ok. rewrite !closed_same by done. by apply Hc.
  - rewrite Ht. lia.
  - intros c. rewrite Hl. destruct (Hcs c) as [n ->]. destruct (y_conns y !! c); simpl; [|done].
    unfold made. by rewrite !closed_same.
Qed.

Lemma sys_ok_same y : ∀ c, ∃ n, y_conns y !! c = Nat.iter n close_tconn <$> (y_conns y !! c).
Proof. intros c. exists 0. by rewrite option_fmap_id. Qed.

Lemma tstep_ok y a y' : sys_ok y → tstep y a = Some y' → sys_ok y'.
Proof.
  intros Hok Hst. pose proof (so_cancel y Hok). destruct a; cbn [tstep] in Hst; unfold accept_step, close_step in Hst.
  all: try (apply bind_Some in Hst as (k & Hk & Hst); eauto using handler_step_ok, stream_step_ok; fail).
  all: try (step_cases Hst; eauto using sys_ok_new; fail).
  - step_cases Hst. unfold add_wg, set_listen; simpl. apply (sys_ok_ctl y); [done|apply sys_ok_same|done| |done].
    unfold accepting; simpl. rewrite Heql. lia.
  - destruct (y_cancel y) eqn:Ex; step_cases Hst; [|done]. rewrite <- Ex in *.
    unfold add_wg, set_listen; simpl. apply (sys_ok_ctl y); [done|apply sys_ok_same|done| |done].
    unfold accepting; simpl. rewrite Heql. lia.
  - apply bind_Some in Hst as (k & Hk & Hst). simplify_eq. pose proof (so_conns y Hok c k Hk) as Hkk.
    conn_step (@nil callback) 0%Z.
  - step_cases Hst. apply (sys_ok_ctl y); auto using sys_ok_same. naive_solver.
  - step_cases Hst. apply (sys_ok_ctl y); auto using sweep_lookup, total_sweep. naive_solver.
  - step_cases Hst. apply (sys_ok_ctl y); auto using sys_ok_same. naive_solver.
Qed.

(** ** Refinement of the peer table *)
Lemma omap_same (cs cs' : gmap nat tconn) :
  (∀ c, cs' !! c ≫= abs_conn = cs !! c ≫= abs_conn) → omap abs_conn cs' = omap abs_conn cs.
Proof. intros H. apply map_eq. intros c. by rewrite !lookup_omap. Qed.

Lemma omap_insert_same (cs : gmap nat tconn) c k k' :
  cs !! c = Some k → abs_conn k' = abs_conn k → omap abs_conn (<[c := k']> cs) = omap abs_conn cs.
Proof.
  intros Hk E. apply omap_same. intros c'. rewrite lookup_insert. case_decide; [|done]. subst. by rewrite Hk.
Qed.

(** A section of the table, or a step it does not see. *)
Definition refines (y y' : tsys) : Prop := absr y' = absr y ∨ table_step fp (absr y) (absr y').

Lemma refines_silent y y' c k k' :
  y_conns y !! c = Some k → y_conns y' = <[c := k']> (y_conns y) → y_peers y' = y_peers y →
  abs_conn k' = abs_conn k → refines y y'.
Proof. intros Hk E1 E2 E. left. unfold absr. rewrite E1, E2. f_equal. by eapply omap_insert_same. Qed.

Lemma refines_visible y y' c k' ph m :
  y_conns y' = <[c := k']> (y_conns y) → y_peers y' = m → abs_conn k' = Some ph →
  table_step fp (absr y) (mkTable m (<[c := ph]> (omap abs_conn (y_conns y)))) → refines y y'.
Proof. intros E1 E2 E Hs. right. unfold absr at 2. rewrite E1, E2. by rewrite (omap_insert_Some _ _ _ _ ph). Qed.

Lemma handler_step_refines y c k a y' :
  sys_ok y → y_conns y !! c = Some k → handler_step y c k a = Some y' → refines y y'.
Proof.
  intros Hok Hk Hst. pose proof (so_conns y Hok c k Hk) as Hkk. unfold k_ok in Hkk.
  assert (omap abs_conn (y_conns y) !! c = abs_conn k) as Ha by (by rewrite lookup_omap, Hk).
  destruct k as [o r h st]. unfold handler_step in Hst. simpl in *. step_cases Hst.
  all: destruct st; try done.
  1, 6-9: by eapply refines_silent.
  - eapply refines_visible; [done..|]. by eapply step_existing.
  - eapply refines_visible; [done..|]. by apply step_lookup.
  - apply bool_decide_eq_true in Heqb as [Hid Hcn].
    eapply refines_visible; [done..|]. by apply (step_register fp (absr y) c p).
  - eapply refines_visible; [done..|]. by apply step_handshake_failed.
Qed.

Lemma stream_step_refines y c k a y' :
  sys_ok y → y_conns y !! c = Some k → stream_step y c k a = Some y' → refines y y'.
Proof.
  intros Hok Hk Hst. pose proof (so_conns y Hok c k Hk) as Hkk. unfold k_ok in Hkk.
  assert (omap abs_conn (y_conns y) !! c = abs_conn k) as Ha by (by rewrite lookup_omap, Hk).
  destruct k as [o r h st]. unfold stream_step in Hst. simpl in *. step_cases Hst.
  all: destruct h; try done; destruct Hkk as (-> & ? & ?).
  3-4: by eapply refines_silent.
  all: eapply refines_visible; [done..|]; by apply (step_disconnect fp (absr y) c p).
Qed.

Lemma tstep_refines y a y' : sys_ok y → tstep y a = Some y' → refines y y'.
Proof.
  intros Hok Hst. destruct a; cbn [tstep] in Hst; unfold accept_step, close_step in Hst.
  all: try (apply bind_Some in Hst as (k & Hk & Hst); eauto using handler_step_refines, stream_step_refines; fail).
  - step_cases Hst. by left.
  - step_cases Hst. left. unfold absr. simpl. f_equal. by rewrite omap_insert_None, delete_id by
      (done || by rewrite lookup_omap, Heqo).
  - destruct (y_cancel y) eqn:Ex; step_cases Hst; by left.
  - step_cases Hst. left. unfold absr. simpl. f_equal. by rewrite omap_insert_None, delete_id by
      (done || by rewrite lookup_omap, Heqo).
  - apply bind_Some in Hst as (k & Hk & Hst). simplify_eq. by eapply refines_silent.
  - step_cases Hst. by left.
  - step_cases Hst. left. unfold absr. simpl. f_equal. apply omap_same. intros c.
    destruct (sweep_lookup y c) as [n ->]. destruct (y_conns y !! c); simpl; [|done].
    by rewrite closed_same.
  - step_cases Hst. by left.
Qed.

Lemma trun_ok y l y' :
  sys_ok y → trun y l = Some y' → sys_ok y' ∧ star (table_step fp) (absr y) (absr y').
Proof.
  revert y. induction l as [|a l IH]; intros y Hok Hr; simpl in Hr.
  - simplify_eq. split; [done|apply star_refl].
  - apply bind_Some in Hr as (y1 & Hst & Hr).
    destruct (IH y1 (tstep_ok y a y1 Hok Hst) Hr) as [Hok' Hs]. split; [done|].
    destruct (tstep_refines y a y1 Hok Hst) as [E|Ht]; [by rewrite <- E|by eapply star_step].
Qed.

Lemma trun_start l y : trun tstart l = Some y → sys_ok y ∧ reachable fp (absr y).
Proof.
  intros Hr. destruct (trun_ok tstart l y sys_ok_start Hr) as [Hok Hs]. split; [done|].
  unfold absr at 1 in Hs. simpl in Hs. by rewrite omap_empty in Hs.
Qed.

Lemma trun_app y l l' : trun y (l ++ l') = trun y l ≫= λ y', trun y' l'.
Proof. revert y. induction l as [|a l IH]; intros y; simpl; [done|]. destruct (tstep y a); simpl; auto. Qed.

(** C15: However the accept loop, the handlers, the stream loops, Close and the
    network interleave, every step is one step of the peer table or invisible
    to it, so all invariants of the table hold of a running transport; the
    wait group counts exactly the accept loop and the stream loops that have
    not ended; and the callbacks of a connection are exactly those its two
    goroutines have got to, each made at most once. *)
Theorem transport_refines_table (l : list tact) (y : tsys) :
  trun tstart l = Some y →
  reachable fp (absr y) ∧
  (∀ a y', tstep y a = Some y' → absr y' = absr y ∨ table_step fp (absr y) (absr y')) ∧
  y_wg y = Z.of_nat (accepting y + total counted (y_conns y)) ∧
  (∀ c, callbacks c (y_log y) ≡ₚ conn_made c (y_conns y !! c)).
Proof.
  intros Hr. destruct (trun_start l y Hr) as [Hok Hre].
  split_and!; [done|intros a y'; by apply tstep_refines|apply Hok..].
Qed.

(** ** Shutdown *)
Definition rank (k : tconn) : nat :=
  match k_handler k with
  | HStart => 6 | HHandshake => 5 | HRegistered _ => 4 | HSpawned _ => 1 | _ => 0
  end + match k_stream k with SRunning _ => 2 | SRemoved _ => 1 | _ => 0 end.

Definition close_rank (y : tsys) : nat :=
  match y_close y with NotClosed => 3 | Cancelled => 2 | Swept => 1 | Returned => 0 end.

(** The number of internal steps that are left. *)
Definition work (y : tsys) : nat := total rank (y_conns y) + accepting y + close_rank y.

Lemma work_conn y y' c k k' :
  y_conns y !! c = Some k → y_conns y' = <[c := k']> (y_conns y) →
  y_listen y' = y_listen y → y_close y' = y_close y → rank k' < rank k → work y' < work y.
Proof.
  intros Hk E1 E2 E3 Hlt. unfold work, accepting, close_rank. rewrite E1, E2, E3.
  pose proof (total_insert rank _ _ _ k' Hk). lia.
Qed.

Lemma internal_decreases y a y' :
  sys_ok y → y_cancel y = true → is_internal a = true → tstep y a = Some y' → work y' < work y.
Proof.
  intros Hok Hx Hi Hst. destruct a; try done; cbn [tstep] in Hst; unfold accept_step, close_step in Hst.
  all: try (apply bind_Some in Hst as (k & Hk & Hst); pose proof (so_conns y Hok c k Hk) as Hkk;
    unfold k_ok in Hkk; destruct k as [o r h st]; unfold handler_step, stream_step in Hst; simpl in *; step_cases Hst;
    try destruct st; try done; (eapply work_conn; [exact Hk|reflexivity..|unfold rank; simpl; lia])).
  - rewrite Hx in Hst. step_cases Hst. unfold work, accepting, close_rank. simpl. rewrite Heql. lia.
  - step_cases Hst. unfold work, accepting, close_rank. cbn [y_conns y_listen y_close].
    rewrite total_sweep, Heqc by done. lia.
  - step_cases Hst. unfold work, accepting, close_rank. simpl. rewrite Heqc. lia.
Qed.

Lemma cancel_stays y a y' : tstep y a = Some y' → y_cancel y = true → y_cancel y' = true.
Proof.
  intros Hst Hx. destruct a; cbn [tstep] in Hst;
    unfold accept_step, close_step, handler_step, stream_step in Hst; rewrite ?Hx in Hst;
    repeat (apply bind_Some in Hst as (k & Hk & Hst)); step_cases Hst; simplify_eq; (exact Hx || done).
Qed.

Lemma internal_bounded l y y' :
  sys_ok y → y_cancel y = true → Forall (λ a, is_internal a = true) l → trun y l = Some y' →
  length l + work y' ≤ work y.
Proof.
  intros Hok Hx Hl. revert y Hok Hx. induction Hl as [|a l Ha _ IH]; intros y Hok Hx Hr; simpl in *; [simplify_eq; lia|].
  apply bind_Some in Hr as (y1 & Hst & Hr).
  pose proof (internal_decreases y a y1 Hok Hx Ha Hst).
  pose proof (IH y1 (tstep_ok y a y1 Hok Hst) (cancel_stays y a y1 Hst Hx) Hr). lia.
Qed.

(** Nothing left to do for a connection. *)
Definition idle (k : tconn) : Prop :=
  match k_handler k, k_stream k with
  | (HNoCert | HExisting | HFailed), SNone | HDone _, SOver _ => True
  | _, _ => False
  end.

Definition at_rest (y : tsys) : Prop := ∀ a, is_internal a = true → tstep y a = None.

Lemma rest_idle y c k :
  sys_ok y → y_cancel y = true → at_rest y → y_conns y !! c = Some k → idle k.
Proof.
  intros Hok Hx Hr Hk. pose proof (so_conns y Hok c k Hk) as Hkk. unfold k_ok in Hkk.
  destruct k as [o r h st]. unfold idle. simpl in *.
  pose proof (Hr (ALookup c) eq_refl) as H1. pose proof (Hr (AHandshakeFail c) eq_refl) as H2.
  pose proof (Hr (ASpawn c) eq_refl) as H3. pose proof (Hr (ANotifyUp c) eq_refl) as H4.
  pose proof (Hr (AStreamEnd c) eq_refl) as H5. pose proof (Hr (ANotifyDown c) eq_refl) as H6.
  cbn [tstep] in *. unfold handler_step, stream_step in *. rewrite Hk in *. simpl in *. rewrite Hx in *.
  destruct h, st; try done. by destruct (y_peers y !! fp c).
Qed.

Lemma idle_no_stream k : idle k → counted k = 0 ∧ ∀ p, abs_conn k ≠ Some (Streaming p).
Proof. destruct k as [o r h st]. unfold idle, counted, abs_conn. simpl. by destruct h, st. Qed.

Lemma rest_returned y : sys_ok y → y_cancel y = true → at_rest y → y_close y = Returned.
Proof.
  intros Hok Hx Hr. pose proof (so_cancel y Hok) as Hc.
  assert (y_wg y = 0%Z) as Hw.
  { rewrite (so_wg y Hok), total_zero.
    - pose proof (Hr AAcceptErr eq_refl) as H. unfold tstep, accept_step in H. unfold accepting.
      by destruct (y_listen y).
    - intros c k Hk. by apply idle_no_stream, (rest_idle y c). }
  pose proof (Hr ASweep eq_refl) as H1. pose proof (Hr AReturn eq_refl) as H2.
  unfold tstep, close_step in *. rewrite Hw in H2. destruct (y_close y); try done.
  by rewrite (proj2 Hc eq_refl) in Hx.
Qed.

Lemma rest_callbacks y p :
  sys_ok y → y_cancel y = true → at_rest y → Connected p ∈ y_log y ↔ Disconnected p ∈ y_log y.
Proof.
  intros Hok Hx Hr. pose proof (so_log y Hok (p_conn p)) as Hl.
  assert (∀ e, cb_conn e = p_conn p → e ∈ y_log y ↔ e ∈ conn_made (p_conn p) (y_conns y !! p_conn p)) as He.
  { intros e E. rewrite <- Hl. unfold callbacks. rewrite list_elem_of_filter. naive_solver. }
  rewrite !He by done. destruct (y_conns y !! p_conn p) as [k|] eqn:Hk; simpl; [|set_solver].
  pose proof (rest_idle y _ k Hok Hx Hr Hk) as Hi. pose proof (so_conns y Hok _ k Hk) as Hkk.
  destruct k as [o r h st]. unfold idle, made, k_ok in *. simpl in *. destruct h, st; try done; set_solver.
Qed.

Lemma busy_connection y c k :
  sys_ok y → y_cancel y = true → y_conns y !! c = Some k → rank k ≠ 0 →
  ∃ a, is_internal a = true ∧ is_Some (tstep y a).
Proof.
  intros Hok Hx Hk Hrk. pose proof (so_conns y Hok c k Hk) as Hkk. unfold k_ok in Hkk.
  destruct k as [o r h st]. unfold rank in Hrk. simpl in *.
  destruct h; [exists (ALookup c)| | |exists (AHandshakeFail c)| |exists (ASpawn c)|exists (ANotifyUp c)|].
  all: destruct st; try done.
  1-6: split; [done|]; cbn [tstep]; rewrite Hk; unfold handler_step; simpl; eauto.
  - destruct (y_peers y !! fp c); eauto.
  - exists (AStreamEnd c). split; [done|]. cbn [tstep]. rewrite Hk. simpl. rewrite Hx. eauto.
  - exists (ANotifyDown c). split; [done|]. cbn [tstep]. rewrite Hk. simpl. eauto.
Qed.

Lemma progress y :
  sys_ok y → y_cancel y = true → work y ≠ 0 → ∃ a, is_internal a = true ∧ is_Some (tstep y a).
Proof.
  intros Hok Hx Hw. destruct (decide (map_Forall (λ _ k, rank k = 0) (y_conns y))) as [Hz|Hz].
  2: { apply map_not_Forall in Hz as (c & k & Hk & Hrk); [|apply _]. by eapply busy_connection. }
  unfold work in Hw. rewrite total_zero in Hw by exact Hz.
  destruct (y_listen y) eqn:El; unfold accepting in Hw; rewrite El in Hw.
  2: { exists AAcceptErr. split; [done|]. unfold tstep, accept_step. rewrite El. eauto. }
  all: assert (y_wg y = 0%Z) as Hwg by
    (rewrite (so_wg y Hok), total_zero; [by unfold accepting; rewrite El|];
     intros c k Hk; specialize (Hz c k Hk); unfold rank in Hz; unfold counted; destruct (k_stream k); lia).
  all: pose proof (so_cancel y Hok) as Hc; unfold close_rank in Hw; destruct (y_close y) eqn:Ec; try done.
  all: try (rewrite (proj2 Hc eq_refl) in Hx; done).
  all: try (exists ASweep; split; [done|]; unfold tstep, close_step; rewrite Ec; eauto; fail).
  all: exists AReturn; split; [done|]; unfold tstep, close_step; rewrite Ec, Hwg; eauto.
Qed.

Lemma finishes n y :
  work y ≤ n → sys_ok y → y_cancel y = true →
  ∃ l' y', Forall (λ a, is_internal a = true) l' ∧ trun y l' = Some y' ∧ y_close y' = Returned.
Proof.
  revert y. induction n as [|n IH]; intros y Hn Hok Hx; destruct (decide (work y = 0)) as [Hz|Hz]; try lia.
  1, 2: exists [], y; split_and!; [constructor|done|]; unfold work, close_rank in Hz; destruct (y_close y); (done || lia).
  destruct (progress y Hok Hx Hz) as (a & Ha & y1 & Hst).
  pose proof (internal_decreases y a y1 Hok Hx Ha Hst).
  destruct (IH y1 ltac:(lia) (tstep_ok y a y1 Hok Hst) (cancel_stays y a y1 Hst Hx)) as (l' & y' & Hl & Hr & Hc).
  exists (a :: l'), y'. split_and!; [by constructor|simpl; by rewrite Hst|done].
Qed.

(** C16: Close terminates and cleans up. Once it has cancelled the context, the
    goroutines of the transport make at most [work y] more steps unless new
    connections arrive, whatever the order; Close can always return; and when
    none of them can move, Close has returned, the peer table is empty, nothing is in the wait group,
    and every peer whose connection was announced has been announced as
    disconnected. *)
Theorem close_terminates (l : list tact) (y : tsys) :
  trun tstart l = Some y → y_close y ≠ NotClosed →
  (∀ l' y', Forall (λ a, is_internal a = true) l' → trun y l' = Some y' → length l' + work y' ≤ work y) ∧
  (∃ l' y', Forall (λ a, is_internal a = true) l' ∧ trun y l' = Some y' ∧ y_close y' = Returned) ∧
  (at_rest y → y_close y = Returned ∧ y_peers y = ∅ ∧ y_wg y = 0%Z ∧
     ∀ p, Connected p ∈ y_log y ↔ Disconnected p ∈ y_log y).
Proof.
  intros Hr Hc. destruct (trun_start l y Hr) as [Hok Hre].
  assert (y_cancel y = true) as Hx.
  { destruct (y_cancel y) eqn:E; [done|]. by apply (so_cancel y Hok) in E. }
  split; [intros l' y'; by apply internal_bounded|]. split; [by eapply finishes|]. intros Hrest.
  split_and!; [by apply rest_returned| |..|intros p; by apply rest_callbacks].
  - apply map_eq. intros id. rewrite lookup_empty. destruct (y_peers y !! id) as [p|] eqn:Hp; [|done].
    assert (table_ok fp (absr y)) as [Htab _]
      by (eapply (star_invariant _ (table_ok fp) (table_step_ok fp)), empty_table_ok; exact Hre).
    destruct (Htab id p Hp) as (_ & _ & Hs). simpl in Hs. rewrite lookup_omap in Hs.
    apply bind_Some in Hs as (k & Hk & Hs). by apply (idle_no_stream k (rest_idle y _ k Hok Hx Hrest Hk)) in Hs.
  - rewrite (so_wg y Hok), total_zero; [|intros c k Hk; by apply idle_no_stream, (rest_idle y c)].
    pose proof (Hrest AAcceptErr eq_refl) as H. unfold tstep, accept_step in H. unfold accepting.
    by destruct (y_listen y).
Qed.

Lemma trun_cons y a y1 l r : tstep y a = Some y1 → trun y1 l = r → trun y (a :: l) = r.
Proof. intros E <-. simpl. by rewrite E. Qed.

Ltac sys_cbn :=
  cbv beta iota zeta delta [tstep mbind option_bind handler_step stream_step close_step k_handler k_stream k_open k_remote set_handler
     set_stream lose_tconn new_conn y_conns y_peers y_cancel y_listen y_wg y_log y_close orb negb
     upd with_peers add_wg log set_listen tstart app].
Ltac run_step Hb :=
  eapply trun_cons; [
    repeat (progress (sys_cbn; rewrite ?lookup_insert_eq, ?lookup_empty, ?insert_insert_eq, ?Hb)); reflexivity|].

(** Callbacks are not ordered. The stream loop of a peer is started before
    the connected callback is made, so a connection that is lost at that moment
    is announced as disconnected first and as connected afterwards, and stays
    so for the application; and handlers are not in the wait group, so a
    handshake that was under way when Close was called registers its peer and
    announces it after Close has returned. *)
Theorem callbacks_unordered (c : nat) (p : Peer) :
  p_ID p = fp c → p_conn p = c →
  (∃ l y, trun tstart l = Some y ∧ y_log y = [Disconnected p; Connected p] ∧ y_peers y = ∅) ∧
  (∃ l y l' y', trun tstart l = Some y ∧ y_close y = Returned ∧ y_log y = [] ∧
     trun y l' = Some y' ∧ y_log y' = [Connected p] ∧ y_peers y' = {[ fp c := p ]}).
Proof.
  intros Hid Hc.
  assert (bool_decide (p_ID p = fp c ∧ p_conn p = c) = true) as Hb by (by apply bool_decide_eq_true).
  split.
  - exists [ADial c; ALookup c; AHandshakeOk c p; ASpawn c; APeerGone c; AStreamEnd c; ANotifyDown c; ANotifyUp c].
    eexists. split; [repeat run_step Hb; reflexivity|]. cbn [y_log y_peers]. split; [done|].
    by rewrite Hid, delete_insert_id by apply lookup_empty.
  - exists [ADial c; ALookup c; ACancel; ASweep; AReturn]. eexists.
    exists [AHandshakeOk c p; ASpawn c; ANotifyUp c]. eexists.
    split; [repeat run_step Hb; reflexivity|].
    rewrite sweep_none by done. split_and!; [done..|repeat run_step Hb; reflexivity|done|apply insert_empty].
Qed.
End system.

(** ** Witnesses *)
Module TransportLifeExample.
Import TransportExample.

(** A transport listens, accepts and dials peer [03] concurrently, and closes. *)
Definition the_run : list tact :=
  [AListen; AAccept 1; ADial 2; ALookup 1; ALookup 2; AHandshakeOk 1 (peer_of 1); ASpawn 1; ANotifyUp 1;
   AHandshakeOk 2 (peer_of 2); ACancel; ASweep].

Definition after (l : list tact) : tsys := default tstart (trun same_fp tstart l).

Lemma transport_refines_table_witness :
  reachable same_fp (absr (after the_run)) ∧ y_wg (after the_run) = 2%Z.
Proof.
  pose proof (transport_refines_table same_fp the_run (after the_run) ltac:(vm_compute; reflexivity)) as (H1 & _ & H2 & _).
  split; [exact H1|]. rewrite H2. vm_compute. reflexivity.
Defined.

(** The rest of the shutdown. *)
Definition the_end : list tact :=
  [AAcceptErr; ASpawn 2; AStreamEnd 1; ANotifyDown 1; AStreamEnd 2; ANotifyUp 2; ANotifyDown 2; AReturn].

Lemma close_terminates_witness :
  work (after the_run) = 8 ∧
  ∀ l' y', Forall (λ a, is_internal a = true) l' → trun same_fp (after the_run) l' = Some y' →
    length l' + work y' ≤ 8.
Proof.
  split; [vm_compute; reflexivity|].
  refine (proj1 (close_terminates same_fp the_run (after the_run) ltac:(vm_compute; reflexivity) _)).
  vm_compute. discriminate.
Defined.

Lemma callbacks_unordered_witness :
  ∃ l y, trun same_fp tstart l = Some y ∧ y_log y = [Disconnected (peer_of 1); Connected (peer_of 1)] ∧ y_peers y = ∅.
Proof. exact (proj1 (callbacks_unordered same_fp 1 (peer_of 1) eq_refl eq_refl)). Defined.

(** All of it happens, and both callbacks of both connections are made. *)
Example the_whole_run :
  (λ y, (y_close y, y_wg y, y_log y, map_to_list (y_peers y))) <$> trun same_fp tstart (the_run ++ the_end) =
  Some (Returned, 0%Z,
    [Connected (peer_of 1); Disconnected (peer_of 1); Connected (peer_of 2); Disconnected (peer_of 2)], []).
Proof. vm_compute. reflexivity. Qed.
End TransportLifeExample.
