(* ===== verification/SyncNet.v ===== *)
(** * The sync manager ([internal/net/sync.go])

    The store is any [ChunkStore]. The peer's answers are functions: [exchange]
    for the manifest stream and [rpc], the answer to the n-th chunk request;
    [rpc] may answer anything, as an untrusted peer can. The worker pool and
    the pending map, which [SyncWithPeer] does not use, are left out. *)
From Stdlib Require Import Strings.Byte Strings.String.
From S2P Require Import Prelude Sha256 Chunk ChunkStore Merkle MerkleSpec DiffSpec Manifest Wire Transport.

Record SyncResult := mkSyncResult {
  sr_PeerID : bytes;
  sr_AlreadyInSync : bool;
  sr_Diffs : Z;
  sr_ChunksNeeded : Z;
  sr_ChunksFetched : Z;
  sr_ChunksNotFound : Z;
  sr_BytesFetched : Z;
}.

Inductive manifest_error :=
| MEOpen                     (* no stream *)
| MESend (e : wire_error)
| MERead (e : wire_error)
| MEDecode.

Inductive sync_error (E : Type) :=
| ManifestFailed (e : manifest_error)
| RequestFailed (partial : SyncResult) (e : request_error)
| StoreFailed (partial : SyncResult) (e : E).
Arguments ManifestFailed {E} _.
Arguments RequestFailed {E} _ _.
Arguments StoreFailed {E} _ _.

(** ** The manifest request *)
Section manifest.
Context `{ProtoCodec}.

(** A response of another type returns the nil error of the read before it:
    [Ret None]. *)
Definition requestManifest (exchange : bytes → stream) : outcome manifest_error (option ManifestResponse) :=
  match SendManifestRequest (mkWriter [] None) 1 (mkManifestRequest [] (-1) true) with
  | (_, Err e) => Err (MESend e)
  | (_, Panic) => Panic
  | (w, Ret _) =>
      match ReadEnvelope (exchange (w_out w)) with
      | (Err e, _) => Err (MERead e)
      | (Panic, _) => Panic
      | (Ret env, _) =>
          if decide (env_Type env ≠ MESSAGE_TYPE_MANIFEST_RESPONSE) then Ret None
          else match UnmarshalPayload env MESSAGE_TYPE_MANIFEST_RESPONSE with
               | Some (MManifestResponse resp) => Ret (Some resp)
               | _ => Err MEDecode
               end
      end
  end.
End manifest.

Section sync.
Context {St E : Type} `{ChunkStore St E}.

(** ** Serving *)
Fixpoint answer_hashes (st : St) (hashes : list bytes) (resp : ChunkResponse) : ChunkResponse :=
  match hashes with
  | [] => resp
  | h :: hashes' =>
      answer_hashes st hashes'
        (match cs_get st h with
         | Ret c => mkChunkResponse (cr_Chunks resp ++ [mkProtoChunk (ch_Hash c) (ch_Data c) (ch_Size c)])
                      (cr_NotFound resp)
         | _ => mkChunkResponse (cr_Chunks resp) (cr_NotFound resp ++ [h])
         end)
  end.

Definition HandleChunkRequest (st : St) (req : ChunkRequest) : ChunkResponse :=
  answer_hashes st (cq_ChunkHashes req) (mkChunkResponse [] []).

Definition HandleManifestRequest (tree : Tree) : ManifestResponse :=
  match t_Root tree with
  | None => mkManifestResponse None 0
  | Some n => mkManifestResponse (Some (nodeToManifest n)) 0
  end.

(** ** Synchronising *)
Variable order : bytes → list (bytes * Node) → list (bytes * Node).

(** The chunks of the deleted and modified entries. *)
Definition chunksToFetch (diffs : list DiffResult) : list bytes :=
  concat ((λ d, match d_Type d with DiffTypeAdded => [] | _ => d_Chunks d end) <$> diffs).

Definition batchSize : nat := 16.

(** Storing the chunks of one response under the hashes it names. *)
Fixpoint store_chunks (st : St) (cs : list ProtoChunk) (res : SyncResult) : St * outcome (sync_error E) SyncResult :=
  match cs with
  | [] => (st, Ret res)
  | c :: cs' =>
      match cs_put st (mkChunk (pc_Hash c) (pc_Size c) (pc_Data c)) with
      | (st', Ret _) =>
          store_chunks st' cs'
            (mkSyncResult (sr_PeerID res) (sr_AlreadyInSync res) (sr_Diffs res) (sr_ChunksNeeded res)
               (sr_ChunksFetched res + 1) (sr_ChunksNotFound res)
               (sr_BytesFetched res + Z.of_nat (length (pc_Data c))))
      | (st', Err e) => (st', Err (StoreFailed res e))
      | (st', Panic) => (st', Panic)
      end
  end.

Definition add_not_found (res : SyncResult) (n : nat) : SyncResult :=
  mkSyncResult (sr_PeerID res) (sr_AlreadyInSync res) (sr_Diffs res) (sr_ChunksNeeded res)
    (sr_ChunksFetched res) (sr_ChunksNotFound res + Z.of_nat n) (sr_BytesFetched res).

(** The batch loop: [chunksToFetch[i:min(i+16, len)]] for [i = 0, 16, ...]. *)
Fixpoint fetch_loop (fuel i : nat) (needed : list bytes) (rpc : nat → list bytes → outcome request_error ChunkResponse)
    (st : St) (res : SyncResult) : St * outcome (sync_error E) SyncResult :=
  match fuel with
  | O => (st, Panic)
  | S fuel' =>
      if decide (i < length needed) then
        let hi := if decide (length needed < i + batchSize) then length needed else i + batchSize in
        match rpc i (slice i hi needed) with
        | Err e => (st, Err (RequestFailed res e))
        | Panic => (st, Panic)
        | Ret resp =>
            match store_chunks st (cr_Chunks resp) res with
            | (st', Ret res') =>
                fetch_loop fuel' (i + batchSize) needed rpc st' (add_not_found res' (length (cr_NotFound resp)))
            | (st', Err e) => (st', Err e)
            | (st', Panic) => (st', Panic)
            end
        end
      else (st, Ret res)
  end.

Definition fetch_all (needed : list bytes) (rpc : nat → list bytes → outcome request_error ChunkResponse)
    (st : St) (res : SyncResult) : St * outcome (sync_error E) SyncResult :=
  fetch_loop (S (length needed)) 0 needed rpc st res.

(** Does the peer announce the root hash of the local tree? *)
Definition in_sync (tree : Tree) (peer : Peer) : bool :=
  match t_Root tree with
  | Some n => bool_decide (p_MerkleRoot peer ≠ [] ∧ n_Hash n = p_MerkleRoot peer)
  | None => false
  end.

(** [SyncWithPeer] after the manifest request: dereferencing a nil manifest
    is [Panic]. *)
Definition SyncWithPeer (st : St) (tree : Tree) (peer : Peer)
    (manifest : outcome manifest_error (option ManifestResponse))
    (rpc : nat → list bytes → outcome request_error ChunkResponse) : St * outcome (sync_error E) SyncResult :=
  let result := mkSyncResult (p_ID peer) false 0 0 0 0 0 in
  if in_sync tree peer then (st, Ret (mkSyncResult (p_ID peer) true 0 0 0 0 0))
  else match manifest with
       | Err e => (st, Err (ManifestFailed e))
       | Panic | Ret None => (st, Panic)
       | Ret (Some m) =>
           let remoteTree := mkTree (manifestToNode <$> mr_Root m) in
           let diffs := Diff order tree remoteTree in
           let needed := chunksToFetch diffs in
           let result := mkSyncResult (p_ID peer) false (Z.of_nat (length diffs)) (Z.of_nat (length needed)) 0 0 0 in
           if decide (length needed = 0) then (st, Ret result) else fetch_all needed rpc st result
       end.

Definition UpdateMerkleRoot (old new : Tree) : Tree := new.

(** ** Lemmas *)
Lemma answer_hashes_spec st hs resp :
  cs_wf st → Forall long_hash hs →
  let r := answer_hashes st hs resp in
  cr_Chunks r = cr_Chunks resp ++ omap (λ h, d ← cs_view st h; Some (NewProtoChunk h d)) hs ∧
  cr_NotFound r = cr_NotFound resp ++ filter (λ h, cs_view st h = None) hs.
Proof.
  intros Hw Hl. revert resp. induction Hl as [|h hs Hh Hl IH]; intros resp; simpl.
  { by rewrite !app_nil_r. }
  pose proof (cs_get_spec st h Hw Hh) as Hg. rewrite filter_cons.
  destruct (cs_view st h) as [d|] eqn:Ev.
  - rewrite Hg. cbn [ch_Hash ch_Data ch_Size]. fold (NewProtoChunk h d). destruct (IH (mkChunkResponse (cr_Chunks resp ++ [NewProtoChunk h d]) (cr_NotFound resp))) as [E1 E2].
    rewrite E1, E2. cbn [cr_Chunks cr_NotFound]. rewrite <- app_assoc. by rewrite decide_False.
  - destruct Hg as [e ->]. destruct (IH (mkChunkResponse (cr_Chunks resp) (cr_NotFound resp ++ [h]))) as [E1 E2].
    rewrite E1, E2. cbn [cr_Chunks cr_NotFound]. rewrite <- app_assoc. by rewrite decide_True.
Qed.

Lemma HandleChunkRequest_spec st hs prio :
  cs_wf st → Forall long_hash hs →
  let r := HandleChunkRequest st (mkChunkRequest hs prio) in
  cr_Chunks r = omap (λ h, d ← cs_view st h; Some (NewProtoChunk h d)) hs ∧
  cr_NotFound r = filter (λ h, cs_view st h = None) hs.
Proof. intros Hw Hl. by apply (answer_hashes_spec st hs (mkChunkResponse [] [])). Qed.

(** The content of the store after the chunks of a response were put: the
    first content put under a hash stays. *)
Definition first_data (h : bytes) (cs : list ProtoChunk) : option bytes :=
  pc_Data <$> head (filter (λ c, pc_Hash c = h) cs).

Lemma store_chunks_spec st cs res :
  cs_wf st → Forall (λ c, long_hash (pc_Hash c)) cs →
  match store_chunks st cs res with
  | (st', Ret res') =>
      cs_wf st' ∧
      (∀ h, long_hash h → cs_view st' h = match cs_view st h with Some d => Some d | None => first_data h cs end) ∧
      sr_ChunksFetched res' = (sr_ChunksFetched res + Z.of_nat (length cs))%Z ∧
      sr_BytesFetched res' = (sr_BytesFetched res + Z.of_nat (length (concat (pc_Data <$> cs))))%Z ∧
      sr_ChunksNotFound res' = sr_ChunksNotFound res ∧ sr_ChunksNeeded res' = sr_ChunksNeeded res
  | (st', Err _) => cs_wf st'
  | (_, Panic) => False
  end.
Proof.
  intros Hw Hl. revert st res Hw. induction Hl as [|c cs Hc Hl IH]; intros st res Hw; simpl.
  { split_and!; try done; try lia. intros h _. by destruct (cs_view st h). }
  pose proof (cs_put_spec st (mkChunk (pc_Hash c) (pc_Size c) (pc_Data c)) Hw Hc) as (Hw' & Ho & Hr).
  destruct (cs_put st _) as [st' [b|e|]]; simpl in *; [|done..]. destruct Hr as [_ Hv].
  match goal with |- context [store_chunks st' cs ?r] => specialize (IH st' r Hw') end.
  destruct (store_chunks st' cs _) as [st'' [res'|e|]]; [|done..].
  destruct IH as (H1 & H2 & H3 & H4 & H5 & H6). simpl in *. rewrite length_app.
  split_and!; [done| |lia|change (list_fmap _ _ pc_Data cs) with (pc_Data <$> cs); lia|done|done].
  intros h Hh. rewrite H2 by done. unfold first_data. rewrite filter_cons.
  destruct (decide (pc_Hash c = h)) as [<-|Hne].
  - rewrite Hv. by destruct (cs_view st (pc_Hash c)).
  - rewrite Ho by done. done.
Qed.

End sync.

Section theorems.
Context {St E : Type} `{ChunkStore St E} {St2 E2 : Type} `{ChunkStore St2 E2}.
Context (server : St2).

(** An honest peer answers every request from its own store. *)
Definition honest (n : nat) (hs : list bytes) : outcome request_error ChunkResponse :=
  Ret (HandleChunkRequest server (mkChunkRequest hs 1)).

Lemma first_data_answers h hs :
  first_data h (omap (λ h, d ← cs_view server h; Some (NewProtoChunk h d)) hs)
  = if decide (h ∈ hs) then cs_view server h else None.
Proof.
  unfold first_data. induction hs as [|k hs IH]; [done|]. cbn [omap list_omap].
  destruct (cs_view server k) as [d|] eqn:Ek; cbn [mbind option_bind].
  - rewrite filter_cons. cbn [pc_Hash NewProtoChunk]. destruct (decide (k = h)) as [->|Hne].
    + rewrite decide_True by left. by rewrite Ek.
    + rewrite IH. destruct (decide (h ∈ hs)) as [Hi|Hi].
      * by rewrite decide_True by (by right).
      * by rewrite decide_False by (by intros [?|?]%elem_of_cons).
  - rewrite IH. destruct (decide (h ∈ hs)) as [Hi|Hi].
    + by rewrite decide_True by (by right).
    + destruct (decide (h = k)) as [->|Hne]; [by rewrite decide_True by left|].
      by rewrite decide_False by (by intros [?|?]%elem_of_cons).
Qed.

Lemma answers_long hs :
  Forall long_hash hs →
  Forall (λ c, long_hash (pc_Hash c)) (omap (λ h, d ← cs_view server h; Some (NewProtoChunk h d)) hs).
Proof.
  intros Hl. apply Forall_forall. intros c (h & Hh & Hc)%list_elem_of_omap.
  destruct (cs_view server h); simpl in Hc; [|done]. injection Hc as <-.
  rewrite Forall_forall in Hl. by apply Hl.
Qed.

Lemma answers_count hs :
  length (omap (λ h, d ← cs_view server h; Some (NewProtoChunk h d)) hs)
  + length (filter (λ h, cs_view server h = None) hs) = length hs.
Proof.
  induction hs as [|k hs IH]; [done|]. cbn [omap list_omap]. rewrite filter_cons.
  destruct (cs_view server k) as [d|] eqn:Ek; cbn [mbind option_bind length].
  - rewrite decide_False by done. lia.
  - rewrite decide_True by done. cbn [length]. lia.
Qed.

(** What the fetching loop leaves, from position [i] on. *)
Lemma fetch_loop_spec fuel i needed (st : St) res :
  cs_wf server → cs_wf st → Forall long_hash needed → length needed - i < fuel →
  match fetch_loop fuel i needed honest st res with
  | (st', Ret res') =>
      cs_wf st' ∧
      (∀ h, long_hash h → cs_view st' h =
         match cs_view st h with
         | Some d => Some d
         | None => if decide (h ∈ drop i needed) then cs_view server h else None
         end) ∧
      (sr_ChunksFetched res' + sr_ChunksNotFound res'
       = sr_ChunksFetched res + sr_ChunksNotFound res + Z.of_nat (length (drop i needed)))%Z ∧
      sr_ChunksNeeded res' = sr_ChunksNeeded res
  | (st', Err _) => cs_wf st'
  | (_, Panic) => False
  end.
Proof.
  intros Hsv. revert i st res. induction fuel as [|fuel IH]; intros i st res Hw Hl Hf; [lia|].
  cbn [fetch_loop]. case_decide as Hi.
  2:{ rewrite drop_ge by lia. split_and!; [done| |simpl; lia|done].
      intros h _. rewrite decide_False by apply not_elem_of_nil. by destruct (cs_view st h). }
  set (hi := if decide _ then _ else _). set (batch := slice i hi needed).
  assert (drop i needed = batch ++ drop (i + batchSize) needed) as Hd.
  { unfold batch, slice, hi. case_decide as Hc.
    - rewrite take_ge by (rewrite length_drop; lia). by rewrite (drop_ge needed (i + _)), app_nil_r by lia.
    - replace (i + batchSize - i) with batchSize by lia. by rewrite <- drop_drop, take_drop. }
  assert (Forall long_hash batch) as Hlb by (by apply Forall_take, Forall_drop).
  unfold honest at 1. cbn iota beta.
  destruct (HandleChunkRequest_spec server batch 1 Hsv Hlb) as [Ec En]. rewrite Ec, En.
  pose proof (store_chunks_spec st _ res Hw (answers_long batch Hlb)) as Hs.
  destruct (store_chunks st _ res) as [st' [res'|e|]]; [|done..].
  destruct Hs as (Hw' & Hv & Hcf & _ & Hnf & Hnd).
  specialize (IH (i + batchSize) st' (add_not_found res' (length (filter (λ h, cs_view server h = None) batch)))
    Hw' Hl ltac:(unfold batchSize; lia)).
  destruct (fetch_loop fuel (i + batchSize) needed honest st' _) as [st'' [res''|e|]]; [|done..].
  destruct IH as (H1 & H2 & H3 & H4). unfold add_not_found in *.
  cbn [sr_ChunksFetched sr_ChunksNotFound sr_ChunksNeeded] in *.
  pose proof (answers_count batch). rewrite Hd, length_app.
  split_and!; [done| |lia|lia].
  intros h Hh. rewrite H2, Hv, first_data_answers by done.
  destruct (cs_view st h); [done|].
  destruct (decide (h ∈ batch)), (decide (h ∈ drop (i + batchSize) needed)),
    (decide (h ∈ batch ++ drop (i + batchSize) needed)) as [Hin|Hin]; rewrite elem_of_app in Hin;
    try tauto; by destruct (cs_view server h).
Qed.

Lemma fetch_all_spec needed (st : St) res :
  cs_wf server → cs_wf st → Forall long_hash needed →
  match fetch_all needed honest st res with
  | (st', Ret res') =>
      cs_wf st' ∧
      (∀ h, long_hash h → cs_view st' h =
         match cs_view st h with
         | Some d => Some d
         | None => if decide (h ∈ needed) then cs_view server h else None
         end) ∧
      (sr_ChunksFetched res' + sr_ChunksNotFound res'
       = sr_ChunksFetched res + sr_ChunksNotFound res + Z.of_nat (length needed))%Z ∧
      sr_ChunksNeeded res' = sr_ChunksNeeded res
  | (st', Err _) => cs_wf st'
  | (_, Panic) => False
  end.
Proof.
  intros Hsv Hw Hl. pose proof (fetch_loop_spec (S (length needed)) 0 needed st res Hsv Hw Hl ltac:(lia)) as Hx.
  by rewrite drop_0 in Hx.
Qed.

(** ** Which chunks are requested *)
Context `{HashFn} (order : bytes → list (bytes * Node) → list (bytes * Node)).
Context (Hord : ∀ p l, order p l ≡ₚ l).

Lemma file_chunks_long n h : node_wf n → h ∈ file_chunks n → long_hash h.
Proof.
  intros Hw. unfold file_chunks. destruct Hw as [nm md sz ch Hc|]; simpl; [|by intros ?%not_elem_of_nil].
  rewrite Forall_forall in Hc. intros Hh. unfold long_hash. rewrite (Hc h Hh). lia.
Qed.

(** The entries of a difference of well-formed trees: their chunks are hashes,
    and a modified entry lists no chunk of the remote file. *)
Lemma diff_chunks lt rt x :
  tree_ok lt rt → x ∈ Diff order lt rt →
  Forall long_hash (d_Chunks x) ∧
  ∀ b h, d_Type x = DiffTypeModified → d_RemoteNode x = Some b → h ∈ d_Chunks x → h ∉ n_Chunks b.
Proof.
  intros Hok Hx. apply Diff_members in Hx; [|done..]. unfold tree_ok, tree_spec in *.
  assert (∀ ty n base, node_wf n → all_below ty n base x → ty ≠ DiffTypeModified →
    Forall long_hash (d_Chunks x) ∧ d_Type x ≠ DiffTypeModified) as Hone.
  { intros ty n base Hn (p & m & Hp & ->) Hty. apply node_at_wf in Hp; [|done]. split; [|by destruct ty].
    destruct ty; simpl; apply Forall_forall; intros h; by apply file_chunks_long. }
  destruct (t_Root lt) as [l|], (t_Root rt) as [r|].
  - destruct Hok as (Hl & Hr & _). destruct Hx as [p m Hp _ _|p m _ Hp _|p a b Hp Hq _ _]; simpl.
    + split; [|done]. apply Forall_forall. intros h. apply file_chunks_long. by apply (node_at_wf l p).
    + split; [|done]. apply Forall_forall. intros h. apply file_chunks_long. by apply (node_at_wf r p).
    + apply node_at_wf in Hp; [|done]. unfold modified_chunks, findDifferingChunks. split.
      * apply Forall_forall. intros h Hh. apply (file_chunks_long a); [done|]. unfold file_chunks.
        destruct (n_Type a), (n_Type b); try by apply not_elem_of_nil in Hh.
        by apply list_elem_of_filter in Hh as [_ ?].
      * intros b' h _ [= <-] Hh. destruct (n_Type a), (n_Type b); try by apply not_elem_of_nil in Hh.
        apply list_elem_of_filter in Hh as [Hh _]. by rewrite elem_of_list_to_set in Hh.
  - destruct (Hone DiffTypeAdded l (n_Name l)) as [? ?]; [done..|]. split; [done|]. by intros.
  - destruct (Hone DiffTypeDeleted r (n_Name r)) as [? ?]; [done..|]. split; [done|]. by intros.
  - done.
Qed.

Lemma needed_long lt rt : tree_ok lt rt → Forall long_hash (chunksToFetch (Diff order lt rt)).
Proof.
  intros Hok. apply Forall_forall. intros h Hh. unfold chunksToFetch in Hh.
  apply elem_concat_fmap in Hh as (x & Hx & Hh). destruct (diff_chunks lt rt x Hok Hx) as [Hl _].
  rewrite Forall_forall in Hl. destruct (d_Type x); [by apply not_elem_of_nil in Hh|by apply Hl..].
Qed.

(** A sync with an honest peer that announces its tree. *)
Lemma sync_honest (st : St) (lt rt : Tree) (peer : Peer) :
  cs_wf st → cs_wf server → tree_ok lt rt → in_sync lt peer = false →
  let needed := chunksToFetch (Diff order lt rt) in
  match SyncWithPeer order st lt peer (Ret (Some (HandleManifestRequest rt))) honest with
  | (st', Ret res) =>
      cs_wf st' ∧
      (∀ h, long_hash h → cs_view st' h =
         match cs_view st h with
         | Some d => Some d
         | None => if decide (h ∈ needed) then cs_view server h else None
         end) ∧
      (sr_ChunksFetched res + sr_ChunksNotFound res = sr_ChunksNeeded res)%Z ∧
      sr_ChunksNeeded res = Z.of_nat (length needed)
  | (st', Err _) => cs_wf st'
  | (_, Panic) => False
  end.
Proof.
  intros Hw Hsv Hok Hin needed. unfold SyncWithPeer. rewrite Hin.
  assert (mkTree (manifestToNode <$> mr_Root (HandleManifestRequest rt)) = rt) as ->.
  { unfold HandleManifestRequest. destruct rt as [[r|]]; simpl; [|done].
    by rewrite manifestToNode_nodeToManifest. }
  fold needed. case_decide as Hz.
  - split_and!; [done| |simpl; lia|done]. intros h _. apply nil_length_inv in Hz. rewrite Hz.
    rewrite decide_False by apply not_elem_of_nil. by destruct (cs_view st h).
  - match goal with |- context [fetch_all needed honest st ?r] =>
      pose proof (fetch_all_spec needed st r Hsv Hw (needed_long lt rt Hok)) as Hf end.
    destruct (fetch_all needed honest st _) as [st' [res|e|]]; [|done..].
    destruct Hf as (H1' & H2' & H3' & H4'). simpl in *. split_and!; [done..|lia|lia].
Qed.


(** A modified file is never brought up to date. When the only difference
    between the trees is one modified file, a successful sync with an honest
    peer leaves the local store's view of every chunk of the peer's version
    exactly as it was: the chunks requested are those of the local version
    that the peer's version does not contain. *)
Theorem modified_file_not_fetched (st : St) (lt rt : Tree) (peer : Peer) (x : DiffResult) (b : Node) (h : bytes) :
  cs_wf st → cs_wf server → tree_ok lt rt → in_sync lt peer = false →
  Diff order lt rt = [x] → d_Type x = DiffTypeModified → d_RemoteNode x = Some b →
  h ∈ n_Chunks b → long_hash h →
  match SyncWithPeer order st lt peer (Ret (Some (HandleManifestRequest rt))) honest with
  | (st', Ret _) => cs_view st' h = cs_view st h
  | (_, Err _) => True
  | (_, Panic) => False
  end.
Proof.
  intros Hw Hsv Hok Hin Hx Hty Hb Hh Hlh.
  pose proof (sync_honest st lt rt peer Hw Hsv Hok Hin) as Hs. cbv zeta in Hs.
  destruct (SyncWithPeer _ _ _ _ _ _) as [st' [res|e|]]; [|done..].
  destruct Hs as (_ & Hv & _). rewrite Hv, Hx by done. rewrite decide_False; [by destruct (cs_view st h)|].
  unfold chunksToFetch. simpl. rewrite Hty, app_nil_r. intros Hc.
  destruct (diff_chunks lt rt x Hok) as [_ Hd]; [rewrite Hx; by left|]. by apply (Hd b h).
Qed.

(** What an untrusted peer can do to a sync. Received chunks are stored
    under the hash the peer names, without checking it: if the one needed
    chunk is answered with arbitrary data, that data is what the store returns
    for the hash from then on. A manifest reply of any other message type
    makes requestManifest return no manifest and no error, and the sync
    panics. *)
Theorem untrusted_peer `{ProtoCodec} (st : St) (lt : Tree) (peer : Peer) (m : ManifestResponse)
    (rpc : nat → list bytes → outcome request_error ChunkResponse)
    (h data : bytes) (size id : Z) (exchange : bytes → stream) (other : Message) :
  cs_wf st → long_hash h → cs_view st h = None → in_sync lt peer = false →
  chunksToFetch (Diff order lt (mkTree (manifestToNode <$> mr_Root m))) = [h] →
  rpc 0 [h] = Ret (mkChunkResponse [mkProtoChunk h data size] []) →
  kind other ≠ MESSAGE_TYPE_MANIFEST_RESPONSE → deliverable (id, other) →
  (∀ out, (WriteEnvelope (mkWriter [] None) (kind other) id other).1 = mkWriter (st_buf (exchange out)) None) →
  match SyncWithPeer order st lt peer (Ret (Some m)) rpc with
  | (st', Ret _) => cs_view st' h = Some data
  | (_, Err (StoreFailed _ _)) => True
  | _ => False
  end ∧
  (deliverable (1%Z, MManifestRequest (mkManifestRequest [] (-1) true)) →
   SyncWithPeer order st lt peer (requestManifest exchange) rpc = (st, Panic)).
Proof.
  intros Hw Hh Hv Hin Hn Hr Hk Hd Hex. split.
  - unfold SyncWithPeer. rewrite Hin, Hn. cbn [length]. rewrite decide_False by done.
    unfold fetch_all. cbn [length fetch_loop]. rewrite decide_True by lia.
    rewrite decide_True by (unfold batchSize; lia). change (slice 0 1 [h]) with [h]. rewrite Hr.
    cbn [cr_Chunks cr_NotFound].
    match goal with |- context [store_chunks st ?c ?r] => pose proof (store_chunks_spec st c r Hw) as Hs end.
    destruct (store_chunks st _ _) as [st' [res|e|]] eqn:Es.
    + rewrite decide_False by (unfold batchSize; lia).
      destruct Hs as (_ & Hs & _); [by apply Forall_singleton|]. rewrite Hs, Hv by done.
      unfold first_data. rewrite filter_cons, decide_True by done. done.
    + cbn [store_chunks] in Es. destruct (cs_put st _) as [? [?|?|]]; by inversion Es.
    + apply Hs. by apply Forall_singleton.
  - intros Hq. unfold SyncWithPeer. rewrite Hin. unfold requestManifest, SendManifestRequest.
    destruct (sent_and_read MESSAGE_TYPE_MANIFEST_REQUEST 1 _ [] None [] Hq eq_refl) as (d1 & e1 & W1 & _).
    rewrite W1. cbn [w_out].
    destruct (sent_and_read (kind other) id other [] (st_fin (exchange ([] ++ frame d1))) [] Hd eq_refl)
      as (d2 & e2 & W2 & R2 & T2 & _).
    specialize (Hex ([] ++ frame d1)). rewrite W2 in Hex.
    destruct (exchange ([] ++ frame d1)) as [buf fin]. cbn [st_buf st_fin fst app] in *.
    assert (buf = frame d2) as -> by congruence.
    rewrite app_nil_r in R2. rewrite R2, T2. by rewrite decide_True.
Qed.
End theorems.

(** ** Witnesses *)
Module SyncExample.
#[local] Existing Instance sha256_fips.
#[local] Existing Instance CountableCodec.codec.
Import DiffExample.

Definition server : gmap bytes bytes := {[ chunk1 := [x2a]; chunk2 := [x2b] ]}.
Definition the_peer : Peer := mkPeer [x03] [] [] [] 0 0 1 0.
#[local] Abbreviation run st l r :=
  (SyncWithPeer keep (st : gmap bytes bytes) (mkTree (Some l)) the_peer
     (Ret (Some (HandleManifestRequest (mkTree (Some r))))) (honest server)).

(** One file, changed on the peer. *)
Definition old_version : Node := NewFileNode (str "a") 420 [chunk1].
Definition new_version : Node := NewFileNode (str "a") 420 [chunk2].

Lemma local_not_in_sync : in_sync (mkTree (Some local)) the_peer = false.
Proof. vm_compute. reflexivity. Qed.

Lemma old_not_in_sync : in_sync (mkTree (Some old_version)) the_peer = false.
Proof. vm_compute. reflexivity. Qed.

Lemma local_lacks_b : child local (str "b") = None.
Proof. vm_compute. reflexivity. Qed.

Lemma remote_has_b : node_at remote [str "b"] = Some file_b.
Proof. vm_compute. reflexivity. Qed.

Lemma clear_above_b : clear_above local [str "b"].
Proof. apply clear_above_cons. split; [reflexivity|]. intros m Hm. by rewrite local_lacks_b in Hm. Qed.

Lemma local_at_b : node_at local [str "b"] = None.
Proof. simpl. by rewrite local_lacks_b. Qed.


Lemma versions_comparable : comparable old_version new_version.
Proof.
  split_and!; [by apply leaf_wf; auto|by apply leaf_wf; auto|..].
  - apply collision_freeb_sound. vm_compute. reflexivity.
  - apply unambiguousb_sound. vm_compute. reflexivity.
Qed.

Definition the_diff : DiffResult :=
  mkDiff (str "a") DiffTypeModified (Some old_version) (Some new_version) [chunk1].

Lemma versions_diff : Diff keep (mkTree (Some old_version)) (mkTree (Some new_version)) = [the_diff].
Proof. vm_compute. reflexivity. Qed.

Lemma modified_file_not_fetched_witness :
  is_ret (run ∅ old_version new_version).2 = true ∧ cs_view (run ∅ old_version new_version).1 chunk2 = None.
Proof.
  assert (is_ret (run ∅ old_version new_version).2 = true) as Hr by (vm_compute; reflexivity).
  split; [exact Hr|].
  pose proof (modified_file_not_fetched server keep (λ _ _, reflexivity _) (∅ : gmap bytes bytes)
    (mkTree (Some old_version)) (mkTree (Some new_version)) the_peer the_diff new_version chunk2
    I I versions_comparable old_not_in_sync versions_diff eq_refl eq_refl) as Hs.
  destruct (SyncWithPeer _ _ _ _ _ _) as [st' [res|e|]]; [|discriminate Hr..].
  apply Hs; [left|apply (bool_decide_unpack _); vm_compute; exact I].
Defined.

(** A peer that answers with data of its own, or with an error message. *)
Definition liar (n : nat) (hs : list bytes) : outcome request_error ChunkResponse :=
  Ret (mkChunkResponse ((λ h, mkProtoChunk h [xff] 1) <$> hs) []).
Definition sorry : Message := MError (NewErrorMessage 4 (str "busy") 1).
Definition sorry_exchange (out : bytes) : stream :=
  stream_of (w_out (WriteEnvelope (mkWriter [] None) (kind sorry) 1 sorry).1).

Lemma untrusted_peer_witness :
  SyncWithPeer keep (∅ : gmap bytes bytes) NewTree the_peer (requestManifest sorry_exchange) liar
    = (∅, Panic) ∧
  cs_view (SyncWithPeer keep (∅ : gmap bytes bytes) NewTree the_peer
             (Ret (Some (HandleManifestRequest (mkTree (Some new_version))))) liar).1 chunk2 = Some [xff].
Proof.
  assert (is_ret (SyncWithPeer keep (∅ : gmap bytes bytes) NewTree the_peer
    (Ret (Some (HandleManifestRequest (mkTree (Some new_version))))) liar).2 = true) as Hr
    by (vm_compute; reflexivity).
  destruct (untrusted_peer keep (∅ : gmap bytes bytes) NewTree the_peer
    (HandleManifestRequest (mkTree (Some new_version))) liar chunk2 [xff] 1 1 sorry_exchange sorry) as [H1 H2].
  - exact I.
  - apply (bool_decide_unpack _). vm_compute. exact I.
  - reflexivity.
  - reflexivity.
  - vm_compute. reflexivity.
  - reflexivity.
  - discriminate.
  - eexists. split; [vm_compute; reflexivity|vm_compute; discriminate].
  - intros out. vm_compute. reflexivity.
  - split.
    + apply H2. eexists. split; [vm_compute; reflexivity|vm_compute; discriminate].
    + revert H1 Hr. destruct (SyncWithPeer _ _ _ _ _ _) as [st' [res|e|]]; [intros Hv _; exact Hv|intros _ Hr'; by simpl in Hr'..].
Defined.
End SyncExample.
