(* ===== verification/SyncPool.v ===== *)
(** * The worker pool of the sync manager ([internal/net/sync.go])

    Workers take requests off one channel, fetch the chunks from the peer and
    put the results on another. The two buffered channels, the cancelled
    context, the workers and the callers form a transition system; an action is
    one channel operation or the return of [RequestChunks], whose answer is
    arbitrary. The components [p_in], [p_out] and [p_lost] record which requests
    were submitted, answered to a receiver and given up; no action reads
    them. *)
From Stdlib Require Import Strings.Byte.
From S2P Require Import Prelude Manifest Wire Transport.

Record syncRequest := mkSyncRequest { sq_peer : Peer; sq_hashes : list bytes }.

Record syncResult := mkSyncResult {
  sy_chunks : list ProtoChunk;
  sy_notFound : list bytes;
  sy_err : option request_error;
}.

(** The result a worker makes of what [RequestChunks] returned; a panic there
    ends the program. *)
Definition result_of (o : outcome request_error ChunkResponse) : option syncResult :=
  match o with
  | Ret resp => Some (mkSyncResult (cr_Chunks resp) (cr_NotFound resp) None)
  | Err e => Some (mkSyncResult [] [] (Some e))
  | Panic => None
  end.

Inductive wstate :=
| Idle                                        (* at the head of the loop *)
| Busy (q : syncRequest)                      (* in [RequestChunks] *)
| Sending (q : syncRequest) (r : syncResult)  (* in the select *)
| Exited.

(** A nil request is [None]. *)
Record pool := mkPool {
  requestCh : list (option syncRequest);
  closed : bool;
  resultCh : list (syncRequest * syncResult);
  cancelled : bool;
  workers : list wstate;
  p_in : list syncRequest;
  p_out : list syncRequest;
  p_lost : list syncRequest;
}.

Definition channel_size : nat := 100.

Definition NewSyncManager (cfg_workers : Z) : pool :=
  let n := if (cfg_workers <=? 0)%Z then 4 else Z.to_nat cfg_workers in
  mkPool [] false [] false (replicate n Idle) [] [] [].

Inductive pool_act :=
| Submit (q : option syncRequest)
| Receive
| CloseAct
| Take (i : nat)
| Answer (i : nat) (o : outcome request_error ChunkResponse)
| Deliver (i : nat)
| Abandon (i : nat)
| Finish (i : nat).

Definition is_worker_act (a : pool_act) : bool :=
  match a with Submit _ | Receive | CloseAct => false | _ => true end.

Definition with_workers (p : pool) (ws : list wstate) : pool :=
  mkPool (requestCh p) (closed p) (resultCh p) (cancelled p) ws (p_in p) (p_out p) (p_lost p).

(** [sm.requestCh <- q]: a panic on a closed channel. *)
Definition submit (p : pool) (q : option syncRequest) : option (outcome Empty_set pool) :=
  if closed p then Some Panic
  else if length (requestCh p) <? channel_size then
    Some (Ret (mkPool (requestCh p ++ [q]) (closed p) (resultCh p) (cancelled p) (workers p)
                 (p_in p ++ option_list q) (p_out p) (p_lost p)))
  else None.

(** [Close] up to [wg.Wait]: closing a closed channel panics. *)
Definition pool_Close (p : pool) : outcome Empty_set pool :=
  if closed p then Panic
  else Ret (mkPool (requestCh p) true (resultCh p) true (workers p) (p_in p) (p_out p) (p_lost p)).

(** [wg.Wait] returns. *)
Definition all_exited (p : pool) : bool := forallb (λ w, match w with Exited => true | _ => false end) (workers p).

(** One step of [worker], of worker [i]. *)
Definition worker (p : pool) (i : nat) (w : wstate) (a : pool_act) : option pool :=
  match a, w with
  | Take _, Idle =>
      match requestCh p with
      | [] => None
      | q :: rest =>
          Some (mkPool rest (closed p) (resultCh p) (cancelled p)
                  (<[i := match q with Some q' => Busy q' | None => Exited end]> (workers p))
                  (p_in p) (p_out p) (p_lost p))
      end
  | Finish _, Idle =>
      match requestCh p with
      | [] => if closed p then Some (with_workers p (<[i := Exited]> (workers p))) else None
      | _ => None
      end
  | Answer _ o, Busy q => r ← result_of o; Some (with_workers p (<[i := Sending q r]> (workers p)))
  | Deliver _, Sending q r =>
      if length (resultCh p) <? channel_size then
        Some (mkPool (requestCh p) (closed p) (resultCh p ++ [(q, r)]) (cancelled p)
                (<[i := Idle]> (workers p)) (p_in p) (p_out p) (p_lost p))
      else None
  | Abandon _, Sending q _ =>
      if cancelled p then
        Some (mkPool (requestCh p) (closed p) (resultCh p) (cancelled p)
                (<[i := Exited]> (workers p)) (p_in p) (p_out p) (p_lost p ++ [q]))
      else None
  | _, _ => None
  end.

Definition act_worker (a : pool_act) : nat :=
  match a with Take i | Answer i _ | Deliver i | Abandon i | Finish i => i | _ => 0 end.

Definition pool_step (p : pool) (a : pool_act) : option (outcome Empty_set pool) :=
  match a with
  | Submit q => submit p q
  | Receive =>
      match resultCh p with
      | [] => None
      | (q, _) :: rest =>
          Some (Ret (mkPool (requestCh p) (closed p) rest (cancelled p) (workers p) (p_in p) (p_out p ++ [q]) (p_lost p)))
      end
  | CloseAct => Some (pool_Close p)
  | _ =>
      w ← workers p !! act_worker a;
      Ret <$> worker p (act_worker a) w a
  end.

Fixpoint pool_run (p : pool) (l : list pool_act) : option pool :=
  match l with
  | [] => Some p
  | a :: l' => match pool_step p a with Some (Ret p') => pool_run p' l' | _ => None end
  end.

(** ** Accounting *)
Definition held (w : wstate) : list syncRequest :=
  match w with Busy q | Sending q _ => [q] | _ => [] end.

Definition queued (q : option syncRequest) : list syncRequest := option_list q.

Record accounted (p : pool) : Prop := {
  ac_in : p_in p ≡ₚ (requestCh p ≫= queued) ++ (workers p ≫= held) ++ (fst <$> resultCh p) ++ p_out p ++ p_lost p;
  ac_lost : cancelled p = false → p_lost p = [];
  ac_closed : closed p = cancelled p;
  ac_requests : length (requestCh p) ≤ channel_size;
  ac_results : length (resultCh p) ≤ channel_size;
}.

(** Replacing one worker. *)
Lemma held_insert ws i w :
  ws !! i = Some w → ∃ rest, (ws ≫= held) ≡ₚ held w ++ rest ∧ ∀ w', (<[i := w']> ws ≫= held) ≡ₚ held w' ++ rest.
Proof.
  revert i. induction ws as [|v ws IH]; intros [|i] Hi; try done.
  - injection Hi as ->. exists (ws ≫= held). split; [done|]. by intros w'.
  - destruct (IH i Hi) as (rest & H1 & H2). exists (held v ++ rest). split; cbn.
    + rewrite H1, !app_assoc. by rewrite (Permutation_app_comm (held v)).
    + intros w'. cbn. rewrite (H2 w'), !app_assoc. by rewrite (Permutation_app_comm (held v)).
Qed.

Lemma worker_accounted p i w a p' :
  accounted p → workers p !! i = Some w → worker p i w a = Some p' → accounted p'.
Proof.
  intros [Hin Hl Hc Hq Hr] Hi. destruct (held_insert _ _ _ Hi) as (rest & H1 & H2).
  rewrite H1 in Hin. unfold worker.
  destruct a as [s| | |j|j o|j|j|j], w as [|q|q r|]; try done.
  - destruct (requestCh p) as [|q0 qs] eqn:Eq; [done|]. intros [= <-].
    constructor; cbn in *; try done; [|lia]. rewrite Hin, H2.
    destruct q0; cbn; [|done]. by rewrite <- Permutation_middle.
  - destruct (result_of o) as [r|]; [|done]. cbn. intros [= <-]. constructor; cbn; try done. by rewrite Hin, H2.
  - destruct (Nat.ltb_spec (length (resultCh p)) channel_size); [|done]. intros [= <-].
    constructor; cbn; try done; [|rewrite length_app; simpl; lia]. rewrite Hin, H2, fmap_app. cbn. f_equiv.
    rewrite <- !app_assoc. cbn. by rewrite <- !Permutation_middle.
  - destruct (cancelled p) eqn:Ec; [|done]. intros [= <-].
    constructor; cbn; try done. rewrite Hin, H2. cbn. f_equiv.
    rewrite !app_assoc. by rewrite <- Permutation_cons_append.
  - destruct (requestCh p) eqn:Eq; [|done]. destruct (closed p) eqn:Ecl; [|done]. intros [= <-].
    constructor; cbn; rewrite ?Eq; try (done || congruence). by rewrite Hin, H2.
Qed.

Lemma pool_step_worker p a :
  is_worker_act a = true →
  pool_step p a = (w ← workers p !! act_worker a; Ret <$> worker p (act_worker a) w a).
Proof. by destruct a. Qed.

Lemma pool_step_accounted p a p' : accounted p → pool_step p a = Some (Ret p') → accounted p'.
Proof.
  intros Ha. destruct (is_worker_act a) eqn:Ew.
  { rewrite pool_step_worker by done. destruct (workers p !! act_worker a) as [w|] eqn:Hi; [|done]. cbn.
    destruct (worker p (act_worker a) w a) eqn:E; [|done]. cbn. intros [= <-]. by eapply worker_accounted. }
  destruct Ha as [Hin Hl Hc Hq Hr]. destruct a as [q| | |i|i o|i|i|i]; try done; cbn [pool_step].
  - unfold submit. destruct (closed p) eqn:Ecl; [done|].
    destruct (Nat.ltb_spec (length (requestCh p)) channel_size); [|done]. intros [= <-].
    constructor; cbn; try (done || congruence); [|rewrite length_app; simpl; lia].
    rewrite Hin, bind_app. cbn. rewrite app_nil_r. unfold queued. rewrite <- !app_assoc.
    f_equiv. rewrite (Permutation_app_comm (option_list q)). by rewrite <- !app_assoc.
  - destruct (resultCh p) as [|[q r] rs] eqn:Er; [done|]. intros [= <-]. constructor; cbn in *; try done; [|lia].
    rewrite Hin. do 2 f_equiv. cbn. rewrite <- !app_assoc. cbn. by rewrite <- !Permutation_middle.
  - unfold pool_Close. destruct (closed p); [done|]. intros [= <-]. by constructor.
Qed.

Lemma pool_run_invariant (I : pool → Prop) :
  (∀ p a p', I p → pool_step p a = Some (Ret p') → I p') → ∀ l p p', I p → pool_run p l = Some p' → I p'.
Proof.
  intros Hs l. induction l as [|a l IH]; intros p p' Hp; cbn; [by intros [= <-]|].
  destruct (pool_step p a) as [[p1| |]|] eqn:E; try done. apply IH. by eapply Hs.
Qed.

Lemma new_accounted n : accounted (NewSyncManager n).
Proof.
  constructor; cbn; try done; [|unfold channel_size; lia..]. rewrite app_nil_r.
  generalize (if (n <=? 0)%Z then 4 else Z.to_nat n). intros k. by induction k.
Qed.

(** ** Shutdown *)
Definition effort (w : wstate) : nat :=
  match w with Exited => 0 | Idle => 1 | Sending _ _ => 2 | Busy _ => 3 end.

Definition pool_work (p : pool) : nat := 4 * length (requestCh p) + sum_list_with effort (workers p).

Lemma sum_insert (ws : list wstate) i w w' :
  ws !! i = Some w → sum_list_with effort (<[i := w']> ws) + effort w = sum_list_with effort ws + effort w'.
Proof.
  revert i. induction ws as [|v ws IH]; intros [|i] Hi; try done.
  - injection Hi as ->. cbn -[effort]. lia.
  - specialize (IH i Hi). cbn -[effort]. rewrite <- !Nat.add_assoc. f_equal. exact IH.
Qed.

(** What a step of a worker leaves alone, and what it costs. *)
Lemma worker_progress p i w a p' :
  workers p !! i = Some w → worker p i w a = Some p' →
  closed p' = closed p ∧ cancelled p' = cancelled p ∧ pool_work p' < pool_work p ∧
  ∃ w', workers p' = <[i := w']> (workers p).
Proof.
  intros Hi. unfold worker, pool_work, with_workers. destruct a as [s| | |j|j o|j|j|j], w as [|q|q r|]; try done.
  - destruct (requestCh p) as [|[q|] qs]; [done|..]; intros [= <-]; cbn [requestCh workers closed cancelled length];
      (split_and!; [done..| |eauto]).
    + pose proof (sum_insert _ _ _ (Busy q) Hi) as E. cbn [effort] in E. lia.
    + pose proof (sum_insert _ _ _ Exited Hi) as E. cbn [effort] in E. lia.
  - destruct (result_of o) as [r|]; [|done]. cbn. intros [= <-]. split_and!; [done..| |eauto]. cbn.
    pose proof (sum_insert _ _ _ (Sending q r) Hi) as E. cbn [effort] in E. lia.
  - destruct (_ <? _); [|done]. intros [= <-]. cbn [requestCh workers closed cancelled].
    split_and!; [done..| |eauto]. pose proof (sum_insert _ _ _ Idle Hi) as E. cbn [effort] in E. lia.
  - destruct (cancelled p); [|done]. intros [= <-]. cbn [requestCh workers closed cancelled].
    split_and!; [done..| |eauto]. pose proof (sum_insert _ _ _ Exited Hi) as E. cbn [effort] in E. lia.
  - destruct (requestCh p); [|done]. destruct (closed p); [|done]. intros [= <-].
    cbn [requestCh workers closed cancelled length]. split_and!; [done..| |eauto].
    pose proof (sum_insert _ _ _ Exited Hi) as E. cbn [effort] in E. lia.
Qed.

Lemma worker_act_progress p a p' :
  is_worker_act a = true → pool_step p a = Some (Ret p') →
  closed p' = closed p ∧ cancelled p' = cancelled p ∧ pool_work p' < pool_work p.
Proof.
  intros Ha. rewrite pool_step_worker by done. destruct (workers p !! act_worker a) as [w|] eqn:Hi; [|done]. cbn.
  destruct (worker p (act_worker a) w a) as [p1|] eqn:E; [|done]. cbn. intros [= <-].
  by destruct (worker_progress _ _ _ _ _ Hi E) as (? & ? & ? & _).
Qed.

Lemma not_all_exited p : all_exited p = false → ∃ i w, workers p !! i = Some w ∧ w ≠ Exited.
Proof.
  unfold all_exited. induction (workers p) as [|w ws IH]; [done|]. cbn.
  destruct w; try (intros _; exists 0; eexists; by split).
  intros (i & w & ? & ?)%IH. by exists (S i), w.
Qed.

Lemma closed_pool_moves p :
  closed p = true → cancelled p = true → all_exited p = false →
  ∃ a p', is_worker_act a = true ∧ pool_step p a = Some (Ret p').
Proof.
  intros Hc Hx (i & w & Hi & Hw)%not_all_exited. destruct w as [|q|q r|]; [| | |done].
  - destruct (requestCh p) eqn:Eq.
    + exists (Finish i). eexists. split; [done|]. cbn. by rewrite Hi, Eq, Hc.
    + exists (Take i). eexists. split; [done|]. cbn. by rewrite Hi, Eq.
  - exists (Answer i (Err DecodingResponse)). eexists. split; [done|]. cbn. by rewrite Hi.
  - exists (Abandon i). eexists. split; [done|]. cbn. by rewrite Hi, Hx.
Qed.

Lemma closed_pool_drains p :
  closed p = true → cancelled p = true →
  ∃ l p', Forall (λ a, is_worker_act a = true) l ∧ pool_run p l = Some p' ∧ all_exited p' = true.
Proof.
  remember (pool_work p) as m eqn:Em. revert p Em.
  induction m as [m IH] using lt_wf_ind. intros p -> Hc Hx.
  destruct (all_exited p) eqn:He; [by exists [], p|].
  destruct (closed_pool_moves p Hc Hx He) as (a & p1 & Ha & Hs).
  destruct (worker_act_progress _ _ _ Ha Hs) as (Hc1 & Hx1 & Hlt).
  destruct (IH _ Hlt p1) as (l & p' & Hl & Hr & Hex); [done|congruence..|].
  exists (a :: l), p'. split; [by constructor|]. cbn. by rewrite Hs.
Qed.

(** A worker that waits for an answer goes on only when it gets one. *)
Lemma busy_stays p a p' i q :
  workers p !! i = Some (Busy q) → pool_step p a = Some (Ret p') → (∀ o, a ≠ Answer i o) →
  workers p' !! i = Some (Busy q).
Proof.
  intros Hi Hs Ha. destruct (is_worker_act a) eqn:Ew.
  - rewrite pool_step_worker in Hs by done. destruct (workers p !! act_worker a) as [w|] eqn:Hj; [|done].
    cbn in Hs. destruct (worker p (act_worker a) w a) as [p1|] eqn:E; [|done]. cbn in Hs. injection Hs as <-.
    destruct (worker_progress _ _ _ _ _ Hj E) as (_ & _ & _ & w' & ->).
    destruct (decide (act_worker a = i)) as [Ej|Hne]; [|by rewrite list_lookup_insert_ne].
    rewrite Ej in *. assert (w = Busy q) as -> by congruence.
    destruct a; try done. cbn in Ej. subst. by destruct (Ha o).
  - destruct a as [s| | |j|j o|j|j|j]; try done; cbn in Hs.
    + unfold submit in Hs. destruct (closed p); [done|]. destruct (_ <? _); [|done]. by injection Hs as <-.
    + destruct (resultCh p) as [|[q' r] rs]; [done|]. by injection Hs as <-.
    + unfold pool_Close in Hs. destruct (closed p); [done|]. by injection Hs as <-.
Qed.

Lemma busy_stays_run l p p' i q :
  workers p !! i = Some (Busy q) → (∀ o, Answer i o ∉ l) → pool_run p l = Some p' → workers p' !! i = Some (Busy q).
Proof.
  revert p. induction l as [|a l IH]; intros p Hi Ha; cbn; [by intros [= <-]|].
  destruct (pool_step p a) as [[p1| |]|] eqn:E; try done. apply IH.
  - eapply busy_stays; [done..|]. intros o ->. apply (Ha o). by left.
  - intros o Ho. apply (Ha o). by right.
Qed.

(** ** Theorems *)

(** Every request handed to the pool is in exactly one place at any time: on the
    request channel, with a worker, on the result channel, received, or given
    up; none is given up before [Close]. Neither channel exceeds its capacity,
    and submitting after [Close] and closing twice panic. *)
Theorem pool_accounting (n : Z) (l : list pool_act) (p : pool) :
  pool_run (NewSyncManager n) l = Some p →
  p_in p ≡ₚ (requestCh p ≫= queued) ++ (workers p ≫= held) ++ (fst <$> resultCh p) ++ p_out p ++ p_lost p ∧
  (closed p = false → p_lost p = []) ∧
  length (requestCh p) ≤ 100 ∧ length (resultCh p) ≤ 100 ∧
  (closed p = true → pool_step p CloseAct = Some Panic ∧ ∀ q, pool_step p (Submit q) = Some Panic).
Proof.
  intros Hr. destruct (pool_run_invariant accounted pool_step_accounted _ _ _ (new_accounted n) Hr) as [H1 H2 H3 H4 H5].
  split_and!; [done|by rewrite H3|done..|]. intros Hc. cbn. unfold pool_Close, submit. by rewrite Hc.
Qed.

(** C32: closing the pool terminates exactly when the pending fetches do. After
    [Close] every step of a worker uses up work and some worker can step until
    all have returned, so [wg.Wait] returns; but a worker whose fetch does not
    return keeps [Close] waiting, whatever else happens. *)
Theorem pool_shutdown (p0 p : pool) :
  pool_Close p0 = Ret p →
  (∀ a p', is_worker_act a = true → pool_step p a = Some (Ret p') → pool_work p' < pool_work p) ∧
  (∃ l' p', Forall (λ a, is_worker_act a = true) l' ∧ pool_run p l' = Some p' ∧ all_exited p' = true) ∧
  (∀ i q l' p', workers p !! i = Some (Busy q) → (∀ o, Answer i o ∉ l') → pool_run p l' = Some p' →
     all_exited p' = false).
Proof.
  intros Hc. assert (closed p = true ∧ cancelled p = true) as [H1 H2].
  { unfold pool_Close in Hc. destruct (closed p0); [done|]. by injection Hc as <-. }
  split_and!.
  - intros a p' Ha Hs. apply (worker_act_progress _ _ _ Ha Hs).
  - by apply closed_pool_drains.
  - intros i q l' p' Hi Ha Hr. pose proof (busy_stays_run _ _ _ _ _ Hi Ha Hr) as Hb.
    destruct (all_exited p') eqn:E; [|done]. unfold all_exited in E. rewrite forallb_forall in E.
    apply list_elem_of_lookup_2, list_elem_of_In in Hb. by specialize (E _ Hb).
Qed.

(** ** A run with two workers *)
Module PoolExample.
Definition q1 : syncRequest := mkSyncRequest (mkPeer [] [] [] [] 0 0 0 0) [].
Definition run1 : list pool_act := [Submit (Some q1); Submit (Some q1); Take 1; Take 0; Answer 1 (Err DecodingResponse)].
Definition open_pool : pool := default (NewSyncManager 0) (pool_run (NewSyncManager 2) run1).
Definition closing : pool := match pool_Close open_pool with Ret p => p | _ => open_pool end.

Lemma pool_accounting_witness : length (requestCh open_pool) ≤ 100 ∧ p_lost open_pool = [].
Proof.
  destruct (pool_accounting 2 run1 open_pool eq_refl) as (_ & Hl & Hq & _). split; [exact Hq|]. apply Hl. reflexivity.
Defined.

Lemma pool_shutdown_witness :
  (∃ l' p', pool_run closing l' = Some p' ∧ all_exited p' = true) ∧
  ∃ p', pool_run closing [Abandon 1] = Some p' ∧ all_exited p' = false.
Proof.
  destruct (pool_shutdown open_pool closing eq_refl) as (_ & (l' & p' & _ & Hr & He) & Hb). split.
  - exists l', p'. split; [exact Hr|exact He].
  - eexists. split; [reflexivity|]. apply (Hb 0 q1 [Abandon 1]); [reflexivity| |reflexivity].
    intros o Ho. apply list_elem_of_singleton in Ho. discriminate.
Defined.
End PoolExample.
