(* ===== verification/Build.v ===== *)
(** * Building a Merkle tree from a directory ([internal/merkle/build.go])

    The directory is part of an [fs]; [unreadable] names the paths whose open
    or directory read fails. A directory deeper than the fuel does not occur:
    the fuel is the length of the longest path. *)
From Stdlib Require Import Strings.Byte Strings.String.
From S2P Require Import Prelude Sha256 Fs Chunk Merkle MerkleSpec DiffSpec.

Inductive build_error :=
| StatRoot (e : fs_error)
| RootNotDir
| OpeningPath (p : path)
| ChunkingPath (p : path) (e : read_error)
| ReadingDir (p : path)
| StatPath (p : path).

(** [os.ReadDir]: the names directly below [p], sorted. *)
Definition entry_of (p : path) (q : path) : option bytes :=
  match last q with
  | Some c => if decide (q = p ++ [c]) then Some c else None
  | None => None
  end.

Definition ReadDir (f : fs) (p : path) : list bytes :=
  merge_sort bytes_le (omap (λ kv, entry_of p kv.1) (map_to_list f)).

(** [info.Name()] and [info.Mode()]: directories carry the mode bit 31. *)
Definition info_name (p : path) : bytes := default [slash] (last p).
Definition ModeDir : Z := 2 ^ 31.
Definition info_mode (n : fnode) : Z :=
  match n with FFile _ m => u32 m | FDir m => u32 (Z.lor ModeDir m) end.

Section build.
Context `{HashFn} (unreadable : path → bool).

Definition with_size (n : Node) (sz : Z) : Node :=
  mkNode (n_Name n) (n_Type n) (n_Hash n) (n_Mode n) sz (n_Children n) (n_Chunks n).

Definition buildFileNode (p : path) (n : fnode) (content : bytes) : outcome build_error Node :=
  if unreadable p then Err (OpeningPath p)
  else match ChunkAll (stream_of content) with
       | Ret chunks =>
           let node := NewFileNode (info_name p) (info_mode n) (ch_Hash <$> chunks) in
           Ret (with_size node (u64 (Z.of_nat (length content))))
       | Err e => Err (ChunkingPath p e)
       | Panic => Panic
       end.

(** [buildNode], with [buildDirNode] inlined; a hidden entry is skipped,
    [entry.Name()[0]] of an empty name panics. *)
Fixpoint buildNode (fuel : nat) (f : fs) (p : path) (n : fnode) : outcome build_error Node :=
  match fuel with
  | O => Panic
  | S fuel' =>
      match n with
      | FFile content _ => buildFileNode p n content
      | FDir _ =>
          if unreadable p then Err (ReadingDir p)
          else
            children ← foldl (λ acc name,
              cs ← acc;
              b ← or_panic (head name);
              if decide (b = x2e) then Ret cs
              else match f !! (p ++ [name]) with
                   | None => Err (StatPath (p ++ [name]))
                   | Some info => child ← buildNode fuel' f (p ++ [name]) info; Ret (cs ++ [child])
                   end) (Ret []) (ReadDir f p);
            Ret (NewDirNode (info_name p) (info_mode n) children)
      end
  end.

Definition max_depth (f : fs) : nat := list_max (length <$> (map_to_list f).*1).

Definition BuildFromFS (f : fs) (root : path) : outcome build_error Tree :=
  match Stat f root with
  | Err e => Err (StatRoot e)
  | Panic => Panic
  | Ret info =>
      if is_dir info then
        node ← buildNode (S (max_depth f)) f root info; Ret (mkTree (Some node))
      else Err RootNotDir
  end.

(** ** Specification *)
Definition hidden (c : bytes) : bool := match c with b :: _ => bool_decide (b = x2e) | [] => false end.

Definition visible (p : path) : bool := forallb (λ c, negb (hidden c)) p.

(** Every entry has a plain name and lies in directories. *)
Definition fs_wf (f : fs) : Prop :=
  ∀ p n, f !! p = Some n → Forall plain_name p ∧ dirs_above f p.

(** What lies above an entry is a directory. *)
Lemma fs_wf_above f p x k n : fs_wf f → f !! (p ++ x :: k) = Some n → ∃ m, f !! p = Some (FDir m).
Proof.
  intros Hf Hp. apply (Hf _ _ Hp); [by eexists|].
  intros E. apply (f_equal length) in E. rewrite length_app in E. simpl in E. lia.
Qed.

(** The node that stands for a file system entry. *)
Definition entry_node (e : fnode) (m : Node) : Prop :=
  n_Mode m = info_mode e ∧
  match e with
  | FFile c _ => n_Type m = NodeTypeFile ∧ n_Chunks m = sha256 <$> chunks_of ChunkSize c ∧
                 n_Size m = u64 (Z.of_nat (length c))
  | FDir _ => n_Type m = NodeTypeDir
  end.

Definition tree_of (f : fs) (root : path) (node : Node) : Prop :=
  ∀ p, match node_at node p with
       | Some m => visible p = true ∧ ∃ e, f !! (root ++ p) = Some e ∧ entry_node e m
       | None => visible p = true → f !! (root ++ p) = None
       end.

Lemma ReadDir_elem f p c : c ∈ ReadDir f p ↔ is_Some (f !! (p ++ [c])).
Proof.
  unfold ReadDir. rewrite merge_sort_Permutation, list_elem_of_omap. split.
  - intros ([q n] & Hq & Hc). simpl in Hc. unfold entry_of in Hc. destruct (last q) as [d|] eqn:El; [|done].
    case_decide as E; [|done]. injection Hc as <-. apply elem_of_map_to_list in Hq. rewrite <- E. eauto.
  - intros [n Hn]. exists (p ++ [c], n). rewrite elem_of_map_to_list. split; [done|].
    unfold entry_of. simpl. by rewrite last_snoc, decide_True.
Qed.

Lemma ReadDir_NoDup f p : NoDup (ReadDir f p).
Proof.
  unfold ReadDir. rewrite merge_sort_Permutation.
  assert (∀ l : list (path * fnode), NoDup l.*1 → NoDup (omap (λ kv, entry_of p kv.1) l)) as Hl.
  { induction l as [|[q n] l IH]; intros Hd; [constructor|]. cbn [fmap list_fmap] in Hd.
    apply NoDup_cons in Hd as [Hq Hd]. cbn [omap list_omap fst].
    destruct (entry_of p q) as [c|] eqn:Ec; [|by apply IH]. apply NoDup_cons. split; [|by apply IH].
    intros ([q' n'] & Hq' & Hc)%list_elem_of_omap. apply Hq. simpl in Hc.
    assert (∀ x, entry_of p x = Some c → x = p ++ [c]) as Hx.
    { intros x. unfold entry_of. destruct (last x); [|done]. case_decide; [|done]. by intros [= <-]. }
    rewrite (Hx _ Ec), <- (Hx _ Hc). by apply (list_elem_of_fmap_2 fst) in Hq'. }
  apply Hl, NoDup_fst_map_to_list.
Qed.

Lemma max_depth_spec f p n : f !! p = Some n → length p ≤ max_depth f.
Proof.
  intros Hp. unfold max_depth. pose proof (proj1 (list_max_le (length <$> (map_to_list f).*1) _) (le_n _)) as Hle.
  rewrite List.Forall_forall in Hle. apply Hle, list_elem_of_In, list_elem_of_fmap_2.
  apply (list_elem_of_fmap_2 fst (map_to_list f) (p, n)). by apply elem_of_map_to_list.
Qed.

(** What a built child satisfies. *)
Definition child_ok (f : fs) (p : path) (c : bytes) (node : Node) : Prop :=
  node_wf node ∧ n_Name node = c ∧ tree_of f (p ++ [c]) node.

Lemma children_fold fuel f p names acc :
  (∀ c, c ∈ names → c ≠ [] ∧ (hidden c = false →
     ∃ info node, f !! (p ++ [c]) = Some info ∧ buildNode fuel f (p ++ [c]) info = Ret node ∧ child_ok f p c node)) →
  ∃ nodes, foldl (λ acc name,
      cs ← acc; b ← or_panic (head name);
      if decide (b = x2e) then Ret cs
      else match f !! (p ++ [name]) with
           | None => Err (StatPath (p ++ [name]))
           | Some info => child ← buildNode fuel f (p ++ [name]) info; Ret (cs ++ [child])
           end) (Ret acc) names = Ret (acc ++ nodes) ∧
    Forall2 (child_ok f p) (filter (λ c, hidden c = false) names) nodes.
Proof.
  revert acc. induction names as [|c names IH]; intros acc Hn.
  { exists []. rewrite app_nil_r. split; [done|constructor]. }
  destruct (Hn c) as [Hne Hc]; [left|]. destruct c as [|b c]; [done|]. cbn [foldl].
  assert (∀ d, d ∈ names → d ≠ [] ∧ (hidden d = false →
     ∃ info node, f !! (p ++ [d]) = Some info ∧ buildNode fuel f (p ++ [d]) info = Ret node ∧ child_ok f p d node)) as Hn'
    by (intros d Hd; apply Hn; by right).
  rewrite filter_cons. simpl hidden in *. destruct (decide (b = x2e)) as [->|Hb].
  - destruct (IH acc Hn') as (nodes & E & Hf). exists nodes. rewrite decide_False by done.
    split; [|done]. rewrite <- E. reflexivity.
  - rewrite bool_decide_eq_false_2 in * by done. destruct (Hc eq_refl) as (info & node & Hi & Hb' & Hok).
    destruct (IH (acc ++ [node]) Hn') as (nodes & E & Hf). exists (node :: nodes).
    rewrite decide_True by done. split; [|by constructor].
    rewrite (app_assoc acc [node] nodes : acc ++ node :: nodes = _). rewrite <- E. f_equal.
    simpl. rewrite decide_False by done. rewrite Hi, Hb'. done.
Qed.

Lemma child_NewDirNode f p nm md names nodes c :
  NoDup names → Forall2 (child_ok f p) names nodes →
  match child (NewDirNode nm md nodes) c with
  | Some k => c ∈ names ∧ child_ok f p c k
  | None => c ∉ names
  end.
Proof.
  intros Hd Hf.
  assert (MerkleSpec.names nodes = names) as Hn.
  { unfold MerkleSpec.names. clear Hd. induction Hf as [|x k names nodes (_ & Hx & _) Hf IH]; [done|].
    cbn. by rewrite IH, Hx. }
  assert (∀ k, k ∈ sort_children nodes ↔ k ∈ nodes) as Hs by (intros k; by rewrite sort_children_perm).
  unfold child. change (n_Children (NewDirNode nm md nodes)) with (sort_children nodes).
  destruct (children_map (sort_children nodes) !! c) as [k|] eqn:Ek.
  - apply children_map_name in Ek as [Hk Hin]. apply Hs in Hin. subst c.
    apply list_elem_of_lookup in Hin as [i Hi].
    destruct (Forall2_lookup_r _ _ _ _ _ Hf Hi) as (x & Hx & Hok). pose proof Hok as (_ & -> & _).
    split; [by eapply list_elem_of_lookup_2|done].
  - intros Hc. apply list_elem_of_lookup in Hc as [i Hi].
    destruct (Forall2_lookup_l _ _ _ _ _ Hf Hi) as (k & Hk & _ & <- & _).
    rewrite children_map_elem in Ek; [done|apply NoDup_names_sort; by rewrite Hn|].
    apply Hs. by eapply list_elem_of_lookup_2.
Qed.

Lemma dir_tree_of f p nm md names nodes :
  fs_wf f → f !! p = Some (FDir md) → nm = info_name p →
  NoDup names → (∀ c, c ∈ names ↔ is_Some (f !! (p ++ [c])) ∧ hidden c = false) →
  Forall2 (child_ok f p) names nodes →
  tree_of f p (NewDirNode nm (info_mode (FDir md)) nodes).
Proof.
  intros Hfs Hp Hnm Hd Hnames Hf q. destruct q as [|c q].
  { cbn [node_at]. split; [done|]. exists (FDir md). rewrite app_nil_r. done. }
  cbn [node_at]. pose proof (child_NewDirNode f p nm (info_mode (FDir md)) names nodes c Hd Hf) as Hc.
  rewrite (app_assoc p [c] q : p ++ c :: q = _).
  destruct (child _ c) as [k|].
  - destruct Hc as [Hc (_ & _ & Ht)]. apply Hnames in Hc as [_ Hh]. specialize (Ht q).
    cbn [visible forallb]. rewrite Hh. simpl. by destruct (node_at k q).
  - cbn [visible forallb]. intros Hv%andb_true_iff. destruct Hv as [Hh _]. apply negb_true_iff in Hh.
    assert (f !! (p ++ [c]) = None) as Hn.
    { destruct (f !! (p ++ [c])) eqn:E; [|done]. exfalso. apply Hc, Hnames. by rewrite E. }
    destruct (f !! ((p ++ [c]) ++ q)) as [n|] eqn:E; [|done]. exfalso. destruct q as [|d q].
    + rewrite app_nil_r in E. congruence.
    + destruct (fs_wf_above _ _ _ _ _ Hfs E). congruence.
Qed.

Lemma buildFileNode_spec f p c md :
  unreadable p = false → f !! p = Some (FFile c md) → fs_wf f →
  ∃ node, buildFileNode p (FFile c md) c = Ret node ∧ node_wf node ∧ n_Name node = info_name p ∧ tree_of f p node.
Proof.
  intros Hu Hp Hfs. unfold buildFileNode. rewrite Hu. unfold ChunkAll.
  rewrite chunk_loop_ok by (simpl; lia). simpl app.
  set (hs := ch_Hash <$> (make_chunk <$> chunks_of ChunkSize c)).
  assert (hs = sha256 <$> chunks_of ChunkSize c) as Hhs by (unfold hs; by rewrite <- list_fmap_compose).
  eexists. split; [done|]. rewrite Hhs.
  set (node := NewFileNode _ _ _).
  assert (node_wf node) as Hw.
  { apply NewFileNode_wf, Forall_fmap, Forall_true. intros d. apply sha256_length. }
  split; [|split; [done|]].
  - destruct node as [nm ty h md' sz cs ch] eqn:En. by apply (wf_set_size _ _ _ _ sz).
  - intros [|d q].
    + simpl. split; [done|]. exists (FFile c md). by rewrite app_nil_r.
    + assert (child (with_size node (u64 (Z.of_nat (length c)))) d = None) as Hch by done.
      cbn [node_at]. rewrite Hch. intros _.
      destruct (f !! (p ++ d :: q)) eqn:E; [|done]. exfalso.
      destruct (fs_wf_above _ _ _ _ _ Hfs E). congruence.
Qed.

Lemma info_name_snoc p c : info_name (p ++ [c]) = c.
Proof. unfold info_name. by rewrite last_snoc. Qed.

Lemma buildNode_spec fuel f p n :
  fs_wf f → (∀ q, visible q = true → is_Some (f !! (p ++ q)) → unreadable (p ++ q) = false) →
  f !! p = Some n → max_depth f < length p + fuel →
  ∃ node, buildNode fuel f p n = Ret node ∧ node_wf node ∧ n_Name node = info_name p ∧ tree_of f p node.
Proof.
  intros Hfs. revert p n. induction fuel as [|fuel IH]; intros p n Hu Hp Hf.
  { apply max_depth_spec in Hp. lia. }
  assert (unreadable p = false) as Hup.
  { specialize (Hu []). rewrite app_nil_r in Hu. by apply Hu; [|rewrite Hp]. }
  cbn [buildNode]. destruct n as [c md|md]; [by apply buildFileNode_spec|]. rewrite Hup.
  destruct (children_fold fuel f p (ReadDir f p) []) as (nodes & E & Hok).
  { intros c Hc%ReadDir_elem. destruct Hc as [info Hi].
    destruct (Hfs _ _ Hi) as [Hpl _]. apply Forall_app in Hpl as [_ Hpl]. rewrite Forall_singleton in Hpl.
    split; [apply Hpl|]. intros Hh.
    destruct (IH (p ++ [c]) info) as (node & Hb & Hw & Hn & Ht); [|done|rewrite length_app; simpl; lia|].
    { intros q Hq. rewrite <- app_assoc. apply Hu. cbn [app visible forallb]. by rewrite Hh. }
    exists info, node. rewrite info_name_snoc in Hn. done. }
  set (names := filter (λ c, hidden c = false) (ReadDir f p)) in *.
  assert (NoDup names) as Hd by apply NoDup_filter, ReadDir_NoDup.
  cbn [app] in E. eexists. split; [by rewrite E|]. split_and!; [|done|].
  - apply NewDirNode_wf.
    + clear -Hok. induction Hok as [|x k ? ? (? & _) _ IH]; constructor; done.
    + assert (MerkleSpec.names nodes = names) as ->; [|done]. unfold MerkleSpec.names. clear -Hok.
      induction Hok as [|x k ns ks (_ & Hx & _) Hok IH]; [done|]. cbn. by rewrite IH, Hx.
  - apply (dir_tree_of f p _ md names nodes); [done..| |done].
    intros c. unfold names. rewrite list_elem_of_filter, ReadDir_elem. tauto.
Qed.

Lemma BuildFromFS_tree (f : fs) (root : path) (md : Z) :
  fs_wf f → f !! root = Some (FDir md) →
  (∀ q, visible q = true → is_Some (f !! (root ++ q)) → unreadable (root ++ q) = false) →
  ∃ node, BuildFromFS f root = Ret (mkTree (Some node)) ∧ node_wf node ∧ tree_of f root node.
Proof.
  intros Hfs Hr Hu. unfold BuildFromFS.
  rewrite (Stat_dirs f root (FDir md)) by (done || by apply (Hfs _ _ Hr)). simpl is_dir. cbv iota.
  destruct (buildNode_spec (S (max_depth f)) f root (FDir md) Hfs Hu Hr ltac:(lia)) as (node & -> & Hw & _ & Ht).
  by exists node.
Qed.

(** C7: BuildFromFS of a readable directory succeeds and yields a well-formed
    tree that stands for exactly the visible part of the directory: a path of
    names none of which starts with a dot leads to a node if and only if it
    exists on disk; a file node lists the SHA-256 hashes of the 4 KiB chunks of
    the file's content in order, with its true size and mode, and a directory
    node is a directory on disk; hidden entries are absent. A missing root or
    a root that is a file is an error. *)
Theorem BuildFromFS_correct (f : fs) (root : path) (md : Z) :
  fs_wf f → f !! root = Some (FDir md) →
  (∀ q, visible q = true → is_Some (f !! (root ++ q)) → unreadable (root ++ q) = false) →
  (∃ node, BuildFromFS f root = Ret (mkTree (Some node)) ∧ node_wf node ∧ tree_of f root node) ∧
  (∀ p c m, f !! p = Some (FFile c m) → BuildFromFS f p = Err RootNotDir) ∧
  (∀ p, f !! p = None → ∃ e, BuildFromFS f p = Err (StatRoot e)).
Proof.
  intros Hfs Hr Hu. split_and!.
  - by apply (BuildFromFS_tree f root md).
  - intros p c m Hp. unfold BuildFromFS. by rewrite (Stat_dirs f p (FFile c m)) by (done || by apply (Hfs _ _ Hp)).
  - intros p Hp. unfold BuildFromFS, Stat. destruct (through_file f [] p); [by eexists|]. rewrite Hp. by eexists.
Qed.
End build.

(** ** A checker for small file systems, and a witness *)
Definition fs_wfb (f : fs) : bool :=
  forallb (λ kv, bool_decide (Forall plain_name kv.1) &&
    forallb (λ i, match f !! take i kv.1 with Some (FDir _) => true | _ => false end)
      (seq 0 (length kv.1))) (map_to_list f).

Lemma fs_wfb_sound f : fs_wfb f = true → fs_wf f.
Proof.
  unfold fs_wfb. rewrite List.forallb_forall. intros Hf p n Hp.
  specialize (Hf (p, n)). rewrite <- list_elem_of_In, elem_of_map_to_list in Hf. specialize (Hf Hp).
  apply andb_true_iff in Hf as [Hpl Hd]. apply bool_decide_eq_true in Hpl. split; [done|].
  intros q [k ->] Hne. rewrite List.forallb_forall in Hd. specialize (Hd (length q)).
  cbn [fst] in Hd. rewrite take_app_length in Hd.
  assert (length q ∈ seq 0 (length (q ++ k))) as Hs.
  { apply elem_of_seq. rewrite length_app. destruct k; [by rewrite app_nil_r in Hne|simpl; lia]. }
  apply list_elem_of_In, Hd in Hs. destruct (f !! q) as [[c m|m]|]; [done|by eauto|done].
Qed.

Module BuildExample.
#[local] Existing Instance sha256_fips.

Definition str := bytes_of_string.
Definition disk : fs := {[
  [] := FDir 493; [str "d"] := FDir 493; [str "d"; str "a"] := FFile (str "hello") 420;
  [str "d"; str ".git"] := FDir 493; [str "d"; str ".git"; str "x"] := FFile [] 420;
  [str "d"; str "sub"] := FDir 493; [str "d"; str "sub"; str "b"] := FFile [] 420 ]}.

Lemma disk_wf : fs_wf disk.
Proof. apply fs_wfb_sound. vm_compute. reflexivity. Qed.

Lemma BuildFromFS_correct_witness :
  ∃ node, BuildFromFS (λ _, false) disk [str "d"] = Ret (mkTree (Some node)) ∧ node_wf node ∧
    tree_of disk [str "d"] node.
Proof.
  apply (BuildFromFS_correct (λ _, false) disk [str "d"] 493).
  - apply disk_wf.
  - vm_compute. reflexivity.
  - intros q _ _. reflexivity.
Defined.
End BuildExample.
