(* ===== verification/Reconstruct.v ===== *)
(** * Writing a manifest to disk ([cmd/p2p-file-sync/main.go])

    [collectMissingChunks] and [reconstructFiles]. The blob store lives in the
    same file system as the files that are written, so the store is read from
    the file system as it is at that moment. Writes to an open file do not
    fail. *)
From Stdlib Require Import Strings.Byte Strings.String.
From S2P Require Import Prelude Sha256 Fs Chunk ChunkStore BlobStore StoreSpec Merkle Manifest DiffTrees.

Set Warnings "-register-all".

(** ** Missing chunks *)
Section missing.
Context {St E : Type} `{ChunkStore St E}.

Fixpoint collectMissingChunks (st : St) (node : ManifestNode) : list bytes :=
  filter (λ h, cs_has st h = false) (pm_Chunks node)
  ++ concat (map (collectMissingChunks st) (pm_Children node)).
End missing.

(** ** File modes: [syscallMode] of an [os.FileMode] *)
Definition syscallMode (m : Z) : Z :=
  Z.lor (Z.land m 511)
    (Z.lor (if Z.testbit m 23 then 2048 else 0)
       (Z.lor (if Z.testbit m 22 then 1024 else 0) (if Z.testbit m 20 then 512 else 0))).

Definition Chmod (f : fs) (p : path) (mode : Z) : fs :=
  match Stat f p with
  | Ret (FFile c _) => <[p := FFile c mode]> f
  | Ret (FDir _) => <[p := FDir mode]> f
  | _ => f
  end.

Inductive reconstruct_error :=
| MkdirFailed (e : fs_error)
| CreateFailed (e : fs_error)
| MissingChunk (h : bytes) (e : store_error).

(** Writing the chunks of a file in order; formatting [hash[:8]] of a short
    hash in the error panics. *)
Fixpoint write_chunks (f : fs) (s : BlobStore) (p : path) (hashes : list bytes) : fs * outcome reconstruct_error unit :=
  match hashes with
  | [] => (f, Ret ())
  | h :: hashes' =>
      match Get f s h with
      | Ret c => write_chunks (WriteAt f p (ch_Data c)) s p hashes'
      | Err e => if decide (8 ≤ length h) then (f, Err (MissingChunk (take 8 h) e)) else (f, Panic)
      | Panic => (f, Panic)
      end
  end.

Fixpoint reconstructFilesRecursive (baseDir : path) (s : BlobStore) (relPath : bytes) (node : ManifestNode) (f : fs)
    : fs * outcome reconstruct_error nat :=
  match node with
  | mkManifestNode name isDir _ mode _ children chunks =>
      let currentPath := Join baseDir [relPath; name] in
      if isDir then
        match MkdirAll f currentPath (syscallMode (Z.lor mode 493)) with
        | Err e => (f, Err (MkdirFailed e))
        | Panic => (f, Panic)
        | Ret f1 =>
            let childPath := Join2 relPath name in
            (fix loop (cs : list ManifestNode) (f : fs) (written : nat) : fs * outcome reconstruct_error nat :=
               match cs with
               | [] => (f, Ret written)
               | c :: cs' =>
                   match reconstructFilesRecursive baseDir s childPath c f with
                   | (f', Ret n) => loop cs' f' (written + n)
                   | (f', Err e) => (f', Err e)
                   | (f', Panic) => (f', Panic)
                   end
               end) children f1 0
        end
      else if decide (length chunks = 0) then (f, Ret 0)
      else
        match MkdirAll f (Dir currentPath) 493 with
        | Err e => (f, Err (MkdirFailed e))
        | Panic => (f, Panic)
        | Ret f1 =>
            match OpenTrunc f1 currentPath 438 with
            | Err e => (f1, Err (CreateFailed e))
            | Panic => (f1, Panic)
            | Ret f2 =>
                match write_chunks f2 s currentPath chunks with
                | (f3, Err e) => (f3, Err e)
                | (f3, Panic) => (f3, Panic)
                | (f3, Ret _) =>
                    (if decide (mode ≠ 0%Z) then Chmod f3 currentPath (syscallMode mode) else f3, Ret 1)
                end
            end
        end
  end.

(** The loop over the children of the root, whose own name is skipped. *)
Fixpoint reconstruct_list (baseDir : path) (s : BlobStore) (relPath : bytes) (cs : list ManifestNode) (f : fs) (written : nat)
    : fs * outcome reconstruct_error nat :=
  match cs with
  | [] => (f, Ret written)
  | c :: cs' =>
      match reconstructFilesRecursive baseDir s relPath c f with
      | (f', Ret n) => reconstruct_list baseDir s relPath cs' f' (written + n)
      | (f', Err e) => (f', Err e)
      | (f', Panic) => (f', Panic)
      end
  end.

Definition reconstructFiles (baseDir : path) (node : option ManifestNode) (s : BlobStore) (f : fs)
    : fs * outcome reconstruct_error nat :=
  match node with
  | None => (f, Ret 0)
  | Some n => reconstruct_list baseDir s [] (pm_Children n) f 0
  end.

(** The directory case in terms of the same loop. *)
Lemma reconstruct_dir baseDir s relPath name h mode sz children chunks f :
  reconstructFilesRecursive baseDir s relPath (mkManifestNode name true h mode sz children chunks) f =
  match MkdirAll f (Join baseDir [relPath; name]) (syscallMode (Z.lor mode 493)) with
  | Err e => (f, Err (MkdirFailed e))
  | Panic => (f, Panic)
  | Ret f1 => reconstruct_list baseDir s (Join2 relPath name) children f1 0
  end.
Proof.
  cbn [reconstructFilesRecursive]. destruct (MkdirAll _ _ _) as [f1|e|]; [|done..].
  generalize 0. revert f1. induction children as [|c cs IH]; intros f1 n; [done|]. cbn [reconstruct_list].
  destruct (reconstructFilesRecursive baseDir s (Join2 relPath name) c f1) as [f' [k|e|]]; [apply IH|done..].
Qed.

(** ** Paths *)
Lemma Join_rel_name root p name :
  Forall plain_name p → plain_name name → Join root [join_slash p; name] = root ++ p ++ [name].
Proof.
  intros Hp Hn. unfold Join. cbn [fmap list_fmap concat]. rewrite app_nil_r, foldl_app.
  rewrite (split_slash_plain name []) by apply Hn. destruct p as [|c p].
  - simpl. by rewrite clean_step_plain.
  - rewrite split_join_slash by done. cbn [app].
    assert (∀ acc q, Forall plain_name q → foldl clean_step acc q = acc ++ q) as Hf.
    { intros acc q Hq. revert acc. induction Hq as [|x q Hx Hq IH]; intros acc; simpl; [by rewrite app_nil_r|].
      rewrite clean_step_plain, IH by done. by rewrite <- app_assoc. }
    rewrite (Hf root (c :: p)) by done. simpl. rewrite clean_step_plain by done. by rewrite <- app_assoc.
Qed.

Lemma Join2_rel p name :
  Forall plain_name p → plain_name name → Join2 (join_slash p) name = join_slash (p ++ [name]).
Proof.
  intros Hp Hn. destruct p as [|c p]; [|by apply Join2_plain].
  simpl. unfold Join2. destruct name as [|b name]; [by destruct Hn as (_ & ? & _)|].
  unfold Clean. rewrite decide_False by (by eapply plain_not_slash).
  rewrite split_slash_plain by apply Hn. cbn [app foldl]. by rewrite clean_rel_plain.
Qed.

(** Two paths neither of which lies below the other. *)
Definition apart (a b : path) : Prop := ¬ a `prefix_of` b ∧ ¬ b `prefix_of` a.

Lemma prefix_linear (a b q : path) : a `prefix_of` q → b `prefix_of` q → a `prefix_of` b ∨ b `prefix_of` a.
Proof.
  revert b q. induction a as [|x a IH]; intros b q Ha Hb; [left; apply prefix_nil|].
  destruct b as [|y b]; [right; apply prefix_nil|]. destruct q as [|z q]; [by apply prefix_nil_inv in Ha|].
  apply prefix_cons_inv_1 in Ha as E1, Hb as E2. apply prefix_cons_inv_2 in Ha, Hb. subst.
  destruct (IH b q Ha Hb); [left|right]; by apply prefix_cons.
Qed.

Lemma apart_below a b k : apart a b → apart (a ++ k) b.
Proof.
  intros [H1 H2]. split.
  - intros H. apply H1. etransitivity; [|exact H]. by eexists.
  - intros H. destruct (prefix_linear b a (a ++ k)) as [?|?]; [done|by eexists|done|done].
Qed.

Lemma apart_extension a b q : apart a b → a `prefix_of` q → ¬ q `prefix_of` b ∧ ¬ b `prefix_of` q.
Proof. intros Ha [k ->]. apply apart_below, Ha. Qed.

(** The store only depends on the paths around its base directory. *)
Lemma store_agree f f' s :
  (∀ q, q `prefix_of` bs_baseDir s ∨ bs_baseDir s `prefix_of` q → f' !! q = f !! q) →
  (store_wf f s → store_wf f' s) ∧ (∀ h, long_hash h → view f' s h = view f s h).
Proof.
  intros Ha. assert (∀ k, f' !! (bs_baseDir s ++ k) = f !! (bs_baseDir s ++ k)) as Hk.
  { intros k. apply Ha. right. by eexists. }
  split.
  - intros [H1 H2 H3 H4]. split.
    + intros q Hq. rewrite Ha by auto. by apply H1.
    + intros h c m Hh. rewrite Hk. by apply H2.
    + intros h m Hh. rewrite Hk. by apply H3.
    + intros h m Hh. rewrite Hk. by apply H4.
  - intros h Hh. unfold view. rewrite chunkPath_long by done. by rewrite Hk.
Qed.

Section place.
Context (root : path) (s : BlobStore).

(** The manifest node can be written at the relative path [p]. *)
Inductive placeable (f : fs) : path → ManifestNode → Prop :=
| pl_dir p nm h md sz cs ch :
    (∀ x m, f !! (root ++ p) ≠ Some (FFile x m)) → NoDup (pm_Name <$> cs) →
    Forall (λ c, plain_name (pm_Name c) ∧ placeable f (p ++ [pm_Name c]) c) cs →
    placeable f p (mkManifestNode nm true h md sz cs ch)
| pl_file p nm h md sz cs ch :
    (∀ m, f !! (root ++ p) ≠ Some (FDir m)) →
    Forall (λ h, long_hash h ∧ is_Some (view f s h)) ch →
    placeable f p (mkManifestNode nm false h md sz cs ch).

(** The node has been written at [p] with the contents [v], as so many files. *)
Inductive placed (v : bytes → option bytes) (f : fs) : path → ManifestNode → nat → Prop :=
| pd_dir p nm h md sz cs ch ns m :
    f !! (root ++ p) = Some (FDir m) →
    Forall2 (λ c n, placed v f (p ++ [pm_Name c]) c n) cs ns →
    placed v f p (mkManifestNode nm true h md sz cs ch) (sum_list ns)
| pd_empty p nm h md sz cs :
    placed v f p (mkManifestNode nm false h md sz cs []) 0
| pd_file p nm h md sz cs ch ds m :
    ch ≠ [] → Forall2 (λ h d, v h = Some d) ch ds →
    f !! (root ++ p) = Some (FFile (concat ds) m) → (md ≠ 0%Z → m = syscallMode md) →
    placed v f p (mkManifestNode nm false h md sz cs ch) 1.

Lemma below_child p c q : (root ++ p ++ [c]) `prefix_of` q → (root ++ p) `prefix_of` q.
Proof. intros [k ->]. exists ([c] ++ k). by rewrite <- !app_assoc. Qed.

Lemma placeable_agree f f' p node :
  (∀ q, (root ++ p) `prefix_of` q → f' !! q = f !! q) → (∀ h, long_hash h → view f' s h = view f s h) →
  placeable f p node → placeable f' p node.
Proof.
  intros Hq Hv. revert p Hq. induction node as [nm d h md sz cs ch IH] using ManifestNode_rec_children.
  intros p Hq Hp. inversion Hp as [? ? ? ? ? ? ? Hn Hd Hc|? ? ? ? ? ? ? Hn Hc]; subst.
  - constructor; [by rewrite Hq|done|]. rewrite Forall_forall in *. intros c Hin.
    destruct (Hc c Hin) as [Hpl Hpc]. split; [done|]. apply IH; [done| |done].
    intros q Hqq. apply Hq. by eapply below_child.
  - constructor; [by rewrite Hq|]. eapply Forall_impl; [exact Hc|]. intros x [Hx Hs]. by rewrite Hv.
Qed.

Lemma placed_agree v f f' p node n :
  (∀ q, (root ++ p) `prefix_of` q → f' !! q = f !! q) → placed v f p node n → placed v f' p node n.
Proof.
  revert p n. induction node as [nm d h md sz cs ch IH] using ManifestNode_rec_children.
  intros p n Hq Hp. inversion Hp as [? ? ? ? ? ? ? ns m Hm Hc| |? ? ? ? ? ? ? ds m Hne Hds Hm Hmd]; subst.
  - econstructor; [by rewrite Hq|]. clear Hp Hm. induction Hc as [|c k cs ns Hc Hcs IHc]; constructor.
    + apply Forall_cons in IH as [IH _]. apply IH; [|done]. intros q Hqq. apply Hq. by eapply below_child.
    + apply Forall_cons in IH as [_ IH]. by apply IHc.
  - constructor.
  - econstructor; [done|done|by rewrite Hq|done].
Qed.

(** ** Writing one file *)
Lemma write_chunks_spec f p md c0 ch :
  store_wf f s → apart p (bs_baseDir s) → f !! p = Some (FFile c0 md) →
  Forall (λ h, long_hash h ∧ is_Some (view f s h)) ch →
  ∃ ds, Forall2 (λ h d, view f s h = Some d) ch ds ∧
    write_chunks f s p ch = (<[p := FFile (c0 ++ concat ds) md]> f, Ret ()).
Proof.
  intros Hw Ha. revert f c0 Hw. induction ch as [|h ch IH]; intros f c0 Hw Hp Hc.
  { exists []. split; [constructor|]. simpl. by rewrite app_nil_r, insert_id. }
  apply Forall_cons in Hc as [[Hh [d Hd]] Hc]. cbn [write_chunks].
  rewrite Get_spec, Hd by done. cbn [ch_Data]. unfold WriteAt. rewrite Hp.
  set (f' := <[p := FFile (c0 ++ d) md]> f).
  destruct (store_agree f f' s) as [Hw' Hv'].
  { intros q Hq. unfold f'. rewrite lookup_insert_ne; [done|]. intros ->. destruct Ha, Hq; done. }
  destruct (IH f' (c0 ++ d)) as (ds & Hds & E).
  - by apply Hw'.
  - apply lookup_insert_eq.
  - eapply Forall_impl; [exact Hc|]. intros x [Hx Hs]. by rewrite Hv'.
  - exists (d :: ds). split.
    + constructor; [done|]. clear E IH. induction Hds as [|x y xs ys Hxy Hds IHd]; constructor.
      * apply Forall_cons in Hc as [[Hx _] _]. by rewrite <- Hv'.
      * apply IHd. by apply Forall_cons in Hc as [_ ?].
    + rewrite E. unfold f'. rewrite insert_insert_eq. simpl. by rewrite <- app_assoc.
Qed.

Lemma siblings_apart (d : path) a b q :
  a ≠ b → (d ++ [a]) `prefix_of` q → ¬ (d ++ [b]) `prefix_of` q.
Proof.
  intros Hne Ha Hb. destruct (prefix_linear _ _ _ Ha Hb) as [[k E]|[k E]];
    rewrite <- app_assoc in E; apply app_inv_head in E; simpl in E; congruence.
Qed.

Lemma base_ok_agree f f' d : (∀ q, q `prefix_of` d → f' !! q = f !! q) → base_ok f d → base_ok f' d.
Proof. intros Ha Hb q Hq. rewrite Ha by done. by apply Hb. Qed.

Lemma child_not_prefix (d q : path) c : q `prefix_of` d → ¬ (d ++ [c]) `prefix_of` q.
Proof. intros Hq%prefix_length Hc%prefix_length. rewrite length_app in Hc. simpl in Hc. lia. Qed.

(** The relative paths of a manifest node and all below it. *)
Fixpoint pm_paths (n : ManifestNode) : list path :=
  [] :: concat (map (λ c, cons (pm_Name c) <$> pm_paths c) (pm_Children n)).

(** No path of the node, placed at [b], is [q]. *)
Definition off (b : path) (n : ManifestNode) (q : path) : Prop := ∀ k, k ∈ pm_paths n → q ≠ b ++ k.

Lemma off_outside b n q : ¬ b `prefix_of` q → off b n q.
Proof. intros Hb k _ ->. apply Hb. by eexists. Qed.

Lemma off_child b n c q : c ∈ pm_Children n → off b n q → off (b ++ [pm_Name c]) c q.
Proof.
  intros Hc Ho k Hk. rewrite <- app_assoc. apply Ho. destruct n as [nm d h md sz cs ch]. simpl. right.
  apply list_elem_of_In, in_concat. exists (cons (pm_Name c) <$> pm_paths c). split.
  - apply in_map_iff. exists c. split; [done|by apply list_elem_of_In].
  - by apply list_elem_of_In, list_elem_of_fmap_2.
Qed.

(** Writing a node touches only its own paths. *)
Definition writes_node (v : bytes → option bytes) (node : ManifestNode) : Prop :=
  ∀ f p0, let p := p0 ++ [pm_Name node] in
  store_wf f s → (∀ h, long_hash h → view f s h = v h) → base_ok f (root ++ p0) →
  Forall plain_name p0 → plain_name (pm_Name node) → apart (root ++ p) (bs_baseDir s) → placeable f p node →
  ∃ f' n, reconstructFilesRecursive root s (join_slash p0) node f = (f', Ret n) ∧
    (∀ q, off (root ++ p) node q → f' !! q = f !! q) ∧ placed v f' p node n.

Lemma reconstruct_list_spec v cs : ∀ f p w,
  Forall (writes_node v) cs →
  store_wf f s → (∀ h, long_hash h → view f s h = v h) → base_ok f (root ++ p) → Forall plain_name p →
  NoDup (pm_Name <$> cs) →
  Forall (λ c, plain_name (pm_Name c) ∧ apart (root ++ p ++ [pm_Name c]) (bs_baseDir s) ∧
               placeable f (p ++ [pm_Name c]) c) cs →
  ∃ f' ns, reconstruct_list root s (join_slash p) cs f w = (f', Ret (w + sum_list ns)) ∧
    (∀ q, Forall (λ c, off (root ++ p ++ [pm_Name c]) c q) cs → f' !! q = f !! q) ∧
    Forall2 (λ c n, placed v f' (p ++ [pm_Name c]) c n) cs ns.
Proof.
  induction cs as [|c cs IH]; intros f p w Hwr Hw Hv Hb Hp Hd Hc.
  { exists f, []. split_and!; [by rewrite Nat.add_0_r|done|constructor]. }
  apply Forall_cons in Hwr as [Hwc Hwr]. apply Forall_cons in Hc as [(Hpl & Ha & Hplc) Hc].
  apply NoDup_cons in Hd as [Hn Hd].
  destruct (Hwc f p Hw Hv Hb Hp Hpl Ha Hplc) as (f1 & n & E1 & Hfr1 & Hpd1).
  destruct (store_agree f f1 s) as [Hw1 Hv1].
  { intros q Hq. apply Hfr1, off_outside. intros Hpre. destruct (apart_extension _ _ _ Ha Hpre). tauto. }
  assert (∀ c', c' ∈ cs → pm_Name c' ≠ pm_Name c) as Hne.
  { intros c' Hin E. apply Hn. rewrite <- E. by apply list_elem_of_fmap_2. }
  destruct (IH f1 p (w + n)) as (f2 & ns & E2 & Hfr2 & Hpd2).
  - done.
  - by apply Hw1.
  - intros h Hh. by rewrite Hv1, Hv.
  - eapply base_ok_agree; [|exact Hb]. intros q Hq. apply Hfr1, off_outside. rewrite app_assoc. by apply child_not_prefix.
  - done.
  - done.
  - rewrite Forall_forall in *. intros c' Hin. destruct (Hc c' Hin) as (? & ? & Hpc). split_and!; [done..|].
    eapply placeable_agree; [| |exact Hpc]; [|done].
    intros q Hq. apply Hfr1, off_outside. rewrite app_assoc in *. eapply siblings_apart, Hq. by apply Hne.
  - exists f2, (n :: ns). cbn [reconstruct_list]. rewrite E1. split_and!.
    + rewrite E2. simpl. do 2 f_equal. lia.
    + intros q [Hq Hqs]%Forall_cons. by rewrite Hfr2, Hfr1.
    + constructor; [|done]. eapply placed_agree; [|exact Hpd1]. intros q Hq. apply Hfr2.
      apply Forall_forall. intros c' Hin. apply off_outside. rewrite app_assoc in *.
      eapply siblings_apart, Hq. intros E. by apply (Hne c' Hin).
Qed.

Lemma mkdir_new f d c perm :
  base_ok f d → (∀ x m, f !! (d ++ [c]) ≠ Some (FFile x m)) →
  ∃ f1 m, MkdirAll f (d ++ [c]) perm = Ret f1 ∧ f1 !! (d ++ [c]) = Some (FDir m) ∧
    ∀ q, q ≠ d ++ [c] → f1 !! q = f !! q.
Proof.
  intros Hb Hn. unfold MkdirAll. rewrite (mkdir_all_last f [] d c perm) by done. simpl.
  destruct (f !! (d ++ [c])) as [[x m|m]|] eqn:E; [by destruct (Hn x m)|..].
  - by exists f, m.
  - eexists _, perm. split; [done|]. rewrite lookup_insert_eq. split; [done|].
    intros q Hq. by rewrite lookup_insert_ne.
Qed.

Lemma base_ok_snoc f d c m : base_ok f d → f !! (d ++ [c]) = Some (FDir m) → base_ok f (d ++ [c]).
Proof.
  intros Hb Hm q Hq. destruct (decide (q = d ++ [c])) as [->|Hne]; [eauto|].
  apply Hb. by eapply prefix_one.
Qed.

Lemma writes_dir v nm h md sz cs ch :
  Forall (writes_node v) cs → writes_node v (mkManifestNode nm true h md sz cs ch).
Proof.
  intros IH f p0 p Hw Hv Hb Hp0 Hnm Ha Hpl. cbn [pm_Name] in *.
  inversion Hpl as [? ? ? ? ? ? ? Hnf Hnd Hcs|]; subst.
  rewrite reconstruct_dir, Join_rel_name, Join2_rel by done. unfold p in *. rewrite app_assoc in *.
  destruct (mkdir_new f (root ++ p0) nm (syscallMode (Z.lor md 493)) Hb Hnf) as (f1 & m & E & Hm & Hfr).
  rewrite E.
  destruct (store_agree f f1 s) as [Hw1 Hv1].
  { intros q Hq. apply Hfr. intros ->. destruct Ha. tauto. }
  destruct (reconstruct_list_spec v cs f1 (p0 ++ [nm]) 0) as (f2 & ns & E2 & Hfr2 & Hpd).
  - done.
  - by apply Hw1.
  - intros x Hx. by rewrite Hv1, Hv.
  - rewrite app_assoc. eapply base_ok_snoc; [|exact Hm]. eapply base_ok_agree; [|exact Hb].
    intros q Hq. apply Hfr. intros ->. by apply (child_not_prefix _ _ nm Hq).
  - apply Forall_app; auto.
  - done.
  - rewrite Forall_forall in *. intros c Hc. destruct (Hcs c Hc) as [Hpc Hplc]. split_and!; [done|..].
    + rewrite !app_assoc. by apply apart_below.
    + eapply placeable_agree; [| |exact Hplc]; [|done]. intros q Hq. apply Hfr. intros ->.
      apply prefix_length in Hq. rewrite !length_app in Hq. simpl in Hq. lia.
  - exists f2, (sum_list ns). split_and!; [exact E2|..].
    + intros q Hq. rewrite Hfr2.
      * apply Hfr. rewrite <- (app_nil_r (_ ++ _)). apply (Hq []). left.
      * apply Forall_forall. intros c Hc. rewrite !app_assoc. by apply (off_child _ (mkManifestNode nm true h md sz cs ch)).
    + eapply (pd_dir _ _ _ _ _ _ _ _ _ _ m); [|exact Hpd]. rewrite Hfr2; [by rewrite app_assoc|].
      apply Forall_forall. intros c _. apply off_outside. intros Hc. apply prefix_length in Hc. rewrite !length_app in Hc. simpl in Hc. lia.
Qed.

Lemma create_new f d c :
  base_ok f d → (∀ m, f !! (d ++ [c]) ≠ Some (FDir m)) →
  ∃ m, OpenTrunc f (d ++ [c]) 438 = Ret (<[d ++ [c] := FFile [] m]> f).
Proof.
  intros Hb Hn. unfold OpenTrunc, Dir. rewrite removelast_last.
  destruct (Hb d ltac:(done)) as [md Hd].
  rewrite (Stat_dirs f d (FDir md)) by (done || (intros q ? ?; by apply Hb)).
  destruct (f !! (d ++ [c])) as [[x m|m]|] eqn:E; [eauto|by destruct (Hn m)|eauto].
Qed.

(** A file with chunks, wherever its joined path leads. *)
Lemma write_file_at v f rel nm h md sz cs ch d c :
  ch ≠ [] → Join root [rel; nm] = d ++ [c] →
  store_wf f s → (∀ h, long_hash h → view f s h = v h) → base_ok f d →
  apart (d ++ [c]) (bs_baseDir s) → (∀ m, f !! (d ++ [c]) ≠ Some (FDir m)) →
  Forall (λ h, long_hash h ∧ is_Some (view f s h)) ch →
  ∃ ds m, Forall2 (λ h d, v h = Some d) ch ds ∧ (md ≠ 0%Z → m = syscallMode md) ∧
    reconstructFilesRecursive root s rel (mkManifestNode nm false h md sz cs ch) f
    = (<[d ++ [c] := FFile (concat ds) m]> f, Ret 1).
Proof.
  intros Hne HJ Hw Hv Hb Ha Hnd Hch. cbn [reconstructFilesRecursive]. rewrite HJ.
  rewrite decide_False by (by destruct ch).
  unfold Dir, MkdirAll. rewrite removelast_last, mkdir_all_existing by done.
  destruct (create_new f d c Hb Hnd) as [m E]. rewrite E.
  set (p := d ++ [c]) in *. set (f2 := <[p := FFile [] m]> f).
  destruct (store_agree f f2 s) as [Hw2 Hv2].
  { intros q Hq. unfold f2. rewrite lookup_insert_ne; [done|]. intros ->. destruct Ha. tauto. }
  destruct (write_chunks_spec f2 p m [] ch) as (ds & Hds & Ew);
    [by apply Hw2|done|apply lookup_insert_eq| |].
  { eapply Forall_impl; [exact Hch|]. intros x [Hx Hs]. by rewrite Hv2. }
  rewrite Ew. unfold f2. rewrite insert_insert_eq. cbn [app].
  set (f3 := <[p := FFile (concat ds) m]> f). exists ds.
  assert (Forall2 (λ h d, v h = Some d) ch ds) as Hds'.
  { clear -Hds Hch Hv2 Hv. induction Hds as [|x y xs ys Hxy Hds IH]; constructor.
    - apply Forall_cons in Hch as [[Hx _] _]. by rewrite <- Hv, <- Hv2.
    - apply IH. by apply Forall_cons in Hch as [_ ?]. }
  assert (Chmod f3 p (syscallMode md) = <[p := FFile (concat ds) (syscallMode md)]> f) as Hcm.
  { unfold Chmod. rewrite (Stat_dirs f3 p (FFile (concat ds) m)).
    - unfold f3. by rewrite insert_insert_eq.
    - by apply base_ok_above, base_ok_insert.
    - apply lookup_insert_eq. }
  destruct (decide (md ≠ 0%Z)) as [Hmd|Hmd].
  - exists (syscallMode md). by rewrite Hcm.
  - by exists m.
Qed.

Lemma writes_file v nm h md sz cs ch : writes_node v (mkManifestNode nm false h md sz cs ch).
Proof.
  intros f p0 p Hw Hv Hb Hp0 Hnm Ha Hpl. cbn [pm_Name] in *.
  inversion Hpl as [|? ? ? ? ? ? ? Hnd Hch]; subst. unfold p in *. rewrite app_assoc in *.
  destruct (decide (ch = [])) as [->|Hne].
  { exists f, 0. split_and!; [done|done|constructor]. }
  destruct (write_file_at v f (join_slash p0) nm h md sz cs ch (root ++ p0) nm Hne) as (ds & m & Hds & Hmd & E);
    [by rewrite Join_rel_name, app_assoc|done..|].
  eexists _, 1. split_and!; [exact E|..].
  - intros q Hq. rewrite lookup_insert_ne; [done|]. intros E2. apply (Hq []); [left|]. by rewrite app_nil_r.
  - eapply pd_file; [done|exact Hds|rewrite app_assoc; apply lookup_insert_eq|done].
Qed.

Lemma writes_all v node : writes_node v node.
Proof.
  induction node as [nm [] h md sz cs ch IH] using ManifestNode_rec_children.
  - by apply writes_dir.
  - apply writes_file.
Qed.
End place.

(** The number of files a manifest node is written as. *)
Fixpoint written_files (n : ManifestNode) : nat :=
  if pm_IsDir n then sum_list (map written_files (pm_Children n))
  else if decide (length (pm_Chunks n) = 0) then 0 else 1.

Lemma placed_count root v f p node n : placed root v f p node n → n = written_files node.
Proof.
  revert p n. induction node as [nm d h md sz cs ch IH] using ManifestNode_rec_children. intros p n Hp.
  inversion Hp as [? ? ? ? ? ? ? ns m Hm Hc| |? ? ? ? ? ? ? ds m Hne Hds Hm Hmd]; subst; simpl.
  - f_equal. clear Hp Hm. induction Hc as [|c k cs ns Hc Hcs IHc]; [done|].
    apply Forall_cons in IH as [IH1 IH2]. simpl. f_equal; [by eapply IH1|by apply IHc].
  - done.
  - rewrite decide_False; [done|]. by destruct ch.
Qed.

(** The store may lie anywhere apart from what is written. *)
Lemma reconstructFiles_spec (root : path) (s : BlobStore) (f : fs) (node : ManifestNode) :
  store_wf f s → base_ok f root → NoDup (pm_Name <$> pm_Children node) →
  Forall (λ c, plain_name (pm_Name c) ∧ apart (root ++ [pm_Name c]) (bs_baseDir s) ∧
               placeable root s f [pm_Name c] c) (pm_Children node) →
  ∃ f' n, reconstructFiles root (Some node) s f = (f', Ret n) ∧
    n = sum_list (map written_files (pm_Children node)) ∧
    Forall (λ c, ∃ k, placed root (view f s) f' [pm_Name c] c k) (pm_Children node) ∧
    (∀ q, Forall (λ c, off (root ++ [pm_Name c]) c q) (pm_Children node) → f' !! q = f !! q) ∧
    store_wf f' s ∧ (∀ h, long_hash h → view f' s h = view f s h).
Proof.
  intros Hw Hb Hd Hc.
  destruct (reconstruct_list_spec root s (view f s) (pm_Children node) f [] 0) as (f' & ns & E & Hfr & Hpd).
  - apply Forall_forall. intros. apply writes_all.
  - done.
  - done.
  - by rewrite app_nil_r.
  - constructor.
  - done.
  - exact Hc.
  - exists f', (sum_list ns). split; [exact E|]. simpl in Hfr, Hpd.
    destruct (store_agree f f' s) as [Hw' Hv'].
    { intros q Hq. apply Hfr. eapply Forall_impl; [exact Hc|]. intros c (_ & Ha & _).
      apply off_outside. intros Hpre. destruct (apart_extension _ _ _ Ha Hpre). tauto. }
    split_and!; [| |exact Hfr|by apply Hw'|exact Hv'].
    + f_equal. clear -Hpd. induction Hpd as [|c k cs ns Hc Hcs IH]; [done|]. simpl. f_equal; [|done].
      by eapply placed_count.
    + clear -Hpd. induction Hpd as [|c k cs ns Hc Hcs IH]; constructor; eauto.
Qed.

(** A top-level name other than the storage directory's is apart from the store. *)
Lemma storage_apart root s c :
  bs_baseDir s = root ++ [bytes_of_string ".storage"; bytes_of_string "chunks"] →
  c ≠ bytes_of_string ".storage" → apart (root ++ [c]) (bs_baseDir s).
Proof.
  intros -> Hne. split.
  - intros [k E]. rewrite <- app_assoc in E. apply app_inv_head in E. simpl in E. congruence.
  - intros H%prefix_length. rewrite !length_app in H. simpl in H. lia.
Qed.

Lemma storage_root f root s :
  store_wf f s → bs_baseDir s = root ++ [bytes_of_string ".storage"; bytes_of_string "chunks"] → base_ok f root.
Proof. intros Hw Hs q Hq. apply (wf_base _ _ Hw). rewrite Hs. etransitivity; [exact Hq|by eexists]. Qed.

(** C6: Writing a manifest to a directory. If the manifest's names are plain
    and distinct among siblings, none of the top-level names is the store's
    directory, no existing directory is in the way of a file nor a file in the
    way of a directory, and every listed chunk is in the store, then
    reconstructFiles succeeds and returns the number of files with at least
    one chunk; every such file holds exactly the concatenation of its chunks'
    contents (with the manifest's mode bits when non-zero), every directory
    exists; nothing but the manifest's paths changes, and the store still
    has the same contents. *)
Theorem reconstructFiles_correct (root : path) (s : BlobStore) (f : fs) (node : ManifestNode) :
  bs_baseDir s = root ++ [bytes_of_string ".storage"; bytes_of_string "chunks"] →
  store_wf f s → NoDup (pm_Name <$> pm_Children node) →
  Forall (λ c, plain_name (pm_Name c) ∧ pm_Name c ≠ bytes_of_string ".storage" ∧
               placeable root s f [pm_Name c] c) (pm_Children node) →
  ∃ f' n, reconstructFiles root (Some node) s f = (f', Ret n) ∧
    n = sum_list (map written_files (pm_Children node)) ∧
    Forall (λ c, ∃ k, placed root (view f s) f' [pm_Name c] c k) (pm_Children node) ∧
    (∀ q, Forall (λ c, off (root ++ [pm_Name c]) c q) (pm_Children node) → f' !! q = f !! q) ∧
    store_wf f' s ∧ (∀ h, long_hash h → view f' s h = view f s h).
Proof.
  intros Hs Hw Hd Hc. apply reconstructFiles_spec; [done|by eapply storage_root|done|].
  eapply Forall_impl; [exact Hc|]. intros c (? & Hne & ?). split_and!; [done|by apply storage_apart|done].
Qed.

(** C38: Two things reconstructFiles does with a manifest it should not accept or
    should not skip. A file without chunks, that is every empty file, is not
    created, and an existing file at its path keeps its old content. A name
    that starts with dot-dot and a slash is resolved lexically: a child named
    "../e" is written next to the synchronised directory, outside it. *)
Theorem reconstructFiles_gaps (parent : path) (d e : bytes) (s : BlobStore) (f : fs)
    (h hd : bytes) (md sz : Z) (nm : bytes) (data : bytes) :
  plain_name e → d ≠ e → store_wf f s →
  bs_baseDir s = (parent ++ [d]) ++ [bytes_of_string ".storage"; bytes_of_string "chunks"] →
  (∀ m, f !! (parent ++ [e]) ≠ Some (FDir m)) → long_hash h → view f s h = Some data →
  let empty := mkManifestNode nm false hd md sz [] [] in
  let evil := mkManifestNode (dotdot ++ [slash] ++ e) false hd md sz [] [h] in
  let manifest c := Some (mkManifestNode [] true hd md sz [c] []) in
  reconstructFiles (parent ++ [d]) (manifest empty) s f = (f, Ret 0) ∧
  ∃ m, reconstructFiles (parent ++ [d]) (manifest evil) s f = (<[parent ++ [e] := FFile data m]> f, Ret 1).
Proof.
  intros He Hde Hw Hs Hnd Hl Hv empty evil manifest. split; [done|].
  assert (Join (parent ++ [d]) [[]; dotdot ++ [slash] ++ e] = parent ++ [e]) as HJ.
  { unfold Join. cbn [fmap list_fmap concat]. rewrite app_nil_r.
    change (dotdot ++ [slash] ++ e) with (dotdot ++ slash :: e). rewrite split_slash_join.
    2:{ unfold dotdot. rewrite !not_elem_of_cons. split_and!; [done..|apply not_elem_of_nil]. }
    rewrite (split_slash_plain e) by apply He. simpl. rewrite clean_step_plain by done.
    unfold clean_step. simpl. by rewrite removelast_last. }
  destruct (write_file_at (parent ++ [d]) s (view f s) f [] (dotdot ++ [slash] ++ e) hd md sz [] [h] parent e)
    as (ds & m & Hds & Hmd & E); [done|exact HJ|done|done|..|done| |].
  - intros q Hq. apply (wf_base _ _ Hw). rewrite Hs. etransitivity; [exact Hq|].
    rewrite <- app_assoc. by eexists.
  - rewrite Hs. split.
    + intros [k Ek]. rewrite <- !app_assoc in Ek. apply app_inv_head in Ek. simpl in Ek. congruence.
    + intros Hpre%prefix_length. rewrite !length_app in Hpre. simpl in Hpre. lia.
  - apply Forall_singleton. by rewrite Hv.
  - inversion Hds as [|? x ? ? Hx Hnil]; subst. inversion Hnil; subst. rewrite Hv in Hx. injection Hx as <-.
    exists m. unfold reconstructFiles, manifest, evil. cbn [pm_Children reconstruct_list]. rewrite E.
    simpl. by rewrite app_nil_r.
Qed.

(** ** Witnesses *)
Module ReconstructExample.
#[local] Existing Instance sha256_fips.

Definition str := bytes_of_string.
Definition root : path := [str "d"].
Definition st0 : fs * outcome store_error BlobStore := NewBlobStore ∅ root [].
Definition store : BlobStore := mkBlobStore (resolve root DefaultStorageDir).
Definition hello : Chunk := make_chunk (str "hello").

Lemma new_store : st0 = (st0.1, Ret store).
Proof. assert (st0.2 = Ret store) as <- by (vm_compute; reflexivity). apply surjective_pairing. Qed.

Lemma new_store_empty : sim st0.1 store ∅.
Proof. apply (NewBlobStore_sim ∅ root []); [apply new_store|]. intros q _ _. apply lookup_empty. Qed.

Definition disk : fs := (Put st0.1 store hello no_faults).1.

Lemma disk_store : store_wf disk store ∧ view disk store (ch_Hash hello) = Some (str "hello").
Proof.
  pose proof (Put_spec st0.1 store hello no_faults (proj1 new_store_empty) (sha256_long _)) as (Hw & Hv & _).
  pose proof (Put_reliable st0.1 store hello (proj1 new_store_empty) (sha256_long _)) as Hr.
  destruct new_store_empty as [_ He]. rewrite He, (bool_decide_eq_true_2 _ eq_refl) in Hr by apply sha256_long.
  specialize (Hv (ch_Hash hello) (sha256_long _)).
  rewrite decide_True in Hv by (split; [reflexivity|exact Hr]). split; [exact Hw|exact Hv].
Qed.

(** A directory "s" with the file "a" of two equal chunks, and an empty file. *)
Definition manifest : ManifestNode :=
  mkManifestNode (str "remote") true [] 493 0
    [mkManifestNode (str "s") true [] 493 0
       [mkManifestNode (str "a") false [] 420 10 [] [ch_Hash hello; ch_Hash hello]] [];
     mkManifestNode (str "e") false [] 420 0 [] []] [].

Lemma manifest_placeable :
  Forall (λ c, plain_name (pm_Name c) ∧ pm_Name c ≠ bytes_of_string ".storage" ∧
               placeable root store disk [pm_Name c] c) (pm_Children manifest).
Proof.
  assert (∀ s, bool_decide (plain_name s) = true → plain_name s) as Hp by (intros s; apply bool_decide_eq_true).
  repeat constructor.
  all: try (apply Hp; vm_compute; reflexivity).
  all: try (vm_compute; congruence).
  all: try apply sha256_long.
  all: try (simpl pm_Name; intros; vm_compute; congruence).
  all: try (rewrite (proj2 disk_store); eauto).
  all: apply not_elem_of_nil.
Qed.

Lemma reconstructFiles_correct_witness :
  ∃ f' n, reconstructFiles root (Some manifest) store disk = (f', Ret n) ∧ n = 1.
Proof.
  destruct (reconstructFiles_correct root store disk manifest) as (f' & n & E & Hn & _).
  - reflexivity.
  - apply disk_store.
  - apply (bool_decide_unpack _). vm_compute. exact I.
  - apply manifest_placeable.
  - exists f', n. split; [exact E|exact Hn].
Defined.

Example file_written :
  (reconstructFiles root (Some manifest) store disk).1 !! [str "d"; str "s"; str "a"]
  = Some (FFile (str "hellohello") 420).
Proof. vm_compute. reflexivity. Qed.

Lemma reconstructFiles_gaps_witness :
  ∃ m, (reconstructFiles root
     (Some (mkManifestNode [] true [] 420 5 [mkManifestNode (str "../e") false [] 420 5 [] [ch_Hash hello]] []))
     store disk).1 = <[[str "e"] := FFile (str "hello") m]> disk.
Proof.
  destruct (reconstructFiles_gaps [] (str "d") (str "e") store disk (ch_Hash hello) [] 420 5 (str "x") (str "hello"))
    as [_ [m Hm]].
  - apply (bool_decide_unpack _). vm_compute. exact I.
  - vm_compute. congruence.
  - apply disk_store.
  - reflexivity.
  - intros m. vm_compute. congruence.
  - apply sha256_long.
  - apply disk_store.
  - exists m. exact (f_equal fst Hm).
Defined.
End ReconstructExample.
