(* ===== verification/Index.v ===== *)
(** * Indexing a directory into the store ([indexDirectory] of the command line)

    The walk visits the directory in lexical order, skips what starts with a
    dot, and puts the chunks of every file into the store, which lies in a
    hidden directory of the same file system. A failing [Put] abandons the
    file, not the walk. *)
From Stdlib Require Import Strings.Byte Strings.String.
From S2P Require Import Prelude Sha256 Fs Chunk ChunkStore BlobStore StoreSpec Merkle MerkleSpec DiffSpec Build Manifest DiffTrees Reconstruct Wire.

Record index_state := mkIndex {
  ix_fs : fs;
  ix_faults : list faults;
  ix_files : nat;
  ix_chunks : nat;
}.

Section index.
Context `{HashFn}.

(** The chunk loop of one file: [true] when the end of the file is reached. *)
Fixpoint index_chunks (fuel : nat) (s : BlobStore) (r : stream) (st : index_state) : index_state * bool :=
  match fuel with
  | O => (st, false)
  | S fuel' =>
      match Next r with
      | (Err NextEOF, _) => (st, true)
      | (Ret c, r') =>
          match Put (ix_fs st) s c (default no_faults (head (ix_faults st))) with
          | (f', Ret _) => index_chunks fuel' s r' (mkIndex f' (tail (ix_faults st)) (ix_files st) (S (ix_chunks st)))
          | (f', _) => (mkIndex f' (tail (ix_faults st)) (ix_files st) (ix_chunks st), false)
          end
      | _ => (st, false)
      end
  end.

Definition index_file (s : BlobStore) (content : bytes) (st : index_state) : index_state :=
  match index_chunks (S (length content)) s (stream_of content) st with
  | (st', true) => mkIndex (ix_fs st') (ix_faults st') (S (ix_files st')) (ix_chunks st')
  | (st', false) => st'
  end.

(** [filepath.Walk] with the walk function of [indexDirectory]: a directory
    that cannot be listed and a file that cannot be opened ([unreadable]) are
    passed over without an error. *)
Fixpoint index_walk (unreadable : path → bool) (fuel : nat) (s : BlobStore) (p : path) (info : fnode)
    (st : index_state) : index_state :=
  match fuel with
  | O => st
  | S fuel' =>
      if unreadable p then st
      else if hidden (info_name p) then st
      else match info with
           | FFile c _ => index_file s c st
           | FDir _ =>
               foldl (λ st name,
                        match ix_fs st !! (p ++ [name]) with
                        | Some info => index_walk unreadable fuel' s (p ++ [name]) info st
                        | None => st
                        end) st (ReadDir (ix_fs st) p)
           end
  end.

Definition indexDirectory (unreadable : path → bool) (f : fs) (dir : path) (s : BlobStore) (fts : list faults)
    : index_state :=
  let st := mkIndex f fts 0 0 in
  match f !! dir with
  | Some info => index_walk unreadable (S (max_depth f)) s dir info st
  | None => st
  end.

(** [OnChunkRequest] of the serve command. *)
Definition serve_chunks (f : fs) (s : BlobStore) (req : ChunkRequest) : ChunkResponse :=
  foldl (λ resp h,
    match Get f s h with
    | Ret c => mkChunkResponse (cr_Chunks resp ++ [mkProtoChunk h (ch_Data c) (u32 (Z.of_nat (length (ch_Data c))))])
                 (cr_NotFound resp)
    | _ => mkChunkResponse (cr_Chunks resp) (cr_NotFound resp ++ [h])
    end) (mkChunkResponse [] []) (cq_ChunkHashes req).

(** ** Frame: a [Put] only touches what lies below the base directory *)
Lemma Put_frame f s c ft q :
  store_wf f s → long_hash (ch_Hash c) → ¬ bs_baseDir s `prefix_of` q → (Put f s c ft).1 !! q = f !! q.
Proof.
  intros Hw Hl Hq. pose proof (Put_cases f s c ft Hw Hl) as He.
  assert (∀ k, bs_baseDir s ++ k ≠ q) as Hne by (intros k <-; apply Hq; by eexists).
  assert (with_dir f s (ch_Hash c) !! q = f !! q) as Hd by (apply with_dir_other; intros ->; by eapply Hne).
  destruct He as [d Hv|f' e Hv Hft Hf|m Hv]; [done| |].
  - destruct Hf as [->|[->|[->|(_ & d & m & ->)]]]; [done|done|..].
    + by rewrite lookup_delete_ne.
    + by rewrite lookup_insert_ne.
  - rewrite lookup_insert_ne, lookup_delete_ne by done. done.
Qed.

(** ** A [Put] keeps the file system well formed *)
Lemma fs_wf_insert f p x n :
  fs_wf f → plain_name x → (∃ m, f !! p = Some (FDir m)) →
  (is_dir n = true ∨ ∀ m, f !! (p ++ [x]) ≠ Some (FDir m)) → fs_wf (<[p ++ [x] := n]> f).
Proof.
  intros Hf Hx [m Hm] Hn q k. rewrite lookup_insert. case_decide as E.
  - intros _. subst q. split.
    + apply Forall_app. split; [by apply (Hf _ _ Hm)|by constructor].
    + intros r Hr Hne. rewrite lookup_insert_ne by done. apply prefix_one in Hr; [|done].
      destruct (decide (r = p)) as [->|Hrp]; [eauto|]. by apply (Hf _ _ Hm).
  - intros Hq. destruct (Hf _ _ Hq) as [Hpl Ha]. split; [done|]. apply dirs_above_insert; [done|].
    intros [l ->]. destruct l as [|y l]; [by rewrite app_nil_r in E|]. right.
    destruct Hn as [|Hn]; [done|]. destruct (fs_wf_above _ _ _ _ _ Hf Hq) as [m' Hm']. by destruct (Hn m').
Qed.

Lemma fs_wf_delete f p : fs_wf f → (∀ m, f !! p ≠ Some (FDir m)) → fs_wf (delete p f).
Proof.
  intros Hf Hp q n [Hne Hq]%lookup_delete_Some. destruct (Hf _ _ Hq) as [Hpl Ha]. split; [done|].
  apply dirs_above_delete; [done|]. intros [[|x l] ->]; [by rewrite app_nil_r|].
  destruct (fs_wf_above _ _ _ _ _ Hf Hq) as [m Hm]. by destruct (Hp m).
Qed.

Lemma fs_wf_with_dir f s h : fs_wf f → store_wf f s → long_hash h → fs_wf (with_dir f s h).
Proof.
  intros Hf Hw Hl. unfold with_dir. destruct (f !! _) eqn:E; [done|].
  apply fs_wf_insert; [done|by apply pfx_sfx_plain|by apply (wf_base _ _ Hw)|by left].
Qed.

Lemma fs_wf_Put f s c : fs_wf f → store_wf f s → long_hash (ch_Hash c) → fs_wf (Put f s c no_faults).1.
Proof.
  intros Hf Hw Hl. pose proof (Put_cases f s c no_faults Hw Hl) as He.
  destruct He as [d Hv|f' e Hv Hft|m Hv]; [done..|].
  assert (store_wf (with_dir f s (ch_Hash c)) s) as Hw' by by apply wf_with_dir.
  destruct (with_dir_dir f s (ch_Hash c) Hw Hl) as [md Hd].
  assert (∀ x, x ≠ sfx (ch_Hash c) → bs_baseDir s ++ [pfx (ch_Hash c); x] ≠ (bs_baseDir s ++ [pfx (ch_Hash c)]) ++ [sfx (ch_Hash c)])
    as Hne by (intros x Hx E; rewrite <- app_assoc in E; apply app_inv_head in E; simpl in E; congruence).
  rewrite app_two. apply fs_wf_insert.
  - apply fs_wf_delete; [by apply fs_wf_with_dir|]. intros k. by apply (wf_tmp _ _ Hw').
  - by apply pfx_sfx_plain.
  - exists md. rewrite lookup_delete_ne; [done|]. apply dst_neq_dir.
  - right. intros k. rewrite lookup_delete_ne.
    + rewrite <- app_two. by apply (wf_chunk _ _ Hw').
    + apply Hne. intros E. by apply (sfx_not_tmp (ch_Hash c) (sfx (ch_Hash c))).
Qed.

(** ** The invariant of the walk *)
Section invariant.
Context (f0 : fs) (s : BlobStore).

(** A chunk of some file, or a stored content, of the initial file system. *)
Definition known (x : bytes) : Prop :=
  (∃ p c m, f0 !! p = Some (FFile c m) ∧ x ∈ chunks_of ChunkSize c) ∨
  (∃ h, long_hash h ∧ view f0 s h = Some x).

Definition no_collisions : Prop := ∀ x y, known x → known y → sha256 x = sha256 y → x = y.

Definition walk_inv (f : fs) : Prop :=
  fs_wf f ∧ store_wf f s ∧ content_addressed f s ∧
  (∀ q, ¬ bs_baseDir s `prefix_of` q → f !! q = f0 !! q) ∧
  (∀ h x, long_hash h → view f s h = Some x → known x).

Definition grows (f f' : fs) : Prop :=
  ∀ h x, long_hash h → view f s h = Some x → view f' s h = Some x.

Lemma preserved_grows (R : Prop) f f' : R → preserved R s f f' → grows f f'.
Proof. intros HR Hp h x Hh Hx. destruct (Hp h x Hh Hx) as (y & Hy & _ & Ey). by rewrite <- (Ey HR). Qed.

Lemma put_known f d :
  no_collisions → walk_inv f → known d →
  let r := Put f s (make_chunk d) no_faults in
  walk_inv r.1 ∧ grows f r.1 ∧ view r.1 s (sha256 d) = Some d ∧ ∃ b, r.2 = Ret b.
Proof.
  intros Hnc (Hwf & Hw & Hca & Hfr & Hk) Hd r.
  pose proof (Put_make_chunk f s d no_faults Hw Hca) as (P1 & P2 & P3 & P4). fold r in P1, P2, P3, P4.
  apply preserved_grows in P3; [|done].
  pose proof (Put_reliable f s (make_chunk d) Hw (sha256_long d)) as P5. fold r in P5.
  pose proof (Put_spec f s (make_chunk d) no_faults Hw (sha256_long d)) as (_ & P6 & _). fold r in P6.
  specialize (P6 _ (sha256_long d)). change (ch_Hash (make_chunk d)) with (sha256 d) in *.
  split_and!; [split_and!; [|done|done|..]|done| |by eexists].
  - apply fs_wf_Put; [done|done|apply sha256_long].
  - intros q Hq. rewrite <- (Hfr q Hq). apply Put_frame; [done|apply sha256_long|done].
  - intros h x Hh Hx. destruct (P4 h x Hh Hx) as [Ho| ->]; [by eapply Hk|done].
  - rewrite P6. destruct (view f s (sha256 d)) as [x|] eqn:E; [|by rewrite decide_True].
    rewrite decide_False by (rewrite P5; by intros [_ [=]]). f_equal.
    apply Hnc; [by eapply Hk, E; apply sha256_long|done|]. by apply Hca, E; apply sha256_long.
Qed.

Lemma index_chunks_spec fuel l st :
  no_collisions → walk_inv (ix_fs st) → ix_faults st = [] → length l < fuel →
  Forall known (chunks_of ChunkSize l) →
  ∃ st', index_chunks fuel s (stream_of l) st = (st', true) ∧
    walk_inv (ix_fs st') ∧ ix_faults st' = [] ∧ grows (ix_fs st) (ix_fs st') ∧
    ∀ d, d ∈ chunks_of ChunkSize l → view (ix_fs st') s (sha256 d) = Some d.
Proof.
  intros Hnc. revert l st. induction fuel as [|fuel IH]; intros l st Hi Hft Hf Hkn; [lia|]. cbn [index_chunks].
  destruct (decide (l = [])) as [->|Hl].
  { unfold stream_of. rewrite Next_end. exists st. split_and!; [done..|by intros h x|].
    rewrite chunks_of_nil. by intros d ?%not_elem_of_nil. }
  pose proof ChunkSize_pos. assert (length l ≠ 0) by by destruct l.
  rewrite chunks_of_cons in Hkn |- * by done. apply Forall_cons in Hkn as [Hd Hkn].
  unfold stream_of. rewrite Next_step by auto. set (d := take ChunkSize l) in *. rewrite Hft. cbn [head default].
  destruct (put_known (ix_fs st) d Hnc Hi Hd) as (P1 & P2 & P3 & b & P4).
  destruct (Put (ix_fs st) s (make_chunk d) no_faults) as [f1 r1]. cbn [fst snd] in *. subst r1.
  change (Stream ?x None) with (stream_of x).
  destruct (IH (drop ChunkSize l) (mkIndex f1 (tail []) (ix_files st) (S (ix_chunks st)))) as (st' & E & K1 & K2 & K3 & K4);
    [done|done|rewrite length_drop; lia|done|].
  exists st'. split_and!; [exact E|done|done|..].
  - intros h x Hh Hx. by apply K3, P2.
  - intros x [->|Hx]%elem_of_cons; [|by apply K4]. by apply K3; [apply sha256_long|].
Qed.

Lemma index_file_spec p c m st :
  no_collisions → walk_inv (ix_fs st) → ix_faults st = [] → f0 !! p = Some (FFile c m) →
  let st' := index_file s c st in
  walk_inv (ix_fs st') ∧ ix_faults st' = [] ∧ grows (ix_fs st) (ix_fs st') ∧
  ∀ d, d ∈ chunks_of ChunkSize c → view (ix_fs st') s (sha256 d) = Some d.
Proof.
  intros Hnc Hi Hft Hp.
  destruct (index_chunks_spec (S (length c)) c st Hnc Hi Hft ltac:(lia)) as (st' & E & P1 & P2 & P3 & P4).
  { apply Forall_forall. intros x Hx. left. eauto. }
  unfold index_file. rewrite E. done.
Qed.
(** ** The walk *)
Context (root : path) (store_dir : bytes) (below : path).
Hypothesis base_hidden : bs_baseDir s = root ++ store_dir :: below ∧ hidden store_dir = true.

Lemma visible_outside q : visible q = true → ¬ bs_baseDir s `prefix_of` (root ++ q).
Proof.
  destruct base_hidden as [-> Hh]. intros Hv [k E]. rewrite <- app_assoc in E. apply app_inv_head in E.
  subst q. simpl in Hv. by rewrite Hh in Hv.
Qed.

(** What the walk below [p] establishes. *)
Definition indexed (p : path) (f : fs) : Prop :=
  ∀ q c m d, visible q = true → f0 !! (p ++ q) = Some (FFile c m) → d ∈ chunks_of ChunkSize c →
    view f s (sha256 d) = Some d.

Definition step_ok (p : path) (st st' : index_state) : Prop :=
  walk_inv (ix_fs st') ∧ ix_faults st' = [] ∧ grows (ix_fs st) (ix_fs st') ∧ indexed p (ix_fs st').

Lemma grows_refl f : grows f f.
Proof. by intros h x. Qed.

Lemma grows_trans f1 f2 f3 : grows f1 f2 → grows f2 f3 → grows f1 f3.
Proof. intros Ha Hb h x Hh Hx. by apply Hb, Ha. Qed.

Lemma indexed_grows p f f' : grows f f' → indexed p f → indexed p f'.
Proof. intros Hg Hi q c m d Hv Hq Hd. apply Hg; [apply sha256_long|]. by eapply Hi. Qed.

Lemma walk_fold fuel q names st :
  visible q = true → walk_inv (ix_fs st) → ix_faults st = [] →
  (∀ c info st, c ∈ names → hidden c = false → f0 !! (root ++ q ++ [c]) = Some info →
     walk_inv (ix_fs st) → ix_faults st = [] →
     step_ok (root ++ q ++ [c]) st (index_walk (λ _, false) fuel s (root ++ q ++ [c]) info st)) →
  (∀ c info st, hidden c = true → index_walk (λ _, false) fuel s (root ++ q ++ [c]) info st = st) →
  let st' := foldl (λ st name,
                match ix_fs st !! ((root ++ q) ++ [name]) with
                | Some info => index_walk (λ _, false) fuel s ((root ++ q) ++ [name]) info st
                | None => st
                end) st names in
  walk_inv (ix_fs st') ∧ ix_faults st' = [] ∧ grows (ix_fs st) (ix_fs st') ∧
  ∀ c, c ∈ names → hidden c = false → is_Some (f0 !! (root ++ q ++ [c])) → indexed (root ++ q ++ [c]) (ix_fs st').
Proof.
  intros Hq Hi Hft Hstep Hhid. revert st Hi Hft. induction names as [|c names IH]; intros st Hi Hft.
  { split_and!; [done|done|apply grows_refl|]. by intros c ?%not_elem_of_nil. }
  cbn [foldl].
  set (st1 := match ix_fs st !! ((root ++ q) ++ [c]) with
              | Some info => index_walk (λ _, false) fuel s ((root ++ q) ++ [c]) info st | None => st end).
  assert (walk_inv (ix_fs st1) ∧ ix_faults st1 = [] ∧ grows (ix_fs st) (ix_fs st1) ∧
          (hidden c = false → is_Some (f0 !! (root ++ q ++ [c])) → indexed (root ++ q ++ [c]) (ix_fs st1)))
    as (Ha & Hb & Hc & Hd).
  { unfold st1. rewrite <- app_assoc. destruct (hidden c) eqn:Eh.
    - destruct (ix_fs st !! (root ++ q ++ [c])); [rewrite Hhid by done|]; (split_and!; [done|done|apply grows_refl|done]).
    - pose proof Hi as (_ & _ & _ & Hfr & _). rewrite Hfr.
      2:{ apply visible_outside. unfold visible. rewrite forallb_app. simpl. by rewrite Eh, andb_true_r. }
      destruct (f0 !! (root ++ q ++ [c])) as [info|] eqn:Ei.
      + destruct (Hstep c info st) as (? & ? & ? & ?); [by left|done..|]. done.
      + split_and!; [done|done|apply grows_refl|]. by intros _ [? ?]. }
  destruct (IH) with (st := st1) as (Ka & Kb & Kc & Kd); [|done|done|].
  { intros c' info' st' Hin. apply Hstep. by right. }
  split_and!; [exact Ka|exact Kb|by eapply grows_trans|].
  intros c' [->|Hin]%elem_of_cons Hh Hs; [|by apply Kd]. eapply indexed_grows; [exact Kc|]. by apply Hd.
Qed.

Lemma index_walk_hidden fuel p c info st : hidden c = true → index_walk (λ _, false) fuel s (p ++ [c]) info st = st.
Proof. intros Hc. destruct fuel; [done|]. cbn [index_walk]. by rewrite info_name_snoc, Hc. Qed.

Lemma index_walk_spec fuel q info st :
  no_collisions → fs_wf f0 → visible q = true → hidden (info_name (root ++ q)) = false →
  f0 !! (root ++ q) = Some info →
  (∀ k, visible k = true → is_Some (f0 !! (root ++ q ++ k)) → length k < fuel) →
  walk_inv (ix_fs st) → ix_faults st = [] →
  step_ok (root ++ q) st (index_walk (λ _, false) fuel s (root ++ q) info st).
Proof.
  intros Hnc Hfs. revert q info st. induction fuel as [|fuel IH]; intros q info st Hq Hh Hp Hf Hi Hft.
  { specialize (Hf [] eq_refl). rewrite app_nil_r, Hp in Hf.
    specialize (Hf ltac:(by eexists)). simpl in Hf. lia. }
  cbn [index_walk]. rewrite Hh. destruct info as [c m|m].
  - destruct (index_file_spec (root ++ q) c m st Hnc Hi Hft Hp) as (Ha & Hb & Hc & Hd).
    split_and!; [done..|]. intros k c' m' d Hk Hf' Hin.
    destruct k as [|x k]; [rewrite app_nil_r in Hf'; rewrite Hp in Hf'; injection Hf' as <- <-; by apply Hd|].
    exfalso. destruct (fs_wf_above _ _ _ _ _ Hfs Hf'). congruence.
  - destruct (walk_fold fuel q (ReadDir (ix_fs st) (root ++ q)) st Hq Hi Hft) as (Ha & Hb & Hc & Hd).
    + intros c info st' Hc Hhc Hi' Hw' Hf'. apply IH; [| |done| |done|done].
      * unfold visible. rewrite forallb_app. simpl. by rewrite Hhc, andb_true_r.
      * by rewrite app_assoc, info_name_snoc.
      * intros k Hk Hs. specialize (Hf (c :: k)). cbn [visible forallb length] in Hf. rewrite Hhc in Hf.
        rewrite <- app_assoc in Hs. apply Hf in Hk; [lia|done].
    + intros c info' st' Hc. rewrite app_assoc. by apply index_walk_hidden.
    + split_and!; [exact Ha|exact Hb|exact Hc|]. intros k c' m' d Hk Hf' Hin.
      destruct k as [|x k]; [rewrite app_nil_r in Hf'; congruence|].
      cbn [visible forallb] in Hk. apply andb_true_iff in Hk as [Hx Hk]. apply negb_true_iff in Hx.
      assert (is_Some (f0 !! (root ++ q ++ [x]))) as Hs.
      { rewrite app_assoc. destruct k as [|y k]; [by rewrite Hf'|].
        rewrite (app_assoc (root ++ q) [x] (y :: k) : (root ++ q) ++ x :: y :: k = _) in Hf'.
        by destruct (fs_wf_above _ _ _ _ _ Hfs Hf') as [? ->]. }
      apply (Hd x) with (q := k) (c := c') (m := m'); [|done|done|done| |done].
      * apply ReadDir_elem. destruct Hi as (_ & _ & _ & Hfr & _). rewrite <- app_assoc, Hfr; [done|].
        apply visible_outside. unfold visible. rewrite forallb_app. simpl. by rewrite Hx, andb_true_r.
      * rewrite <- app_assoc in Hf'. by rewrite <- !app_assoc.
Qed.
End invariant.

(** ** Serving chunks *)
Definition proto_chunk (h d : bytes) : ProtoChunk := mkProtoChunk h d (u32 (Z.of_nat (length d))).

Lemma serve_chunks_spec f s hs pr :
  store_wf f s → Forall long_hash hs →
  serve_chunks f s (mkChunkRequest hs pr) =
  mkChunkResponse (omap (λ h, proto_chunk h <$> view f s h) hs) (filter (λ h, view f s h = None) hs).
Proof.
  intros Hw Hl. unfold serve_chunks. cbn [cq_ChunkHashes].
  assert (∀ cs nf, foldl (λ resp h,
    match Get f s h with
    | Ret c => mkChunkResponse (cr_Chunks resp ++ [mkProtoChunk h (ch_Data c) (u32 (Z.of_nat (length (ch_Data c))))])
                 (cr_NotFound resp)
    | _ => mkChunkResponse (cr_Chunks resp) (cr_NotFound resp ++ [h])
    end) (mkChunkResponse cs nf) hs =
    mkChunkResponse (cs ++ omap (λ h, proto_chunk h <$> view f s h) hs) (nf ++ filter (λ h, view f s h = None) hs)) as Hf.
  2:{ apply (Hf [] []). }
  induction Hl as [|h hs Hh Hl IH]; intros cs nf; cbn [foldl omap list_omap].
  { by rewrite !app_nil_r. }
  rewrite (Get_spec f s h Hw Hh), filter_cons. destruct (view f s h) as [d|]; cbn [fmap option_fmap option_map].
  - rewrite decide_False by done. rewrite IH. cbn [cr_Chunks cr_NotFound ch_Data]. by rewrite <- app_assoc.
  - rewrite decide_True by done. rewrite IH. cbn [cr_Chunks cr_NotFound]. by rewrite <- app_assoc.
Qed.

Lemma serve_all_found f s ds pr :
  store_wf f s → (∀ d, d ∈ ds → view f s (sha256 d) = Some d) →
  serve_chunks f s (mkChunkRequest (sha256 <$> ds) pr) =
  mkChunkResponse ((λ d, proto_chunk (sha256 d) d) <$> ds) [].
Proof.
  intros Hw Hv. rewrite serve_chunks_spec; [|done|apply Forall_fmap, Forall_true; intros; apply sha256_long].
  induction ds as [|d ds IH]; [done|]. cbn [fmap list_fmap omap list_omap]. rewrite filter_cons.
  rewrite (Hv d) by by left. rewrite decide_False by done. cbn [fmap option_fmap option_map].
  assert (∀ x, x ∈ ds → view f s (sha256 x) = Some x) as Hds by (intros x Hx; apply Hv; by right).
  apply IH in Hds. injection Hds as Ea Eb. unfold fmap in *. by rewrite Ea, Eb.
Qed.

(** The file that a file node of a built tree stands for. *)
Lemma tree_of_file f root node p m :
  tree_of f root node → node_at node p = Some m → n_Type m = NodeTypeFile →
  visible p = true ∧ ∃ c md, f !! (root ++ p) = Some (FFile c md) ∧ n_Chunks m = sha256 <$> chunks_of ChunkSize c.
Proof.
  intros Ht Hp Hm. specialize (Ht p). rewrite Hp in Ht. destruct Ht as (Hv & e & He & _ & Hn). split; [done|].
  destruct e as [c md|md]; [|congruence]. destruct Hn as (_ & Hc & _). eauto.
Qed.

(** The whole index run. *)
(** Indexing a state that an index run from [f] has left, [f] itself among
    them. *)
Lemma reindex_spec f s root store_dir below md g :
  fs_wf f → no_collisions f s →
  bs_baseDir s = root ++ store_dir :: below ∧ hidden store_dir = true →
  f !! root = Some (FDir md) → hidden (info_name root) = false → walk_inv f s g →
  let st := indexDirectory (λ _, false) g root s [] in
  walk_inv f s (ix_fs st) ∧ ix_faults st = [] ∧ grows s g (ix_fs st) ∧ indexed f s root (ix_fs st).
Proof.
  intros Hf Hnc Hb Hr Hrh Hi. pose proof Hi as (_ & _ & _ & Hfr & _).
  assert (∀ k, visible k = true → g !! (root ++ k) = f !! (root ++ k)) as Hg
    by (intros k Hk; by apply Hfr, (visible_outside s root store_dir below Hb)).
  unfold indexDirectory. pose proof (Hg [] eq_refl) as Hg0. rewrite !app_nil_r, Hr in Hg0. rewrite Hg0.
  pose proof (index_walk_spec f s root store_dir below Hb (S (max_depth g)) [] (FDir md) (mkIndex g [] 0 0)) as Hx.
  rewrite app_nil_r in Hx. apply Hx; auto. intros k Hk [n Hn]. simpl in Hn. rewrite <- Hg in Hn by done.
  apply max_depth_spec in Hn. rewrite length_app in Hn. lia.
Qed.

Lemma indexDirectory_spec f s root store_dir below md :
  fs_wf f → store_wf f s → content_addressed f s → no_collisions f s →
  bs_baseDir s = root ++ store_dir :: below ∧ hidden store_dir = true →
  f !! root = Some (FDir md) → hidden (info_name root) = false →
  let st := indexDirectory (λ _, false) f root s [] in
  walk_inv f s (ix_fs st) ∧ ix_faults st = [] ∧ grows s f (ix_fs st) ∧ indexed f s root (ix_fs st).
Proof.
  intros Hf Hw Hca Hnc Hb Hr Hrh. eapply reindex_spec; [done..|].
  split_and!; [done..|]. intros h x Hl Hx. right. eauto.
Qed.

(** A well-formed directory is built into a tree. *)
Lemma build_readable f root md :
  fs_wf f → f !! root = Some (FDir md) →
  ∃ node, BuildFromFS (λ _, false) f root = Ret (mkTree (Some node)) ∧ node_wf node ∧ tree_of f root node.
Proof.
  intros Hf Hr. by apply (BuildFromFS_tree _ f root md).
Qed.

(** The tree after the index run stands for the files before it. *)
Lemma indexed_tree f s root store_dir below md f' :
  bs_baseDir s = root ++ store_dir :: below ∧ hidden store_dir = true →
  f !! root = Some (FDir md) → walk_inv f s f' →
  ∃ node, BuildFromFS (λ _, false) f' root = Ret (mkTree (Some node)) ∧ node_wf node ∧
    tree_of f root node ∧ tree_of f' root node.
Proof.
  intros Hb Hr (Hf' & _ & _ & Hfr & _).
  assert (f' !! root = Some (FDir md)) as Hr'.
  { rewrite Hfr; [done|]. intros Hp%prefix_length. rewrite (proj1 Hb), length_app in Hp. simpl in Hp. lia. }
  destruct (build_readable f' root md Hf' Hr') as (node & E & Hw & Ht). exists node. split_and!; [done|done| |done].
  intros p. specialize (Ht p). destruct (node_at node p) as [m|].
  - destruct Ht as [Hv He]. split; [done|]. rewrite Hfr in He; [done|]. by eapply visible_outside.
  - intros Hv. rewrite <- Hfr; [by apply Ht|]. by eapply visible_outside.
Qed.

(** C8: A peer can serve what its manifest announces. After a fault-free
    indexDirectory of a directory whose own name does not start with a dot,
    with the store in a hidden directory below it, BuildFromFS succeeds and its
    tree stands for the visible files as they were before; and a ChunkRequest
    for the chunk list of any file of that tree is answered with every chunk,
    in order, under the requested hash, none reported missing, the data
    concatenating to the content of the file. The store stays well formed and
    content addressed, keeps all it had, and nothing outside it changes. *)
Theorem index_then_serve (f : fs) (s : BlobStore) (root : path) (store_dir : bytes) (below : path) (md : Z) :
  fs_wf f → store_wf f s → content_addressed f s → no_collisions f s →
  bs_baseDir s = root ++ store_dir :: below → hidden store_dir = true →
  f !! root = Some (FDir md) → hidden (info_name root) = false →
  let f' := ix_fs (indexDirectory (λ _, false) f root s []) in
  (∃ node, BuildFromFS (λ _, false) f' root = Ret (mkTree (Some node)) ∧ tree_of f root node ∧
     ∀ p m pr, node_at node p = Some m → n_Type m = NodeTypeFile →
       ∃ c cmd ds, f !! (root ++ p) = Some (FFile c cmd) ∧ concat ds = c ∧ n_Chunks m = sha256 <$> ds ∧
         serve_chunks f' s (mkChunkRequest (n_Chunks m) pr) =
         mkChunkResponse ((λ d, proto_chunk (sha256 d) d) <$> ds) []) ∧
  store_wf f' s ∧ content_addressed f' s ∧ grows s f f' ∧
  (∀ q, ¬ bs_baseDir s `prefix_of` q → f' !! q = f !! q).
Proof.
  intros Hf Hw Hca Hnc Hb Hh Hr Hrh f'.
  destruct (indexDirectory_spec f s root store_dir below md Hf Hw Hca Hnc (conj Hb Hh) Hr Hrh)
    as (Hi & _ & Hg & Hix). fold f' in Hi, Hg, Hix.
  destruct (indexed_tree f s root store_dir below md f' (conj Hb Hh) Hr Hi) as (node & E & _ & Ht0 & _).
  destruct Hi as (Hf' & Hw' & Hca' & Hfr & _). split_and!; [|done..].
  exists node. split_and!; [done|done|]. intros p m pr Hp Hm.
  destruct (tree_of_file f root node p m Ht0 Hp Hm) as (Hv & c & cmd & Hc & Hch).
  exists c, cmd, (chunks_of ChunkSize c). split_and!; [done| |done|].
  - apply concat_chunks_of, ChunkSize_pos.
  - rewrite Hch. apply serve_all_found; [done|]. intros d Hd. by apply (Hix p c cmd d).
Qed.

(** A directory whose own name starts with a dot is announced but not
    served: indexDirectory skips it whole and leaves the file system as it is,
    while BuildFromFS lists its visible files; so with an empty store every
    chunk of every file in the tree is answered as not found. *)
Theorem hidden_root_not_served (f : fs) (s : BlobStore) (root : path) (md : Z) (fts : list faults) :
  fs_wf f → store_wf f s → (∀ h, long_hash h → view f s h = None) →
  f !! root = Some (FDir md) → hidden (info_name root) = true →
  let f' := ix_fs (indexDirectory (λ _, false) f root s fts) in
  f' = f ∧
  ∃ node, BuildFromFS (λ _, false) f' root = Ret (mkTree (Some node)) ∧ tree_of f root node ∧
    ∀ p m pr, node_at node p = Some m → n_Type m = NodeTypeFile →
      serve_chunks f' s (mkChunkRequest (n_Chunks m) pr) = mkChunkResponse [] (n_Chunks m).
Proof.
  intros Hf Hw He Hr Hh f'.
  assert (f' = f) as -> by (unfold f', indexDirectory; rewrite Hr; cbn [index_walk]; by rewrite Hh).
  split; [done|]. destruct (build_readable f root md Hf Hr) as (node & -> & _ & Ht).
  exists node. split_and!; [done|done|]. intros p m pr Hp Hm.
  destruct (tree_of_file f root node p m Ht Hp Hm) as (Hv & c & cmd & Hc & ->).
  rewrite serve_chunks_spec; [|done|apply Forall_fmap, Forall_true; intros; apply sha256_long].
  induction (chunks_of ChunkSize c) as [|d ds IH]; [done|]. cbn [fmap list_fmap omap list_omap]. rewrite filter_cons.
  rewrite He by apply sha256_long. rewrite decide_True by done. cbn [fmap option_fmap option_map].
  injection IH as Ea Eb. unfold fmap in *. by rewrite Ea, Eb.
Qed.
End index.

(** ** An empty store, and witnesses *)
Lemma empty_store f s :
  fs_wf f → base_ok f (bs_baseDir s) → ReadDir f (bs_baseDir s) = [] →
  store_wf f s ∧ ∀ h, long_hash h → view f s h = None.
Proof.
  intros Hf Hb Hr.
  assert (∀ x k, f !! (bs_baseDir s ++ x :: k) = None) as Hn.
  { intros x k. destruct (f !! (bs_baseDir s ++ x :: k)) as [n|] eqn:E; [|done]. exfalso.
    assert (x ∈ ReadDir f (bs_baseDir s)) as Hx; [|by rewrite Hr in Hx; apply not_elem_of_nil in Hx].
    apply ReadDir_elem. destruct k as [|y k]; [by rewrite E|].
    rewrite (app_assoc _ [x] (y :: k) : bs_baseDir s ++ x :: y :: k = _) in E.
    destruct (fs_wf_above _ _ _ _ _ Hf E) as [m ->]. done. }
  split; [split|]; intros; rewrite ?Hn; try done; [by apply Hb|].
  unfold view. rewrite chunkPath_long by done. by rewrite Hn.
Qed.

Lemma base_ok_wf f p m : fs_wf f → f !! p = Some (FDir m) → base_ok f p.
Proof.
  intros Hf Hp q Hq. destruct (decide (q = p)) as [->|Hne]; [eauto|]. by apply (Hf _ _ Hp).
Qed.

Section collisions.
Context `{HashFn}.

Definition all_chunks (f : fs) : list bytes :=
  concat (map (λ kv, match kv.2 with FFile c _ => chunks_of ChunkSize c | FDir _ => [] end) (map_to_list f)).

Definition no_collisionsb (l : list bytes) : bool :=
  forallb (λ x, forallb (λ y, bool_decide (sha256 x = sha256 y → x = y)) l) l.

Lemma no_collisionsb_sound l : no_collisionsb l = true → ∀ x y, x ∈ l → y ∈ l → sha256 x = sha256 y → x = y.
Proof.
  intros Hb x y Hx Hy. unfold no_collisionsb in Hb. rewrite List.forallb_forall in Hb.
  apply list_elem_of_In in Hx, Hy. specialize (Hb x Hx). rewrite List.forallb_forall in Hb.
  specialize (Hb y Hy). by apply bool_decide_eq_true in Hb.
Qed.

Lemma known_chunks f s x : (∀ h, long_hash h → view f s h = None) → known f s x → x ∈ all_chunks f.
Proof.
  intros Hv [(p & c & m & Hp & Hz)|(h & Hl & Hz)]; [|by rewrite Hv in Hz].
  apply list_elem_of_In. unfold all_chunks. apply List.in_concat. exists (chunks_of ChunkSize c).
  split; [|by apply list_elem_of_In]. apply List.in_map_iff. exists (p, FFile c m). split; [done|].
  by apply list_elem_of_In, elem_of_map_to_list.
Qed.

Lemma no_collisions_check f s :
  (∀ h, long_hash h → view f s h = None) → no_collisionsb (all_chunks f) = true → no_collisions f s.
Proof. intros Hv Hb x y Hx Hy. apply (no_collisionsb_sound _ Hb); by eapply known_chunks. Qed.
End collisions.

Module IndexExample.
#[local] Existing Instance sha256_fips.

Definition str := bytes_of_string.
Definition disk (d : string) : fs := {[
  [] := FDir 493; [str d] := FDir 493; [str d; str "a"] := FFile (str "hello") 420;
  [str d; str ".storage"] := FDir 448; [str d; str ".storage"; str "chunks"] := FDir 448;
  [str d; str "sub"] := FDir 493; [str d; str "sub"; str "b"] := FFile (str "world") 384 ]}.
Definition store (d : string) : BlobStore := mkBlobStore [str d; str ".storage"; str "chunks"].

Lemma disk_checked d : bool_decide (plain_name (str d)) && fs_wfb (disk d) = true → fs_wf (disk d).
Proof. intros [_ Hd]%andb_true_iff. by apply fs_wfb_sound. Qed.

Lemma visible_wf : fs_wf (disk "d").
Proof. apply disk_checked. vm_compute. reflexivity. Qed.

Lemma dot_wf : fs_wf (disk ".d").
Proof. apply disk_checked. vm_compute. reflexivity. Qed.

Lemma visible_store : store_wf (disk "d") (store "d") ∧ ∀ h, long_hash h → view (disk "d") (store "d") h = None.
Proof.
  apply empty_store; [apply visible_wf| |vm_compute; reflexivity].
  apply (base_ok_wf _ _ 448); [apply visible_wf|vm_compute; reflexivity].
Qed.

Lemma dot_store : store_wf (disk ".d") (store ".d") ∧ ∀ h, long_hash h → view (disk ".d") (store ".d") h = None.
Proof.
  apply empty_store; [apply dot_wf| |vm_compute; reflexivity].
  apply (base_ok_wf _ _ 448); [apply dot_wf|vm_compute; reflexivity].
Qed.

Lemma visible_no_collisions : no_collisions (disk "d") (store "d").
Proof. apply no_collisions_check; [apply visible_store|vm_compute; reflexivity]. Qed.

Lemma visible_addressed : content_addressed (disk "d") (store "d").
Proof. intros h d Hh Hd. by rewrite (proj2 visible_store) in Hd. Qed.

Lemma index_then_serve_witness :
  content_addressed (ix_fs (indexDirectory (λ _, false) (disk "d") [str "d"] (store "d") [])) (store "d").
Proof.
  apply (index_then_serve (disk "d") (store "d") [str "d"] (str ".storage") [str "chunks"] 493).
  - apply visible_wf.
  - apply visible_store.
  - apply visible_addressed.
  - apply visible_no_collisions.
  - reflexivity.
  - reflexivity.
  - vm_compute. reflexivity.
  - reflexivity.
Defined.

Lemma hidden_root_not_served_witness :
  ix_fs (indexDirectory (λ _, false) (disk ".d") [str ".d"] (store ".d") []) = disk ".d".
Proof.
  apply (hidden_root_not_served (disk ".d") (store ".d") [str ".d"] 493 []).
  - apply dot_wf.
  - apply dot_store.
  - apply dot_store.
  - vm_compute. reflexivity.
  - reflexivity.
Defined.
End IndexExample.
