(* ===== verification/Cli.v ===== *)
(** * The sync command ([cmd/p2p-file-sync/main.go])

    [syncCmd] from the opening of the store to the deletions, and the request
    handlers of the serve command. The peer's answers are functions: the result
    of the manifest request and [rpc], the answer to the chunk request at
    position [i]; they may be anything. [cancelled i] says whether the context
    is done when the batch at [i] starts. *)
From Stdlib Require Import Strings.Byte Strings.String.
From S2P Require Import Prelude Sha256 Fs Chunk ChunkStore BlobStore StoreSpec Merkle MerkleSpec DiffSpec Build Manifest DiffTrees Reconstruct Wire Transport SyncNet Index.

Inductive cmd_error :=
| NotInitialised
| CreatingStore (e : store_error)
| BuildingTree (e : build_error)
| RequestingManifest (e : manifest_error)
| ContextDone
| DownloadFailed (e : request_error)
| Reconstructing (e : reconstruct_error).

(** [requestManifest] of the command line, which does not look at the type of
    the envelope. *)
Definition requestManifest `{ProtoCodec} (exchange : bytes → stream) : outcome manifest_error ManifestResponse :=
  match SendManifestRequest (mkWriter [] None) 1 (mkManifestRequest [] (-1) true) with
  | (_, Err e) => Err (MESend e)
  | (_, Panic) => Panic
  | (w, Ret _) =>
      match ReadEnvelope (exchange (w_out w)) with
      | (Err e, _) => Err (MERead e)
      | (Panic, _) => Panic
      | (Ret env, _) =>
          match UnmarshalPayload env MESSAGE_TYPE_MANIFEST_RESPONSE with
          | Some (MManifestResponse resp) => Ret resp
          | _ => Err MEDecode
          end
      end
  end.

(** The file system, the faults of the next [Put]s and the counter. *)
Record download_state := mkDownload {
  dl_fs : fs;
  dl_faults : list faults;
  dl_downloaded : nat;
}.

Section cli.
Context `{HashFn}.

(** Received chunks are filed under the hash of their data, whatever hash the
    peer names; a failing [Put] is logged. *)
Definition store_received (s : BlobStore) (st : download_state) (c : ProtoChunk) : download_state :=
  let casChunk := mkChunk (sha256 (pc_Data c)) 0 (pc_Data c) in
  match Put (dl_fs st) s casChunk (default no_faults (head (dl_faults st))) with
  | (f', Ret _) => mkDownload f' (tail (dl_faults st)) (S (dl_downloaded st))
  | (f', _) => mkDownload f' (tail (dl_faults st)) (dl_downloaded st)
  end.

Definition cli_batchSize : nat := 10.

Fixpoint download_loop (fuel i : nat) (needed : list bytes)
    (rpc : nat → list bytes → outcome request_error ChunkResponse) (cancelled : nat → bool)
    (s : BlobStore) (st : download_state) : download_state * outcome cmd_error unit :=
  match fuel with
  | O => (st, Panic)
  | S fuel' =>
      if decide (i < length needed) then
        if cancelled i then (st, Err ContextDone)
        else
          let hi := if decide (length needed < i + cli_batchSize) then length needed else i + cli_batchSize in
          match rpc i (slice i hi needed) with
          | Err e => (st, Err (DownloadFailed e))
          | Panic => (st, Panic)
          | Ret resp =>
              download_loop fuel' (i + cli_batchSize) needed rpc cancelled s
                (foldl (store_received s) st (cr_Chunks resp))
          end
      else (st, Ret ())
  end.

Definition download (needed : list bytes) (rpc : nat → list bytes → outcome request_error ChunkResponse)
    (cancelled : nat → bool) (s : BlobStore) (st : download_state) : download_state * outcome cmd_error unit :=
  download_loop (S (length needed)) 0 needed rpc cancelled s st.

(** Deleting the paths of the difference; a failing removal is logged. *)
Definition remove_deleted (root : path) (f : fs) (deleted : list bytes) : fs :=
  foldl (λ f p, match Remove f (Join root [p]) with Ret f' => f' | _ => f end) f deleted.

(** The chunks of the added and modified nodes that the store lacks. *)
Definition neededChunks (f : fs) (s : BlobStore) (d : DResult) : list bytes :=
  concat (collectMissingChunks (H := blob_chunk_store s) (f, []) <$> r_Added d) ++
  concat (collectMissingChunks (H := blob_chunk_store s) (f, []) <$> r_Modified d).

(** From the received manifest to the end. *)
Definition apply_manifest (order : bytes → list bytes → list bytes) (root : path) (s : BlobStore)
    (localTree : Tree) (remote : ManifestNode)
    (rpc : nat → list bytes → outcome request_error ChunkResponse) (cancelled : nat → bool)
    (f : fs) (fts : list faults) : fs * outcome cmd_error nat :=
  match DiffTrees order (convertTreeToManifest <$> t_Root localTree) (Some remote) with
  | Ret d =>
      match download (neededChunks f s d) rpc cancelled s (mkDownload f fts 0) with
      | (st, Err e) => (dl_fs st, Err e)
      | (st, Panic) => (dl_fs st, Panic)
      | (st, Ret _) =>
          match reconstructFiles root (Some remote) s (dl_fs st) with
          | (f', Err e) => (f', Err (Reconstructing e))
          | (f', Panic) => (f', Panic)
          | (f', Ret n) => (remove_deleted root f' (r_Deleted d), Ret n)
          end
      end
  | _ => (f, Panic)
  end.

(** The sync command up to the transport: the store, the local tree and the
    faults that are left. *)
Definition client_start (unreadable : path → bool) (f : fs) (absDir : path) (fts : list faults)
    : fs * outcome cmd_error (BlobStore * Tree * list faults) :=
  match Stat f (resolve absDir DefaultStorageDir) with
  | Err ENOENT => (f, Err NotInitialised)
  | _ =>
      match NewBlobStore f absDir DefaultStorageDir with
      | (f, Err e) => (f, Err (CreatingStore e))
      | (f, Panic) => (f, Panic)
      | (f, Ret s) =>
          let ix := indexDirectory unreadable f absDir s fts in
          match BuildFromFS unreadable (ix_fs ix) absDir with
          | Err e => (ix_fs ix, Err (BuildingTree e))
          | Panic => (ix_fs ix, Panic)
          | Ret localTree => (ix_fs ix, Ret (s, localTree, ix_faults ix))
          end
      end
  end.

(** From the answer to the manifest request on; [None] when the remote has no
    files. *)
Definition sync_manifest (order : bytes → list bytes → list bytes) (absDir : path) (s : BlobStore) (localTree : Tree)
    (manifest : outcome manifest_error ManifestResponse)
    (rpc : nat → list bytes → outcome request_error ChunkResponse) (cancelled : nat → bool)
    (f : fs) (fts : list faults) : fs * outcome cmd_error (option nat) :=
  match manifest with
  | Err e => (f, Err (RequestingManifest e))
  | Panic => (f, Panic)
  | Ret m =>
      match mr_Root m with
      | None => (f, Ret None)
      | Some remote =>
          match apply_manifest order absDir s localTree remote rpc cancelled f fts with
          | (f', Ret n) => (f', Ret (Some n))
          | (f', Err e) => (f', Err e)
          | (f', Panic) => (f', Panic)
          end
      end
  end.

(** [syncCmd] for a connection that is up: the number of files written. *)
Definition syncCmd (unreadable : path → bool) (order : bytes → list bytes → list bytes) (absDir : path)
    (manifest : outcome manifest_error ManifestResponse)
    (rpc : nat → list bytes → outcome request_error ChunkResponse) (cancelled : nat → bool)
    (f : fs) (fts : list faults) : fs * outcome cmd_error (option nat) :=
  match client_start unreadable f absDir fts with
  | (f, Err e) => (f, Err e)
  | (f, Panic) => (f, Panic)
  | (f, Ret (s, localTree, fts')) => sync_manifest order absDir s localTree manifest rpc cancelled f fts'
  end.

(** [OnManifestRequest] of the serve command: index and build again; when the
    build fails the tree of the start is sent. The walk function of the index
    swallows every error. *)
Definition manifest_response (t : Tree) : ManifestResponse :=
  mkManifestResponse (convertTreeToManifest <$> t_Root t) (u64 (Z.of_nat (countNodes (t_Root t)))).

Definition OnManifestRequest (unreadable : path → bool) (absDir : path) (s : BlobStore) (tree : Tree)
    (f : fs) (fts : list faults) : fs * outcome unit ManifestResponse :=
  let ix := indexDirectory unreadable f absDir s fts in
  (ix_fs ix, match BuildFromFS unreadable (ix_fs ix) absDir with
             | Ret freshTree => Ret (manifest_response freshTree)
             | Err _ => Ret (manifest_response tree)
             | Panic => Panic
             end).

(** ** What any peer can do to the store *)
Definition downloads_ok (reliable : Prop) (s : BlobStore) (f f' : fs) : Prop :=
  store_wf f' s ∧ content_addressed f' s ∧ preserved reliable s f f' ∧
  (∀ q, ¬ bs_baseDir s `prefix_of` q → f' !! q = f !! q).

Lemma downloads_ok_refl R s f : store_wf f s → content_addressed f s → downloads_ok R s f f.
Proof. intros. split_and!; [done|done|apply preserved_refl|done]. Qed.

Lemma downloads_ok_mono (R R' : Prop) s f f' : (R' → R) → downloads_ok R s f f' → downloads_ok R' s f f'.
Proof. intros HR (Hw & Hc & Hp & Hq). split_and!; [done|done|by eapply preserved_mono|done]. Qed.

Lemma downloads_ok_trans R s f1 f2 f3 :
  downloads_ok R s f1 f2 → downloads_ok R s f2 f3 → downloads_ok R s f1 f3.
Proof.
  intros (_ & _ & Hg & Hq) (Hw & Hc & Hg' & Hq'). split_and!; [done|done|by eapply preserved_trans|].
  intros q Hne. rewrite Hq', Hq by done. done.
Qed.

Lemma Put_size f s h sz d ft : Put f s (mkChunk h sz d) ft = Put f s (mkChunk h (u32 (Z.of_nat (length d))) d) ft.
Proof. reflexivity. Qed.

(** One received chunk, stored with whatever faults. *)
Lemma store_received_fs s st c :
  dl_fs (store_received s st c) =
  (Put (dl_fs st) s (make_chunk (pc_Data c)) (default no_faults (head (dl_faults st)))).1.
Proof.
  unfold store_received. rewrite Put_size. change (mkChunk _ _ (pc_Data c)) with (make_chunk (pc_Data c)).
  by destruct (Put _ _ _ _) as [f' [b|e|]].
Qed.

Lemma store_received_faults s st c : dl_faults (store_received s st c) = tail (dl_faults st).
Proof. unfold store_received. by destruct (Put _ _ _ _) as [f' [b|e|]]. Qed.

Lemma store_received_ok s st c :
  store_wf (dl_fs st) s → content_addressed (dl_fs st) s →
  downloads_ok (stats_work (dl_faults st)) s (dl_fs st) (dl_fs (store_received s st c)).
Proof.
  intros Hw Hc. rewrite store_received_fs.
  set (ft := default no_faults _). destruct (Put_make_chunk (dl_fs st) s (pc_Data c) ft Hw Hc) as (Hw' & Hc' & Hg & _).
  split_and!; [done|done|by eapply preserved_mono, Hg; apply stats_work_head|].
  intros q Hq. apply Put_frame; [done|apply sha256_long|done].
Qed.

Lemma store_all_ok s cs st :
  store_wf (dl_fs st) s → content_addressed (dl_fs st) s →
  let st' := foldl (store_received s) st cs in
  downloads_ok (stats_work (dl_faults st)) s (dl_fs st) (dl_fs st') ∧
  (stats_work (dl_faults st) → stats_work (dl_faults st')).
Proof.
  revert st. induction cs as [|c cs IH]; intros st Hw Hc; simpl; [split; [by apply downloads_ok_refl|done]|].
  pose proof (store_received_ok s st c Hw Hc) as Hs. pose proof Hs as (Hw' & Hc' & _).
  destruct (IH _ Hw' Hc') as [Ha Hb]. rewrite store_received_faults in Ha, Hb. split.
  - eapply downloads_ok_trans; [exact Hs|]. eapply downloads_ok_mono, Ha. apply stats_work_tail.
  - intros Hst. by apply Hb, stats_work_tail.
Qed.

Lemma download_loop_ok fuel i needed rpc cancelled s st :
  store_wf (dl_fs st) s → content_addressed (dl_fs st) s → length needed - i < fuel →
  (∀ j hs, rpc j hs ≠ Panic) →
  let r := download_loop fuel i needed rpc cancelled s st in
  downloads_ok (stats_work (dl_faults st)) s (dl_fs st) (dl_fs r.1) ∧ r.2 ≠ Panic.
Proof.
  intros Hw Hc Hf Hr. revert i st Hw Hc Hf. induction fuel as [|fuel IH]; intros i st Hw Hc Hf; [lia|].
  assert (downloads_ok (stats_work (dl_faults st)) s (dl_fs st) (dl_fs st)) as Hrefl by by apply downloads_ok_refl.
  cbn [download_loop]. case_decide as Hi; [|done]. destruct (cancelled i); [done|].
  set (batch := slice _ _ _). specialize (Hr i batch) as Hp. destruct (rpc i batch) as [resp|e|]; [|done..].
  destruct (store_all_ok s (cr_Chunks resp) st Hw Hc) as [Hs Hst]. pose proof Hs as (Hw' & Hc' & _).
  destruct (IH (i + cli_batchSize) _ Hw' Hc') as [Ha Hb]; [unfold cli_batchSize; lia|].
  split; [|done]. eapply downloads_ok_trans; [exact Hs|]. by eapply downloads_ok_mono, Ha.
Qed.

(** Downloading from any peer keeps the store sound. Whatever the peer
    answers to the chunk requests, whichever Put fails on the way and wherever
    the context is cancelled, the download loop terminates, the store remains
    well formed and every stored content is filed under its own SHA-256 hash;
    what was stored before is still stored, unchanged unless a Put could not
    check for the chunk and then only for data with the same SHA-256, and no
    file outside the store is touched. *)
Theorem download_untrusted (needed : list bytes) (rpc : nat → list bytes → outcome request_error ChunkResponse)
    (cancelled : nat → bool) (s : BlobStore) (f : fs) (fts : list faults) :
  store_wf f s → content_addressed f s → (∀ j hs, rpc j hs ≠ Panic) →
  let r := download needed rpc cancelled s (mkDownload f fts 0) in
  r.2 ≠ Panic ∧ store_wf (dl_fs r.1) s ∧ content_addressed (dl_fs r.1) s ∧
  preserved (stats_work fts) s f (dl_fs r.1) ∧
  (∀ q, ¬ bs_baseDir s `prefix_of` q → dl_fs r.1 !! q = f !! q).
Proof.
  intros Hw Hc Hr r. unfold r, download.
  destruct (download_loop_ok (S (length needed)) 0 needed rpc cancelled s (mkDownload f fts 0) Hw Hc ltac:(lia) Hr)
    as [(? & ? & ? & ?) ?]. done.
Qed.

(** ** An honest peer *)
Section honest.
Context (fS : fs) (sS : BlobStore).
Hypothesis server_wf : store_wf fS sS.
Hypothesis server_ca : content_addressed fS sS.

Definition served (n : nat) (hs : list bytes) : outcome request_error ChunkResponse :=
  Ret (serve_chunks fS sS (mkChunkRequest hs 1)).

(** [f] completed by the server's contents of [hs]. *)
Definition filled (s : BlobStore) (f f' : fs) (hs : list bytes) : Prop :=
  ∀ h, long_hash h → view f' s h =
    match view f s h with
    | Some x => Some x
    | None => if decide (h ∈ hs) then view fS sS h else None
    end.

Lemma filled_app s f1 f2 f3 hs ks : filled s f1 f2 hs → filled s f2 f3 ks → filled s f1 f3 (hs ++ ks).
Proof.
  intros H1 H2 h Hh. rewrite H2, H1 by done. destruct (view f1 s h); [done|].
  destruct (decide (h ∈ hs)), (decide (h ∈ ks)), (decide (h ∈ hs ++ ks)) as [Hin|Hin]; rewrite elem_of_app in Hin;
    try tauto; by destruct (view fS sS h).
Qed.

Lemma filled_nil s f : filled s f f [].
Proof. intros h Hh. rewrite decide_False by apply not_elem_of_nil. by destruct (view f s h). Qed.

Lemma store_one s st h d :
  store_wf (dl_fs st) s → dl_faults st = [] → long_hash h → view fS sS h = Some d →
  let st' := store_received s st (proto_chunk h d) in
  filled s (dl_fs st) (dl_fs st') [h] ∧ dl_faults st' = [].
Proof.
  intros Hw Hft Hl Hd st'. assert (sha256 d = h) as Hh by by apply server_ca. split.
  - intros k Hk. unfold st'. rewrite store_received_fs, Hft. cbn [head default pc_Data proto_chunk].
    assert (long_hash (ch_Hash (make_chunk d))) as Hl' by apply sha256_long.
    destruct (Put_spec (dl_fs st) s (make_chunk d) no_faults Hw Hl') as (_ & Hv & _).
    rewrite Hv, (Put_reliable (dl_fs st) s (make_chunk d) Hw Hl') by done.
    change (ch_Hash (make_chunk d)) with (sha256 d). change (ch_Data (make_chunk d)) with d. rewrite Hh.
    destruct (decide (k = h)) as [->|Hne].
    + rewrite (decide_True _ _ (list_elem_of_here h [])). destruct (view (dl_fs st) s h) eqn:E.
      * rewrite bool_decide_eq_false_2 by done. by rewrite decide_False by (by intros [_ [=]]).
      * by rewrite decide_True, Hd.
    + rewrite !decide_False; [by destruct (view (dl_fs st) s k)|..].
      * by intros [->|?%not_elem_of_nil]%elem_of_cons.
      * by intros [? _].
  - unfold st', store_received. rewrite Hft. by destruct (Put _ _ _ _) as [f' [b|e|]].
Qed.

Lemma store_batch s hs st :
  store_wf (dl_fs st) s → content_addressed (dl_fs st) s → dl_faults st = [] → Forall long_hash hs →
  let st' := foldl (store_received s) st (omap (λ h, proto_chunk h <$> view fS sS h) hs) in
  filled s (dl_fs st) (dl_fs st') hs ∧ dl_faults st' = [].
Proof.
  intros Hw Hc Hft Hl. revert st Hw Hc Hft. induction Hl as [|h hs Hh Hl IH]; intros st Hw Hc Hft.
  { split; [apply filled_nil|done]. }
  cbn [omap list_omap]. destruct (view fS sS h) as [d|] eqn:Ed; cbn [fmap option_fmap option_map foldl].
  - destruct (store_one s st h d Hw Hft Hh Ed) as [Hf Hft'].
    destruct (store_received_ok s st (proto_chunk h d) Hw Hc) as (Hw' & Hc' & _).
    destruct (IH _ Hw' Hc' Hft') as [Hf2 Hft2]. split; [|done]. by apply (filled_app s _ _ _ [h] hs Hf).
  - destruct (IH st Hw Hc Hft) as [Hf2 Hft2]. split; [|done]. intros k Hk. rewrite Hf2 by done.
    destruct (view (dl_fs st) s k); [done|].
    destruct (decide (k = h)) as [->|Hne].
    + rewrite (decide_True _ _ (list_elem_of_here h hs)). by case_decide.
    + destruct (decide (k ∈ hs)) as [Hi|Hi].
      * by rewrite decide_True by (by right).
      * by rewrite decide_False by (by intros [?|?]%elem_of_cons).
Qed.

Lemma download_served fuel i needed s st :
  store_wf (dl_fs st) s → content_addressed (dl_fs st) s → dl_faults st = [] → Forall long_hash needed →
  length needed - i < fuel →
  ∃ st', download_loop fuel i needed served (λ _, false) s st = (st', Ret ()) ∧
    downloads_ok True s (dl_fs st) (dl_fs st') ∧ filled s (dl_fs st) (dl_fs st') (drop i needed).
Proof.
  revert i st. induction fuel as [|fuel IH]; intros i st Hw Hc Hft Hl Hf; [lia|].
  cbn [download_loop]. case_decide as Hi.
  2:{ exists st. rewrite drop_ge by lia. split_and!; [done|by apply downloads_ok_refl|apply filled_nil]. }
  set (hi := if decide _ then _ else _). set (batch := slice i hi needed).
  assert (drop i needed = batch ++ drop (i + cli_batchSize) needed) as Hd.
  { unfold batch, slice, hi. case_decide as Hx.
    - rewrite take_ge by (rewrite length_drop; lia). by rewrite (drop_ge needed (i + _)), app_nil_r by lia.
    - replace (i + cli_batchSize - i) with cli_batchSize by lia. by rewrite <- drop_drop, take_drop. }
  assert (Forall long_hash batch) as Hlb by (by apply Forall_take, Forall_drop).
  unfold served at 1. cbn iota beta. rewrite serve_chunks_spec by done. cbn [cr_Chunks].
  destruct (store_batch s batch st Hw Hc Hft Hlb) as [Hfl Hft'].
  pose proof (store_all_ok s (omap (λ h, proto_chunk h <$> view fS sS h) batch) st Hw Hc) as [Hok _].
  apply (downloads_ok_mono _ True) in Hok; [|intros _; rewrite Hft; constructor].
  pose proof Hok as (Hw' & Hc' & _).
  destruct (IH (i + cli_batchSize) _ Hw' Hc' Hft' Hl) as (st' & E & Hok2 & Hfl2); [unfold cli_batchSize; lia|].
  exists st'. split_and!; [exact E|by eapply downloads_ok_trans|]. rewrite Hd. by eapply filled_app.
Qed.
End honest.
End cli.

(** ** Witness: a peer that answers every request with the wrong data *)
Module CliExample.
#[local] Existing Instance sha256_fips.
Import StoreExample.

Definition lying (n : nat) (hs : list bytes) : outcome request_error ChunkResponse :=
  Ret (mkChunkResponse ((λ h, mkProtoChunk h (bytes_of_string "junk") 4) <$> hs) []).

Lemma st0_addressed : content_addressed st0.1 store.
Proof. intros h d Hl Hd. by rewrite st0_view in Hd. Qed.

Lemma download_untrusted_witness :
  content_addressed (dl_fs (download [ch_Hash hello] lying (λ _, false) store (mkDownload st0.1 [] 0)).1) store.
Proof.
  apply (download_untrusted [ch_Hash hello] lying (λ _, false) store st0.1 []).
  - apply st0_sim.
  - apply st0_addressed.
  - intros j hs. discriminate.
Defined.
End CliExample.
