(* ===== verification/SyncSpec.v ===== *)
(** * What the sync command achieves

    From the Merkle trees of both sides to the files on disk: every chunk that
    [reconstructFiles] will read is in the store after the download, the
    manifest can be written, and the deletions do not touch what was written.
    The last theorem composes the serve command of one side with the sync
    command of the other. *)
From Stdlib Require Import Strings.Byte Strings.String.
From S2P Require Import Prelude Sha256 Fs Chunk ChunkStore BlobStore StoreSpec Merkle MerkleSpec DiffSpec Build Manifest DiffTrees Reconstruct Wire Transport SyncNet Index Cli.

Section cover.
Context `{HashFn}.

(** ** Manifests of trees *)
Lemma pm_at_convert n p : node_wf n → pm_at (convertTreeToManifest n) p = nodeToManifest <$> node_at n p.
Proof.
  intros Hn. rewrite convert_is_nodeToManifest by done.
  pose proof (node_at_manifest (nodeToManifest n) p) as E. rewrite manifestToNode_nodeToManifest in E.
  rewrite E. destruct (pm_at (nodeToManifest n) p); simpl; [by rewrite nodeToManifest_manifestToNode|done].
Qed.

(** The last node on the way to a missing one. *)
Lemma pm_at_missing n p :
  pm_at n p = None → ∃ q c k a, p = q ++ c :: k ∧ pm_at n q = Some a ∧ pm_child a c = None.
Proof.
  revert n. induction p as [|c p IH]; intros n; simpl; [done|]. destruct (pm_child n c) as [m|] eqn:E.
  - intros Hm. destruct (IH m Hm) as (q & d & k & a & -> & Ha & Hd). exists (c :: q), d, k, a.
    split_and!; [done| |done]. simpl. by rewrite E.
  - intros _. by exists [], c, p, n.
Qed.

Lemma pm_comparable_at l r p a b :
  pm_comparable l r → pm_at l p = Some a → pm_at r p = Some b → pm_comparable a b.
Proof.
  revert l r. induction p as [|c p IH]; intros l r Hc Ha Hb; simpl in *; [by simplify_eq|].
  destruct (pm_child l c) as [x|] eqn:Ex, (pm_child r c) as [y|] eqn:Ey; [|done..].
  eapply IH; [|done..]. by eapply pm_comparable_child.
Qed.

Lemma same_hash_chunks a b :
  pm_comparable a b → pm_IsDir a = false → pm_IsDir b = false → pm_Hash a = pm_Hash b → pm_Chunks a = pm_Chunks b.
Proof.
  intros Hc Da Db Hh. pose proof (comparable_shape _ _ Hc) as Hs. rewrite !pm_hash in Hs. specialize (Hs Hh).
  destruct a as [na da ha ma sa ca cha], b as [nb db hb mb sb cb chb]. simpl in *. subst. by injection Hs.
Qed.

(** Where the chunks of a remote file come from. *)
Lemma chunks_covered l r p b :
  pm_comparable l r → pm_at r p = Some b → pm_IsDir b = false →
  (∃ a, pm_at l p = Some a ∧ (pm_IsDir a = true ∨ pm_Chunks a = pm_Chunks b)) ∨
  (∃ k m, pm_at m k = Some b ∧ (trees_spec l r [] (EAdded m) ∨ trees_spec l r [] (EModified m))).
Proof.
  intros Hc Hb Db. destruct (pm_at l p) as [a|] eqn:Ha.
  - destruct (pm_IsDir a) eqn:Da; [left; eauto|].
    destruct (decide (pm_Hash a = pm_Hash b)) as [Hh|Hh].
    + left. exists a. split; [done|]. right. apply same_hash_chunks; [|done..]. by eapply pm_comparable_at.
    + right. exists [], b. split; [done|]. right. by eapply ts_modified.
  - right. destruct (pm_at_missing l p Ha) as (q & c & k & a & -> & Hq & Hn).
    rewrite pm_at_app in Hb. destruct (pm_at r q) as [b'|] eqn:Hb'; [|done]. simpl in Hb.
    destruct (pm_child b' c) as [m|] eqn:Hm; [|done]. exists k, m. split; [done|]. left. by eapply ts_added.
Qed.

Lemma collectMissing_at {St E : Type} `{ChunkStore St E} (st : St) m k b h :
  pm_at m k = Some b → h ∈ pm_Chunks b → cs_has st h = false → h ∈ collectMissingChunks st m.
Proof.
  revert m. induction k as [|c k IH]; intros m Hk Hh Hm; simpl in Hk.
  - injection Hk as ->. destruct b. simpl in *. apply elem_of_app. left. by apply list_elem_of_filter.
  - destruct (pm_child m c) as [x|] eqn:Ex; [|done]. apply pm_child_elem in Ex as [_ Hx].
    destruct m as [nm d hh md sz cs ch]. simpl in *. apply elem_of_app. right.
    apply (elem_concat_fmap (collectMissingChunks st)). eauto.
Qed.

Lemma collectMissing_long {St E : Type} `{ChunkStore St E} (st : St) n h :
  node_wf n → h ∈ collectMissingChunks st (nodeToManifest n) → long_hash h.
Proof.
  induction n as [nm ty hs md sz cs ch IH] using Node_rec_children. intros Hw. cbn [nodeToManifest collectMissingChunks].
  intros [[_ Hh]%list_elem_of_filter|Hh]%elem_of_app.
  - simpl in Hh. inversion Hw as [? ? ? ? Hl|]; subst; [|by apply not_elem_of_nil in Hh].
    rewrite Forall_forall in Hl. specialize (Hl h Hh). unfold long_hash. rewrite Hl. lia.
  - cbn [pm_Children] in Hh. rewrite map_map in Hh.
    apply (elem_concat_fmap (λ x, collectMissingChunks st (nodeToManifest x))) in Hh as (x & Hx & Hh).
    pose proof (wf_children _ Hw) as [Hf _]. rewrite Forall_forall in IH, Hf. apply (IH x Hx); [by apply Hf|done].
Qed.
End cover.

(** ** After the download every remote file can be assembled *)
Section downloaded.
Context `{HashFn}.
Context (order : bytes → list bytes → list bytes) (Hord : ∀ p l, order p l ≡ₚ l).
Context (L R : Node) (HLR : comparable L R).

Lemma HL : node_wf L.
Proof. apply HLR. Qed.

Lemma HR : node_wf R.
Proof. apply HLR. Qed.

Lemma manifests_comparable : pm_comparable (convertTreeToManifest L) (convertTreeToManifest R).
Proof.
  unfold pm_comparable. rewrite !convert_is_nodeToManifest by (apply HL || apply HR).
  by rewrite !manifestToNode_nodeToManifest.
Qed.

(** A node named in the difference is a node of the remote tree. *)
Lemma reported_remote m :
  trees_spec (convertTreeToManifest L) (convertTreeToManifest R) [] (EAdded m) ∨
  trees_spec (convertTreeToManifest L) (convertTreeToManifest R) [] (EModified m) →
  ∃ p n, node_at R p = Some n ∧ m = nodeToManifest n ∧ node_wf n.
Proof.
  assert (∀ p, pm_at (convertTreeToManifest R) p = Some m → ∃ p n, node_at R p = Some n ∧ m = nodeToManifest n ∧ node_wf n) as Hat.
  { intros p. rewrite pm_at_convert by apply HR. destruct (node_at R p) as [n|] eqn:E; [|done]. simpl.
    intros [= <-]. exists p, n. split_and!; [done|done|]. eapply node_at_wf; [apply HR|done]. }
  intros [Hm|Hm]; inversion Hm as [p a b c m' Ha Hb Hn Hc| |p a b Ha Hb]; subst.
  - apply (Hat (p ++ [c])). rewrite pm_at_app, Hb. simpl. by rewrite Hc.
  - by apply (Hat p).
Qed.

Lemma missing_long f s d :
  (∀ e, reported d e ↔ trees_spec (convertTreeToManifest L) (convertTreeToManifest R) [] e) →
  Forall long_hash (neededChunks f s d).
Proof.
  intros Hd. apply Forall_forall. intros h. unfold neededChunks. rewrite elem_of_app, !elem_concat_fmap.
  intros [(m & Hm & Hh)|(m & Hm & Hh)];
    (destruct (reported_remote m) as (p & n & _ & -> & Hw); [rewrite <- !Hd; auto|]);
    by apply (collectMissing_long _ _ _ Hw Hh).
Qed.

(** The server has every chunk of its tree, the client every chunk of its own. *)
Definition has_chunks (n : Node) (v : bytes → option bytes) : Prop :=
  ∀ p m h, node_at n p = Some m → n_Type m = NodeTypeFile → h ∈ n_Chunks m → is_Some (v h).

Definition same_types : Prop :=
  ∀ p a b, node_at L p = Some a → node_at R p = Some b → n_Type a = n_Type b.

Lemma file_hash_long p b h : node_at R p = Some b → h ∈ n_Chunks b → long_hash h.
Proof.
  intros Hb Hh. pose proof (node_at_wf _ _ _ HR Hb) as Hw.
  inversion Hw as [? ? ? ? Hl|]; subst; simpl in Hh; [|by apply not_elem_of_nil in Hh].
  rewrite Forall_forall in Hl. unfold long_hash. rewrite (Hl h Hh). lia.
Qed.

Lemma all_chunks_present fS sS s f f' d :
  store_wf f s →
  (∀ e, reported d e ↔ trees_spec (convertTreeToManifest L) (convertTreeToManifest R) [] e) →
  has_chunks L (view f s) → has_chunks R (view fS sS) → same_types →
  filled fS sS s f f' (neededChunks f s d) → has_chunks R (view f' s).
Proof.
  intros Hw Hd HcL HcR Hty Hfl p b h Hb Tb Hh.
  pose proof (file_hash_long p b h Hb Hh) as Hl. rewrite Hfl by done.
  destruct (view f s h) as [x|] eqn:Ev; [eauto|].
  destruct (chunks_covered (convertTreeToManifest L) (convertTreeToManifest R) p (nodeToManifest b))
    as [(a & Ha & Hab)|(k & m & Hk & Hm)].
  - apply manifests_comparable.
  - rewrite pm_at_convert by apply HR. by rewrite Hb.
  - destruct b; simpl in *. by rewrite Tb.
  - exfalso. rewrite pm_at_convert in Ha by apply HL. destruct (node_at L p) as [a'|] eqn:Ea; [|done].
    injection Ha as <-. pose proof (Hty p a' b Ea Hb) as Hab'. rewrite Tb in Hab'.
    destruct Hab as [Hab|Hab]; [destruct a'; simpl in *; by rewrite Hab' in Hab|].
    destruct (HcL p a' h Ea Hab') as [y Hy]; [|congruence].
    destruct a', b; simpl in *. by rewrite Hab.
  - rewrite decide_True; [by eapply HcR|].
    assert (h ∈ collectMissingChunks (H := blob_chunk_store s) (f, []) m) as Hc.
    { apply (collectMissing_at _ m k (nodeToManifest b)); [done|by destruct b|].
      rewrite cs_has_spec by done. simpl. by rewrite Ev. }
    unfold neededChunks. rewrite elem_of_app, !elem_concat_fmap.
    destruct Hm as [Hm|Hm]; apply Hd in Hm; eauto.
Qed.
End downloaded.

(** ** Writing the remote tree *)
Section written.
Context `{HashFn}.

Lemma node_at_app n p q : node_at n (p ++ q) = match node_at n p with Some m => node_at m q | None => None end.
Proof. revert n. induction p as [|c p IH]; intros n; simpl; [done|]. destruct (child n c); [apply IH|done]. Qed.

Lemma node_at_snoc n p c m : node_wf m → node_at n p = Some m → c ∈ n_Children m → node_at n (p ++ [n_Name c]) = Some c.
Proof. intros Hw Hp Hc. rewrite node_at_app, Hp. simpl. by rewrite (child_elem m c Hw Hc). Qed.

(** The paths of a manifest are those of its tree. *)
Lemma pm_paths_at n k : node_wf n → k ∈ pm_paths (nodeToManifest n) → is_Some (node_at n k).
Proof.
  revert k. induction n as [nm ty hs md sz cs ch IH] using Node_rec_children. intros k Hw.
  cbn [nodeToManifest pm_paths pm_Children]. intros [->|Hk]%elem_of_cons; [done|].
  rewrite map_map in Hk. apply (elem_concat_fmap (λ x, cons _ <$> pm_paths (nodeToManifest x))) in Hk as (c & Hc & Hk).
  apply list_elem_of_fmap in Hk as (k' & -> & Hk'). simpl.
  pose proof (wf_children _ Hw) as [Hf _]. simpl in Hf. rewrite Forall_forall in IH, Hf.
  assert (pm_Name (nodeToManifest c) = n_Name c) as -> by by destruct c.
  rewrite (child_elem _ c Hw Hc). apply IH; [done|by apply Hf|done].
Qed.

Lemma placed_at root v f p n k q b :
  node_wf n → placed root v f p (nodeToManifest n) k → node_at n q = Some b →
  ∃ k', placed root v f (p ++ q) (nodeToManifest b) k'.
Proof.
  revert p n k. induction q as [|c q IH]; intros p n k Hw Hp Hq; simpl in Hq.
  - injection Hq as <-. rewrite app_nil_r. eauto.
  - destruct (child n c) as [x|] eqn:Ex; [|done].
    assert (n_Type n = NodeTypeDir) as Tn.
    { destruct (n_Type n) eqn:Tn; [|done]. by rewrite (file_no_child n c Hw Tn) in Ex. }
    pose proof (child_wf _ _ _ Hw Ex) as Hwx. apply child_name in Ex as [<- Hx].
    destruct n as [nm ty hs md sz cs ch]. simpl in Tn, Hx. subst ty.
    inversion Hp as [? ? ? ? ? ? ? ns m Hm Hcs| |]; subst.
    assert (nodeToManifest x ∈ map nodeToManifest cs) as Hx' by by apply (list_elem_of_fmap_2 nodeToManifest).
    apply list_elem_of_lookup in Hx' as [i Hi]. destruct (Forall2_lookup_l _ _ _ _ _ Hcs Hi) as (k' & _ & Hpl).
    replace (pm_Name (nodeToManifest x)) with (n_Name x) in Hpl by by destruct x.
    rewrite (app_assoc p [n_Name x] q : p ++ n_Name x :: q = _). by eapply IH.
Qed.

Context (L R : Node) (HLR : comparable L R) (Hty : same_types L R).
Context (f fR : fs) (root rootR : path) (s : BlobStore).
Context (HtL : tree_of f root L) (HtR : tree_of fR rootR R) (HfR : fs_wf fR).
Context (Hbase : bs_baseDir s = root ++ [bytes_of_string ".storage"; bytes_of_string "chunks"]).

Lemma remote_entry p b : node_at R p = Some b → visible p = true ∧ Forall plain_name p ∧
  ∃ e, fR !! (rootR ++ p) = Some e ∧ entry_node e b.
Proof.
  intros Hb. pose proof (HtR p) as Ht. rewrite Hb in Ht. destruct Ht as (Hv & e & He & Hn).
  split_and!; [done| |eauto]. apply HfR in He as [Hpl _]. by apply Forall_app in Hpl as [_ ?].
Qed.

(** Nothing of another type is in the way of a remote node. *)
Lemma local_type p b e : node_at R p = Some b → f !! (root ++ p) = Some e → is_dir e = true ↔ n_Type b = NodeTypeDir.
Proof.
  intros Hb He. destruct (remote_entry p b Hb) as (Hv & _ & _). pose proof (HtL p) as Ht.
  destruct (node_at L p) as [a|] eqn:Ea; [|by rewrite Ht in He].
  destruct Ht as (_ & e' & He' & _ & Hn). rewrite He in He'. injection He' as <-.
  rewrite <- (Hty p a b Ea Hb). destruct e as [c m|m]; simpl.
  - destruct Hn as (-> & _). done.
  - rewrite Hn. done.
Qed.

Lemma remote_placeable f1 p b :
  (∀ q, ¬ bs_baseDir s `prefix_of` q → f1 !! q = f !! q) → has_chunks R (view f1 s) →
  node_at R p = Some b → placeable root s f1 p (nodeToManifest b).
Proof.
  intros Hf1 Hch. revert p. induction b as [nm ty hs md sz cs ch IH] using Node_rec_children. intros p Hb.
  pose proof (node_at_wf _ _ _ (HR L R HLR) Hb) as Hw. destruct (remote_entry p _ Hb) as (Hv & _ & _).
  assert (f1 !! (root ++ p) = f !! (root ++ p)) as Hp.
  { apply Hf1. eapply (visible_outside s root (bytes_of_string ".storage") [bytes_of_string "chunks"]); [|done]. done. }
  cbn [nodeToManifest n_Name n_Type n_Hash n_Mode n_Size n_Children n_Chunks].
  destruct ty; [rewrite bool_decide_eq_false_2 by done|rewrite bool_decide_eq_true_2 by done]; constructor.
  - intros m. rewrite Hp. intros E. by apply (local_type p _ _ Hb) in E as [E _]; specialize (E eq_refl).
  - apply Forall_forall. intros h Hh. split; [by eapply (file_hash_long L R HLR p _ h Hb)|].
    by apply (Hch p _ h Hb).
  - intros x m. rewrite Hp. intros E. apply (local_type p _ _ Hb) in E as [_ E]. by specialize (E eq_refl).
  - pose proof (wf_children _ Hw) as [_ Hd]. simpl in Hd. unfold MerkleSpec.names in Hd.
    replace (pm_Name <$> map nodeToManifest cs) with (n_Name <$> cs); [done|].
    rewrite <- list_fmap_compose. apply list_fmap_ext. by intros ? [].
  - apply Forall_forall. intros c' Hc'. apply list_elem_of_In, in_map_iff in Hc' as (c & <- & Hc).
    apply list_elem_of_In in Hc. replace (pm_Name (nodeToManifest c)) with (n_Name c) by by destruct c.
    pose proof (node_at_snoc R p c _ Hw Hb Hc) as Hpc. split.
    + destruct (remote_entry _ _ Hpc) as (_ & Hpl & _). apply Forall_app in Hpl as [_ Hpl].
      by rewrite Forall_singleton in Hpl.
    + rewrite Forall_forall in IH. by apply IH.
Qed.
End written.

(** ** Deleting *)
Lemma Remove_Ret f p f' : Remove f p = Ret f' → f' = delete p f.
Proof. unfold Remove. destruct (Stat f p) as [[c m|m]| |]; [|destruct (has_children f p)|..]; congruence. Qed.

Lemma Remove_file f p c m : dirs_above f p → f !! p = Some (FFile c m) → Remove f p = Ret (delete p f).
Proof. intros Ha Hp. unfold Remove. by rewrite (Stat_dirs f p (FFile c m)). Qed.

Lemma has_children_below f p x k : is_Some (f !! (p ++ x :: k)) → has_children f p = true.
Proof.
  intros [n Hn]. unfold has_children. apply existsb_exists. exists (p ++ x :: k, n). split.
  - by apply list_elem_of_In, elem_of_map_to_list.
  - apply bool_decide_eq_true. split; [by eexists|]. simpl. intros E.
    apply (f_equal length) in E. rewrite length_app in E. simpl in E. lia.
Qed.

Section deleting.
Context (root : path).

#[local] Abbreviation step f p := (match Remove f (Join root [p]) with Ret f' => f' | _ => f end).

Lemma remove_cons f p ds : remove_deleted root f (p :: ds) = remove_deleted root (step f p) ds.
Proof. reflexivity. Qed.

Lemma remove_step f p q : q ≠ Join root [p] → step f p !! q = f !! q.
Proof.
  intros Hq. destruct (Remove f (Join root [p])) as [f'| |] eqn:E; [|done..].
  apply Remove_Ret in E as ->. by rewrite lookup_delete_ne.
Qed.

Lemma remove_step_sub f p q n : step f p !! q = Some n → f !! q = Some n.
Proof.
  destruct (Remove f (Join root [p])) as [f'| |] eqn:E; [|done..].
  apply Remove_Ret in E as ->. by intros [_ ?]%lookup_delete_Some.
Qed.

Lemma remove_keeps f ds q : (∀ p, p ∈ ds → q ≠ Join root [p]) → remove_deleted root f ds !! q = f !! q.
Proof.
  revert f. induction ds as [|p ds IH]; intros f Hq; [done|]. rewrite remove_cons.
  rewrite IH; [|by intros p' ?; apply Hq; right]. apply remove_step, Hq. left.
Qed.

Lemma remove_None f ds q : f !! q = None → remove_deleted root f ds !! q = None.
Proof.
  revert f. induction ds as [|p ds IH]; intros f Hq; [done|]. rewrite remove_cons.
  apply IH. destruct (step f p !! q) eqn:E; [|done]. apply remove_step_sub in E. congruence.
Qed.

Lemma remove_gone f ds p c m :
  p ∈ ds → f !! (Join root [p]) = Some (FFile c m) → dirs_above f (Join root [p]) →
  (∀ q p', q `prefix_of` Join root [p] → q ≠ Join root [p] → p' ∈ ds → q ≠ Join root [p']) →
  remove_deleted root f ds !! (Join root [p]) = None.
Proof.
  revert f. induction ds as [|p0 ds IH]; intros f Hp Hf Ha Hk; [by apply not_elem_of_nil in Hp|].
  rewrite remove_cons. destruct (decide (Join root [p0] = Join root [p])) as [E|E].
  - rewrite E. rewrite (Remove_file f _ c m) by done. apply remove_None. apply lookup_delete_eq.
  - apply IH.
    + apply elem_of_cons in Hp as [->|Hp]; done.
    + by rewrite remove_step.
    + intros q Hq Hne. rewrite remove_step; [by apply Ha|]. apply Hk; [done|done|left].
    + intros q p' Hq Hne Hp'. apply Hk; [done|done|by right].
Qed.

Lemma remove_nonempty f ds q x k m n :
  f !! q = Some (FDir m) → dirs_above f q → f !! (q ++ x :: k) = Some n →
  (∀ p, p ∈ ds → q ++ x :: k ≠ Join root [p]) →
  (∀ r p, r `prefix_of` q → r ≠ q → p ∈ ds → r ≠ Join root [p]) →
  remove_deleted root f ds !! q = Some (FDir m).
Proof.
  revert f. induction ds as [|p ds IH]; intros f Hq Ha Hx Hds Hr; [done|]. rewrite remove_cons.
  apply IH.
  - destruct (decide (q = Join root [p])) as [<-|Hne]; [|by rewrite remove_step].
    unfold Remove. rewrite (Stat_dirs f q (FDir m)) by done. by rewrite (has_children_below f q x k).
  - intros r Hpre Hne. rewrite remove_step; [by apply Ha|]. apply Hr; [done|done|left].
  - rewrite remove_step; [done|]. apply Hds. left.
  - intros p' Hp'. apply Hds. by right.
  - intros r p' Hpre Hne Hp'. apply Hr; [done|done|by right].
Qed.
End deleting.

(** ** The whole run from the manifest on *)
Section run.
Context `{HashFn}.
Context (order : bytes → list bytes → list bytes) (Hord : ∀ p l, order p l ≡ₚ l).
Context (L R : Node) (HLR : comparable L R) (Hty : same_types L R).
Context (f fR fS : fs) (root rootR : path) (s sS : BlobStore).
Context (HtL : tree_of f root L) (Hf : fs_wf f) (HtR : tree_of fR rootR R) (HfR : fs_wf fR).
Context (Hbase : bs_baseDir s = root ++ [bytes_of_string ".storage"; bytes_of_string "chunks"]).
Context (Hw : store_wf f s) (Hca : content_addressed f s) (HwS : store_wf fS sS) (HcaS : content_addressed fS sS).
Context (HcL : has_chunks L (view f s)) (HcR : has_chunks R (view fS sS)).
Context (Hagree : ∀ h x y, long_hash h → view f s h = Some x → view fS sS h = Some y → x = y).

Abbreviation lm := (convertTreeToManifest L).
Abbreviation rm := (convertTreeToManifest R).

Lemma local_plain_names : names_plain lm.
Proof.
  intros p m c k Hp Hk.
  assert (pm_at lm (p ++ [c]) = Some k) as Hc by (rewrite pm_at_app, Hp; simpl; by rewrite Hk).
  rewrite pm_at_convert in Hc by apply HLR. destruct (node_at L (p ++ [c])) as [a|] eqn:Ea; [|done].
  specialize (HtL (p ++ [c])). rewrite Ea in HtL. destruct HtL as (_ & e & He & _).
  apply Hf in He as [Hpl _]. rewrite !Forall_app in Hpl. destruct Hpl as (_ & _ & Hpl). by rewrite Forall_singleton in Hpl.
Qed.

(** A path to delete is a local path that the remote tree lacks. *)
Lemma deleted_path q :
  trees_spec lm rm [] (EDeleted q) → ∃ p, p ≠ [] ∧ Join root [q] = root ++ p ∧ is_Some (node_at L p) ∧ node_at R p = None ∧ is_Some (node_at R (removelast p)).
Proof.
  inversion 1 as [|p a b c m Ha Hb Hl Hr E|]; subst. exists (p ++ [c]). simpl.
  assert (pm_at lm (p ++ [c]) = Some m) as HlA by (rewrite pm_at_app, Ha; simpl; by rewrite Hl).
  assert (pm_at rm (p ++ [c]) = None) as HrA by (rewrite pm_at_app, Hb; simpl; by rewrite Hr).
  rewrite pm_at_convert in HlA by apply HLR. rewrite pm_at_convert in HrA by apply HLR.
  destruct (node_at L (p ++ [c])) as [a'|] eqn:Ea; [|done]. destruct (node_at R (p ++ [c])); [done|].
  assert (is_Some (node_at R p)) as HrP.
  { rewrite pm_at_convert in Hb by apply HLR. by destruct (node_at R p). }
  split_and!; [by destruct p| |done|done|by rewrite removelast_last]. apply Join_rel; [by destruct p|].
  specialize (HtL (p ++ [c])). rewrite Ea in HtL. destruct HtL as (_ & e & He & _).
  apply Hf in He as [Hpl _]. by apply Forall_app in Hpl as [_ ?].
Qed.

(** What has been written at [p] for the remote node [b]. *)
Definition written_at (f' : fs) (p : path) (b : Node) : Prop :=
  match n_Type b with
  | NodeTypeDir => ∃ m, f' !! (root ++ p) = Some (FDir m)
  | NodeTypeFile =>
      n_Chunks b ≠ [] →
      ∃ ds m, Forall2 (λ h d, view fS sS h = Some d) (n_Chunks b) ds ∧
        f' !! (root ++ p) = Some (FFile (concat ds) m) ∧ (n_Mode b ≠ 0%Z → m = syscallMode (n_Mode b))
  end.

Lemma placed_written v f' p b k :
  placed root v f' p (nodeToManifest b) k →
  (∀ h x, n_Type b = NodeTypeFile → h ∈ n_Chunks b → v h = Some x → view fS sS h = Some x) →
  written_at f' p b.
Proof.
  intros Hp Hv. destruct b as [nm ty hs md sz cs ch]. unfold written_at. simpl in *. destruct ty.
  - intros Hne. inversion Hp as [| |? ? ? ? ? ? ? ds m _ Hds Hm Hmd]; subst; [done|]. exists ds, m.
    split_and!; [|done|done]. clear -Hds Hv. induction Hds as [|h d hs ds Hh Hds IH]; constructor.
    + apply Hv; [done|left|done].
    + apply IH. intros x y Ht Hx. apply Hv; [done|by right].
  - inversion Hp; subst. eauto.
Qed.

(** What the run promises about the directory. *)
Definition synced (f' : fs) : Prop :=
  (∀ p b, p ≠ [] → node_at R p = Some b → written_at f' p b) ∧
  (∀ p a b c e, node_at L p = Some a → node_at R p = Some b → child a c = Some e → child b c = None →
     if decide (n_Type e = NodeTypeFile) then f' !! (root ++ p ++ [c]) = None
     else ∀ x k n, f !! (root ++ (p ++ [c]) ++ x :: k) = Some n →
            f' !! (root ++ (p ++ [c]) ++ x :: k) = Some n ∧ ∃ m, f' !! (root ++ p ++ [c]) = Some (FDir m)) ∧
  (∀ q, ¬ bs_baseDir s `prefix_of` q → (∀ p, visible p = true → p ≠ [] → q ≠ root ++ p) → f' !! q = f !! q).

Section finish.
Context (f1 f2 : fs) (d : DResult).
Context (Hd : ∀ e, reported d e ↔ trees_spec lm rm [] e).
Context (Hf1 : ∀ q, ¬ bs_baseDir s `prefix_of` q → f1 !! q = f !! q).
Context (Hwr : ∀ p b, p ≠ [] → node_at R p = Some b → written_at f2 p b).
Context (Hf2 : ∀ q, (∀ p, p ≠ [] → is_Some (node_at R p) → q ≠ root ++ p) → f2 !! q = f1 !! q).

Lemma deleted_lacking q : q ∈ r_Deleted d → ∃ p, p ≠ [] ∧ Join root [q] = root ++ p ∧ is_Some (node_at L p) ∧ node_at R p = None ∧ is_Some (node_at R (removelast p)).
Proof. intros Hq. apply deleted_path. by apply (Hd (EDeleted q)). Qed.

Lemma kept q : (∀ p, p ≠ [] → is_Some (node_at L p) → node_at R p = None → q ≠ root ++ p) →
  remove_deleted root f2 (r_Deleted d) !! q = f2 !! q.
Proof. intros Hq. apply remove_keeps. intros x (p & Hne & -> & HL & HR & _)%deleted_lacking. by apply Hq. Qed.

Lemma lacking_unwritten p : node_at R p = None → f2 !! (root ++ p) = f1 !! (root ++ p).
Proof. intros Hp. apply Hf2. intros p' _ [b Hb] E%app_inv_head. subst. congruence. Qed.

Lemma outside_store p : visible p = true → f1 !! (root ++ p) = f !! (root ++ p).
Proof.
  intros Hv. apply Hf1. eapply (visible_outside s root (bytes_of_string ".storage") [bytes_of_string "chunks"]); done.
Qed.

Lemma top_visible_outside p k : visible p = true → p ≠ [] → ¬ bs_baseDir s `prefix_of` (root ++ p ++ k).
Proof.
  rewrite Hbase. intros Hv Hne [z E]. rewrite <- app_assoc in E. apply app_inv_head in E.
  destruct p as [|c p]; [done|]. simpl in E. assert (c = bytes_of_string ".storage") as -> by congruence. done.
Qed.

Lemma local_visible p a : node_at L p = Some a → visible p = true ∧ ∃ e, f !! (root ++ p) = Some e ∧ entry_node e a.
Proof. intros Ha. specialize (HtL p). rewrite Ha in HtL. destruct HtL as (? & e & ? & ?). eauto. Qed.

(** The directories above a path common to both trees. *)
Lemma common_dirs p b c : node_at R p = Some b → is_Some (child b c) ∨ n_Type b = NodeTypeDir →
  ∀ q, q `prefix_of` root ++ p → ∃ m, f2 !! q = Some (FDir m).
Proof.
  intros Hb Hdir q Hq. destruct (decide (q `prefix_of` root)) as [Hr|Hr].
  - rewrite Hf2; [rewrite Hf1|].
    + apply (storage_root f root s Hw Hbase q Hr).
    + intros Hx. apply prefix_length in Hx, Hr. rewrite Hbase, length_app in Hx. simpl in Hx. lia.
    + intros p' Hne _ ->. apply prefix_length in Hr. rewrite length_app in Hr. destruct p'; [done|simpl in Hr; lia].
  - destruct (prefix_linear q root (root ++ p)) as [?|[k ->]]; [done|by eexists|done|].
    assert (k ≠ []) as Hk by (intros ->; apply Hr; by rewrite app_nil_r).
    apply prefix_app_inv in Hq. destruct Hq as [k' ->]. rewrite node_at_app in Hb.
    destruct (node_at R k) as [x|] eqn:Ex; [|done]. pose proof (Hwr k x Hk Ex) as Hx.
    unfold written_at in Hx. destruct (n_Type x) eqn:Tx; [|done]. exfalso.
    pose proof (node_at_wf _ _ _ (HR L R HLR) Ex) as Wx. destruct k' as [|y k']; simpl in Hb.
    + injection Hb as ->. destruct Hdir as [[z Hz]|?]; [|congruence]. by rewrite (file_no_child _ c Wx Tx) in Hz.
    + by rewrite (file_no_child _ y Wx Tx) in Hb.
Qed.

Lemma common_dirs_kept p b q :
  node_at R p = Some b → q `prefix_of` root ++ p → remove_deleted root f2 (r_Deleted d) !! q = f2 !! q.
Proof.
  intros Hb Hq. apply kept. intros p' Hne _ Hn ->. apply prefix_app_inv in Hq as [k ->].
  rewrite node_at_app, Hn in Hb. done.
Qed.

Lemma written_kept p b : p ≠ [] → node_at R p = Some b → written_at (remove_deleted root f2 (r_Deleted d)) p b.
Proof.
  intros Hne Hb. pose proof (Hwr p b Hne Hb) as Hx. unfold written_at in *.
  by rewrite (common_dirs_kept p b (root ++ p) Hb).
Qed.

Section one_deleted.
Context (p : path) (a b : Node) (c : bytes) (e : Node).
Context (Ha : node_at L p = Some a) (Hb : node_at R p = Some b) (Hc : child a c = Some e) (Hn : child b c = None).

Lemma R_lacks k : node_at R (p ++ c :: k) = None.
Proof. rewrite node_at_app, Hb. simpl. by rewrite Hn. Qed.

Lemma L_has : node_at L (p ++ [c]) = Some e.
Proof. rewrite node_at_app, Ha. simpl. by rewrite Hc. Qed.

Lemma parent_dir : n_Type b = NodeTypeDir.
Proof.
  rewrite <- (Hty p a b Ha Hb). destruct (n_Type a) eqn:Ta; [|done].
  by rewrite (file_no_child a c (node_at_wf _ _ _ (HL L R HLR) Ha) Ta) in Hc.
Qed.

Lemma above_deleted q :
  q `prefix_of` root ++ p ++ [c] → q ≠ root ++ p ++ [c] →
  (∃ m, f2 !! q = Some (FDir m)) ∧ ∀ x, x ∈ r_Deleted d → q ≠ Join root [x].
Proof.
  rewrite app_assoc. intros Hq Hne. apply prefix_one in Hq; [|done]. split.
  - by apply (common_dirs p b c Hb (or_intror parent_dir)).
  - intros x (p' & Hp' & -> & _ & Hr & _)%deleted_lacking ->. apply prefix_app_inv in Hq as [k ->].
    rewrite node_at_app, Hr in Hb. done.
Qed.

Lemma deleted_listed : join_slash (p ++ [c]) ∈ r_Deleted d.
Proof.
  apply (Hd (EDeleted _)).
  pose proof (pm_at_convert L p (HL L R HLR)) as Pa. rewrite Ha in Pa.
  pose proof (pm_at_convert R p (HR L R HLR)) as Pb. rewrite Hb in Pb.
  assert (∀ n, pm_child (nodeToManifest n) c = nodeToManifest <$> child n c) as Pc.
  { intros n. pose proof (child_manifest (nodeToManifest n) c) as E. rewrite manifestToNode_nodeToManifest in E.
    rewrite E. destruct (pm_child _ c); simpl; [by rewrite nodeToManifest_manifestToNode|done]. }
  eapply (ts_deleted lm rm [] p); [exact Pa|exact Pb|by rewrite Pc, Hc|by rewrite Pc, Hn].
Qed.

Lemma deleted_join : Join root [join_slash (p ++ [c])] = root ++ p ++ [c].
Proof.
  apply Join_rel; [by destruct p|]. destruct (local_visible _ _ L_has) as (_ & x & Hx & _).
  apply Hf in Hx as [Hpl _]. by apply Forall_app in Hpl as [_ ?].
Qed.

Lemma file_deleted :
  n_Type e = NodeTypeFile → remove_deleted root f2 (r_Deleted d) !! (root ++ p ++ [c]) = None.
Proof.
  intros Te. destruct (local_visible _ _ L_has) as (Hv & x & Hx & _ & Hx').
  destruct x as [cx mx|mx]; [|congruence].
  rewrite <- deleted_join. apply (remove_gone _ _ _ _ cx mx); [apply deleted_listed|..]; rewrite deleted_join.
  - rewrite lacking_unwritten by apply R_lacks. by rewrite outside_store.
  - intros q Hq Hne. by apply above_deleted.
  - intros q x Hq Hne Hx2. by apply above_deleted.
Qed.

Lemma dir_stays x k n :
  n_Type e = NodeTypeDir → f !! (root ++ (p ++ [c]) ++ x :: k) = Some n →
  remove_deleted root f2 (r_Deleted d) !! (root ++ (p ++ [c]) ++ x :: k) = Some n ∧
  ∃ m, remove_deleted root f2 (r_Deleted d) !! (root ++ p ++ [c]) = Some (FDir m).
Proof.
  intros Te Hx.
  assert (f2 !! (root ++ (p ++ [c]) ++ x :: k) = Some n) as Hx2.
  { rewrite <- Hx, lacking_unwritten by (rewrite <- app_assoc; apply R_lacks). apply Hf1.
    destruct (local_visible _ _ L_has) as (Hv & _). by apply top_visible_outside; [|destruct p]. }
  assert (∀ y, y ∈ r_Deleted d → root ++ (p ++ [c]) ++ x :: k ≠ Join root [y]) as Hkeep.
  { intros y (p' & _ & -> & _ & _ & [z Hz])%deleted_lacking E%app_inv_head. subst p'.
    rewrite <- app_assoc, removelast_app in Hz by done. simpl in Hz. rewrite R_lacks in Hz. done. }
  split; [by rewrite remove_keeps|].
  destruct (local_visible _ _ L_has) as (Hv & y & Hy & _ & Hy'). destruct y as [cy my|my]; [destruct Hy'; congruence|].
  exists my. rewrite (app_assoc root) in Hx2, Hkeep. apply (remove_nonempty root f2 (r_Deleted d) (root ++ p ++ [c]) x k my n).
  - rewrite lacking_unwritten by apply R_lacks. by rewrite outside_store.
  - intros q Hq Hne. by apply above_deleted.
  - done.
  - done.
  - intros q y Hq Hne Hy2. by apply above_deleted.
Qed.
End one_deleted.

Lemma finish_synced : synced (remove_deleted root f2 (r_Deleted d)).
Proof.
  split_and!.
  - intros p b. apply written_kept.
  - intros p a b c e Ha Hb Hc Hn. destruct (decide (n_Type e = NodeTypeFile)) as [Te|Te].
    + by eapply file_deleted.
    + intros x k n Hx. eapply dir_stays; [done..|by destruct (n_Type e)|done].
  - intros q Hq Hp. rewrite kept, Hf2, Hf1; [done|done|..].
    + intros p Hne [b Hb]. apply Hp; [|done]. by destruct (remote_entry R fR rootR HtR HfR p b Hb).
    + intros p Hne [a Ha] _. apply Hp; [|done]. by destruct (local_visible p a Ha).
Qed.
End finish.

Lemma visible_apart p : visible p = true → p ≠ [] → apart (root ++ p) (bs_baseDir s).
Proof.
  intros Hv Hne. destruct p as [|c p]; [done|]. rewrite (app_assoc root [c] p : root ++ c :: p = _).
  apply apart_below, storage_apart; [done|]. intros ->. done.
Qed.

Lemma rm_children : pm_Children rm = map nodeToManifest (n_Children R).
Proof. rewrite convert_is_nodeToManifest by apply HLR. by destruct R. Qed.

Lemma child_placeable f1 c :
  (∀ q, ¬ bs_baseDir s `prefix_of` q → f1 !! q = f !! q) → has_chunks R (view f1 s) →
  c ∈ n_Children R →
  plain_name (n_Name c) ∧ apart (root ++ [n_Name c]) (bs_baseDir s) ∧ placeable root s f1 [n_Name c] (nodeToManifest c).
Proof.
  intros Hf1 Hch Hc. pose proof (node_at_snoc R [] c R (HR L R HLR) eq_refl Hc) as Hp. cbn [app] in Hp.
  destruct (remote_entry R fR rootR HtR HfR _ _ Hp) as (Hv & Hpl & _). split_and!.
  - by rewrite Forall_singleton in Hpl.
  - by apply visible_apart.
  - by apply (remote_placeable L R HLR Hty f fR root rootR s HtL HtR HfR Hbase f1).
Qed.

(** The reconstruction writes the remote tree and nothing else. *)
Lemma reconstruct_remote f1 :
  store_wf f1 s → (∀ q, ¬ bs_baseDir s `prefix_of` q → f1 !! q = f !! q) → has_chunks R (view f1 s) →
  (∀ h x, long_hash h → view f1 s h = Some x → is_Some (view fS sS h) → view fS sS h = Some x) →
  ∃ f2 n, reconstructFiles root (Some rm) s f1 = (f2, Ret n) ∧
    (∀ p b, p ≠ [] → node_at R p = Some b → written_at f2 p b) ∧
    (∀ q, (∀ p, p ≠ [] → is_Some (node_at R p) → q ≠ root ++ p) → f2 !! q = f1 !! q) ∧
    store_wf f2 s ∧ (∀ h, long_hash h → view f2 s h = view f1 s h).
Proof.
  intros Hw1 Hf1 Hch Hv. pose proof (wf_children _ (HR L R HLR)) as [_ Hnd].
  assert (∀ c, pm_Name (nodeToManifest c) = n_Name c) as Hnm by by intros [].
  destruct (reconstructFiles_spec root s f1 rm) as (f2 & n & E & _ & Hpl & Hfr & Hw2 & Hv2).
  - done.
  - by eapply storage_root.
  - rewrite rm_children, <- list_fmap_compose.
    replace ((pm_Name ∘ nodeToManifest) <$> n_Children R) with (n_Name <$> n_Children R); [done|].
    apply list_fmap_ext. intros ? ?. by rewrite <- Hnm.
  - rewrite rm_children. apply Forall_fmap, Forall_forall. intros c Hc. simpl. rewrite Hnm. by apply child_placeable.
  - exists f2, n. rewrite rm_children in Hpl, Hfr. rewrite Forall_forall in Hpl.
    split_and!; [exact E| |..|done|done].
    + intros p b Hne Hb. destruct p as [|c p]; [done|]. pose proof Hb as Hb'. simpl in Hb'.
      destruct (child R c) as [x|] eqn:Ex; [|done].
      pose proof (child_wf _ _ _ (HR L R HLR) Ex) as Wx. apply child_name in Ex as [<- Hx].
      destruct (Hpl (nodeToManifest x)) as [k Hk]; [by apply (list_elem_of_fmap_2 nodeToManifest)|].
      rewrite Hnm in Hk.
      destruct (placed_at _ _ _ _ _ _ _ _ Wx Hk Hb') as [k' Hk'].
      eapply placed_written; [exact Hk'|]. intros h y Tb Hh Hy.
      apply Hv; [by eapply (file_hash_long L R HLR (n_Name x :: p) b)|done|]. by eapply HcR.
    + intros q Hq. apply Hfr, Forall_fmap, Forall_forall. intros c Hc. simpl. rewrite Hnm. intros k Hk.
      rewrite <- app_assoc. apply Hq; [done|].
      rewrite node_at_app. simpl. rewrite (child_elem R c (HR L R HLR) Hc). apply pm_paths_at; [|done].
      eapply child_wf; [apply (HR L R HLR)|by apply child_elem, Hc; apply (HR L R HLR)].
Qed.

Lemma apply_manifest_spec :
  ∃ f' n, apply_manifest order root s (mkTree (Some L)) rm (served fS sS) (λ _, false) f [] = (f', Ret n) ∧
    synced f' ∧ store_wf f' s ∧ content_addressed f' s ∧ grows s f f'.
Proof.
  unfold apply_manifest. cbn [t_Root fmap option_fmap option_map].
  destruct (diffNode_spec order Hord (S (pm_height lm)) lm rm [] empty_result) as (d & Ed & Hd);
    [apply manifests_comparable, HLR|apply local_plain_names|constructor|lia|].
  assert (∀ e, reported d e ↔ trees_spec lm rm [] e) as Hd'.
  { intros e. rewrite Hd. split; [|auto]. intros [He|?]; [|done]. exfalso. by destruct e; apply not_elem_of_nil in He. }
  unfold DiffTrees. change (join_slash []) with (@nil byte) in Ed. rewrite Ed.
  destruct (download_served fS sS HwS HcaS (S (length (neededChunks f s d))) 0 (neededChunks f s d) s (mkDownload f [] 0))
    as (st & E & (Hw1 & Hca1 & Hg & Hf1) & Hfl); [done|done|done|by eapply missing_long|lia|].
  apply preserved_grows in Hg; [|done].
  unfold download. rewrite E. cbn [dl_fs] in *. rewrite drop_0 in Hfl.
  pose proof (all_chunks_present L R HLR fS sS s f (dl_fs st) d Hw Hd' HcL HcR Hty Hfl) as Hch.
  destruct (reconstruct_remote (dl_fs st) Hw1 Hf1 Hch) as (f2 & n & E2 & Hwr & Hf2 & Hw2 & Hv2).
  { intros h x Hl Hx [y Hy]. rewrite Hfl in Hx by done. destruct (view f s h) as [z|] eqn:Ez.
    - injection Hx as ->. rewrite Hy. f_equal. symmetry. by eapply Hagree.
    - by case_decide. }
  rewrite E2. eexists _, n. split; [done|]. split; [by eapply finish_synced|].
  destruct (store_agree f2 (remove_deleted root f2 (r_Deleted d)) s) as [Hw3 Hv3].
  { intros q Hq. eapply kept; [exact Hd'|]. intros p Hne [a Ha] _ ->.
    destruct (local_visible p a Ha) as [Hv _]. destruct (visible_apart p Hv Hne). tauto. }
  split_and!; [by apply Hw3|..].
  - intros h x Hl Hx. rewrite Hv3, Hv2 in Hx by done. by apply Hca1.
  - intros h x Hl Hx. rewrite Hv3, Hv2 by done. by apply Hg.
Qed.
End run.

(** ** Serving on one side, synchronising on the other *)
Lemma storage_path root :
  resolve root DefaultStorageDir = root ++ [bytes_of_string ".storage"; bytes_of_string "chunks"].
Proof.
  assert (resolve root DefaultStorageDir = (root ++ [bytes_of_string ".storage"]) ++ [bytes_of_string "chunks"]) as ->.
  { vm_compute. reflexivity. }
  by rewrite <- app_assoc.
Qed.

Section end_to_end.
Context `{HashFn}.

(** One side: a directory with its store in [.storage/chunks]. *)
Record side := mkSide { sd_fs : fs; sd_root : path; sd_store : BlobStore }.

Definition side_known (a : side) : bytes → Prop := known (sd_fs a) (sd_store a).

Record side_ok (a : side) : Prop := {
  so_fs : fs_wf (sd_fs a);
  so_root : ∃ md, sd_fs a !! sd_root a = Some (FDir md);
  so_name : hidden (info_name (sd_root a)) = false;
  so_base : bs_baseDir (sd_store a) = sd_root a ++ [bytes_of_string ".storage"; bytes_of_string "chunks"];
  so_store : store_wf (sd_fs a) (sd_store a);
  so_ca : content_addressed (sd_fs a) (sd_store a);
}.

(** The file system after the start-up index of either command. *)
Definition started (a : side) : fs := ix_fs (indexDirectory (λ _, false) (sd_fs a) (sd_root a) (sd_store a) []).

(** Client and server, with the trees each of them builds. *)
Record setting (client server : side) (L R : Node) : Prop := {
  st_client : side_ok client;
  st_server : side_ok server;
  st_local : BuildFromFS (λ _, false) (started client) (sd_root client) = Ret (mkTree (Some L));
  st_remote : BuildFromFS (λ _, false) (started server) (sd_root server) = Ret (mkTree (Some R));
  st_comparable : comparable L R;
  st_collisions : ∀ x y, side_known client x ∨ side_known server x → side_known client y ∨ side_known server y →
    sha256 x = sha256 y → x = y;
  st_types : ∀ p a b, visible p = true → sd_fs client !! (sd_root client ++ p) = Some a →
    sd_fs server !! (sd_root server ++ p) = Some b → is_dir a = is_dir b;
}.

Lemma side_started a (Ha : side_ok a) :
  (∀ x y, side_known a x → side_known a y → sha256 x = sha256 y → x = y) →
  walk_inv (sd_fs a) (sd_store a) (started a) ∧
  ix_faults (indexDirectory (λ _, false) (sd_fs a) (sd_root a) (sd_store a) []) = [] ∧
  grows (sd_store a) (sd_fs a) (started a) ∧
  indexed (sd_fs a) (sd_store a) (sd_root a) (started a) ∧
  ∃ node, BuildFromFS (λ _, false) (started a) (sd_root a) = Ret (mkTree (Some node)) ∧ node_wf node ∧
    tree_of (sd_fs a) (sd_root a) node ∧ tree_of (started a) (sd_root a) node ∧
    has_chunks node (view (started a) (sd_store a)).
Proof.
  intros Hnc. destruct Ha as [Hf [md Hr] Hn Hb Hw Hca].
  assert (bs_baseDir (sd_store a) = sd_root a ++ bytes_of_string ".storage" :: [bytes_of_string "chunks"] ∧
          hidden (bytes_of_string ".storage") = true) as Hb' by done.
  destruct (indexDirectory_spec _ _ _ _ _ md Hf Hw Hca Hnc Hb' Hr Hn) as (Hi & Hft & Hg & Hix).
  destruct (indexed_tree _ _ _ _ _ md _ Hb' Hr Hi) as (node & E & Hn' & Ht & Ht').
  split_and!; [done..|]. exists node. split_and!; [done..|].
  intros p m h Hp Hm Hh. destruct (tree_of_file _ _ _ _ _ Ht Hp Hm) as (Hv & c & cmd & Hc & Hch).
  rewrite Hch in Hh. apply list_elem_of_fmap in Hh as (d & -> & Hd). exists d. by apply (Hix p c cmd d).
Qed.

Lemma client_started unreadable client fts (Hc : side_ok client) :
  client_start unreadable (sd_fs client) (sd_root client) fts =
  let ix := indexDirectory unreadable (sd_fs client) (sd_root client) (sd_store client) fts in
  match BuildFromFS unreadable (ix_fs ix) (sd_root client) with
  | Err e => (ix_fs ix, Err (BuildingTree e))
  | Panic => (ix_fs ix, Panic)
  | Ret localTree => (ix_fs ix, Ret (sd_store client, localTree, ix_faults ix))
  end.
Proof.
  destruct Hc as [Hf Hr Hn Hb Hw Hca]. unfold client_start. rewrite storage_path, <- Hb.
  destruct (wf_base _ _ Hw (bs_baseDir (sd_store client)) ltac:(done)) as [m Hm].
  rewrite (Stat_dirs _ _ (FDir m)) by (done || by apply (Hf _ _ Hm)).
  unfold NewBlobStore. rewrite decide_False by done. rewrite storage_path, <- Hb. unfold MkdirAll.
  rewrite mkdir_all_existing by apply (wf_base _ _ Hw).
  replace (mkBlobStore (bs_baseDir (sd_store client))) with (sd_store client) by by destruct (sd_store client).
  reflexivity.
Qed.

(** A run of the sync command against a peer that runs the serve command:
    the file system and the result of the client. *)
Definition sync_against (order : bytes → list bytes → list bytes) (client server : side) (startTree : Tree)
    : fs * outcome cmd_error (option nat) :=
  match OnManifestRequest (λ _, false) (sd_root server) (sd_store server) startTree (sd_fs server) [] with
  | (g, Ret resp) =>
      syncCmd (λ _, false) order (sd_root client) (Ret resp)
        (λ _ hs, Ret (serve_chunks g (sd_store server) (mkChunkRequest hs 1)))
        (λ _, false) (sd_fs client) []
  | _ => (sd_fs client, Panic)
  end.

Lemma sync_against_spec order client server startTree L R :
  (∀ p l, order p l ≡ₚ l) → setting client server L R →
  tree_of (sd_fs server) (sd_root server) R ∧
  tree_of (started client) (sd_root client) L ∧
  (∀ q, ¬ bs_baseDir (sd_store client) `prefix_of` q → started client !! q = sd_fs client !! q) ∧
  indexed (sd_fs server) (sd_store server) (sd_root server) (started server) ∧
  (∀ h d, long_hash h → view (started server) (sd_store server) h = Some d → side_known server d ∧ sha256 d = h) ∧
  ∃ f' n, sync_against order client server startTree = (f', Ret (Some n)) ∧
    synced L R (started client) (started server) (sd_root client) (sd_store client) (sd_store server) f' ∧
    store_wf f' (sd_store client) ∧ content_addressed f' (sd_store client) ∧
    grows (sd_store client) (sd_fs client) f'.
Proof.
  intros Hord [Hcl Hsv EL ER HLR Hcol Hty].
  destruct (side_started client Hcl) as (HiC & HftC & HgC & _ & nL & EnL & _ & _ & HtL & HcL); [by intros; apply Hcol; auto|].
  destruct (side_started server Hsv) as (HiS & _ & _ & HixS & nR & EnR & _ & HtR & HtR' & HcR); [by intros; apply Hcol; auto|].
  rewrite EL in EnL. injection EnL as <-. rewrite ER in EnR. injection EnR as <-.
  destruct HiC as (HfC & HwC & HcaC & HfrC & HkC). destruct HiS as (HfS & HwS & HcaS & HfrS & HkS).
  assert (same_types L R) as Hst.
  { intros p a b Ha Hb. pose proof (HtL p) as Pa. rewrite Ha in Pa. destruct Pa as (Hv & ea & Ea & _ & Na).
    pose proof (HtR p) as Pb. rewrite Hb in Pb. destruct Pb as (_ & eb & Eb & _ & Nb).
    rewrite HfrC in Ea.
    2:{ eapply (visible_outside _ _ (bytes_of_string ".storage") [bytes_of_string "chunks"]); [|done].
        split; [apply Hcl|done]. }
    pose proof (Hty p ea eb Hv Ea Eb) as Ht. destruct ea, eb; simpl in Ht; try done.
    - destruct Na as [-> _], Nb as [-> _]. done.
    - by rewrite Na, Nb. }
  split_and!; [done|done|done|done|by intros h d Hl Hd; split; [by eapply HkS|by apply HcaS]|].
  unfold sync_against, OnManifestRequest. fold (started server). rewrite ER.
  unfold syncCmd. rewrite client_started by done. cbv zeta. fold (started client). rewrite EL, HftC.
  unfold sync_manifest. cbn [manifest_response t_Root mr_Root fmap option_fmap option_map].
  destruct (apply_manifest_spec order Hord L R HLR Hst (started client) (sd_fs server) (started server)
    (sd_root client) (sd_root server) (sd_store client) (sd_store server) HtL HfC HtR (so_fs _ Hsv) (so_base _ Hcl)
    HwC HcaC HwS HcaS HcL HcR) as (f' & n & E & Hsy & Hw' & Hca' & Hg').
  { intros h x y Hl Hx Hy. apply Hcol; [left; by eapply HkC|right; by eapply HkS|].
    by rewrite (HcaC h x Hl Hx), (HcaS h y Hl Hy). }
  unfold served in E. rewrite E. exists f', n. split_and!; [done|done|done|done|by eapply grows_trans].
Qed.

Lemma tree_of_entry f root node p e :
  tree_of f root node → visible p = true → f !! (root ++ p) = Some e → ∃ b, node_at node p = Some b ∧ entry_node e b.
Proof.
  intros Ht Hv He. specialize (Ht p). destruct (node_at node p) as [b|]; [|by rewrite Ht in He].
  destruct Ht as (_ & e' & He' & Hn). rewrite He in He'. injection He' as <-. eauto.
Qed.

Lemma tree_of_absent f root node p : tree_of f root node → f !! (root ++ p) = None → node_at node p = None.
Proof.
  intros Ht He. specialize (Ht p). destruct (node_at node p) as [b|]; [|done].
  destruct Ht as (_ & e' & He' & _). congruence.
Qed.

(** The data served under the hashes of a file is its content. *)
Lemma served_content server R p c m b ds :
  (∀ x y, side_known server x → side_known server y → sha256 x = sha256 y → x = y) →
  (∀ h d, long_hash h → view (started server) (sd_store server) h = Some d → side_known server d ∧ sha256 d = h) →
  sd_fs server !! (sd_root server ++ p) = Some (FFile c m) → entry_node (FFile c m) b → node_at R p = Some b →
  Forall2 (λ h d, view (started server) (sd_store server) h = Some d) (n_Chunks b) ds → concat ds = c.
Proof.
  intros Hnc Hv Hp (_ & _ & Hch & _) Hb Hds. rewrite Hch in Hds.
  rewrite <- (concat_chunks_of ChunkSize c) by apply ChunkSize_pos. f_equal.
  assert (∀ d, d ∈ chunks_of ChunkSize c → side_known server d) as Hk by (intros d Hd; left; eauto).
  clear -Hds Hk Hv Hnc. revert ds Hds.
  induction (chunks_of ChunkSize c) as [|x xs IH]; intros ds Hds; inversion Hds as [|? d ? ds' Hd Hds']; subst; [done|].
  f_equal; [|by apply IH; [intros y Hy; apply Hk; right|]].
  destruct (Hv _ _ (sha256_long x) Hd) as [Hkd Hh]. apply Hnc; [done|apply Hk; left|done].
Qed.

(** A client entry that the server lacks, in a directory that both have. *)
Lemma only_local client server L R p x e er :
  side_ok client → tree_of (started client) (sd_root client) L → tree_of (sd_fs server) (sd_root server) R →
  (∀ q, ¬ bs_baseDir (sd_store client) `prefix_of` q → started client !! q = sd_fs client !! q) →
  visible (p ++ [x]) = true → sd_fs client !! (sd_root client ++ p ++ [x]) = Some e →
  sd_fs server !! (sd_root server ++ p) = Some er → sd_fs server !! (sd_root server ++ p ++ [x]) = None →
  ∃ a b k, node_at L p = Some a ∧ node_at R p = Some b ∧ child a x = Some k ∧ child b x = None ∧ entry_node e k.
Proof.
  intros Hcl HtL HtR Hfr Hv He Her Hn.
  assert (visible p = true) as Hvp.
  { unfold visible in *. rewrite forallb_app in Hv. by apply andb_true_iff in Hv as [? _]. }
  assert (started client !! (sd_root client ++ p ++ [x]) = Some e) as He'.
  { rewrite Hfr; [done|]. rewrite <- (app_nil_r (p ++ [x])).
    apply (top_visible_outside (sd_root client)); [apply Hcl|done|by destruct p]. }
  destruct (tree_of_entry _ _ _ _ _ HtL Hv He') as (k & Hk & Hek).
  destruct (tree_of_entry _ _ _ _ _ HtR Hvp Her) as (b & Hb & _).
  pose proof (tree_of_absent _ _ _ _ HtR Hn) as Hbn.
  rewrite node_at_app in Hk, Hbn. rewrite Hb in Hbn. destruct (node_at L p) as [a|] eqn:Ea; [|done].
  simpl in Hk, Hbn. exists a, b, k. split_and!; [done|done| | |done].
  - by destruct (child a x).
  - by destruct (child b x).
Qed.

(** One run of sync against an honest serve brings the directory up to date.
    Both sides index, the server sends the manifest of its fresh tree and
    answers chunk requests from its store, no operation fails, no two contents
    involved collide under SHA-256, and no path is a file on one side and a
    directory on the other. Then the command succeeds; every non-empty visible
    file of the server is on the client with exactly that content and its mode
    bits, every visible directory exists; a client file that the server lacks,
    in a directory that both have, is gone; hidden files and everything
    outside the directory are untouched, and the client's store is still
    content addressed and keeps what it had. *)
Theorem sync_end_to_end (order : bytes → list bytes → list bytes) (client server : side) (startTree : Tree) (L R : Node) :
  (∀ p l, order p l ≡ₚ l) → setting client server L R →
  ∃ f' n, sync_against order client server startTree = (f', Ret (Some n)) ∧
    (∀ p c m, visible p = true → sd_fs server !! (sd_root server ++ p) = Some (FFile c m) → c ≠ [] →
       ∃ m', f' !! (sd_root client ++ p) = Some (FFile c m') ∧ (u32 m ≠ 0%Z → m' = syscallMode (u32 m))) ∧
    (∀ p m, visible p = true → p ≠ [] → sd_fs server !! (sd_root server ++ p) = Some (FDir m) →
       ∃ m', f' !! (sd_root client ++ p) = Some (FDir m')) ∧
    (∀ p x c m, visible (p ++ [x]) = true → sd_fs client !! (sd_root client ++ p ++ [x]) = Some (FFile c m) →
       is_Some (sd_fs server !! (sd_root server ++ p)) → sd_fs server !! (sd_root server ++ p ++ [x]) = None →
       f' !! (sd_root client ++ p ++ [x]) = None) ∧
    (∀ q, ¬ bs_baseDir (sd_store client) `prefix_of` q → (∀ p, visible p = true → p ≠ [] → q ≠ sd_root client ++ p) →
       f' !! q = sd_fs client !! q) ∧
    store_wf f' (sd_store client) ∧ content_addressed f' (sd_store client) ∧ grows (sd_store client) (sd_fs client) f'.
Proof.
  intros Hord Hset. pose proof Hset as [Hcl Hsv _ _ _ Hcol _].
  destruct (sync_against_spec order client server startTree L R Hord Hset)
    as (HtR & HtL & HfrC & _ & HvS & f' & n & E & (Hwr & Hdel & Hfr) & Hw' & Hca' & Hg').
  exists f', n. split_and!; [exact E|..|done|done|done].
  - intros p c m Hv Hp Hne. destruct (tree_of_entry _ _ _ _ _ HtR Hv Hp) as (b & Hb & Hn).
    assert (p ≠ []) as Hp0.
    { intros ->. rewrite app_nil_r in Hp. destruct (so_root _ Hsv) as [md Hr]. congruence. }
    pose proof (Hwr p b Hp0 Hb) as Hx. pose proof Hn as (Hmode & Htb & Hch & _).
    unfold written_at in Hx. rewrite Htb in Hx.
    destruct Hx as (ds & m' & Hds & Hf' & Hmd).
    { rewrite Hch. rewrite (chunks_of_cons ChunkSize c) by (done || apply ChunkSize_pos). done. }
    exists m'. rewrite Hf', Hmode in *. split; [|done]. do 2 f_equal.
    eapply served_content; [|done..]. intros x y Hx Hy. apply Hcol; auto.
  - intros p m Hv Hp0 Hp. destruct (tree_of_entry _ _ _ _ _ HtR Hv Hp) as (b & Hb & _ & Hn).
    pose proof (Hwr p b Hp0 Hb) as Hx. unfold written_at in Hx. by rewrite Hn in Hx.
  - intros p x c m Hv Hp [e He] Hn.
    destruct (only_local client server L R p x _ _ Hcl HtL HtR HfrC Hv Hp He Hn) as (a & b & k & Ha & Hb & Hk & Hx & _ & Tk & _).
    specialize (Hdel p a b x k Ha Hb Hk Hx). by rewrite decide_True in Hdel.
  - intros q Hq Hp. rewrite Hfr by done. by apply HfrC.
Qed.

(** A directory deleted on the server is not deleted on the client. Under the
    conditions of sync_end_to_end, when the server lacks a directory of the
    client (in a directory that both have) and it is not empty, then after the
    run it is still there with everything below it unchanged, although the
    command reports success and lists the directory as deleted. *)
Theorem deleted_directory_stays (order : bytes → list bytes → list bytes) (client server : side) (startTree : Tree)
    (L R : Node) (p : path) (x : bytes) (m : Z) (y : bytes) (k : path) (e : fnode) :
  (∀ p l, order p l ≡ₚ l) → setting client server L R →
  visible (p ++ [x]) = true → sd_fs client !! (sd_root client ++ p ++ [x]) = Some (FDir m) →
  sd_fs client !! (sd_root client ++ (p ++ [x]) ++ y :: k) = Some e →
  is_Some (sd_fs server !! (sd_root server ++ p)) → sd_fs server !! (sd_root server ++ p ++ [x]) = None →
  ∃ f' n, sync_against order client server startTree = (f', Ret (Some n)) ∧
    (∃ m', f' !! (sd_root client ++ p ++ [x]) = Some (FDir m')) ∧
    f' !! (sd_root client ++ (p ++ [x]) ++ y :: k) = Some e.
Proof.
  intros Hord Hset Hv Hp Hy [er Her] Hn. pose proof Hset as [Hcl _ _ _ _ _ _].
  destruct (sync_against_spec order client server startTree L R Hord Hset)
    as (HtR & HtL & HfrC & _ & _ & f' & n & E & (_ & Hdel & _) & _).
  destruct (only_local client server L R p x _ _ Hcl HtL HtR HfrC Hv Hp Her Hn) as (a & b & j & Ha & Hb & Hj & Hx & _ & Tj).
  specialize (Hdel p a b x j Ha Hb Hj Hx). rewrite decide_False in Hdel by congruence.
  destruct (Hdel y k e) as [H1 H2]; [|by exists f', n].
  rewrite HfrC; [done|]. apply (top_visible_outside (sd_root client)); [apply Hcl|done|by destruct p].
Qed.
End end_to_end.

(** ** A concrete run *)
Module SyncExample.
#[local] Existing Instance sha256_fips.

Definition str := bytes_of_string.
Definition mk_disk (d : string) (files : list (path * fnode)) : fs :=
  list_to_map (([], FDir 493) :: ([str d], FDir 493) :: ([str d; str ".storage"], FDir 448) ::
    ([str d; str ".storage"; str "chunks"], FDir 448) :: ((λ kv, (str d :: kv.1, kv.2)) <$> files)).
Definition mk_side (d : string) (files : list (path * fnode)) : side :=
  mkSide (mk_disk d files) [str d] (mkBlobStore [str d; str ".storage"; str "chunks"]).

(** The client has an older "a", a file "b" and a directory "sub" that the
    server no longer has; the server has a new directory "n". *)
Definition client : side := mk_side "c"
  [([str "a"], FFile (str "hello") 420); ([str "b"], FFile (str "bye") 420);
   ([str "sub"], FDir 493); ([str "sub"; str "x"], FFile (str "kept") 420)].
Definition server : side := mk_side "s"
  [([str "a"], FFile (str "hello, world") 420);
   ([str "n"], FDir 493); ([str "n"; str "y"], FFile (str "new") 384)].

Lemma client_wf : fs_wf (sd_fs client).
Proof. apply fs_wfb_sound. vm_compute. reflexivity. Qed.

Lemma server_wf : fs_wf (sd_fs server).
Proof. apply fs_wfb_sound. vm_compute. reflexivity. Qed.

Lemma client_store :
  store_wf (sd_fs client) (sd_store client) ∧ ∀ h, long_hash h → view (sd_fs client) (sd_store client) h = None.
Proof.
  apply empty_store; [apply client_wf| |vm_compute; reflexivity].
  apply (base_ok_wf _ _ 448); [apply client_wf|vm_compute; reflexivity].
Qed.

Lemma server_store :
  store_wf (sd_fs server) (sd_store server) ∧ ∀ h, long_hash h → view (sd_fs server) (sd_store server) h = None.
Proof.
  apply empty_store; [apply server_wf| |vm_compute; reflexivity].
  apply (base_ok_wf _ _ 448); [apply server_wf|vm_compute; reflexivity].
Qed.

Lemma client_ok : side_ok client.
Proof.
  split; [apply client_wf|exists 493%Z; vm_compute; reflexivity|reflexivity|reflexivity|apply client_store|].
  intros h d Hl Hd. by rewrite (proj2 client_store) in Hd.
Qed.

Lemma server_ok : side_ok server.
Proof.
  split; [apply server_wf|exists 493%Z; vm_compute; reflexivity|reflexivity|reflexivity|apply server_store|].
  intros h d Hl Hd. by rewrite (proj2 server_store) in Hd.
Qed.

Lemma no_collisions_both x y :
  side_known client x ∨ side_known server x → side_known client y ∨ side_known server y → sha256 x = sha256 y → x = y.
Proof.
  assert (∀ z, side_known client z ∨ side_known server z →
    z ∈ all_chunks (sd_fs client) ++ all_chunks (sd_fs server)) as Hz.
  { intros z Hz. apply elem_of_app. destruct Hz as [Hz|Hz]; [left|right].
    - by eapply known_chunks; [apply client_store|].
    - by eapply known_chunks; [apply server_store|]. }
  assert (no_collisionsb (all_chunks (sd_fs client) ++ all_chunks (sd_fs server)) = true) as Hb by (vm_compute; reflexivity).
  intros Hx Hy. apply (no_collisionsb_sound _ Hb); by apply Hz.
Qed.

Definition tree_node (a : side) : Node :=
  match BuildFromFS (λ _, false) (started a) (sd_root a) with
  | Ret (mkTree (Some n)) => n
  | _ => NewDirNode [] 0 []
  end.

Lemma tree_node_built a :
  side_ok a → (∀ x y, side_known a x → side_known a y → sha256 x = sha256 y → x = y) →
  BuildFromFS (λ _, false) (started a) (sd_root a) = Ret (mkTree (Some (tree_node a))) ∧ node_wf (tree_node a).
Proof.
  intros Ha Hnc. destruct (side_started a Ha Hnc) as (_ & _ & _ & _ & n & E & Hn & _).
  unfold tree_node. by rewrite E.
Qed.

Lemma client_tree :
  BuildFromFS (λ _, false) (started client) (sd_root client) = Ret (mkTree (Some (tree_node client))) ∧
  node_wf (tree_node client).
Proof. apply tree_node_built; [apply client_ok|]. intros x y Hx Hy. apply no_collisions_both; by left. Qed.

Lemma server_tree :
  BuildFromFS (λ _, false) (started server) (sd_root server) = Ret (mkTree (Some (tree_node server))) ∧
  node_wf (tree_node server).
Proof. apply tree_node_built; [apply server_ok|]. intros x y Hx Hy. apply no_collisions_both; by right. Qed.

Lemma trees_comparable : comparable (tree_node client) (tree_node server).
Proof.
  split_and!; [apply client_tree|apply server_tree|..].
  - apply collision_freeb_sound. vm_compute. reflexivity.
  - apply DiffExample.unambiguousb_sound. vm_compute. reflexivity.
Qed.

(** All pairs of entries of the two directories. *)
Definition types_agreeb (a b : side) : bool :=
  forallb (λ x, forallb (λ y, match x.1, y.1 with
    | _ :: p, _ :: q => bool_decide (p = q → is_dir x.2 = is_dir y.2)
    | _, _ => true end) (map_to_list (sd_fs b))) (map_to_list (sd_fs a)).

Lemma types_agree p a b :
  sd_fs client !! (sd_root client ++ p) = Some a → sd_fs server !! (sd_root server ++ p) = Some b → is_dir a = is_dir b.
Proof.
  assert (types_agreeb client server = true) as Hb by (vm_compute; reflexivity).
  unfold types_agreeb in Hb. rewrite List.forallb_forall in Hb. intros Ha Hbb.
  apply elem_of_map_to_list, list_elem_of_In in Ha, Hbb. specialize (Hb _ Ha).
  rewrite List.forallb_forall in Hb. specialize (Hb _ Hbb). cbn in Hb. by apply bool_decide_eq_true in Hb; apply Hb.
Qed.

Lemma example_setting : setting client server (tree_node client) (tree_node server).
Proof.
  split; [apply client_ok|apply server_ok|apply client_tree|apply server_tree|apply trees_comparable
    |apply no_collisions_both|]. intros p a b _. apply types_agree.
Qed.

Definition listed (p : bytes) (l : list bytes) : list bytes := l.
Abbreviation start := (mkTree None).

Lemma sync_end_to_end_witness :
  ∃ f' n, sync_against listed client server start = (f', Ret (Some n)) ∧
    (∃ m, f' !! [str "c"; str "a"] = Some (FFile (str "hello, world") m)) ∧
    (∃ m, f' !! [str "c"; str "n"; str "y"] = Some (FFile (str "new") m)) ∧
    f' !! [str "c"; str "b"] = None.
Proof.
  destruct (sync_end_to_end listed client server start (tree_node client) (tree_node server)
    (λ _ _, reflexivity _) example_setting) as (f' & n & E & Hfile & _ & Hdel & _).
  exists f', n. split; [exact E|]. split_and!.
  - destruct (Hfile [str "a"] (str "hello, world") 420%Z) as (m & Hm & _);
      [vm_compute; reflexivity|vm_compute; reflexivity|discriminate|]. exists m. exact Hm.
  - destruct (Hfile [str "n"; str "y"] (str "new") 384%Z) as (m & Hm & _);
      [vm_compute; reflexivity|vm_compute; reflexivity|discriminate|]. exists m. exact Hm.
  - apply (Hdel [] (str "b") (str "bye") 420%Z).
    + vm_compute. reflexivity.
    + vm_compute. reflexivity.
    + exists (FDir 493). vm_compute. reflexivity.
    + vm_compute. reflexivity.
Defined.

Lemma deleted_directory_stays_witness :
  ∃ f' n, sync_against listed client server start = (f', Ret (Some n)) ∧
    (∃ m, f' !! [str "c"; str "sub"] = Some (FDir m)) ∧
    f' !! [str "c"; str "sub"; str "x"] = Some (FFile (str "kept") 420).
Proof.
  apply (deleted_directory_stays listed client server start (tree_node client) (tree_node server)
    [] (str "sub") 493 (str "x") []).
  - intros p l. reflexivity.
  - apply example_setting.
  - vm_compute. reflexivity.
  - vm_compute. reflexivity.
  - vm_compute. reflexivity.
  - exists (FDir 493). vm_compute. reflexivity.
  - vm_compute. reflexivity.
Defined.
End SyncExample.
