(* ===== verification/SyncWire.v ===== *)
(** * The sync command over the wire ([cmd/p2p-file-sync/main.go], [internal/net/transport.go])

    The whole sync command, connection included: the transport it makes, the
    dial and the handshake, the comparison of the roots, the manifest request
    and the chunk requests, each on a stream of its own. What comes back on a
    stream is a function of what was sent; [wired] is the network that leads to
    a peer which runs the serve command. *)
From Stdlib Require Import Strings.Byte Strings.String.
From S2P Require Import Prelude Sha256 Fs Chunk ChunkStore BlobStore StoreSpec Merkle MerkleSpec DiffSpec Build Manifest DiffTrees Reconstruct Wire Transport TransportLife SyncNet Index Cli SyncSpec.

(** ** The client *)
Inductive connect_error :=
| Dialing
| NoPeerCertificate
| OpeningControlStream
| HandshakeFailed (e : handshake_error).

Inductive client_error :=
| CmdFailed (e : cmd_error)
| ClientTransport (e : transport_error)
| Connecting (e : connect_error).

(** What the network gives the client: the certificates TLS shows ([None] when
    the dial fails), then one stream per request ([None] when it cannot be
    opened), those of the chunk requests by position; and the capacity of the
    slice into which the decoder puts the peer's root. *)
Record network := mkNetwork {
  nw_dial : option (list bytes);
  nw_control : option (bytes → stream);
  nw_manifest : option (bytes → stream);
  nw_chunks : nat → option (bytes → stream);
  nw_rootcap : nat;
}.

Definition lift_cmd {A} (o : outcome cmd_error A) : outcome client_error A :=
  match o with Ret a => Ret a | Err e => Err (CmdFailed e) | Panic => Panic end.

(** [merkleRoot[:8]] on both roots when both are there. A slice expression may
    go up to the capacity. The decoder leaves an absent root nil. *)
Definition compare_roots (localRoot : option bytes) (remoteRoot : bytes) (capacity : nat) : outcome client_error unit :=
  match localRoot, remoteRoot with
  | Some l, _ :: _ =>
      _ ← or_panic (slicez l 0 8);
      if decide (8 ≤ capacity) then Ret () else Panic
  | _, _ => Ret ()
  end.

(** The peer before its [k]-th next request. *)
Definition at_request (p : Peer) (k : nat) : Peer :=
  mkPeer (p_ID p) (p_Name p) (p_Addr p) (p_MerkleRoot p) (p_FileCount p) (p_TotalSize p) (p_conn p)
    (u64 (p_nextReqID p + Z.of_nat k)).

Section client.
Context `{HashFn} `{ProtoCodec}.

(** [RequestChunks] with the opening of its stream. *)
Definition requestChunks_on (opened : option (bytes → stream)) (peer : Peer) (hashes : list bytes)
    : Peer * outcome request_error ChunkResponse :=
  match opened with
  | None => (peer, Err OpeningStream)
  | Some exchange => RequestChunks exchange peer hashes
  end.

Definition requestManifest_on (opened : option (bytes → stream)) : outcome manifest_error ManifestResponse :=
  match opened with
  | None => Err MEOpen
  | Some exchange => Cli.requestManifest exchange
  end.

(** [Connect] and the initiator's [handleConnection] of a transport that has no
    peers yet. *)
Definition Connect (t : Transport.Transport) (addr : bytes) (nw : network) : outcome connect_error Peer :=
  match nw_dial nw with
  | None => Err Dialing
  | Some [] => Err NoPeerCertificate
  | Some (cert :: _) =>
      match nw_control nw with
      | None => Err OpeningControlStream
      | Some exchange =>
          let hello := w_out (SendHandshake (mkWriter [] None) 0 (local_handshake t)).1 in
          match performHandshake t 0 addr (certToFingerprint cert) true (mkWriter [] None) (exchange hello) with
          | (_, Ret peer) => Ret peer
          | (_, Err e) => Err (HandshakeFailed e)
          | (_, Panic) => Panic
          end
      end
  end.

Definition client_config (localRoot : option bytes) : Config :=
  mkConfig (bytes_of_string "sync-client") (default [] localRoot) 0 0.

(** The download loop makes one request per batch and stops at the first that
    fails, so the request at position [i] is number [i / 10]. *)
Definition wire_rpc (nw : network) (peer : Peer) (i : nat) (hashes : list bytes)
    : outcome request_error ChunkResponse :=
  (requestChunks_on (nw_chunks nw i) (at_request peer (i / cli_batchSize)) hashes).2.

(** The command. *)
Definition syncCmd_net (unreadable : path → bool) (order : bytes → list bytes → list bytes) (absDir : path)
    (addr : bytes) (generated : option (list bytes)) (nw : network) (cancelled : nat → bool)
    (f : fs) (fts : list faults) : fs * outcome client_error (option nat) :=
  match client_start unreadable f absDir fts with
  | (f, Err e) => (f, Err (CmdFailed e))
  | (f, Panic) => (f, Panic)
  | (f, Ret (s, localTree, fts')) =>
      let localRoot := n_Hash <$> t_Root localTree in
      match newTransport (client_config localRoot) None generated with
      | Err e => (f, Err (ClientTransport e))
      | Panic => (f, Panic)
      | Ret t =>
          match Connect t addr nw with
          | Err e => (f, Err (Connecting e))
          | Panic => (f, Panic)
          | Ret peer =>
              match compare_roots localRoot (p_MerkleRoot peer) (nw_rootcap nw) with
              | Err e => (f, Err e)
              | Panic => (f, Panic)
              | Ret _ =>
                  let '(f', r) := sync_manifest order absDir s localTree (requestManifest_on (nw_manifest nw))
                                    (wire_rpc nw peer) cancelled f fts' in
                  (f', lift_cmd r)
              end
          end
      end
  end.

(** ** The network that leads to a serve command *)
Section wired.
Context (order : bytes → list bytes → list bytes) (server : side) (startTree : Tree) (ts : Transport.Transport).

(** The callbacks of serve on the file system of the server. *)
Definition on_chunk (g : fs) (req : ChunkRequest) : fs * option ChunkResponse :=
  (g, Some (serve_chunks g (sd_store server) req)).

Definition on_manifest (g : fs) (req : option ManifestRequest) : fs * option ManifestResponse :=
  match OnManifestRequest (λ _, false) (sd_root server) (sd_store server) startTree g [] with
  | (g', Ret resp) => (g', Some resp)
  | (g', _) => (g', None)
  end.

Definition server_stream (g : fs) (out : bytes) : fs * bytes :=
  handleStream (Some on_chunk) (Some on_manifest) g (stream_of out).

Definition manifest_request : bytes :=
  w_out (SendManifestRequest (mkWriter [] None) 1 (mkManifestRequest [] (-1) true)).1.

(** The file system of the server once it has answered the manifest request. *)
Definition after_manifest : fs := (server_stream (sd_fs server) manifest_request).1.

(** [cert] is the server's certificate, [clientID] what it sees of the client's. *)
Definition wired (cert clientID addr : bytes) (capacity : nat) : network :=
  mkNetwork (Some [cert])
    (Some (λ out, stream_of (w_out (performHandshake ts 0 addr clientID false (mkWriter [] None) (stream_of out)).1)))
    (Some (λ out, stream_of (server_stream (sd_fs server) out).2))
    (λ _, Some (λ out, stream_of (server_stream after_manifest out).2))
    capacity.
End wired.

(** ** One request, one answer *)
Inductive answers {St : Type} (f : St → ChunkRequest → St * option ChunkResponse)
    (g : St → option ManifestRequest → St * option ManifestResponse) (s s' : St) : Message → Message → Prop :=
| chunk_answer q r : f s q = (s', Some r) → answers f g s s' (MChunkRequest q) (MChunkResponse r)
| manifest_answer q r : g s (Some q) = (s', Some r) → answers f g s s' (MManifestRequest q) (MManifestResponse r).

Lemma one_request {St : Type} f g (s s' : St) id m resp :
  answers f g s s' m resp → deliverable (id, m) → deliverable (id, resp) →
  ∃ d e env, WriteEnvelope (mkWriter [] None) (kind m) id m = (mkWriter (frame d) None, Ret ()) ∧
    handleStream (Some f) (Some g) s (stream_of (frame d)) = (s', frame e) ∧
    ReadEnvelope (stream_of (frame e)) = (Ret env, Stream [] None) ∧
    env_Type env = kind resp ∧ UnmarshalPayload env (kind resp) = Some resp.
Proof.
  intros Hm Hq Hp.
  destruct (sent_and_read _ id m [] None [] Hq eq_refl) as (d1 & e1 & W1 & R1 & T1 & I1 & U1).
  destruct (sent_and_read _ id resp [] None [] Hp eq_refl) as (d2 & e2 & W2 & R2 & T2 & _ & U2).
  rewrite app_nil_r in R1, R2. simpl app in W1, W2.
  exists d1, d2, e2. split_and!; [done| |done|done|done].
  assert (length (frame d1) = S (3 + length d1)) as Hl by (unfold frame; rewrite length_app, length_be_put; lia).
  unfold handleStream. change (st_buf (stream_of (frame d1))) with (frame d1). rewrite Hl.
  unfold stream_of, UnmarshalPayload in *. cbn [stream_requests]. rewrite R1, T1.
  destruct Hm as [q r Hf|q r Hf]; cbn [kind] in *.
  - unfold handleChunkRequest. rewrite U1, Hf, I1. unfold SendChunkResponse. rewrite W2. cbn [fst]. done.
  - unfold handleManifestRequest. rewrite U1, Hf, I1. unfold SendManifestResponse. rewrite W2. cbn [fst]. done.
Qed.

(** The manifest request is answered by the server's callback. *)
Lemma manifest_rpc {St : Type} f g (s s' : St) (resp : ManifestResponse) :
  g s (Some (mkManifestRequest [] (-1) true)) = (s', Some resp) →
  deliverable (1%Z, MManifestRequest (mkManifestRequest [] (-1) true)) → deliverable (1%Z, MManifestResponse resp) →
  Cli.requestManifest (λ out, stream_of (handleStream (Some f) (Some g) s (stream_of out)).2) = Ret resp ∧
  (handleStream (Some f) (Some g) s (stream_of manifest_request)).1 = s'.
Proof.
  intros Hg Hq Hp.
  destruct (one_request f g s s' 1 _ _ (manifest_answer f g s s' _ _ Hg) Hq Hp)
    as (d & e & env & W & Hs & R & T & U).
  unfold manifest_request, Cli.requestManifest, SendManifestRequest. cbn [kind] in *. rewrite W. cbn [w_out fst].
  by rewrite Hs; cbn [snd]; rewrite R, U.
Qed.

(** ** Batches *)
Definition batch (needed : list bytes) (k : nat) : list bytes :=
  slice (k * cli_batchSize) (if decide (length needed < k * cli_batchSize + cli_batchSize) then length needed
                             else k * cli_batchSize + cli_batchSize) needed.

(** The loop only depends on the answers to its own requests. *)
Lemma download_loop_ext fuel k needed rpc rpc' cancelled s st :
  (∀ j, k ≤ j → j * cli_batchSize < length needed →
     rpc (j * cli_batchSize) (batch needed j) = rpc' (j * cli_batchSize) (batch needed j)) →
  download_loop fuel (k * cli_batchSize) needed rpc cancelled s st =
  download_loop fuel (k * cli_batchSize) needed rpc' cancelled s st.
Proof.
  revert k st. induction fuel as [|fuel IH]; intros k st Hr; [done|]. cbn [download_loop].
  case_decide as Hk; [|done]. destruct (cancelled _); [done|]. fold (batch needed k). rewrite Hr by lia.
  destruct (rpc' _ _) as [resp|e|]; [|done..].
  replace (k * cli_batchSize + cli_batchSize) with (S k * cli_batchSize) by lia. apply IH.
  intros j Hj. apply Hr. lia.
Qed.

(** What the client asks for. *)
Definition needed_of (order : bytes → list bytes → list bytes) (client : side) (L R : Node) : list bytes :=
  match DiffTrees order (Some (convertTreeToManifest L)) (Some (convertTreeToManifest R)) with
  | Ret d => neededChunks (started client) (sd_store client) d
  | _ => []
  end.

Lemma apply_manifest_ext order client L R rpc rpc' cancelled fts :
  (∀ j, j * cli_batchSize < length (needed_of order client L R) →
     rpc (j * cli_batchSize) (batch (needed_of order client L R) j) =
     rpc' (j * cli_batchSize) (batch (needed_of order client L R) j)) →
  apply_manifest order (sd_root client) (sd_store client) (mkTree (Some L)) (convertTreeToManifest R) rpc cancelled
    (started client) fts =
  apply_manifest order (sd_root client) (sd_store client) (mkTree (Some L)) (convertTreeToManifest R) rpc' cancelled
    (started client) fts.
Proof.
  unfold needed_of, apply_manifest. cbn [t_Root fmap option_fmap option_map].
  destruct (DiffTrees _ _ _) as [d|e|]; [|done..]. intros Hr. unfold download.
  by rewrite (download_loop_ext _ 0 _ rpc rpc') by (intros j _; apply Hr).
Qed.

(** ** The connection *)
Lemma handshake_hello t conn addr id w r w' p :
  performHandshake t conn addr id true w r = (w', Ret p) → (SendHandshake w 0 (local_handshake t)).1 = w'.
Proof.
  unfold performHandshake. destruct (SendHandshake w 0 (local_handshake t)) as [w1 [u|e|]]; intros E; [|done..].
  repeat case_match; simplify_eq; done.
Qed.

Lemma connect_wired tc ts server startTree cert addr capacity :
  deliverable (0%Z, MHandshake (local_handshake tc)) → deliverable (0%Z, MHandshakeAck (local_ack ts)) →
  t_localID ts = sha256 cert →
  Connect tc addr (wired server startTree ts cert (t_localID tc) addr capacity) =
  Ret (mkPeer (sha256 cert) (cfg_PeerName (t_config ts)) addr (t_merkleRoot ts) 0 0 0 0).
Proof.
  intros Hh Ha Hid. destruct (handshake_agreement tc ts 0 0 addr addr Hh Ha) as [(hello & reply & Er & Ei) _].
  unfold Connect, wired. cbn [nw_dial nw_control].
  rewrite (proj2 (fingerprint_is_hash cert [])), <- Hid. rewrite (handshake_hello _ _ _ _ _ _ _ _ Ei). cbn [w_out].
  by rewrite Er; cbn [fst w_out]; rewrite Ei.
Qed.

Lemma compare_roots_ok h remote capacity :
  length h = 32 → remote = [] ∨ 8 ≤ capacity → compare_roots (Some h) remote capacity = Ret ().
Proof.
  intros Hh Hr. unfold compare_roots. destruct remote as [|b r]; [done|].
  rewrite (slicez_ok h 0 8) by lia. cbn. destruct Hr as [|Hr]; [done|]. by rewrite decide_True.
Qed.

(** ** The whole run *)
Definition client_transport (L : Node) (der : bytes) (rest : list bytes) : Transport.Transport :=
  NewTransport (client_config (Some (n_Hash L))) (CertFingerprint (Some (der :: rest))).

(** Every message of the run can be marshalled and fits into an envelope. *)
Record carried (order : bytes → list bytes → list bytes) (client server : side) (L R : Node)
    (tc ts : Transport.Transport) : Prop := {
  ca_hello : deliverable (0%Z, MHandshake (local_handshake tc));
  ca_ack : deliverable (0%Z, MHandshakeAck (local_ack ts));
  ca_ask : deliverable (1%Z, MManifestRequest (mkManifestRequest [] (-1) true));
  ca_manifest : deliverable (1%Z, MManifestResponse (manifest_response (mkTree (Some R))));
  ca_batch k : k * cli_batchSize < length (needed_of order client L R) →
    let req := mkChunkRequest (batch (needed_of order client L R) k) 1 in
    deliverable (u64 (Z.of_nat k), MChunkRequest req) ∧
    deliverable (u64 (Z.of_nat k), MChunkResponse (serve_chunks (started server) (sd_store server) req));
}.

Section run.
Context (order : bytes → list bytes → list bytes) (client server : side) (startTree : Tree) (L R : Node).
Context (der cert addr : bytes) (rest : list bytes) (capacity : nat) (ts : Transport.Transport).
Context (Hset : setting client server L R).
Context (Hid : t_localID ts = sha256 cert) (Hcap : t_merkleRoot ts = [] ∨ 8 ≤ capacity).
Context (Hca : carried order client server L R (client_transport L der rest) ts).

Lemma manifest_answered :
  on_manifest server startTree (sd_fs server) (Some (mkManifestRequest [] (-1) true)) =
  (started server, Some (manifest_response (mkTree (Some R)))).
Proof. unfold on_manifest, OnManifestRequest. fold (started server). by rewrite (st_remote _ _ _ _ Hset). Qed.

Lemma after_manifest_started : after_manifest server startTree = started server.
Proof.
  apply (manifest_rpc (on_chunk server) (on_manifest server startTree) (sd_fs server) (started server) _ manifest_answered);
    apply Hca.
Qed.

Lemma wire_rpc_served tc p j :
  p_nextReqID p = 0%Z → j * cli_batchSize < length (needed_of order client L R) →
  wire_rpc (wired server startTree ts cert tc addr capacity) p (j * cli_batchSize) (batch (needed_of order client L R) j) =
  Ret (serve_chunks (started server) (sd_store server) (mkChunkRequest (batch (needed_of order client L R) j) 1)).
Proof.
  intros Hp Hj. unfold wire_rpc, wired, requestChunks_on. cbn [nw_chunks].
  rewrite after_manifest_started, Nat.div_mul by done.
  destruct (ca_batch _ _ _ _ _ _ _ Hca j Hj) as [Hq Hr].
  assert (p_nextReqID (at_request p j) = u64 (Z.of_nat j)) as Hn by (cbn; by rewrite Hp).
  rewrite <- Hn in Hq, Hr.
  apply (chunk_rpc (on_chunk server) (Some (on_manifest server startTree)) (started server) (started server)
           (at_request p j) (batch (needed_of order client L R) j) _ eq_refl Hq Hr).
Qed.

(** Over the wire the command does what it does when it is handed the answers. *)
Lemma syncCmd_wired :
  syncCmd_net (λ _, false) order (sd_root client) addr (Some (der :: rest))
    (wired server startTree ts cert (t_localID (client_transport L der rest)) addr capacity) (λ _, false) (sd_fs client) [] =
  let '(f', r) := sync_against order client server startTree in (f', lift_cmd r).
Proof.
  pose proof Hset as [Hcl _ EL ER [HwL _] Hcol _].
  destruct (side_started client Hcl) as (_ & Hft & _); [by intros; apply Hcol; auto|].
  unfold syncCmd_net, sync_against, syncCmd, OnManifestRequest. fold (started server). rewrite ER.
  rewrite client_started by done. cbv zeta. fold (started client). rewrite EL, Hft.
  cbn [newTransport t_Root fmap option_fmap option_map]. fold (client_transport L der rest).
  rewrite connect_wired by (done || apply Hca). cbn [p_MerkleRoot nw_rootcap wired].
  rewrite compare_roots_ok by (done || by apply wf_hash_length).
  cbn [requestManifest_on nw_manifest wired]. unfold server_stream.
  destruct (manifest_rpc (on_chunk server) (on_manifest server startTree) (sd_fs server) (started server) _ manifest_answered)
    as [-> _]; [apply Hca..|].
  unfold sync_manifest. cbn [manifest_response t_Root mr_Root fmap option_fmap option_map].
  erewrite apply_manifest_ext; [reflexivity|]. intros j Hj. cbv beta. by apply wire_rpc_served.
Qed.
End run.


(** ** Any network *)
Lemma WriteEnvelope_no_panic w k id m w' : WriteEnvelope w k id m ≠ (w', Panic).
Proof. unfold WriteEnvelope. repeat case_match; done. Qed.

Lemma ReadEnvelope_no_panic r r' : ReadEnvelope r ≠ (Panic, r').
Proof. unfold ReadEnvelope. repeat case_match; done. Qed.

Lemma wire_rpc_no_panic nw peer i hashes : wire_rpc nw peer i hashes ≠ Panic.
Proof.
  unfold wire_rpc, requestChunks_on, RequestChunks, SendChunkRequest. intros E.
  destruct (nw_chunks nw i) as [exchange|]; [|done].
  destruct (WriteEnvelope _ _ _ _) as [w [u|e|]] eqn:Ew; [|done|by apply WriteEnvelope_no_panic in Ew].
  destruct (ReadEnvelope _) as [[env|e|] r] eqn:Er; [|done|by apply ReadEnvelope_no_panic in Er].
  cbn in E. repeat case_match; done.
Qed.

(** C9: Downloading keeps the store sound whatever the network does. The
    streams of the chunk requests may not open and may bring back any bytes at
    all, any Put may fail, the context may be cancelled at any batch: the
    download loop terminates without a panic, the store remains well formed and
    every stored content is filed under its own SHA-256 hash; every hash that
    was stored still is, with the content it had, and no file outside the store
    is touched. Only a Put that could not check whether its chunk exists writes
    over a stored content, and then with data of the same SHA-256. *)
Theorem hostile_network_download (nw : network) (peer : Peer) (needed : list bytes) (cancelled : nat → bool)
    (s : BlobStore) (f : fs) (fts : list faults) :
  store_wf f s → content_addressed f s →
  let r := download needed (wire_rpc nw peer) cancelled s (mkDownload f fts 0) in
  r.2 ≠ Panic ∧ store_wf (dl_fs r.1) s ∧ content_addressed (dl_fs r.1) s ∧
  (stats_work fts → grows s f (dl_fs r.1)) ∧
  (∀ h x, long_hash h → view f s h = Some x → ∃ y, view (dl_fs r.1) s h = Some y ∧ sha256 y = sha256 x) ∧
  (∀ q, ¬ bs_baseDir s `prefix_of` q → dl_fs r.1 !! q = f !! q).
Proof.
  intros Hw Hc r. unfold r, download.
  destruct (download_loop_ok (S (length needed)) 0 needed (wire_rpc nw peer) cancelled s (mkDownload f fts 0) Hw Hc
    ltac:(lia) (wire_rpc_no_panic nw peer)) as [(Hw' & Hc' & Hp & Hq) Hn].
  split_and!; [done|done|done|by intros Hst; eapply preserved_grows| |done].
  intros h x Hh Hx. destruct (Hp h x Hh Hx) as (y & Hy & Ey & _). by exists y.
Qed.

(** The dial, the handshake and the manifest request do not panic either, and a
    run that ends before the manifest arrives has only indexed the directory. *)
Lemma connect_no_panic t addr nw : Connect t addr nw ≠ Panic ∧ requestManifest_on (nw_manifest nw) ≠ Panic.
Proof.
  split.
  - unfold Connect, performHandshake, SendHandshake. intros E.
    destruct (nw_dial nw) as [[|c l]|]; [done| |done]. destruct (nw_control nw) as [ex|]; [|done].
    destruct (WriteEnvelope _ _ _ _) as [w [u|e|]] eqn:Ew; [|done|by apply WriteEnvelope_no_panic in Ew].
    destruct (ReadEnvelope _) as [[env|e|] r] eqn:Er; [|done|by apply ReadEnvelope_no_panic in Er].
    repeat case_match; simplify_eq.
  - unfold requestManifest_on, Cli.requestManifest, SendManifestRequest. intros E.
    destruct (nw_manifest nw) as [ex|]; [|done].
    destruct (WriteEnvelope _ _ _ _) as [w [u|e|]] eqn:Ew; [|done|by apply WriteEnvelope_no_panic in Ew].
    destruct (ReadEnvelope _) as [[env|e|] r] eqn:Er; [|done|by apply ReadEnvelope_no_panic in Er].
    repeat case_match; simplify_eq.
Qed.
End client.

(** ** A run between two directories

    The codec of the example knows the messages of one run and encodes a message
    by its number. *)
Module SyncWireExample.
Import SyncSpec.SyncExample.
#[local] Existing Instance sha256_fips.

#[local] Instance message_eq_dec : EqDecision Message.
Proof.
  intros a b. destruct (decide (CountableCodec.to_fields a = CountableCodec.to_fields b)) as [E|E]; [left|right; congruence].
  rewrite <- (CountableCodec.of_to_fields a), <- (CountableCodec.of_to_fields b). by rewrite E.
Defined.

Section table.
Context (table : list Message).

Definition number (m : Message) : option bytes :=
  '(i, _) ← list_find (λ x, x = m) table;
  if decide (Z.of_nat i < 2 ^ 32)%Z then Some (be_put 4 (Z.of_nat i)) else None.

Definition of_number (k : MessageType) (b : bytes) : option Message :=
  m ← table !! Z.to_nat (be_get b); if decide (kind m = k) then Some m else None.

#[program] Definition table_codec : ProtoCodec := {|
  marshal := number;
  unmarshal := of_number;
  marshal_env := CountableCodec.enc_env;
  unmarshal_env := CountableCodec.dec_env;
|}.
Next Obligation.
  intros k b m. unfold of_number. destruct (table !! _) as [x|]; [|done]. cbn. case_decide; [|done]. by intros [= <-].
Qed.
Next Obligation.
  intros m b. unfold number, of_number. destruct (list_find _ table) as [[i x]|] eqn:E; [|done]. cbn.
  apply list_find_Some in E as (Hi & -> & _). case_decide as Hb; [|done]. intros [= <-].
  change (of_number (kind m) (be_put 4 (Z.of_nat i)) = Some m). unfold of_number.
  rewrite be_get_put, Z.mod_small, Nat2Z.id by lia. rewrite Hi. cbn. by rewrite decide_True.
Qed.
Next Obligation. exact (@env_roundtrip CountableCodec.codec). Qed.
End table.

Definition L := tree_node client.
Definition R := tree_node server.
Definition cert : bytes := [x02].
Definition ts : Transport.Transport :=
  NewTransport (mkConfig (str "server-4433") (n_Hash R) 2 0) (CertFingerprint (Some [cert])).
Definition tc : Transport.Transport := client_transport L [x01] [].
Definition first_request : ChunkRequest := mkChunkRequest (batch (needed_of listed client L R) 0) 1.

Definition messages : list Message :=
  [MHandshake (local_handshake tc); MHandshakeAck (local_ack ts);
   MManifestRequest (mkManifestRequest [] (-1) true); MManifestResponse (manifest_response (mkTree (Some R)));
   MChunkRequest first_request; MChunkResponse (serve_chunks (started server) (sd_store server) first_request)].

Definition run_codec : ProtoCodec := table_codec messages.
#[local] Existing Instance run_codec.

Definition deliverableb (im : Z * Message) : bool :=
  match env_bytes (kind im.2) im.1 im.2 with Some data => (Z.of_nat (length data) <=? MaxMessageSize)%Z | None => false end.

Lemma deliverableb_sound im : deliverableb im = true → deliverable im.
Proof.
  unfold deliverableb, deliverable. destruct (env_bytes _ _ _) as [data|]; [|done]. intros Hb%Z.leb_le. eauto.
Qed.

Lemma run_carried : carried listed client server L R tc ts.
Proof.
  split; try (apply deliverableb_sound; vm_compute; reflexivity). intros k Hk.
  assert (k = 0) as ->.
  { assert (length (needed_of listed client L R) = 2) as Hl by (vm_compute; reflexivity).
    rewrite Hl in Hk. unfold cli_batchSize in Hk. lia. }
  split; apply deliverableb_sound; vm_compute; reflexivity.
Qed.

(** A network that answers every stream with three bytes. *)
Definition noise : network :=
  mkNetwork (Some [cert]) (Some (λ _, stream_of [x01; x02; x03])) None (λ _, Some (λ _, stream_of [x01; x02; x03])) 0.

Lemma hostile_network_download_witness :
  content_addressed
    (dl_fs (download [ch_Hash StoreExample.hello] (wire_rpc noise TransportExample.the_peer) (λ _, false)
              StoreExample.store (mkDownload StoreExample.st0.1 [] 0)).1) StoreExample.store.
Proof.
  exact (proj1 (proj2 (proj2 (hostile_network_download noise TransportExample.the_peer [ch_Hash StoreExample.hello]
    (λ _, false) StoreExample.store StoreExample.st0.1 [] (proj1 StoreExample.st0_sim) CliExample.st0_addressed)))).
Defined.
End SyncWireExample.
