(* ===== verification/Signaling.v ===== *)
(** * The signaling server and its client ([internal/nat/signaling.go])

    One connection carries one request and one response. The server's state is
    the table of registered peers; every handler runs its table access under
    the mutex, so connections and clean-ups are the atomic steps. Time is an
    argument, in nanoseconds. Slices are taken with bounds checks, so a slice
    out of range would be [Panic]. *)
From Stdlib Require Import Strings.Byte Strings.String.
From S2P Require Import Prelude Wire.

Open Scope Z_scope.

Definition MsgTypeRegister : byte := x01.
Definition MsgTypeRegisterAck : byte := x02.
Definition MsgTypePeerRequest : byte := x03.
Definition MsgTypePeerResponse : byte := x04.
Definition MsgTypeError : byte := xff.

Definition second : Z := 1000000000.
Definition PeerEntryExpiry : Z := 5 * 60 * second.

Record PeerInfo := mkPeerInfo {
  pi_ID : bytes;
  pi_PublicAddr : bytes;
  pi_LocalAddr : bytes;
  pi_LastSeen : Z;
}.

(** The table of a [SignalingServer]. *)
Abbreviation peers := (gmap bytes PeerInfo).

Definition NewSignalingServer : peers := ∅.
Definition RegisteredPeers (s : peers) : nat := size s.

(** ** What the server writes *)
Definition message (ty : byte) (body : bytes) : bytes := ty :: be_put 4 (u32 (Z.of_nat (length body))) ++ body.

Definition field (b : bytes) : bytes := be_put 2 (u16 (Z.of_nat (length b))) ++ b.

Definition sendError (msg : string) : bytes := message MsgTypeError (bytes_of_string msg).
Definition sendRegisterAck (peerID : bytes) : bytes := message MsgTypeRegisterAck peerID.
Definition sendPeerResponse (p : PeerInfo) : bytes :=
  message MsgTypePeerResponse (field (pi_PublicAddr p) ++ field (pi_LocalAddr p)).

(** ** The handlers *)
Definition len (b : bytes) : Z := Z.of_nat (length b).

(** A length-prefixed field at [pos]: its content and the position after it. *)
Definition read_field (body : bytes) (pos : Z) (bad : string) : outcome string (bytes * Z) :=
  lb ← or_panic (slicez body pos (pos + 2));
  let n := be_get lb in
  let pos := pos + 2 in
  if len body <? pos + n then Err bad
  else d ← or_panic (slicez body pos (pos + n)); Ret (d, pos + n).

Definition parse_register (body : bytes) : outcome string (bytes * bytes * bytes) :=
  if len body <? 6 then Err "invalid register message"%string
  else
    '(peerID, pos) ← read_field body 0 "invalid peer ID";
    if len body <? pos + 2 then Err "invalid public address"%string
    else
      '(publicAddr, pos) ← read_field body pos "invalid public address";
      if len body <? pos + 2 then Err "invalid local address"%string
      else
        '(localAddr, _) ← read_field body pos "invalid local address";
        Ret (peerID, publicAddr, localAddr).

Definition handleRegister (now : Z) (s : peers) (body : bytes) : outcome unit (peers * bytes) :=
  match parse_register body with
  | Err e => Ret (s, sendError e)
  | Panic => Panic
  | Ret (peerID, publicAddr, localAddr) =>
      Ret (<[peerID := mkPeerInfo peerID publicAddr localAddr now]> s, sendRegisterAck peerID)
  end.

Definition handlePeerRequest (s : peers) (body : bytes) : outcome unit (peers * bytes) :=
  if len body <? 2 then Ret (s, sendError "invalid peer request")
  else match read_field body 0 "invalid peer ID" with
       | Err e => Ret (s, sendError e)
       | Panic => Panic
       | Ret (peerID, _) =>
           match s !! peerID with
           | None => Ret (s, sendError "peer not found")
           | Some peer => Ret (s, sendPeerResponse peer)
           end
       end.

(** The limit on request and response bodies. *)
Definition MaxBody : Z := 1024.

Definition handleConnection (now : Z) (s : peers) (r : stream) : outcome unit (peers * bytes) :=
  match ReadFull 5 r with
  | (header, ReadOk, r1) =>
      ty ← or_panic (head header);
      lb ← or_panic (slicez header 1 5);
      let msgLen := be_get lb in
      if MaxBody <? msgLen then Ret (s, sendError "message too large")
      else
        match (if 0 <? msgLen then ReadFull (Z.to_nat msgLen) r1 else ([], ReadOk, r1)) with
        | (body, ReadOk, _) =>
            if decide (ty = MsgTypeRegister) then handleRegister now s body
            else if decide (ty = MsgTypePeerRequest) then handlePeerRequest s body
            else Ret (s, sendError "unknown message type")
        | _ => Ret (s, [])
        end
  | _ => Ret (s, [])
  end.

(** One tick of [cleanupExpiredPeers]. *)
Definition cleanupExpiredPeers (now : Z) (s : peers) : peers :=
  filter (λ kv, ¬ (now - pi_LastSeen kv.2 > PeerEntryExpiry)) s.

(** ** The client *)
Inductive client_error :=
| ReadingHeader
| ResponseTooLarge
| ReadingBody
| RegistrationError (msg : bytes)
| UnexpectedType (ty : byte)
| ErrPeerNotFound
| LookupError (msg : bytes)
| InvalidResponse (msg : string).

Definition readResponse (r : stream) : outcome client_error (byte * bytes) :=
  match ReadFull 5 r with
  | (header, ReadOk, r1) =>
      ty ← or_panic (head header);
      lb ← or_panic (slicez header 1 5);
      let msgLen := be_get lb in
      if MaxBody <? msgLen then Err ResponseTooLarge
      else match (if 0 <? msgLen then ReadFull (Z.to_nat msgLen) r1 else ([], ReadOk, r1)) with
           | (body, ReadOk, _) => Ret (ty, body)
           | _ => Err ReadingBody
           end
  | _ => Err ReadingHeader
  end.

Definition register_message (peerID publicAddr localAddr : bytes) : bytes :=
  message MsgTypeRegister (field peerID ++ field publicAddr ++ field localAddr).

Definition lookup_message (peerID : bytes) : bytes := message MsgTypePeerRequest (field peerID).

(** [exchange] gives, for the bytes sent, the bytes that come back. *)
Definition Register (exchange : bytes → stream) (peerID publicAddr localAddr : bytes) : outcome client_error unit :=
  '(ty, body) ← readResponse (exchange (register_message peerID publicAddr localAddr));
  if decide (ty = MsgTypeError) then Err (RegistrationError body)
  else if decide (ty ≠ MsgTypeRegisterAck) then Err (UnexpectedType ty)
  else Ret ().

Definition parsePeerResponse (body : bytes) : outcome client_error PeerInfo :=
  if len body <? 4 then Err (InvalidResponse "invalid peer response")
  else match read_field body 0 "invalid public address in response" with
       | Err e => Err (InvalidResponse e)
       | Panic => Panic
       | Ret (publicAddr, pos) =>
           if len body <? pos + 2 then Err (InvalidResponse "invalid local address in response")
           else match read_field body pos "invalid local address in response" with
                | Err e => Err (InvalidResponse e)
                | Panic => Panic
                | Ret (localAddr, _) => Ret (mkPeerInfo [] publicAddr localAddr 0)
                end
       end.

Definition LookupPeer (exchange : bytes → stream) (peerID : bytes) : outcome client_error PeerInfo :=
  '(ty, body) ← readResponse (exchange (lookup_message peerID));
  if decide (ty = MsgTypeError) then
    if decide (body = bytes_of_string "peer not found") then Err ErrPeerNotFound else Err (LookupError body)
  else if decide (ty ≠ MsgTypePeerResponse) then Err (UnexpectedType ty)
  else parsePeerResponse body.

(** ** Framing *)
Lemma len_nonneg b : 0 ≤ len b.
Proof. unfold len. lia. Qed.

Lemma len_app a b : len (a ++ b) = len a + len b.
Proof. unfold len. rewrite length_app. lia. Qed.

Lemma len_field b : len (field b) = 2 + len b.
Proof. unfold field. rewrite len_app. unfold len at 1. by rewrite length_be_put. Qed.

Lemma slicez_app (a b c : bytes) i j : i = len a → j = len a + len b → slicez (a ++ b ++ c) i j = Some b.
Proof.
  intros -> ->. pose proof (len_nonneg a). pose proof (len_nonneg b). pose proof (len_nonneg c).
  rewrite slicez_ok by (fold (len (a ++ b ++ c)); rewrite ?len_app; lia).
  replace (Z.to_nat (len a)) with (length a) by (unfold len; lia).
  replace (Z.to_nat (len a + len b)) with (length a + length b)%nat by (unfold len; lia).
  by rewrite slice_app_here.
Qed.

Lemma read_field_ok pre b post bad :
  len b < 2 ^ 16 → read_field (pre ++ field b ++ post) (len pre) bad = Ret (b, len pre + 2 + len b).
Proof.
  intros Hb. pose proof (len_nonneg b). pose proof (len_nonneg post). unfold read_field, field. rewrite <- app_assoc.
  set (lb := be_put 2 (u16 (Z.of_nat (length b)))).
  assert (len lb = 2) as Hlb by (unfold len, lb; by rewrite length_be_put).
  assert (be_get lb = len b) as Hg.
  { unfold lb. rewrite be_get_put, u16_small by (fold (len b); lia). apply Z.mod_small. fold (len b). simpl. lia. }
  clearbody lb. rewrite (slicez_app pre lb (b ++ post)) by lia. cbn. rewrite Hg, !len_app, Hlb.
  destruct (Z.ltb_spec (len pre + (2 + (len b + len post))) (len pre + 2 + len b)); [lia|].
  rewrite (app_assoc pre lb), (slicez_app (pre ++ lb) b post) by (rewrite len_app; lia). done.
Qed.

Lemma read_first b post bad : len b < 2 ^ 16 → read_field (field b ++ post) 0 bad = Ret (b, 2 + len b).
Proof. exact (read_field_ok [] b post bad). Qed.

Lemma read_last pre b bad : len b < 2 ^ 16 → read_field (pre ++ field b) (len pre) bad = Ret (b, len pre + 2 + len b).
Proof. intros Hb. rewrite <- (app_nil_r (field b)). by apply read_field_ok. Qed.

(** A field read within bounds never panics. *)
Lemma read_field_total body pos bad :
  0 ≤ pos → pos + 2 ≤ len body →
  match read_field body pos bad with
  | Ret (d, pos') => pos + 2 ≤ pos' ≤ len body ∧ len d = pos' - pos - 2
  | Err e => e = bad
  | Panic => False
  end.
Proof.
  intros Hp Hb. unfold read_field. rewrite slicez_ok by (fold (len body); lia). simpl.
  set (n := be_get _). assert (0 ≤ n) as Hn by apply be_get_bound.
  destruct (Z.ltb_spec (len body) (pos + 2 + n)); [done|].
  rewrite slicez_ok by (fold (len body); lia). simpl. split; [lia|].
  unfold len in *. rewrite length_slice. lia.
Qed.

Lemma read_message ty body fin :
  len body < 2 ^ 32 →
  ∃ lb, ReadFull 5 (Stream (message ty body) fin) = (ty :: lb, ReadOk, Stream body fin) ∧
    slicez (ty :: lb) 1 5 = Some lb ∧ be_get lb = len body.
Proof.
  intros Hb. exists (be_put 4 (u32 (Z.of_nat (length body)))). set (lb := be_put 4 _).
  assert (length lb = 4)%nat as Hl by apply length_be_put. split_and!.
  - apply (ReadFull_exact 5 (ty :: lb) body). by rewrite length_cons, Hl.
  - pose proof (slicez_app [ty] lb [] 1 5) as E.
    rewrite app_nil_r in E. apply E; [done|]. unfold len. by rewrite Hl.
  - by apply be_get_len.
Qed.

Lemma read_body body fin :
  (if 0 <? len body then ReadFull (Z.to_nat (len body)) (Stream body fin) else ([], ReadOk, Stream body fin))
  = (body, ReadOk, Stream [] fin).
Proof.
  unfold len. destruct (Z.ltb_spec 0 (Z.of_nat (length body))) as [Hp|Hp].
  - rewrite Nat2Z.id. rewrite <- (app_nil_r body) at 2. by apply ReadFull_exact.
  - destruct body; [done|simpl in Hp; lia].
Qed.

Lemma handle_message now s ty body :
  len body < 2 ^ 32 →
  handleConnection now s (stream_of (message ty body)) =
  if MaxBody <? len body then Ret (s, sendError "message too large")
  else if decide (ty = MsgTypeRegister) then handleRegister now s body
  else if decide (ty = MsgTypePeerRequest) then handlePeerRequest s body
  else Ret (s, sendError "unknown message type").
Proof.
  intros Hb. unfold handleConnection, stream_of. destruct (read_message ty body None Hb) as (lb & E1 & E2 & E3).
  rewrite E1. simpl. rewrite E2. simpl. rewrite E3, read_body. done.
Qed.

Lemma read_response ty body : len body ≤ MaxBody → readResponse (stream_of (message ty body)) = Ret (ty, body).
Proof.
  intros Hb. unfold MaxBody in Hb. unfold readResponse, stream_of.
  destruct (read_message ty body None ltac:(lia)) as (lb & E1 & E2 & E3).
  rewrite E1. simpl. rewrite E2. simpl. rewrite E3, read_body.
  destruct (Z.ltb_spec MaxBody (len body)); [unfold MaxBody in *; lia|done].
Qed.

(** ** Clients and server together *)
Inductive sig_op :=
| SRegister (now : Z) (peerID publicAddr localAddr : bytes)
| SLookup (now : Z) (peerID : bytes)
| STick (now : Z).

Inductive sig_res :=
| RRegister (r : outcome client_error unit)
| RLookup (r : outcome client_error PeerInfo)
| RTick.

(** One operation: the request goes over a connection of its own. *)
Definition sig_step (s : peers) (op : sig_op) : outcome unit (peers * sig_res) :=
  match op with
  | SRegister now id pub loc =>
      '(s', out) ← handleConnection now s (stream_of (register_message id pub loc));
      Ret (s', RRegister (Register (λ _, stream_of out) id pub loc))
  | SLookup now id =>
      '(s', out) ← handleConnection now s (stream_of (lookup_message id));
      Ret (s', RLookup (LookupPeer (λ _, stream_of out) id))
  | STick now => Ret (cleanupExpiredPeers now s, RTick)
  end.

Fixpoint sig_run (s : peers) (ops : list sig_op) : outcome unit (peers * list sig_res) :=
  match ops with
  | [] => Ret (s, [])
  | op :: ops' =>
      '(s1, r) ← sig_step s op;
      '(s2, rs) ← sig_run s1 ops';
      Ret (s2, r :: rs)
  end.

(** Entries live for five minutes after their registration. *)
Definition alive (now : Z) (e : PeerInfo) : bool := now <=? pi_LastSeen e + 300 * second.

(** The directory the server promises to be: a finite map. *)
Definition dir_step (m : peers) (op : sig_op) : peers * sig_res :=
  match op with
  | SRegister now id pub loc =>
      if 6 + len id + len pub + len loc <=? MaxBody
      then (<[id := mkPeerInfo id pub loc now]> m, RRegister (Ret ()))
      else (m, RRegister (Err (RegistrationError (bytes_of_string "message too large"))))
  | SLookup _ id =>
      (m, RLookup (if 2 + len id <=? MaxBody
                   then match m !! id with
                        | Some e => Ret (mkPeerInfo [] (pi_PublicAddr e) (pi_LocalAddr e) 0)
                        | None => Err ErrPeerNotFound
                        end
                   else Err (LookupError (bytes_of_string "message too large"))))
  | STick now => (omap (λ e, if alive now e then Some e else None) m, RTick)
  end.

Fixpoint dir_run (m : peers) (ops : list sig_op) : peers * list sig_res :=
  match ops with
  | [] => (m, [])
  | op :: ops' => let '(m1, r) := dir_step m op in let '(m2, rs) := dir_run m1 ops' in (m2, r :: rs)
  end.

(** Every entry fits into a response. *)
Definition entries_fit (m : peers) : Prop :=
  ∀ id e, m !! id = Some e → 6 + len (pi_PublicAddr e) + len (pi_LocalAddr e) ≤ MaxBody.

(** Lengths that fit the 32-bit length of a message. *)
Definition op_small (op : sig_op) : Prop :=
  match op with
  | SRegister _ id pub loc => 6 + len id + len pub + len loc < 2 ^ 32
  | SLookup _ id => 2 + len id < 2 ^ 32
  | STick _ => True
  end.

Lemma parse_registered id pub loc :
  6 + len id + len pub + len loc ≤ MaxBody →
  parse_register (field id ++ field pub ++ field loc) = Ret (id, pub, loc).
Proof.
  unfold MaxBody. intros Hl. pose proof (len_nonneg id). pose proof (len_nonneg pub). pose proof (len_nonneg loc).
  unfold parse_register.
  assert (len (field id ++ field pub ++ field loc) = 6 + len id + len pub + len loc) as Hlen
    by (rewrite !len_app, !len_field; lia).
  rewrite Hlen. destruct (Z.ltb_spec (6 + len id + len pub + len loc) 6); [lia|].
  rewrite read_first, Ret_bind by lia. cbv beta iota.
  destruct (Z.ltb_spec (6 + len id + len pub + len loc) (2 + len id + 2)); [lia|].
  replace (2 + len id) with (len (field id)) by apply len_field.
  rewrite (read_field_ok (field id) pub (field loc)), Ret_bind, len_field by lia. cbv beta iota.
  destruct (Z.ltb_spec (6 + len id + len pub + len loc) (2 + len id + 2 + len pub + 2)); [lia|].
  pose proof (read_last (field id ++ field pub) loc "invalid local address") as E.
  rewrite <- app_assoc, len_app, !len_field in E.
  replace (2 + len id + 2 + len pub) with (2 + len id + (2 + len pub)) by lia. by rewrite E by lia.
Qed.

Lemma parse_answer pub loc :
  6 + len pub + len loc ≤ MaxBody →
  parsePeerResponse (field pub ++ field loc) = Ret (mkPeerInfo [] pub loc 0).
Proof.
  unfold MaxBody. intros Hl. pose proof (len_nonneg pub). pose proof (len_nonneg loc). unfold parsePeerResponse.
  assert (len (field pub ++ field loc) = 4 + len pub + len loc) as Hlen by (rewrite !len_app, !len_field; lia).
  rewrite Hlen. destruct (Z.ltb_spec (4 + len pub + len loc) 4); [lia|].
  rewrite read_first by lia.
  destruct (Z.ltb_spec (4 + len pub + len loc) (2 + len pub + 2)); [lia|].
  pose proof (read_last (field pub) loc "invalid local address in response") as E.
  rewrite len_field in E. by rewrite E by lia.
Qed.

(** A clean-up leaves exactly the entries that are alive. *)
Lemma cleanup_alive now m : cleanupExpiredPeers now m = omap (λ e, if alive now e then Some e else None) m.
Proof.
  apply map_eq. intros id. unfold cleanupExpiredPeers. rewrite lookup_omap, map_lookup_filter.
  destruct (m !! id) as [e|]; [|done]. cbn. unfold alive.
  replace (300 * second) with PeerEntryExpiry by done. destruct (Z.leb_spec now (pi_LastSeen e + PeerEntryExpiry)).
  - by rewrite option_guard_True by (simpl; lia).
  - by rewrite option_guard_False by (simpl; lia).
Qed.

Lemma sig_step_dir s op : entries_fit s → op_small op → sig_step s op = Ret (dir_step s op) ∧ entries_fit (dir_step s op).1.
Proof.
  intros Hs Ho. destruct op as [now id pub loc|now id|now]; cbn [op_small] in Ho; cbn [sig_step dir_step].
  - pose proof (len_nonneg id). pose proof (len_nonneg pub). pose proof (len_nonneg loc).
    assert (len (field id ++ field pub ++ field loc) = 6 + len id + len pub + len loc) as Hlen
      by (rewrite !len_app, !len_field; lia).
    unfold register_message. rewrite handle_message by lia. rewrite Hlen.
    destruct (Z.ltb_spec MaxBody (6 + len id + len pub + len loc)), (Z.leb_spec (6 + len id + len pub + len loc) MaxBody); try lia.
    + split; [|done]. cbn. unfold Register, sendError. rewrite read_response by (vm_compute; done). done.
    + rewrite decide_True by done. unfold handleRegister. rewrite parse_registered by done. split.
      * cbn. unfold Register, sendRegisterAck. by rewrite read_response by lia.
      * intros k e. cbn [fst]. intros [[_ <-]|[_ He]]%lookup_insert_Some; [simpl; lia|by eapply Hs].
  - pose proof (len_nonneg id). unfold lookup_message. rewrite handle_message by (rewrite len_field; lia).
    rewrite len_field. split; [|done].
    destruct (Z.ltb_spec MaxBody (2 + len id)), (Z.leb_spec (2 + len id) MaxBody); try lia.
    + cbn. unfold LookupPeer, sendError. rewrite read_response by (vm_compute; done). done.
    + rewrite decide_False by done. rewrite decide_True by done. unfold handlePeerRequest. rewrite len_field.
      destruct (Z.ltb_spec (2 + len id) 2); [lia|].
      pose proof (read_first id [] "invalid peer ID") as E. rewrite app_nil_r in E. rewrite E by (unfold MaxBody in *; lia).
      destruct (s !! id) as [e|] eqn:Ee; rewrite Ret_bind; cbv beta iota; unfold LookupPeer.
      * unfold sendPeerResponse. specialize (Hs id e Ee).
        rewrite read_response, Ret_bind by (rewrite len_app, !len_field; lia). cbv beta iota.
        rewrite decide_False, decide_False by (done || by intros []). by rewrite parse_answer by done.
      * unfold sendError. rewrite read_response by (vm_compute; done). done.
  - rewrite cleanup_alive. split; [done|]. intros id e. cbn [fst]. rewrite <- cleanup_alive.
    intros [He _]%map_lookup_filter_Some. by eapply Hs.
Qed.

Lemma sig_run_dir s ops : entries_fit s → Forall op_small ops → sig_run s ops = Ret (dir_run s ops) ∧ entries_fit (dir_run s ops).1.
Proof.
  revert s. induction ops as [|op ops IH]; intros s Hs Hops; [done|].
  inversion Hops; subst. destruct (sig_step_dir s op Hs) as [E Hf]; [done|]. cbn [sig_run dir_run].
  rewrite E, Ret_bind. destruct (dir_step s op) as [s1 r]. cbv beta iota. cbn [fst] in Hf.
  destruct (IH s1 Hf) as [E2 Hf2]; [done|]. rewrite E2, Ret_bind. by destruct (dir_run s1 ops).
Qed.

(** C25: The signaling server is a directory. For every sequence of
    registrations, look-ups and clean-up ticks by clients, starting with an
    empty server, no handler panics and every client sees what a finite map
    from peer ids would answer: a registration of at most 1024 bytes succeeds
    and replaces the entry, a larger one is refused; a look-up returns exactly
    the addresses last registered for the id, or ErrPeerNotFound; a clean-up
    drops exactly the entries registered more than five minutes before. *)
Theorem signaling_refines_directory (ops : list sig_op) :
  Forall op_small ops → sig_run NewSignalingServer ops = Ret (dir_run ∅ ops).
Proof.
  intros Ho. by apply sig_run_dir.
Qed.

(** ** Arbitrary connections *)
(** Error texts fit into a response. *)
Definition short_text (e : string) : bool := len (bytes_of_string e) <=? MaxBody.

Lemma parse_register_spec body :
  match parse_register body with
  | Ret (id, pub, loc) => 6 + len id + len pub + len loc ≤ len body
  | Err e => short_text e = true
  | Panic => False
  end.
Proof.
  unfold parse_register. destruct (Z.ltb_spec (len body) 6); [done|].
  pose proof (read_field_total body 0 "invalid peer ID" ltac:(lia) ltac:(lia)) as Hid.
  destruct (read_field body 0 _) as [[id p1]|e|]; cbn; [|by subst|done].
  destruct (Z.ltb_spec (len body) (p1 + 2)); [done|].
  pose proof (read_field_total body p1 "invalid public address" ltac:(lia) ltac:(lia)) as Hpub.
  destruct (read_field body p1 _) as [[pub p2]|e|]; cbn; [|by subst|done].
  destruct (Z.ltb_spec (len body) (p2 + 2)); [done|].
  pose proof (read_field_total body p2 "invalid local address" ltac:(lia) ltac:(lia)) as Hloc.
  destruct (read_field body p2 _) as [[loc p3]|e|]; cbn; [lia|by subst|done].
Qed.

(** What a connection may do to the table. *)
Inductive conn_effect (now : Z) (s : peers) : peers → Prop :=
| conn_same : conn_effect now s s
| conn_insert id pub loc :
    6 + len id + len pub + len loc ≤ MaxBody → conn_effect now s (<[id := mkPeerInfo id pub loc now]> s).

(** A response: nothing, or one message the client's reader accepts. *)
Definition answer_ok (out : bytes) : Prop :=
  out = [] ∨ ∃ ty body, out = message ty body ∧ len body ≤ MaxBody.

Lemma error_ok e : short_text e = true → answer_ok (sendError e).
Proof. intros He%Z.leb_le. right. by eexists _, _. Qed.

Lemma conn_effect_fit now s s' : conn_effect now s s' → entries_fit s → entries_fit s'.
Proof.
  intros [|id pub loc Hl] Hs; [done|]. intros k e [[_ <-]|[_ He]]%lookup_insert_Some; [|by eapply Hs].
  simpl. pose proof (len_nonneg id). lia.
Qed.

Lemma ReadFull_cases n r :
  (∃ b r', ReadFull n r = (b, ReadOk, r') ∧ length b = n) ∨ ∃ b st r', ReadFull n r = (b, st, r') ∧ st ≠ ReadOk.
Proof.
  destruct r as [buf fin]. unfold ReadFull. case_decide as E; [left; eauto|right].
  destruct (st_fin _); [|case_decide]; eauto.
Qed.

Lemma handleConnection_spec now s r :
  entries_fit s →
  ∃ s' out, handleConnection now s r = Ret (s', out) ∧ conn_effect now s s' ∧ answer_ok out.
Proof.
  intros Hs. unfold handleConnection.
  destruct (ReadFull_cases 5 r) as [(hd & r1 & -> & Hl)|(hd & st & r1 & -> & Hst)].
  2:{ destruct st; [done|..]; (eexists s, []; split_and!; [done|constructor|by left]). }
  destruct hd as [|ty hd]; [done|]. cbn [head]. rewrite slicez_ok by (rewrite ?Hl; lia).
  cbn [or_panic]. rewrite !Ret_bind. cbv beta. set (n := be_get _).
  destruct (Z.ltb_spec MaxBody n) as [Hn|Hn].
  { eexists s, _. split_and!; [done|constructor|by apply error_ok]. }
  assert ((∃ body r', (if 0 <? n then ReadFull (Z.to_nat n) r1 else ([], ReadOk, r1)) = (body, ReadOk, r') ∧ len body ≤ MaxBody) ∨
          ∃ body st r', (if 0 <? n then ReadFull (Z.to_nat n) r1 else ([], ReadOk, r1)) = (body, st, r') ∧ st ≠ ReadOk) as Hbd.
  { destruct (Z.ltb_spec 0 n); [|left; by eexists [], r1].
    destruct (ReadFull_cases (Z.to_nat n) r1) as [(b & r' & -> & Hb)|]; [left|by right].
    exists b, r'. split; [done|]. unfold len. lia. }
  destruct Hbd as [(body & r' & -> & Hb)|(body & st & r' & -> & Hst)].
  2:{ destruct st; [done|..]; (eexists s, []; split_and!; [done|constructor|by left]). }
  destruct (decide (ty = MsgTypeRegister)) as [_|_].
  { unfold handleRegister. pose proof (parse_register_spec body) as Hp.
    destruct (parse_register body) as [[[id pub] loc]|e|]; [|by eexists s, _; split_and!; [done|constructor|apply error_ok]|done].
    eexists _, _. split_and!; [done|constructor; lia|]. right. eexists _, _. split; [done|].
    pose proof (len_nonneg pub). pose proof (len_nonneg loc). lia. }
  destruct (decide (ty = MsgTypePeerRequest)) as [_|_].
  2:{ eexists s, _. split_and!; [done|constructor|by apply error_ok]. }
  unfold handlePeerRequest. destruct (Z.ltb_spec (len body) 2).
  { eexists s, _. split_and!; [done|constructor|by apply error_ok]. }
  pose proof (read_field_total body 0 "invalid peer ID" ltac:(lia) ltac:(lia)) as Hid.
  destruct (read_field body 0 _) as [[id p1]|e|]; [| |done].
  2:{ eexists s, _. split_and!; [done|constructor|subst; by apply error_ok]. }
  destruct (s !! id) as [e|] eqn:Ee; (eexists s, _; split_and!; [done|constructor|]); [|by apply error_ok].
  right. eexists _, _. split; [done|]. specialize (Hs id e Ee). rewrite len_app, !len_field. lia.
Qed.

(** ** The server over time *)
Inductive sig_event :=
| EConn (now : Z) (input : stream)
| ETick (now : Z).

Definition event_time (e : sig_event) : Z := match e with EConn now _ => now | ETick now => now end.

Definition event_step (s : peers) (e : sig_event) : outcome unit (peers * bytes) :=
  match e with
  | EConn now r => handleConnection now s r
  | ETick now => Ret (cleanupExpiredPeers now s, [])
  end.

Fixpoint sig_events (s : peers) (evs : list sig_event) : outcome unit (peers * list bytes) :=
  match evs with
  | [] => Ret (s, [])
  | e :: evs' =>
      '(s1, out) ← event_step s e;
      '(s2, outs) ← sig_events s1 evs';
      Ret (s2, out :: outs)
  end.

Lemma event_step_spec s e :
  entries_fit s → ∃ s' out, event_step s e = Ret (s', out) ∧ entries_fit s' ∧ answer_ok out ∧
    ∀ id x, s' !! id = Some x → s !! id = Some x ∨ pi_LastSeen x = event_time e.
Proof.
  intros Hs. destruct e as [now r|now]; cbn [event_step event_time].
  - destruct (handleConnection_spec now s r Hs) as (s' & out & E & Hc & Ho). exists s', out.
    split_and!; [done|by eapply conn_effect_fit|done|]. intros id x Hx.
    destruct Hc as [|k pub loc Hl]; [auto|]. apply lookup_insert_Some in Hx as [[_ <-]|[_ Hx]]; auto.
  - eexists _, []. split_and!; [done| |by left|].
    + intros id x [Hx _]%map_lookup_filter_Some. by eapply Hs.
    + intros id x [Hx _]%map_lookup_filter_Some. auto.
Qed.

Lemma sig_events_app s evs1 evs2 :
  sig_events s (evs1 ++ evs2) =
  ('(s1, o1) ← sig_events s evs1; '(s2, o2) ← sig_events s1 evs2; Ret (s2, o1 ++ o2)).
Proof.
  revert s. induction evs1 as [|e evs1 IH]; intros s; cbn [sig_events app].
  - cbn. by destruct (sig_events s evs2) as [[? ?]| |].
  - destruct (event_step s e) as [[s1 out]| |]; [|done..]. cbn. rewrite IH.
    destruct (sig_events s1 evs1) as [[s2 o1]| |]; [|done..]. cbn. by destruct (sig_events s2 evs2) as [[? ?]| |].
Qed.

Lemma sig_events_spec s evs :
  entries_fit s → ∃ s' outs, sig_events s evs = Ret (s', outs) ∧ entries_fit s' ∧ Forall answer_ok outs ∧
    ∀ id x, s' !! id = Some x → s !! id = Some x ∨ ∃ e, e ∈ evs ∧ pi_LastSeen x = event_time e.
Proof.
  revert s. induction evs as [|e evs IH]; intros s Hs; cbn [sig_events]; [exists s, []; by split_and!; auto|].
  destruct (event_step_spec s e Hs) as (s1 & out & E & Hs1 & Ho & Hx). rewrite E, Ret_bind. cbv beta iota.
  destruct (IH s1 Hs1) as (s2 & outs & E2 & Hs2 & Ho2 & Hx2). rewrite E2, Ret_bind. cbv beta iota.
  exists s2, (out :: outs). split_and!; [done|done|by constructor|]. intros id x Hx'.
  destruct (Hx2 id x Hx') as [H'|(e' & He' & Hl)]; [|right; exists e'; split; [by right|done]].
  destruct (Hx id x H') as [|Hl]; [auto|]. right. exists e. split; [left|done].
Qed.

Lemma event_step_keeps s e s' out id x r :
  event_step s e = Ret (s', out) → entries_fit s → s !! id = Some x → r ≤ pi_LastSeen x →
  r ≤ event_time e ≤ r + PeerEntryExpiry → ∃ y, s' !! id = Some y ∧ r ≤ pi_LastSeen y.
Proof.
  intros E Hs Hx Hr Ht. destruct e as [now inp|now]; cbn [event_step event_time] in *.
  - destruct (handleConnection_spec now s inp Hs) as (s1 & o1 & E1 & Hc & _). rewrite E1 in E. injection E as -> ->.
    destruct Hc as [|k pub loc Hl]; [eauto|]. destruct (decide (k = id)) as [->|Hne].
    + rewrite lookup_insert_eq. eexists. split; [done|]. simpl. lia.
    + rewrite lookup_insert_ne by done. eauto.
  - injection E as <- <-. exists x. split; [|done]. apply map_lookup_filter_Some. split; [done|]. simpl. lia.
Qed.

Lemma sig_events_keeps s evs s' outs id x r :
  sig_events s evs = Ret (s', outs) → entries_fit s → s !! id = Some x → r ≤ pi_LastSeen x →
  (∀ e, e ∈ evs → r ≤ event_time e ≤ r + PeerEntryExpiry) → is_Some (s' !! id).
Proof.
  revert s outs x. induction evs as [|e evs IH]; intros s outs x E Hs Hx Hr Ht; cbn [sig_events] in E.
  { injection E as <- <-. by rewrite Hx. }
  destruct (event_step_spec s e Hs) as (s1 & out & E1 & Hs1 & _). rewrite E1, Ret_bind in E. cbv beta iota in E.
  destruct (sig_events_spec s1 evs Hs1) as (s2 & outs2 & E2 & _). rewrite E2, Ret_bind in E. cbv beta iota in E.
  injection E as -> <-.
  destruct (event_step_keeps s e s1 out id x r E1 Hs Hx Hr) as (y & Hy & Hry); [apply Ht; left|].
  eapply (IH s1 outs2 y); [done|done|done|done|]. intros e' He'. apply Ht. by right.
Qed.

(** How long a registration lives, whatever bytes clients send. From an empty
    server every sequence of connections with arbitrary input and of clean-up
    ticks runs without a panic, and every answer is empty or one message that
    the client's reader accepts. When the last tick was at most half the expiry
    time ago, no entry older than one and a half times the expiry (7.5
    minutes) is left in the table; and an entry is never lost within the
    expiry time (5 minutes) of its registration. *)
Theorem signaling_lifetime (pre post : list sig_event) (c t : Z) :
  Forall (λ e, c ≤ event_time e) post → t ≤ c + PeerEntryExpiry / 2 →
  ∃ s outs, sig_events NewSignalingServer (pre ++ ETick c :: post) = Ret (s, outs) ∧ Forall answer_ok outs ∧
    (∀ id x, s !! id = Some x → t - pi_LastSeen x ≤ PeerEntryExpiry + PeerEntryExpiry / 2) ∧
    (∀ s1 o1 id x, sig_events NewSignalingServer pre = Ret (s1, o1) → s1 !! id = Some x →
       (∀ e, e ∈ ETick c :: post → pi_LastSeen x ≤ event_time e ≤ pi_LastSeen x + PeerEntryExpiry) →
       is_Some (s !! id)).
Proof.
  intros Hc Ht. assert (entries_fit NewSignalingServer) as H0 by done.
  destruct (sig_events_spec NewSignalingServer pre H0) as (s1 & o1 & E1 & Hs1 & Ho1 & _).
  destruct (sig_events_spec s1 (ETick c :: post) Hs1) as (s2 & o2 & E2 & Hs2 & Ho2 & _).
  exists s2, (o1 ++ o2). split_and!.
  - rewrite sig_events_app, E1, Ret_bind. cbv beta iota. by rewrite E2.
  - by apply Forall_app.
  - intros id x Hx. cbn [sig_events event_step] in E2. rewrite Ret_bind in E2. cbv beta iota in E2.
    assert (entries_fit (cleanupExpiredPeers c s1)) as Hs3
      by (intros k y [Hy _]%map_lookup_filter_Some; by eapply Hs1).
    destruct (sig_events_spec _ post Hs3) as (s3 & o3 & E3 & _ & _ & Hfrom).
    rewrite E3, Ret_bind in E2. cbv beta iota in E2. injection E2 as -> _.
    assert (0 < PeerEntryExpiry) by done.
    destruct (Hfrom id x Hx) as [[_ Hy]%map_lookup_filter_Some|(e & He & ->)].
    + simpl in Hy. lia.
    + rewrite Forall_forall in Hc. specialize (Hc e He). lia.
  - intros s1' o1' id x E1' Hx Hev. rewrite E1 in E1'. injection E1' as <- <-.
    by eapply sig_events_keeps.
Qed.

(** ** Witnesses *)
Module SignalingExample.
Definition str := bytes_of_string.
Definition minute : Z := 60 * second.

Definition ops : list sig_op :=
  [SRegister 0 (str "alice") (str "1.2.3.4:5") (str "10.0.0.1:5"); SLookup 1 (str "alice"); SLookup 2 (str "bob");
   STick (6 * minute); SLookup (7 * minute) (str "alice")].

Example ops_seen : (dir_run ∅ ops).2 =
  [RRegister (Ret ()); RLookup (Ret (mkPeerInfo [] (str "1.2.3.4:5") (str "10.0.0.1:5") 0));
   RLookup (Err ErrPeerNotFound); RTick; RLookup (Err ErrPeerNotFound)].
Proof. vm_compute. reflexivity. Qed.

Lemma signaling_refines_directory_witness : sig_run NewSignalingServer ops = Ret (dir_run ∅ ops).
Proof. apply (signaling_refines_directory ops). repeat constructor. Defined.

Definition junk : list sig_event := [EConn 0 (stream_of [xff; x00]); EConn 1 (stream_of (register_message (str "a") [] []))].

Lemma signaling_lifetime_witness :
  ∃ s outs, sig_events NewSignalingServer (junk ++ [ETick (2 * minute)]) = Ret (s, outs) ∧ Forall answer_ok outs.
Proof.
  destruct (signaling_lifetime junk [] (2 * minute) (2 * minute)) as (s & outs & E & Ho & _).
  - constructor.
  - vm_compute. discriminate.
  - exists s, outs. split; [exact E|exact Ho].
Defined.
End SignalingExample.
