(* ===== verification/SignalingLife.v ===== *)
(** * The life of a signaling server ([internal/nat/signaling.go])

    Listening, the accept loop, the expiry goroutine, one handler per accepted
    connection, and [Close], as one transition system around the request
    handling of [Signaling]. [v_events] records in order what happens to the
    peer table. *)
From Stdlib Require Import Strings.Byte Strings.String.
From S2P Require Import Prelude Wire Signaling.

Open Scope Z_scope.

Definition SignalingTimeout : Z := 10 * second.

Inductive closing := NotClosing | Waiting | Closed.

Record server := mkServer {
  v_peers : peers;
  v_listener : option bool;        (* nil, or whether it accepts *)
  v_done : bool;                   (* the channel [done] is closed *)
  v_accept : bool;                 (* [acceptLoop] is running *)
  v_cleanup : bool;                (* [cleanupExpiredPeers] is running *)
  v_handlers : gmap nat stream;    (* handlers with what their connection will deliver *)
  v_close : closing;
  v_events : list sig_event;
}.

Definition new_server : server := mkServer NewSignalingServer None false false false ∅ NotClosing [].

(** [Listen]: an address that cannot be bound leaves everything as it was. *)
Definition sig_Listen (ok : bool) (v : server) : outcome unit server :=
  if ok then Ret (mkServer (v_peers v) (Some true) (v_done v) true true (v_handlers v) (v_close v) (v_events v))
  else Err ().

Definition sig_Addr (v : server) : bool := bool_decide (is_Some (v_listener v)).

(** [Close] up to [wg.Wait]; closing a closed channel panics. *)
Definition sig_Close (v : server) : outcome unit server :=
  if v_done v then Panic
  else Ret (mkServer (v_peers v) ((λ _, false) <$> v_listener v) true (v_accept v) (v_cleanup v) (v_handlers v) Waiting (v_events v)).

Inductive sig_act :=
| VListen
| VAccept (c : nat) (input : stream)   (* the accept loop gets a connection *)
| VAcceptErr                           (* [Accept] fails *)
| VTick (now : Z)                      (* the ticker of the expiry goroutine *)
| VCleanupDone                         (* it sees that [done] is closed *)
| VHandle (c : nat) (now : Z)          (* a handler answers and returns *)
| VClose
| VCloseReturns.                       (* [wg.Wait] returns *)

Definition sig_table (v : server) (e : sig_event) (hs : gmap nat stream) : option server :=
  match event_step (v_peers v) e with
  | Ret (s', _) => Some (mkServer s' (v_listener v) (v_done v) (v_accept v) (v_cleanup v) hs (v_close v) (v_events v ++ [e]))
  | _ => None
  end.

(** [acceptLoop]. An error before [done] is closed is retried at once. *)
Definition accept_loop (v : server) (a : sig_act) : option server :=
  if negb (v_accept v) then None
  else match a, v_listener v with
  | VAccept c input, Some true =>
      match v_handlers v !! c with
      | None => Some (mkServer (v_peers v) (v_listener v) (v_done v) (v_accept v) (v_cleanup v)
                        (<[c := input]> (v_handlers v)) (v_close v) (v_events v))
      | Some _ => None
      end
  | VAcceptErr, _ =>
      Some (mkServer (v_peers v) (v_listener v) (v_done v) (negb (v_done v)) (v_cleanup v)
              (v_handlers v) (v_close v) (v_events v))
  | _, _ => None
  end.

Definition sig_server_step (v : server) (a : sig_act) : option server :=
  match a with
  | VListen =>
      match v_listener v, v_done v, sig_Listen true v with
      | None, false, Ret v' => Some v'
      | _, _, _ => None
      end
  | VAccept _ _ | VAcceptErr => accept_loop v a
  | VTick now => if v_cleanup v then sig_table v (ETick now) (v_handlers v) else None
  | VCleanupDone =>
      if v_cleanup v && v_done v then
        Some (mkServer (v_peers v) (v_listener v) (v_done v) (v_accept v) false (v_handlers v) (v_close v) (v_events v))
      else None
  | VHandle c now =>
      match v_handlers v !! c with
      | Some input => sig_table v (EConn now input) (delete c (v_handlers v))
      | None => None
      end
  | VClose => match sig_Close v with Ret v' => Some v' | _ => None end
  | VCloseReturns =>
      match v_close v, v_accept v, v_cleanup v with
      | Waiting, false, false =>
          Some (mkServer (v_peers v) (v_listener v) (v_done v) false false (v_handlers v) Closed (v_events v))
      | _, _, _ => None
      end
  end.

Fixpoint sig_server_run (v : server) (l : list sig_act) : option server :=
  match l with
  | [] => Some v
  | a :: l' => v' ← sig_server_step v a; sig_server_run v' l'
  end.

(** ** The table is the one of [Signaling] *)
Lemma sig_events_snoc s evs e s1 outs :
  sig_events s evs = Ret (s1, outs) →
  sig_events s (evs ++ [e]) = '(s2, out) ← event_step s1 e; Ret (s2, outs ++ [out]).
Proof.
  revert s outs. induction evs as [|e' evs IH]; intros s outs; cbn.
  - intros [= -> <-]. destruct (event_step s1 e) as [[s2 out]| |]; done.
  - destruct (event_step s e') as [[s' o]| |]; try done. cbn. intros E.
    destruct (sig_events s' evs) as [[s2 os]| |] eqn:E'; try done. cbn in E. injection E as -> <-.
    rewrite (IH s' os E'). destruct (event_step s1 e) as [[s3 o3]| |]; done.
Qed.

Record server_ok (v : server) : Prop := {
  vo_table : ∃ outs, sig_events NewSignalingServer (v_events v) = Ret (v_peers v, outs);
  vo_listener : v_accept v = true ∨ v_cleanup v = true → is_Some (v_listener v);
  vo_close : v_done v = true ↔ v_close v ≠ NotClosing;
  vo_open : v_done v = true → v_listener v ≠ Some true;
  vo_closed : v_close v = Closed → v_accept v = false ∧ v_cleanup v = false;
}.

Lemma new_server_ok : server_ok new_server.
Proof. constructor; cbn; try done; [by exists []|naive_solver]. Qed.

Lemma sig_table_ok v e hs v' : server_ok v → sig_table v e hs = Some v' → server_ok v'.
Proof.
  intros [[outs Ht] H1 H2 H3 H4]. unfold sig_table. destruct (event_step (v_peers v) e) as [[s' o]| |] eqn:E; try done.
  intros [= <-]. constructor; cbn; try done. exists (outs ++ [o]). by rewrite (sig_events_snoc _ _ _ _ _ Ht), E.
Qed.

Lemma sig_step_ok v a v' : server_ok v → sig_server_step v a = Some v' → server_ok v'.
Proof.
  intros Hok. pose proof Hok as [Ht H1 H2 H3 H4].
  destruct a as [|c input| |now| |c now| |]; cbn [sig_server_step]; unfold accept_loop, sig_Listen, sig_Close.
  - destruct (v_listener v) eqn:El; [done|]. destruct (v_done v) eqn:Ed; [done|]. intros [= <-].
    constructor; cbn; rewrite ?Ed; try done. intros E. destruct (v_close v); naive_solver.
  - destruct (v_accept v) eqn:Ea; [|done]. cbn. destruct (v_listener v) as [[]|] eqn:El; try done.
    destruct (v_handlers v !! c); [done|]. intros [= <-]. by constructor; cbn; rewrite ?Ea, ?El.
  - destruct (v_accept v) eqn:Ea; [|done]. cbn. intros [= <-].
    constructor; cbn; try done; [intros _; apply H1; by left|]. intros E. by apply H4 in E as [? _].
  - destruct (v_cleanup v); [|done]. by apply sig_table_ok.
  - destruct (v_cleanup v && v_done v); [|done]. intros [= <-]. constructor; cbn; try done; naive_solver.
  - destruct (v_handlers v !! c); [|done]. by apply sig_table_ok.
  - destruct (v_done v) eqn:Ed; [done|]. intros [= <-]. constructor; cbn; try done.
    + intros E. rewrite fmap_is_Some. by apply H1.
    + by destruct (v_listener v).
  - destruct (v_close v) eqn:Ec; try done. destruct (v_accept v) eqn:Ea; [done|]. destruct (v_cleanup v) eqn:Eu; [done|].
    intros [= <-]. constructor; cbn; try done; naive_solver.
Qed.

Lemma sig_run_ok v l v' : server_ok v → sig_server_run v l = Some v' → server_ok v'.
Proof.
  revert v. induction l as [|a l IH]; intros v Hok; cbn; [by intros [= <-]|].
  destruct (sig_server_step v a) as [v1|] eqn:E; [|done]. cbn. apply IH. by eapply sig_step_ok.
Qed.

(** ** Shutdown *)

(** Steps that the server makes by itself once it is closed. *)
Definition sig_stop_act (a : sig_act) : bool :=
  match a with VAcceptErr | VCleanupDone | VCloseReturns => true | _ => false end.

Definition flag (b : bool) : nat := if b then 1 else 0.
Definition sig_left (v : server) : nat :=
  flag (v_accept v) + flag (v_cleanup v) + match v_close v with Closed => 0 | _ => 1 end.

Lemma sig_stop_decreases v a v' :
  v_done v = true → sig_stop_act a = true → sig_server_step v a = Some v' →
  (sig_left v' < sig_left v)%nat ∧ v_done v' = true.
Proof.
  intros Hd Ha. destruct a; try done; cbn [sig_server_step]; unfold accept_loop, sig_left; rewrite ?Hd.
  - destruct (v_accept v) eqn:E; [|done]. cbn. intros [= <-]. cbn. split; [lia|done].
  - destruct (v_cleanup v) eqn:E; [|done]. cbn. intros [= <-]. cbn. split; [destruct (v_close v); lia|done].
  - destruct (v_close v) eqn:Ec; try done. destruct (v_accept v), (v_cleanup v); try done.
    intros [= <-]. cbn. split; [lia|done].
Qed.

Lemma sig_stop_progress v : v_done v = true → server_ok v →
  v_close v = Closed ∨ ∃ a v', sig_stop_act a = true ∧ sig_server_step v a = Some v'.
Proof.
  intros Hd Hok. pose proof (proj1 (vo_close v Hok) Hd) as Hc.
  destruct (v_accept v) eqn:Ea.
  { right. exists VAcceptErr. eexists. split; [done|]. cbn. unfold accept_loop. by rewrite Ea. }
  destruct (v_cleanup v) eqn:Eu.
  { right. exists VCleanupDone. eexists. split; [done|]. cbn. by rewrite Eu, Hd. }
  destruct (v_close v) eqn:Ec; [done| |by left].
  right. exists VCloseReturns. eexists. split; [done|]. cbn. by rewrite Ec, Ea, Eu.
Qed.

Lemma sig_stop_finishes n v :
  (sig_left v ≤ n)%nat → v_done v = true → server_ok v →
  ∃ l v', (length l ≤ n)%nat ∧ Forall (λ a, sig_stop_act a = true) l ∧ sig_server_run v l = Some v' ∧ v_close v' = Closed.
Proof.
  revert v. induction n as [|n IH]; intros v Hn Hd Hok;
    (destruct (sig_stop_progress v Hd Hok) as [Hc|(a & v1 & Ha & Hs)]; [exists [], v; split_and!; [cbn; lia|constructor|done..]|]);
    destruct (sig_stop_decreases v a v1 Hd Ha Hs) as [Hlt Hd1]; [lia|].
  destruct (IH v1 ltac:(lia) Hd1 (sig_step_ok _ _ _ Hok Hs)) as (l & v' & Hl & Hf & Hr & Hc).
  exists (a :: l), v'. split_and!; [cbn; lia|by constructor|cbn; by rewrite Hs|done].
Qed.

(** The server in its surroundings. However listening, accepting, expiry and
    handlers interleave, the table is the one that the handled requests and the
    ticks of the expiry give one after the other. Once [done] is closed Close
    returns after at most three more steps of the server, the two goroutines
    have then ended and no connection is accepted, and another Close panics. *)
Theorem signaling_server_life l v :
  sig_server_run new_server l = Some v →
  (∃ outs, sig_events NewSignalingServer (v_events v) = Ret (v_peers v, outs)) ∧
  (v_done v = true →
     (∃ l' v', (length l' ≤ 3)%nat ∧ Forall (λ a, sig_stop_act a = true) l' ∧
        sig_server_run v l' = Some v' ∧ v_close v' = Closed) ∧
     (∀ c r, sig_server_step v (VAccept c r) = None) ∧ sig_Close v = Panic) ∧
  (v_close v = Closed → v_accept v = false ∧ v_cleanup v = false).
Proof.
  intros Hr. pose proof (sig_run_ok _ _ _ new_server_ok Hr) as Hok. split_and!; [apply Hok| |apply Hok].
  intros Hd. split_and!.
  - eapply (sig_stop_finishes 3); [|done|done]. unfold sig_left.
    destruct (v_accept v), (v_cleanup v), (v_close v); cbn; lia.
  - intros c r. cbn. unfold accept_loop. pose proof (vo_open v Hok Hd).
    destruct (v_accept v); [|done]. by destruct (v_listener v) as [[]|].
  - unfold sig_Close. by rewrite Hd.
Qed.

(** Handlers are not waited for: a peer can be registered after Close has
    returned, in a table that nothing expires any more. *)
Module SignalingLifeExample.
Definition late : list sig_act :=
  [VListen; VAccept 1 (stream_of (register_message (bytes_of_string "a") [] [])); VClose; VAcceptErr; VCleanupDone;
   VCloseReturns; VHandle 1 5].

Lemma registered_after_close :
  (λ v, (v_close v, RegisteredPeers (v_peers v), sig_server_step v (VTick (10 * PeerEntryExpiry)))) <$>
    sig_server_run new_server late = Some (Closed, 1%nat, None).
Proof. vm_compute. reflexivity. Qed.

Lemma signaling_server_life_witness :
  ∃ v, sig_server_run new_server (take 3 late) = Some v ∧ sig_Close v = Panic.
Proof.
  eexists. split; [vm_compute; reflexivity|].
  refine (proj2 (proj2 (proj1 (proj2 (signaling_server_life (take 3 late) _ _)) _)));
    vm_compute; reflexivity.
Defined.
End SignalingLifeExample.
