(* ===== verification/Stun.v ===== *)
(** * The STUN client ([internal/nat/stun.go])

    Requests and responses are byte strings; sending a datagram and waiting
    for the answer is a parameter. Slices are checked, so reading past the end
    of a datagram would be [Panic]. *)
From Stdlib Require Import Strings.Byte Strings.String.
From S2P Require Import Prelude.

Open Scope Z_scope.

Definition StunBindingRequest : Z := 0x0001.
Definition StunBindingResponse : Z := 0x0101.
Definition StunBindingError : Z := 0x0111.
Definition StunMagicCookie : Z := 0x2112A442.
Definition StunAttrMappedAddress : Z := 0x0001.
Definition StunAttrXorMappedAddress : Z := 0x0020.

Record MappedAddress := mkMapped { ma_IP : bytes; ma_Port : Z }.

#[global] Instance MappedAddress_eq_dec : EqDecision MappedAddress.
Proof. solve_decision. Defined.

Inductive stun_error :=
| ErrStunTimeout
| ErrStunInvalidResp
| ErrNoMappedAddress
| BindingErrorResponse
| UnexpectedMessageType (ty : Z)
| InvalidMagicCookie (cookie : Z)
| TransactionMismatch
| AddressTooShort
| IPv6Unsupported
| UnknownFamily (family : Z)
| QueryFailed (what : string)
| NoServers
| NeedTwoServers.

(** ** Messages *)
Definition buildStunRequest (transactionID : bytes) : bytes :=
  be_put 2 StunBindingRequest ++ be_put 2 0 ++ be_put 4 StunMagicCookie ++
  copy_into (replicate 12 x00) transactionID.

Definition field16 (data : bytes) (i : Z) : option Z := be_get <$> slicez data i (i + 2).
Definition field32 (data : bytes) (i : Z) : option Z := be_get <$> slicez data i (i + 4).
Definition size (data : bytes) : Z := Z.of_nat (length data).

(** [parseXorMappedAddress]; the port is xored with the upper half of the
    cookie of the message. *)
Definition parseXorMappedAddress (data magicCookie : bytes) : outcome stun_error MappedAddress :=
  if size data <? 8 then Err AddressTooShort
  else
    family ← or_panic (idx data 1);
    xorPort ← or_panic (field16 data 2);
    cookie ← or_panic (field32 magicCookie 0);
    let port := Z.lxor xorPort (u16 (Z.shiftr cookie 16)) in
    if byte_val family =? 1 then
      if size data <? 8 then Err AddressTooShort
      else
        xorIP ← or_panic (field32 data 4);
        Ret (mkMapped (be_put 4 (Z.lxor xorIP StunMagicCookie)) port)
    else if byte_val family =? 2 then
      if size data <? 20 then Err AddressTooShort else Err IPv6Unsupported
    else Err (UnknownFamily (byte_val family)).

Definition parseMappedAddress (data : bytes) : outcome stun_error MappedAddress :=
  if size data <? 8 then Err AddressTooShort
  else
    family ← or_panic (idx data 1);
    port ← or_panic (field16 data 2);
    if byte_val family =? 1 then
      ip ← or_panic (slicez data 4 8); Ret (mkMapped ip port)
    else if byte_val family =? 2 then
      if size data <? 20 then Err AddressTooShort
      else ip ← or_panic (slicez data 4 20); Ret (mkMapped ip port)
    else Err (UnknownFamily (byte_val family)).

(** The attribute loop; every turn advances by at least four bytes. *)
Fixpoint parse_attributes (fuel : nat) (data : bytes) (pos end_ : Z) : outcome stun_error MappedAddress :=
  match fuel with
  | O => Panic
  | S fuel' =>
      if pos <? end_ then
        if end_ <? pos + 4 then Err ErrNoMappedAddress
        else
          attrType ← or_panic (field16 data pos);
          attrLen ← or_panic (field16 data (pos + 2));
          let pos := pos + 4 in
          if end_ <? pos + attrLen then Err ErrNoMappedAddress
          else
            attrData ← or_panic (slicez data pos (pos + attrLen));
            if attrType =? StunAttrXorMappedAddress then
              cookie ← or_panic (slicez data 4 8);
              parseXorMappedAddress attrData cookie
            else if attrType =? StunAttrMappedAddress then parseMappedAddress attrData
            else
              let pos := pos + attrLen in
              let pos := if attrLen mod 4 =? 0 then pos else pos + (4 - attrLen mod 4) in
              parse_attributes fuel' data pos end_
      else Err ErrNoMappedAddress
  end.

Definition parseStunResponse (data expectedTxID : bytes) : outcome stun_error MappedAddress :=
  if size data <? 20 then Err ErrStunInvalidResp
  else
    msgType ← or_panic (field16 data 0);
    if msgType =? StunBindingResponse then
      cookie ← or_panic (field32 data 4);
      if cookie =? StunMagicCookie then
        txID ← or_panic (slicez data 8 20);
        if bool_decide (length expectedTxID = 12%nat ∧ txID ≠ expectedTxID) then Err TransactionMismatch
        else
          msgLen ← or_panic (field16 data 2);
          if size data <? 20 + msgLen then Err ErrStunInvalidResp
          else parse_attributes (S (Z.to_nat msgLen)) data 20 (20 + msgLen)
      else Err (InvalidMagicCookie cookie)
    else if msgType =? StunBindingError then Err BindingErrorResponse
    else Err (UnexpectedMessageType msgType).

(** ** The client *)
Record StunClient := mkStunClient { stun_servers : list bytes; stun_timeout : Z }.

Definition DefaultStunServer1 : bytes := bytes_of_string "stun.l.google.com:19302".
Definition DefaultStunServer2 : bytes := bytes_of_string "stun1.l.google.com:19302".
Definition default_timeout : Z := 3 * 1000000000.

Definition NewStunClient : StunClient := mkStunClient [DefaultStunServer1; DefaultStunServer2] default_timeout.

Definition NewStunClientWithServers (servers : list bytes) (timeout : Z) : StunClient :=
  mkStunClient servers (if timeout <=? 0 then default_timeout else timeout).

(** ** Queries

    [query server] is [queryServer] on the one socket: the datagram that comes
    back for the request, or a failure. *)
Section client.
Context {server : Type} (exchange : server → bytes → outcome stun_error bytes).

Definition queryServer (txID : bytes) (srv : server) : outcome stun_error MappedAddress :=
  resp ← exchange srv (buildStunRequest txID);
  parseStunResponse (take 576 resp) txID.

Fixpoint discover_loop (txIDs : nat → bytes) (k : nat) (servers : list server) (lastErr : option stun_error)
    : outcome stun_error MappedAddress :=
  match servers with
  | [] => Err (default NoServers lastErr)
  | srv :: servers' =>
      match queryServer (txIDs k) srv with
      | Ret a => Ret a
      | Err e => discover_loop txIDs (S k) servers' (Some e)
      | Panic => Panic
      end
  end.

Definition Discover (txIDs : nat → bytes) (servers : list server) : outcome stun_error MappedAddress :=
  discover_loop txIDs 0 servers None.

(** [DiscoverWithNewConn]: [socket] is the socket [ListenUDP] opens, if it does.
    The result names the sockets that were closed. *)
Definition DiscoverWithNewConn (socket : option nat) (txIDs : nat → bytes) (servers : list server)
    : outcome (option stun_error) (MappedAddress * nat) * list nat :=
  match socket with
  | None => (Err None, [])
  | Some conn =>
      match Discover txIDs servers with
      | Ret addr => (Ret (addr, conn), [])
      | Err e => (Err (Some e), [conn])
      | Panic => (Panic, [])
      end
  end.

(** The client asks the servers in order until one answers: it returns the
    first success, and the error of the last one when all fail. *)
Lemma discover_loop_first txIDs k servers lastErr :
  (∀ i srv, servers !! i = Some srv → queryServer (txIDs (k + i)%nat) srv ≠ Panic) →
  match discover_loop txIDs k servers lastErr with
  | Ret a => ∃ i srv, servers !! i = Some srv ∧ queryServer (txIDs (k + i)%nat) srv = Ret a ∧
      ∀ j srv', (j < i)%nat → servers !! j = Some srv' → ∃ e, queryServer (txIDs (k + j)%nat) srv' = Err e
  | Err e => (∀ i srv, servers !! i = Some srv → ∃ e', queryServer (txIDs (k + i)%nat) srv = Err e') ∧
      (servers = [] → e = default NoServers lastErr) ∧
      (∀ srv, last servers = Some srv → queryServer (txIDs (k + length servers - 1)%nat) srv = Err e)
  | Panic => False
  end.
Proof.
  revert k lastErr. induction servers as [|srv servers IH]; intros k lastErr Hnp; cbn [discover_loop]; [done|].
  pose proof (Hnp 0%nat srv eq_refl) as H0. rewrite Nat.add_0_r in H0.
  destruct (queryServer (txIDs k) srv) as [a|e|] eqn:Eq; [|clear H0|done].
  { exists 0%nat, srv. rewrite Nat.add_0_r. split_and!; [done..|]. intros j srv' Hj. lia. }
  specialize (IH (S k) (Some e)). cbn [default] in IH.
  assert (∀ i srv', servers !! i = Some srv' → queryServer (txIDs (S k + i)%nat) srv' ≠ Panic) as Hnp'
    by (intros i srv' Hi; specialize (Hnp (S i) srv' Hi); by rewrite Nat.add_succ_r in Hnp).
  specialize (IH Hnp').
  destruct (discover_loop txIDs (S k) servers (Some e)) as [a|e'|]; [| |done].
  - destruct IH as (i & srv' & Hi & Ea & Hall). exists (S i), srv'. rewrite Nat.add_succ_r. split_and!; [done..|].
    intros [|j] s' Hj Hs; [injection Hs as <-; rewrite Nat.add_0_r; eauto|]. rewrite Nat.add_succ_r.
    apply Hall; [lia|done].
  - destruct IH as (Hall & Hnil & Hlast). split_and!; [|done|].
    + intros [|i] s' Hs; [injection Hs as <-; rewrite Nat.add_0_r; eauto|]. rewrite Nat.add_succ_r. by apply Hall.
    + intros s' Hs. destruct servers as [|s2 servers].
      * cbn in Hs. injection Hs as <-. replace (k + length [srv] - 1)%nat with k by (cbn; lia).
        by rewrite (Hnil eq_refl).
      * rewrite last_cons_cons in Hs. specialize (Hlast s' Hs).
        by replace (k + length (srv :: s2 :: servers) - 1)%nat with (S k + length (s2 :: servers) - 1)%nat by (cbn; lia).
Qed.

(** [net.IP.Equal]. *)
Definition v4_in_v6 : bytes := replicate 10 x00 ++ [xff; xff].
Definition ip_equal (a b : bytes) : bool :=
  bool_decide (a = b ∧ length a = length b) ||
  (bool_decide (length a = 4%nat ∧ length b = 16%nat) && bool_decide (b = v4_in_v6 ++ a)) ||
  (bool_decide (length a = 16%nat ∧ length b = 4%nat) && bool_decide (a = v4_in_v6 ++ b)).

(** [DetectNATType]: the answer, [None] standing for "Unknown". *)
Inductive nat_type := ConeNAT | SymmetricNAT.

Definition DetectNATType (txIDs : nat → bytes) (servers : list server) : outcome stun_error nat_type :=
  match servers with
  | _ :: second :: _ =>
      addr1 ← Discover txIDs servers;
      addr2 ← queryServer (txIDs (length servers)) second;
      if ip_equal (ma_IP addr1) (ma_IP addr2) && (ma_Port addr1 =? ma_Port addr2) then Ret ConeNAT
      else Ret SymmetricNAT
  | _ => Err NeedTwoServers
  end.
End client.

(** ** No datagram makes the parser panic *)
Lemma field16_ok data i : 0 ≤ i → i + 2 ≤ size data → ∃ v, field16 data i = Some v ∧ 0 ≤ v < 2 ^ 16.
Proof.
  intros Hi Hl. unfold field16. rewrite slicez_ok by (fold (size data); lia). eexists. split; [done|].
  set (l := slice _ _ _). pose proof (be_get_bound l) as Hb.
  assert (length l = 2%nat) as E by (unfold l, size in *; rewrite length_slice; lia). by rewrite E in Hb.
Qed.

Lemma field32_ok data i : 0 ≤ i → i + 4 ≤ size data → ∃ v, field32 data i = Some v.
Proof. intros Hi Hl. unfold field32. rewrite slicez_ok by (fold (size data); lia). by eexists. Qed.

Lemma idx_ok data i : 0 ≤ i < size data → ∃ b, idx data i = Some b.
Proof.
  unfold size. intros Hi. replace i with (Z.of_nat (Z.to_nat i)) by lia. rewrite idx_Some.
  destruct (lookup_lt_is_Some_2 data (Z.to_nat i)) as [b ->]; [lia|eauto].
Qed.

Lemma slicez_size data i j : 0 ≤ i ≤ j → j ≤ size data → ∃ l, slicez data i j = Some l ∧ size l = j - i.
Proof.
  intros Hi Hj. rewrite slicez_ok by (fold (size data); lia). eexists. split; [done|].
  unfold size in *. rewrite length_slice. lia.
Qed.

Lemma parseXor_total data cookie : size cookie = 4 → parseXorMappedAddress data cookie ≠ Panic.
Proof.
  intros Hc. unfold parseXorMappedAddress. destruct (Z.ltb_spec (size data) 8); [done|].
  destruct (idx_ok data 1) as [b ->]; [lia|]. destruct (field16_ok data 2) as (v & -> & _); [lia..|].
  destruct (field32_ok cookie 0) as (w & ->); [lia..|]. simpl.
  destruct (byte_val b =? 1); [|by destruct (byte_val b =? 2); [destruct (size data <? 20)|]].
  destruct (field32_ok data 4) as (x & ->); [lia..|]. done.
Qed.

Lemma parseMapped_total data : parseMappedAddress data ≠ Panic.
Proof.
  unfold parseMappedAddress. destruct (Z.ltb_spec (size data) 8); [done|].
  destruct (idx_ok data 1) as [b ->]; [lia|]. destruct (field16_ok data 2) as (v & -> & _); [lia..|]. simpl.
  destruct (byte_val b =? 1); [by destruct (slicez_size data 4 8) as (l & -> & _); [lia..|]|].
  destruct (byte_val b =? 2); [|done]. destruct (Z.ltb_spec (size data) 20); [done|].
  by destruct (slicez_size data 4 20) as (l & -> & _); [lia..|].
Qed.

Lemma parse_attributes_total fuel data pos end_ :
  20 ≤ pos → end_ ≤ size data → Z.max 0 (end_ - pos) < Z.of_nat fuel → parse_attributes fuel data pos end_ ≠ Panic.
Proof.
  revert pos. induction fuel as [|fuel IH]; intros pos Hp He Hf; [lia|]. cbn [parse_attributes].
  destruct (Z.ltb_spec pos end_); [|done].
  destruct (Z.ltb_spec end_ (pos + 4)); [done|].
  destruct (field16_ok data pos) as (ty & -> & _); [lia..|].
  destruct (field16_ok data (pos + 2)) as (n & -> & Hn); [lia..|]. cbn.
  destruct (Z.ltb_spec end_ (pos + 4 + n)); [done|].
  destruct (slicez_size data (pos + 4) (pos + 4 + n)) as (l & -> & _); [lia..|]. cbn.
  destruct (ty =? StunAttrXorMappedAddress).
  { destruct (slicez_size data 4 8) as (c & -> & Hc); [lia..|]. cbn. apply parseXor_total. lia. }
  destruct (ty =? StunAttrMappedAddress); [apply parseMapped_total|].
  apply IH; [|done|]; pose proof (Z.mod_pos_bound n 4 ltac:(lia)); destruct (n mod 4 =? 0); lia.
Qed.

Lemma parseStunResponse_total data tx : parseStunResponse data tx ≠ Panic.
Proof.
  unfold parseStunResponse. destruct (Z.ltb_spec (size data) 20); [done|].
  destruct (field16_ok data 0) as (ty & -> & _); [lia..|]. rewrite or_panic_bind.
  destruct (ty =? StunBindingResponse); [|by destruct (ty =? StunBindingError)].
  destruct (field32_ok data 4) as (c & ->); [lia..|]. rewrite or_panic_bind.
  destruct (c =? StunMagicCookie); [|done].
  destruct (slicez_size data 8 20) as (x & -> & _); [lia..|]. rewrite or_panic_bind. case_bool_decide; [done|].
  destruct (field16_ok data 2) as (n & -> & Hn); [lia..|]. rewrite or_panic_bind.
  destruct (Z.ltb_spec (size data) (20 + n)); [done|]. apply parse_attributes_total; lia.
Qed.

(** ** The reference encoding of RFC 5389 *)
Definition attribute (ty : Z) (data : bytes) : bytes :=
  be_put 2 ty ++ be_put 2 (size data) ++ data ++ replicate (Z.to_nat ((- size data) mod 4)) x00.

Definition xor_address (ip : bytes) (port : Z) : bytes :=
  [x00; x01] ++ be_put 2 (Z.lxor port (Z.shiftr StunMagicCookie 16)) ++ be_put 4 (Z.lxor (be_get ip) StunMagicCookie).

Definition binding_response (txID attrs : bytes) : bytes :=
  be_put 2 StunBindingResponse ++ be_put 2 (size attrs) ++ be_put 4 StunMagicCookie ++ txID ++ attrs.

Lemma size_app a b : size (a ++ b) = size a + size b.
Proof. unfold size. rewrite length_app. lia. Qed.

Lemma size_be_put n v : size (be_put n v) = Z.of_nat n.
Proof. unfold size. by rewrite length_be_put. Qed.

Lemma slicez_at (a b c : bytes) i j : i = size a → j = size a + size b → slicez (a ++ b ++ c) i j = Some b.
Proof.
  intros -> ->. unfold size. rewrite slicez_ok by (rewrite ?length_app; lia).
  rewrite Nat2Z.id. replace (Z.to_nat (Z.of_nat (length a) + Z.of_nat (length b))) with (length a + length b)%nat by lia.
  by rewrite slice_app_here.
Qed.

Lemma field16_at a v c i : i = size a → 0 ≤ v < 2 ^ 16 → field16 (a ++ be_put 2 v ++ c) i = Some v.
Proof.
  intros -> Hv. unfold field16. rewrite slicez_at; [|done|by rewrite size_be_put].
  cbn [fmap option_fmap option_map]. rewrite be_get_put, Z.mod_small by (simpl; lia). done.
Qed.

Lemma field32_at a v c i : i = size a → 0 ≤ v < 2 ^ 32 → field32 (a ++ be_put 4 v ++ c) i = Some v.
Proof.
  intros -> Hv. unfold field32. rewrite slicez_at; [|done|by rewrite size_be_put].
  cbn [fmap option_fmap option_map]. rewrite be_get_put, Z.mod_small by (simpl; lia). done.
Qed.

Lemma lxor_bound n a b : 0 ≤ n → 0 ≤ a < 2 ^ n → 0 ≤ b < 2 ^ n → 0 ≤ Z.lxor a b < 2 ^ n.
Proof.
  intros Hn Ha Hb. assert (0 ≤ Z.lxor a b) as Hx by (apply Z.lxor_nonneg; lia). split; [done|].
  destruct (decide (Z.lxor a b = 0)) as [->|Hz]; [lia|]. apply Z.log2_lt_pow2; [lia|].
  pose proof (Z.log2_lxor a b ltac:(lia) ltac:(lia)) as Hl.
  assert (∀ x, 0 ≤ x < 2 ^ n → Z.log2 x < n ∨ n = 0) as Hlog.
  { intros x Hr. destruct (decide (x = 0)) as [->|Hx0]; [simpl; lia|]. left. apply Z.log2_lt_pow2; lia. }
  destruct (Hlog a Ha) as [Hla| ->], (Hlog b Hb) as [Hlb|E]; try lia.
  - subst. assert (a = 0 ∧ b = 0) as [-> ->] by (simpl in *; lia). done.
  - assert (a = 0 ∧ b = 0) as [-> ->] by (simpl in *; lia). done.
  - assert (a = 0 ∧ b = 0) as [-> ->] by (simpl in *; lia). done.
Qed.

Lemma lxor_twice a b : Z.lxor (Z.lxor a b) b = a.
Proof. by rewrite Z.lxor_assoc, Z.lxor_nilpotent, Z.lxor_0_r. Qed.

Lemma size_attribute ty d : size (attribute ty d) = 4 + size d + (- size d) mod 4.
Proof.
  unfold attribute. rewrite !size_app, !size_be_put.
  pose proof (Z.mod_pos_bound (- size d) 4 ltac:(lia)). unfold size at 2. rewrite length_replicate. lia.
Qed.

Lemma padded n : 0 ≤ n → (if n mod 4 =? 0 then n else n + (4 - n mod 4)) = n + (- n) mod 4.
Proof.
  intros Hn. destruct (Z.eqb_spec (n mod 4) 0) as [E|E].
  - rewrite Z.mod_opp_l_z by lia. lia.
  - rewrite Z.mod_opp_l_nz by lia. lia.
Qed.

Lemma size_nonneg d : 0 ≤ size d.
Proof. unfold size. lia. Qed.

(** Reading the head of an attribute that lies at [pos]. *)
Lemma attribute_head pre ty d post :
  0 ≤ ty < 2 ^ 16 → size d < 2 ^ 16 →
  field16 (pre ++ attribute ty d ++ post) (size pre) = Some ty ∧
  field16 (pre ++ attribute ty d ++ post) (size pre + 2) = Some (size d) ∧
  slicez (pre ++ attribute ty d ++ post) (size pre + 4) (size pre + 4 + size d) = Some d.
Proof.
  intros Ht Hd. pose proof (size_nonneg d). unfold attribute. rewrite <- !app_assoc. split_and!.
  - by apply field16_at.
  - rewrite (app_assoc pre). apply field16_at; [|lia]. by rewrite size_app, size_be_put.
  - rewrite (app_assoc pre), (app_assoc (pre ++ _)). apply slicez_at; rewrite !size_app, !size_be_put; lia.
Qed.

Lemma parse_skip fuel pre ty d post end_ :
  0 ≤ ty < 2 ^ 16 → ty ≠ StunAttrXorMappedAddress → ty ≠ StunAttrMappedAddress → size d < 2 ^ 16 →
  size pre + size (attribute ty d) ≤ end_ →
  parse_attributes (S fuel) (pre ++ attribute ty d ++ post) (size pre) end_ =
  parse_attributes fuel (pre ++ attribute ty d ++ post) (size pre + size (attribute ty d)) end_.
Proof.
  intros Ht Hx Hm Hd He. pose proof (size_nonneg d). rewrite size_attribute in *.
  pose proof (Z.mod_pos_bound (- size d) 4 ltac:(lia)). cbn [parse_attributes].
  destruct (Z.ltb_spec (size pre) end_); [|lia]. destruct (Z.ltb_spec end_ (size pre + 4)); [lia|].
  destruct (attribute_head pre ty d post Ht Hd) as (-> & -> & E). rewrite !or_panic_bind. cbv zeta beta.
  destruct (Z.ltb_spec end_ (size pre + 4 + size d)); [lia|]. rewrite E, or_panic_bind. cbv beta.
  rewrite (proj2 (Z.eqb_neq _ _) Hx), (proj2 (Z.eqb_neq _ _) Hm). f_equal.
  pose proof (padded (size d) ltac:(lia)) as Hp. destruct (size d mod 4 =? 0); lia.
Qed.

Lemma parse_xor_address ip port :
  length ip = 4%nat → 0 ≤ port < 2 ^ 16 →
  parseXorMappedAddress (xor_address ip port) (be_put 4 StunMagicCookie) = Ret (mkMapped ip port).
Proof.
  intros Hi Hp. pose proof (be_get_bound ip) as Hb. rewrite Hi in Hb. change (256 ^ Z.of_nat 4) with (2 ^ 32) in Hb.
  set (xp := Z.lxor port (Z.shiftr StunMagicCookie 16)). set (xi := Z.lxor (be_get ip) StunMagicCookie).
  assert (0 ≤ xp < 2 ^ 16) as Hxp by (apply lxor_bound; [lia|lia|vm_compute; split; congruence]).
  assert (0 ≤ xi < 2 ^ 32) as Hxi by (apply lxor_bound; [lia|lia|vm_compute; split; congruence]).
  assert (xor_address ip port = [x00; x01] ++ be_put 2 xp ++ be_put 4 xi) as -> by done.
  unfold parseXorMappedAddress. rewrite !size_app, !size_be_put. change (size [x00; x01]) with 2.
  change (2 + (Z.of_nat 2 + Z.of_nat 4) <? 8) with false. cbv iota.
  change (idx ([x00; x01] ++ be_put 2 xp ++ be_put 4 xi) 1) with (Some x01). rewrite or_panic_bind. cbv beta.
  rewrite (field16_at [x00; x01] xp (be_put 4 xi)), or_panic_bind by done. cbv beta.
  pose proof (field32_at [] StunMagicCookie [] 0 eq_refl ltac:(vm_compute; split; congruence)) as Ec.
  rewrite app_nil_r in Ec. cbn [app] in Ec. rewrite Ec, or_panic_bind. cbv zeta beta.
  change (byte_val x01 =? 1) with true. cbv iota.
  pose proof (field32_at ([x00; x01] ++ be_put 2 xp) xi [] 4) as Ei. rewrite app_nil_r, <- app_assoc in Ei.
  rewrite Ei, or_panic_bind; [|by rewrite size_app, size_be_put|done]. cbv beta.
  change (u16 (Z.shiftr StunMagicCookie 16)) with (Z.shiftr StunMagicCookie 16).
  unfold xp, xi. rewrite !lxor_twice. rewrite <- Hi at 1. by rewrite be_put_get.
Qed.

(** Attributes the client does not know. *)
Definition ignored (a : Z * bytes) : Prop :=
  0 ≤ a.1 < 2 ^ 16 ∧ a.1 ≠ StunAttrXorMappedAddress ∧ a.1 ≠ StunAttrMappedAddress ∧ size a.2 < 2 ^ 16.

Definition encode_attrs (l : list (Z * bytes)) : bytes := concat ((λ a, attribute a.1 a.2) <$> l).

Lemma parse_ignored others : ∀ fuel pre ip port post end_,
  Forall ignored others → length ip = 4%nat → 0 ≤ port < 2 ^ 16 →
  slicez (pre ++ encode_attrs others ++ attribute StunAttrXorMappedAddress (xor_address ip port) ++ post) 4 8
    = Some (be_put 4 StunMagicCookie) →
  size pre + size (encode_attrs others) + 12 ≤ end_ → (length others < fuel)%nat →
  parse_attributes fuel (pre ++ encode_attrs others ++ attribute StunAttrXorMappedAddress (xor_address ip port) ++ post)
    (size pre) end_ = Ret (mkMapped ip port).
Proof.
  induction others as [|[ty d] others IH]; intros fuel pre ip port post end_ Ho Hi Hp Hc He Hf;
    (destruct fuel as [|fuel]; [simpl in Hf; lia|]).
  - cbn [encode_attrs fmap list_fmap concat app] in *. change (size []) with 0 in He.
    assert (size (xor_address ip port) = 8) as Hs by (unfold xor_address; by rewrite !size_app, !size_be_put).
    destruct (attribute_head pre StunAttrXorMappedAddress (xor_address ip port) post) as (E1 & E2 & E3); [done|lia|].
    rewrite Hs in E2, E3. cbn [parse_attributes].
    destruct (Z.ltb_spec (size pre) end_); [|lia]. destruct (Z.ltb_spec end_ (size pre + 4)); [lia|].
    rewrite E1, E2, !or_panic_bind. cbv zeta beta. destruct (Z.ltb_spec end_ (size pre + 4 + 8)); [lia|].
    rewrite E3, or_panic_bind. cbv beta. rewrite Z.eqb_refl, Hc, or_panic_bind. by apply parse_xor_address.
  - apply Forall_cons in Ho as [(Ht & Hx & Hm & Hd) Ho]. cbn [fst snd] in *.
    assert (encode_attrs ((ty, d) :: others) = attribute ty d ++ encode_attrs others) as Ee by done.
    rewrite Ee, size_app in He. rewrite Ee, <- !app_assoc in Hc |- *.
    pose proof (size_nonneg (encode_attrs others)).
    rewrite parse_skip by (done || lia). rewrite (app_assoc pre) in Hc |- *. rewrite <- size_app.
    apply IH; [done|done|done|done|rewrite size_app; lia|simpl in Hf; lia].
Qed.

Lemma length_encode_attrs l : (4 * length l ≤ length (encode_attrs l))%nat.
Proof.
  induction l as [|[ty d] l IH]; [done|]. change (encode_attrs ((ty, d) :: l)) with (attribute ty d ++ encode_attrs l).
  rewrite length_app. pose proof (size_attribute ty d) as Hs. pose proof (size_nonneg d).
  pose proof (Z.mod_pos_bound (- size d) 4 ltac:(lia)). unfold size at 1 in Hs. simpl. lia.
Qed.

(** The fixed part of a response. *)
Lemma parse_header txID attrs :
  length txID = 12%nat → size attrs < 2 ^ 16 →
  ∃ pre, size pre = 20 ∧ binding_response txID attrs = pre ++ attrs ∧
    slicez (pre ++ attrs) 4 8 = Some (be_put 4 StunMagicCookie) ∧
    ∀ expected, parseStunResponse (pre ++ attrs) expected =
      if bool_decide (length expected = 12%nat ∧ txID ≠ expected) then Err TransactionMismatch
      else parse_attributes (S (Z.to_nat (size attrs))) (pre ++ attrs) 20 (20 + size attrs).
Proof.
  intros Ht Ha.
  set (h := be_put 2 StunBindingResponse). set (n := be_put 2 (size attrs)). set (c := be_put 4 StunMagicCookie).
  pose proof (size_nonneg attrs). assert (size txID = 12) as Htx by (unfold size; lia).
  assert (size h = 2 ∧ size n = 2 ∧ size c = 4) as (Sh & Sn & Sc) by (unfold h, n, c; by rewrite !size_be_put).
  exists (h ++ n ++ c ++ txID). rewrite <- !app_assoc. split_and!; [rewrite !size_app; lia|done|..].
  { rewrite (app_assoc h). apply slicez_at; rewrite !size_app; lia. }
  intros expected. unfold parseStunResponse.
  assert (size (h ++ n ++ c ++ txID ++ attrs) = 20 + size attrs) as -> by (rewrite !size_app; lia).
  destruct (Z.ltb_spec (20 + size attrs) 20); [lia|].
  assert (field16 (h ++ n ++ c ++ txID ++ attrs) 0 = Some StunBindingResponse) as -> by by apply (field16_at []).
  assert (field32 (h ++ n ++ c ++ txID ++ attrs) 4 = Some StunMagicCookie) as ->.
  { rewrite (app_assoc h). apply field32_at; [rewrite size_app; lia|done]. }
  rewrite or_panic_bind. cbv beta. rewrite Z.eqb_refl, or_panic_bind. cbv beta. rewrite Z.eqb_refl.
  assert (slicez (h ++ n ++ c ++ txID ++ attrs) 8 20 = Some txID) as ->.
  { rewrite (app_assoc h), (app_assoc (h ++ n)). apply slicez_at; rewrite !size_app; lia. }
  rewrite or_panic_bind. cbv beta. case_bool_decide; [done|].
  assert (field16 (h ++ n ++ c ++ txID ++ attrs) 2 = Some (size attrs)) as -> by by apply field16_at.
  rewrite or_panic_bind. cbv beta. by rewrite Z.ltb_irrefl.
Qed.

(** C27: The client reads the address a STUN server reports. For every IPv4
    address and port, a binding response with the client's transaction id,
    any attributes the client does not know and then XOR-MAPPED-ADDRESS in the
    encoding of RFC 5389 is parsed to exactly that address and port; the same
    response is refused when another transaction id was sent; and no datagram
    whatever makes the parser panic. *)
Theorem stun_address_roundtrip (txID ip post : bytes) (port : Z) (others : list (Z * bytes)) :
  length txID = 12%nat → length ip = 4%nat → 0 ≤ port < 2 ^ 16 → Forall ignored others →
  let attrs := encode_attrs others ++ attribute StunAttrXorMappedAddress (xor_address ip port) ++ post in
  size attrs < 2 ^ 16 →
  parseStunResponse (binding_response txID attrs) txID = Ret (mkMapped ip port) ∧
  (∀ other, length other = 12%nat → other ≠ txID →
     parseStunResponse (binding_response txID attrs) other = Err TransactionMismatch) ∧
  ∀ data expected, parseStunResponse data expected ≠ Panic.
Proof.
  intros Ht Hi Hp Ho attrs Ha. destruct (parse_header txID attrs Ht Ha) as (pre & Hpre & -> & Hc & Hh).
  split_and!; [..|apply parseStunResponse_total].
  - rewrite Hh, bool_decide_eq_false_2 by (by intros []). rewrite <- Hpre at 1.
    assert (size (attribute StunAttrXorMappedAddress (xor_address ip port)) = 12) as H12.
    { rewrite size_attribute. unfold xor_address. by rewrite !size_app, !size_be_put. }
    assert (size attrs = size (encode_attrs others) + 12 + size post) as Hsz by (unfold attrs; rewrite !size_app; lia).
    pose proof (size_nonneg post). apply parse_ignored; [done|done|done|done|lia|].
    pose proof (length_encode_attrs others).
    assert (Z.of_nat (length others) ≤ size (encode_attrs others)) by (unfold size; lia). lia.
  - intros other Ho' Hne. by rewrite Hh, bool_decide_eq_true_2.
Qed.

(** The transaction id of a request. *)
Lemma request_transaction tx : length tx = 12%nat → drop 8 (buildStunRequest tx) = tx.
Proof.
  intros Ht. unfold buildStunRequest. rewrite app_assoc, app_assoc, drop_app_exact.
  - unfold copy_into. rewrite take_ge by (rewrite Ht; simpl; lia).
    by rewrite drop_ge, app_nil_r by (rewrite Ht; simpl; lia).
  - by rewrite !length_app, !length_be_put.
Qed.

(** ** NAT classification *)
Section nat_detection.
Context {server : Type} (exchange : server → bytes → outcome stun_error bytes).
(** The public address the NAT shows to each server. *)
Context (m : server → MappedAddress).

Definition valid_mapping : Prop := ∀ srv, length (ma_IP (m srv)) = 4%nat ∧ 0 ≤ ma_Port (m srv) < 2 ^ 16.

Definition answers (srv : server) : Prop :=
  ∀ tx, length tx = 12%nat → exchange srv (buildStunRequest tx) =
    Ret (binding_response tx (attribute StunAttrXorMappedAddress (xor_address (ma_IP (m srv)) (ma_Port (m srv))))).

Lemma query_answers tx srv : valid_mapping → answers srv → length tx = 12%nat → queryServer exchange tx srv = Ret (m srv).
Proof.
  intros Hm Ha Ht. destruct (Hm srv) as [Hi Hp]. unfold queryServer. rewrite Ha, Ret_bind by done. cbv beta.
  set (attr := attribute _ _). assert (size attr = 12) as Hs.
  { unfold attr. rewrite size_attribute. unfold xor_address. by rewrite !size_app, !size_be_put. }
  destruct (parse_header tx attr Ht ltac:(lia)) as (pre & Hpre & -> & Hc & Hh).
  rewrite take_ge by (apply Nat2Z.inj_le; fold (size (pre ++ attr)); rewrite size_app; lia).
  rewrite Hh, bool_decide_eq_false_2 by (by intros []). rewrite <- Hpre at 1.
  pose proof (parse_ignored [] (S (Z.to_nat (size attr))) pre (ma_IP (m srv)) (ma_Port (m srv)) [] (20 + size attr)) as Hx.
  cbn [encode_attrs fmap list_fmap concat app] in Hx. fold attr in Hx. rewrite app_nil_r in Hx.
  rewrite Hx; [by destruct (m srv)|done|done|done|done|change (size []) with 0; lia|simpl; lia].
Qed.

Lemma ip_equal_v4 a b : length a = 4%nat → length b = 4%nat → ip_equal a b = bool_decide (a = b).
Proof.
  intros Ha Hb. unfold ip_equal. rewrite !(bool_decide_eq_false_2 (_ ∧ _ = 16%nat)), (bool_decide_eq_false_2 (length a = 16%nat ∧ _)) by lia.
  rewrite !orb_false_r. apply bool_decide_ext. split; [by intros []|]. intros ->. done.
Qed.

(** What DetectNATType reports. When both of the first two servers answer,
    the NAT is called a cone NAT exactly when both see the same address and
    port. But when the first server fails and the second answers, the address
    already comes from the second server, the comparison is of the second
    server with itself, and the answer is always a cone NAT, whatever the
    mappings are. *)
Theorem nat_classification (txIDs : nat → bytes) (first second : server) (rest : list server) :
  (∀ k, length (txIDs k) = 12%nat) → valid_mapping → answers second →
  (answers first →
     DetectNATType exchange txIDs (first :: second :: rest) =
     Ret (if bool_decide (m first = m second) then ConeNAT else SymmetricNAT)) ∧
  ((∃ e, ∀ req, exchange first req = Err e) →
     DetectNATType exchange txIDs (first :: second :: rest) = Ret ConeNAT).
Proof.
  intros Ht Hm Hs. destruct (Hm second) as [Hi2 _].
  assert (∀ a, ip_equal (ma_IP a) (ma_IP a) = true) as Hrefl.
  { intros a. unfold ip_equal. by rewrite (bool_decide_eq_true_2 (_ ∧ _)). }
  unfold DetectNATType, Discover. cbn [discover_loop]. split.
  - intros Hf. destruct (Hm first) as [Hi1 _]. rewrite (query_answers _ first), Ret_bind by done. cbv beta.
    rewrite query_answers, Ret_bind by done. cbv beta. rewrite ip_equal_v4 by done.
    destruct (m first) as [i1 p1], (m second) as [i2 p2]. simpl in *. f_equal.
    destruct (decide (i1 = i2)) as [->|Hi], (Z.eqb_spec p1 p2) as [->|Hp].
    + by rewrite !bool_decide_eq_true_2.
    + rewrite bool_decide_eq_true_2 by done. by rewrite bool_decide_eq_false_2 by congruence.
    + rewrite bool_decide_eq_false_2 by done. by rewrite bool_decide_eq_false_2 by congruence.
    + rewrite bool_decide_eq_false_2 by done. by rewrite bool_decide_eq_false_2 by congruence.
  - intros [e He]. assert (queryServer exchange (txIDs 0%nat) first = Err e) as -> by (unfold queryServer; by rewrite He).
    cbn [discover_loop]. rewrite !query_answers by done. rewrite !Ret_bind. cbv beta.
    by rewrite Hrefl, Z.eqb_refl.
Qed.
End nat_detection.

(** ** Witnesses *)
Module StunExample.
Definition tx : bytes := replicate 12 x07.
Definition ip1 : bytes := [xc0; x00; x02; x01].

Lemma stun_address_roundtrip_witness :
  parseStunResponse (binding_response tx (attribute 0x8022 (bytes_of_string "server") ++
    attribute StunAttrXorMappedAddress (xor_address ip1 51413))) tx = Ret (mkMapped ip1 51413).
Proof.
  destruct (stun_address_roundtrip tx ip1 [] 51413 [(0x8022, bytes_of_string "server")]) as [E _].
  - reflexivity.
  - reflexivity.
  - split; [discriminate|reflexivity].
  - constructor; [|constructor]. split_and!; [discriminate|reflexivity|discriminate|discriminate|reflexivity].
  - reflexivity.
  - exact E.
Defined.

(** A symmetric NAT: another port for each server. The first server is down. *)
Definition mapping (srv : bool) : MappedAddress := mkMapped ip1 (if srv then 1000 else 2000).
Definition down (srv : bool) (req : bytes) : outcome stun_error bytes :=
  if srv then Err ErrStunTimeout
  else Ret (binding_response (drop 8 req) (attribute StunAttrXorMappedAddress (xor_address ip1 2000))).

Lemma second_answers : answers down mapping false.
Proof.
  intros t Ht. unfold down. by rewrite request_transaction.
Qed.

Lemma nat_classification_witness :
  mapping true ≠ mapping false ∧ DetectNATType down (λ _, tx) [true; false] = Ret ConeNAT.
Proof.
  split; [discriminate|].
  apply (nat_classification down mapping (λ _, tx) true false []).
  - intros k. reflexivity.
  - intros srv. destruct srv; (split; [reflexivity|split; [discriminate|reflexivity]]).
  - apply second_answers.
  - exists ErrStunTimeout. intros req. reflexivity.
Defined.
End StunExample.
