(* ===== verification/Db.v ===== *)
(** * The metadata store ([internal/db/store.go])

    The SQLite database is four tables: [files] by path, [snapshots] by id,
    [snapshot_files] by (snapshot, path) and [file_chunks] by (file, index),
    with the two AUTOINCREMENT counters. A call of the store is an [act]: it
    consumes one [stmt] per SQL statement it runs, which says what the engine
    does beyond the tables: whether the statement fails (I/O, lock, cancelled
    context), the clock, the ids it skips, and whether the connection that runs
    it enforces foreign keys. [act] has the error type of its caller as a
    parameter. A failed statement, a rolled back transaction and
    a failed COMMIT leave the tables as they were. *)
From Stdlib Require Import Strings.Byte Strings.String.
From S2P Require Import Prelude.

Open Scope Z_scope.

(** ** Rows and tables *)
Record file_row := mkFileRow {
  fr_id : Z;
  fr_merkle_root : bytes;
  fr_size : Z;
  fr_mod_time : Z;
  fr_chunk_count : Z;
  fr_created_at : Z;
  fr_updated_at : Z;
}.

Record snapshot_row := mkSnapshotRow {
  sr_root_hash : bytes;
  sr_file_count : Z;
  sr_total_size : Z;
  sr_created_at : Z;
  sr_comment : option bytes;
}.

(** The path of a [snapshot_files] row is in its key. *)
Record snapshot_file_row := mkSnapshotFileRow { sf_merkle_root : bytes; sf_size : Z }.

Record chunk_row := mkChunkRow { cr_hash : bytes; cr_size : Z }.

Record db := mkDb {
  files : gmap bytes file_row;
  files_seq : Z;
  snapshots : gmap Z snapshot_row;
  snapshots_seq : Z;
  snapshot_files : gmap (Z * bytes) snapshot_file_row;
  file_chunks : gmap (Z * Z) chunk_row;
}.

(** The schema on a new database. *)
Definition schema : db := mkDb ∅ 0 ∅ 0 ∅ ∅.

Definition with_files (d : db) (f : gmap bytes file_row) : db :=
  mkDb f (files_seq d) (snapshots d) (snapshots_seq d) (snapshot_files d) (file_chunks d).
Definition with_file_chunks (d : db) (c : gmap (Z * Z) chunk_row) : db :=
  mkDb (files d) (files_seq d) (snapshots d) (snapshots_seq d) (snapshot_files d) c.

(** ** The records of the Go interface

    A [time.Time] is its number of nanoseconds since the epoch; a nil [[]byte]
    is [None], which SQL sees as NULL. *)
Definition nanos : Z := 1000000000.
Definition Unix (t : Z) : Z := t / nanos.
Definition time_Unix (s : Z) : Z := s * nanos.

Record FileRecord := mkFileRecord {
  ID : Z;
  Path : bytes;
  MerkleRoot : option bytes;
  Size : Z;
  ModTime : Z;
  ChunkCount : Z;
  CreatedAt : Z;
  UpdatedAt : Z;
}.

Record Snapshot := mkSnapshot {
  sn_ID : Z;
  sn_RootHash : option bytes;
  sn_FileCount : Z;
  sn_TotalSize : Z;
  sn_CreatedAt : Z;
  sn_Comment : bytes;
}.

Record SnapshotFile := mkSnapshotFile {
  sf_SnapshotID : Z;
  sf_FilePath : bytes;
  sf_MerkleRoot : option bytes;
  sf_Size : Z;
}.

(** ** Statements *)
Inductive db_error :=
| OpeningDatabase
| SettingWALMode (e : db_error)
| EnablingForeignKeys (e : db_error)
| InitializingSchema (e : db_error)
| SqlFault
| NotNullConstraint
| UniqueConstraint
| ForeignKeyConstraint
| DatabaseFull
| IntegerOverflow
| BeginningTransaction (e : db_error)
| RollbackFailed (rb e : db_error)
| CommittingTransaction (e : db_error)
| UpsertingFile (path : bytes) (e : db_error)
| GettingFile (path : bytes) (e : db_error)
| DeletingFile (path : bytes) (e : db_error)
| ListingFiles (e : db_error)
| DeletingOldChunks (e : db_error)
| InsertingChunk (i : Z) (e : db_error)
| GettingFileStats (e : db_error)
| InsertingSnapshot (e : db_error)
| CopyingFiles (e : db_error)
| GettingSnapshot (id : Z) (e : db_error)
| ListingSnapshots (e : db_error)
| GettingSnapshotFiles (e : db_error).

#[global] Instance db_error_eq_dec : EqDecision db_error.
Proof. solve_decision. Defined.

(** What the engine does in one statement. *)
Record stmt := mkStmt { s_fault : bool; s_now : Z; s_gap : nat; s_fk : bool }.
Definition default_stmt : stmt := mkStmt false 0 0 true.

Definition act (E A : Type) : Type := list stmt → db → outcome E A * db * list stmt.
Abbreviation db_act := (act db_error).

#[global] Instance act_ret E : MRet (act E) := λ A a env d, (Ret a, d, env).
#[global] Instance act_bind E : MBind (act E) := λ A B k m env d,
  match m env d with
  | (Ret a, d', env') => k a env' d'
  | (Err e, d', env') => (Err e, d', env')
  | (Panic, d', env') => (Panic, d', env')
  end.

(** One statement: it fails as a whole or has its effect. *)
Definition statement {A} (f : stmt → db → outcome db_error (A * db)) : db_act A := λ env d,
  let s := default default_stmt (head env) in
  if s_fault s then (Err SqlFault, d, tail env)
  else match f s d with
       | Ret (a, d') => (Ret a, d', tail env)
       | Err e => (Err e, d, tail env)
       | Panic => (Panic, d, tail env)
       end.

Definition query {A} (f : db → A) : db_act A := statement (λ _ d, Ret (f d, d)).

(** [if err != nil { return fmt.Errorf("...: %w", err) }]. *)
Definition wrap {E E' A} (w : E → E') (m : act E A) : act E' A := λ env d,
  match m env d with
  | (Ret a, d', env') => (Ret a, d', env')
  | (Err e, d', env') => (Err (w e), d', env')
  | (Panic, d', env') => (Panic, d', env')
  end.

Definition MaxInt64 : Z := 2 ^ 63 - 1.

(** A NOT NULL column. *)
Definition not_null (b : option bytes) : outcome db_error bytes :=
  match b with Some x => Ret x | None => Err NotNullConstraint end.

(** The id AUTOINCREMENT gives: above every id the table has ever had. *)
Definition next_id (s : stmt) (seq : Z) : outcome db_error Z :=
  let id := seq + 1 + Z.of_nat (s_gap s) in
  if MaxInt64 <? id then Err DatabaseFull else Ret id.

(** ** Opening: the tables that exist are kept, missing ones are created. *)
Definition Open (openable : bool) (existing : option db) (env : list stmt) : outcome db_error db * list stmt :=
  if negb openable then (Err OpeningDatabase, env)
  else
    let pragmas : db_act unit :=
      wrap SettingWALMode (query (λ _, ()));;
      wrap EnablingForeignKeys (query (λ _, ()));;
      wrap InitializingSchema (query (λ _, ())) in
    match pragmas env (default schema existing) with
    | (Ret _, d, env') => (Ret d, env')
    | (Err e, _, env') => (Err e, env')
    | (Panic, _, env') => (Panic, env')
    end.

(** ** Transactions *)
Definition Transaction {A} (fn : db_act A) : db_act A := λ env d,
  match query (λ _, ()) env d with                                   (* BEGIN *)
  | (Err e, _, env1) => (Err (BeginningTransaction e), d, env1)
  | (Panic, _, env1) => (Panic, d, env1)
  | (Ret _, _, env1) =>
      match fn env1 d with
      | (Err e, _, env2) =>
          match query (λ _, ()) env2 d with                          (* ROLLBACK *)
          | (Err rbErr, _, env3) => (Err (RollbackFailed rbErr e), d, env3)
          | (_, _, env3) => (Err e, d, env3)
          end
      | (Panic, _, env2) => (Panic, d, env2)
      | (Ret a, d', env2) =>
          match query (λ _, ()) env2 d' with                         (* COMMIT *)
          | (Err e, _, env3) => (Err (CommittingTransaction e), d, env3)
          | (_, _, env3) => (Ret a, d', env3)
          end
      end
  end.

(** ** Files *)
Definition upsert_stmt (r : FileRecord) (s : stmt) (d : db) : outcome db_error (Z * db) :=
  root ← not_null (MerkleRoot r);
  match files d !! Path r with
  | Some old =>
      let row := mkFileRow (fr_id old) root (Size r) (Unix (ModTime r)) (ChunkCount r)
                   (fr_created_at old) (s_now s) in
      Ret (fr_id old, with_files d (<[Path r := row]> (files d)))
  | None =>
      id ← next_id s (files_seq d);
      let row := mkFileRow id root (Size r) (Unix (ModTime r)) (ChunkCount r) (s_now s) (s_now s) in
      Ret (id, mkDb (<[Path r := row]> (files d)) id (snapshots d) (snapshots_seq d)
                 (snapshot_files d) (file_chunks d))
  end.

Definition with_ID (r : FileRecord) (id : Z) : FileRecord :=
  mkFileRecord id (Path r) (MerkleRoot r) (Size r) (ModTime r) (ChunkCount r) (CreatedAt r) (UpdatedAt r).

(** The record with the id [Scan] stored in it. Outside a transaction the
    statement commits on its own. *)
Definition UpsertFile (r : FileRecord) : db_act FileRecord :=
  id ← wrap (UpsertingFile (Path r)) (statement (upsert_stmt r));
  mret (with_ID r id).

Definition record_of (kv : bytes * file_row) : FileRecord :=
  let r := kv.2 in
  mkFileRecord (fr_id r) kv.1 (Some (fr_merkle_root r)) (fr_size r) (time_Unix (fr_mod_time r))
    (fr_chunk_count r) (time_Unix (fr_created_at r)) (time_Unix (fr_updated_at r)).

(** [None] is the nil record of a path that is not tracked. *)
Definition GetFile (path : bytes) : db_act (option FileRecord) :=
  wrap (GettingFile path) (query (λ d, (λ r, record_of (path, r)) <$> files d !! path)).

(** ON DELETE CASCADE on a connection that enforces foreign keys. *)
Definition delete_stmt (path : bytes) (s : stmt) (d : db) : outcome db_error (unit * db) :=
  let chunks :=
    match files d !! path with
    | Some r => if s_fk s then filter (λ kv, kv.1.1 ≠ fr_id r) (file_chunks d) else file_chunks d
    | None => file_chunks d
    end in
  Ret ((), with_file_chunks (with_files d (delete path (files d))) chunks).

Definition DeleteFile (path : bytes) : db_act unit :=
  wrap (DeletingFile path) (statement (delete_stmt path)).

(** ORDER BY on a TEXT column compares bytes. *)
Definition path_le {A} (a b : bytes * A) : Prop := bytes_le a.1 b.1.
#[global] Instance path_le_dec {A} : RelDecision (@path_le A).
Proof. intros a b. unfold path_le. apply _. Defined.

Definition by_path {A} (m : gmap bytes A) : list (bytes * A) := merge_sort path_le (map_to_list m).

(** The rows, then what [rows.Err] reports. *)
Definition ListFiles : db_act (list FileRecord) :=
  rows ← wrap ListingFiles (query (λ d, by_path (files d)));
  query (λ _, ());;
  mret (record_of <$> rows).

(** ** Chunks of a file *)
Definition insert_chunk_stmt (fileID i : Z) (hash : option bytes) (size : Z) (s : stmt) (d : db)
    : outcome db_error (unit * db) :=
  h ← not_null hash;
  match file_chunks d !! (fileID, i) with
  | Some _ => Err UniqueConstraint
  | None =>
      if (s_fk s && negb (existsb (λ kv, fr_id kv.2 =? fileID) (map_to_list (files d))))%bool
      then Err ForeignKeyConstraint
      else Ret ((), with_file_chunks d (<[(fileID, i) := mkChunkRow h size]> (file_chunks d)))
  end.

Definition default_chunk_size : Z := 4096.

Fixpoint insert_chunks (fileID : Z) (i : nat) (chunks : list (option bytes)) (sizes : list Z) : db_act unit :=
  match chunks with
  | [] => mret ()
  | hash :: chunks' =>
      let size := default default_chunk_size (sizes !! i) in
      wrap (InsertingChunk (Z.of_nat i)) (statement (insert_chunk_stmt fileID (Z.of_nat i) hash size));;
      insert_chunks fileID (S i) chunks' sizes
  end.

Definition delete_chunks_stmt (fileID : Z) (s : stmt) (d : db) : outcome db_error (unit * db) :=
  Ret ((), with_file_chunks d (filter (λ kv, kv.1.1 ≠ fileID) (file_chunks d))).

Definition SetFileChunks (fileID : Z) (chunks : list (option bytes)) (sizes : list Z) : db_act unit :=
  wrap DeletingOldChunks (statement (delete_chunks_stmt fileID));;
  insert_chunks fileID 0 chunks sizes.

(** ** Snapshots *)

(** [SUM] over an integer column: an error when a partial sum leaves the
    64-bit range; the rows are scanned in the order of their ids. *)
Definition id_le (a b : bytes * file_row) : Prop := fr_id a.2 ≤ fr_id b.2.
#[global] Instance id_le_dec : RelDecision id_le.
Proof. intros a b. unfold id_le. apply _. Defined.

Fixpoint sum_sizes (acc : Z) (l : list Z) : outcome db_error Z :=
  match l with
  | [] => Ret acc
  | x :: l' =>
      let acc' := acc + x in
      if ((MaxInt64 <? acc') || (acc' <? - 2 ^ 63))%bool then Err IntegerOverflow else sum_sizes acc' l'
  end.

Definition stats_stmt (s : stmt) (d : db) : outcome db_error (Z * Z * db) :=
  total ← sum_sizes 0 ((λ kv, fr_size kv.2) <$> merge_sort id_le (map_to_list (files d)));
  Ret (Z.of_nat (size (files d)), total, d).

Definition insert_snapshot_stmt (root : option bytes) (count total : Z) (comment : bytes) (s : stmt) (d : db)
    : outcome db_error (Z * Z * db) :=
  h ← not_null root;
  id ← next_id s (snapshots_seq d);
  let row := mkSnapshotRow h count total (s_now s) (Some comment) in
  Ret (id, s_now s, mkDb (files d) (files_seq d) (<[id := row]> (snapshots d)) id (snapshot_files d) (file_chunks d)).

Definition snapshot_entry (r : file_row) : snapshot_file_row := mkSnapshotFileRow (fr_merkle_root r) (fr_size r).

Definition copy_stmt (id : Z) (s : stmt) (d : db) : outcome db_error (unit * db) :=
  let rows := kmap (pair id) (snapshot_entry <$> files d) in
  if decide (rows ##ₘ snapshot_files d) then
    if (s_fk s && bool_decide (snapshots d !! id = None) && negb (bool_decide (rows = ∅)))%bool
    then Err ForeignKeyConstraint
    else Ret ((), mkDb (files d) (files_seq d) (snapshots d) (snapshots_seq d)
                    (rows ∪ snapshot_files d) (file_chunks d))
  else Err UniqueConstraint.

Definition CreateSnapshot (rootHash : option bytes) (comment : bytes) : db_act Snapshot :=
  Transaction (
    '(fileCount, totalSize) ← wrap GettingFileStats (statement stats_stmt);
    '(id, createdAt) ← wrap InsertingSnapshot (statement (insert_snapshot_stmt rootHash fileCount totalSize comment));
    wrap CopyingFiles (statement (copy_stmt id));;
    mret (mkSnapshot id rootHash fileCount totalSize (time_Unix createdAt) comment)).

Definition snapshot_of (id : Z) (r : snapshot_row) : Snapshot :=
  mkSnapshot id (Some (sr_root_hash r)) (sr_file_count r) (sr_total_size r) (time_Unix (sr_created_at r))
    (default [] (sr_comment r)).

Definition GetSnapshot (id : Z) : db_act (option Snapshot) :=
  wrap (GettingSnapshot id) (query (λ d, snapshot_of id <$> snapshots d !! id)).

(** ORDER BY created_at DESC; [scan] is the order in which the engine meets
    the rows, which decides between equal times. *)
Definition newer (a b : Snapshot) : Prop := sn_CreatedAt b ≤ sn_CreatedAt a.
#[global] Instance newer_dec : RelDecision newer.
Proof. intros a b. unfold newer. apply _. Defined.

Definition ListSnapshots (scan : list Snapshot → list Snapshot) : db_act (list Snapshot) :=
  rows ← wrap ListingSnapshots (query (λ d,
    merge_sort newer (scan ((λ kv, snapshot_of kv.1 kv.2) <$> map_to_list (snapshots d)))));
  query (λ _, ());;
  mret rows.

Definition rows_of (d : db) (id : Z) : list (bytes * snapshot_file_row) :=
  omap (λ kv, if decide (kv.1.1 = id) then Some (kv.1.2, kv.2) else None) (map_to_list (snapshot_files d)).

Definition snapshot_file_of (id : Z) (kv : bytes * snapshot_file_row) : SnapshotFile :=
  mkSnapshotFile id kv.1 (Some (sf_merkle_root kv.2)) (sf_size kv.2).

Definition GetSnapshotFiles (id : Z) : db_act (list SnapshotFile) :=
  rows ← wrap GettingSnapshotFiles (query (λ d, merge_sort path_le (rows_of d id)));
  query (λ _, ());;
  mret (snapshot_file_of id <$> rows).

(** ** Deciding on re-processing *)
Definition NeedsUpdate (path : bytes) (modTime size : Z) : db_act bool :=
  record ← GetFile path;
  mret (match record with
        | None => true
        | Some r => (negb (Size r =? size) || negb (Unix (ModTime r) =? Unix modTime))%bool
        end).

Definition MerkleRootHex (hash : bytes) : bytes := hex_encode hash.
