(* ===== verification/DbSpec.v ===== *)
(** * What the metadata store guarantees

    The invariant [wf] of the tables, kept by every program built from the
    store's operations whatever its statements meet; snapshots that never
    change once taken; the table of files as a finite map from paths; the
    decision whether a file has to be processed again. *)
From Stdlib Require Import Strings.Byte Strings.String.
From S2P Require Import Prelude Db.

Open Scope Z_scope.

(** ** Outcomes of actions *)
Definition result {E A} (m : act E A) (env : list stmt) (d : db) : outcome E A := (m env d).1.1.
Definition after {E A} (m : act E A) (env : list stmt) (d : db) : db := (m env d).1.2.

Lemma statement_Ret {A} (f : stmt → db → outcome db_error (A * db)) env d a d' env' :
  statement f env d = (Ret a, d', env') → ∃ s, f s d = Ret (a, d').
Proof.
  unfold statement. set (s := default default_stmt (head env)). destruct (s_fault s); [done|].
  destruct (f s d) as [[b d1]| |] eqn:E; try done. intros [= -> -> _]. eauto.
Qed.

Lemma statement_fail {A} (f : stmt → db → outcome db_error (A * db)) env d r d' env' :
  statement f env d = (r, d', env') → is_ret r = false → d' = d.
Proof.
  unfold statement. set (s := default default_stmt (head env)). destruct (s_fault s); [by intros [= <- <- _]|].
  destruct (f s d) as [[b d1]| |] eqn:E; intros [= <- <- _]; done.
Qed.

Lemma query_after {A} (f : db → A) env d r d' env' : query f env d = (r, d', env') → d' = d.
Proof.
  intros E. destruct (is_ret r) eqn:Er; [|by eapply statement_fail in E].
  destruct r; try done. apply statement_Ret in E as [s [= _ ->]]. done.
Qed.

Lemma query_Ret {A} (f : db → A) env d a d' env' : query f env d = (Ret a, d', env') → a = f d.
Proof. intros E. by apply statement_Ret in E as [s [= <- _]]. Qed.

Lemma bind_Ret {E A B} (m : act E A) (k : A → act E B) env d b d' env' :
  (m ≫= k) env d = (Ret b, d', env') →
  ∃ a d1 env1, m env d = (Ret a, d1, env1) ∧ k a env1 d1 = (Ret b, d', env').
Proof.
  unfold mbind, act_bind. destruct (m env d) as [[[a|e|] d1] env1]; [|done..]. eauto 6.
Qed.

Lemma wrap_Ret {E E' A} (w : E → E') (m : act E A) env d a d' env' :
  wrap w m env d = (Ret a, d', env') → m env d = (Ret a, d', env').
Proof. unfold wrap. destruct (m env d) as [[[?|?|] ?] ?]; [|done..]. by intros [= -> -> ->]. Qed.

Lemma mret_Ret {E A} (a b : A) env d d' env' :
  (mret a : act E A) env d = (Ret b, d', env') → b = a ∧ d' = d.
Proof. by intros [= -> -> _]. Qed.

(** A transaction has the effect of its body, or none. *)
Lemma Transaction_cases {A} (fn : db_act A) env d r d' env' :
  Transaction fn env d = (r, d', env') →
  (∃ a env1 env2, r = Ret a ∧ fn env1 d = (Ret a, d', env2)) ∨ (is_ret r = false ∧ d' = d).
Proof.
  unfold Transaction. destruct (query _ env d) as [[[q0|q0|] dq0] env1]; [|by intros [= <- <- _]; right..].
  destruct (fn env1 d) as [[[a|e|] d1] env2] eqn:E; [| |by intros [= <- <- _]; right].
  - destruct (query _ env2 d1) as [[[q|q|] dq] env3]; intros [= <- <- _]; [left|right|left]; eauto 6.
  - destruct (query _ env2 d) as [[[q|q|] dq] env3]; intros [= <- <- _]; right; done.
Qed.

Lemma Transaction_Ret {A} (fn : db_act A) env d a d' env' :
  Transaction fn env d = (Ret a, d', env') → ∃ env1 env2, fn env1 d = (Ret a, d', env2).
Proof. intros [(? & ? & ? & [= <-] & E)|[[=] _]]%Transaction_cases; eauto. Qed.

(** Split a successful composite action into its steps. *)
Ltac steps H :=
  repeat match type of H with
  | (_ ≫= _) _ _ = (Ret _, _, _) =>
      let a := fresh "a" in let d1 := fresh "d" in let e1 := fresh "env" in let E := fresh "E" in
      apply bind_Ret in H as (a & d1 & e1 & E & H); try (apply wrap_Ret in E)
  end;
  try (apply mret_Ret in H as [-> ->]).

(** ** Programs of store calls

    What a client can run: single calls and sequences of them, and transactions
    whose body makes the calls that take a [*sql.Tx]. The index says whether
    the program is such a body. *)
Inductive program : bool → ∀ E A, act E A → Prop :=
| prog_ret b E A (a : A) : program b E A (mret a)
| prog_fail b E A (e : E) : program b E A (λ env d, (Err e, d, env))
| prog_panic b E A : program b E A (λ env d, (Panic, d, env))
| prog_bind b E A B (m : act E A) (k : A → act E B) :
    program b E A m → (∀ a, program b E B (k a)) → program b E B (m ≫= k)
| prog_wrap b E E' A (w : E → E') (m : act E A) : program b E A m → program b E' A (wrap w m)
| prog_upsert b r : program b _ _ (UpsertFile r)
| prog_delete b p : program b _ _ (DeleteFile p)
| prog_chunks id l sizes : program true _ _ (SetFileChunks id l sizes)
| prog_transaction A (fn : db_act A) : program true _ _ fn → program false _ _ (Transaction fn)
| prog_snapshot root c : program false _ _ (CreateSnapshot root c)
| prog_get p : program false _ _ (GetFile p)
| prog_list : program false _ _ ListFiles
| prog_get_snapshot i : program false _ _ (GetSnapshot i)
| prog_list_snapshots scan : program false _ _ (ListSnapshots scan)
| prog_snapshot_files i : program false _ _ (GetSnapshotFiles i).

Lemma prog_needs_update p t n : program false _ _ (NeedsUpdate p t n).
Proof. apply prog_bind; [apply prog_get|]. intros. apply prog_ret. Qed.

(** What every program guarantees between the tables before and after. *)
Definition guarantees {E A} (R : db → db → Prop) (m : act E A) : Prop :=
  ∀ env d r d' env', m env d = (r, d', env') → R d d'.

Section guarantees.
Context (R : db → db → Prop) `{!Reflexive R, !Transitive R}.

Lemma guarantees_statement {A} (f : stmt → db → outcome db_error (A * db)) :
  (∀ s d a d', f s d = Ret (a, d') → R d d') → guarantees R (statement f).
Proof.
  intros Hf env d r d' env' E. destruct (is_ret r) eqn:Er; [|by apply statement_fail in E as ->].
  destruct r; try done. apply statement_Ret in E as [s E]. eauto.
Qed.

Lemma guarantees_query {A} (f : db → A) : guarantees R (query f).
Proof. intros env d r d' env' ->%query_after. done. Qed.

Lemma guarantees_wrap {E E' A} (w : E → E') (m : act E A) : guarantees R m → guarantees R (wrap w m).
Proof.
  intros Hm env d r d' env'. unfold wrap. destruct (m env d) as [[[?|?|] ?] ?] eqn:Em;
    intros [= _ <- _]; eauto.
Qed.

Lemma guarantees_ret {E A} (a : A) : guarantees R (mret a : act E A).
Proof. by intros env d r d' env' [= _ <- _]. Qed.

Lemma guarantees_fail {E A} (e : E) : guarantees R ((λ env d, (Err e, d, env)) : act E A).
Proof. by intros env d r d' env' [= _ <- _]. Qed.

Lemma guarantees_panic {E A} : guarantees R ((λ env d, (Panic, d, env)) : act E A).
Proof. by intros env d r d' env' [= _ <- _]. Qed.

Lemma guarantees_bind {E A B} (m : act E A) (k : A → act E B) :
  guarantees R m → (∀ a, guarantees R (k a)) → guarantees R (m ≫= k).
Proof.
  intros Hm Hk env d r d' env'. unfold mbind, act_bind.
  destruct (m env d) as [[[a|e|] d1] env1] eqn:Em; intros E'.
  - etrans; [by eapply Hm|by eapply Hk].
  - injection E' as _ <- _. eauto.
  - injection E' as _ <- _. eauto.
Qed.

Lemma guarantees_transaction {A} (fn : db_act A) : guarantees R fn → guarantees R (Transaction fn).
Proof. intros Hf env d r d' env' [(? & ? & ? & _ & E)|[_ ->]]%Transaction_cases; [eauto|done]. Qed.

Lemma guarantees_insert_chunks id i l sizes :
  (∀ i h n, guarantees R (statement (insert_chunk_stmt id i h n))) → guarantees R (insert_chunks id i l sizes).
Proof.
  intros Hs. revert i. induction l as [|h l IH]; intros i; [apply guarantees_ret|].
  apply guarantees_bind; [by apply guarantees_wrap|]. intros _. apply IH.
Qed.

(** A relation that the four writing statements and [CreateSnapshot] respect
    holds across every program. *)
Lemma guarantees_program b E A (m : act E A) :
  (∀ r, guarantees R (statement (upsert_stmt r))) →
  (∀ p, guarantees R (statement (delete_stmt p))) →
  (∀ id, guarantees R (statement (delete_chunks_stmt id))) →
  (∀ id i h n, guarantees R (statement (insert_chunk_stmt id i h n))) →
  (∀ root c, guarantees R (CreateSnapshot root c)) →
  program b E A m → guarantees R m.
Proof.
  intros Hu Hd Hc Hi Hs. induction 1;
    eauto using guarantees_ret, guarantees_fail, guarantees_panic, guarantees_bind, guarantees_transaction, guarantees_wrap, guarantees_query.
  - apply guarantees_bind; [by apply guarantees_wrap|]. intros. by apply guarantees_insert_chunks.
Qed.
End guarantees.

(** ** The invariant of the tables *)
Definition sumZ (l : list Z) : Z := foldr Z.add 0 l.

(** The content of a snapshot: what [snapshot_files] holds for its id. *)
Definition snapshot_rows (d : db) (i : Z) (m : gmap bytes snapshot_file_row) : Prop :=
  ∀ p, snapshot_files d !! (i, p) = m !! p.

Definition sizes_of (m : gmap bytes snapshot_file_row) : list Z := (λ kv, sf_size kv.2) <$> map_to_list m.

Record wf (d : db) : Prop := {
  wf_files_seq : 0 ≤ files_seq d ≤ MaxInt64;
  wf_file_id p r : files d !! p = Some r → 1 ≤ fr_id r ≤ files_seq d;
  wf_file_id_inj p q r r' :
    files d !! p = Some r → files d !! q = Some r' → fr_id r = fr_id r' → p = q;
  wf_snapshots_seq : 0 ≤ snapshots_seq d ≤ MaxInt64;
  wf_snapshot_id i s : snapshots d !! i = Some s → 1 ≤ i ≤ snapshots_seq d;
  wf_snapshot i s : snapshots d !! i = Some s →
    ∃ m, snapshot_rows d i m ∧ sr_file_count s = Z.of_nat (size m) ∧
         sr_total_size s = sumZ (sizes_of m) ∧ - 2 ^ 63 ≤ sr_total_size s ≤ MaxInt64;
  wf_snapshot_ref i p x : snapshot_files d !! (i, p) = Some x → is_Some (snapshots d !! i);
}.

Lemma wf_schema : wf schema.
Proof. constructor; simpl; try done; unfold MaxInt64; try lia; intros *; rewrite lookup_empty; done. Qed.

(** Snapshots once taken stay, with their rows. *)
Definition keeps_snapshots (d d' : db) : Prop :=
  ∀ i s, snapshots d !! i = Some s →
    snapshots d' !! i = Some s ∧ ∀ p, snapshot_files d' !! (i, p) = snapshot_files d !! (i, p).

(** What every program guarantees. *)
Definition evolves (d d' : db) : Prop := wf d → wf d' ∧ keeps_snapshots d d'.

#[global] Instance evolves_refl : Reflexive evolves.
Proof. intros d Hd. split; [done|]. by intros i s Hi. Qed.

#[global] Instance evolves_trans : Transitive evolves.
Proof.
  intros d1 d2 d3 H1 H2 Hd. destruct (H1 Hd) as [Hd2 K1]. destruct (H2 Hd2) as [Hd3 K2].
  split; [done|]. intros i s Hi. destruct (K1 i s Hi) as [Hi2 P1]. destruct (K2 i s Hi2) as [Hi3 P2].
  split; [done|]. intros p. by rewrite P2.
Qed.

(** A change of [files] and [file_chunks] alone. *)
Lemma evolves_files d f seq c :
  (wf d → 0 ≤ seq ≤ MaxInt64 ∧
    (∀ p r, f !! p = Some r → 1 ≤ fr_id r ≤ seq) ∧
    (∀ p q r r', f !! p = Some r → f !! q = Some r' → fr_id r = fr_id r' → p = q)) →
  evolves d (mkDb f seq (snapshots d) (snapshots_seq d) (snapshot_files d) c).
Proof.
  intros Hf Hd. destruct (Hf Hd) as (Hs & Hid & Hinj). destruct Hd. split; [by constructor|].
  by intros i s Hi.
Qed.

Lemma next_id_Ret s seq id : next_id s seq = Ret id → seq < id ≤ MaxInt64.
Proof. unfold next_id. destruct (Z.ltb_spec MaxInt64 (seq + 1 + Z.of_nat (s_gap s))); [done|]. intros [= <-]. lia. Qed.

Lemma upsert_cases r s d id d' :
  upsert_stmt r s d = Ret (id, d') →
  ∃ root row seq,
    d' = mkDb (<[Path r := row]> (files d)) seq (snapshots d) (snapshots_seq d)
           (snapshot_files d) (file_chunks d) ∧
    MerkleRoot r = Some root ∧
    (fr_id row = id ∧ fr_merkle_root row = root ∧ fr_size row = Size r ∧
     fr_mod_time row = Unix (ModTime r) ∧ fr_chunk_count row = ChunkCount r) ∧
    match files d !! Path r with
    | Some old => fr_id old = id ∧ fr_created_at row = fr_created_at old ∧ seq = files_seq d
    | None => files_seq d < id ≤ MaxInt64 ∧ seq = id
    end.
Proof.
  unfold upsert_stmt. destruct (MerkleRoot r) as [root|]; [|done]. cbn [not_null].
  rewrite Ret_bind. destruct (files d !! Path r) as [old|] eqn:E.
  - intros [= <- <-]. eexists root, _, _. split; [done|]. by split_and!.
  - destruct (next_id s (files_seq d)) as [i| |] eqn:En; [|done..]. rewrite Ret_bind. intros [= <- <-].
    apply next_id_Ret in En. eexists root, _, _. split; [done|]. split_and!; done || lia.
Qed.

Lemma upsert_evolves r : guarantees evolves (statement (upsert_stmt r)).
Proof.
  apply guarantees_statement; [apply _|]. intros s d id d' E.
  apply upsert_cases in E as (root & row & seq & -> & _ & (Hid & _) & Hc).
  apply evolves_files. intros Hd. pose proof (wf_files_seq _ Hd).
  destruct (files d !! Path r) as [old|] eqn:Eo.
  - destruct Hc as (<- & _ & Hs). pose proof (wf_file_id _ Hd _ _ Eo). split_and!; [lia..| |].
    + intros p r'. rewrite lookup_insert. case_decide as Ep; [intros [= <-]; lia|].
      intros Hp. pose proof (wf_file_id _ Hd _ _ Hp). lia.
    + intros p q r1 r2. rewrite !lookup_insert.
      case_decide as E1; case_decide as E2; subst; try done.
      * intros [= <-] H2 Hi. apply (wf_file_id_inj _ Hd _ _ _ _ Eo H2). congruence.
      * intros H1 [= <-] Hi. apply (wf_file_id_inj _ Hd _ _ _ _ H1 Eo). congruence.
      * apply (wf_file_id_inj _ Hd).
  - destruct Hc as [Hi Hs]. split_and!; [lia..| |].
    + intros p r'. rewrite lookup_insert. case_decide as Ep; [intros [= <-]; lia|].
      intros Hp. pose proof (wf_file_id _ Hd _ _ Hp). lia.
    + intros p q r1 r2. rewrite !lookup_insert.
      case_decide as E1; case_decide as E2; subst; try done.
      * intros [= <-] H2 Hi'. pose proof (wf_file_id _ Hd _ _ H2). lia.
      * intros H1 [= <-] Hi'. pose proof (wf_file_id _ Hd _ _ H1). lia.
      * apply (wf_file_id_inj _ Hd).
Qed.

Lemma delete_evolves p : guarantees evolves (statement (delete_stmt p)).
Proof.
  apply guarantees_statement; [apply _|]. intros s d [] d' [= <-].
  apply (evolves_files d (delete p (files d)) (files_seq d)). intros Hd. split; [apply Hd|]. cbn. split.
  - intros q r [_ Hq]%lookup_delete_Some. by apply (wf_file_id _ Hd q).
  - intros q1 q2 r1 r2 [_ H1]%lookup_delete_Some [_ H2]%lookup_delete_Some. by apply (wf_file_id_inj _ Hd).
Qed.

Lemma evolves_chunks d c : evolves d (with_file_chunks d c).
Proof.
  apply (evolves_files d (files d) (files_seq d)). intros Hd. split_and!; [apply Hd..|apply (wf_file_id _ Hd)|apply (wf_file_id_inj _ Hd)].
Qed.

Lemma delete_chunks_evolves id : guarantees evolves (statement (delete_chunks_stmt id)).
Proof. apply guarantees_statement; [apply _|]. intros s d [] d' [= <-]. apply evolves_chunks. Qed.

Lemma insert_chunk_Ret id i h n s d d' :
  insert_chunk_stmt id i h n s d = Ret ((), d') →
  ∃ x, h = Some x ∧ file_chunks d !! (id, i) = None ∧
       d' = with_file_chunks d (<[(id, i) := mkChunkRow x n]> (file_chunks d)).
Proof.
  unfold insert_chunk_stmt. destruct h as [x|]; [|done]. cbn [not_null]. rewrite Ret_bind.
  destruct (file_chunks d !! (id, i)); [done|]. case_match; [done|]. intros [= <-]. eauto.
Qed.

Lemma insert_chunk_evolves id i h n : guarantees evolves (statement (insert_chunk_stmt id i h n)).
Proof.
  apply guarantees_statement; [apply _|]. intros s d [] d' (x & _ & _ & ->)%insert_chunk_Ret.
  apply evolves_chunks.
Qed.

(** ** Taking a snapshot *)
Lemma sum_sizes_Ret acc l t :
  sum_sizes acc l = Ret t → - 2 ^ 63 ≤ acc ≤ MaxInt64 → t = acc + sumZ l ∧ - 2 ^ 63 ≤ t ≤ MaxInt64.
Proof.
  revert acc. induction l as [|x l IH]; intros acc; cbn [sum_sizes].
  { intros [= <-] Ha. unfold sumZ. simpl. lia. }
  destruct (Z.ltb_spec MaxInt64 (acc + x)), (Z.ltb_spec (acc + x) (- 2 ^ 63)); try done.
  intros [-> Ht]%IH _; [|lia]. change (sumZ (x :: l)) with (x + sumZ l). lia.
Qed.

Lemma sumZ_perm l k : l ≡ₚ k → sumZ l = sumZ k.
Proof. unfold sumZ. induction 1; simpl; lia. Qed.

Lemma sizes_of_snapshot (f : gmap bytes file_row) :
  sumZ (sizes_of (snapshot_entry <$> f)) = sumZ ((λ kv, fr_size kv.2) <$> map_to_list f).
Proof.
  apply sumZ_perm. unfold sizes_of. rewrite map_to_list_fmap, <- list_fmap_compose.
  apply fmap_Permutation. done.
Qed.

(** What a successful [CreateSnapshot] has done. *)
Definition snapshot_taken (root : option bytes) (c : bytes) (d : db) (sn : Snapshot) (d' : db) : Prop :=
  ∃ h now, root = Some h ∧
    snapshots_seq d < sn_ID sn ≤ MaxInt64 ∧
    sn_TotalSize sn = sumZ (sizes_of (snapshot_entry <$> files d)) ∧ - 2 ^ 63 ≤ sn_TotalSize sn ≤ MaxInt64 ∧
    sn = mkSnapshot (sn_ID sn) root (Z.of_nat (size (files d))) (sn_TotalSize sn) (time_Unix now) c ∧
    d' = mkDb (files d) (files_seq d)
           (<[sn_ID sn := mkSnapshotRow h (Z.of_nat (size (files d))) (sn_TotalSize sn) now (Some c)]> (snapshots d))
           (sn_ID sn) (kmap (pair (sn_ID sn)) (snapshot_entry <$> files d) ∪ snapshot_files d) (file_chunks d).

Lemma copy_Ret id s d u d' :
  copy_stmt id s d = Ret (u, d') →
  d' = mkDb (files d) (files_seq d) (snapshots d) (snapshots_seq d)
         (kmap (pair id) (snapshot_entry <$> files d) ∪ snapshot_files d) (file_chunks d).
Proof. unfold copy_stmt. case_decide; [|done]. case_match; [done|]. by intros [= _ <-]. Qed.

Lemma CreateSnapshot_Ret root c env d sn d' env' :
  CreateSnapshot root c env d = (Ret sn, d', env') → snapshot_taken root c d sn d'.
Proof.
  unfold CreateSnapshot. intros (env1 & env2 & E)%Transaction_Ret.
  apply bind_Ret in E as ([count total] & d1 & e1 & Es%wrap_Ret & E).
  apply bind_Ret in E as ([id now] & d2 & e2 & Ei%wrap_Ret & E).
  apply bind_Ret in E as ([] & d3 & e3 & Ec%wrap_Ret & E). apply mret_Ret in E as [-> ->].
  apply statement_Ret in Es as [s1 Es], Ei as [s2 Ei], Ec as [s3 Ec].
  unfold stats_stmt in Es. inv_bind Es. injection Es as <- <- <-.
  apply sum_sizes_Ret in Ha as [Ha Hr]; [|unfold MaxInt64; lia].
  unfold insert_snapshot_stmt in Ei. destruct root as [h|]; [|done]. cbn [not_null] in Ei.
  rewrite Ret_bind in Ei. inv_bind Ei. apply next_id_Ret in Ha0. injection Ei as <- <- <-.
  apply copy_Ret in Ec. exists h, (s_now s2). cbn. split_and!; try done; try lia.
  rewrite sizes_of_snapshot, Ha. apply sumZ_perm, fmap_Permutation, merge_sort_Permutation.
Qed.

Lemma lookup_kmap_pair {A} (i : Z) (m : gmap bytes A) j p :
  (kmap (pair i) m : gmap (Z * bytes) A) !! (j, p) = if decide (i = j) then m !! p else None.
Proof.
  case_decide as E; [subst; apply lookup_kmap, _|].
  apply lookup_kmap_None; [apply _|]. intros q [= -> ->]. done.
Qed.

Lemma snapshot_taken_evolves root c d sn d' : snapshot_taken root c d sn d' → evolves d d'.
Proof.
  intros (h & now & -> & Hid & Ht & Hr & -> & ->) Hd. set (id := sn_ID sn) in *. cbn in *.
  assert (∀ i p, id ≠ i →
    (kmap (pair id) (snapshot_entry <$> files d) ∪ snapshot_files d) !! (i, p) = snapshot_files d !! (i, p)) as Hne.
  { intros i p Hi. rewrite lookup_union, lookup_kmap_pair, decide_False by done. by rewrite left_id by apply _. }
  assert (∀ p, snapshot_files d !! (id, p) = None) as Hfresh.
  { intros p. destruct (snapshot_files d !! (id, p)) as [x|] eqn:E; [|done].
    apply (wf_snapshot_ref _ Hd) in E as [s Hs]. apply (wf_snapshot_id _ Hd) in Hs. lia. }
  split; [constructor; cbn; try apply Hd|].
  - pose proof (wf_snapshots_seq _ Hd). lia.
  - intros i s. rewrite lookup_insert. pose proof (wf_snapshots_seq _ Hd). case_decide; [lia|].
    intros Hi%(wf_snapshot_id _ Hd). lia.
  - intros i s. rewrite lookup_insert. case_decide as Ei.
    + intros [= <-]. subst i. exists (snapshot_entry <$> files d). split_and!; cbn; try done; try lia.
      * intros p. cbn. rewrite lookup_union, lookup_kmap_pair, decide_True, Hfresh by done.
        by rewrite right_id by apply _.
      * by rewrite map_size_fmap.
    + intros Hi. destruct (wf_snapshot _ Hd _ _ Hi) as (m & Hm & Hrest). exists m. split; [|done].
      intros p. cbn. by rewrite Hne.
  - intros i p x. rewrite lookup_insert. case_decide; [eauto|]. rewrite Hne by done.
    apply (wf_snapshot_ref _ Hd).
  - intros i s Hi. assert (id ≠ i) by (apply (wf_snapshot_id _ Hd) in Hi; lia).
    cbn. rewrite lookup_insert_ne by done. split; [done|]. intros p. by apply Hne.
Qed.

Lemma CreateSnapshot_evolves root c : guarantees evolves (CreateSnapshot root c).
Proof.
  intros env d r d' env' E. destruct r as [sn|e|].
  - by apply CreateSnapshot_Ret, snapshot_taken_evolves in E.
  - apply Transaction_cases in E as [(? & ? & ? & [=] & _)|[_ ->]]. done.
  - apply Transaction_cases in E as [(? & ? & ? & [=] & _)|[_ ->]]. done.
Qed.

Lemma program_evolves b E A (m : act E A) : program b E A m → guarantees evolves m.
Proof.
  apply guarantees_program; [apply _..|apply upsert_evolves|apply delete_evolves
    |apply delete_chunks_evolves|apply insert_chunk_evolves|apply CreateSnapshot_evolves].
Qed.

(** ** Runs of the store *)
Definition store_step (d d' : db) : Prop := ∃ E A (m : act E A) env, program false E A m ∧ d' = after m env d.

Lemma run_evolves d d' : star store_step d d' → evolves d d'.
Proof.
  induction 1 as [d|d1 d2 d3 (E & A & m & env & Hm & ->) _ IH]; [done|]. etrans; [|done].
  unfold after. destruct (m env d1) as [[r d'] env'] eqn:Em. by eapply program_evolves.
Qed.

(** ** Sorted rows *)
Lemma path_le_total {A} : Total (@path_le A).
Proof. intros a b. unfold path_le. apply bytes_le_total. Qed.

Lemma path_le_trans {A} : Transitive (@path_le A).
Proof. intros a b c. unfold path_le. apply bytes_le_trans. Qed.

(** The rows of a map in the order of their paths are determined. *)
Lemma sorted_rows_unique {A} (m : gmap bytes A) l :
  l ≡ₚ map_to_list m → merge_sort path_le l = by_path m.
Proof.
  intros Hl. unfold by_path.
  apply (StronglySorted_unique_strong path_le).
  - intros [p x] [q y] Hp Hq H1 H2. rewrite merge_sort_Permutation in Hp, Hq.
    rewrite Hl in Hp.
    apply elem_of_map_to_list in Hp, Hq. unfold path_le in *. simpl in *.
    assert (p = q) as -> by by apply (anti_symm bytes_le). congruence.
  - apply StronglySorted_merge_sort; [apply path_le_trans|apply path_le_total].
  - apply StronglySorted_merge_sort; [apply path_le_trans|apply path_le_total].
  - by rewrite !merge_sort_Permutation.
Qed.

Lemma rows_of_perm d i m : snapshot_rows d i m → rows_of d i ≡ₚ map_to_list m.
Proof.
  intros Hm. unfold rows_of. apply NoDup_Permutation; [|apply NoDup_map_to_list|].
  - assert (∀ l : list (Z * bytes * snapshot_file_row), NoDup l →
      NoDup (omap (λ kv, if decide (kv.1.1 = i) then Some (kv.1.2, kv.2) else None) l)) as Hl.
    { induction l as [|[[j p] x] l IH]; intros Hd; [constructor|]. apply NoDup_cons in Hd as [Hn Hd].
      cbn. case_decide as E; [|by apply IH]. apply NoDup_cons. split; [|by apply IH].
      intros ([[j' p'] x'] & Hin & E')%list_elem_of_omap. cbn in E'. case_decide; [|done]. congruence. }
    apply Hl, NoDup_map_to_list.
  - intros [p x]. rewrite list_elem_of_omap, elem_of_map_to_list, <- Hm. split.
    + intros ([[j q] y] & Hin & E). cbn in E. case_decide; [|done]. apply elem_of_map_to_list in Hin. congruence.
    + intros Hp. exists (i, p, x). rewrite elem_of_map_to_list. split; [done|]. cbn. by rewrite decide_True.
Qed.

(** ** Fault-free reads *)
Definition no_faults (env : list stmt) : Prop := Forall (λ s, s_fault s = false) env.

Lemma no_faults_tail env : no_faults env → no_faults (tail env).
Proof. intros Hf. unfold no_faults in *. destruct Hf; [constructor|done]. Qed.

Lemma statement_ok {A} (f : stmt → db → outcome db_error (A * db)) env d :
  no_faults env →
  statement f env d =
    match f (default default_stmt (head env)) d with
    | Ret (a, d') => (Ret a, d', tail env) | Err e => (Err e, d, tail env) | Panic => (Panic, d, tail env)
    end.
Proof.
  intros H. unfold statement.
  assert (s_fault (default default_stmt (head env)) = false) as -> by (by destruct H); done.
Qed.

Lemma wrap_ok {E E' A} (w : E → E') (m : act E A) env d a d' env' :
  m env d = (Ret a, d', env') → wrap w m env d = (Ret a, d', env').
Proof. intros Em. unfold wrap. by rewrite Em. Qed.

Lemma bind_ok {E A B} (m : act E A) (k : A → act E B) env d a d1 env1 :
  m env d = (Ret a, d1, env1) → (m ≫= k) env d = k a env1 d1.
Proof. intros Em. unfold mbind, act_bind. by rewrite Em. Qed.

Lemma Unix_time_Unix s : Unix (time_Unix s) = s.
Proof. unfold Unix, time_Unix. by rewrite Z.div_mul. Qed.

(** Actions only consume statements. *)
Definition frugal {E A} (m : act E A) : Prop :=
  ∀ env d r d' env', m env d = (r, d', env') → no_faults env → no_faults env'.

Lemma frugal_statement {A} (f : stmt → db → outcome db_error (A * db)) : frugal (statement f).
Proof.
  intros env d r d' env'. unfold statement. destruct (s_fault _).
  - intros [= _ _ <-]. apply no_faults_tail.
  - destruct (f _ d) as [[a d1]|e|]; intros [= _ _ <-]; apply no_faults_tail.
Qed.

Lemma frugal_ret {E A} (a : A) : frugal (mret a : act E A).
Proof. by intros env d r d' env' [= _ _ <-]. Qed.

Lemma frugal_bind {E A B} (m : act E A) (k : A → act E B) :
  frugal m → (∀ a, frugal (k a)) → frugal (m ≫= k).
Proof.
  intros Hm Hk env d r d' env'. unfold mbind, act_bind.
  destruct (m env d) as [[[a|e|] d1] env1] eqn:Em; [|by intros [= _ _ <-]; eapply Hm..].
  intros Ek Hf. eapply Hk; [done|]. by eapply Hm.
Qed.

Lemma frugal_wrap {E E' A} (w : E → E') (m : act E A) : frugal m → frugal (wrap w m).
Proof.
  intros Hm env d r d' env'. unfold wrap. destruct (m env d) as [[[a|e|] d1] env1] eqn:Em;
    intros [= _ _ <-]; by eapply Hm.
Qed.

Lemma frugal_transaction {A} (fn : db_act A) : frugal fn → frugal (Transaction fn).
Proof.
  intros Hf env d r d' env'. unfold Transaction.
  destruct (query _ env d) as [[[q0|q0|] dq0] env1] eqn:E1; pose proof (frugal_statement _ _ _ _ _ _ E1) as H1;
    [|by intros [= _ _ <-]..].
  destruct (fn env1 d) as [[[a|e|] d1] env2] eqn:E2; [| |intros [= _ _ <-]; eauto].
  - destruct (query _ env2 d1) as [[[q|q|] dq] env3] eqn:E3; intros [= _ _ <-] Hn;
      eapply (frugal_statement _ _ _ _ _ _ E3); eauto.
  - destruct (query _ env2 d) as [[[q|q|] dq] env3] eqn:E3; intros [= _ _ <-] Hn;
      eapply (frugal_statement _ _ _ _ _ _ E3); eauto.
Qed.

(** Decompose an action into its statements. *)
Ltac frugal_steps :=
  repeat first
    [ assumption | apply frugal_statement | apply frugal_ret | apply frugal_wrap | apply frugal_transaction
    | apply frugal_bind; [|intros ?]
    | match goal with a : (_ * _)%type |- frugal _ => destruct a end ].

Lemma frugal_insert_chunks id i l sizes : frugal (insert_chunks id i l sizes).
Proof. revert i. induction l as [|h l IH]; intros i; cbn [insert_chunks]; frugal_steps. apply IH. Qed.

Lemma program_frugal b E A (m : act E A) : program b E A m → frugal m.
Proof.
  induction 1; try (by intros ? ? ? ? ? [= _ _ <-]); frugal_steps; auto using frugal_insert_chunks.
Qed.

(** Actions that never panic. *)
Definition calm {E A} (m : act E A) : Prop := ∀ env d, result m env d ≠ Panic.

Lemma calm_ret {E A} (a : A) : calm (mret a : act E A).
Proof. done. Qed.

Lemma calm_statement {A} (f : stmt → db → outcome db_error (A * db)) :
  (∀ s d, f s d ≠ Panic) → calm (statement f).
Proof.
  intros Hf env d. unfold result, statement. destruct (s_fault _); [done|].
  specialize (Hf (default default_stmt (head env)) d). by destruct (f _ d) as [[a d1]|e|].
Qed.

Lemma calm_bind {E A B} (m : act E A) (k : A → act E B) : calm m → (∀ a, calm (k a)) → calm (m ≫= k).
Proof.
  intros Hm Hk env d. specialize (Hm env d). unfold result, mbind, act_bind in *.
  destruct (m env d) as [[[a|e|] d1] env1]; [apply Hk|done..].
Qed.

Lemma calm_wrap {E E' A} (w : E → E') (m : act E A) : calm m → calm (wrap w m).
Proof. intros Hm env d. specialize (Hm env d). unfold result, wrap in *. by destruct (m env d) as [[[a|e|] d1] env1]. Qed.

Lemma calm_transaction {A} (fn : db_act A) : calm fn → calm (Transaction fn).
Proof.
  intros Hf env d. unfold result, Transaction.
  assert (∀ env d, result (query (λ _ : db, ())) env d ≠ Panic) as Hq by by apply calm_statement.
  unfold result in *.
  pose proof (Hq env d) as H1. destruct (query _ env d) as [[[q0|q0|] dq0] env1]; [|done..].
  specialize (Hf env1 d). unfold result in Hf. destruct (fn env1 d) as [[[a|e|] d1] env2]; [| |done].
  - specialize (Hq env2 d1). by destruct (query _ env2 d1) as [[[q|q|] dq] env3].
  - specialize (Hq env2 d). by destruct (query _ env2 d) as [[[q|q|] dq] env3].
Qed.

Lemma UpsertFile_calm r : calm (UpsertFile r).
Proof.
  apply calm_bind; [|intros; apply calm_ret]. apply calm_wrap, calm_statement. intros s d.
  unfold upsert_stmt. destruct (MerkleRoot r); [|done]. cbn. destruct (files d !! Path r); [done|].
  unfold next_id. by destruct (MaxInt64 <? _).
Qed.

Lemma SetFileChunks_calm id l sizes : calm (SetFileChunks id l sizes).
Proof.
  apply calm_bind; [by apply calm_wrap, calm_statement|]. intros _. generalize 0%nat as i.
  induction l as [|h l IH]; intros i; [apply calm_ret|]. apply calm_bind; [|intros; apply IH].
  apply calm_wrap, calm_statement. intros s d. unfold insert_chunk_stmt. destruct h; [|done]. cbn.
  destruct (file_chunks d !! _); [done|]. by destruct (_ && _).
Qed.

(** An action that returns [f] of the tables and leaves them alone, and fails
    only when a statement does. *)
Definition reads {E A} (m : act E A) (f : db → A) : Prop := ∀ env d,
  match m env d with
  | (Ret a, d', env') => a = f d ∧ d' = d ∧ (no_faults env → no_faults env')
  | (_, d', _) => d' = d ∧ ¬ no_faults env
  end.

Lemma no_faults_head env : no_faults env → s_fault (default default_stmt (head env)) = false.
Proof. intros Hf. unfold no_faults in *. by destruct Hf. Qed.

Lemma reads_query {A} (f : db → A) : reads (query f) f.
Proof.
  intros env d. unfold query, statement. destruct (s_fault _) eqn:E.
  - split; [done|]. intros Hf%no_faults_head. congruence.
  - split_and!; [done..|apply no_faults_tail].
Qed.

Lemma reads_wrap {E E' A} (w : E → E') (m : act E A) f : reads m f → reads (wrap w m) f.
Proof. intros Hm env d. specialize (Hm env d). unfold wrap. by destruct (m env d) as [[[?|?|] ?] ?]. Qed.

Lemma reads_ret {E A} (a : A) : reads (mret a : act E A) (λ _, a).
Proof. by intros env d. Qed.

Lemma reads_bind {E A B} (m : act E A) (k : A → act E B) f g :
  reads m f → (∀ a, reads (k a) (g a)) → reads (m ≫= k) (λ d, g (f d) d).
Proof.
  intros Hm Hk env d. specialize (Hm env d). unfold mbind, act_bind.
  destruct (m env d) as [[[a|e|] d1] env1]; [|done..]. destruct Hm as (-> & -> & Ht).
  specialize (Hk (f d) env1 d). destruct (k (f d) env1 d) as [[[b|e|] d2] env2]; naive_solver.
Qed.

Lemma reads_ext {E A} (m : act E A) f g : reads m f → (∀ d, f d = g d) → reads m g.
Proof. intros Hm Hfg env d. specialize (Hm env d). by rewrite <- Hfg. Qed.

Lemma reads_ok {E A} (m : act E A) f env d : reads m f → no_faults env → result m env d = Ret (f d).
Proof.
  intros Hm Hf. specialize (Hm env d). unfold result. destruct (m env d) as [[[a|e|] d1] env1]; simpl;
    [by destruct Hm as [-> _]|by destruct Hm..].
Qed.

Lemma GetFile_reads p : reads (GetFile p) (λ d, (λ r, record_of (p, r)) <$> files d !! p).
Proof. apply reads_wrap, reads_query. Qed.

Lemma ListFiles_reads : reads ListFiles (λ d, record_of <$> by_path (files d)).
Proof.
  apply (reads_bind _ _ (λ d, by_path (files d)) (λ rows _, record_of <$> rows)); [apply reads_wrap, reads_query|].
  intros rows. apply (reads_bind _ _ (λ _, ()) (λ _ _, record_of <$> rows)); [apply reads_query|].
  intros _. apply reads_ret.
Qed.

Lemma GetSnapshot_reads i : reads (GetSnapshot i) (λ d, snapshot_of i <$> snapshots d !! i).
Proof. apply reads_wrap, reads_query. Qed.

Lemma GetSnapshotFiles_reads i :
  reads (GetSnapshotFiles i) (λ d, snapshot_file_of i <$> merge_sort path_le (rows_of d i)).
Proof.
  apply (reads_bind _ _ (λ d, merge_sort path_le (rows_of d i)) (λ rows _, snapshot_file_of i <$> rows));
    [apply reads_wrap, reads_query|].
  intros rows. apply (reads_bind _ _ (λ _, ()) (λ _ _, snapshot_file_of i <$> rows)); [apply reads_query|].
  intros _. apply reads_ret.
Qed.

Definition newest_first (scan : list Snapshot → list Snapshot) (d : db) : list Snapshot :=
  merge_sort newer (scan ((λ kv, snapshot_of kv.1 kv.2) <$> map_to_list (snapshots d))).

Lemma ListSnapshots_reads scan : reads (ListSnapshots scan) (newest_first scan).
Proof.
  apply (reads_bind _ _ (newest_first scan) (λ rows _, rows)); [apply reads_wrap, reads_query|].
  intros rows. apply (reads_bind _ _ (λ _, ()) (λ _ _, rows)); [apply reads_query|].
  intros _. apply reads_ret.
Qed.

(** Does the table say that a file of this time and size is up to date? *)
Definition up_to_date (d : db) (p : bytes) (modTime sz : Z) : Prop :=
  ∃ r, files d !! p = Some r ∧ fr_size r = sz ∧ fr_mod_time r = Unix modTime.

#[global] Instance up_to_date_dec d p t n : Decision (up_to_date d p t n).
Proof.
  destruct (files d !! p) as [r|] eqn:E.
  - destruct (decide (fr_size r = n ∧ fr_mod_time r = Unix t)) as [Hr|Hr]; [left|right]; unfold up_to_date.
    + naive_solver.
    + intros (r' & Hr' & ?). rewrite E in Hr'. naive_solver.
  - right. intros (r & Hr & _). congruence.
Defined.

Lemma NeedsUpdate_reads p t n : reads (NeedsUpdate p t n) (λ d, negb (bool_decide (up_to_date d p t n))).
Proof.
  eapply reads_ext; [apply reads_bind; [apply GetFile_reads|intros a; apply reads_ret]|]. intros d. cbn beta.
  destruct (files d !! p) as [r|] eqn:E; cbn.
  - rewrite Unix_time_Unix. symmetry. case_bool_decide as Hu.
    + destruct Hu as (r' & Hr' & <- & <-). rewrite E in Hr'. injection Hr' as ->. by rewrite !Z.eqb_refl.
    + destruct (Z.eqb_spec (fr_size r) n), (Z.eqb_spec (fr_mod_time r) (Unix t)); try done.
      destruct Hu. by exists r.
  - symmetry. rewrite bool_decide_eq_false_2; [done|]. intros (r & Hr & _). congruence.
Qed.

(** ** The table of files as a map *)
Definition file_meta : Type := bytes * Z * Z * Z.

Definition meta_of_row (r : file_row) : file_meta :=
  (fr_merkle_root r, fr_size r, fr_mod_time r, fr_chunk_count r).

Definition tracked (d : db) : gmap bytes file_meta := meta_of_row <$> files d.

(** What a record says of a file, at the precision the store keeps. *)
Definition meta_of (r : FileRecord) : option file_meta :=
  (λ root, (root, Size r, Unix (ModTime r), ChunkCount r)) <$> MerkleRoot r.

Lemma meta_of_record kv : meta_of (record_of kv) = Some (meta_of_row kv.2).
Proof. unfold meta_of, record_of, meta_of_row. simpl. by rewrite Unix_time_Unix. Qed.

Lemma UpsertFile_cases r env d res d' env' :
  UpsertFile r env d = (res, d', env') →
  (∃ id s, res = Ret (with_ID r id) ∧ upsert_stmt r s d = Ret (id, d')) ∨ (is_ret res = false ∧ d' = d).
Proof.
  unfold UpsertFile, mbind, act_bind, wrap.
  destruct (statement (upsert_stmt r) env d) as [[[id|e|] d1] env1] eqn:E.
  - intros [= <- <- _]. apply statement_Ret in E as [s E]. left. eauto.
  - intros [= <- <- _]. right. split; [done|]. by apply statement_fail in E.
  - intros [= <- <- _]. right. split; [done|]. by apply statement_fail in E.
Qed.

Lemma upsert_tracked r s d id d' :
  upsert_stmt r s d = Ret (id, d') → ∃ m, meta_of r = Some m ∧ tracked d' = <[Path r := m]> (tracked d).
Proof.
  intros (root & row & seq & -> & Hr & (_ & H1 & H2 & H3 & H4) & _)%upsert_cases.
  unfold meta_of. rewrite Hr. eexists. split; [done|]. unfold tracked. cbn. rewrite fmap_insert.
  unfold meta_of_row at 1. by rewrite H1, H2, H3, H4.
Qed.

Lemma StronglySorted_fmap {A B} (f : A → B) (R : A → A → Prop) (S : B → B → Prop) l :
  (∀ x y, R x y → S (f x) (f y)) → StronglySorted R l → StronglySorted S (f <$> l).
Proof.
  intros Hf. induction 1 as [|x l Hl IH Hx]; [constructor|]. cbn. constructor; [done|].
  apply Forall_fmap. eapply Forall_impl; [done|]. simpl. eauto.
Qed.

Lemma by_path_fmap {A B} (f : A → B) (m : gmap bytes A) : by_path (f <$> m) = prod_map id f <$> by_path m.
Proof.
  symmetry. rewrite <- (sorted_rows_unique (f <$> m) (prod_map id f <$> by_path m)).
  - symmetry. apply (StronglySorted_unique_strong path_le).
    + intros [p x] [q y] Hp Hq H1 H2. rewrite merge_sort_Permutation in Hp. unfold by_path in Hp, Hq.
      rewrite merge_sort_Permutation, <- map_to_list_fmap in Hp, Hq. apply elem_of_map_to_list in Hp, Hq.
      unfold path_le in *. simpl in *. assert (p = q) as -> by by apply (anti_symm bytes_le). congruence.
    + apply StronglySorted_merge_sort; [apply path_le_trans|apply path_le_total].
    + apply (StronglySorted_fmap _ path_le); [done|].
      apply StronglySorted_merge_sort; [apply path_le_trans|apply path_le_total].
    + apply merge_sort_Permutation.
  - unfold by_path. by rewrite merge_sort_Permutation, <- map_to_list_fmap.
Qed.

Lemma delete_tracked p s d u d' : delete_stmt p s d = Ret (u, d') → tracked d' = delete p (tracked d).
Proof. intros [= _ <-]. unfold tracked. cbn. by rewrite fmap_delete. Qed.

(** Rows of other files, with their chunks, are as they were. *)
Definition others_kept (d d' : db) (p : bytes) : Prop :=
  ∀ q, q ≠ p → files d' !! q = files d !! q ∧
    ∀ row, files d !! q = Some row → ∀ j, file_chunks d' !! (fr_id row, j) = file_chunks d !! (fr_id row, j).

Lemma others_kept_refl d p : others_kept d d p.
Proof. by intros q _. Qed.

Lemma delete_others p s d u d' : wf d → delete_stmt p s d = Ret (u, d') → others_kept d d' p.
Proof.
  intros Hd [= _ <-] q Hq. cbn. rewrite lookup_delete_ne by done. split; [done|]. intros row Hrow j.
  destruct (files d !! p) as [r|] eqn:Ep; [|done]. destruct (s_fk s); [|done]. rewrite map_lookup_filter.
  destruct (file_chunks d !! (fr_id row, j)); [|done]. simpl. rewrite option_guard_True; [done|].
  simpl. intros E. apply Hq. by apply (wf_file_id_inj _ Hd _ _ _ _ Hrow Ep).
Qed.

(** ** The chunks of a file *)
Definition chunk_at (chunks : list (option bytes)) (sizes : list Z) (j : Z) : option chunk_row :=
  if 0 <=? j then
    match chunks !! Z.to_nat j with
    | Some (Some h) => Some (mkChunkRow h (default default_chunk_size (sizes !! Z.to_nat j)))
    | _ => None
    end
  else None.

Lemma insert_chunks_Ret id i l sizes env d u d' env' :
  insert_chunks id i l sizes env d = (Ret u, d', env') →
  Forall is_Some l ∧
  ∃ c, d' = with_file_chunks d c ∧
    (∀ k j, k ≠ id → c !! (k, j) = file_chunks d !! (k, j)) ∧
    (∀ j, c !! (id, j) = match (if Z.of_nat i <=? j then l !! (Z.to_nat j - i)%nat else None) with
                         | Some (Some h) => Some (mkChunkRow h (default default_chunk_size (sizes !! Z.to_nat j)))
                         | _ => file_chunks d !! (id, j)
                         end).
Proof.
  revert i env d. induction l as [|h l IH]; intros i env d.
  { intros [_ ->]%mret_Ret. split; [constructor|]. exists (file_chunks d). split; [by destruct d|].
    split; [done|]. intros j. by destruct (Z.of_nat i <=? j). }
  cbn [insert_chunks]. intros ([] & d1 & e1 & E%wrap_Ret & E')%bind_Ret.
  apply statement_Ret in E as [s (x & -> & Hn & ->)%insert_chunk_Ret].
  apply IH in E' as (Hl & c & -> & Ho & Hc). split; [constructor; eauto|]. exists c. split; [done|].
  split.
  - intros k j Hk. rewrite Ho by done. cbn. by rewrite lookup_insert_ne by congruence.
  - intros j. rewrite Hc. cbn [file_chunks with_file_chunks].
    destruct (Z.leb_spec (Z.of_nat (S i)) j), (Z.leb_spec (Z.of_nat i) j); try lia.
    + replace (Z.to_nat j - i)%nat with (S (Z.to_nat j - S i)) by lia. cbn.
      destruct (l !! _) as [[y|]|]; [done|..]; by rewrite lookup_insert_ne by (intros [=]; lia).
    + replace j with (Z.of_nat i) by lia. rewrite Nat2Z.id, Nat.sub_diag. cbn. by rewrite lookup_insert_eq.
    + by rewrite lookup_insert_ne by (intros [=]; lia).
Qed.

Lemma SetFileChunks_Ret id l sizes env d u d' env' :
  SetFileChunks id l sizes env d = (Ret u, d', env') →
  Forall is_Some l ∧ d' = with_file_chunks d (file_chunks d') ∧
  (∀ k j, k ≠ id → file_chunks d' !! (k, j) = file_chunks d !! (k, j)) ∧
  (∀ j, file_chunks d' !! (id, j) = chunk_at l sizes j).
Proof.
  unfold SetFileChunks. intros ([] & d1 & e1 & E%wrap_Ret & E')%bind_Ret.
  apply statement_Ret in E as [s [= <-]].
  apply insert_chunks_Ret in E' as (Hl & c & -> & Ho & Hc). split; [done|]. split; [done|]. cbn in *. split.
  - intros k j Hk. rewrite Ho by done. rewrite map_lookup_filter.
    destruct (file_chunks d !! (k, j)); [|done]. simpl. by rewrite option_guard_True.
  - intros j. rewrite Hc. unfold chunk_at. rewrite Nat.sub_0_r.
    rewrite map_lookup_filter_None_2 by (right; intros x _ Hx; by apply Hx).
    change (Z.of_nat 0) with 0. destruct (0 <=? j); [|done]. by destruct (l !! _) as [[h|]|].
Qed.

(** ** Writing chunks without a failing statement *)
Lemma insert_chunks_ok p row id i hs sizes env d :
  no_faults env → files d !! p = Some row → fr_id row = id →
  (∀ j, Z.of_nat i <= j → file_chunks d !! (id, j) = None) →
  ∃ d' env', insert_chunks id i (Some <$> hs) sizes env d = (Ret (), d', env') ∧ no_faults env'.
Proof.
  intros He Hrow Hid Hn. revert i env d He Hrow Hn. induction hs as [|h hs IH]; intros i env d He Hrow Hn;
    cbn [fmap list_fmap insert_chunks].
  { by exists d, env. }
  pose proof (statement_ok (insert_chunk_stmt id (Z.of_nat i) (Some h) (default default_chunk_size (sizes !! i)))
    env d He) as Es.
  unfold insert_chunk_stmt in Es at 2. cbn [not_null mbind outcome_bind] in Es. rewrite Hn in Es by lia.
  assert (existsb (λ kv, fr_id kv.2 =? id) (map_to_list (files d)) = true) as Hx.
  { apply existsb_exists. exists (p, row). rewrite <- list_elem_of_In, elem_of_map_to_list. split; [done|].
    by apply Z.eqb_eq. }
  rewrite Hx, andb_false_r in Es. cbv iota in Es.
  rewrite (bind_ok _ _ _ _ _ _ _ (wrap_ok (InsertingChunk (Z.of_nat i)) _ _ _ _ _ _ Es)).
  apply IH; [by apply no_faults_tail|done|]. intros j Hj. cbn [file_chunks with_file_chunks].
  rewrite lookup_insert_ne; [apply Hn; lia|]. intros [=]. lia.
Qed.

Lemma SetFileChunks_ok p row hs sizes env d :
  no_faults env → files d !! p = Some row →
  ∃ d' env', SetFileChunks (fr_id row) (Some <$> hs) sizes env d = (Ret (), d', env') ∧ no_faults env'.
Proof.
  intros He Hrow. unfold SetFileChunks.
  pose proof (statement_ok (delete_chunks_stmt (fr_id row)) env d He) as Es. unfold delete_chunks_stmt in Es at 2.
  rewrite (bind_ok _ _ _ _ _ _ _ (wrap_ok DeletingOldChunks _ _ _ _ _ _ Es)).
  apply (insert_chunks_ok p row); [by apply no_faults_tail|done..|]. intros j _. cbn.
  apply map_lookup_filter_None_2. right. intros x _ Hx. by apply Hx.
Qed.

(** Without a failing statement an upsert fails only for want of ids. *)
Lemma UpsertFile_ok r root env d :
  no_faults env → MerkleRoot r = Some root →
  (∃ e1, UpsertFile r env d = (Err (UpsertingFile (Path r) DatabaseFull), d, e1)) ∨
  ∃ id d1 e1, UpsertFile r env d = (Ret (with_ID r id), d1, e1) ∧ no_faults e1 ∧
    ∃ row, files d1 !! Path r = Some row ∧ fr_id row = id.
Proof.
  intros He Hr. pose proof (statement_ok (upsert_stmt r) env d He) as Es.
  unfold UpsertFile, mbind, act_bind, wrap. rewrite Es. unfold upsert_stmt. rewrite Hr.
  cbn [not_null mbind outcome_bind]. destruct (files d !! Path r) as [old|].
  - right. do 3 eexists. split; [done|]. split; [by apply no_faults_tail|]. cbn. rewrite lookup_insert_eq. eauto.
  - unfold next_id. destruct (MaxInt64 <? _); cbn; [left; eauto|]. right. do 3 eexists. split; [done|].
    split; [by apply no_faults_tail|]. cbn. rewrite lookup_insert_eq. eauto.
Qed.

(** ** Theorems *)

(** C31: whatever a client does with the store and whichever statements, commits
    and roll-backs fail, the tables stay well formed: file ids are positive,
    unique and below the counter, counters and totals fit 64 bits, rows of
    [snapshot_files] refer to snapshots, and each snapshot counts and sums
    exactly the rows it has. *)
Theorem store_stays_wf d : star store_step schema d → wf d.
Proof. intros Hs. apply (run_evolves _ _ Hs wf_schema). Qed.

(** C11: a snapshot returned by [CreateSnapshot] is permanent: after any further
    run of the store, [GetSnapshot] returns it unchanged and [GetSnapshotFiles]
    returns, in the order of the paths, the files as they were when it was
    taken. *)
Theorem snapshot_is_permanent root c env d sn d' env' d'' env'' :
  wf d → CreateSnapshot root c env d = (Ret sn, d', env') → star store_step d' d'' → no_faults env'' →
  result (GetSnapshot (sn_ID sn)) env'' d'' = Ret (Some sn) ∧
  result (GetSnapshotFiles (sn_ID sn)) env'' d''
    = Ret (snapshot_file_of (sn_ID sn) <$> by_path (snapshot_entry <$> files d)).
Proof.
  intros Hd E Hs Hf. apply CreateSnapshot_Ret in E as Ht.
  destruct (snapshot_taken_evolves _ _ _ _ _ Ht Hd) as [Hd' _].
  destruct (run_evolves _ _ Hs Hd') as [_ Hk].
  destruct Ht as (h & now & -> & Hid & _ & _ & Hsn & ->).
  destruct (Hk (sn_ID sn) _ (lookup_insert_eq _ _ _)) as [Hi Hp].
  split.
  - rewrite (reads_ok _ _ _ _ (GetSnapshot_reads _) Hf), Hi. cbn. by rewrite Hsn.
  - rewrite (reads_ok _ _ _ _ (GetSnapshotFiles_reads _) Hf). do 2 f_equal.
    apply sorted_rows_unique, rows_of_perm. intros p. rewrite Hp. cbn.
    rewrite lookup_union, lookup_kmap_pair, decide_True by done.
    destruct (snapshot_files d !! (sn_ID sn, p)) as [x|] eqn:Ex; [|by rewrite right_id by apply _].
    apply (wf_snapshot_ref _ Hd) in Ex as [s Es]. apply (wf_snapshot_id _ Hd) in Es. lia.
Qed.

(** C13: the table of files refines a finite map from paths to (root, size,
    modification second, chunk count): a successful [UpsertFile] binds the path,
    [DeleteFile] removes it, failed calls change nothing, and [GetFile] and
    [ListFiles] read the map, the latter in the order of the paths; reads and
    deletions succeed unless a statement fails. *)
Theorem files_refine_map env d :
  (∀ r, match UpsertFile r env d with
        | (Ret r', d', _) =>
            ∃ m, meta_of r = Some m ∧ r' = with_ID r (ID r') ∧ tracked d' = <[Path r := m]> (tracked d)
        | (_, d', _) => d' = d
        end) ∧
  (∀ p, match DeleteFile p env d with
        | (Ret _, d', _) => tracked d' = delete p (tracked d)
        | (_, d', _) => d' = d ∧ ¬ no_faults env
        end) ∧
  (∀ p, match GetFile p env d with
        | (Ret o, d', _) => (o ≫= meta_of) = tracked d !! p ∧ d' = d
        | (_, d', _) => d' = d ∧ ¬ no_faults env
        end) ∧
  match ListFiles env d with
  | (Ret l, d', _) => ((λ r, (Path r, meta_of r)) <$> l) = (prod_map id Some <$> by_path (tracked d)) ∧ d' = d
  | (_, d', _) => d' = d ∧ ¬ no_faults env
  end.
Proof.
  split_and!.
  - intros r. destruct (UpsertFile r env d) as [[res d'] env'] eqn:E.
    apply UpsertFile_cases in E as [(id & s & -> & E)|[Hr ->]]; [|by destruct res].
    apply upsert_tracked in E as (m & Hm & Ht). eauto.
  - intros p. unfold DeleteFile, wrap, statement. destruct (s_fault _) eqn:Es.
    + split; [done|]. intros Hf%no_faults_head. congruence.
    + by eapply delete_tracked.
  - intros p. pose proof (GetFile_reads p env d) as Hr.
    destruct (GetFile p env d) as [[[o|e|] d'] env']; [|done..]. destruct Hr as (-> & -> & _).
    split; [|done]. unfold tracked. rewrite lookup_fmap. destruct (files d !! p); [|done]. apply meta_of_record.
  - pose proof (ListFiles_reads env d) as Hr.
    destruct (ListFiles env d) as [[[l|e|] d'] env']; [|done..]. destruct Hr as (-> & -> & _).
    split; [|done]. unfold tracked. rewrite by_path_fmap, <- !list_fmap_compose.
    apply list_fmap_ext. intros i [p r] _. cbn. f_equal. apply (meta_of_record (p, r)).
Qed.

(** Reading back an upserted record: [GetFile] returns its root, size and
    chunk count and its modification time cut to the second, under the id that
    [UpsertFile] reported; a path that was already tracked keeps its id and
    creation time; and from then on [NeedsUpdate] asks for the file again
    exactly when its size or its modification second differs. *)
Theorem upsert_round_trip r env d r' d' env' env'' :
  UpsertFile r env d = (Ret r', d', env') → no_faults env'' →
  ∃ g, result (GetFile (Path r)) env'' d' = Ret (Some g) ∧
    (ID g, Path g, MerkleRoot g, Size g, ChunkCount g) = (ID r', Path r, MerkleRoot r, Size r, ChunkCount r) ∧
    ModTime g = ModTime r - ModTime r mod nanos ∧
    (∀ old, result (GetFile (Path r)) env'' d = Ret (Some old) → ID g = ID old ∧ CreatedAt g = CreatedAt old) ∧
    (∀ t n, result (NeedsUpdate (Path r) t n) env'' d'
            = Ret (negb (bool_decide (Size r = n ∧ Unix (ModTime r) = Unix t)))).
Proof.
  intros E Hf. apply UpsertFile_cases in E as [(id & s & [= ->] & E)|[[=] _]].
  apply upsert_cases in E as (root & row & seq & -> & Hroot & (<- & <- & Hs & Ht & Hc) & Hold).
  pose proof (λ p d, reads_ok _ _ _ d (GetFile_reads p) Hf) as Hget.
  exists (record_of (Path r, row)). rewrite !Hget. cbn [files]. rewrite lookup_insert_eq. split_and!.
  - done.
  - cbn. congruence.
  - cbn. rewrite Ht. unfold time_Unix, Unix. pose proof (Z.div_mod (ModTime r) nanos ltac:(done)). lia.
  - intros old. destruct (files d !! Path r) as [o|]; [|done]. intros [= <-]. cbn.
    destruct Hold as (-> & -> & _). done.
  - intros t n. rewrite (reads_ok _ _ _ _ (NeedsUpdate_reads _ _ _) Hf). do 2 f_equal.
    apply bool_decide_ext. unfold up_to_date. cbn. rewrite lookup_insert_eq, <- Hs, <- Ht. naive_solver.
Qed.

(** Deleting a tracked file removes the rows of its chunks when the
    connection enforces foreign keys. [Open] switches enforcement on for one
    connection of the pool only: on another one the rows stay behind, under an
    id that belongs to no file. *)
Theorem delete_cascade p r d s env :
  wf d → files d !! p = Some r → s_fault s = false →
  ∃ d', DeleteFile p (s :: env) d = (Ret (), d', env) ∧ files d' !! p = None ∧
    (∀ q r', files d' !! q = Some r' → fr_id r' ≠ fr_id r) ∧
    (∀ j, file_chunks d' !! (fr_id r, j) = if s_fk s then None else file_chunks d !! (fr_id r, j)) ∧
    (∀ i j, i ≠ fr_id r → file_chunks d' !! (i, j) = file_chunks d !! (i, j)).
Proof.
  intros Hd Hp Hs. unfold DeleteFile, wrap, statement. change (default default_stmt (head (s :: env))) with s. rewrite Hs. unfold delete_stmt.
  rewrite Hp. eexists. split; [done|]. cbn. split_and!.
  - apply lookup_delete_eq.
  - intros q r' [Hne Hq]%lookup_delete_Some E. apply Hne. by apply (wf_file_id_inj _ Hd p q r r').
  - intros j. destruct (s_fk s); [|done]. apply map_lookup_filter_None_2. right. intros x _ Hx. by apply Hx.
  - intros i j Hi. destruct (s_fk s); [|done]. rewrite map_lookup_filter.
    destruct (file_chunks d !! (i, j)); [|done]. simpl. by rewrite option_guard_True.
Qed.

(** [ListSnapshots] returns every snapshot once, newest first, whichever
    way the engine orders snapshots of the same second. *)
Theorem list_snapshots_newest_first scan env d l d' env' :
  (∀ k, scan k ≡ₚ k) → ListSnapshots scan env d = (Ret l, d', env') →
  l ≡ₚ ((λ kv, snapshot_of kv.1 kv.2) <$> map_to_list (snapshots d)) ∧ StronglySorted newer l ∧
  (∀ i sn, result (GetSnapshot i) [] d = Ret (Some sn) ↔ sn ∈ l ∧ sn_ID sn = i).
Proof.
  intros Hp E. pose proof (ListSnapshots_reads scan env d) as Hr. rewrite E in Hr. destruct Hr as (-> & -> & _).
  assert (newest_first scan d ≡ₚ ((λ kv, snapshot_of kv.1 kv.2) <$> map_to_list (snapshots d))) as Hl
    by (unfold newest_first; by rewrite merge_sort_Permutation, Hp).
  split_and!; [done| |].
  - apply StronglySorted_merge_sort; [intros x y z; unfold newer; lia|intros x y; unfold newer; lia].
  - intros i sn. rewrite Hl, list_elem_of_fmap.
    rewrite (reads_ok _ _ _ _ (GetSnapshot_reads i)) by constructor. split.
    + destruct (snapshots d !! i) as [s|] eqn:Ei; [|done]. intros [= <-]. split; [|done].
      exists (i, s). by rewrite elem_of_map_to_list.
    + intros [([j s] & -> & Hj%elem_of_map_to_list) <-]. cbn in *. by rewrite Hj.
Qed.

(** ** A concrete run *)
Module DbExample.
Definition rec1 : FileRecord :=
  mkFileRecord 0 [x61] (Some [x01]) 11 (1700000000 * nanos + 7) 1 0 0.
Definition rec2 : FileRecord :=
  mkFileRecord 0 [x62] (Some [x02]) 4100 (1700000001 * nanos) 2 0 0.
Definition at_time (t : Z) : stmt := mkStmt false t 0 true.
Definition d1 : db := after (UpsertFile rec1) [at_time 50] schema.
Definition d2 : db := after (UpsertFile rec2) [at_time 51] d1.
Definition d3 : db := after (Transaction (SetFileChunks 2 [Some [x0a]; Some [x0b]] [4096; 4])) [] d2.

Lemma run12 : star store_step schema d2.
Proof.
  eapply star_step; [exists db_error, FileRecord, (UpsertFile rec1), [at_time 50]; split; [apply prog_upsert|reflexivity]|].
  apply star_one. exists db_error, FileRecord, (UpsertFile rec2), [at_time 51]. split; [apply prog_upsert|reflexivity].
Qed.

Lemma run23 : star store_step d2 d3.
Proof. apply star_one. eexists db_error, unit, _, []. split; [apply prog_transaction, prog_chunks|reflexivity]. Qed.
End DbExample.

Lemma store_stays_wf_witness : wf DbExample.d3 ∧ size (files DbExample.d3) = 2%nat ∧ files_seq DbExample.d3 = 2.
Proof.
  split; [|vm_compute; done].
  apply store_stays_wf. eapply star_trans; [apply DbExample.run12|apply DbExample.run23].
Defined.

Lemma snapshot_is_permanent_witness :
  let sn := mkSnapshot 1 (Some [x09]) 2 4111 (52 * nanos) [] in
  let d := after (CreateSnapshot (Some [x09]) []) [DbExample.at_time 0; DbExample.at_time 0; DbExample.at_time 52] DbExample.d2 in
  result (GetSnapshotFiles 1) [] (after (DeleteFile [x61]) [] d)
    = Ret [mkSnapshotFile 1 [x61] (Some [x01]) 11; mkSnapshotFile 1 [x62] (Some [x02]) 4100] ∧
  result (GetSnapshot 1) [] (after (DeleteFile [x61]) [] d) = Ret (Some sn).
Proof.
  intros sn d.
  assert (CreateSnapshot (Some [x09]) [] [DbExample.at_time 0; DbExample.at_time 0; DbExample.at_time 52] DbExample.d2
          = (Ret sn, d, [])) as E by reflexivity.
  destruct (snapshot_is_permanent _ _ _ _ _ _ _ (after (DeleteFile [x61]) [] d) []
    (proj1 (run_evolves _ _ DbExample.run12 wf_schema)) E) as [H1 H2].
  - apply star_one. eexists db_error, unit, (DeleteFile [x61]), []. split; [apply prog_delete|reflexivity].
  - constructor.
  - split; [exact H2|exact H1].
Defined.

Lemma upsert_round_trip_witness :
  result (NeedsUpdate [x62] (1700000001 * nanos + 999999999) 4100) [] DbExample.d2 = Ret false ∧
  result (NeedsUpdate [x62] (1700000002 * nanos) 4100) [] DbExample.d2 = Ret true.
Proof.
  destruct (upsert_round_trip DbExample.rec2 [DbExample.at_time 51] DbExample.d1 (with_ID DbExample.rec2 2)
    DbExample.d2 [] [] eq_refl ltac:(constructor)) as (g & _ & _ & _ & _ & Hn).
  split; [exact (Hn _ _)|exact (Hn _ _)].
Defined.

Lemma delete_cascade_witness :
  file_chunks (after (DeleteFile [x62]) [mkStmt false 0 0 false] DbExample.d3) !! (2, 1) = Some (mkChunkRow [x0b] 4) ∧
  file_chunks (after (DeleteFile [x62]) [mkStmt false 0 0 true] DbExample.d3) !! (2, 1) = None.
Proof.
  assert (wf DbExample.d3) as Hd.
  { eapply run_evolves, wf_schema. eapply star_trans; [apply DbExample.run12|apply DbExample.run23]. }
  assert (files DbExample.d3 !! [x62] = Some (mkFileRow 2 [x02] 4100 1700000001 2 51 51)) as Hp by reflexivity.
  destruct (delete_cascade [x62] _ _ (mkStmt false 0 0 false) [] Hd Hp eq_refl) as (e1 & E1 & _ & _ & C1 & _).
  destruct (delete_cascade [x62] _ _ (mkStmt false 0 0 true) [] Hd Hp eq_refl) as (e2 & E2 & _ & _ & C2 & _).
  unfold after. rewrite E1, E2. cbn. split; [exact (C1 1)|exact (C2 1)].
Defined.

Lemma list_snapshots_newest_first_witness :
  let d := after (CreateSnapshot (Some [x09]) []) [] DbExample.d2 in
  ∃ l, ListSnapshots (λ k, k) [] d = (Ret l, d, []) ∧ StronglySorted newer l.
Proof.
  intros d. eexists. split; [reflexivity|].
  eapply (list_snapshots_newest_first (λ k, k) [] d); [done|reflexivity].
Defined.
