(* ===== verification/Watcher.v ===== *)
(** * The file watcher ([internal/watcher/watcher.go])

    fsnotify is represented by what it delivers, a queue of events naming paths,
    and by the set of watched directories. The watched tree is an [fs] with a
    modification time per path; it does not change while one handler runs.
    Directories that cannot be listed or files that cannot be opened
    ([unreadable]), reads that end in an error ([fin]) and directories that
    cannot be watched ([addable]) are parameters; the store's statements fail as
    [Db] says. The callbacks appear as the notifications they are called
    with. *)
From Stdlib Require Import Strings.Byte Strings.String.
From S2P Require Import Prelude Sha256 Fs Chunk Build Db.

Open Scope Z_scope.

Record world := mkWorld { w_fs : fs; w_mtime : path → Z }.

(** [fsnotify.Event]: the path and whether [Has(Create)]. *)
Record event := mkEvent { ev_name : path; ev_create : bool }.

Inductive watch_error :=
| RootPathRequired
| StoreRequired
| CreatingWatcher
| WalkFailed (p : path)
| WatchingPath (p : path)
| WalkingTree (e : watch_error)
| StatFile (e : fs_error)
| CheckingNeedsUpdate (e : db_error)
| OpeningFile (e : fs_error)
| ChunkingFile (e : read_error)
| UpdatingDatabase (e : db_error)
| DeletingFromDatabase (e : db_error)
| Processing (relPath : bytes) (e : watch_error)
| Scanning (relPath : bytes) (e : watch_error).

(** What the configured callbacks receive. *)
Inductive notification :=
| OnUpdate (relPath : bytes) (r : FileRecord)
| OnDelete (relPath : bytes)
| OnError (e : watch_error).

(** ** Construction *)
Definition millisecond : Z := 1000000.

(** The effective debounce period of a new watcher. *)
Definition New (rootPath : bytes) (has_store fsnotify_ok : bool) (debounce : Z) : outcome watch_error Z :=
  if decide (rootPath = []) then Err RootPathRequired
  else if negb has_store then Err StoreRequired
  else if negb fsnotify_ok then Err CreatingWatcher
  else Ret (if debounce =? 0 then 100 * millisecond else debounce).

(** ** [filepath.Rel] on clean absolute paths *)
Fixpoint strip_common (base targ : path) : path * path :=
  match base, targ with
  | b :: base', t :: targ' => if decide (b = t) then strip_common base' targ' else (base, targ)
  | _, _ => (base, targ)
  end.

Definition Rel (base targ : path) : bytes :=
  match strip_common base targ with
  | ([], []) => dot
  | (b, t) => join_slash (replicate (length b) dotdot ++ t)
  end.

(** ** Fault-injected actions *)
Definition fail {E A} (e : E) : act E A := λ env d, (Err e, d, env).
Definition panics {E A} : act E A := λ env d, (Panic, d, env).

Definition lift {E E' A} (w : E → E') (o : outcome E A) : act E' A :=
  match o with Ret a => mret a | Err e => fail (w e) | Panic => panics end.

Section watcher.
Context `{HashFn}.
Context (unreadable : path → bool) (fin : path → option read_error) (addable : path → bool).
Context (root : path) (rootName : bytes).

Definition computeMerkleRoot (hashes : list bytes) : bytes :=
  match hashes with
  | [] => replicate 32 x00
  | _ => hasher_Sum (foldl hasher_Write hasher_New hashes)
  end.

(** ** Processing one file *)
Definition open_file (f : fs) (p : path) : outcome fs_error stream :=
  if unreadable p then Err EIO
  else match ReadFile f p with
       | Ret content => Ret (Stream content (fin p))
       | Err e => Err e
       | Panic => Panic
       end.

(** The zero [time.Time]. *)
Definition zero_time : Z := - 62135596800 * nanos.

Definition file_record (relPath : bytes) (size modTime : Z) (chunks : list Chunk) : FileRecord :=
  mkFileRecord 0 relPath (Some (computeMerkleRoot (ch_Hash <$> chunks))) size modTime
    (Z.of_nat (length chunks)) zero_time zero_time.

(** The body of the update transaction. *)
Definition update_tx (record : FileRecord) (chunks : list Chunk) : db_act FileRecord :=
  r ← UpsertFile record;
  SetFileChunks (ID r) (Some <$> (ch_Hash <$> chunks)) (ch_Size <$> chunks);;
  mret r.

Definition handleUpdate (f : fs) (relPath : bytes) (fullPath : path) (size modTime : Z)
    : act watch_error notification :=
  r ← lift OpeningFile (open_file f fullPath);
  chunks ← lift ChunkingFile (ChunkAll r);
  record ← wrap UpdatingDatabase (Transaction (update_tx (file_record relPath size modTime chunks) chunks));
  mret (OnUpdate relPath record).

Definition handleDelete (relPath : bytes) : act watch_error notification :=
  wrap DeletingFromDatabase (Transaction (DeleteFile relPath));;
  mret (OnDelete relPath).

(** [info.Size()] of a regular file. *)
Definition file_size (content : bytes) : Z := Z.of_nat (length content).

Definition processFile (w : world) (relPath : bytes) : act watch_error (option notification) :=
  let fullPath := Join root [relPath] in
  match Stat (w_fs w) fullPath with
  | Err e => if IsNotExist e then n ← handleDelete relPath; mret (Some n) else fail (StatFile e)
  | Panic => panics
  | Ret (FDir _) => mret None
  | Ret (FFile content _) =>
      let size := file_size content in
      let modTime := w_mtime w fullPath in
      needsUpdate ← wrap CheckingNeedsUpdate (NeedsUpdate relPath modTime size);
      if needsUpdate : bool then n ← handleUpdate (w_fs w) relPath fullPath size modTime; mret (Some n)
      else mret None
  end.

(** One turn of the loop of [flushPending]: an error is reported and the file
    is not looked at again. *)
Definition process_one (w : world) (relPath : bytes) : act Empty_set (list notification) := λ env d,
  match processFile w relPath env d with
  | (Ret n, d', env') => (Ret (option_list n), d', env')
  | (Err e, d', env') => (Ret [OnError (Processing relPath e)], d', env')
  | (Panic, d', env') => (Panic, d', env')
  end.

Fixpoint process_all (w : world) (l : list bytes) : act Empty_set (list notification) :=
  match l with
  | [] => mret []
  | relPath :: l' =>
      ns ← process_one w relPath;
      rest ← process_all w l';
      mret (ns ++ rest)
  end.

(** ** Events *)
Record watcher := mkWatcher { watched : gset path; pending : gset bytes }.

Definition handleEvent (w : world) (st : watcher) (e : event) : watcher :=
  if hidden (info_name (ev_name e)) then st
  else
    let relPath := Rel root (ev_name e) in
    let queued := mkWatcher (watched st) ({[relPath]} ∪ pending st) in
    if ev_create e then
      match Stat (w_fs w) (ev_name e) with
      | Ret (FDir _) =>
          if addable (ev_name e) then mkWatcher ({[ev_name e]} ∪ watched st) (pending st) else st
      | _ => queued
      end
    else queued.

(** [flushPending]: the pending set is swapped for an empty one, then its
    members are processed in the order [order] ranges over the map. *)
Definition swap_pending (order : list bytes → list bytes) (st : watcher) : list bytes * watcher :=
  (order (elements (pending st)), mkWatcher (watched st) ∅).

Definition flushPending (order : list bytes → list bytes) (w : world) (st : watcher)
    : act Empty_set (list notification * watcher) :=
  if decide (pending st = ∅) then mret ([], st)
  else
    let '(batch, st') := swap_pending order st in
    ns ← process_all w batch;
    mret (ns, st').

(** ** [filepath.WalkDir]

    [visit] is the callback on entries without an error; [Ret true] is
    [SkipDir]. Both callbacks return the error of an unreadable directory as it
    is. Running out of fuel is [Panic]. *)
Section walk.
Context {E St : Type} (onError : path → E).
Context (visit : path → bytes → fnode → St → outcome E bool * St).

(** The loop over the entries of a directory. *)
Fixpoint walk_entries (walk : path → bytes → fnode → St → outcome E bool * St)
    (f : fs) (p : path) (names : list bytes) (s : St) : outcome E bool * St :=
  match names with
  | [] => (Ret false, s)
  | c :: names' =>
      match f !! (p ++ [c]) with
      | None => walk_entries walk f p names' s
      | Some n =>
          match walk (p ++ [c]) c n s with
          | (Ret false, s') => walk_entries walk f p names' s'
          | (Ret true, s') => (Ret false, s')
          | r => r
          end
      end
  end.

Fixpoint walkDir (fuel : nat) (f : fs) (p : path) (name : bytes) (n : fnode) (s : St) : outcome E bool * St :=
  match fuel with
  | O => (Panic, s)
  | S fuel' =>
      match visit p name n s with
      | (Ret skip, s1) =>
          if negb (is_dir n) then (Ret skip, s1)
          else if (skip : bool) then (Ret false, s1)
          else if unreadable p then (Err (onError p), s1)
          else walk_entries (walkDir fuel' f) f p (ReadDir f p) s1
      | r => r
      end
  end.

Definition WalkDir (f : fs) (s : St) : outcome E unit * St :=
  match Stat f root with
  | Ret n =>
      match walkDir (S (max_depth f)) f root rootName n s with
      | (Ret _, s') => (Ret (), s')
      | (Err e, s') => (Err e, s')
      | (Panic, s') => (Panic, s')
      end
  | Err _ => (Err (onError root), s)
  | Panic => (Panic, s)
  end.
End walk.

(** The callback of [Start]. *)
Definition start_visit (p : path) (name : bytes) (n : fnode) (ws : gset path) : outcome watch_error bool * gset path :=
  if is_dir n then
    if hidden name && negb (bool_decide (p = root)) then (Ret true, ws)
    else if addable p then (Ret false, {[p]} ∪ ws) else (Err (WatchingPath p), ws)
  else (Ret false, ws).

Definition Start (f : fs) : outcome watch_error (gset path) :=
  match WalkDir WalkFailed start_visit f ∅ with
  | (Ret _, ws) => Ret ws
  | (Err e, _) => Err (WalkingTree e)
  | (Panic, _) => Panic
  end.

(** The callback of [ScanAll], on the tables, the statements to come and the
    notifications so far. *)
Definition scan_state : Type := db * list stmt * list notification.

Definition scan_visit (w : world) (p : path) (name : bytes) (n : fnode) (s : scan_state)
    : outcome watch_error bool * scan_state :=
  let '(d, env, ns) := s in
  if hidden name then (Ret (is_dir n), s)
  else match n with
  | FDir _ => (Ret false, s)
  | FFile content _ =>
      let relPath := Rel root p in
      let size := file_size content in
      let modTime := w_mtime w p in
      match wrap CheckingNeedsUpdate (NeedsUpdate relPath modTime size) env d with
      | (Err e, d', env') => (Err e, (d', env', ns))
      | (Panic, d', env') => (Panic, (d', env', ns))
      | (Ret false, d', env') => (Ret false, (d', env', ns))
      | (Ret true, d', env') =>
          match handleUpdate (w_fs w) relPath p size modTime env' d' with
          | (Ret note, d2, env2) => (Ret false, (d2, env2, ns ++ [note]))
          | (Err e, d2, env2) => (Ret false, (d2, env2, ns ++ [OnError (Scanning relPath e)]))
          | (Panic, d2, env2) => (Panic, (d2, env2, ns))
          end
      end
  end.

Definition ScanAll (w : world) (s : scan_state) : outcome watch_error unit * scan_state :=
  WalkDir WalkFailed (scan_visit w) (w_fs w) s.
End watcher.
