(* ===== verification/WatcherSpec.v ===== *)
(** * What the watcher guarantees

    Updates are atomic and complete; a scan records every visible file; the
    watcher converges: once the tree stops changing, its internal steps run out
    and the store then describes every watched file whose changes were
    announced. The remaining theorems describe the changes it misses. *)
From Stdlib Require Import Strings.Byte Strings.String.
From S2P Require Import Prelude Sha256 Fs Chunk Merkle MerkleSpec DiffSpec Build Db DbSpec Watcher.

Open Scope Z_scope.

Section spec.
Context `{HashFn}.
Context (unreadable : path → bool) (fin : path → option read_error) (addable : path → bool).
Context (root : path) (rootName : bytes).

Local Abbreviation handleUpdate := (handleUpdate unreadable fin).
Local Abbreviation processFile := (processFile unreadable fin root).

(** ** Updating a file *)
Lemma lift_Ret {E E' A} (w : E → E') (o : outcome E A) env d a d' env' :
  lift w o env d = (Ret a, d', env') → o = Ret a ∧ d' = d ∧ env' = env.
Proof. destruct o; simpl; [|done..]. by intros [= -> -> ->]. Qed.

Lemma lift_bind {E E' A B} (w : E → E') (o : outcome E A) (k : A → act E' B) env d :
  (lift w o ≫= k) env d =
    match o with Ret a => k a env d | Err e => (Err (w e), d, env) | Panic => (Panic, d, env) end.
Proof. by destruct o. Qed.

Lemma ChunkAll_Ret r cs : ChunkAll r = Ret cs → cs = make_chunk <$> chunks_of ChunkSize (st_buf r).
Proof.
  destruct r as [l [e|]]; unfold ChunkAll; cbn [st_buf].
  - rewrite chunk_loop_fail by lia. done.
  - change (Stream l None) with (stream_of l). rewrite chunk_loop_ok by lia. by intros [= <-].
Qed.

(** The hashes and sizes the store should hold for a content. *)
Definition content_chunks (content : bytes) : list Chunk := make_chunk <$> chunks_of ChunkSize content.

Definition content_root (content : bytes) : bytes := computeMerkleRoot (ch_Hash <$> content_chunks content).

Definition content_meta (content : bytes) (modTime : Z) : file_meta :=
  (content_root content, file_size content, Unix modTime, Z.of_nat (length (content_chunks content))).

(** The store describes the content at this path, chunk by chunk. *)
Definition described (d : db) (relPath content : bytes) (modTime : Z) : Prop :=
  ∃ r, files d !! relPath = Some r ∧ meta_of_row r = content_meta content modTime ∧
    ∀ j, file_chunks d !! (fr_id r, j)
         = if 0 <=? j then (λ c, mkChunkRow (ch_Hash c) (ch_Size c)) <$> content_chunks content !! Z.to_nat j
           else None.

Lemma chunk_at_content content j :
  chunk_at (Some <$> (ch_Hash <$> content_chunks content)) (ch_Size <$> content_chunks content) j
  = if 0 <=? j then (λ c, mkChunkRow (ch_Hash c) (ch_Size c)) <$> content_chunks content !! Z.to_nat j
    else None.
Proof.
  unfold chunk_at. destruct (0 <=? j); [|done]. rewrite !list_lookup_fmap.
  by destruct (content_chunks content !! Z.to_nat j).
Qed.

Lemma open_file_Ret f p r : open_file unreadable fin f p = Ret r → ReadFile f p = Ret (st_buf r).
Proof.
  unfold open_file. destruct (unreadable p); [done|]. by destruct (ReadFile f p); intros [= <-].
Qed.

(** The effect of the update transaction. *)
Lemma update_tx_Ret relPath content modTime env d r d' env' :
  wf d →
  update_tx (file_record relPath (file_size content) modTime (content_chunks content)) (content_chunks content) env d
    = (Ret r, d', env') →
  described d' relPath content modTime ∧
  tracked d' = <[relPath := content_meta content modTime]> (tracked d) ∧
  others_kept d d' relPath.
Proof.
  intros Hd (r1 & d1 & e1 & E1 & (u & d2 & e2 & E2 & [-> ->]%mret_Ret)%bind_Ret)%bind_Ret.
  apply UpsertFile_cases in E1 as [(id & s & [= ->] & E1)|[[=] _]].
  pose proof (upsert_tracked _ _ _ _ _ E1) as (m & [= <-] & Ht).
  apply upsert_cases in E1 as (rt & row & seq & -> & [= <-] & (<- & Hr1 & Hr2 & Hr3 & Hr4) & Hold).
  apply SetFileChunks_Ret in E2 as (_ & Ed & Ho & Hc). cbn [file_record Path ID with_ID] in *.
  assert (files d2 = <[relPath := row]> (files d)) as Ef by by rewrite Ed.
  split_and!.
  - exists row. rewrite Ef, lookup_insert_eq. split_and!; [done| |].
    + unfold meta_of_row. by rewrite Hr1, Hr2, Hr3, Hr4.
    + intros j. by rewrite Hc, chunk_at_content.
  - unfold tracked at 1. rewrite Ef. exact Ht.
  - intros q Hq. rewrite Ef, lookup_insert_ne by done. split; [done|]. intros rq Eq j. apply Ho.
    intros E. destruct (files d !! relPath) as [old|] eqn:Eo.
    + destruct Hold as (Hi & _). apply Hq. symmetry. apply (wf_file_id_inj _ Hd _ _ _ _ Eo Eq). congruence.
    + pose proof (wf_file_id _ Hd _ _ Eq). lia.
Qed.

Lemma handleUpdate_Ret f relPath p size modTime env d n d' env' :
  wf d → handleUpdate f relPath p size modTime env d = (Ret n, d', env') →
  ∃ content, ReadFile f p = Ret content ∧
    (size = file_size content →
     described d' relPath content modTime ∧
     tracked d' = <[relPath := content_meta content modTime]> (tracked d) ∧
     others_kept d d' relPath).
Proof.
  intros Hd (r & d1 & e1 & (Eo%open_file_Ret & -> & ->)%lift_Ret & E)%bind_Ret.
  apply bind_Ret in E as (cs & d2 & e2 & (Ec%ChunkAll_Ret & -> & ->)%lift_Ret & E).
  apply bind_Ret in E as (rec & d3 & e3 & Et%wrap_Ret & [-> ->]%mret_Ret).
  exists (st_buf r). split; [done|]. intros ->. subst cs.
  apply Transaction_Ret in Et as (e4 & e5 & Et). by eapply update_tx_Ret.
Qed.

(** A failed update leaves the tables alone. *)
Lemma handleUpdate_fail f relPath p size modTime env d r d' env' :
  handleUpdate f relPath p size modTime env d = (r, d', env') → is_ret r = false → d' = d.
Proof.
  unfold Watcher.handleUpdate. rewrite lift_bind. destruct (open_file _ _ _ _) as [st|e|]; [|by intros [= _ <- _]..].
  rewrite lift_bind. destruct (ChunkAll st) as [cs|e|]; [|by intros [= _ <- _]..].
  unfold mbind, act_bind, wrap. destruct (Transaction _ env d) as [[[rec|e|] d3] e3] eqn:E; cbn.
  - by intros [= <- _ _].
  - intros [= _ <- _] _. by apply Transaction_cases in E as [(? & ? & ? & [=] & _)|[_ ->]].
  - intros [= _ <- _] _. by apply Transaction_cases in E as [(? & ? & ? & [=] & _)|[_ ->]].
Qed.

(** Why an update of an existing file fails when no statement does: the file
    cannot be opened or read to its end, or the table has no id left. *)
Definition update_error (p : path) (relPath : bytes) (e : watch_error) : Prop :=
  unreadable p = true ∨ is_Some (fin p) ∨ e = UpdatingDatabase (UpsertingFile relPath DatabaseFull).

Lemma update_tx_ok record chunks h env d :
  no_faults env → MerkleRoot record = Some h →
  (∃ env', Transaction (update_tx record chunks) env d = (Err (UpsertingFile (Path record) DatabaseFull), d, env')) ∨
  ∃ r d' env', Transaction (update_tx record chunks) env d = (Ret r, d', env').
Proof.
  intros He Hr. unfold Transaction, query. rewrite statement_ok by done. cbv iota beta.
  destruct (UpsertFile_ok record h (tail env) d (no_faults_tail _ He) Hr)
    as [(e1 & E)|(id & d1 & e1 & E & He1 & row & Hrow & Hid)].
  - left. unfold update_tx, mbind, act_bind. rewrite E. cbv iota.
    assert (no_faults e1) as He1 by (by eapply (program_frugal false _ _ _ (prog_upsert false record)), no_faults_tail).
    rewrite statement_ok by done. eauto.
  - right. unfold update_tx. rewrite (bind_ok _ _ _ _ _ _ _ E). cbn [ID with_ID]. subst id.
    destruct (SetFileChunks_ok _ row (ch_Hash <$> chunks) (ch_Size <$> chunks) e1 d1 He1 Hrow) as (d2 & e2 & E2 & He2).
    rewrite (bind_ok _ _ _ _ _ _ _ E2). cbv iota beta. unfold mret, act_ret. rewrite statement_ok by done. eauto.
Qed.

Lemma handleUpdate_Err f relPath p content size modTime env d e d' env' :
  no_faults env → ReadFile f p = Ret content →
  handleUpdate f relPath p size modTime env d = (Err e, d', env') → update_error p relPath e.
Proof.
  intros He Hc. unfold Watcher.handleUpdate, update_error. rewrite lift_bind. unfold open_file.
  destruct (unreadable p); [by left|]. rewrite Hc. rewrite lift_bind.
  destruct (fin p) as [x|] eqn:Ef; [intros _; right; left; by eexists|].
  unfold ChunkAll. change (Stream content None) with (stream_of content).
  rewrite chunk_loop_ok by (simpl; lia). set (cs := _ ++ _). intros E.
  destruct (update_tx_ok (file_record relPath size modTime cs) cs (computeMerkleRoot (ch_Hash <$> cs)) env d He eq_refl)
    as [(e1 & Et)|(r & d1 & e1 & Et)]; unfold mbind, act_bind, wrap in E; rewrite Et in E.
  - injection E as <- _ _. by right; right.
  - done.
Qed.

(** ** Processing a path *)
Definition rel (p : path) : bytes := join_slash p.

(** A path below the root. *)
Definition below (p : path) : Prop := p ≠ [] ∧ Forall plain_name p.

(** The store agrees with the tree on this path, as far as [NeedsUpdate]
    compares them; nothing is said of directories. *)
Definition recorded (w : world) (d : db) (p : path) : Prop :=
  match w_fs w !! (root ++ p) with
  | Some (FFile content _) => up_to_date d (rel p) (w_mtime w (root ++ p)) (file_size content)
  | Some (FDir _) => True
  | None => files d !! rel p = None
  end.

Lemma described_up_to_date d r content t : described d r content t → up_to_date d r t (file_size content).
Proof. intros (row & Hr & [= _ Hs Ht _] & _). by exists row. Qed.

(** What processing changed: nothing, or the row of the path was removed, or it
    now describes the file. *)
Definition processed (w : world) (d d' : db) (p : path) : Prop :=
  d' = d ∨ files d' !! rel p = None ∨
  ∃ content m, w_fs w !! (root ++ p) = Some (FFile content m) ∧
    described d' (rel p) content (w_mtime w (root ++ p)).

Lemma Rel_below p : below p → Rel root (root ++ p) = rel p.
Proof.
  intros [Hne _]. unfold Rel. assert (strip_common root (root ++ p) = ([], p)) as ->.
  { induction root as [|c r IH]; [by destruct p|]. simpl. by rewrite decide_True, IH. }
  by destruct p.
Qed.

Lemma rel_inj p q : below p → below q → rel p = rel q → p = q.
Proof.
  intros [Hp Hp'] [Hq Hq'] E. rewrite <- (split_join_slash p), <- (split_join_slash q) by done.
  unfold rel in E. by rewrite E.
Qed.

Lemma handleDelete_Ret r env d n d' env' :
  wf d → handleDelete r env d = (Ret n, d', env') → files d' !! r = None ∧ others_kept d d' r.
Proof.
  intros Hd (u & d1 & e1 & Et%wrap_Ret & [-> ->]%mret_Ret)%bind_Ret.
  apply Transaction_Ret in Et as (e2 & e3 & Et%wrap_Ret). apply statement_Ret in Et as [s Et].
  split; [|by eapply delete_others]. destruct u. injection Et as <-. apply lookup_delete_eq.
Qed.

Lemma Stat_ENOENT f p : Stat f p = Err ENOENT → f !! p = None.
Proof. unfold Stat. destruct (through_file f [] p); [done|]. by destruct (f !! p). Qed.

Lemma processFile_Ret w p env d n d' env' :
  wf d → below p → processFile w (rel p) env d = (Ret n, d', env') →
  recorded w d' p ∧ others_kept d d' (rel p) ∧ processed w d d' p.
Proof.
  intros Hd (Hne & Hp). unfold Watcher.processFile. cbv zeta.
  rewrite (Join_rel root p : _ → _ → Join root [rel p] = _) by done.
  unfold recorded, processed. destruct (Stat (w_fs w) (root ++ p)) as [[content m|m]|e|] eqn:E; [..|done].
  - rewrite (Stat_Ret_inv _ _ _ E). intros (b & d1 & e1 & En%wrap_Ret & Eb)%bind_Ret.
    pose proof (NeedsUpdate_reads (rel p) (w_mtime w (root ++ p)) (file_size content) env d) as Hr.
    rewrite En in Hr. destruct Hr as (-> & -> & _).
    case_bool_decide as Hup; cbn [negb] in Eb.
    + apply mret_Ret in Eb as [-> ->]. split_and!; [done|apply others_kept_refl|by left].
    + apply bind_Ret in Eb as (n1 & d2 & e2 & Eu & [-> ->]%mret_Ret).
      apply handleUpdate_Ret in Eu as (c & Hc & Hdesc); [|done].
      unfold ReadFile in Hc. rewrite E in Hc. injection Hc as <-.
      destruct (Hdesc eq_refl) as (Hd1 & _ & Ho). split_and!; [by apply described_up_to_date|done|].
      right. right. eauto.
  - rewrite (Stat_Ret_inv _ _ _ E). intros [-> ->]%mret_Ret. split_and!; [done|apply others_kept_refl|by left].
  - destruct e; try done. rewrite (Stat_ENOENT _ _ E). change (IsNotExist ENOENT) with true. cbv iota.
    intros (n1 & d1 & e1 & Ed & [-> ->]%mret_Ret)%bind_Ret.
    apply handleDelete_Ret in Ed as [Hf Ho]; [|done]. split_and!; [done..|]. right. by left.
Qed.

Lemma handleUpdate_program f r p n t : program false _ _ (handleUpdate f r p n t).
Proof.
  unfold Watcher.handleUpdate.
  apply prog_bind; [unfold lift; destruct (open_file _ _ _ _); constructor|]. intros st.
  apply prog_bind; [unfold lift; destruct (ChunkAll _); constructor|]. intros cs.
  apply prog_bind; [|intros; apply prog_ret]. apply prog_wrap, prog_transaction.
  apply prog_bind; [apply prog_upsert|]. intros rc. apply prog_bind; [apply prog_chunks|]. intros. apply prog_ret.
Qed.

Lemma handleUpdate_no_panic f r p n t env d d' env' : handleUpdate f r p n t env d ≠ (Panic, d', env').
Proof.
  intros E. assert (calm (handleUpdate f r p n t)) as Hc; [|by apply (Hc env d); unfold result; rewrite E].
  apply calm_bind.
  { unfold lift, open_file, ReadFile. intros env1 d1. destruct (unreadable p); [done|]. unfold Stat.
    destruct (through_file f [] p); [done|]. by destruct (f !! p) as [[? ?|?]|]. }
  intros [l [e|]]; apply calm_bind; try (intros env1 d1; unfold lift, ChunkAll; cbn [st_buf];
    rewrite ?chunk_loop_fail, ?(chunk_loop_ok _ l) by lia; done).
  all: intros cs; apply calm_bind; [|intros; apply calm_ret]; apply calm_wrap, calm_transaction.
  all: apply calm_bind; [apply UpsertFile_calm|]; intros rc; apply calm_bind; [apply SetFileChunks_calm|].
  all: intros; apply calm_ret.
Qed.

Lemma handleUpdate_wf f r p n t env d res d' env' :
  wf d → handleUpdate f r p n t env d = (res, d', env') → wf d'.
Proof. intros Hd E. by eapply (program_evolves _ _ _ _ (handleUpdate_program f r p n t)), Hd. Qed.

Lemma processFile_program w r : program false _ _ (processFile w r).
Proof.
  unfold Watcher.processFile. cbv zeta. destruct (Stat _ _) as [[c m|m]|e|]; [..|apply prog_panic].
  - apply prog_bind; [apply prog_wrap, prog_needs_update|]. intros []; [|apply prog_ret].
    apply prog_bind; [apply handleUpdate_program|intros; apply prog_ret].
  - apply prog_ret.
  - destruct (IsNotExist e); [|apply prog_fail]. apply prog_bind; [|intros; apply prog_ret].
    apply prog_bind; [|intros; apply prog_ret]. apply prog_wrap, prog_transaction, prog_delete.
Qed.

Lemma processFile_wf w r env d res d' env' : wf d → processFile w r env d = (res, d', env') → wf d'.
Proof. intros Hd E. by eapply (program_evolves _ _ _ _ (processFile_program w r)), Hd. Qed.

Lemma processFile_fail w r env d res d' env' :
  processFile w r env d = (res, d', env') → is_ret res = false → d' = d.
Proof.
  unfold Watcher.processFile. cbv zeta. destruct (Stat _ _) as [[c m|m]|e|].
  - unfold mbind at 1, act_bind at 1.
    pose proof (reads_wrap CheckingNeedsUpdate _ _
      (NeedsUpdate_reads r (w_mtime w (Join root [r])) (file_size c)) env d) as Hr.
    destruct (wrap _ _ env d) as [[[b|e|] d1] e1]; [|by intros [= <- <- _]; destruct Hr..].
    destruct Hr as (_ & -> & _). destruct b; [|by intros [= <- _ _]].
    unfold mbind, act_bind. destruct (Watcher.handleUpdate _ _ _ _ _ _ _ e1 d) as [[[nt|e|] d2] e2] eqn:E.
    + by intros [= <- _ _].
    + intros [= _ <- _] _. by apply handleUpdate_fail in E.
    + intros [= _ <- _] _. by apply handleUpdate_fail in E.
  - by intros [= <- _ _].
  - destruct (IsNotExist e); [|by intros [= _ <- _]].
    unfold handleDelete, mbind, act_bind, wrap.
    destruct (Transaction _ env d) as [[[u|er|] d1] e1] eqn:E; [by intros [= <- _ _]|..];
      intros [= _ <- _] _; by apply Transaction_cases in E as [(? & ? & ? & [=] & _)|[_ ->]].
  - by intros [= _ <- _].
Qed.
End spec.

(** An update is atomic: whatever fails while [handleUpdate] runs, the tables
    either are as before, and the call reports the error, or the row of the file
    describes its content, with the root over its chunk hashes, the chunk count
    and exactly one chunk row per chunk in order, while rows and chunks of the
    other files and all snapshots are untouched. *)
Theorem update_is_atomic `{HashFn} unreadable fin f relPath p content modTime env d r d' env' :
  wf d → ReadFile f p = Ret content →
  handleUpdate unreadable fin f relPath p (file_size content) modTime env d = (r, d', env') →
  match r with
  | Ret _ => described d' relPath content modTime ∧ others_kept d d' relPath ∧ wf d' ∧ keeps_snapshots d d'
  | Err _ => d' = d
  | Panic => False
  end.
Proof.
  intros Hd Hc E. destruct r as [n|e|].
  - destruct (program_evolves _ _ _ _ (handleUpdate_program unreadable fin f relPath p _ modTime) _ _ _ _ _ E Hd).
    apply handleUpdate_Ret in E as (c & Hc' & Hds); [|done]. assert (c = content) as -> by congruence.
    destruct (Hds eq_refl) as (? & _ & ?). done.
  - by eapply handleUpdate_fail.
  - by eapply handleUpdate_no_panic.
Qed.

(** The hash of a file node over the chunks of a content. *)
Lemma file_node_hash `{HashFn} n content :
  node_wf n → n_Type n = NodeTypeFile → n_Chunks n = sha256 <$> chunks_of ChunkSize content →
  n_Hash n = sha256 (concat (sha256 <$> chunks_of ChunkSize content)).
Proof. intros Hw Ht Hc. rewrite (wf_preimage n Hw). unfold preimage. by rewrite Ht, Hc. Qed.

Lemma content_root_hash `{HashFn} content :
  content_root content = if decide (content = []) then replicate 32 x00
                         else sha256 (concat (sha256 <$> chunks_of ChunkSize content)).
Proof.
  unfold content_root, content_chunks. case_decide as Hc; [by subst|].
  rewrite <- list_fmap_compose. unfold computeMerkleRoot.
  rewrite (chunks_of_cons _ _ ChunkSize_pos Hc). unfold hasher_Sum. by rewrite hasher_writes.
Qed.

(** C33: The root hash in the database against the Merkle tree. After a
    successful update of a visible file of a readable directory, the row of the
    file holds exactly the hash of the node at the file's path in the tree that
    BuildFromFS makes of the directory, when the file is not empty. For an
    empty file the two differ: the row holds 32 zero bytes, the node the
    SHA-256 of the empty string. *)
Theorem root_matches_tree `{HashFn} unreadable fin f root rm x content m modTime env d n d' env' :
  fs_wf f → f !! root = Some (FDir rm) →
  (∀ q, visible q = true → is_Some (f !! (root ++ q)) → unreadable (root ++ q) = false) →
  visible x = true → f !! (root ++ x) = Some (FFile content m) → wf d →
  handleUpdate unreadable fin f (rel x) (root ++ x) (file_size content) modTime env d = (Ret n, d', env') →
  ∃ tree node row,
    BuildFromFS unreadable f root = Ret (mkTree (Some tree)) ∧ node_at tree x = Some node ∧
    files d' !! rel x = Some row ∧
    (content ≠ [] → fr_merkle_root row = n_Hash node) ∧
    (content = [] → fr_merkle_root row = replicate 32 x00 ∧ n_Hash node = sha256 []).
Proof.
  intros Hf Hr Hu Hv Hx Hd E. destruct (BuildFromFS_tree unreadable f root rm Hf Hr Hu) as (tree & Et & Hw & Htree).
  specialize (Htree x). destruct (node_at tree x) as [node|] eqn:En; [|by rewrite Htree in Hx].
  destruct Htree as (_ & e & He & _ & Hn). rewrite Hx in He. injection He as <-. destruct Hn as (Hty & Hch & _).
  apply handleUpdate_Ret in E as (c & Hc & Hds); [|done]. unfold ReadFile in Hc.
  rewrite (Stat_dirs f _ (FFile content m)) in Hc by (done || by apply (Hf _ _ Hx)). injection Hc as <-.
  destruct (Hds eq_refl) as ((row & Hrow & [= Hroot _ _ _] & _) & _).
  rewrite content_root_hash in Hroot. pose proof (file_node_hash node content (node_at_wf _ _ _ Hw En) Hty Hch) as Hh.
  exists tree, node, row. split_and!; [done..| |].
  - intros Hne. by rewrite Hroot, Hh, decide_False.
  - intros ->. by rewrite Hroot, Hh.
Qed.

(** Changes of whole directories are missed. A directory that appears is
    watched, but its entries are not queued: when nothing else is pending the
    next flush leaves the store as it is. A directory that disappears has only
    its own path processed, so the rows of the files below it stay. *)
Theorem directory_changes_missed `{HashFn} unreadable fin addable root w st q x m env d :
  below q → x ≠ [] → Forall plain_name x → wf d →
  (Stat (w_fs w) (root ++ q) = Ret (FDir m) → pending st = ∅ → ∀ order,
     let st' := handleEvent addable root w st (mkEvent (root ++ q) true) in
     flushPending unreadable fin root order w st' env d = (Ret ([], st'), d, env)) ∧
  (w_fs w !! (root ++ q) = None →
     files (after (processFile unreadable fin root w (rel q)) env d) !! rel (q ++ x) = files d !! rel (q ++ x)).
Proof.
  intros Hq Hx Hpx Hd. split.
  - intros Hs Hp order st'. assert (pending st' = ∅) as Hp'.
    { unfold st', handleEvent. destruct (hidden _) eqn:Eh; [done|]. cbn [ev_create ev_name]. rewrite Hs.
      by destruct (addable _). }
    unfold flushPending. by rewrite decide_True.
  - intros Hn. unfold after. destruct (processFile unreadable fin root w (rel q) env d) as [[r d'] env'] eqn:E. cbn.
    destruct (is_ret r) eqn:Er; [|by rewrite (processFile_fail _ _ _ _ _ _ _ _ _ _ E Er)].
    destruct r as [n| |]; try done.
    apply processFile_Ret in E as (_ & Ho & _); [|done..]. apply Ho. intros Eq%rel_inj; [|split|done].
    + apply (f_equal length) in Eq. rewrite length_app in Eq. destruct x; [done|]. simpl in Eq. lia.
    + destruct Hq as [Hq _]. by destruct q.
    + apply Forall_app. split; [apply Hq|done].
Qed.
