(* ===== verification/WatcherScan.v ===== *)
(** * The initial scan of the watcher

    [ScanAll] visits every visible entry below the root. Without failing
    statements and unreadable directories it ends without an error, and every
    visible file is described by the store, or was up to date already, or its own
    update was reported as failed. *)
From Stdlib Require Import Strings.Byte Strings.String.
From S2P Require Import Prelude Sha256 Fs Chunk Merkle MerkleSpec DiffSpec Build Db DbSpec Watcher WatcherSpec.

Open Scope Z_scope.

Section scan.
Context `{HashFn}.
Context (unreadable : path → bool) (fin : path → option read_error).
Context (root : path) (rootName : bytes).
Context (w : world).

Let f := w_fs w.

Hypothesis Hwf : fs_wf f.
Hypothesis Hread : ∀ p m, f !! p = Some (FDir m) → unreadable p = false.

Local Abbreviation visit := (scan_visit unreadable fin root w).
Local Abbreviation walk := (walkDir unreadable WalkFailed visit).

Definition sc_db (s : scan_state) : db := s.1.1.

(** The update of this file was reported as failed, for a good reason. *)
Definition reported (s : scan_state) (x : path) : Prop :=
  ∃ e, OnError (Scanning (rel x) e) ∈ s.2 ∧ update_error unreadable fin (root ++ x) (rel x) e.

(** The store describes the file as it is. *)
Definition file_described (s : scan_state) (x : path) : Prop :=
  ∃ c m, f !! (root ++ x) = Some (FFile c m) ∧ described (sc_db s) (rel x) c (w_mtime w (root ++ x)).

Definition visible_file (x : path) : Prop :=
  below x ∧ visible x = true ∧ ∃ c m, f !! (root ++ x) = Some (FFile c m).

(** How a scan may change its state. *)
Record scans (s s' : scan_state) : Prop := {
  sc_wf : wf (sc_db s');
  sc_env : no_faults s'.1.2;
  sc_log : ∃ ns, s'.2 = s.2 ++ ns;
  sc_keeps x : below x → recorded root w (sc_db s) x → recorded root w (sc_db s') x;
  sc_row x : below x → files (sc_db s') !! rel x = files (sc_db s) !! rel x ∨ file_described s' x;
  sc_described x : below x → file_described s x → file_described s' x;
  sc_frame r : (∀ x, visible_file x → r ≠ rel x) → files (sc_db s') !! r = files (sc_db s) !! r;
}.

Lemma scans_refl s : wf (sc_db s) → no_faults s.1.2 → scans s s.
Proof. intros H1 H2. constructor; try done; [exists []; by rewrite app_nil_r|by left]. Qed.

(** A visit that leaves the tables alone. *)
Lemma scans_same d env env' ns ns' :
  wf d → no_faults env' → scans (d, env, ns) (d, env', ns ++ ns').
Proof. intros H1 H2. constructor; try done; [by exists ns'|by left]. Qed.

Lemma scans_trans s1 s2 s3 : scans s1 s2 → scans s2 s3 → scans s1 s3.
Proof.
  intros [W1 E1 [n1 L1] K1 R1 D1 F1] [W2 E2 [n2 L2] K2 R2 D2 F2]. constructor; try done.
  - exists (n1 ++ n2). by rewrite L2, L1, app_assoc.
  - auto.
  - intros x Hx. destruct (R2 x Hx) as [->|?]; [|by right]. destruct (R1 x Hx) as [->|?]; auto.
  - auto.
  - intros r Hr. by rewrite F2, F1.
Qed.

Lemma reported_later s s' x : scans s s' → reported s x → reported s' x.
Proof.
  intros Hs (e & He & Hx). destruct (sc_log _ _ Hs) as [ns E]. exists e. split; [|done]. rewrite E. set_solver.
Qed.

Lemma others_described d d' x y c :
  below x → below y → x ≠ y → others_kept d d' (rel y) →
  described d (rel x) c (w_mtime w (root ++ x)) → described d' (rel x) c (w_mtime w (root ++ x)).
Proof.
  intros Hx Hy Hne Ho (row & Hrow & Hm & Hc). destruct (Ho (rel x)) as [Er Ec]; [by intros ?%rel_inj|].
  exists row. rewrite Er. split_and!; [done..|]. intros j. by rewrite Ec.
Qed.

(** A successful update of the file at [x]. *)
Lemma scans_update d env env' ns nt x c m d' :
  visible_file x → f !! (root ++ x) = Some (FFile c m) → wf d' → no_faults env' →
  described d' (rel x) c (w_mtime w (root ++ x)) → others_kept d d' (rel x) →
  scans (d, env, ns) (d', env', ns ++ [nt]) ∧ recorded root w d' x.
Proof.
  intros Hvf Hx Hd' He' Hds Ho. pose proof Hvf as (Hb & _).
  assert (recorded root w d' x) as Hrec
    by (unfold recorded; unfold f in Hx; rewrite Hx; by apply described_up_to_date).
  split; [|done]. constructor; cbn; try done; [by eexists|..].
  - intros y Hy Hry. destruct (decide (y = x)) as [->|Hne]; [done|].
    unfold recorded, up_to_date in *. destruct (Ho (rel y)) as [-> _]; [intros ?%rel_inj; done|done].
  - intros y Hy. destruct (decide (y = x)) as [->|Hne]; [right; by exists c, m|left].
    apply Ho. by intros ?%rel_inj.
  - intros y Hy (cy & my & Hfy & Hdy). destruct (decide (y = x)) as [->|Hne]; [by exists c, m|].
    exists cy, my. split; [done|]. by eapply (others_described d d' y x).
  - intros r Hr. destruct (Ho r) as [-> _]; [|done]. by apply Hr.
Qed.

(** A visit of a visible file records it or reports an error. *)
Lemma visit_file x c m s :
  visible_file x → f !! (root ++ x) = Some (FFile c m) → hidden (info_name x) = false →
  wf (sc_db s) → no_faults s.1.2 →
  ∃ s', visit (root ++ x) (info_name x) (FFile c m) s = (Ret false, s') ∧ scans s s' ∧
        (reported s' x ∨ recorded root w (sc_db s') x).
Proof.
  intros Hvf Hx Hh Hd He. destruct s as [[d env] ns]. unfold scan_visit. cbn in Hd, He. rewrite Hh.
  pose proof Hvf as (Hb & _). rewrite Rel_below by done.
  pose proof (reads_wrap CheckingNeedsUpdate _ _
    (NeedsUpdate_reads (rel x) (w_mtime w (root ++ x)) (file_size c)) env d) as Hr.
  destruct (wrap _ _ env d) as [[[b|e|] d1] env1]; [|by destruct Hr..].
  destruct Hr as (-> & -> & Hf1). specialize (Hf1 He). case_bool_decide as Hup; cbn [negb].
  { eexists. split; [done|]. split; [rewrite <- (app_nil_r ns) at 2; by apply scans_same|].
    right. unfold recorded. fold f. rewrite Hx. done. }
  assert (ReadFile (w_fs w) (root ++ x) = Ret c) as Hc
    by (unfold ReadFile; rewrite (Stat_dirs _ _ (FFile c m)); [done|by apply (Hwf _ _ Hx)|done]).
  destruct (handleUpdate unreadable fin (w_fs w) (rel x) (root ++ x) (file_size c) _ env1 d)
    as [[[nt|e|] d2] env2] eqn:Eu.
  all: assert (no_faults env2) as Hf2
    by (eapply (program_frugal _ _ _ _ (handleUpdate_program _ _ _ _ _ _ _)); [exact Eu|done]).
  - pose proof (handleUpdate_wf _ _ _ _ _ _ _ _ _ _ _ _ Hd Eu) as Hd2.
    apply handleUpdate_Ret in Eu as (c' & Hc' & Hdesc); [|done]. rewrite Hc in Hc'. injection Hc' as <-.
    destruct (Hdesc eq_refl) as (Hds & _ & Ho).
    destruct (scans_update d env env2 ns nt x c m d2 Hvf Hx Hd2 Hf2 Hds Ho) as [Hsc Hrec].
    eexists. split; [done|]. auto.
  - pose proof (handleUpdate_Err _ _ _ _ _ _ _ _ _ _ _ _ _ Hf1 Hc Eu) as Hw.
    apply handleUpdate_fail in Eu as ->; [|done]. eexists. split; [done|]. split; [by apply scans_same|].
    left. exists e. split; [cbn; set_solver|done].
  - exfalso. by apply (handleUpdate_no_panic _ _ _ _ _ _ _ _ _ _ _ Eu).
Qed.

Definition name_of (x : path) : bytes := match x with [] => rootName | _ => info_name x end.

Lemma name_of_snoc x c : name_of (x ++ [c]) = c.
Proof. unfold name_of, info_name. rewrite last_snoc. by destruct x. Qed.

Lemma visible_snoc x c : visible (x ++ [c]) = visible x && negb (hidden c).
Proof. unfold visible. rewrite forallb_app. simpl. by rewrite andb_true_r. Qed.

Lemma visible_app x y : visible (x ++ y) = visible x && visible y.
Proof. apply forallb_app. Qed.

Lemma entry_below x n : f !! (root ++ x) = Some n → x ≠ [] → below x.
Proof. intros Hx Hne. apply Hwf in Hx as [Hp _]. apply Forall_app in Hp as [_ Hp]. done. Qed.

(** What scanning the subtree at [x] achieves. *)
Definition subtree_scanned (x : path) (s s' : scan_state) : Prop :=
  scans s s' ∧
  (∀ y, visible (x ++ y) = true → (∃ c m, f !! (root ++ x ++ y) = Some (FFile c m)) →
     reported s' (x ++ y) ∨ recorded root w (sc_db s') (x ++ y)).

Definition ready (s : scan_state) : Prop := wf (sc_db s) ∧ no_faults s.1.2.

Lemma entries_scanned (wk : path → bytes → fnode → scan_state → outcome watch_error bool * scan_state) x names s :
  (∀ c, c ∈ names → ∃ n, f !! (root ++ x ++ [c]) = Some n ∧
     ∀ s, ready s → ∃ s', wk (root ++ x ++ [c]) c n s = (Ret false, s') ∧ subtree_scanned (x ++ [c]) s s') →
  ready s →
  ∃ s', walk_entries wk f (root ++ x) names s = (Ret false, s') ∧ scans s s' ∧
    (∀ c y, c ∈ names → visible (x ++ [c] ++ y) = true →
       (∃ k m, f !! (root ++ x ++ [c] ++ y) = Some (FFile k m)) →
       reported s' (x ++ [c] ++ y) ∨ recorded root w (sc_db s') (x ++ [c] ++ y)).
Proof.
  revert s. induction names as [|c names IH]; intros s Hn Hs.
  { exists s. split; [done|]. split; [by apply scans_refl; apply Hs|]. by intros c y ?%not_elem_of_nil. }
  destruct (Hn c) as (n & Hc & Hw); [left|]. cbn [walk_entries]. rewrite <- app_assoc, Hc.
  destruct (Hw s Hs) as (s1 & -> & Hs1 & Hr1).
  destruct (IH s1) as (s2 & -> & Hs2 & Hr2); [intros c' Hc'; apply Hn; by right|by split; apply Hs1|].
  exists s2. split; [done|]. split; [by eapply scans_trans|]. intros c' y Hc' Hv Hf.
  apply elem_of_cons in Hc' as [->|Hc']; [|by apply Hr2].
  destruct (Hr1 y) as [Hrep|Hrec]; [by rewrite <- app_assoc..|left; apply (reported_later s1); [done|]|right].
  { by rewrite app_assoc. }
  apply (sc_keeps _ _ Hs2); [|by rewrite app_assoc].
  destruct Hf as (k & m & Hf). eapply entry_below; [exact Hf|by destruct x].
Qed.

Lemma walk_scanned fuel x n s :
  (max_depth f < fuel + length (root ++ x))%nat → f !! (root ++ x) = Some n →
  visible (removelast x) = true → hidden rootName = false → (x = [] → is_dir n = true) → ready s →
  ∃ s', walk fuel f (root ++ x) (name_of x) n s = (Ret false, s') ∧ subtree_scanned x s s'.
Proof.
  intros Hfu Hx Hvr Hroot Hd Hs. revert x n s Hfu Hx Hvr Hd Hs.
  induction fuel as [|fuel IH]; intros x n s Hfu Hx Hvr Hd Hs.
  { apply max_depth_spec in Hx. lia. }
  cbn [walkDir]. destruct (hidden (name_of x)) eqn:Hh.
  { assert (x ≠ []) as Hne by (intros ->; simpl in Hh; congruence).
    exists s. split; [|split; [apply scans_refl; apply Hs|]].
    - unfold scan_visit. destruct s as [[d env] ns]. rewrite Hh. by destruct n.
    - intros y Hv. exfalso. destruct (exists_last Hne) as (x' & c & ->). rewrite name_of_snoc in Hh.
      rewrite visible_app, visible_snoc, Hh, andb_false_r in Hv. done. }
  assert (visible x = true) as Hv.
  { destruct (decide (x = [])) as [->|Hne]; [done|]. destruct (exists_last Hne) as (x' & c & ->).
    rewrite removelast_last in Hvr. rewrite name_of_snoc in Hh. by rewrite visible_snoc, Hvr, Hh. }
  destruct n as [c m|m].
  - assert (x ≠ []) as Hne by (intros ->; by discriminate Hd).
    assert (name_of x = info_name x) as En by by destruct x. rewrite En in *.
    destruct (visit_file x c m s) as (s' & -> & Hsc & Hrec); [|done..|apply Hs|apply Hs|].
    { split_and!; [by eapply entry_below|done|eauto]. }
    exists s'. split; [done|]. split; [done|]. intros y _ (k & mk & Hy).
    destruct y as [|b y]; [rewrite app_nil_r; auto|]. exfalso. rewrite app_assoc in Hy.
    apply fs_wf_above in Hy as [m' Hm']; [|done]. congruence.
  - assert (visit (root ++ x) (name_of x) (FDir m) s = (Ret false, s)) as ->
      by (unfold scan_visit; destruct s as [[d env] ns]; by rewrite Hh).
    cbn [negb is_dir]. rewrite (Hread _ _ Hx).
    destruct (entries_scanned (walk fuel f) x (ReadDir f (root ++ x)) s) as (s' & -> & Hsc & Hrec); [|done|].
    + intros c [n Hc]%ReadDir_elem. rewrite <- app_assoc in Hc. exists n. split; [done|]. intros s1 Hs1.
      destruct (IH (x ++ [c]) n s1) as (s2 & E2 & H2); [|done| |by destruct x|done|].
      * rewrite !length_app in *. simpl. lia.
      * by rewrite removelast_last.
      * exists s2. by rewrite name_of_snoc in E2.
    + exists s'. split; [done|]. split; [done|]. intros y Hvy (k & mk & Hy).
      destruct y as [|c y]; [rewrite app_nil_r in *; congruence|]. apply Hrec; [|done|by eauto].
      apply ReadDir_elem. destruct y as [|b y]; [rewrite <- app_assoc; eauto|].
      rewrite <- app_assoc. destruct (fs_wf_above f (root ++ x ++ [c]) b y (FFile k mk) Hwf) as [m' Hm']; [|eauto].
      by rewrite <- !app_assoc.
Qed.

Lemma scan_ok d env ns m :
  f !! root = Some (FDir m) → hidden rootName = false → wf d → no_faults env →
  ∃ s', ScanAll unreadable fin root rootName w (d, env, ns) = (Ret (), s') ∧ subtree_scanned [] (d, env, ns) s'.
Proof.
  intros Hr Hh Hd He. pose proof (Hwf _ _ Hr) as [_ Hu].
  destruct (walk_scanned (S (max_depth f)) [] (FDir m) (d, env, ns)) as (s' & E & Hs);
    [rewrite app_nil_r; lia|by rewrite app_nil_r|done..|].
  exists s'. split; [|done]. unfold ScanAll, WalkDir. fold f. rewrite (Stat_dirs _ _ _ Hu Hr).
  rewrite app_nil_r in E. unfold name_of in E. by rewrite E.
Qed.
End scan.

(** C29: [ScanAll], for a root whose own name does not start with a dot, on a
    tree whose directories can be read and with a store whose statements do not
    fail, returns without an error. For every visible file on its own, whatever
    happens to the others: either its row then describes it (the root over its
    chunk hashes, size, modification second, chunk count and one row per chunk
    in order); or its row is as before, and then either that row already had the
    file's size and modification second, or the callback was told that this file
    failed, which happens only when it cannot be opened or read to its end or
    when the table is out of ids. Rows of paths that are not visible files, such
    as files removed since the last run, are left as they were. *)
Theorem scan_records_visible_files `{HashFn} unreadable fin root rootName w m d env :
  fs_wf (w_fs w) → (∀ p k, w_fs w !! p = Some (FDir k) → unreadable p = false) →
  w_fs w !! root = Some (FDir m) → hidden rootName = false → wf d → no_faults env →
  ∃ d' env' ns, ScanAll unreadable fin root rootName w (d, env, []) = (Ret (), (d', env', ns)) ∧ wf d' ∧
    (∀ x content k, below x → visible x = true → w_fs w !! (root ++ x) = Some (FFile content k) →
       let modTime := w_mtime w (root ++ x) in
       described d' (rel x) content modTime ∨
       (files d' !! rel x = files d !! rel x ∧
        (up_to_date d (rel x) modTime (file_size content) ∨
         ∃ e, OnError (Scanning (rel x) e) ∈ ns ∧ update_error unreadable fin (root ++ x) (rel x) e))) ∧
    (∀ r, (∀ x, visible_file root w x → r ≠ rel x) → files d' !! r = files d !! r).
Proof.
  intros Hwf Hrd Hroot Hh Hd He.
  destruct (scan_ok unreadable fin root rootName w Hwf Hrd d env [] m Hroot Hh Hd He) as ([[d' env'] ns] & E & Hs & Hr).
  exists d', env', ns. split_and!; [done|apply Hs| |apply Hs].
  intros x content k Hb Hv Hx modTime. destruct (sc_row _ _ _ _ Hs x Hb) as [Hrow|(c & mc & Hc & Hds)].
  - right. split; [exact Hrow|]. destruct (Hr x Hv (ex_intro _ content (ex_intro _ k Hx))) as [Hrep|Hrec]; [by right|].
    left. unfold recorded in Hrec. simpl in Hrec. rewrite Hx in Hrec. unfold up_to_date in *. cbn in Hrow, Hrec.
    by rewrite Hrow in Hrec.
  - left. rewrite Hx in Hc. by injection Hc as <- <-.
Qed.

(** A root whose own name starts with a dot, [.] among them, is watched by
    [Start] but skipped as hidden by [ScanAll], which then records nothing and
    reports success. *)
Theorem dotted_root_not_scanned `{HashFn} unreadable fin addable root rootName w m s :
  Stat (w_fs w) root = Ret (FDir m) → hidden rootName = true → addable root = true →
  ScanAll unreadable fin root rootName w s = (Ret (), s) ∧
  start_visit addable root root rootName (FDir m) ∅ = (Ret false, {[root]} ∪ ∅).
Proof.
  intros Hs Hh Ha. split.
  - unfold ScanAll, WalkDir. rewrite Hs. cbn [walkDir]. unfold scan_visit. destruct s as [[d env] ns]. by rewrite Hh.
  - unfold start_visit. cbn [is_dir]. by rewrite Hh, bool_decide_eq_true_2, Ha.
Qed.

(** ** A small tree *)
Module WatcherExample.
#[local] Existing Instance sha256_fips.

Definition str := bytes_of_string.
Definition wroot : path := [str "w"].
Definition tree : fs := {[
  [] := FDir 493; wroot := FDir 493;
  wroot ++ [str "a"] := FFile (str "hello") 420;
  wroot ++ [str ".h"] := FFile (str "no") 420;
  wroot ++ [str "s"] := FDir 493;
  wroot ++ [str "s"; str "b"] := FFile (str "x") 420
]}.
Definition mt : Z := 1700000000 * nanos + 5.
Definition wd : world := mkWorld tree (λ _, mt).
Definition readable : path → bool := λ _, false.
Definition no_err : path → option read_error := λ _, None.

Lemma tree_wf : fs_wf tree.
Proof. apply fs_wfb_sound. vm_compute. reflexivity. Qed.

Lemma plain_below x : forallb (λ c, bool_decide (plain_name c)) x && negb (bool_decide (x = [])) = true → below x.
Proof.
  intros [H1 H2]%andb_true_iff. split; [|].
  - intros ->. by rewrite bool_decide_eq_true_2 in H2.
  - apply Forall_forall. intros c Hc. apply list_elem_of_In in Hc. rewrite List.forallb_forall in H1.
    by apply H1, bool_decide_eq_true in Hc.
Qed.

Lemma update_is_atomic_witness :
  described (after (handleUpdate readable no_err tree (str "a") (wroot ++ [str "a"]) 5 mt) [] schema)
    (str "a") (str "hello") mt.
Proof.
  unfold after. destruct (handleUpdate readable no_err tree (str "a") (wroot ++ [str "a"]) 5 mt [] schema)
    as [[r d'] env'] eqn:E.
  pose proof (update_is_atomic readable no_err tree (str "a") (wroot ++ [str "a"]) (str "hello") mt
    [] schema r d' env' wf_schema (eq_refl _) E) as Hr.
  destruct r as [n|e|]; [apply Hr|exfalso; vm_compute in E; discriminate E|destruct Hr].
Defined.

(** The row of [a] after its update and the node of [a] in the tree. *)
Lemma root_matches_tree_witness :
  ∃ t node row, BuildFromFS readable tree wroot = Ret (mkTree (Some t)) ∧ node_at t [str "a"] = Some node ∧
    files (after (handleUpdate readable no_err tree (str "a") (wroot ++ [str "a"]) 5 mt) [] schema) !! str "a" = Some row ∧
    fr_merkle_root row = n_Hash node.
Proof.
  unfold after. destruct (handleUpdate readable no_err tree (str "a") (wroot ++ [str "a"]) 5 mt [] schema)
    as [[r d'] env'] eqn:E.
  destruct r as [n|e|]; [|exfalso; vm_compute in E; discriminate E..].
  destruct (root_matches_tree readable no_err tree wroot 493 [str "a"] (str "hello") 420 mt [] schema n d' env')
    as (t & node & row & H1 & H2 & H3 & H4 & _);
    [apply tree_wf|reflexivity|done|reflexivity|reflexivity|apply wf_schema|exact E|].
  exists t, node, row. split_and!; [exact H1|exact H2|exact H3|by apply H4].
Defined.

(** The same for the empty file. *)
Definition tree_empty : fs := <[wroot ++ [str "a"] := FFile [] 420]> tree.

Example empty_file_roots :
  let '(_, d', _) := handleUpdate readable no_err tree_empty (str "a") (wroot ++ [str "a"]) 0 mt [] schema in
  fr_merkle_root <$> files d' !! str "a" = Some (replicate 32 x00).
Proof. vm_compute. reflexivity. Qed.

Lemma directory_changes_missed_witness :
  let st' := handleEvent (λ _, true) wroot wd (mkWatcher {[wroot]} ∅) (mkEvent (wroot ++ [str "s"]) true) in
  flushPending readable no_err wroot id wd st' [] schema = (Ret ([], st'), schema, []).
Proof.
  apply (directory_changes_missed readable no_err (λ _, true) wroot wd (mkWatcher {[wroot]} ∅) [str "s"] [str "b"] 493).
  - apply plain_below. reflexivity.
  - discriminate.
  - apply (plain_below [str "b"]). reflexivity.
  - apply wf_schema.
  - reflexivity.
  - reflexivity.
Defined.

(** [s/b] cannot be opened; [a] is recorded all the same. *)
Definition b_unreadable : path → bool := λ p, bool_decide (p = wroot ++ [str "s"; str "b"]).

Lemma scan_records_visible_files_witness :
  ∃ d' env' ns, ScanAll b_unreadable no_err wroot (str "w") wd (schema, [], []) = (Ret (), (d', env', ns)) ∧ wf d' ∧
    (described d' (str "a") (str "hello") mt ∨ ∃ e, OnError (Scanning (str "a") e) ∈ ns ∧
       update_error b_unreadable no_err (wroot ++ [str "a"]) (str "a") e).
Proof.
  destruct (scan_records_visible_files b_unreadable no_err wroot (str "w") wd 493 schema []) as (d' & env' & ns & E & Hd & Hx & _);
    [apply tree_wf| |reflexivity|reflexivity|apply wf_schema|constructor|].
  { intros p k Hp. unfold b_unreadable. apply bool_decide_eq_false. intros ->. vm_compute in Hp. discriminate Hp. }
  exists d', env', ns. split; [exact E|]. split; [exact Hd|].
  destruct (Hx [str "a"] (str "hello") 420) as [Hds|[_ [(row & Hrow & _)|He]]];
    [apply plain_below; reflexivity|reflexivity|reflexivity|left; exact Hds|discriminate Hrow|right; exact He].
Defined.

Example scan_past_unreadable :
  let '(_, (d', _, ns)) := ScanAll b_unreadable no_err wroot (str "w") wd (schema, [], []) in
  (fr_merkle_root <$> files d' !! str "a", files d' !! str "s/b", length ns)
  = (Some (content_root (str "hello")), None, 2%nat).
Proof. vm_compute. reflexivity. Qed.

Lemma scanned_rows :
  let s := (ScanAll readable no_err wroot (str "w") wd (schema, [], [])).2 in
  (by_path (files s.1.1)).*1 = [str "a"; str "s/b"] ∧ length s.2 = 2%nat.
Proof. vm_compute. done. Qed.

Lemma dotted_root_not_scanned_witness :
  ScanAll readable no_err wroot (str ".") wd (schema, [], []) = (Ret (), (schema, [], [])).
Proof. by apply (dotted_root_not_scanned readable no_err (λ _, true) wroot (str ".") wd 493). Defined.
End WatcherExample.
