(* ===== verification/WatcherStart.v ===== *)
(** * The directories that [Start] watches *)
From Stdlib Require Import Strings.Byte Strings.String.
From S2P Require Import Prelude Sha256 Fs Chunk Build Db DbSpec Watcher WatcherSpec WatcherScan.

Section start.
Context (unreadable addable : path → bool) (root : path) (rootName : bytes) (f : fs).
Hypothesis Hwf : fs_wf f.

Local Abbreviation visit := (start_visit addable root).
Local Abbreviation walk := (walkDir unreadable WalkFailed visit).

(** A directory at or below [x] with no hidden name on the way from the root. *)
Definition visible_dir (x : path) (p : path) : Prop :=
  ∃ y k, p = root ++ x ++ y ∧ visible (x ++ y) = true ∧ f !! p = Some (FDir k).

Definition good (p : path) : bool := addable p && negb (unreadable p).

(** What the walk of the subtree at [x] does to the watch set. *)
Definition watches (x : path) (ws : gset path) (r : outcome watch_error bool * gset path) : Prop :=
  match r with
  | (Ret false, ws') =>
      (∀ p, p ∈ ws' ↔ p ∈ ws ∨ visible_dir x p) ∧ (∀ p, visible_dir x p → good p = true)
  | (Err _, _) => ∃ p, visible_dir x p ∧ good p = false
  | _ => False
  end.

Lemma entries_watched wk x names ws :
  (∀ c, c ∈ names → ∃ n, f !! (root ++ x ++ [c]) = Some n ∧
     ∀ ws, watches (x ++ [c]) ws (wk (root ++ x ++ [c]) c n ws)) →
  match walk_entries wk f (root ++ x) names ws with
  | (Ret false, ws') =>
      (∀ p, p ∈ ws' ↔ p ∈ ws ∨ ∃ c, c ∈ names ∧ visible_dir (x ++ [c]) p) ∧
      (∀ c p, c ∈ names → visible_dir (x ++ [c]) p → good p = true)
  | (Err _, _) => ∃ c p, c ∈ names ∧ visible_dir (x ++ [c]) p ∧ good p = false
  | _ => False
  end.
Proof.
  revert ws. induction names as [|c names IH]; intros ws Hn; cbn [walk_entries]; [set_solver|].
  destruct (Hn c) as (n & Hc & Hw); [left|]. rewrite <- app_assoc, Hc.
  specialize (Hw ws). unfold watches in Hw.
  destruct (wk (root ++ x ++ [c]) c n ws) as [[[]|e|] ws1]; try done; [|set_solver].
  destruct Hw as [H1 G1]. specialize (IH ws1 (λ c' Hc', Hn c' (list_elem_of_further _ _ _ Hc'))).
  destruct (walk_entries _ _ _ _ _) as [[[]|e|] ws2]; try done; [|set_solver].
  destruct IH as [H2 G2]. split; [|set_solver]. intros p. rewrite H2, H1. set_solver.
Qed.

Lemma visible_dir_children x p k :
  f !! (root ++ x) = Some (FDir k) → visible x = true →
  visible_dir x p ↔ p = root ++ x ∨ ∃ c, c ∈ ReadDir f (root ++ x) ∧ visible_dir (x ++ [c]) p.
Proof.
  intros Hx Hv. split.
  - intros (y & k' & -> & Hvy & Hy). destruct y as [|c y]; [left; by rewrite app_nil_r|right].
    exists c. split; [|exists y, k'; by rewrite <- !app_assoc].
    apply ReadDir_elem. rewrite <- app_assoc. destruct y as [|b y]; [eauto|].
    destruct (fs_wf_above f (root ++ x ++ [c]) b y (FDir k') Hwf) as [m' Hm']; [|eauto].
    by rewrite <- !app_assoc.
  - intros [->|(c & _ & y & k' & -> & Hvy & Hy)].
    + exists [], k. by rewrite !app_nil_r.
    + exists (c :: y), k'. by rewrite <- !app_assoc in *.
Qed.

Lemma visible_dir_dir x p n :
  f !! (root ++ x) = Some n → visible_dir x p → is_dir n = true ∧ visible x = true.
Proof.
  intros Hx (y & k & -> & Hv & Hy). rewrite visible_app in Hv. apply andb_true_iff in Hv as [Hv _]. split; [|done].
  destruct y as [|b y]; [rewrite app_nil_r in Hy; by simplify_eq|].
  rewrite app_assoc in Hy. apply fs_wf_above in Hy as [m' Hm']; [|done]. by simplify_eq.
Qed.

Lemma walk_watched fuel x n ws :
  (max_depth f < fuel + length (root ++ x))%nat → f !! (root ++ x) = Some n →
  visible (removelast x) = true → (x = [] → is_dir n = true) →
  watches x ws (walk fuel f (root ++ x) (name_of rootName x) n ws).
Proof.
  revert x n ws. induction fuel as [|fuel IH]; intros x n ws Hfu Hx Hvr Hd.
  { apply max_depth_spec in Hx. lia. }
  cbn [walkDir]. unfold start_visit.
  assert (¬ (is_dir n = true ∧ visible x = true) → watches x ws (Ret false, ws)) as Hno.
  { intros Hn. split; [|intros p Hp; by destruct Hn; eapply visible_dir_dir].
    intros p. split; [by left|]. intros [Hp|Hp]; [done|]. by destruct Hn; eapply visible_dir_dir. }
  destruct n as [c m|m]; cbn [is_dir negb]; [apply Hno; naive_solver|].
  destruct (hidden (name_of rootName x) && negb (bool_decide (root ++ x = root))) eqn:Hh.
  { apply Hno. intros [_ Hv]. apply andb_true_iff in Hh as [Hh Hr].
    destruct (decide (x = [])) as [->|Hne]; [by rewrite app_nil_r, bool_decide_eq_true_2 in Hr|].
    destruct (exists_last Hne) as (x' & c & ->).
    by rewrite name_of_snoc in Hh; rewrite visible_snoc, Hh, andb_false_r in Hv. }
  assert (visible x = true) as Hv.
  { destruct (decide (x = [])) as [->|Hne]; [done|].
    rewrite bool_decide_eq_false_2, andb_true_r in Hh
      by (intros E; apply (f_equal length) in E; rewrite length_app in E; destruct x; [done|simpl in E; lia]).
    destruct (exists_last Hne) as (x' & c & ->). rewrite removelast_last in Hvr. rewrite name_of_snoc in Hh.
    by rewrite visible_snoc, Hvr, Hh. }
  assert (visible_dir x (root ++ x)) as Hself by (exists [], m; by rewrite !app_nil_r).
  destruct (addable (root ++ x)) eqn:Ha; [|exists (root ++ x); unfold good; by rewrite Ha].
  cbn [negb]. destruct (unreadable (root ++ x)) eqn:Hu; [exists (root ++ x); unfold good; by rewrite Ha, Hu|].
  pose proof (λ p, visible_dir_children x p m Hx Hv) as Hch.
  unshelve epose proof (entries_watched (walk fuel f) x (ReadDir f (root ++ x)) ({[root ++ x]} ∪ ws) _) as He.
  { intros c [n Hc]%ReadDir_elem. rewrite <- app_assoc in Hc. exists n. split; [done|]. intros ws1.
    rewrite <- (name_of_snoc rootName x c) at 3.
    apply IH; [rewrite !length_app in *; simpl; lia|done|by rewrite removelast_last|by destruct x]. }
  destruct (walk_entries _ _ _ _ _) as [[[]|e|] ws2]; try done.
  - destruct He as [H1 G1]. split.
    + intros p. rewrite H1, Hch. set_solver.
    + intros p Hp. apply Hch in Hp as [->|(c & Hc & Hp)]; [unfold good; by rewrite Ha, Hu|by eapply G1].
  - destruct He as (c & p & Hc & Hp & Hg). exists p. split; [|done]. apply Hch. eauto.
Qed.

Lemma start_spec m :
  f !! root = Some (FDir m) →
  match Start unreadable addable root rootName f with
  | Ret ws => (∀ p, p ∈ ws ↔ visible_dir [] p) ∧ (∀ p, visible_dir [] p → good p = true)
  | Err _ => ∃ p, visible_dir [] p ∧ good p = false
  | Panic => False
  end.
Proof.
  intros Hr. pose proof (Hwf _ _ Hr) as [_ Hu].
  pose proof (walk_watched (S (max_depth f)) [] (FDir m) ∅) as Hw. rewrite app_nil_r in Hw.
  specialize (Hw ltac:(lia) Hr eq_refl (λ _, eq_refl)).
  unfold Start, WalkDir. rewrite (Stat_dirs _ _ _ Hu Hr). unfold watches, name_of in Hw.
  destruct (walkDir _ _ _ _ _ _ _ _ _) as [[[]|e|] ws]; try done.
  destruct Hw as [H1 H2]. split; [|done]. intros p. rewrite H1. set_solver.
Qed.
End start.

(** C28: Start watches exactly the root and the directories that are reached from
    it without a hidden name, whatever the name of the root itself; it fails
    exactly when one of them cannot be watched or read, and never runs out of
    fuel. *)
Theorem start_watches unreadable addable root rootName f m :
  fs_wf f → f !! root = Some (FDir m) →
  let visible_dir p := ∃ x k, p = root ++ x ∧ visible x = true ∧ f !! p = Some (FDir k) in
  (∀ ws, Start unreadable addable root rootName f = Ret ws → ∀ p, p ∈ ws ↔ visible_dir p) ∧
  ((∃ ws, Start unreadable addable root rootName f = Ret ws) ↔
     ∀ p, visible_dir p → addable p = true ∧ unreadable p = false) ∧
  ((∃ e, Start unreadable addable root rootName f = Err e) ↔
     ∃ p, visible_dir p ∧ (addable p = false ∨ unreadable p = true)).
Proof.
  intros Hwf Hr vd. pose proof (start_spec unreadable addable root rootName f Hwf m Hr) as Hs.
  assert (∀ p, good unreadable addable p = true ↔ addable p = true ∧ unreadable p = false) as Hg
    by (intros p; unfold good; destruct (addable p), (unreadable p); naive_solver).
  assert (∀ p, good unreadable addable p = false ↔ addable p = false ∨ unreadable p = true) as Hb
    by (intros p; unfold good; destruct (addable p), (unreadable p); naive_solver).
  change (visible_dir root f []) with vd in Hs.
  destruct (Start _ _ _ _ _) as [ws|e|]; try done.
  - destruct Hs as [H1 H2]. split_and!; [by intros ? [= <-]| |].
    + split; [|eauto]. intros _ p Hp. by apply Hg, H2.
    + split; [by intros [? ?]|]. intros (p & Hp & Hbad). apply Hb in Hbad. by rewrite H2 in Hbad.
  - destruct Hs as (p & Hp & Hbad). split_and!; [done| |].
    + split; [by intros [? ?]|]. intros Hall. destruct (Hall p Hp) as [H1 H2].
      apply Hb in Hbad. destruct Hbad; congruence.
    + split; [|eauto]. intros _. exists p. split; [done|]. by apply Hb.
Qed.

(** ** A small tree *)
Module StartExample.
Import WatcherExample.

Lemma start_watches_witness :
  ∃ ws, Start readable (λ _, true) wroot (str "w") tree = Ret ws ∧ wroot ++ [str "s"] ∈ ws ∧ wroot ++ [str "a"] ∉ ws.
Proof.
  destruct (start_watches readable (λ _, true) wroot (str "w") tree 493 tree_wf eq_refl) as (H1 & [_ H2] & _).
  destruct H2 as [ws Hws]; [done|]. exists ws. split; [exact Hws|]. rewrite !(H1 ws Hws). split.
  - exists [str "s"], 493. split_and!; reflexivity.
  - intros (x & k & _ & _ & E). vm_compute in E. discriminate E.
Defined.
End StartExample.
