(* ===== verification/WatcherLive.v ===== *)
(** * Convergence of the watcher

    The program that changes the tree, the event goroutine ([processEvents]),
    the debounce goroutine ([processPending], one file of [flushPending] at a
    time) and the store as one transition system, interleaved in any order.
    fsnotify is taken to report a change of an entry of a watched directory by
    at least one event that names it, and to drop the watch of a removed
    directory. The ghost component [s_lost] collects the paths the watcher has
    no chance to follow: those changed while their directory was not watched,
    and those whose processing ended in an error. *)
From Stdlib Require Import Strings.Byte Strings.String.
From S2P Require Import Prelude Sha256 Fs Chunk Build Db DbSpec Watcher WatcherSpec.

Open Scope Z_scope.

(** ** Changes of the tree *)
Inductive fs_op :=
| Write (p : path) (content : bytes) (mode modTime : Z)
| Unlink (p : path)
| Mkdir (p : path) (mode : Z)
| Rmdir (p : path).

Definition op_path (o : fs_op) : path :=
  match o with Write p _ _ _ | Unlink p | Mkdir p _ | Rmdir p => p end.

Definition is_dir_at (f : fs) (p : path) : bool := match f !! p with Some (FDir _) => true | _ => false end.

(** What the operating system does; [None] where the call fails. *)
Definition apply_op (w : world) (o : fs_op) : option world :=
  let f := w_fs w in
  match o with
  | Write p content mode t =>
      if is_dir_at f (Dir p) && negb (is_dir_at f p)
      then Some (mkWorld (<[p := FFile content mode]> f) (λ q, if decide (q = p) then t else w_mtime w q))
      else None
  | Unlink p =>
      match f !! p with Some (FFile _ _) => Some (mkWorld (delete p f) (w_mtime w)) | _ => None end
  | Mkdir p mode =>
      if is_dir_at f (Dir p) && bool_decide (f !! p = None)
      then Some (mkWorld (<[p := FDir mode]> f) (w_mtime w)) else None
  | Rmdir p =>
      if is_dir_at f p && negb (has_children f p) then Some (mkWorld (delete p f) (w_mtime w)) else None
  end.

Lemma apply_op_other w o w' q :
  apply_op w o = Some w' → q ≠ op_path o → w_fs w' !! q = w_fs w !! q ∧ w_mtime w' q = w_mtime w q.
Proof.
  destruct o as [p c m t|p|p m|p]; simpl; intros E Hq.
  - destruct (_ && _); [|done]. injection E as <-. cbn. rewrite lookup_insert_ne by done. by rewrite decide_False.
  - destruct (w_fs w !! p) as [[? ?|?]|]; try done. injection E as <-. cbn. by rewrite lookup_delete_ne.
  - destruct (_ && _); [|done]. injection E as <-. cbn. by rewrite lookup_insert_ne.
  - destruct (_ && _); [|done]. injection E as <-. cbn. by rewrite lookup_delete_ne.
Qed.

Section live.
Context `{HashFn}.
Context (unreadable : path → bool) (fin : path → option read_error) (addable : path → bool).
Context (root : path).

(** The content a size and a modification second stand for. The store compares
    nothing else, so files are assumed to change in one of the two when their
    content changes. *)
Context (version : bytes → Z → Z → bytes).

Record sys := mkSys {
  s_world : world;
  s_watcher : watcher;
  s_queue : list event;
  s_batch : list bytes;
  s_db : db;
  s_lost : gset bytes;
}.

Definition stamped_op (o : fs_op) (p : path) : Prop :=
  match o with
  | Write _ content _ t => version (rel p) (file_size content) (Unix t) = content
  | _ => True
  end.

(** The watches after an operation. *)
Definition drop_watch (o : fs_op) (st : watcher) : watcher :=
  match o with
  | Rmdir p => mkWatcher (watched st ∖ {[p]}) (pending st)
  | _ => st
  end.

Inductive external : sys → sys → Prop :=
| ext_change w w' st qu b d lost o p evs :
    below p → op_path o = root ++ p → apply_op w o = Some w' → stamped_op o p →
    Forall (λ e, ev_name e = root ++ p) evs → (Dir (root ++ p) ∈ watched st → evs ≠ []) →
    external (mkSys w st qu b d lost)
      (mkSys w' (drop_watch o st) (qu ++ evs) b d
         (if decide (Dir (root ++ p) ∈ watched st) then lost else {[rel p]} ∪ lost)).

Inductive internal : sys → sys → Prop :=
| int_event w st e qu b d lost :
    internal (mkSys w st (e :: qu) b d lost) (mkSys w (handleEvent addable root w st e) qu b d lost)
| int_swap w st qu d lost order b st' :
    pending st ≠ ∅ → (∀ l, order l ≡ₚ l) → swap_pending order st = (b, st') →
    internal (mkSys w st qu [] d lost) (mkSys w st' qu b d lost)
| int_process w st qu r b d lost env res d' env' :
    processFile unreadable fin root w r env d = (res, d', env') →
    internal (mkSys w st qu (r :: b) d lost)
      (mkSys w st qu b d' (if is_ret res then lost else {[r]} ∪ lost)).

Definition step (s s' : sys) : Prop := external s s' ∨ internal s s'.

(** ** The invariant *)
Definition visible_entry (p : path) : Prop := below p ∧ ∀ q c, p = q ++ [c] → hidden c = false.

(** The rows of a database describe the versions they stand for. *)
Definition true_rows (d : db) : Prop :=
  ∀ r row, files d !! r = Some row →
    described d r (version r (fr_size row) (fr_mod_time row)) (time_Unix (fr_mod_time row)).

Definition stamped (w : world) : Prop :=
  ∀ p content m, below p → w_fs w !! (root ++ p) = Some (FFile content m) →
    version (rel p) (file_size content) (Unix (w_mtime w (root ++ p))) = content.

(** A path that is not yet recorded is on its way. *)
Definition accounted (s : sys) (p : path) : Prop :=
  recorded root (s_world s) (s_db s) p ∨ rel p ∈ pending (s_watcher s) ∨ rel p ∈ s_batch s ∨
  ∃ e, e ∈ s_queue s ∧ ev_name e = root ++ p.

Record inv (s : sys) : Prop := {
  inv_wf : wf (s_db s);
  inv_rows : true_rows (s_db s);
  inv_stamped : stamped (s_world s);
  inv_queue e : e ∈ s_queue s → ∃ p, below p ∧ ev_name e = root ++ p;
  inv_pending r : r ∈ pending (s_watcher s) → ∃ p, below p ∧ r = rel p;
  inv_batch r : r ∈ s_batch s → ∃ p, below p ∧ r = rel p;
  inv_accounted p : visible_entry p → rel p ∉ s_lost s → accounted s p;
}.

Lemma recorded_ext w w' d d' p :
  w_fs w' !! (root ++ p) = w_fs w !! (root ++ p) → w_mtime w' (root ++ p) = w_mtime w (root ++ p) →
  files d' !! rel p = files d !! rel p → recorded root w d p → recorded root w' d' p.
Proof.
  intros E1 E2 E3. unfold recorded, up_to_date. rewrite E1, E2, E3. done.
Qed.

Lemma external_inv s s' : inv s → external s s' → inv s'.
Proof.
  intros [Hwf Hrows Hst Hq Hp Hb Ha] Hs. destruct Hs as [w w' st qu b d lost o p evs Hbel Ho Eo Hso Hev Hne].
  cbn in *. constructor; cbn; try done.
  - intros q content m Hbq Hf. destruct (decide (q = p)) as [->|Hqp].
    + destruct o as [p' c m' t|p'|p' m'|p']; cbn in *; subst p'.
      * destruct (_ && _); [|done]. injection Eo as <-. cbn in *. rewrite lookup_insert_eq in Hf.
        rewrite decide_True by done. by injection Hf as -> _.
      * destruct (w_fs w !! (root ++ p)) as [[? ?|?]|]; try done. injection Eo as <-. cbn in Hf.
        by rewrite lookup_delete_eq in Hf.
      * destruct (_ && _); [|done]. injection Eo as <-. cbn in Hf. by rewrite lookup_insert_eq in Hf.
      * destruct (_ && _); [|done]. injection Eo as <-. cbn in Hf. by rewrite lookup_delete_eq in Hf.
    + destruct (apply_op_other _ _ _ (root ++ q) Eo) as [E1 E2]; [rewrite Ho; by intros ?%(inj (root ++.))|].
      rewrite E2. rewrite E1 in Hf. by apply (Hst _ _ m).
  - intros e [He|He]%elem_of_app; [by apply Hq|]. exists p. split; [done|].
    rewrite Forall_forall in Hev. by apply Hev.
  - intros r Hr. apply Hp. by destruct o.
  - intros q Hvis Hl. destruct (decide (q = p)) as [->|Hqp].
    + case_decide as Hw; [|set_solver]. right. right. right. cbn. specialize (Hne Hw).
      destruct evs as [|e evs]; [done|]. apply Forall_cons in Hev as [He _].
      exists e. split; [set_solver|done].
    + destruct (apply_op_other _ _ _ (root ++ q) Eo) as [E1 E2]; [rewrite Ho; by intros ?%(inj (root ++.))|].
      destruct (Ha q Hvis) as [Hr|[Hr|[Hr|(e & He & En)]]]; [by case_decide; set_solver|..]; cbn in *.
      * left. cbn. by eapply recorded_ext.
      * right. left. cbn. by destruct o.
      * right. right. by left.
      * right. right. right. exists e. split; [set_solver|done].
Qed.
(** Handling an event keeps the pending set and queues its path, unless it
    names a directory. *)
Lemma handleEvent_cases w st e p :
  below p → ev_name e = root ++ p → (∀ q c, p = q ++ [c] → hidden c = false) →
  let st' := handleEvent addable root w st e in
  (∃ m, w_fs w !! (root ++ p) = Some (FDir m)) ∧ pending st' = pending st ∨
  pending st' = {[rel p]} ∪ pending st.
Proof.
  intros Hb Hn Hv st'. unfold st', handleEvent. rewrite Hn, (Rel_below root p Hb).
  assert (hidden (info_name (root ++ p)) = false) as ->.
  { destruct Hb as [Hne _]. destruct (exists_last Hne) as (q & c & ->). rewrite app_assoc.
    unfold info_name. rewrite last_snoc. simpl. by eapply Hv. }
  destruct (ev_create e); [|by right].
  destruct (Stat (w_fs w) (root ++ p)) as [[c m|m]|er|] eqn:E; try by right.
  left. split; [exists m; by apply Stat_Ret_inv|]. by destruct (addable _).
Qed.

Lemma handleEvent_pending w st e :
  pending st ⊆ pending (handleEvent addable root w st e) ⊆ {[Rel root (ev_name e)]} ∪ pending st.
Proof.
  unfold handleEvent. destruct (hidden _); [set_solver|]. destruct (ev_create e); [|set_solver].
  destruct (Stat _ _) as [[c m|m]|er|]; [set_solver|destruct (addable _); set_solver|set_solver..].
Qed.

Lemma event_inv w st e qu b d lost :
  inv (mkSys w st (e :: qu) b d lost) → inv (mkSys w (handleEvent addable root w st e) qu b d lost).
Proof.
  intros [Hwf Hrows Hst Hq Hp Hb Ha]. cbn in *. destruct (handleEvent_pending w st e) as [Hsub Hsup].
  destruct (Hq e) as (pe & Hbe & He); [left|]. rewrite He, Rel_below in Hsup by done.
  constructor; cbn; try done.
  - intros e' He'. apply Hq. by right.
  - intros r Hr. apply Hsup, elem_of_union in Hr as [->%elem_of_singleton|Hr]; eauto.
  - intros p Hvis Hl. destruct (Ha p Hvis Hl) as [Hr|[Hr|[Hr|(e' & He' & En)]]]; cbn in *.
    + by left.
    + right. left. cbn. by apply Hsub.
    + right. right. by left.
    + apply elem_of_cons in He' as [->|He']; [|right; right; right; by exists e'].
      destruct (handleEvent_cases w st e p) as [[[m Hm] _]|E]; [apply Hvis|done|apply Hvis|..].
      * left. unfold recorded. cbn. by rewrite Hm.
      * right. left. cbn. rewrite E. set_solver.
Qed.

Lemma swap_inv w st qu d lost order b st' :
  (∀ l, order l ≡ₚ l) → swap_pending order st = (b, st') →
  inv (mkSys w st qu [] d lost) → inv (mkSys w st' qu b d lost).
Proof.
  intros Ho [= <- <-] [Hwf Hrows Hst Hq Hp Hb Ha]. cbn in *. constructor; cbn; try done.
  - intros r Hr. rewrite Ho, elem_of_elements in Hr. by apply Hp.
  - intros p Hvis Hl. destruct (Ha p Hvis Hl) as [Hr|[Hr|[Hr|Hr]]]; cbn in *.
    + by left.
    + right. right. left. cbn. by rewrite Ho, elem_of_elements.
    + by apply not_elem_of_nil in Hr.
    + right. right. by right.
Qed.

(** Processing keeps the rows true. *)
Lemma processed_rows w p d d' :
  below p → stamped w → true_rows d → others_kept d d' (rel p) → processed root w d d' p → true_rows d'.
Proof.
  intros Hbel Hst Hrows Ho Hpr r row Hr. destruct (decide (r = rel p)) as [->|Hne].
  - destruct Hpr as [->|[Hn|(content & m & Hf & Hd)]]; [by apply Hrows|congruence|].
    pose proof Hd as (row' & Hr' & [= _ Hs Ht _] & _). assert (row' = row) as -> by congruence.
    rewrite Hs, Ht, (Hst _ _ m Hbel Hf). destruct Hd as (row'' & Hd1 & Hd2 & Hd3). exists row''.
    split_and!; [done| |done]. rewrite Hd2. unfold content_meta. by rewrite Unix_time_Unix.
  - destruct (Ho r Hne) as [E Hc]. rewrite E in Hr. destruct (Hrows r row Hr) as (row' & Hr' & Hm & Hch).
    exists row'. rewrite E. split_and!; [done..|]. intros j. by rewrite (Hc row' Hr').
Qed.

Lemma process_inv w st qu r b d lost env res d' env' :
  processFile unreadable fin root w r env d = (res, d', env') →
  inv (mkSys w st qu (r :: b) d lost) →
  inv (mkSys w st qu b d' (if is_ret res then lost else {[r]} ∪ lost)).
Proof.
  intros E [Hwf Hrows Hst Hq Hp Hb Ha]. cbn in *. destruct (Hb r) as (p & Hbel & ->); [left|].
  pose proof (processFile_wf _ _ _ _ _ _ _ _ _ _ Hwf E) as Hwf'.
  destruct (is_ret res) eqn:Er.
  - destruct res as [n| |]; try done.
    destruct (processFile_Ret _ _ _ _ _ _ _ _ _ _ Hwf Hbel E) as (Hrec & Ho & Hpr).
    constructor; cbn; try done; [by eapply processed_rows|intros r Hr; apply Hb; by right|].
    intros q Hvis Hl. destruct (decide (q = p)) as [->|Hne]; [by left|].
    assert (rel q ≠ rel p) as Hrel by (intros ?%rel_inj; [done|apply Hvis|done]).
    destruct (Ha q Hvis Hl) as [Hr|[Hr|[Hr|Hr]]]; cbn in *.
    + left. eapply recorded_ext; [..|exact Hr]; try done. by apply Ho.
    + right. by left.
    + right. right. left. cbn. by apply elem_of_cons in Hr as [?|?].
    + right. right. by right.
  - rewrite (processFile_fail _ _ _ _ _ _ _ _ _ _ E Er).
    constructor; cbn; try done; [intros r Hr; apply Hb; by right|].
    intros q Hvis Hl. destruct (Ha q Hvis) as [Hr|[Hr|[Hr|Hr]]]; cbn in *; [set_solver|..].
    + by left.
    + right. by left.
    + right. right. left. cbn. apply elem_of_cons in Hr as [?|?]; [set_solver|done].
    + right. right. by right.
Qed.

Lemma step_inv s s' : inv s → step s s' → inv s'.
Proof.
  intros Hi [He|Hs]; [by eapply external_inv|]. destruct Hs as [| |].
  - by apply event_inv.
  - by eapply swap_inv.
  - by eapply process_inv.
Qed.

(** ** Progress *)
Definition work (s : sys) : nat :=
  3 * length (s_queue s) + 2 * size (pending (s_watcher s)) + length (s_batch s).

Lemma internal_work s s' : internal s s' → (work s' < work s)%nat.
Proof.
  intros [w st e qu b d lost|w st qu d lost order b st' Hne Ho [= <- <-]|w st qu r b d lost env res d' env' E];
    unfold work; cbn [s_queue s_watcher s_batch length pending].
  - destruct (handleEvent_pending w st e) as [_ Hsup]. apply subseteq_size in Hsup.
    rewrite size_union_alt, size_singleton in Hsup.
    pose proof (subseteq_size (pending st ∖ {[Rel root (ev_name e)]}) (pending st) ltac:(set_solver)). lia.
  - rewrite Ho, size_empty. change (length (elements (pending st))) with (size (pending st)).
    assert (size (pending st) ≠ 0%nat) by (intros ?%size_empty_inv; set_solver). lia.
  - lia.
Qed.

Definition idle (s : sys) : Prop := ∀ s', ¬ internal s s'.

Lemma idle_quiescent s : idle s → s_queue s = [] ∧ s_batch s = [] ∧ pending (s_watcher s) = ∅.
Proof.
  destruct s as [w st qu b d lost]. intros Hi. cbn. split_and!.
  - destruct qu; [done|]. destruct (Hi _ (int_event _ _ _ _ _ _ _)).
  - destruct b as [|r b]; [done|].
    destruct (processFile unreadable fin root w r [] d) as [[res d'] env'] eqn:E.
    destruct (Hi _ (int_process _ _ _ _ _ _ _ _ _ _ _ E)).
  - destruct (decide (pending st = ∅)) as [|Hne]; [done|]. destruct b as [|r b].
    + destruct (Hi _ (int_swap _ st qu d lost id _ _ Hne (λ l, Permutation_refl l) eq_refl)).
    + destruct (processFile unreadable fin root w r [] d) as [[res d'] env'] eqn:E.
      destruct (Hi _ (int_process _ _ _ _ _ _ _ _ _ _ _ E)).
Qed.

Lemma internal_dec s : (∃ s', internal s s') ∨ idle s.
Proof.
  destruct s as [w st [|e qu] b d lost]; [|left; eexists; apply int_event].
  destruct b as [|r b].
  - destruct (decide (pending st = ∅)) as [He|Hne].
    + right. intros s' Hs. inversion Hs; subst; done.
    + left. eexists. eapply (int_swap _ _ _ _ _ id); [done|done|reflexivity].
  - destruct (processFile unreadable fin root w r [] d) as [[res d'] env'] eqn:E.
    left. eexists. by eapply int_process.
Qed.

Lemma internal_terminates s : ∃ s', star internal s s' ∧ idle s'.
Proof.
  remember (work s) as n eqn:Hn. revert s Hn. induction n as [n IH] using lt_wf_ind. intros s ->.
  destruct (internal_dec s) as [[s' Hs]|Hi]; [|exists s; split; [constructor|done]].
  destruct (IH (work s') (internal_work _ _ Hs) s' eq_refl) as (s'' & Hr & Hi).
  exists s''. split; [by eapply star_step|done].
Qed.

(** What the store should say once everything is processed. *)
Definition converged (s : sys) : Prop :=
  ∀ p, visible_entry p → rel p ∉ s_lost s →
    match w_fs (s_world s) !! (root ++ p) with
    | Some (FFile content _) => described (s_db s) (rel p) content (w_mtime (s_world s) (root ++ p))
    | Some (FDir _) => True
    | None => files (s_db s) !! rel p = None
    end.

Lemma idle_converged s : inv s → idle s → converged s.
Proof.
  intros Hi (Eq & Eb & Ep)%idle_quiescent p Hvis Hl.
  destruct (inv_accounted _ Hi p Hvis Hl) as [Hr|[Hr|[Hr|(e & He & _)]]].
  - unfold recorded in Hr. destruct (w_fs (s_world s) !! (root ++ p)) as [[content m|m]|] eqn:Ef; try done.
    destruct Hr as (row & Hrow & Hs & Ht). destruct (inv_rows _ Hi _ _ Hrow) as (row' & Hrow' & Hm & Hc).
    rewrite Hs, Ht, (inv_stamped _ Hi _ _ _ (proj1 Hvis) Ef) in *.
    exists row'. split_and!; [done| |done]. rewrite Hm. unfold content_meta. by rewrite Unix_time_Unix.
  - rewrite Ep in Hr. set_solver.
  - rewrite Eb in Hr. by apply not_elem_of_nil in Hr.
  - rewrite Eq in He. by apply not_elem_of_nil in He.
Qed.

(** A watcher that has just been started on a scanned tree. *)
Record initial (s : sys) : Prop := {
  init_quiet : s_queue s = [] ∧ s_batch s = [] ∧ pending (s_watcher s) = ∅;
  init_wf : wf (s_db s);
  init_rows : true_rows (s_db s);
  init_stamped : stamped (s_world s);
  init_recorded p : visible_entry p → rel p ∉ s_lost s → recorded root (s_world s) (s_db s) p;
}.

Lemma initial_inv s : initial s → inv s.
Proof.
  intros [(Eq & Eb & Ep) Hwf Hrows Hst Hr]. constructor; try done.
  - rewrite Eq. by intros e ?%not_elem_of_nil.
  - rewrite Ep. intros r Hin. set_solver.
  - rewrite Eb. by intros r ?%not_elem_of_nil.
  - intros p Hvis Hl. left. by apply Hr.
Qed.

(** C12: the watcher converges. From any state that the program changing the
    tree, the event goroutine, the debounce goroutine and failing statements
    can reach, every internal step uses up work, so that without further
    changes the watcher comes to rest; and at rest the store describes, with
    root hash, size, modification second and every chunk, each visible file
    whose changes were all announced and whose processing never failed (a path
    outside the ghost set of lost ones), and has no row for such a path where
    nothing is left. Nothing is said of a path that has become a directory, and
    the content of a file is assumed to be determined by its path, size and
    modification second, which is all the watcher compares. *)
Theorem watcher_converges s0 s :
  initial s0 → star step s0 s →
  (∀ s', internal s s' → (work s' < work s)%nat) ∧
  (idle s → converged s) ∧
  ∃ s', star internal s s' ∧ idle s' ∧ converged s'.
Proof.
  intros H0 Hs. assert (inv s) as Hi by (eapply (star_invariant step inv step_inv); [done|by apply initial_inv]).
  split_and!; [apply internal_work|by apply idle_converged|].
  destruct (internal_terminates s) as (s' & Hr & Hid). exists s'. split_and!; [done..|].
  apply idle_converged; [|done].
  eapply (star_invariant internal inv); [|done|done]. intros a b Ha Hb. eapply step_inv; [done|by right].
Qed.
End live.

(** ** A run: a file is written into a watched empty directory *)
Module LiveExample.
#[local] Existing Instance sha256_fips.

Definition lroot : path := [[x77]].
Definition quiet : path → option read_error := λ _, None.
Definition all : path → bool := λ _, true.
Definition none : path → bool := λ _, false.
Definition text (r : bytes) (n secs : Z) : bytes := [x68; x69].
Definition empty_tree : fs := {[ lroot := FDir 493 ]}.
Definition s0 : sys := mkSys (mkWorld empty_tree (λ _, 0)) (mkWatcher {[lroot]} ∅) [] [] schema ∅.
Definition write : fs_op := Write (lroot ++ [[x66]]) [x68; x69] 420 (7 * nanos).

Lemma empty_below p : below p → empty_tree !! (lroot ++ p) = None.
Proof.
  intros [Hne _]. apply lookup_singleton_ne. intros E. apply (f_equal length) in E.
  rewrite length_app in E. destruct p; [done|]. simpl in E. lia.
Qed.

Lemma initial_s0 : initial lroot text s0.
Proof.
  constructor; [done|apply wf_schema| | |].
  - intros r row. cbn. by rewrite lookup_empty.
  - intros p content m Hb Hf. pose proof (empty_below p Hb). cbn [s_world w_fs s0] in Hf. congruence.
  - intros p [Hb _] _. unfold recorded. cbn [s_world w_fs s0]. by rewrite empty_below.
Qed.

Lemma watcher_converges_witness :
  ∃ s s', external lroot text s0 s ∧ star (internal none quiet all lroot) s s' ∧
          converged lroot s'.
Proof.
  assert (∃ w', apply_op (s_world s0) write = Some w') as [w' Ew] by (eexists; reflexivity).
  assert (below [[x66]]) as Hb.
  { split; [done|]. apply Forall_singleton. apply (bool_decide_unpack _). reflexivity. }
  assert (external lroot text s0
    (mkSys w' (mkWatcher {[lroot]} ∅) [mkEvent (lroot ++ [[x66]]) true] [] schema ∅)) as Hs.
  { refine (ext_change lroot text _ _ (mkWatcher {[lroot]} ∅) [] [] schema ∅ write [[x66]]
      [mkEvent (lroot ++ [[x66]]) true] Hb eq_refl Ew eq_refl _ _); [by apply Forall_singleton|done]. }
  destruct (watcher_converges none quiet all lroot text s0 _ initial_s0 (star_one _ _ _ (or_introl Hs)))
    as (_ & _ & s' & Hr & _ & Hc).
  eexists _, s'. split; [exact Hs|]. split; [exact Hr|exact Hc].
Defined.
End LiveExample.
