(* ===== verification/WatcherStop.v ===== *)
(** * Starting and stopping the watcher

    The goroutines that [Start] launches and that [Stop] ends, around the
    transition system of [WatcherLive]: [processEvents] and [processPending]
    leave their loops when the context is cancelled, and [Stop] waits for both.
    The processing of a file has a beginning and an end, and the cancellation
    may fall between the two: what was begun before it may fail at any of its
    statements or still succeed, COMMIT included. What is begun after it fails
    at its first statement, because the context is cancelled. *)
From Stdlib Require Import Strings.Byte Strings.String.
From S2P Require Import Prelude Sha256 Fs Chunk Build Db DbSpec Watcher WatcherSpec WatcherLive.

Open Scope Z_scope.

Section stop.
Context `{HashFn}.
Context (unreadable : path → bool) (fin : path → option read_error) (addable : path → bool).
Context (root : path) (version : bytes → Z → Z → bytes).

Record csys := mkCsys {
  c_sys : sys;
  c_cancelled : bool;      (* [w.cancel()] *)
  c_flight : bool;         (* the file at the head of the batch is being processed, since before the cancellation *)
  c_events : bool;         (* [processEvents] has not returned *)
  c_pending : bool;        (* [processPending] has not returned *)
  c_returned : bool;       (* [Stop] has returned *)
}.

(** [Start] after its walk. *)
Definition started (s : sys) : csys := mkCsys s false false true true false.

(** On a cancelled context the first statement of a call fails. *)
Definition cancelled_env (env : list stmt) : Prop :=
  ∃ s, head env = Some s ∧ s_fault s = true.

Inductive goroutine : csys → csys → Prop :=
| go_event w st e qu b d lost x fl pe rt :           (* processEvents: an event *)
    goroutine (mkCsys (mkSys w st (e :: qu) b d lost) x fl true pe rt)
      (mkCsys (mkSys w (handleEvent addable root w st e) qu b d lost) x fl true pe rt)
| go_tick w st qu d lost order b st' x fl ev rt :    (* processPending: the ticker *)
    pending st ≠ ∅ → (∀ l, order l ≡ₚ l) → swap_pending order st = (b, st') →
    goroutine (mkCsys (mkSys w st qu [] d lost) x fl ev true rt) (mkCsys (mkSys w st' qu b d lost) x fl ev true rt)
| go_begin w st qu r b d lost ev rt :                (* flushPending calls processFile *)
    goroutine (mkCsys (mkSys w st qu (r :: b) d lost) false false ev true rt)
      (mkCsys (mkSys w st qu (r :: b) d lost) false true ev true rt)
| go_process w st qu r b d lost env res d' env' x ev rt :   (* a call begun before the cancellation returns *)
    processFile unreadable fin root w r env d = (res, d', env') →
    goroutine (mkCsys (mkSys w st qu (r :: b) d lost) x true ev true rt)
      (mkCsys (mkSys w st qu b d' (if is_ret res then lost else {[r]} ∪ lost)) x false ev true rt)
| go_process_late w st qu r b d lost env res d' env' ev rt :  (* a call begun after it *)
    cancelled_env env → processFile unreadable fin root w r env d = (res, d', env') →
    goroutine (mkCsys (mkSys w st qu (r :: b) d lost) true false ev true rt)
      (mkCsys (mkSys w st qu b d' (if is_ret res then lost else {[r]} ∪ lost)) true false ev true rt)
| go_events_done s fl pe rt :                        (* ctx.Done *)
    goroutine (mkCsys s true fl true pe rt) (mkCsys s true fl false pe rt)
| go_pending_done s fl ev rt :
    s_batch s = [] → goroutine (mkCsys s true fl ev true rt) (mkCsys s true fl ev false rt)
| go_stop_returns s fl :                             (* wg.Wait, fsWatcher.Close *)
    goroutine (mkCsys s true fl false false false) (mkCsys s true fl false false true).

Inductive cstep : csys → csys → Prop :=
| c_change s s' x fl ev pe rt :
    external root version s s' → cstep (mkCsys s x fl ev pe rt) (mkCsys s' x fl ev pe rt)
| c_stop s fl ev pe rt : cstep (mkCsys s false fl ev pe rt) (mkCsys s true fl ev pe rt)
| c_go c c' : goroutine c c' → cstep c c'.

(** Goroutines that have not returned. *)
Definition flag (b : bool) : nat := if b then 1 else 0.
Definition running (c : csys) : nat := flag (c_events c) + flag (c_pending c) + flag (negb (c_returned c)).

(** Steps of control that are left: a call may begin, goroutines may return. *)
Definition control_left (c : csys) : nat := flag (negb (c_flight c)) + running c.

(** Forgetting the control state gives a run of the watcher. *)
Lemma goroutine_internal c c' :
  goroutine c c' →
  (c_sys c' = c_sys c ∧ (control_left c' < control_left c)%nat) ∨
  (internal unreadable fin addable root (c_sys c) (c_sys c') ∧ (control_left c' ≤ S (control_left c))%nat).
Proof.
  intros Hg. destruct Hg; simpl.
  4,5: right; split; [by eapply int_process|unfold control_left, running; simpl; lia].
  1,2: right; split; [eauto using int_event, int_swap|unfold control_left, running; simpl; lia].
  all: left; split; [done|]; unfold control_left, running; simpl; lia.
Qed.

Lemma cstep_step c c' :
  cstep c c' → star (step unreadable fin addable root version) (c_sys c) (c_sys c').
Proof.
  intros [s s' x fl ev pe rt He|s fl ev pe rt|c1 c2 Hg]; simpl; [by apply star_one; left|apply star_refl|].
  destruct (goroutine_internal _ _ Hg) as [[-> _]|[Hi _]]; [apply star_refl|by apply star_one; right].
Qed.

Lemma csteps_steps c c' :
  star cstep c c' → star (step unreadable fin addable root version) (c_sys c) (c_sys c').
Proof. induction 1; [apply star_refl|]. eapply star_trans; [by eapply cstep_step|done]. Qed.

(** A goroutine that has returned has nothing left, a call under way is for the
    head of the batch, and Stop returns after both goroutines. *)
Definition control_ok (c : csys) : Prop :=
  (c_events c = false → c_cancelled c = true) ∧
  (c_pending c = false → c_cancelled c = true ∧ s_batch (c_sys c) = []) ∧
  (c_flight c = true → s_batch (c_sys c) ≠ []) ∧
  (c_returned c = true → c_events c = false ∧ c_pending c = false).

Lemma cstep_control c c' : control_ok c → cstep c c' → control_ok c'.
Proof.
  unfold control_ok. intros Hc Hs. destruct Hs as [s s' x fl ev pe rt He|s fl ev pe rt|c1 c2 Hg].
  - destruct He; simpl in *; done.
  - simpl in *. naive_solver.
  - destruct Hg; simpl in *; naive_solver.
Qed.

(** ** A cancelled watcher does not change the store *)
Lemma statement_fault {A} (f : stmt → db → outcome db_error (A * db)) env d s :
  head env = Some s → s_fault s = true → statement f env d = (Err SqlFault, d, tail env).
Proof. intros E F. unfold statement. rewrite E. simpl. by rewrite F. Qed.

Lemma cancelled_process w r env d res d' env' :
  cancelled_env env → processFile unreadable fin root w r env d = (res, d', env') → d' = d.
Proof.
  intros Henv E. destruct (is_ret res) eqn:Er; [|by eapply processFile_fail].
  destruct Henv as (s & Hs & Hf). revert E. unfold processFile. cbv zeta.
  destruct (Stat _ _) as [[c m|m]|e|].
  - unfold NeedsUpdate, GetFile, query, mbind, act_bind, wrap. rewrite (statement_fault _ _ _ s) by done.
    by intros [= _ <- _].
  - by intros [= _ <- _].
  - destruct (IsNotExist e); [|by intros [= _ <- _]].
    unfold handleDelete, Transaction, query, mbind, act_bind, wrap. rewrite (statement_fault _ _ _ s) by done.
    by intros [= _ <- _].
  - by intros [= _ <- _].
Qed.

Lemma cancelled_stays c c' : c_cancelled c = true → cstep c c' → c_cancelled c' = true.
Proof.
  intros Hx Hs. destruct Hs as [s s' x fl ev pe rt He|s fl ev pe rt|c1 c2 Hg]; [done..|]. by destruct Hg.
Qed.

(** With no call under way nothing changes the store any more. *)
Lemma frozen_step c c' :
  c_cancelled c = true → c_flight c = false → cstep c c' →
  c_cancelled c' = true ∧ c_flight c' = false ∧ s_db (c_sys c') = s_db (c_sys c).
Proof.
  intros Hx Hfl Hs. destruct Hs as [s s' x fl ev pe rt He|s fl ev pe rt|c1 c2 Hg]; [by destruct He|done|].
  destruct Hg; simpl in *; subst; try done. split_and!; [done..|]. by eapply cancelled_process.
Qed.

Lemma frozen c c' :
  c_cancelled c = true → c_flight c = false → star cstep c c' → s_db (c_sys c') = s_db (c_sys c).
Proof.
  intros Hx Hfl Hs. induction Hs as [c|c1 c2 c3 H12 _ IH]; [done|].
  destruct (frozen_step _ _ Hx Hfl H12) as (Hx2 & Hfl2 & E). rewrite <- E. auto.
Qed.

(** The store after the call under way has returned. *)
Definition call_result (c : csys) (d' : db) : Prop :=
  c_flight c = true ∧ ∃ r b w env n env', s_batch (c_sys c) = r :: b ∧
    processFile unreadable fin root w r env (s_db (c_sys c)) = (Ret n, d', env').

Lemma flight_step c c' :
  control_ok c → c_cancelled c = true → c_flight c = true → cstep c c' →
  (c_flight c' = true ∧ s_batch (c_sys c') = s_batch (c_sys c) ∧ s_db (c_sys c') = s_db (c_sys c)) ∨
  (c_flight c' = false ∧ (s_db (c_sys c') = s_db (c_sys c) ∨ call_result c (s_db (c_sys c')))).
Proof.
  intros (_ & _ & Hb & _) Hx Hfl Hs. specialize (Hb Hfl).
  destruct Hs as [s s' x fl ev pe rt He|s fl ev pe rt|c1 c2 Hg]; [left; by destruct He|done|].
  destruct Hg as [| | |w st qu r b d lost env res d' env' x ev rt E| | | |]; simpl in *; subst; try done; auto.
  right. split; [done|]. destruct (is_ret res) eqn:Er; [right|left; by eapply processFile_fail].
  destruct res as [n| |]; try done. split; [done|]. by exists r, b, w, env, n, env'.
Qed.

(** From the cancellation on the store changes at most once, by the call that
    was under way. *)
Lemma cancelled_db c c' :
  control_ok c → c_cancelled c = true → star cstep c c' →
  s_db (c_sys c') = s_db (c_sys c) ∨ call_result c (s_db (c_sys c')).
Proof.
  intros Hc Hx Hs. induction Hs as [c|c1 c2 c3 H12 H23 IH]; [by left|].
  destruct (c_flight c1) eqn:Hfl; [|left; by eapply frozen, star_step].
  pose proof (cancelled_stays _ _ Hx H12) as Hx2. pose proof (cstep_control _ _ Hc H12) as Hc2.
  destruct (flight_step _ _ Hc Hx Hfl H12) as [(Hfl2 & Eb & Ed)|(Hfl2 & Hd)].
  - destruct (IH Hc2 Hx2) as [IH'|(_ & r & b & w & env & n & env' & Hb & E)]; [left; congruence|].
    right. split; [done|]. exists r, b, w, env, n, env'. by rewrite <- Eb, <- Ed.
  - by rewrite (frozen _ _ Hx2 Hfl2 H23).
Qed.

(** ** Termination *)
Definition stop_work (c : csys) : nat := 2 * work (c_sys c) + control_left c.

Lemma goroutine_work c c' : goroutine c c' → (stop_work c' < stop_work c)%nat.
Proof.
  intros Hg. unfold stop_work. destruct (goroutine_internal c c' Hg) as [[-> ?]|[Hi ?]]; [lia|].
  pose proof (internal_work _ _ _ _ version _ _ Hi). lia.
Qed.

Lemma stop_progress c :
  c_cancelled c = true → control_ok c → c_returned c = true ∨ ∃ c', goroutine c c'.
Proof.
  destruct c as [s x fl ev pe rt]. simpl. intros -> (_ & Hp & _ & Hr). simpl in *.
  destruct ev; [right; eexists; apply go_events_done|]. destruct pe.
  - right. destruct s as [w st qu b d lost]. destruct b as [|r b]; [eexists; by apply go_pending_done|].
    pose (env := [mkStmt true 0 0 true]).
    destruct (processFile unreadable fin root w r env d) as [[res d'] env'] eqn:E.
    destruct fl; eexists; [by eapply go_process|]. eapply go_process_late; [|exact E]. by eexists.
  - destruct rt; [by left|right; eexists; apply go_stop_returns].
Qed.

Lemma stop_finishes n c :
  (stop_work c ≤ n)%nat → c_cancelled c = true → control_ok c → ∃ c', star goroutine c c' ∧ c_returned c' = true.
Proof.
  revert c. induction n as [|n IH]; intros c Hn Hx Hc; (destruct (stop_progress c Hx Hc) as [Hr|[c1 Hg]];
    [by exists c; split; [apply star_refl|]|]); pose proof (goroutine_work _ _ Hg); [lia|].
  pose proof (cancelled_stays c c1 Hx (c_go _ _ Hg)) as Hx1.
  destruct (IH c1 ltac:(lia) Hx1 (cstep_control _ _ Hc (c_go _ _ Hg))) as (c' & Hs & Hr).
  exists c'. split; [by eapply star_step|done].
Qed.

(** C17: Stop. From any state a started watcher can reach, Stop terminates: once
    it has cancelled the context every step of the goroutines uses up work, and
    they can go on until it returns; when it has returned no goroutine moves
    again. From the cancellation on the store changes at most once: it is as it
    was, or it is what the one call of processFile that was under way at the
    cancellation, for the file at the head of the batch, makes of it, because
    its COMMIT may come too late to be stopped. With no call under way the store
    does not change: what is queued, pending or left in the batch is dropped,
    not written. *)
Theorem watcher_stop s0 c :
  star cstep (started s0) c → c_cancelled c = true →
  (∀ c', goroutine c c' → (stop_work c' < stop_work c)%nat) ∧
  (∃ c', star goroutine c c' ∧ c_returned c' = true) ∧
  (c_returned c = true → s_batch (c_sys c) = [] ∧ ∀ c', ¬ goroutine c c') ∧
  (∀ c', star cstep c c' →
     s_db (c_sys c') = s_db (c_sys c) ∨
     (c_flight c = true ∧ ∃ r b w env n env', s_batch (c_sys c) = r :: b ∧
        processFile unreadable fin root w r env (s_db (c_sys c)) = (Ret n, s_db (c_sys c'), env'))).
Proof.
  intros Hs Hx. assert (control_ok c) as Hc
    by (by eapply (star_invariant cstep control_ok cstep_control); [exact Hs|]).
  split_and!; [apply goroutine_work|by eapply stop_finishes| |intros c' H'; by apply cancelled_db].
  intros Hr. destruct Hc as (_ & Hp & _ & He). destruct (He Hr) as [Ee Ep].
  split; [by apply Hp|]. intros c' Hg. destruct Hg; simpl in *; congruence.
Qed.

(** The convergence theorem covers the controlled watcher: every run of the
    goroutines with Stop is a run of the watcher. *)
Theorem controlled_run s0 c :
  star cstep (started s0) c → star (step unreadable fin addable root version) s0 (c_sys c).
Proof. apply csteps_steps. Qed.
End stop.

(** ** A file that is written shortly before Stop *)
Module StopExample.
Import LiveExample.
#[local] Existing Instance sha256_fips.

Definition file_event : event := mkEvent (lroot ++ [[x66]]) true.
Definition written : world := default (s_world s0) (apply_op (s_world s0) write).

(** The event has been handled; the ticker has not fired. *)
Definition handled : csys :=
  mkCsys (mkSys written (mkWatcher {[lroot]} {[rel [[x66]]]}) [] [] schema ∅) false false true true false.

Lemma to_handled : star (cstep none quiet all lroot text) (started s0) handled.
Proof.
  assert (below [[x66]]) as Hb.
  { split; [done|]. apply Forall_singleton. apply (bool_decide_unpack _). reflexivity. }
  eapply star_step.
  { apply c_change. refine (ext_change lroot text (s_world s0) written (mkWatcher {[lroot]} ∅) [] [] schema ∅ write [[x66]]
      [file_event] Hb eq_refl eq_refl eq_refl _ _); [by apply Forall_singleton|done]. }
  eapply star_step; [apply c_go, go_event|].
  rewrite decide_True by set_solver.
  assert (handleEvent all lroot written (drop_watch write (mkWatcher {[lroot]} ∅)) file_event
    = mkWatcher {[lroot]} {[rel [[x66]]]}) as -> by (vm_compute; reflexivity).
  apply star_refl.
Qed.

Definition at_stop : csys := mkCsys (c_sys handled) true false true true false.

Lemma to_stop : star (cstep none quiet all lroot text) (started s0) at_stop.
Proof. eapply star_trans; [apply to_handled|]. apply star_one, c_stop. Qed.

(** The same file, when its processing has begun at the cancellation: the row
    may still be written. *)
Definition in_flight : csys :=
  mkCsys (mkSys written (mkWatcher {[lroot]} ∅) [] [rel [[x66]]] schema ∅) true true true true false.

Example late_commit :
  star (cstep none quiet all lroot text) (started s0) in_flight ∧
  ∃ c, goroutine none quiet all lroot in_flight c ∧ is_Some (files (s_db (c_sys c)) !! rel [[x66]]).
Proof.
  split.
  - eapply star_trans; [apply to_handled|].
    eapply star_step; [apply c_go; eapply (go_tick _ _ _ _ _ _ _ _ _ id); [|done|reflexivity]; set_solver|].
    cbn [pending watched]. rewrite elements_singleton. eapply star_step; [apply c_go, go_begin|].
    apply star_one, c_stop.
  - destruct (processFile none quiet lroot written (rel [[x66]]) [] schema) as [[res d'] env'] eqn:E.
    eexists. split; [eapply go_process; exact E|]. cbn [c_sys s_db].
    apply (f_equal (λ x, files x.1.2 !! rel [[x66]])) in E. cbn [fst snd] in E. rewrite <- E.
    apply (bool_decide_unpack _). vm_compute. exact I.
Qed.

(** It is never recorded. *)
Lemma watcher_stop_witness :
  (∃ c, star (goroutine none quiet all lroot) at_stop c ∧ c_returned c = true) ∧
  (∀ c, star (cstep none quiet all lroot text) at_stop c → files (s_db (c_sys c)) !! rel [[x66]] = None).
Proof.
  destruct (watcher_stop none quiet all lroot text s0 at_stop to_stop eq_refl) as (_ & Hret & _ & Hdb).
  split; [exact Hret|]. intros c Hs. destruct (Hdb c Hs) as [->|[[=] _]]. reflexivity.
Defined.
End StopExample.
