(* ===== verification/Relay.v ===== *)
(** * The TCP relay ([internal/nat/relay.go])

    The server is a transition system: its goroutines (one handler per accepted
    connection, the two copying loops of a session) and the peers interleave in
    any order. A handler is a control state ([rc_handler]): it reads the request,
    takes the mutex, waits in its select, writes an error, runs the deferred
    close, or greets the two peers of a session, one system call per action. A
    turn of a copying loop, a read and the write of what was read, is one
    action. [conn.Write] has no effect once the connection's deadline has passed.
    A connection keeps what its peer has sent ([rc_hist]), how much of it the
    server has read ([rc_pos]) and what the server has written to it ([rc_out]).
    [rc_phase] and the length of the request are bookkeeping that the actions
    record but never read. Time is in nanoseconds. *)
From Stdlib Require Import Strings.Byte Strings.String.
From S2P Require Import Prelude Wire Signaling.

Open Scope Z_scope.

Definition RelayMsgConnect : byte := x01.
Definition RelayMsgConnectAck : byte := x02.
Definition RelayMsgError : byte := xff.

Definition RelayBufferSize : Z := 32 * 1024.
Definition RelayTimeout : Z := 30 * second.

(** ** Frames *)
Definition relay_frame (ty : byte) (body : bytes) : bytes :=
  ty :: be_put 4 (u32 (Z.of_nat (length body))) ++ body.

Definition sendConnectAck (sessionID : bytes) : bytes := relay_frame RelayMsgConnectAck sessionID.
Definition relay_sendError (msg : string) : bytes := relay_frame RelayMsgError (bytes_of_string msg).

(** ** The request a connection starts with *)
Inductive connect_result :=
| CrDrop                                (* the read failed: the handler returns *)
| CrReject (msg : string)               (* [sendError] and return *)
| CrSession (sessionID : bytes).

Definition MaxSessionID : Z := 256.

Definition read_connect (r : stream) : outcome unit (connect_result * stream) :=
  match ReadFull 5 r with
  | (header, ReadOk, r1) =>
      ty ← or_panic (head header);
      if decide (ty ≠ RelayMsgConnect) then Ret (CrReject "expected connect message", r1)
      else
        lb ← or_panic (slicez header 1 5);
        let sessionIDLen := be_get lb in
        if MaxSessionID <? sessionIDLen then Ret (CrReject "session ID too long", r1)
        else match ReadFull (Z.to_nat sessionIDLen) r1 with
             | (sessionID, ReadOk, r2) => Ret (CrSession sessionID, r2)
             | (_, _, r2) => Ret (CrDrop, r2)
             end
  | (_, _, r1) => Ret (CrDrop, r1)
  end.

(** ** Server state *)

(** What the second peer's handler does before [relay]. *)
Inductive greeting_step := AckA | AckB | ClearA | ClearB.

(** Where the goroutine of [handleConnection] stands. *)
Inductive handler_stage :=
| HRead                                        (* reading the request *)
| HPair (sessionID : bytes)                    (* the request is read: [rs.mu.Lock] *)
| HSelect (start : Z) (sessionID : bytes)      (* the select of a first peer *)
| HReply (msg : string)                        (* [sendError] is next *)
| HReturn                                      (* the deferred [conn.Close] is next *)
| HOver
| HGreet (waitingConn : nat) (sessionID : bytes) (g : greeting_step)
| HRelay.                                      (* in [relay] *)

Inductive conn_phase :=
| PhFresh
| PhWaiting (id : bytes)
| PhFirst (id : bytes) (peer : nat)
| PhSecond (id : bytes) (peer : nat)
| PhOver.                                      (* turned away *)

Record rconn := mkRconn {
  rc_hist : bytes;
  rc_pos : nat;
  rc_out : bytes;
  rc_open : bool;      (* not closed by the server *)
  rc_eof : bool;       (* closed by the peer *)
  rc_accepted : Z;
  rc_deadline : option Z;   (* [SetDeadline]; [None] is the zero time *)
  rc_handler : handler_stage;
  rc_phase : conn_phase;
  rc_req : nat;
}.

(** [RelaySession]: the copying loops A to B and B to A that have returned. *)
Record rsess := mkRsess { rs_ID : bytes; rs_PeerA : nat; rs_PeerB : nat; rs_ab_done : bool; rs_ba_done : bool }.

(** How far [Close] has got: [rs.done] is closed; the tables are closed. *)
Inductive close_stage := ROpen | RDone | RClosed.

Record relay := mkRelay {
  r_now : Z;
  r_conns : gmap nat rconn;
  r_waiting : gmap bytes nat;
  r_sessions : gmap bytes (nat * nat);
  r_live : list rsess;
  r_stage : close_stage;
}.

Definition NewRelayServer : relay := mkRelay 0 ∅ ∅ ∅ [] ROpen.

(** [rs.done] is closed. *)
Definition r_done (s : relay) : bool := match r_stage s with ROpen => false | _ => true end.

(** [wg.Wait] of [Close] has not returned: the accept loop can run, also while
    [rs.done] is closed and the listener is not yet. *)
Definition r_accepting (s : relay) : bool := match r_stage s with RClosed => false | _ => true end.

Definition with_conns (s : relay) (m : gmap nat rconn) : relay :=
  mkRelay (r_now s) m (r_waiting s) (r_sessions s) (r_live s) (r_stage s).

(** The deadline of the connection has passed: reads and writes fail. *)
Definition expired (now : Z) (c : rconn) : bool :=
  match rc_deadline c with Some t => t <=? now | None => false end.

(** [conn.Write] fails on a connection the server has closed and after the
    deadline; nothing is sent then. A peer that has closed the connection
    receives nothing more, whether the write fails or not. *)
Definition writable (now : Z) (c : rconn) : bool := rc_open c && negb (expired now c).

Definition conn_write (now : Z) (data : bytes) (c : rconn) : rconn :=
  if writable now c && negb (rc_eof c) then
    mkRconn (rc_hist c) (rc_pos c) (rc_out c ++ data) (rc_open c) (rc_eof c) (rc_accepted c) (rc_deadline c)
      (rc_handler c) (rc_phase c) (rc_req c)
  else c.

(** [SetDeadline(time.Time{})]. *)
Definition clear_deadline (c : rconn) : rconn :=
  mkRconn (rc_hist c) (rc_pos c) (rc_out c) (rc_open c) (rc_eof c) (rc_accepted c) None (rc_handler c)
    (rc_phase c) (rc_req c).

Definition conn_close (c : rconn) : rconn :=
  mkRconn (rc_hist c) (rc_pos c) (rc_out c) false (rc_eof c) (rc_accepted c) (rc_deadline c) (rc_handler c) (rc_phase c) (rc_req c).

Definition conn_read (n : nat) (c : rconn) : rconn :=
  mkRconn (rc_hist c) (rc_pos c + n) (rc_out c) (rc_open c) (rc_eof c) (rc_accepted c) (rc_deadline c)
    (rc_handler c) (rc_phase c) (rc_req c).

Definition set_handler (h : handler_stage) (c : rconn) : rconn :=
  mkRconn (rc_hist c) (rc_pos c) (rc_out c) (rc_open c) (rc_eof c) (rc_accepted c) (rc_deadline c) h (rc_phase c) (rc_req c).

Definition set_phase (ph : conn_phase) (c : rconn) : rconn :=
  mkRconn (rc_hist c) (rc_pos c) (rc_out c) (rc_open c) (rc_eof c) (rc_accepted c) (rc_deadline c) (rc_handler c) ph (rc_req c).

Definition set_request (used : nat) (c : rconn) : rconn :=
  mkRconn (rc_hist c) (rc_pos c) (rc_out c) (rc_open c) (rc_eof c) (rc_accepted c) (rc_deadline c) (rc_handler c) (rc_phase c) used.

Definition unread (c : rconn) : bytes := drop (rc_pos c) (rc_hist c).

(** ** Actions *)
Inductive relay_act :=
| Accept (c : nat)
| PeerSend (c : nat) (data : bytes)
| PeerClose (c : nat)
| Tick (dt : Z)
| Handle (c : nat)                   (* the handler reads the request *)
| Pair (c : nat)                     (* its part under the mutex *)
| Greet (c : nat)                    (* the next acknowledgement or deadline of a new session *)
| Timeout (c : nat)                  (* the timer branch of a first peer's select *)
| SendError (c : nat)                (* [sendError] *)
| Return (c : nat)                   (* the deferred [conn.Close] *)
| Copy (k : nat) (ab : bool) (n : nat) (ok : bool)   (* one turn of [copyWithHeader] *)
| CopyEnd (k : nat) (ab : bool)      (* its read fails *)
| SessionEnd (k : nat)               (* [relay] returns *)
| HandlerDone (c : nat)              (* the other branch of that select *)
| Shutdown                           (* [close(rs.done)] *)
| CloseTables.                       (* [Close] after its [wg.Wait] *)

(** The handler's part under the mutex, once the request is read. *)
Definition pair_or_wait (s : relay) (c : nat) (x : rconn) (sessionID : bytes) : relay :=
  match r_waiting s !! sessionID with
  | Some waitingConn =>
      mkRelay (r_now s)
        (<[c := set_handler (HGreet waitingConn sessionID AckA) (set_phase (PhSecond sessionID waitingConn) x)]>
          (alter (set_phase (PhFirst sessionID c)) waitingConn (r_conns s)))
        (delete sessionID (r_waiting s)) (<[sessionID := (waitingConn, c)]> (r_sessions s)) (r_live s) (r_stage s)
  | None =>
      mkRelay (r_now s)
        (<[c := set_handler (HSelect (r_now s) sessionID) (set_phase (PhWaiting sessionID) x)]> (r_conns s))
        (<[sessionID := c]> (r_waiting s)) (r_sessions s) (r_live s) (r_stage s)
  end.

(** Both peers are acknowledged, then both deadlines are cleared, and [relay]
    starts the copying loops. *)
Definition greet (s : relay) (c : nat) (x : rconn) (waitingConn : nat) (sessionID : bytes) (g : greeting_step) : relay :=
  let next g' := set_handler (HGreet waitingConn sessionID g') in
  match g with
  | AckA =>
      with_conns s (<[c := next AckB x]>
        (alter (conn_write (r_now s) (sendConnectAck sessionID)) waitingConn (r_conns s)))
  | AckB => with_conns s (<[c := next ClearA (conn_write (r_now s) (sendConnectAck sessionID) x)]> (r_conns s))
  | ClearA => with_conns s (<[c := next ClearB x]> (alter clear_deadline waitingConn (r_conns s)))
  | ClearB =>
      mkRelay (r_now s) (<[c := set_handler HRelay (clear_deadline x)]> (r_conns s)) (r_waiting s) (r_sessions s)
        (r_live s ++ [mkRsess sessionID waitingConn c false false]) (r_stage s)
  end.

(** The handler reads the request; one that it turns away is answered with an
    error or not at all. *)
Definition do_handle (s : relay) (c : nat) (x : rconn) : option relay :=
  let to x' := Some (with_conns s (<[c := x']> (r_conns s))) in
  if expired (r_now s) x then to (set_handler HReturn (set_phase PhOver x))
  else match read_connect (stream_of (unread x)) with
  | Ret (CrReject msg, _) => to (set_handler (HReply msg) (set_phase PhOver x))
  | Ret (CrDrop, _) => if rc_eof x then to (set_handler HReturn (set_phase PhOver x)) else None
  | Ret (CrSession id, r) =>
      let used := (length (unread x) - length (st_buf r))%nat in
      to (set_handler (HPair id) (set_request used (conn_read used x)))
  | _ => None
  end.

(** The timer branch: it deletes whatever waits under the session id. *)
Definition do_timeout (s : relay) (c : nat) (x : rconn) (sessionID : bytes) : relay :=
  mkRelay (r_now s) (<[c := set_handler (HReply "timeout waiting for peer") x]> (r_conns s))
    (delete sessionID (r_waiting s)) (r_sessions s) (r_live s) (r_stage s).

Definition do_error (s : relay) (c : nat) (x : rconn) (msg : string) : relay :=
  with_conns s (<[c := set_handler HReturn (conn_write (r_now s) (relay_sendError msg) x)]> (r_conns s)).

Definition handler_return (s : relay) (c : nat) (x : rconn) : relay :=
  with_conns s (<[c := set_handler HOver (conn_close x)]> (r_conns s)).

Definition set_done (ab : bool) (z : rsess) : rsess :=
  if ab then mkRsess (rs_ID z) (rs_PeerA z) (rs_PeerB z) true (rs_ba_done z)
  else mkRsess (rs_ID z) (rs_PeerA z) (rs_PeerB z) (rs_ab_done z) true.

Definition with_live (s : relay) (l : list rsess) : relay :=
  mkRelay (r_now s) (r_conns s) (r_waiting s) (r_sessions s) l (r_stage s).

(** Source and destination of a copying loop that is still running. *)
Definition loop_ends (z : rsess) (ab : bool) : option (nat * nat) :=
  if ab then if rs_ab_done z then None else Some (rs_PeerA z, rs_PeerB z)
  else if rs_ba_done z then None else Some (rs_PeerB z, rs_PeerA z).

(** [src.Read(buf)] returns [n] bytes, which are written to [dst]; a failed
    write ([ok] false), to a closed connection, ends the loop. *)
Definition copyWithHeader (s : relay) (k : nat) (ab : bool) (n : nat) (ok : bool) : option relay :=
  z ← r_live s !! k;
  '(src, dst) ← loop_ends z ab;
  x ← r_conns s !! src;
  y ← r_conns s !! dst;
  if bool_decide (rc_open x = true ∧ expired (r_now s) x = false ∧ (0 < n)%nat ∧ Z.of_nat n ≤ RelayBufferSize ∧ (n ≤ length (unread x))%nat) then
    let m := <[src := conn_read n x]> (r_conns s) in
    if ok then
      if writable (r_now s) y
      then Some (with_conns s (alter (conn_write (r_now s) (take n (unread x))) dst m)) else None
    else if negb (writable (r_now s) y) || rc_eof y
      then Some (with_live (with_conns s m) (<[k := set_done ab z]> (r_live s))) else None
  else None.

(** The read fails: the source was closed, or its peer closed it and everything
    was read. *)
Definition copy_end (s : relay) (k : nat) (ab : bool) : option relay :=
  z ← r_live s !! k;
  '(src, dst) ← loop_ends z ab;
  x ← r_conns s !! src;
  if bool_decide (rc_open x = false ∨ expired (r_now s) x = true ∨ (rc_eof x = true ∧ unread x = []))
  then Some (with_live s (<[k := set_done ab z]> (r_live s))) else None.

(** Both loops have returned: the session is deleted by its id, then closed. *)
Definition session_end (s : relay) (k : nat) : option relay :=
  z ← r_live s !! k;
  if rs_ab_done z && rs_ba_done z then
    Some (mkRelay (r_now s) (alter conn_close (rs_PeerB z) (alter conn_close (rs_PeerA z) (r_conns s)))
            (r_waiting s) (delete (rs_ID z) (r_sessions s)) (delete k (r_live s)) (r_stage s))
  else None.

(** The handler of a first peer sees that [rs.done] is closed and returns; the
    waiting table keeps its connection. *)
Definition handler_done (s : relay) (c : nat) (x : rconn) : relay :=
  with_conns s (<[c := set_handler HReturn x]> (r_conns s)).

(** The last part of [Close]: the sessions of the table and the waiting
    connections are closed; the tables stay as they are. *)
Definition in_table (s : relay) (c : nat) : bool :=
  existsb (λ kv, bool_decide (kv.2.1 = c) || bool_decide (kv.2.2 = c)) (map_to_list (r_sessions s)) ||
  existsb (λ kv, bool_decide (kv.2 = c)) (map_to_list (r_waiting s)).

Definition close_conn (s : relay) (c : nat) (x : rconn) : rconn :=
  if in_table s c then conn_close x else x.

Definition relay_Close (s : relay) : relay :=
  mkRelay (r_now s) (map_imap (λ c x, Some (close_conn s c x)) (r_conns s)) (r_waiting s) (r_sessions s)
    (r_live s) RClosed.

Definition relay_step (s : relay) (a : relay_act) : option relay :=
  match a with
  | Accept c =>
      match r_conns s !! c, r_accepting s with
      | Some _, _ | _, false => None
      | None, true => Some (with_conns s (<[c := mkRconn [] 0 [] true false (r_now s) (Some (r_now s + RelayTimeout)) HRead PhFresh 0]> (r_conns s)))
      end
  | PeerSend c data =>
      x ← r_conns s !! c;
      if rc_eof x then None
      else Some (with_conns s (<[c := mkRconn (rc_hist x ++ data) (rc_pos x) (rc_out x) (rc_open x) (rc_eof x)
                                       (rc_accepted x) (rc_deadline x) (rc_handler x) (rc_phase x) (rc_req x)]> (r_conns s)))
  | PeerClose c =>
      x ← r_conns s !! c;
      Some (with_conns s (<[c := mkRconn (rc_hist x) (rc_pos x) (rc_out x) (rc_open x) true
                                   (rc_accepted x) (rc_deadline x) (rc_handler x) (rc_phase x) (rc_req x)]> (r_conns s)))
  | Tick dt => if 0 <=? dt then Some (mkRelay (r_now s + dt) (r_conns s) (r_waiting s) (r_sessions s) (r_live s) (r_stage s)) else None
  | Handle c =>
      x ← r_conns s !! c;
      match rc_handler x with HRead => do_handle s c x | _ => None end
  | Pair c =>
      x ← r_conns s !! c;
      match rc_handler x with HPair id => Some (pair_or_wait s c x id) | _ => None end
  | Greet c =>
      x ← r_conns s !! c;
      match rc_handler x with HGreet wc id g => Some (greet s c x wc id g) | _ => None end
  | Timeout c =>
      x ← r_conns s !! c;
      match rc_handler x with
      | HSelect start id => if start + RelayTimeout <=? r_now s then Some (do_timeout s c x id) else None
      | _ => None
      end
  | SendError c =>
      x ← r_conns s !! c;
      match rc_handler x with HReply msg => Some (do_error s c x msg) | _ => None end
  | Return c =>
      x ← r_conns s !! c;
      match rc_handler x with HReturn => Some (handler_return s c x) | _ => None end
  | Copy k ab n ok => copyWithHeader s k ab n ok
  | CopyEnd k ab => copy_end s k ab
  | SessionEnd k => session_end s k
  | HandlerDone c =>
      x ← r_conns s !! c;
      match rc_handler x with
      | HSelect _ _ => if r_done s then Some (handler_done s c x) else None
      | _ => None
      end
  | Shutdown =>   (* a second [close(rs.done)] panics *)
      match r_stage s with
      | ROpen => Some (mkRelay (r_now s) (r_conns s) (r_waiting s) (r_sessions s) (r_live s) RDone)
      | _ => None
      end
  | CloseTables => match r_stage s with RDone => Some (relay_Close s) | _ => None end
  end.

Fixpoint relay_run (s : relay) (l : list relay_act) : option relay :=
  match l with
  | [] => Some s
  | a :: l' => s' ← relay_step s a; relay_run s' l'
  end.

(** ** The client *)
Inductive relay_error :=
| RelayWriteFailed
| RelayReadingResponse
| RelayRefused (msg : bytes)
| RelayUnexpected (ty : byte)
| RelayReadingSession.

Definition connect_request (sessionID : bytes) : bytes := relay_frame RelayMsgConnect sessionID.

(** [RelayClient.Connect] on a dialled connection: [r] is what the server will
    send; the result is the session id of the acknowledgement and what follows
    it on the connection. *)
Definition relay_Connect (write_ok : bool) (r : stream) : outcome relay_error (bytes * stream) :=
  if negb write_ok then Err RelayWriteFailed
  else match ReadFull 5 r with
  | (header, ReadOk, r1) =>
      msgType ← or_panic (head header);
      lb ← or_panic (slicez header 1 5);
      let msgLen := be_get lb in
      if decide (msgType = RelayMsgError) then
        let '(errMsg, _, _) := ReadFull (Z.to_nat msgLen) r1 in
        Err (RelayRefused (errMsg ++ replicate (Z.to_nat msgLen - length errMsg) x00))
      else if decide (msgType ≠ RelayMsgConnectAck) then Err (RelayUnexpected msgType)
      else match ReadFull (Z.to_nat msgLen) r1 with
           | (ackSessionID, ReadOk, r2) => Ret (ackSessionID, r2)
           | _ => Err RelayReadingSession
           end
  | _ => Err RelayReadingResponse
  end.

(** The client object. Connections are numbered; [rcl_conn] is the one that
    [GetConn] hands out. *)
Record RelayClient := mkRelayClient {
  rcl_serverAddr : bytes;
  rcl_conn : option nat;
  rcl_sessionID : bytes;
}.

Definition NewRelayClient (serverAddr : bytes) : RelayClient := mkRelayClient serverAddr None [].

Inductive relay_client_error := RelayDialing | RelayFailed (e : relay_error).

(** [Connect]: the new client, the connections that are closed, and the
    connection with what is left to read on it. [dial] is [DialContext]. *)
Definition client_Connect (rc : RelayClient) (dial : option nat) (write_ok : bool) (r : stream)
    : RelayClient * list nat * outcome relay_client_error (nat * stream) :=
  match dial with
  | None => (rc, [], Err RelayDialing)
  | Some conn =>
      match relay_Connect write_ok r with
      | Ret (ackSessionID, rest) => (mkRelayClient (rcl_serverAddr rc) (Some conn) ackSessionID, [], Ret (conn, rest))
      | Err e => (rc, [conn], Err (RelayFailed e))
      | Panic => (rc, [], Panic)
      end
  end.

(** [Close]: the new client and the connections that are closed. *)
Definition client_Close (rc : RelayClient) : RelayClient * list nat :=
  match rcl_conn rc with
  | Some conn => (mkRelayClient (rcl_serverAddr rc) None (rcl_sessionID rc), [conn])
  | None => (rc, [])
  end.

Definition client_GetConn (rc : RelayClient) : option nat := rcl_conn rc.
