(* ===== verification/RelaySpec.v ===== *)
(** * What the relay guarantees

    Under every interleaving of peers, handlers, timers and copying loops, a
    connection receives the error that answers its own malformed request, or its
    acknowledgement followed by what its counterpart of the same session id sent,
    in order, with at most the error of its own timer in between; the client and
    the server agree on the handshake; the timer of a first peer's handler reports
    to the wrong peers; and Close ends what it can reach. *)
From Stdlib Require Import Strings.Byte Strings.String.
From S2P Require Import Prelude Wire Signaling Relay.

Open Scope Z_scope.

Definition timeout_msg : string := "timeout waiting for peer".
Definition timeout_error : bytes := relay_sendError timeout_msg.

(** What the copying loop has read of a peer's data. *)
Definition data_read (x : rconn) : bytes := slice (rc_req x) (rc_pos x) (rc_hist x).

(** Closed by neither side. *)
Definition intact (x : rconn) : bool := rc_open x && negb (rc_eof x).

(** Older than the deadline that its handler sets and the timer that it starts. *)
Definition overdue (now : Z) (x : rconn) : Prop := rc_accepted x + RelayTimeout ≤ now.

(** The acknowledgement is lost to a connection that has gone and to one whose
    deadline has passed. *)
Definition greeting (now : Z) (id ack : bytes) (x : rconn) : Prop :=
  ack = sendConnectAck id ∨ ack = [] ∧ (intact x = false ∨ overdue now x).

(** A first peer whose timer has fired and whose handler has written the error. *)
Definition told (now : Z) (x : rconn) : Prop :=
  overdue now x ∧ match rc_phase x, rc_handler x with PhFirst _ _, (HReturn | HOver) => True | _, _ => False end.

(** What was written to [x], paired with [y], once it has been greeted: the data
    of [y], with at most one error, of the timer of [x], somewhere in it. *)
Definition carried (now : Z) (id : bytes) (x y : rconn) : Prop :=
  ∃ ack d1 e d2, greeting now id ack x ∧ rc_out x = ack ++ d1 ++ e ++ d2 ∧
    (e = [] ∨ e = timeout_error ∧ told now x) ∧
    if intact x then d1 ++ d2 = data_read y else (d1 ++ d2) `prefix_of` data_read y.

(** The request the peer opened the connection with. *)
Definition asked (x : rconn) (id : bytes) : Prop := take (rc_req x) (rc_hist x) = connect_request id.

(** The peer sent something that is no request. *)
Definition refused (x : rconn) (msg : string) : Prop :=
  ∃ h r, h `prefix_of` rc_hist x ∧ read_connect (stream_of h) = Ret (CrReject msg, r).

Definition bounds_ok (x : rconn) : Prop := (rc_req x ≤ rc_pos x ≤ length (rc_hist x))%nat.

(** The stages of the handler of a first peer. *)
Definition first_stage (id : bytes) (h : handler_stage) : Prop :=
  match h with HSelect _ i => i = id | HReply m => m = timeout_msg | HReturn | HOver => True | _ => False end.

(** Whether the second peer's handler has come past the acknowledgements. *)
Definition acked_first (h : handler_stage) : bool := match h with HGreet _ _ AckA => false | _ => true end.
Definition acked_second (h : handler_stage) : bool := match h with HGreet _ _ (AckA | AckB) => false | _ => true end.

Definition initial_deadline (x : rconn) : option Z := Some (rc_accepted x + RelayTimeout).

Definition carried_if (acked : bool) (now : Z) (id : bytes) (x y : rconn) : Prop :=
  if acked then carried now id x y else rc_out x = [].

(** The greeting of the first peer [x], number [c], and the second peer [y]:
    nothing is copied before both deadlines are cleared. *)
Definition greeted (c : nat) (id : bytes) (x y : rconn) : Prop :=
  match rc_handler y with
  | HGreet wc i g =>
      wc = c ∧ i = id ∧ data_read x = [] ∧ data_read y = [] ∧ rc_deadline y = initial_deadline y ∧
      rc_deadline x = match g with ClearB => None | _ => initial_deadline x end
  | HRelay => rc_deadline x = None ∧ rc_deadline y = None
  | _ => False
  end.

Definition link (now : Z) (c : nat) (id : bytes) (x y : rconn) : Prop :=
  carried_if (acked_first (rc_handler y)) now id x y ∧ carried_if (acked_second (rc_handler y)) now id y x ∧
  greeted c id x y.

Definition conn_ok (now : Z) (m : gmap nat rconn) (c : nat) (x : rconn) : Prop :=
  bounds_ok x ∧
  match rc_phase x with
  | PhFresh =>
      rc_out x = [] ∧ rc_deadline x = initial_deadline x ∧
      match rc_handler x with
      | HRead => rc_pos x = 0%nat ∧ rc_req x = 0%nat
      | HPair id => asked x id ∧ rc_pos x = rc_req x
      | _ => False
      end
  | PhWaiting id =>
      asked x id ∧ rc_out x = [] ∧ rc_pos x = rc_req x ∧ rc_deadline x = initial_deadline x ∧ first_stage id (rc_handler x)
  | PhFirst id p =>
      asked x id ∧ first_stage id (rc_handler x) ∧
      ∃ y, m !! p = Some y ∧ rc_phase y = PhSecond id c ∧ link now c id x y
  | PhSecond id p => asked x id ∧ ∃ y, m !! p = Some y ∧ rc_phase y = PhFirst id c
  | PhOver =>
      match rc_handler x with
      | HReply msg => rc_out x = [] ∧ refused x msg
      | HReturn | HOver => rc_out x = [] ∨ ∃ msg, rc_out x = relay_sendError msg ∧ refused x msg
      | _ => False
      end
  end.

Definition conns_ok (now : Z) (m : gmap nat rconn) : Prop := ∀ c x, m !! c = Some x → conn_ok now m c x.

(** Two paired connections, the first peer's and the second's. *)
Definition joined (m : gmap nat rconn) (id : bytes) (a b : nat) (x y : rconn) : Prop :=
  m !! a = Some x ∧ m !! b = Some y ∧ rc_phase x = PhFirst id b ∧ rc_phase y = PhSecond id a.

Record rinv (s : relay) : Prop := {
  ri_conn : conns_ok (r_now s) (r_conns s);
  ri_wait id c : r_waiting s !! id = Some c → ∃ x, r_conns s !! c = Some x ∧ rc_phase x = PhWaiting id;
  ri_live z : z ∈ r_live s →
    ∃ x y, joined (r_conns s) (rs_ID z) (rs_PeerA z) (rs_PeerB z) x y ∧ rc_handler y = HRelay;
}.

Lemma rinv_new : rinv NewRelayServer.
Proof. constructor; [intros c x|intros id c|intros z]; cbn; rewrite ?lookup_empty; try done. by intros ?%not_elem_of_nil. Qed.

(** ** Changes of connections that their counterparts do not notice *)

(** The steps of a first peer's handler after the mutex. *)
Definition hstep (h h' : handler_stage) : Prop :=
  h' = h ∨
  match h, h' with
  | HSelect _ _, HReturn | HReply _, HReturn | HReturn, HOver => True
  | HSelect _ _, HReply m => m = timeout_msg
  | _, _ => False
  end.

Record quiet (now : Z) (x x' : rconn) : Prop := {
  q_phase : rc_phase x' = rc_phase x;
  q_bounds : bounds_ok x';
  q_read : data_read x' = data_read x;
  q_pos : rc_pos x' = rc_pos x ∧ rc_req x' = rc_req x;
  q_hist : rc_hist x `prefix_of` rc_hist x';
  q_handler : hstep (rc_handler x) (rc_handler x');
  q_deadline : rc_deadline x' = rc_deadline x;
  q_accepted : rc_accepted x' = rc_accepted x;
  q_out : rc_out x' = rc_out x ∧ (intact x' = true → intact x = true) ∨
          (∃ m id p, rc_handler x = HReply m ∧ rc_handler x' = HReturn ∧ rc_phase x = PhFirst id p) ∧
          rc_deadline x = None ∧ overdue now x ∧ intact x' = intact x ∧ rc_out x' = rc_out x ++ timeout_error;
}.

Lemma quiet_refl now x : bounds_ok x → quiet now x x.
Proof. intros Hb. constructor; auto; by left. Qed.

Lemma asked_quiet now x x' id : bounds_ok x → quiet now x x' → asked x id → asked x' id.
Proof.
  intros Hb Hq. unfold asked. intros <-. destruct (q_pos _ _ _ Hq) as [_ ->]. destruct (q_hist _ _ _ Hq) as [k ->].
  destruct Hb. by rewrite take_app_le by lia.
Qed.

Lemma refused_quiet now x x' msg : quiet now x x' → refused x msg → refused x' msg.
Proof. intros Hq (h & r & Hh & Hr). exists h, r. split; [|done]. by etrans; [|apply (q_hist _ _ _ Hq)]. Qed.

Lemma first_stage_step id h h' : hstep h h' → first_stage id h → first_stage id h'.
Proof. intros [->|H]; [done|]. by destruct h, h'. Qed.

Lemma second_stage_step c id x y h : greeted c id x y → hstep (rc_handler y) h → h = rc_handler y.
Proof. unfold greeted. intros Hg [->|H]; [done|]. by destruct (rc_handler y). Qed.

Lemma told_quiet now x x' : quiet now x x' → told now x → told now x'.
Proof.
  intros Hq [Ho Ht]. unfold told, overdue. rewrite (q_phase _ _ _ Hq), (q_accepted _ _ _ Hq). split; [done|].
  destruct (rc_phase x); try done. destruct (q_handler _ _ _ Hq) as [->|Hs]; [done|].
  by destruct (rc_handler x), (rc_handler x').
Qed.

Lemma greeting_quiet now id ack x x' : quiet now x x' → greeting now id ack x → greeting now id ack x'.
Proof.
  intros Hq [->|[-> Hg]]; [by left|right; split; [done|]]. unfold overdue. rewrite (q_accepted _ _ _ Hq).
  destruct Hg as [Hg|Hg]; [left|by right].
  destruct (q_out _ _ _ Hq) as [[_ Ho]|(_ & _ & _ & -> & _)]; [|done]. destruct (intact x'); [|done]. by rewrite Ho in Hg.
Qed.

Lemma carried_from now id x x' y : quiet now x x' → carried now id x y → carried now id x' y.
Proof.
  intros Hq (ack & d1 & e & d2 & Hg & Ho & He & Hd).
  destruct (q_out _ _ _ Hq) as [[Eo Hi]|((m & i & p & Eh & Eh' & Ep) & _ & Hov & Ei & Eo)].
  - exists ack, d1, e, d2. rewrite Eo. split_and!; [by eapply greeting_quiet|done| |].
    + destruct He as [->|[-> Ht]]; [by left|right]. split; [done|]. by eapply told_quiet.
    + destruct (intact x'); [by rewrite Hi in Hd|]. by destruct (intact x); [rewrite Hd|].
  - destruct He as [->|[_ [_ Ht]]]; [|by rewrite Ep, Eh in Ht].
    exists ack, (d1 ++ d2), timeout_error, []. rewrite Ei, (app_nil_r (d1 ++ d2)). split_and!; [by eapply greeting_quiet| | |done].
    + by rewrite Eo, Ho, app_nil_l, (app_nil_r timeout_error), <- !app_assoc.
    + right. split; [done|]. split; [unfold overdue in *; by rewrite (q_accepted _ _ _ Hq)|].
      by rewrite (q_phase _ _ _ Hq), Ep, Eh'.
Qed.

Lemma carried_data now id x y y' : data_read y' = data_read y → carried now id x y → carried now id x y'.
Proof. intros E. unfold carried. by rewrite E. Qed.

Lemma carried_if_quiet b now id x x' y y' :
  quiet now x x' → (b = false → is_Some (rc_deadline x)) → data_read y' = data_read y →
  carried_if b now id x y → carried_if b now id x' y'.
Proof.
  intros Hx Hd E. destruct b; cbn; [intros Hc; eapply carried_data; [done|by eapply carried_from]|].
  intros Ho. destruct (q_out _ _ _ Hx) as [[-> _]|(_ & Hn & _)]; [done|]. rewrite Hn in Hd. by destruct Hd.
Qed.

Lemma link_quiet now c id x x' y y' : quiet now x x' → quiet now y y' → link now c id x y → link now c id x' y'.
Proof.
  intros Hx Hy (H1 & H2 & Hg). unfold link.
  pose proof (second_stage_step _ _ _ _ _ Hg (q_handler _ _ _ Hy)) as ->. split_and!.
  - eapply carried_if_quiet; [done| |apply (q_read _ _ _ Hy)|done].
    intros E. unfold greeted in Hg. destruct (rc_handler y) as [| | | | | |? ? []|]; try done.
    destruct Hg as (_ & _ & _ & _ & _ & ->). by eexists.
  - eapply carried_if_quiet; [done| |apply (q_read _ _ _ Hx)|done].
    intros E. unfold greeted in Hg. destruct (rc_handler y); try done. destruct Hg as (_ & _ & _ & _ & -> & _). by eexists.
  - unfold greeted in *. rewrite (second_stage_step _ _ x y _ Hg (q_handler _ _ _ Hy)). unfold initial_deadline.
    by rewrite (q_read _ _ _ Hx), (q_read _ _ _ Hy), (q_deadline _ _ _ Hx), (q_deadline _ _ _ Hy),
      (q_accepted _ _ _ Hx), (q_accepted _ _ _ Hy).
Qed.

Definition quiet_map (now : Z) (m m' : gmap nat rconn) : Prop :=
  (∀ c x, m !! c = Some x → ∃ x', m' !! c = Some x' ∧ quiet now x x') ∧
  (∀ c x', m' !! c = Some x' → is_Some (m !! c)).

Lemma conn_ok_quiet now m m' : quiet_map now m m' → conns_ok now m → conns_ok now m'.
Proof.
  intros [Hm Hm'] Hok c x' Hc'. destruct (Hm' c x' Hc') as [x Hc]. destruct (Hm c x Hc) as (x1 & Hx1 & Hq).
  assert (x1 = x') as -> by congruence. destruct (Hok c x Hc) as [Hb Hp]. split; [apply Hq|].
  rewrite (q_phase _ _ _ Hq). unfold initial_deadline in *. rewrite (q_deadline _ _ _ Hq), (q_accepted _ _ _ Hq).
  pose proof (λ id, asked_quiet now x x' id Hb Hq) as Ha. destruct (q_pos _ _ _ Hq) as [Epos Ereq].
  assert (rc_out x' = rc_out x ∨ ∃ id p, rc_phase x = PhFirst id p) as Hout
    by (destruct (q_out _ _ _ Hq) as [[? _]|((? & ? & ? & _ & _ & ?) & _)]; eauto).
  pose proof (q_handler _ _ _ Hq) as Hh.
  destruct (rc_phase x) as [|id|id p|id p|] eqn:Ep.
  - destruct Hout as [->|(? & ? & [=])]. rewrite Epos, Ereq. destruct Hp as (? & ? & Hs). split_and!; [done..|].
    destruct Hh as [->|Hh]; destruct (rc_handler x); try done. by destruct Hs; auto.
  - destruct Hout as [->|(? & ? & [=])]. rewrite Epos, Ereq. destruct Hp as (? & ? & ? & ? & ?).
    split_and!; auto. by eapply first_stage_step.
  - destruct Hp as (? & ? & z & Hz & Hpz & Hl). destruct (Hm p z Hz) as (z' & Hz' & Hqz).
    split_and!; [auto|by eapply first_stage_step|]. exists z'. rewrite (q_phase _ _ _ Hqz).
    split_and!; [done..|by eapply link_quiet].
  - destruct Hp as (? & z & Hz & Hpz). destruct (Hm p z Hz) as (z' & Hz' & Hqz).
    split; [auto|]. exists z'. by rewrite (q_phase _ _ _ Hqz).
  - destruct Hout as [->|(? & ? & [=])]. pose proof (λ msg, refused_quiet now x x' msg Hq) as Hr.
    destruct Hh as [->|Hh]; destruct (rc_handler x), (rc_handler x'); try done; naive_solver.
Qed.

Lemma quiet_map_insert now m c x x' :
  conns_ok now m → m !! c = Some x → quiet now x x' → quiet_map now m (<[c := x']> m).
Proof.
  intros Hok Hc Hq. split.
  - intros d y Hd. rewrite lookup_insert. case_decide as E.
    + subst d. exists x'. split; [done|]. by assert (y = x) as -> by congruence.
    + exists y. split; [done|]. apply quiet_refl. by apply (Hok d y Hd).
  - intros d y'. rewrite lookup_insert. case_decide as E; [subst d; eauto|eauto].
Qed.

Lemma quiet_map_refl now m : conns_ok now m → quiet_map now m m.
Proof. intros Hok. split; [|eauto]. intros c y Hc. exists y. split; [done|]. apply quiet_refl, (Hok _ _ Hc). Qed.

Definition same_peers (z z0 : rsess) : Prop :=
  rs_ID z = rs_ID z0 ∧ rs_PeerA z = rs_PeerA z0 ∧ rs_PeerB z = rs_PeerB z0.

(** A step that leaves the waiting table and the sessions' peers alone. *)
Lemma rinv_quiet s s' :
  rinv s → quiet_map (r_now s) (r_conns s) (r_conns s') → r_now s' = r_now s → r_waiting s' ⊆ r_waiting s →
  (∀ z, z ∈ r_live s' → ∃ z0, z0 ∈ r_live s ∧ same_peers z z0) →
  rinv s'.
Proof.
  intros [Hc Hw Hl] Hq En Hws Hls. constructor; [rewrite En; by eapply conn_ok_quiet|..].
  - intros id c Hid. apply (lookup_weaken _ _ _ _ Hid), Hw in Hws as (x & Hx & Ep).
    destruct (proj1 Hq c x Hx) as (x' & Hx' & Hqx). exists x'. by rewrite (q_phase _ _ _ Hqx).
  - intros z (z0 & Hz0 & -> & -> & ->)%Hls. destruct (Hl z0 Hz0) as (x & y & (Hx & Hy & E1 & E2) & Eh).
    destruct (proj1 Hq _ x Hx) as (x' & Hx' & F1), (proj1 Hq _ y Hy) as (y' & Hy' & F2).
    exists x', y'. unfold joined. rewrite (q_phase _ _ _ F1), (q_phase _ _ _ F2). split; [done|].
    destruct (q_handler _ _ _ F2) as [->|H]; [done|]. by rewrite Eh in H.
Qed.

Lemma live_same s z : z ∈ r_live s → ∃ z0, z0 ∈ r_live s ∧ same_peers z z0.
Proof. by exists z. Qed.

Lemma rinv_quiet_conn s c x x' :
  rinv s → r_conns s !! c = Some x → quiet (r_now s) x x' → rinv (with_conns s (<[c := x']> (r_conns s))).
Proof.
  intros Hi Hc Hq. apply (rinv_quiet s); [done|eapply quiet_map_insert; [apply Hi|done..]|done..|exact (live_same s)].
Qed.

(** Only the handler of a first peer moves. *)
Lemma quiet_stage now x h : bounds_ok x → hstep (rc_handler x) h → quiet now x (set_handler h x).
Proof. intros Hb Hh. constructor; auto. Qed.

Lemma quiet_close now x : bounds_ok x → quiet now x (conn_close x).
Proof. intros Hb. constructor; auto; by left. Qed.

Lemma quiet_return now x : bounds_ok x → rc_handler x = HReturn → quiet now x (set_handler HOver (conn_close x)).
Proof. intros Hb Eh. constructor; auto; [|by left]. right. cbn. by rewrite Eh. Qed.

Lemma slice_app_l {A} (l k : list A) i j : (j ≤ length l)%nat → slice i j (l ++ k) = slice i j l.
Proof.
  intros Hj. unfold slice. destruct (decide (i ≤ length l)%nat).
  - rewrite drop_app_le, take_app_le by (rewrite ?length_drop; lia). done.
  - replace (j - i)%nat with 0%nat by lia. done.
Qed.

Lemma slice_snoc {A} (l : list A) i j n :
  (i ≤ j)%nat → slice i (j + n) l = slice i j l ++ take n (drop j l).
Proof.
  intros Hi. unfold slice. replace (j + n - i)%nat with (j - i + n)%nat by lia.
  rewrite <- (take_take_drop (drop i l) (j - i) n), drop_drop. do 2 f_equal. f_equal. lia.
Qed.

Lemma slice_nil {A} i (l : list A) : slice i i l = [].
Proof. unfold slice. by rewrite Nat.sub_diag. Qed.

(** Time passes. *)
Lemma overdue_later now now' x : now ≤ now' → overdue now x → overdue now' x.
Proof. unfold overdue. lia. Qed.

Lemma carried_later now now' id x y : now ≤ now' → carried now id x y → carried now' id x y.
Proof.
  intros Hn (ack & d1 & e & d2 & Hg & Ho & He & Hd). exists ack, d1, e, d2. split_and!; try done.
  - destruct Hg as [->|[-> [?|?]]]; [by left|right; auto|right; eauto using overdue_later].
  - destruct He as [->|[-> [? ?]]]; [by left|right; split; [done|]; split; eauto using overdue_later].
Qed.

Lemma conns_ok_later now now' m : now ≤ now' → conns_ok now m → conns_ok now' m.
Proof.
  intros Hn Hok c x Hc. destruct (Hok c x Hc) as [Hb Hp]. split; [done|]. destruct (rc_phase x); try done.
  destruct Hp as (? & ? & y & ? & ? & H1 & H2 & ?). split_and!; [done..|]. exists y. split_and!; [done..|].
  split_and!; [| |done]; unfold carried_if in *.
  - destruct (acked_first _); [by eapply carried_later|done].
  - destruct (acked_second _); [by eapply carried_later|done].
Qed.

(** ** Each action keeps the invariant *)
Definition unpaired (x : rconn) : Prop := match rc_phase x with PhFirst _ _ | PhSecond _ _ => False | _ => True end.

Lemma conn_ok_unpaired now m m' c x : unpaired x → conn_ok now m c x → conn_ok now m' c x.
Proof. unfold unpaired, conn_ok. by destruct (rc_phase x). Qed.

(** A new connection, or one that no table names, can change as it likes. *)
Lemma solo_inv s s' c x' :
  rinv s → (∀ x, r_conns s !! c = Some x → rc_phase x = PhFresh ∨ rc_phase x = PhOver) →
  r_conns s' = <[c := x']> (r_conns s) → r_now s' = r_now s → r_live s' = r_live s →
  (∀ id d, r_waiting s' !! id = Some d → r_waiting s !! id = Some d ∨ d = c ∧ rc_phase x' = PhWaiting id) →
  unpaired x' → conn_ok (r_now s) ∅ c x' → rinv s'.
Proof.
  intros [Hc Hw Hl] Hx Ec En El Hws Hu Hok.
  assert (∀ d y, r_conns s !! d = Some y → rc_phase y ≠ PhFresh → rc_phase y ≠ PhOver →
    <[c := x']> (r_conns s) !! d = Some y) as Hext.
  { intros d y Hd H1 H2. rewrite lookup_insert_ne; [done|]. intros <-. by destruct (Hx y Hd). }
  constructor; rewrite ?Ec, ?En.
  - intros d y. rewrite lookup_insert. case_decide as E; [subst; intros [= <-]; by eapply conn_ok_unpaired|].
    intros Hd. destruct (Hc d y Hd) as [Hby Hpy]. split; [done|]. destruct (rc_phase y) as [|id|id p|id p|]; try done.
    + destruct Hpy as (? & ? & z & Hz & Hpz & ?). split_and!; [done..|]. exists z. split; [|done]. apply Hext; congruence.
    + destruct Hpy as (? & z & Hz & Hpz). split; [done|]. exists z. split; [|done]. apply Hext; congruence.
  - intros id d [Hd|[-> Hp]]%Hws; [|exists x'; by rewrite lookup_insert_eq].
    destruct (Hw id d Hd) as (y & Hy & Ep). exists y. split; [|done]. apply Hext; congruence.
  - intros z. rewrite El. intros (y1 & y2 & (H1 & H2 & H3 & H4) & H5)%Hl. exists y1, y2.
    split; [split_and!|]; try done; apply Hext; congruence.
Qed.

(** *** The handler *)
Lemma ReadFull_length n r got st r' :
  ReadFull n r = (got, st, r') → st_buf r' = drop n (st_buf r) ∧ (st = ReadOk → length got = n).
Proof.
  unfold ReadFull. case_decide as E; [by intros [= <- <- <-]|].
  destruct (st_fin r); [by intros [= <- <- <-]|]. case_decide; by intros [= <- <- <-].
Qed.

Lemma ReadFull_ok_buf n l got r' :
  ReadFull n (stream_of l) = (got, ReadOk, r') → l = got ++ st_buf r' ∧ r' = stream_of (st_buf r') ∧ length got = n.
Proof.
  unfold ReadFull. cbn [st_buf st_fin stream_of]. case_decide as E.
  - intros [= <- <-]. cbn. by rewrite take_drop.
  - case_decide; done.
Qed.

(** The server takes exactly a connect request off the stream. *)
Lemma read_connect_request l id r :
  read_connect (stream_of l) = Ret (CrSession id, r) →
  l = connect_request id ++ st_buf r ∧ (length id ≤ 256)%nat.
Proof.
  unfold read_connect. destruct (ReadFull 5 (stream_of l)) as [[header st] r1] eqn:E1. destruct st; try done.
  apply ReadFull_ok_buf in E1 as (-> & -> & Hh). destruct header as [|ty lb]; [done|]. cbn [head or_panic].
  rewrite Ret_bind. case_decide as Ety; [done|]. subst ty.
  assert (length lb = 4%nat) as Hlb by (simpl in Hh; lia).
  rewrite slicez_ok by (cbn [length]; lia). rewrite or_panic_bind. cbv beta zeta.
  change (slice (Z.to_nat 1) (Z.to_nat 5) (RelayMsgConnect :: lb)) with (take 4 lb).
  rewrite take_ge by lia. destruct (Z.ltb_spec MaxSessionID (be_get lb)); [done|].
  destruct (ReadFull (Z.to_nat (be_get lb)) _) as [[sid st] r2] eqn:E2. destruct st; try done.
  apply ReadFull_ok_buf in E2 as (E2 & _ & Hs). intros [= <- <-].
  pose proof (be_get_bound lb) as Hbd. unfold MaxSessionID in *. split; [|lia].
  rewrite E2. unfold connect_request, relay_frame. cbn [app]. f_equal.
  rewrite Hs, Z2Nat.id, u32_small by lia. rewrite <- Hlb, be_put_get. cbn. by rewrite app_assoc.
Qed.

(** Two paired connections. *)
Lemma joined_link s id a b x y :
  rinv s → joined (r_conns s) id a b x y →
  a ≠ b ∧ bounds_ok x ∧ bounds_ok y ∧ asked x id ∧ asked y id ∧ first_stage id (rc_handler x) ∧ link (r_now s) a id x y.
Proof.
  intros Hi (Hx & Hy & Px & Py). destruct (ri_conn _ Hi _ _ Hx) as [Hbx Hox], (ri_conn _ Hi _ _ Hy) as [Hby Hoy].
  rewrite Px in Hox. rewrite Py in Hoy. destruct Hox as (? & ? & z & Hz & _ & ?), Hoy as (? & _).
  assert (z = y) as -> by congruence. split; [intros ->; congruence|done].
Qed.

(** Which connection a handler in a given stage belongs to. *)
Lemma handler_phase s c x :
  rinv s → r_conns s !! c = Some x →
  match rc_handler x with
  | HRead | HPair _ => rc_phase x = PhFresh
  | HGreet wc id _ => ∃ y, joined (r_conns s) id wc c y x
  | _ => True
  end.
Proof.
  intros Hi Hc. destruct (ri_conn _ Hi _ _ Hc) as [_ Hok].
  destruct (rc_phase x) as [|id|id p|id p|] eqn:Hph.
  1: destruct Hok as (_ & _ & Hok). 2: destruct Hok as (_ & _ & _ & _ & Hok). 3: destruct Hok as (_ & Hok & _).
  1-3,5: by destruct (rc_handler x).
  destruct Hok as (_ & y & Hy & Epy). assert (joined (r_conns s) id p c y x) as Hj by done.
  destruct (joined_link _ _ _ _ _ _ Hi Hj) as (_ & _ & _ & _ & _ & _ & _ & _ & Hg). unfold greeted in Hg.
  destruct (rc_handler x); try done. destruct Hg as (-> & -> & _). by exists y.
Qed.

(** A connection without a request in progress, replaced by another such. *)
Lemma solo_conn s c x x' :
  rinv s → r_conns s !! c = Some x → rc_phase x = PhFresh ∨ rc_phase x = PhOver → unpaired x' →
  conn_ok (r_now s) ∅ c x' → rinv (with_conns s (<[c := x']> (r_conns s))).
Proof. intros Hi Hc Hp Hu Hok. eapply (solo_inv s); try done; [congruence|]. intros; by left. Qed.

Lemma do_handle_inv s c x s' :
  rinv s → r_conns s !! c = Some x → rc_handler x = HRead → do_handle s c x = Some s' → rinv s'.
Proof.
  intros Hi Hc Hh. pose proof (handler_phase _ _ _ Hi Hc) as Hph. rewrite Hh in Hph.
  destruct (ri_conn _ Hi _ _ Hc) as [Hb Hok]. rewrite Hph, Hh in Hok.
  destruct Hok as (Ho & Hdl & Hp & Hr).
  assert (unread x = rc_hist x) as Eu by (unfold unread; by rewrite Hp).
  unfold do_handle.
  assert (rinv (with_conns s (<[c := set_handler HReturn (set_phase PhOver x)]> (r_conns s)))) as Hret
    by (eapply solo_conn; [done..|by left|done|split; [done|by left]]).
  destruct (expired (r_now s) x) eqn:Hex; [by intros [= <-]|].
  destruct (read_connect _) as [[[|msg|id] r]| |] eqn:Er; try done.
  - destruct (rc_eof x); [|done]. by intros [= <-].
  - intros [= <-]. eapply solo_conn; [done..|by left|done|]. split; [done|]. cbn. split; [done|].
    exists (unread x), r. by rewrite Eu at 1.
  - intros [= <-]. apply read_connect_request in Er as [Er _]. rewrite Eu in *.
    assert (length (rc_hist x) = length (connect_request id) + length (st_buf r))%nat as El by (by rewrite Er, length_app at 1).
    eapply solo_conn; [done..|by left|unfold unpaired; cbn; by rewrite Hph|]. split; [unfold bounds_ok; cbn; lia|]. cbn. rewrite Hph, Ho, Hp.
    split_and!; [done..| |lia]. unfold asked. cbn. rewrite El, Nat.add_sub, Er. apply take_app_length.
Qed.

Lemma alter_insert_eq' (m : gmap nat rconn) c x g : m !! c = Some x → alter g c m = <[c := g x]> m.
Proof.
  intros Hc. apply map_eq. intros d. rewrite lookup_insert. case_decide as E.
  - subst d. by rewrite lookup_alter_eq, Hc.
  - by rewrite lookup_alter_ne.
Qed.

(** A connection whose handler is about to take the mutex. *)
Lemma asking s c x id :
  rinv s → r_conns s !! c = Some x → rc_handler x = HPair id →
  rc_phase x = PhFresh ∧ bounds_ok x ∧ rc_out x = [] ∧ rc_deadline x = initial_deadline x ∧ asked x id ∧ rc_pos x = rc_req x.
Proof.
  intros Hi Hc Hh. pose proof (handler_phase _ _ _ Hi Hc) as Hph. rewrite Hh in Hph.
  destruct (ri_conn _ Hi _ _ Hc) as [Hb Hok]. rewrite Hph, Hh in Hok. by destruct Hok as (? & ? & ? & ?).
Qed.

Lemma wait_inv s c x id :
  rinv s → r_conns s !! c = Some x → rc_handler x = HPair id → r_waiting s !! id = None → rinv (pair_or_wait s c x id).
Proof.
  intros Hi Hc Hh Hw. destruct (asking _ _ _ _ Hi Hc Hh) as (Hph & Hb & Ho & Hdl & Ha & Hp).
  unfold pair_or_wait. rewrite Hw. eapply (solo_inv s); [done| |done..| |done|split; [done|by cbn]].
  - intros x0. rewrite Hc. intros [= <-]. by left.
  - intros i d. cbn. rewrite lookup_insert. case_decide as E; [intros [= <-]; right; by subst|by left].
Qed.

Lemma pair_inv s c x wc id :
  rinv s → r_conns s !! c = Some x → rc_handler x = HPair id → r_waiting s !! id = Some wc → rinv (pair_or_wait s c x id).
Proof.
  intros Hi Hc Hh Hw. destruct (asking _ _ _ _ Hi Hc Hh) as (Hph & Hb & Ho & Hdl & Ha & Hp).
  destruct (ri_wait _ Hi _ _ Hw) as (y & Hy & Epy).
  destruct (ri_conn _ Hi _ _ Hy) as [Hby Hyo]. rewrite Epy in Hyo. destruct Hyo as (Hay & Hoy & Hpy & Hdy & Hfy).
  assert (wc ≠ c) as Hne by (intros ->; congruence).
  unfold pair_or_wait. rewrite Hw, (alter_insert_eq' (r_conns s) wc y _ Hy).
  set (x2 := set_handler _ _). set (y2 := set_phase _ y).
  assert (∀ d z, r_conns s !! d = Some z → rc_phase z ≠ PhFresh → rc_phase z ≠ PhWaiting id →
    <[c := x2]> (<[wc := y2]> (r_conns s)) !! d = Some z) as Hext.
  { intros d z Hd H1 H2. rewrite !lookup_insert_ne; [done|intros <-; congruence..]. }
  constructor; cbn.
  - intros d z. rewrite lookup_insert. case_decide as Ed.
    { intros [= <-]. subst d. split; [done|]. split; [done|]. exists y2. split; [|done]. by rewrite lookup_insert_ne, lookup_insert_eq. }
    rewrite lookup_insert. case_decide as Ed2.
    { intros [= <-]. subst d. split; [done|]. split; [done|]. split; [done|]. exists x2. rewrite lookup_insert_eq.
      split_and!; [done..|]. split_and!; [done..|]. cbn. split_and!; [done..| | |done|done].
      - unfold data_read. cbn. rewrite Hpy. apply slice_nil.
      - unfold data_read. cbn. rewrite Hp. apply slice_nil. }
    intros Hd. destruct (ri_conn _ Hi _ _ Hd) as [Hbz Hz]. split; [done|].
    destruct (rc_phase z) as [|i|i p|i p|]; try done.
    + destruct Hz as (? & ? & u & Hu' & Hpu & ?). split_and!; [done..|]. exists u. split; [|done]. apply Hext; congruence.
    + destruct Hz as (? & u & Hu' & Hpu). split; [done|]. exists u. split; [|done]. apply Hext; congruence.
  - intros i d [Hni Hd]%lookup_delete_Some. destruct (ri_wait _ Hi _ _ Hd) as (z & Hz & Epz).
    exists z. split; [|done]. apply Hext; congruence.
  - intros z (u & v & (H1 & H2 & H3 & H4) & H5)%(ri_live _ Hi). exists u, v.
    split; [split_and!|]; try done; apply Hext; congruence.
Qed.

Lemma pair_or_wait_inv s c x id :
  rinv s → r_conns s !! c = Some x → rc_handler x = HPair id → rinv (pair_or_wait s c x id).
Proof. intros Hi Hc Hh. destruct (r_waiting s !! id) as [wc|] eqn:Ew; [by eapply pair_inv|by apply wait_inv]. Qed.

(** *** Paired connections *)

(** Replacing two paired connections. *)
Lemma pair_update s s' id a b x y x' y' :
  rinv s → joined (r_conns s) id a b x y →
  r_conns s' = <[b := y']> (<[a := x']> (r_conns s)) → r_now s' = r_now s → r_waiting s' = r_waiting s →
  (∀ z, z ∈ r_live s' → (∃ z0, z0 ∈ r_live s ∧ same_peers z z0) ∨
     (rs_ID z = id ∧ rs_PeerA z = a ∧ rs_PeerB z = b ∧ rc_handler y' = HRelay)) →
  rc_phase x' = rc_phase x → rc_phase y' = rc_phase y →
  rc_handler x' = rc_handler x → (rc_handler y = HRelay → rc_handler y' = HRelay) →
  asked x' id → asked y' id → bounds_ok x' → bounds_ok y' → link (r_now s) a id x' y' → rinv s'.
Proof.
  intros Hi Hj Em En Ew El Px Py Hx' Hy' Ax Ay Bx By Hl.
  destruct (joined_link _ _ _ _ _ _ Hi Hj) as (Hne & _ & _ & _ & _ & Hf & _). destruct Hj as (Hx & Hy & Ex & Ey).
  assert (∀ d z, r_conns s !! d = Some z → ∃ z', r_conns s' !! d = Some z' ∧ rc_phase z' = rc_phase z ∧
    (rc_handler z = HRelay → rc_handler z' = HRelay)) as Hph.
  { intros d z Hd. rewrite Em, !lookup_insert. repeat case_decide; subst; eauto; eexists; (split; [done|]);
      assert (z = y ∨ z = x) as [->| ->] by (left; congruence) || (right; congruence); split; congruence || auto. }
  assert (joined (r_conns s') id a b x' y') as (Hxa & Hyb & Exa & Eyb).
  { split_and!; [by rewrite Em, lookup_insert_ne, lookup_insert_eq|by rewrite Em, lookup_insert_eq|congruence..]. }
  constructor.
  - rewrite En. intros d z Hd. destruct (decide (d = b)) as [->|Hb]; [|destruct (decide (d = a)) as [->|Ha]].
    + assert (z = y') as -> by congruence. split; [done|]. rewrite Eyb. split; [done|]. by exists x'.
    + assert (z = x') as -> by congruence. split; [done|]. rewrite Exa. split; [done|]. split; [by rewrite Hx'|]. by exists y'.
    + rewrite Em, !lookup_insert_ne in Hd by done. destruct (ri_conn _ Hi _ _ Hd) as [Hbz Hz]. split; [done|].
      assert (∀ p u, r_conns s !! p = Some u → (∀ i, rc_phase u = PhFirst i d ∨ rc_phase u = PhSecond i d →
        r_conns s' !! p = Some u)) as Hext.
      { intros p u Hpu i Hpi. rewrite Em, !lookup_insert_ne; [done|intros <-; destruct Hpi; congruence..]. }
      destruct (rc_phase z) as [|i|i p|i p|]; try done.
      * destruct Hz as (? & ? & u & Hpu & Hphu & ?). split_and!; [done..|]. exists u. split; [|done]. eapply Hext; [done|by right].
      * destruct Hz as (? & u & Hpu & Hphu). split; [done|]. exists u. split; [|done]. eapply Hext; [done|by left].
  - intros i d. rewrite Ew. intros (z & Hz & Epz)%(ri_wait _ Hi). destruct (Hph _ _ Hz) as (z' & Hz' & E & _).
    exists z'. by rewrite E.
  - intros z [(z0 & Hz0 & -> & -> & ->)|(-> & -> & -> & Er)]%El; [|by exists x', y'].
    destruct (ri_live _ Hi _ Hz0) as (u & v & (Hu & Hv & E1 & E2) & E3).
    destruct (Hph _ _ Hu) as (u' & Hu' & F1 & _), (Hph _ _ Hv) as (v' & Hv' & F2 & F3). exists u', v'.
    unfold joined. rewrite F1, F2. split; [done|auto].
Qed.

(** A write does not change what was read. *)
Record same_but_out (x x' : rconn) : Prop := {
  so_phase : rc_phase x' = rc_phase x;
  so_read : data_read x' = data_read x;
  so_handler : rc_handler x' = rc_handler x;
  so_bounds : bounds_ok x → bounds_ok x';
  so_open : rc_open x' = rc_open x;
  so_intact : intact x' = intact x;
  so_accepted : rc_accepted x' = rc_accepted x;
  so_deadline : rc_deadline x' = rc_deadline x;
  so_asked id : asked x id → asked x' id;
}.

Lemma write_same now data x : same_but_out x (conn_write now data x).
Proof. unfold conn_write. by destruct (_ && _). Qed.

Lemma intact_spec x : intact x = true ↔ rc_open x = true ∧ rc_eof x = false.
Proof. unfold intact. by rewrite andb_true_iff, negb_true_iff. Qed.

Lemma carried_same now id x x' y y' :
  rc_out x' = rc_out x → intact x' = intact x → rc_accepted x' = rc_accepted x → (told now x → told now x') →
  data_read y' = data_read y → carried now id x y → carried now id x' y'.
Proof.
  intros Eo Ei Ea Ht Ed (ack & d1 & e & d2 & Hg & Ho & He & Hd). exists ack, d1, e, d2.
  unfold greeting, overdue in *. rewrite Eo, Ei, Ea, Ed. split_and!; [done..|naive_solver|done].
Qed.

(** The acknowledgement, written or lost. *)
Lemma carried_ack now id x x' y :
  rc_out x = [] → data_read y = [] → rc_deadline x = initial_deadline x →
  rc_out x' = rc_out (conn_write now (sendConnectAck id) x) → intact x' = intact x → rc_accepted x' = rc_accepted x →
  carried now id x' y.
Proof.
  intros Ho Hd Hdl Eo Ei Ea. unfold conn_write, writable in Eo. fold (intact x) in Eo.
  enough (greeting now id (rc_out x') x') as Hg.
  { exists (rc_out x'), [], [], []. rewrite Hd. split_and!; [done|cbn; by rewrite app_nil_r|by left|by destruct (intact x')]. }
  unfold greeting, overdue. rewrite Eo, Ei, Ea. unfold intact, expired. rewrite Hdl, Ho. cbn.
  destruct (rc_open x), (rc_eof x), (Z.leb_spec (rc_accepted x + RelayTimeout) now); cbn; auto.
Qed.

Lemma second_not_told now id p x x' : rc_phase x = PhSecond id p → told now x → told now x'.
Proof. intros E [_ Ht]. by rewrite E in Ht. Qed.

Lemma greet_inv s c y wc id g :
  rinv s → r_conns s !! c = Some y → rc_handler y = HGreet wc id g → rinv (greet s c y wc id g).
Proof.
  intros Hi Hc Hh. pose proof (handler_phase _ _ _ Hi Hc) as Hj. rewrite Hh in Hj. destruct Hj as [x Hj].
  destruct (joined_link _ _ _ _ _ _ Hi Hj) as (Hne & Bx & By & Ax & Ay & Hf & C1 & C2 & Hg).
  pose proof Hj as (Hx & _ & Px & Py). unfold greeted in Hg. rewrite Hh in *. destruct Hg as (_ & _ & Dx & Dy & Ly & Lx).
  assert (<[wc := x]> (r_conns s) = r_conns s) as Eid by by apply insert_id.
  destruct g; cbn [greet acked_first acked_second carried_if] in *; rewrite ?(alter_insert_eq' _ _ _ _ Hx).
  - pose proof (write_same (r_now s) (sendConnectAck id) x) as Sx.
    eapply (pair_update s); [done|exact Hj|done..|by left; apply live_same|apply Sx|done|apply Sx|by rewrite Hh|by apply Sx|done|by apply Sx|done|].
    split_and!; [apply (carried_ack _ _ x); try done; apply Sx|done|]. unfold greeted, initial_deadline. cbn.
    by rewrite (so_deadline _ _ Sx), (so_accepted _ _ Sx), (so_read _ _ Sx).
  - pose proof (write_same (r_now s) (sendConnectAck id) y) as Sy.
    eapply (pair_update s); [done|exact Hj|cbn; by rewrite Eid|done..|by left; apply live_same|done|apply Sy|done|by rewrite Hh|done|by apply Sy|done|by apply Sy|].
    split_and!; [|apply (carried_ack _ _ y); try done; apply Sy|].
    + eapply carried_data; [|done]. exact (so_read _ _ Sy).
    + unfold greeted, initial_deadline. cbn. rewrite (so_deadline _ _ Sy), (so_accepted _ _ Sy). split_and!; try done. exact (eq_trans (so_read _ _ Sy) Dy).
  - eapply (pair_update s); [done|exact Hj|done|done|done|by left; apply live_same|done|done|done|by rewrite Hh|done..|].
    split_and!; [by apply (carried_same _ _ x _ y)|apply (carried_same _ _ y _ x); try done; by eapply second_not_told|done].
  - eapply (pair_update s); [done|exact Hj|cbn; by rewrite Eid|done|done| |done..|].
    + intros z [Hz|Hz]%elem_of_app; [left; by apply live_same|right]. by apply list_elem_of_singleton in Hz as ->.
    + split_and!; [done|apply (carried_same _ _ y _ x); try done; by eapply second_not_told|done].
Qed.

(** *** The timer *)
Lemma overdue_expired now x : rc_deadline x = initial_deadline x → overdue now x → expired now x = true.
Proof. intros E Ho. unfold expired. rewrite E. cbn. by apply Z.leb_le. Qed.

Lemma expired_write now data x : expired now x = true → conn_write now data x = x.
Proof. intros E. unfold conn_write, writable. by rewrite E, andb_false_r. Qed.

Lemma do_timeout_inv s c x t id :
  rinv s → r_conns s !! c = Some x → rc_handler x = HSelect t id → rinv (do_timeout s c x id).
Proof.
  intros Hi Hc Hh. pose proof (proj1 (ri_conn _ Hi _ _ Hc)) as Hb.
  apply (rinv_quiet s); [done| |done|apply delete_subseteq|exact (live_same s)].
  eapply quiet_map_insert; [apply Hi|done|]. apply quiet_stage; [done|]. right. by rewrite Hh.
Qed.

(** Waiting for a counterpart, or the first peer of a session. *)
Definition is_first (x : rconn) : Prop := match rc_phase x with PhWaiting _ | PhFirst _ _ => True | _ => False end.

Lemma quiet_told now x m id p :
  bounds_ok x → rc_handler x = HReply m → m = timeout_msg → rc_phase x = PhFirst id p → rc_deadline x = None → overdue now x →
  quiet now x (set_handler HReturn (conn_write now (relay_sendError m) x)).
Proof.
  intros Hb Hh -> Hp Hd Ho. pose proof (write_same now timeout_error x) as Sx. fold timeout_error.
  assert (hstep (rc_handler x) HReturn) as Hs by (right; by rewrite Hh).
  constructor; try apply Sx; try done; [unfold conn_write; by destruct (_ && _)..|].
  unfold conn_write. fold (intact x). destruct (writable now x && _); [right|by left]. split_and!; eauto 10.
Qed.

Lemma do_error_inv s c x msg :
  rinv s → (is_first x → overdue (r_now s) x) → r_conns s !! c = Some x → rc_handler x = HReply msg →
  rinv (do_error s c x msg).
Proof.
  intros Hi Hov Hc Hh. pose proof (ri_conn _ Hi _ _ Hc) as [Hb Hok]. unfold is_first in Hov.
  assert (rc_deadline x = initial_deadline x → overdue (r_now s) x → rinv (do_error s c x msg)) as Hlost.
  { intros Hd Ho. unfold do_error. rewrite expired_write by by apply overdue_expired.
    eapply rinv_quiet_conn; [done..|]. apply quiet_stage; [done|]. right. by rewrite Hh. }
  destruct (rc_phase x) as [|id|id p|id p|] eqn:Ep; rewrite ?Hh in Hok.
  - by destruct Hok as (_ & _ & ?).
  - apply Hlost; [apply Hok|auto].
  - destruct Hok as (_ & Hm & y & Hy & _ & _ & _ & Hg).
    assert (rc_deadline x = initial_deadline x ∨ rc_deadline x = None) as [Hd|Hd].
    { unfold greeted in Hg. destruct (rc_handler y) as [| | | | | |? ? []|]; naive_solver. }
    + apply Hlost; auto.
    + unfold do_error. eapply rinv_quiet_conn; [done..|]. by eapply quiet_told; auto.
  - pose proof (handler_phase _ _ _ Hi Hc) as _. destruct Hok as (_ & y & Hy & Epy).
    destruct (joined_link s id p c y x Hi) as (_ & _ & _ & _ & _ & _ & _ & _ & Hg); [done|]. unfold greeted in Hg. by rewrite Hh in Hg.
  - pose proof (write_same (r_now s) (relay_sendError msg) x) as Sx. destruct Hok as [Ho Hr].
    eapply solo_conn; [done|done|by right|unfold unpaired; cbn; by rewrite (so_phase _ _ Sx), Ep|].
    split; [exact (so_bounds _ _ Sx Hb)|]. cbn. rewrite (so_phase _ _ Sx), Ep. unfold conn_write. case_match; [right|by left].
    exists msg. cbn. by rewrite Ho.
Qed.

(** *** Copying *)
Lemma link_relay now c id x y :
  rc_handler y = HRelay →
  link now c id x y ↔ carried now id x y ∧ carried now id y x ∧ rc_deadline x = None ∧ rc_deadline y = None.
Proof. intros E. unfold link, greeted. by rewrite E. Qed.

Lemma read_more n x : bounds_ok x → (n ≤ length (unread x))%nat →
  bounds_ok (conn_read n x) ∧ data_read (conn_read n x) = data_read x ++ take n (unread x).
Proof.
  intros [H1 H2] Hn. unfold unread in *. rewrite length_drop in Hn. split; [unfold bounds_ok; cbn; lia|].
  unfold data_read. cbn. by apply slice_snoc.
Qed.

(** Source and destination of the loop in one direction. *)
Definition ends (ab : bool) {A} (a b : A) : A * A := if ab then (a, b) else (b, a).

(** The connections of a running loop: no deadline is left. *)
Record looping (s : relay) (z : rsess) (ab : bool) (src dst : nat) (x y : rconn) : Prop := {
  lp_joined : joined (r_conns s) (rs_ID z) (rs_PeerA z) (rs_PeerB z) (ends ab x y).1 (ends ab x y).2;
  lp_relay : rc_handler (ends ab x y).2 = HRelay;
  lp_ends : (rs_PeerA z, rs_PeerB z) = ends ab src dst;
  lp_src : r_conns s !! src = Some x;
  lp_dst : r_conns s !! dst = Some y;
  lp_ne : src ≠ dst;
  lp_bounds : bounds_ok x ∧ bounds_ok y;
  lp_asked : asked x (rs_ID z) ∧ asked y (rs_ID z);
  lp_carried : carried (r_now s) (rs_ID z) x y ∧ carried (r_now s) (rs_ID z) y x;
  lp_deadline : rc_deadline x = None ∧ rc_deadline y = None;
}.

Lemma loop_looping s z ab src dst :
  rinv s → z ∈ r_live s → loop_ends z ab = Some (src, dst) → ∃ x y, looping s z ab src dst x y.
Proof.
  intros Hi Hz Hl. destruct (ri_live _ Hi _ Hz) as (x & y & Hj & Hr).
  destruct (joined_link _ _ _ _ _ _ Hi Hj) as (Hne & ? & ? & ? & ? & _ & Hlk).
  apply link_relay in Hlk as (? & ? & ? & ?); [|done]. pose proof Hj as (Hx & Hy & _).
  unfold loop_ends in Hl. destruct ab; (destruct (_ z); [done|]); injection Hl as <- <-; [exists x, y|exists y, x];
    by constructor.
Qed.

(** Data of [x] is read, and [y] changes in nothing but what was written to it. *)
Lemma loop_update s s' z ab src dst x y n y' :
  rinv s → looping s z ab src dst x y → (n ≤ length (unread x))%nat → same_but_out y y' →
  r_conns s' = <[dst := y']> (<[src := conn_read n x]> (r_conns s)) → r_now s' = r_now s → r_waiting s' = r_waiting s →
  (∀ z, z ∈ r_live s' → ∃ z0, z0 ∈ r_live s ∧ same_peers z z0) →
  carried (r_now s) (rs_ID z) y' (conn_read n x) → rinv s'.
Proof.
  intros Hi [Hj Hr He Hx Hy Hne [Bx By] [Ax Ay] [C1 C2] [Lx Ly]] Hn Sy Em En Ew El Hc.
  destruct (read_more n x Bx Hn) as [Bx' _].
  assert (carried (r_now s) (rs_ID z) (conn_read n x) y') as Hc' by (apply (carried_same _ _ x _ y); try done; apply Sy).
  assert (rc_deadline y' = None) as Ly' by by rewrite (so_deadline _ _ Sy).
  destruct ab; cbn in *; injection He as Ea Eb; rewrite Ea, Eb in *.
  - eapply (pair_update s s' (rs_ID z) src dst x y); [done|done|done|done|done|by left; apply El|done|apply Sy|done| |done|by apply Sy|done|by apply Sy|].
    + by rewrite (so_handler _ _ Sy).
    + apply link_relay; [by rewrite (so_handler _ _ Sy)|done].
  - eapply (pair_update s s' (rs_ID z) dst src y x y' (conn_read n x)); [done|done| |done|done|by left; apply El|apply Sy|done|apply Sy|done|by apply Sy|done|by apply Sy|done|].
    + by rewrite insert_insert_ne.
    + by apply link_relay.
Qed.

Lemma live_done s k ab z z1 : r_live s !! k = Some z → z1 ∈ <[k := set_done ab z]> (r_live s) →
  ∃ z0, z0 ∈ r_live s ∧ same_peers z1 z0.
Proof.
  intros Hk [i Hi]%list_elem_of_lookup. apply list_lookup_insert_Some in Hi as [(-> & <- & _)|(_ & Hi)].
  - exists z. split; [by eapply list_elem_of_lookup_2|]. by destruct ab.
  - exists z1. split; [by eapply list_elem_of_lookup_2|done].
Qed.

Lemma writable_paired now x : rc_deadline x = None → writable now x = rc_open x.
Proof. intros E. unfold writable, expired. by rewrite E, andb_true_r. Qed.

(** Data read from [x] and written to [y]. *)
Lemma carried_more now id n x y :
  bounds_ok x → (n ≤ length (unread x))%nat → rc_deadline y = None → carried now id y x →
  carried now id (conn_write now (take n (unread x)) y) (conn_read n x).
Proof.
  intros Hb Hn Hd (ack & d1 & e & d2 & Hg & Ho & He & Hc). destruct (read_more n x Hb Hn) as [_ Hr].
  pose proof (write_same now (take n (unread x)) y) as Sy.
  exists ack, d1, e, (if intact y then d2 ++ take n (unread x) else d2).
  unfold greeting, told, overdue in *. rewrite (so_intact _ _ Sy), (so_accepted _ _ Sy), (so_phase _ _ Sy), (so_handler _ _ Sy), Hr.
  split_and!; [done| |done|].
  - unfold conn_write. rewrite writable_paired by done. fold (intact y). destruct (intact y); [|done]. cbn.
    by rewrite Ho, <- !app_assoc.
  - destruct (intact y); [by rewrite app_assoc, Hc|by apply prefix_app_r].
Qed.

(** Data read from [x] and lost: [y] is closed. *)
Lemma carried_lost now id n x y :
  bounds_ok x → (n ≤ length (unread x))%nat → intact y = false → carried now id y x → carried now id y (conn_read n x).
Proof.
  intros Hb Hn Hy (ack & d1 & e & d2 & Hg & Ho & He & Hc). destruct (read_more n x Hb Hn) as [_ Hr].
  exists ack, d1, e, d2. rewrite Hy, Hr in *. split_and!; [done..|]. by apply prefix_app_r.
Qed.

Lemma copy_inv s k ab n ok s' : rinv s → copyWithHeader s k ab n ok = Some s' → rinv s'.
Proof.
  intros Hi. unfold copyWithHeader. destruct (r_live s !! k) as [z|] eqn:Ek; [|done]. cbn.
  destruct (loop_ends z ab) as [[src dst]|] eqn:El; [|done]. cbn.
  assert (z ∈ r_live s) as Hz by by eapply list_elem_of_lookup_2.
  destruct (loop_looping _ _ _ _ _ Hi Hz El) as (x & y & Hl). pose proof Hl as [_ _ _ Hx Hy Hne [Bx By] _ [C1 C2] [Lx Ly]].
  rewrite Hx, Hy. cbn. case_bool_decide as Hg; [|done]. destruct Hg as (Hox & _ & Hn & _ & Hun).
  rewrite writable_paired by done. destruct ok; [destruct (rc_open y) eqn:Eo; [|done]|].
  - intros [= <-]. eapply loop_update; [done|done|done|apply write_same| |done..|exact (live_same s)|by apply carried_more].
    cbn. apply alter_insert_eq'. by rewrite lookup_insert_ne.
  - destruct (_ || _) eqn:Eo; [|done]. intros [= <-].
    eapply (loop_update s _ z ab src dst x y n y); [done..| |done|done|exact (λ z1, live_done s k ab z z1 Ek)|].
    + cbn. rewrite (insert_id (<[src := _]> _) dst); [done|]. by rewrite lookup_insert_ne.
    + apply carried_lost; try done. unfold intact. by destruct (rc_open y), (rc_eof y).
Qed.

Lemma copy_end_inv s k ab s' : rinv s → copy_end s k ab = Some s' → rinv s'.
Proof.
  intros Hi. unfold copy_end. destruct (r_live s !! k) as [z|] eqn:Ek; [|done]. cbn.
  destruct (loop_ends z ab) as [[src dst]|]; [|done]. cbn. destruct (r_conns s !! src) as [x|]; [|done]. cbn.
  case_bool_decide; [|done]. intros [= <-].
  apply (rinv_quiet s); [done|apply quiet_map_refl, Hi|done..|intros z1; by apply live_done].
Qed.

Lemma quiet_map_alter_close now m c : conns_ok now m → quiet_map now m (alter conn_close c m).
Proof.
  intros Hok. destruct (m !! c) as [x|] eqn:Hc.
  - rewrite (alter_insert_eq' _ _ _ _ Hc). eapply quiet_map_insert; [done..|]. apply quiet_close, (Hok _ _ Hc).
  - rewrite alter_id; [by apply quiet_map_refl|]. congruence.
Qed.

Lemma session_end_inv s k s' : rinv s → session_end s k = Some s' → rinv s'.
Proof.
  intros Hi. unfold session_end. destruct (r_live s !! k) as [z|] eqn:Ek; [|done]. cbn.
  destruct (_ && _); [|done]. intros [= <-].
  set (s1 := with_conns s (alter conn_close (rs_PeerA z) (r_conns s))).
  assert (rinv s1) as Hi1 by (apply (rinv_quiet s); [done|apply quiet_map_alter_close, Hi|done..|exact (live_same s)]).
  apply (rinv_quiet s1); [done|apply quiet_map_alter_close, Hi1|done..|].
  intros z1 Hz1. cbn in Hz1. exists z1. split; [|done]. cbn.
  apply list_elem_of_lookup in Hz1 as [i Hz1]. apply list_elem_of_lookup.
  destruct (decide (i < k)%nat).
  - exists i. by rewrite list_lookup_delete_lt in Hz1.
  - exists (S i). by rewrite list_lookup_delete_ge in Hz1 by lia.
Qed.

Lemma close_inv s : rinv s → rinv (relay_Close s).
Proof.
  intros Hi. apply (rinv_quiet s); [done| |done..|exact (live_same s)]. cbn. split.
  - intros c x Hc. exists (close_conn s c x). rewrite map_lookup_imap, Hc. split; [done|].
    pose proof (proj1 (ri_conn _ Hi _ _ Hc)) as Hb. unfold close_conn.
    destruct (in_table s c); [by apply quiet_close|by apply quiet_refl].
  - intros c x'. rewrite map_lookup_imap. destruct (r_conns s !! c); [eauto|done].
Qed.

(** ** First peers keep their timer, which is not before their deadline *)
Definition ticking (now : Z) (x : rconn) : Prop :=
  rc_accepted x ≤ now ∧ (∀ t id, rc_handler x = HSelect t id → rc_accepted x ≤ t) ∧
  (is_first x → (∀ m, rc_handler x = HReply m → overdue now x) ∧ (rc_open x = true → rc_handler x ≠ HOver)).

Definition all_ticking (now : Z) (m : gmap nat rconn) : Prop := map_Forall (λ _, ticking now) m.

Lemma ticking_same now x x' : same_but_out x x' → ticking now x → ticking now x'.
Proof.
  intros Sx. unfold ticking, is_first, overdue.
  by rewrite (so_phase _ _ Sx), (so_handler _ _ Sx), (so_open _ _ Sx), (so_accepted _ _ Sx).
Qed.

Lemma ticking_write now now' data x : ticking now x → ticking now (conn_write now' data x).
Proof. apply ticking_same, write_same. Qed.

Lemma ticking_close now x : ticking now x → ticking now (conn_close x).
Proof. intros (Ha & Ht & Hf). split_and!; [done..|]. intros [? _]%Hf. by split. Qed.

(** Stages without a timer, in a connection that may stay open. *)
Lemma ticking_stage now x h :
  ticking now x → match h with HSelect _ _ | HReply _ | HOver => False | _ => True end → ticking now (set_handler h x).
Proof. intros (Ha & _) Hh. split_and!; [done|cbn; by intros t id ->|]. cbn. intros _. split; [by intros m ->|by intros _ ->]. Qed.

Lemma ticking_alter now (m : gmap nat rconn) c g :
  (∀ x, ticking now x → ticking now (g x)) → all_ticking now m → all_ticking now (alter g c m).
Proof.
  intros Hg Hm d y. rewrite lookup_alter_Some. intros [(-> & x & Hx & ->)|[_ Hd]]; [apply Hg|]; by eapply Hm.
Qed.

Lemma pair_ticking s c x id :
  rinv s → ticking (r_now s) x → all_ticking (r_now s) (r_conns s) →
  all_ticking (r_now s) (r_conns (pair_or_wait s c x id)).
Proof.
  intros Hi (Ha & _) Hm. unfold pair_or_wait. destruct (r_waiting s !! id) as [wc|] eqn:Ew; cbn.
  - destruct (ri_wait _ Hi _ _ Ew) as (y & Hy & Epy). rewrite (alter_insert_eq' _ _ _ _ Hy).
    destruct (Hm _ _ Hy) as (Ha' & Ht' & Hf'). unfold is_first in Hf'. rewrite Epy in Hf'.
    apply map_Forall_insert_2; [by split_and!|apply map_Forall_insert_2; [by split_and!|done]].
  - apply map_Forall_insert_2; [|done]. split_and!; [done|by intros t i [= <- _]|]. by intros _.
Qed.

Lemma greet_ticking s c x wc id g :
  ticking (r_now s) x → all_ticking (r_now s) (r_conns s) → all_ticking (r_now s) (r_conns (greet s c x wc id g)).
Proof.
  intros Hx Hm. destruct g; cbn; (apply map_Forall_insert_2; [by apply ticking_stage; [try apply ticking_write|]|]); try done.
  - apply ticking_alter; [|done]. intros y. apply ticking_write.
  - by apply ticking_alter.
Qed.

Lemma do_handle_ticking s c x s' :
  rinv s → all_ticking (r_now s) (r_conns s) → r_conns s !! c = Some x → do_handle s c x = Some s' →
  r_now s' = r_now s ∧ all_ticking (r_now s) (r_conns s').
Proof.
  intros Hi Hm Hx. pose proof (Hm _ _ Hx) as Ht. pose proof Ht as (Ha & _).
  assert (∀ h, (∀ t id, h ≠ HSelect t id) →
    all_ticking (r_now s) (<[c := set_handler h (set_phase PhOver x)]> (r_conns s))) as Hr.
  { intros h Hh. apply map_Forall_insert_2; [|done]. split_and!; [done| |done]. cbn. intros t id ->. by edestruct Hh. }
  unfold do_handle. destruct (expired _ _); [intros [= <-]; split; [done|by apply Hr]|].
  destruct (read_connect _) as [[[|msg|id] r]| |]; try done.
  - destruct (rc_eof x); [|done]. intros [= <-]. split; [done|by apply Hr].
  - intros [= <-]. split; [done|by apply Hr].
  - intros [= <-]. split; [done|]. apply map_Forall_insert_2; [|done]. by apply ticking_stage.
Qed.

Lemma copy_ticking s k ab n ok s' :
  all_ticking (r_now s) (r_conns s) → copyWithHeader s k ab n ok = Some s' →
  r_now s' = r_now s ∧ all_ticking (r_now s) (r_conns s').
Proof.
  intros Hm. unfold copyWithHeader. destruct (r_live s !! k) as [z|]; [|done]. cbn.
  destruct (loop_ends z ab) as [[src dst]|]; [|done]. cbn.
  destruct (r_conns s !! src) as [x|] eqn:Ex; [|done]. cbn. destruct (r_conns s !! dst) as [y|]; [|done]. cbn.
  case_bool_decide; [|done].
  assert (all_ticking (r_now s) (<[src := conn_read n x]> (r_conns s))) as Hm'
    by (apply map_Forall_insert_2; [exact (Hm _ _ Ex)|done]).
  destruct ok; (case_match; [|done]); intros [= <-]; [|done].
  split; [done|]. apply ticking_alter; [|done]. intros; by apply ticking_write.
Qed.

Lemma close_ticking s : all_ticking (r_now s) (r_conns s) → all_ticking (r_now s) (r_conns (relay_Close s)).
Proof.
  intros Hm c x'. cbn. rewrite map_lookup_imap. destruct (r_conns s !! c) as [x|] eqn:Ec; [|done]. intros [= <-].
  pose proof (Hm _ _ Ec) as Hx. unfold close_conn. destruct (in_table s c); [by apply ticking_close|done].
Qed.

(** ** Every action *)
Definition rok (s : relay) : Prop := rinv s ∧ all_ticking (r_now s) (r_conns s).

Lemma peer_send_inv s c x data :
  rinv s → r_conns s !! c = Some x → rc_eof x = false →
  rinv (with_conns s (<[c := mkRconn (rc_hist x ++ data) (rc_pos x) (rc_out x) (rc_open x) false
    (rc_accepted x) (rc_deadline x) (rc_handler x) (rc_phase x) (rc_req x)]> (r_conns s))).
Proof.
  intros Hi Hc Ee. eapply rinv_quiet_conn; [done..|]. destruct (proj1 (ri_conn _ Hi _ _ Hc)) as [B1 B2].
  constructor; cbn; auto.
  - unfold bounds_ok. cbn. rewrite length_app. lia.
  - unfold data_read. cbn. by apply slice_app_l.
  - by apply prefix_app_r.
  - by left.
  - left. split; [done|]. unfold intact. cbn. by rewrite Ee.
Qed.

Lemma peer_close_inv s c x :
  rinv s → r_conns s !! c = Some x →
  rinv (with_conns s (<[c := mkRconn (rc_hist x) (rc_pos x) (rc_out x) (rc_open x) true
    (rc_accepted x) (rc_deadline x) (rc_handler x) (rc_phase x) (rc_req x)]> (r_conns s))).
Proof.
  intros Hi Hc. eapply rinv_quiet_conn; [done..|]. pose proof (proj1 (ri_conn _ Hi _ _ Hc)) as Hb.
  constructor; cbn; auto; [by left|]. left. split; [done|]. unfold intact. cbn. by rewrite andb_false_r.
Qed.

Lemma relay_step_inv s a s' : rok s → relay_step s a = Some s' → rinv s'.
Proof.
  intros [Hi Ht]. destruct a as [c|c data|c|dt|c|c|c|c|c|c|k ab n ok|k ab|k|c| |]; cbn [relay_step];
    try (destruct (r_conns s !! c) as [x|] eqn:Ec; cbn [mbind option_bind]; try done).
  - destruct (r_accepting s); [|done]. intros [= <-]. eapply (solo_inv s); try done; [congruence|by left].
  - destruct (rc_eof x) eqn:Ee; [done|]. intros [= <-]. by apply peer_send_inv.
  - intros [= <-]. by apply peer_close_inv.
  - destruct (Z.leb_spec 0 dt); [|done]. intros [= <-]. destruct Hi. constructor; try done. cbn.
    eapply conns_ok_later; [|done]. lia.
  - destruct (rc_handler x) eqn:Eh; try done. by apply do_handle_inv.
  - destruct (rc_handler x) eqn:Eh; try done. intros [= <-]. by apply pair_or_wait_inv.
  - destruct (rc_handler x) eqn:Eh; try done. intros [= <-]. by apply greet_inv.
  - destruct (rc_handler x) eqn:Eh; try done. destruct (_ <=? _); [|done]. intros [= <-]. by eapply do_timeout_inv.
  - destruct (rc_handler x) eqn:Eh; try done. intros [= <-]. apply do_error_inv; try done.
    intros Hf. by eapply (Ht _ _ Ec).
  - destruct (rc_handler x) eqn:Eh; try done. intros [= <-]. eapply rinv_quiet_conn; [done..|].
    apply quiet_return; [apply (ri_conn _ Hi _ _ Ec)|done].
  - by apply copy_inv.
  - by apply copy_end_inv.
  - by apply session_end_inv.
  - destruct (rc_handler x) eqn:Eh; try done. destruct (r_done s); [|done]. intros [= <-].
    eapply rinv_quiet_conn; [done..|]. apply quiet_stage; [apply (ri_conn _ Hi _ _ Ec)|]. right. by rewrite Eh.
  - destruct (r_stage s); try done. intros [= <-]. destruct Hi. by constructor.
  - destruct (r_stage s); try done. intros [= <-]. by apply close_inv.
Qed.

Lemma relay_step_ticking s a s' : rok s → relay_step s a = Some s' → all_ticking (r_now s') (r_conns s').
Proof.
  intros [Hi Hm]. destruct a as [c|c data|c|dt|c|c|c|c|c|c|k ab n ok|k ab|k|c| |]; cbn [relay_step];
    try (destruct (r_conns s !! c) as [x|] eqn:Ec; cbn [mbind option_bind]; try done; try pose proof (Hm _ _ Ec) as Hx).
  - destruct (r_accepting s); [|done]. intros [= <-]. apply map_Forall_insert_2; [by split_and!|done].
  - destruct (rc_eof x); [done|]. intros [= <-]. by apply map_Forall_insert_2.
  - intros [= <-]. by apply map_Forall_insert_2.
  - destruct (Z.leb_spec 0 dt); [|done]. intros [= <-]. cbn. intros c x Hc. destruct (Hm _ _ Hc) as (Ha & Ht & Hp).
    split_and!; [lia|done|]. intros [Hr Hh]%Hp. split; [|done]. intros m Em. eapply overdue_later; [|by eapply Hr]. lia.
  - destruct (rc_handler x) eqn:Eh; try done. intros (-> & ?)%do_handle_ticking; done.
  - destruct (rc_handler x) eqn:Eh; try done. intros [= <-]. replace (r_now _) with (r_now s) by (unfold pair_or_wait; by case_match).
    by apply pair_ticking.
  - destruct (rc_handler x) eqn:Eh; try done. intros [= <-]. replace (r_now _) with (r_now s) by by destruct g. by apply greet_ticking.
  - destruct (rc_handler x) eqn:Eh; try done. destruct (Z.leb_spec (start + RelayTimeout) (r_now s)); [|done]. intros [= <-].
    apply map_Forall_insert_2; [|done]. destruct Hx as (Ha & Ht & Hp). specialize (Ht _ _ Eh). split_and!; [done..|].
    intros _. split; [|done]. intros m _. unfold overdue. cbn. lia.
  - destruct (rc_handler x) eqn:Eh; try done. intros [= <-]. apply map_Forall_insert_2; [|done].
    by apply ticking_stage; [apply ticking_write|].
  - destruct (rc_handler x) eqn:Eh; try done. intros [= <-]. apply map_Forall_insert_2; [|done].
    split_and!; [apply Hx|done|]. by split.
  - intros (-> & ?)%copy_ticking; done.
  - unfold copy_end. destruct (r_live s !! k) as [z|]; [|done]. cbn.
    destruct (loop_ends z ab) as [[src dst]|]; [|done]. cbn.
    destruct (r_conns s !! src) as [x|]; [|done]. cbn. case_bool_decide; [|done]. by intros [= <-].
  - unfold session_end. destruct (r_live s !! k) as [z|]; [|done]. cbn. destruct (_ && _); [|done].
    intros [= <-]. apply ticking_alter; [apply ticking_close|]. apply ticking_alter; [apply ticking_close|done].
  - destruct (rc_handler x) eqn:Eh; try done. destruct (r_done s); [|done]. intros [= <-].
    apply map_Forall_insert_2; [|done]. by apply ticking_stage.
  - destruct (r_stage s); try done. by intros [= <-].
  - destruct (r_stage s); try done. intros [= <-]. exact (close_ticking s Hm).
Qed.

Lemma relay_step_ok s a s' : rok s → relay_step s a = Some s' → rok s'.
Proof. intros Hok Hs. split; [by eapply relay_step_inv|by eapply relay_step_ticking]. Qed.

(** A property of the initial server that every action keeps holds after every
    run. *)
Lemma relay_run_ind (I : relay → Prop) :
  I NewRelayServer → (∀ s a s', I s → relay_step s a = Some s' → I s') →
  ∀ l s, relay_run NewRelayServer l = Some s → I s.
Proof.
  intros H0 Hs l. revert H0. generalize NewRelayServer as s0.
  induction l as [|a l IH]; intros s0 H0 s; cbn [relay_run]; [by intros [= <-]|].
  destruct (relay_step s0 a) as [s1|] eqn:E; [|done]. cbn. apply IH. by eapply Hs.
Qed.

Lemma relay_reachable l s : relay_run NewRelayServer l = Some s → rok s.
Proof.
  apply (relay_run_ind rok); [|exact relay_step_ok]. split; [apply rinv_new|apply map_Forall_empty].
Qed.

(** ** Theorems *)

(** C14: the relay keeps sessions apart. Whatever peers, handlers, timers and
    copying loops do and in whichever order, a connection that the server has
    written to has received either the error that answers a malformed request of
    its own, and nothing else, or the acknowledgement of the session id that it
    asked for itself, followed by a prefix of what exactly one other connection,
    which asked for the same id, sent after its own request (all of it that was
    read, as long as neither side has closed the connection). Two things can go
    wrong with that stream. The acknowledgement can be missing, but only from a
    connection that one side has closed or that is at least thirty seconds old.
    And the timeout error of a first peer's own timer can stand in it once, at any
    point after the acknowledgement, again only in a connection at least thirty
    seconds old. The
    same holds of the counterpart, once anything was written to it. *)
Theorem relay_isolation l s c x :
  relay_run NewRelayServer l = Some s → r_conns s !! c = Some x → rc_out x ≠ [] →
  (∃ msg, refused x msg ∧ rc_out x = relay_sendError msg) ∨
  (∃ id p y, r_conns s !! p = Some y ∧ p ≠ c ∧ asked x id ∧ asked y id ∧
     carried (r_now s) id x y ∧ (rc_out y = [] ∨ carried (r_now s) id y x)).
Proof.
  intros [Hi _]%relay_reachable Hx Ho. destruct (ri_conn _ Hi _ _ Hx) as [Hb Hok].
  assert (∀ b id y z, carried_if b (r_now s) id y z → rc_out y = [] ∨ carried (r_now s) id y z) as Hif
    by (intros []; cbn; auto).
  destruct (rc_phase x) as [|id|id p|id p|] eqn:Ep.
  - by destruct Hok.
  - by destruct Hok as (_ & ? & _).
  - right. destruct Hok as (_ & _ & y & Hy & Epy & _). destruct (joined_link s id c p x y Hi) as (? & _ & _ & ? & ? & _ & H1 & H2 & _); [done|].
    exists id, p, y. apply Hif in H1 as [?|?], H2; done.
  - right. destruct Hok as (_ & y & Hy & Epy). destruct (joined_link s id p c y x Hi) as (? & _ & _ & ? & ? & _ & H1 & H2 & _); [done|].
    exists id, p, y. apply Hif in H2 as [?|?], H1; done.
  - left. destruct (rc_handler x); try done; [by destruct Hok|..]; (destruct Hok as [?|(msg & ? & ?)]; [done|by exists msg]).
Qed.

Lemma relay_run_cons s a l s1 : relay_step s a = Some s1 → relay_run s (a :: l) = relay_run s1 l.
Proof. intros E. cbn [relay_run]. by rewrite E. Qed.

(** Once the timer has fired, the handler writes the error and closes the
    connection. *)
Lemma timeout_run s c x t id :
  r_conns s !! c = Some x → rc_handler x = HSelect t id → t + RelayTimeout ≤ r_now s →
  ∃ s', relay_run s [Timeout c; SendError c; Return c] = Some s' ∧ r_waiting s' = delete id (r_waiting s) ∧
    r_conns s' !! c = Some (set_handler HOver (conn_close
      (set_handler HReturn (conn_write (r_now s) timeout_error (set_handler (HReply timeout_msg) x))))).
Proof.
  intros Hx Hh Ht. set (x1 := set_handler (HReply timeout_msg) x).
  set (x2 := set_handler HReturn (conn_write (r_now s) timeout_error x1)).
  set (s1 := do_timeout s c x id). set (s2 := do_error s1 c x1 timeout_msg). exists (handler_return s2 c x2).
  assert (r_conns s1 !! c = Some x1) as Hx1 by apply lookup_insert_eq.
  assert (r_conns s2 !! c = Some x2) as Hx2 by apply lookup_insert_eq. split_and!; [|done|apply lookup_insert_eq].
  rewrite (relay_run_cons _ _ _ s1), (relay_run_cons _ _ _ s2), (relay_run_cons _ _ _ (handler_return s2 c x2)); [done|..];
    cbn [relay_step]; rewrite ?Hx2, ?Hx1, ?Hx; cbn [mbind option_bind]; rewrite ?Hh; [done..|].
  by destruct (Z.leb_spec (t + RelayTimeout) (r_now s)); [|lia].
Qed.

(** The timer of a first peer's handler reports to the wrong peers. The
    handler never learns that its counterpart arrived: as long as the server has
    not closed the connection its timer is pending or has fired, and thirty
    seconds after the request it fires, deletes whatever waits under the session
    id by then, writes an error and closes the connection. A peer that is still
    waiting is closed without being told why, because the deadline of its
    connection has passed by then; a peer whose session is running gets the error
    written into the session's data. *)
Theorem first_peer_timer l s c x id :
  relay_run NewRelayServer l = Some s → r_conns s !! c = Some x → rc_open x = true →
  rc_phase x = PhWaiting id ∨ (∃ p, rc_phase x = PhFirst id p) →
  rc_handler x ≠ HOver ∧ first_stage id (rc_handler x) ∧
  ∀ t, rc_handler x = HSelect t id → t + RelayTimeout ≤ r_now s →
    ∃ s' x', relay_run s [Timeout c; SendError c; Return c] = Some s' ∧ r_conns s' !! c = Some x' ∧ rc_open x' = false ∧
      r_waiting s' !! id = None ∧
      (rc_phase x = PhWaiting id → rc_out x' = []) ∧
      (rc_deadline x = None → rc_eof x = false → rc_out x' = rc_out x ++ timeout_error).
Proof.
  intros [Hi Ht]%relay_reachable Hx Ho Ep. destruct (Ht _ _ Hx) as (_ & Htm & Htk).
  destruct (ri_conn _ Hi _ _ Hx) as [Hb Hok]. split_and!.
  - apply Htk; [|done]. unfold is_first. by destruct Ep as [-> |[? ->]].
  - destruct Ep as [Ep|[p Ep]]; rewrite Ep in Hok; apply Hok.
  - intros t Eh Hd. destruct (timeout_run _ _ _ _ _ Hx Eh Hd) as (s' & Hr & Hw & Hc). specialize (Htm _ _ Eh).
    exists s'. eexists. split; [done|]. split; [done|]. split; [done|]. split; [by rewrite Hw, lookup_delete_eq|]. split.
    + intros Ew. rewrite Ew in Hok. destruct Hok as (_ & Hout & _ & Hdl & _). cbn. rewrite expired_write; [done|].
      apply overdue_expired; [done|]. unfold overdue. cbn. lia.
    + intros Hdl He. unfold conn_write, writable, expired. cbn. by rewrite Ho, Hdl, He.
Qed.

(** ** Progress of the copying loops *)
Lemma copy_progress s k ab z src dst x y :
  rinv s → r_live s !! k = Some z → loop_ends z ab = Some (src, dst) →
  r_conns s !! src = Some x → r_conns s !! dst = Some y → rc_open x = true → intact y = true → unread x ≠ [] →
  ∃ n s' x' y', relay_step s (Copy k ab n true) = Some s' ∧ rinv s' ∧ r_live s' = r_live s ∧
    r_conns s' !! src = Some x' ∧ r_conns s' !! dst = Some y' ∧ rc_open x' = true ∧ intact y' = true ∧
    (length (unread x') < length (unread x))%nat ∧ rc_out y' ++ unread x' = rc_out y ++ unread x.
Proof.
  intros Hi Hk Hl Hx Hy Ox Iy Hu. destruct (proj1 (intact_spec y) Iy) as [Oy Ey].
  destruct (loop_looping s z ab src dst Hi) as (x1 & y1 & [_ _ _ Hx1 Hy1 Hne _ _ _ [Dx Dy]]);
    [by eapply list_elem_of_lookup_2|done|].
  assert (x1 = x) as -> by congruence. assert (y1 = y) as -> by congruence.
  assert (length (unread x) ≠ 0%nat) by by destruct (unread x).
  assert (∃ n, (0 < n ≤ length (unread x))%nat ∧ Z.of_nat n ≤ RelayBufferSize) as (n & Hn & Hb).
  { exists (Nat.min (length (unread x)) 1). unfold RelayBufferSize. lia. }
  set (y' := conn_write (r_now s) (take n (unread x)) y).
  set (s' := with_conns s (alter (conn_write (r_now s) (take n (unread x))) dst (<[src := conn_read n x]> (r_conns s)))).
  assert (relay_step s (Copy k ab n true) = Some s') as Hs.
  { cbn [relay_step]. unfold copyWithHeader. rewrite Hk. cbn. rewrite Hl. cbn. rewrite Hx, Hy. cbn.
    rewrite bool_decide_eq_true_2 by (split_and!; [done|unfold expired; by rewrite Dx|lia..]).
    by rewrite writable_paired, Oy. }
  exists n, s', (conn_read n x), y'. split; [done|]. split; [by eapply copy_inv|]. split; [done|]. split_and!.
  - cbn. by rewrite lookup_alter_ne, lookup_insert_eq.
  - cbn. by rewrite lookup_alter_eq, lookup_insert_ne, Hy.
  - done.
  - unfold y'. by rewrite (so_intact _ _ (write_same _ _ _)).
  - unfold unread in *. cbn. rewrite !length_drop in *. lia.
  - unfold y', conn_write. rewrite writable_paired, Oy, Ey by done. cbn. rewrite <- app_assoc. f_equal.
    unfold unread. cbn. rewrite <- drop_drop. apply take_drop.
Qed.

Lemma relay_run_app s l1 l2 : relay_run s (l1 ++ l2) = relay_run s l1 ≫= λ s1, relay_run s1 l2.
Proof. revert s. induction l1 as [|a l1 IH]; intros s; cbn; [done|]. destruct (relay_step s a); cbn; auto. Qed.

Lemma copy_all s k ab z src dst x y :
  rinv s → r_live s !! k = Some z → loop_ends z ab = Some (src, dst) →
  r_conns s !! src = Some x → r_conns s !! dst = Some y → rc_open x = true → intact y = true →
  ∃ l s' y', relay_run s l = Some s' ∧ r_conns s' !! dst = Some y' ∧ rc_out y' = rc_out y ++ unread x.
Proof.
  remember (length (unread x)) as m eqn:Hm. revert s x y Hm.
  induction m as [m IH] using lt_wf_ind. intros s x y -> Hi Hk Hl Hx Hy Ox Oy.
  destruct (decide (unread x = [])) as [Hu|Hu].
  - exists [], s, y. split; [done|]. split; [done|]. by rewrite Hu, app_nil_r.
  - destruct (copy_progress s k ab z src dst x y) as (n & s1 & x1 & y1 & Hs & Hi1 & El & Hx1 & Hy1 & Ox1 & Oy1 & Hlt & Eo);
      [done..|].
    destruct (IH (length (unread x1)) Hlt s1 x1 y1) as (l & s' & y' & Hr & Hy' & Ho); [done|done|by rewrite El|done..|].
    exists (Copy k ab n true :: l), s', y'. rewrite (relay_run_cons _ _ _ _ Hs). split; [done|]. split; [done|].
    by rewrite Ho, Eo.
Qed.

(** C35: delivery: in any reachable state, if the two connections of a session
    are open and the copying loop between them is running, the server can go on
    to a state in which everything the sender has sent and the server has not
    read yet has been written to the receiver, in order and with nothing in
    between. *)
Theorem relay_delivers l s k z ab src dst x y :
  relay_run NewRelayServer l = Some s → r_live s !! k = Some z → loop_ends z ab = Some (src, dst) →
  r_conns s !! src = Some x → r_conns s !! dst = Some y → rc_open x = true → intact y = true →
  ∃ l' s' y', relay_run s l' = Some s' ∧ r_conns s' !! dst = Some y' ∧ rc_out y' = rc_out y ++ unread x.
Proof. intros [Hi _]%relay_reachable. by apply copy_all. Qed.

(** The relay handshake: the server reads the session id out of a client's
    request of up to 256 bytes and leaves the data behind it, and rejects a
    longer one; the client reads the same id out of the acknowledgement, hands
    over the connection with exactly the peer's data on it, and reports the
    text of a rejection. *)
Theorem relay_handshake id rest :
  Z.of_nat (length id) < 2 ^ 32 →
  read_connect (stream_of (connect_request id ++ rest)) =
    (if MaxSessionID <? Z.of_nat (length id)
     then Ret (CrReject "session ID too long", stream_of (id ++ rest))
     else Ret (CrSession id, stream_of rest)) ∧
  relay_Connect true (stream_of (sendConnectAck id ++ rest)) = Ret (id, stream_of rest) ∧
  (∀ msg : string, Z.of_nat (length (bytes_of_string msg)) < 2 ^ 32 →
     relay_Connect true (stream_of (relay_sendError msg ++ rest)) = Err (RelayRefused (bytes_of_string msg))).
Proof.
  intros Hid.
  assert (∀ ty body, ReadFull 5 (stream_of (relay_frame ty body ++ rest))
    = (ty :: be_put 4 (u32 (Z.of_nat (length body))), ReadOk, stream_of (body ++ rest))) as Hh.
  { intros ty body. unfold relay_frame. cbn [app]. rewrite <- app_assoc.
    apply (ReadFull_exact 5 (ty :: be_put 4 (u32 (Z.of_nat (length body)))) (body ++ rest) None). reflexivity. }
  assert (∀ (ty : byte) (body : bytes), slicez (ty :: be_put 4 (u32 (Z.of_nat (length body)))) 1 5
    = Some (be_put 4 (u32 (Z.of_nat (length body))))) as Hs by reflexivity.
  assert (∀ body : bytes, Z.of_nat (length body) < 2 ^ 32 →
    be_get (be_put 4 (u32 (Z.of_nat (length body)))) = Z.of_nat (length body)) as Hg.
  { intros body Hb. rewrite be_get_put, u32_small by lia. apply Z.mod_small. simpl. lia. }
  assert (∀ body : bytes, ReadFull (Z.to_nat (Z.of_nat (length body))) (stream_of (body ++ rest)) = (body, ReadOk, stream_of rest)) as Hb.
  { intros body. rewrite Nat2Z.id. by apply (ReadFull_exact _ body rest None). }
  split_and!.
  - unfold read_connect, connect_request. rewrite Hh. cbn [head or_panic]. rewrite Ret_bind.
    rewrite decide_False by (intros E; by apply E). rewrite Hs, or_panic_bind. cbv zeta. rewrite Hg by done.
    destruct (MaxSessionID <? Z.of_nat (length id)); [done|]. by rewrite Hb.
  - unfold relay_Connect, sendConnectAck. cbn [negb]. rewrite Hh. cbn [head or_panic]. rewrite Ret_bind, Hs, or_panic_bind.
    cbv zeta. rewrite Hg by done. by rewrite Hb.
  - intros msg Hm. unfold relay_Connect, relay_sendError. cbn [negb]. rewrite Hh. cbn [head or_panic].
    rewrite Ret_bind, Hs, or_panic_bind. cbv zeta. rewrite Hg by done. rewrite decide_True by done. rewrite Hb.
    by rewrite Nat2Z.id, Nat.sub_diag, app_nil_r.
Qed.

(** ** Shutdown *)

(** Nothing is written to a connection that the server has closed, and it stays
    closed. *)
Definition final (x x' : rconn) : Prop := rc_open x = false → rc_open x' = false ∧ rc_out x' = rc_out x.
Definition finals (m m' : gmap nat rconn) : Prop := ∀ c x, m !! c = Some x → ∃ x', m' !! c = Some x' ∧ final x x'.

Lemma final_write now data x : final x (conn_write now data x).
Proof. intros Ho. unfold conn_write, writable. by rewrite Ho. Qed.

Lemma final_close x : final x (conn_close x).
Proof. done. Qed.

Lemma final_trans x y z : final x y → final y z → final x z.
Proof. intros H1 H2 Ho. destruct (H1 Ho) as [H3 <-]. by apply H2. Qed.

Lemma finals_refl m : finals m m.
Proof. intros c x Hc. by exists x. Qed.

Lemma finals_trans m1 m2 m3 : finals m1 m2 → finals m2 m3 → finals m1 m3.
Proof.
  intros H1 H2 c x (y & Hy & F1)%H1. destruct (H2 c y Hy) as (z & Hz & F2). exists z. eauto using final_trans.
Qed.

Lemma finals_insert m c x x' : m !! c = Some x → final x x' → finals m (<[c := x']> m).
Proof.
  intros Hc Hf d y Hd. rewrite lookup_insert. case_decide as E; [|by exists y].
  subst d. exists x'. split; [done|]. by replace y with x by congruence.
Qed.

Lemma finals_alter m c g : (∀ x, final x (g x)) → finals m (alter g c m).
Proof.
  intros Hg d y Hd. rewrite lookup_alter. case_decide; [|by exists y]. subst d. rewrite Hd. exists (g y). split; [done|apply Hg].
Qed.

Lemma final_error now data h x : final x (set_handler h (conn_write now data x)).
Proof. intros Ho. by apply (final_write now data x). Qed.

Lemma pair_finals s c x id :
  rinv s → r_conns s !! c = Some x → rc_handler x = HPair id → finals (r_conns s) (r_conns (pair_or_wait s c x id)).
Proof.
  intros Hi Hc Hh. destruct (asking _ _ _ _ Hi Hc Hh) as (Hp & _). unfold pair_or_wait.
  destruct (r_waiting s !! id) as [wc|] eqn:Ew; cbn; [|by eapply finals_insert].
  destruct (ri_wait _ Hi _ _ Ew) as (w & Hw & Hpw). assert (wc ≠ c) by congruence.
  eapply finals_trans; [by apply (finals_alter _ wc (set_phase (PhFirst id c)))|]. eapply finals_insert; [by rewrite lookup_alter_ne|done].
Qed.

Lemma greet_finals s c x wc id g :
  rinv s → r_conns s !! c = Some x → rc_handler x = HGreet wc id g → finals (r_conns s) (r_conns (greet s c x wc id g)).
Proof.
  intros Hi Hc Hh. pose proof (handler_phase _ _ _ Hi Hc) as Hj. rewrite Hh in Hj. destruct Hj as [y Hj].
  destruct (joined_link _ _ _ _ _ _ Hi Hj) as (Hne & _). destruct g; cbn.
  - eapply finals_trans; [apply finals_alter; intros; apply final_write|]. eapply finals_insert; [by rewrite lookup_alter_ne|done].
  - eapply finals_insert; [done|]. apply final_error.
  - eapply finals_trans; [by apply (finals_alter _ wc clear_deadline)|]. eapply finals_insert; [by rewrite lookup_alter_ne|done].
  - by eapply finals_insert.
Qed.

Lemma do_handle_finals s c x s' : r_conns s !! c = Some x → do_handle s c x = Some s' → finals (r_conns s) (r_conns s').
Proof.
  intros Hc. unfold do_handle. destruct (expired _ _); [intros [= <-]; by eapply finals_insert|].
  destruct (read_connect _) as [[[|msg|id] r]|e|]; try done; [destruct (rc_eof x); [|done]|..];
    intros [= <-]; by eapply finals_insert.
Qed.

Lemma copy_finals s k ab n ok s' : copyWithHeader s k ab n ok = Some s' → finals (r_conns s) (r_conns s').
Proof.
  unfold copyWithHeader. destruct (r_live s !! k) as [z|]; [|done]. cbn.
  destruct (loop_ends z ab) as [[src dst]|]; [|done]. cbn.
  destruct (r_conns s !! src) as [x|] eqn:Ex; [|done]. cbn. destruct (r_conns s !! dst) as [y|]; [|done]. cbn.
  case_bool_decide; [|done].
  assert (finals (r_conns s) (<[src := conn_read n x]> (r_conns s))) as Hm by by eapply finals_insert.
  destruct ok; (case_match; [|done]); intros [= <-]; [|done].
  eapply finals_trans; [done|]. apply finals_alter. intros; apply final_write.
Qed.

Lemma relay_step_finals s a s' : rinv s → relay_step s a = Some s' → finals (r_conns s) (r_conns s').
Proof.
  intros Hi. destruct a as [c|c data|c|dt|c|c|c|c|c|c|k ab n ok|k ab|k|c| |]; cbn [relay_step];
    try (destruct (r_conns s !! c) as [x|] eqn:Ec; cbn [mbind option_bind]; try done).
  - destruct (r_accepting s); [|done]. intros [= <-] d y Hd. cbn.
    exists y. split; [|done]. rewrite lookup_insert_ne; [done|congruence].
  - destruct (rc_eof x); [done|]. intros [= <-]. by eapply finals_insert.
  - intros [= <-]. by eapply finals_insert.
  - destruct (0 <=? dt); [|done]. intros [= <-]. apply finals_refl.
  - destruct (rc_handler x); try done. by apply do_handle_finals.
  - destruct (rc_handler x) eqn:Eh; try done. intros [= <-]. by apply pair_finals.
  - destruct (rc_handler x) eqn:Eh; try done. intros [= <-]. by apply greet_finals.
  - destruct (rc_handler x) eqn:Eh; try done. destruct (_ <=? _); [|done]. intros [= <-]. by eapply finals_insert.
  - destruct (rc_handler x) eqn:Eh; try done. intros [= <-]. eapply finals_insert; [done|apply final_error].
  - destruct (rc_handler x) eqn:Eh; try done. intros [= <-]. by eapply finals_insert.
  - apply copy_finals.
  - unfold copy_end. destruct (r_live s !! k) as [z|]; [|done]. cbn. destruct (loop_ends z ab) as [[src dst]|]; [|done]. cbn.
    destruct (r_conns s !! src); [|done]. cbn. case_bool_decide; [|done]. intros [= <-]. apply finals_refl.
  - unfold session_end. destruct (r_live s !! k) as [z|]; [|done]. cbn. destruct (_ && _); [|done].
    intros [= <-]. eapply finals_trans; apply finals_alter; intros; apply final_close.
  - destruct (rc_handler x) eqn:Eh; try done. destruct (r_done s); [|done]. intros [= <-]. by eapply finals_insert.
  - destruct (r_stage s); try done. intros [= <-]. apply finals_refl.
  - destruct (r_stage s); try done. intros [= <-] c x Hc. cbn. rewrite map_lookup_imap, Hc. cbn.
    eexists. split; [done|]. unfold close_conn. by destruct (in_table s c).
Qed.

Lemma relay_run_finals s l s' : rok s → relay_run s l = Some s' → finals (r_conns s) (r_conns s').
Proof.
  revert s. induction l as [|a l IH]; intros s Hi Hr; cbn in Hr; [injection Hr as <-; apply finals_refl|].
  destruct (relay_step s a) as [s1|] eqn:Es; [|done].
  eapply finals_trans; [eapply relay_step_finals; [apply Hi|done]|]. apply IH; [by eapply relay_step_ok|done].
Qed.

Lemma in_table_spec s c :
  in_table s c = true ↔
  (∃ id p, r_sessions s !! id = Some p ∧ (p.1 = c ∨ p.2 = c)) ∨ (∃ id, r_waiting s !! id = Some c).
Proof.
  unfold in_table. rewrite orb_true_iff, !existsb_exists. setoid_rewrite <- list_elem_of_In.
  setoid_rewrite orb_true_iff. setoid_rewrite bool_decide_eq_true. split.
  - intros [([id p] & Hin%elem_of_map_to_list & H)|([id d] & Hin%elem_of_map_to_list & <-)]; eauto.
  - intros [(id & p & Hp & H)|(id & Hp)]; [left; exists (id, p)|right; exists (id, c)];
      (split; [by apply elem_of_map_to_list|done]).
Qed.

Lemma delete_insert_same {A} (k : nat) (z : A) (l : list A) : delete k (<[k := z]> l) = delete k l.
Proof. revert k. induction l as [|a l IH]; intros [|k]; cbn; [done..|]. f_equal. apply IH. Qed.

Lemma loop_can_end s k z ab x :
  r_live s !! k = Some z → r_conns s !! (if ab : bool then rs_PeerA z else rs_PeerB z) = Some x → rc_open x = false →
  ∃ l, (length l ≤ 1)%nat ∧ relay_run s l = Some (with_live s (<[k := set_done ab z]> (r_live s))).
Proof.
  intros Hk Hx Ox. destruct (loop_ends z ab) as [[src dst]|] eqn:El.
  - exists [CopyEnd k ab]. split; [done|]. cbn. unfold copy_end. rewrite Hk. cbn. rewrite El. cbn.
    assert (src = if ab then rs_PeerA z else rs_PeerB z) as ->
      by (unfold loop_ends in El; destruct ab, z as [? ? ? [] []]; cbn in *; congruence).
    rewrite Hx. cbn. by rewrite bool_decide_true by auto.
  - exists []. split; [cbn; lia|]. cbn. rewrite list_insert_id; [by destruct s|]. rewrite Hk.
    unfold loop_ends in El. by destruct ab, z as [? ? ? [] []].
Qed.

(** The copying loops of a session whose connections are closed end, and with
    them the session. *)
Lemma session_can_end s k z x y :
  r_live s !! k = Some z → r_conns s !! rs_PeerA z = Some x → r_conns s !! rs_PeerB z = Some y →
  rc_open x = false → rc_open y = false →
  ∃ l s', (length l ≤ 3)%nat ∧ relay_run s l = Some s' ∧ r_live s' = delete k (r_live s).
Proof.
  intros Hk Hx Hy Ox Oy.
  assert (k < length (r_live s))%nat as Hlt by by eapply lookup_lt_Some.
  destruct (loop_can_end s k z true x) as (l1 & Hl1 & H1); [done..|].
  destruct (loop_can_end (with_live s (<[k := set_done true z]> (r_live s))) k (set_done true z) false y) as (l2 & Hl2 & H2);
    [by apply list_lookup_insert_eq|done..|].
  cbn in H2. rewrite list_insert_insert_eq in H2.
  eexists (l1 ++ l2 ++ [SessionEnd k]), _. split; [rewrite !length_app; cbn; lia|].
  rewrite !relay_run_app, H1. cbn. rewrite relay_run_app. unfold set_done in H2. cbn in H2. unfold set_done.
  rewrite H2. cbn. unfold session_end. cbn. rewrite list_lookup_insert_eq by done. cbn. split; [done|].
  cbn. apply delete_insert_same.
Qed.

Lemma greet_step s c y wc id g :
  r_conns s !! c = Some y → rc_handler y = HGreet wc id g → relay_step s (Greet c) = Some (greet s c y wc id g).
Proof. intros H1 H2. cbn [relay_step]. rewrite H1. cbn [mbind option_bind]. by rewrite H2. Qed.

(** A session that is being greeted gets its copying loops. *)
Lemma greet_run s c y wc id g :
  r_conns s !! c = Some y → rc_handler y = HGreet wc id g →
  ∃ l s', (length l ≤ 4)%nat ∧ relay_run s l = Some s' ∧ r_live s' = r_live s ++ [mkRsess id wc c false false].
Proof.
  set (P n g := ∀ s y, r_conns s !! c = Some y → rc_handler y = HGreet wc id g →
    ∃ l s', (length l ≤ n)%nat ∧ relay_run s l = Some s' ∧ r_live s' = r_live s ++ [mkRsess id wc c false false]).
  assert (∀ n g g', (∀ s y, r_live (greet s c y wc id g) = r_live s ∧
    ∃ y', r_conns (greet s c y wc id g) !! c = Some y' ∧ rc_handler y' = HGreet wc id g') → P n g' → P (S n) g) as Hstep.
  { intros n g0 g' Hn HP s0 y0 Hc Hh. destruct (Hn s0 y0) as (El & y' & Hy' & Hh').
    destruct (HP _ _ Hy' Hh') as (l & s' & Hl & Hr & E). exists (Greet c :: l), s'.
    rewrite (relay_run_cons _ _ _ _ (greet_step _ _ _ _ _ _ Hc Hh)), <- El. split_and!; [cbn; lia|done|done]. }
  assert (P 1%nat ClearB) as H1.
  { intros s0 y0 Hc Hh. exists [Greet c], (greet s0 c y0 wc id ClearB).
    by rewrite (relay_run_cons _ _ _ _ (greet_step _ _ _ _ _ _ Hc Hh)). }
  assert (P 2%nat ClearA) as H2 by (eapply Hstep; [|done]; intros; split; [done|eexists; split; [apply lookup_insert_eq|done]]).
  assert (P 3%nat AckB) as H3 by (eapply Hstep; [|done]; intros; split; [done|eexists; split; [apply lookup_insert_eq|done]]).
  assert (P 4%nat AckA) as H4 by (eapply Hstep; [|done]; intros; split; [done|eexists; split; [apply lookup_insert_eq|done]]).
  intros Hc Hh. destruct g; [destruct (H4 s y) as (l & s' & ? & ?)|destruct (H3 s y) as (l & s' & ? & ?)|
    destruct (H2 s y) as (l & s' & ? & ?)|destruct (H1 s y) as (l & s' & ? & ?)]; try done; exists l, s'; (split; [lia|done]).
Qed.

Lemma greeting_can_end s c y wc id g x :
  rok s → r_conns s !! c = Some y → rc_handler y = HGreet wc id g → r_conns s !! wc = Some x →
  rc_open x = false → rc_open y = false →
  ∃ l s', (length l ≤ 7)%nat ∧ relay_run s l = Some s' ∧ r_live s' = r_live s.
Proof.
  intros Hok Hc Hh Hx Ox Oy. destruct (greet_run s c y wc id g Hc Hh) as (l1 & s1 & Hl1 & Hr1 & El).
  pose proof (relay_run_finals _ _ _ Hok Hr1) as Hf. destruct (Hf _ _ Hc) as (y1 & Hy1 & Fy), (Hf _ _ Hx) as (x1 & Hx1 & Fx).
  destruct (session_can_end s1 (length (r_live s)) (mkRsess id wc c false false) x1 y1) as (l2 & s2 & Hl2 & Hr2 & E2);
    [rewrite El; by apply list_lookup_middle|done|done|by apply Fx|by apply Fy|].
  exists (l1 ++ l2), s2. split_and!; [rewrite length_app; lia|by rewrite relay_run_app, Hr1|].
  by rewrite E2, El, delete_middle, app_nil_r.
Qed.

(** The handler of a first peer returns. *)
Lemma first_can_return s c x :
  rok s → r_done s = true → r_conns s !! c = Some x → is_first x → rc_handler x ≠ HOver →
  ∃ l s' x', (length l ≤ 2)%nat ∧ relay_run s l = Some s' ∧ r_conns s' !! c = Some x' ∧
    rc_handler x' = HOver ∧ rc_open x' = false.
Proof.
  intros [Hi _] Hd Hc Hf Hne. destruct (ri_conn _ Hi _ _ Hc) as [_ Hok].
  assert (∃ id, first_stage id (rc_handler x)) as [id Hs].
  { unfold is_first in Hf. destruct (rc_phase x) as [|id|id p|id p|]; try done; exists id; apply Hok. }
  assert (∀ s1 x1, r_conns s1 !! c = Some x1 → rc_handler x1 = HReturn → relay_step s1 (Return c) = Some (handler_return s1 c x1)) as Hr.
  { intros s1 x1 H1 H2. cbn [relay_step]. rewrite H1. cbn [mbind option_bind]. by rewrite H2. }
  assert (∀ a s1 x1, relay_step s a = Some s1 → r_conns s1 !! c = Some x1 → rc_handler x1 = HReturn →
    ∃ l s' x', (length l ≤ 2)%nat ∧ relay_run s l = Some s' ∧ r_conns s' !! c = Some x' ∧
      rc_handler x' = HOver ∧ rc_open x' = false) as H2.
  { intros a s1 x1 Hs1 Hx1 Hh1. exists [a; Return c], (handler_return s1 c x1). eexists.
    rewrite (relay_run_cons _ _ _ _ Hs1), (relay_run_cons _ _ _ _ (Hr _ _ Hx1 Hh1)). split_and!; [done..|apply lookup_insert_eq|done|done]. }
  destruct (rc_handler x) as [| |t i|m| | | |] eqn:Eh; try done.
  - apply (H2 (HandlerDone c) (handler_done s c x) (set_handler HReturn x)); [|apply lookup_insert_eq|done].
    cbn [relay_step]. rewrite Hc. cbn [mbind option_bind]. by rewrite Eh, Hd.
  - eapply (H2 (SendError c) (do_error s c x m)); [|apply lookup_insert_eq|done].
    cbn [relay_step]. rewrite Hc. cbn [mbind option_bind]. by rewrite Eh.
  - exists [Return c], (handler_return s c x). eexists. rewrite (relay_run_cons _ _ _ _ (Hr _ _ Hc Eh)).
    split_and!; [cbn; lia|done|apply lookup_insert_eq|done|done].
Qed.

(** C34: Close. It closes both connections of every session in the table and
    every waiting connection; nothing is written to them afterwards, whatever
    happens. Sessions whose connections are closed can end within three steps
    of the server (and four more when they are still being greeted), the handlers
    of first peers can return within two, and no connection is accepted any
    more. *)
Theorem relay_shutdown l s s' :
  relay_run NewRelayServer l = Some s → relay_step s CloseTables = Some s' →
  (∀ c x, r_conns s !! c = Some x →
     ((∃ id p, r_sessions s !! id = Some p ∧ (p.1 = c ∨ p.2 = c)) ∨ (∃ id, r_waiting s !! id = Some c)) →
     ∀ l' s2, relay_run s' l' = Some s2 →
       ∃ x2, r_conns s2 !! c = Some x2 ∧ rc_open x2 = false ∧ rc_out x2 = rc_out x) ∧
  (∀ k z x y, r_live s' !! k = Some z → r_conns s' !! rs_PeerA z = Some x → r_conns s' !! rs_PeerB z = Some y →
     rc_open x = false → rc_open y = false →
     ∃ l' s2, (length l' ≤ 3)%nat ∧ relay_run s' l' = Some s2 ∧ r_live s2 = delete k (r_live s')) ∧
  (∀ c y wc id g x, r_conns s' !! c = Some y → rc_handler y = HGreet wc id g → r_conns s' !! wc = Some x →
     rc_open x = false → rc_open y = false →
     ∃ l' s2, (length l' ≤ 7)%nat ∧ relay_run s' l' = Some s2 ∧ r_live s2 = r_live s') ∧
  (∀ c x, r_conns s' !! c = Some x → is_first x → rc_handler x ≠ HOver →
     ((∃ t id, rc_handler x = HSelect t id) → is_Some (relay_step s' (HandlerDone c))) ∧
     ∃ l' s2 x2, (length l' ≤ 2)%nat ∧ relay_run s' l' = Some s2 ∧ r_conns s2 !! c = Some x2 ∧
       rc_handler x2 = HOver ∧ rc_open x2 = false) ∧
  (∀ c, relay_step s' (Accept c) = None).
Proof.
  intros Hok%relay_reachable Hs. pose proof (relay_step_ok _ _ _ Hok Hs) as Hok'.
  cbn in Hs. destruct (r_stage s); try done. injection Hs as <-.
  split_and!; [|apply session_can_end|exact (λ c y wc id g x, greeting_can_end _ c y wc id g x Hok')|..].
  - intros c x Hc Ht l' s2 Hr.
    destruct (relay_run_finals _ _ _ Hok' Hr c (conn_close x)) as (x2 & Hx2 & Hf).
    + cbn. rewrite map_lookup_imap, Hc. cbn. unfold close_conn. by rewrite (proj2 (in_table_spec s c)).
    + exists x2. split; [done|]. by apply Hf.
  - intros c x Hc Hf Hne. split; [|by eapply first_can_return].
    intros (t & id & Eh). cbn [relay_step]. rewrite Hc. cbn [mbind option_bind]. rewrite Eh. by eexists.
  - intros c. cbn. by destruct (_ !! c).
Qed.

(** ** The client object *)
Lemma relay_Connect_no_panic write_ok r : relay_Connect write_ok r ≠ Panic.
Proof.
  unfold relay_Connect. destruct write_ok; [|done]. cbn [negb].
  destruct (ReadFull 5 r) as [[header st] r1] eqn:E. destruct st; try done.
  apply ReadFull_length in E as [_ Hl]. specialize (Hl eq_refl). destruct header as [|ty lb]; [done|].
  cbn [head or_panic]. rewrite Ret_bind, slicez_ok by lia. rewrite or_panic_bind. cbv zeta.
  repeat case_decide; [by destruct (ReadFull _ _) as [[? ?] ?]|done|].
  destruct (ReadFull _ _) as [[sid []] ?]; done.
Qed.

(** A dialled connection is closed when Connect fails, and is otherwise the one
    that GetConn returns and Close closes, once. A second successful Connect
    forgets the first connection without closing it. *)
Theorem client_connection rc conn write_ok r :
  match client_Connect rc (Some conn) write_ok r with
  | (rc', closed, Ret (c, _)) =>
      c = conn ∧ closed = [] ∧ client_GetConn rc' = Some conn ∧
      (client_Close rc').2 = [conn] ∧ client_Close (client_Close rc').1 = ((client_Close rc').1, []) ∧
      (∀ old, client_GetConn rc = Some old → old ∉ closed)
  | (rc', closed, Err _) => rc' = rc ∧ closed = [conn]
  | (_, _, Panic) => False
  end.
Proof.
  unfold client_Connect. destruct (relay_Connect write_ok r) as [[id rest]|e|] eqn:E; [|done|].
  - split_and!; try done. set_solver.
  - by apply relay_Connect_no_panic in E.
Qed.

(** ** A session *)
Module RelayExample.
Definition sid : bytes := bytes_of_string "s1".
Definition hello : bytes := bytes_of_string "hello".
Definition join (c : nat) (id data : bytes) : list relay_act := [Accept c; PeerSend c (connect_request id ++ data); Handle c; Pair c].
Definition greetings (c : nat) : list relay_act := [Greet c; Greet c; Greet c; Greet c].
Definition setup : list relay_act := join 1 sid [] ++ join 2 sid hello ++ greetings 2.
Definition paired : relay := default NewRelayServer (relay_run NewRelayServer setup).
Definition late : relay := default NewRelayServer (relay_run NewRelayServer (setup ++ [Tick RelayTimeout])).

Lemma setup_runs : relay_run NewRelayServer setup = Some paired.
Proof. vm_compute. reflexivity. Qed.

Definition conn_at (s : relay) (c : nat) : rconn :=
  default (mkRconn [] 0 [] false false 0 None HOver PhFresh 0) (r_conns s !! c).

(** The second client's data reaches the first one, whose timer fires in the
    running session: the error stands between the data copied before it and the
    data copied before the handler closes the connection. *)
Lemma first_peer_scenario :
  option_map (λ s, (rc_out (conn_at s 1), rc_open (conn_at s 1)))
    (relay_run late [Copy 0 false 2 true; Timeout 1; SendError 1; Copy 0 false 3 true; Return 1])
  = Some (sendConnectAck sid ++ take 2 hello ++ timeout_error ++ drop 2 hello, false).
Proof. vm_compute. reflexivity. Qed.

(** The timer of a paired connection removes a later connection that waits
    under the same id: the next one waits instead of being paired with it. *)
Lemma foreign_waiter_removed :
  option_map (λ s, (rc_phase (conn_at s 3), rc_phase (conn_at s 4)))
    (relay_run late (join 3 sid [] ++ [Timeout 1] ++ join 4 sid []))
  = Some (PhWaiting sid, PhWaiting sid).
Proof. vm_compute. reflexivity. Qed.

(** Both branches: the first peer of a session in whose data the timer has
    written, and a connection that sent no request. *)
Definition told_acts : list relay_act :=
  setup ++ [Tick RelayTimeout; Copy 0 false 2 true; Timeout 1; SendError 1; Copy 0 false 3 true;
            Accept 3; PeerSend 3 [x02; x00; x00; x00; x00]; Handle 3; SendError 3].
Definition told_relay : relay := default NewRelayServer (relay_run NewRelayServer told_acts).

Lemma relay_isolation_witness :
  (∃ id p y, r_conns told_relay !! p = Some y ∧ p ≠ 1%nat ∧ asked (conn_at told_relay 1) id ∧ asked y id ∧
     carried (r_now told_relay) id (conn_at told_relay 1) y) ∧
  (∃ msg, refused (conn_at told_relay 3) msg ∧ rc_out (conn_at told_relay 3) = relay_sendError msg).
Proof.
  assert (relay_run NewRelayServer told_acts = Some told_relay) as Hr by (vm_compute; reflexivity).
  split.
  - destruct (relay_isolation told_acts told_relay 1 (conn_at told_relay 1) Hr) as [(m & _ & Hm)|(id & p & y & H1 & H2 & H3 & H4 & H5 & _)].
    + vm_compute; reflexivity.
    + vm_compute. discriminate.
    + assert (head (rc_out (conn_at told_relay 1)) = Some RelayMsgConnectAck) as Hh by (vm_compute; reflexivity).
      rewrite Hm in Hh. unfold relay_sendError, relay_frame in Hh. cbn [head] in Hh. discriminate Hh.
    + exists id, p, y. exact (conj H1 (conj H2 (conj H3 (conj H4 H5)))).
  - destruct (relay_isolation told_acts told_relay 3 (conn_at told_relay 3) Hr) as [Hm|(id & p & y & _ & _ & H3 & _)].
    + vm_compute; reflexivity.
    + vm_compute. discriminate.
    + exact Hm.
    + assert (take (rc_req (conn_at told_relay 3)) (rc_hist (conn_at told_relay 3)) = []) as E by (vm_compute; reflexivity).
      unfold asked, connect_request, relay_frame in H3. rewrite E in H3. discriminate H3.
Defined.

(** A peer that nobody joins is not told; one that asks late and is joined
    later still is not acknowledged. *)
Lemma lone_peer_not_told :
  option_map (λ s, (rc_out (conn_at s 1), rc_open (conn_at s 1)))
    (relay_run NewRelayServer (join 1 sid [] ++ [Tick RelayTimeout; Timeout 1; SendError 1; Return 1]))
  = Some ([], false).
Proof. vm_compute. reflexivity. Qed.

Lemma late_ack_lost :
  option_map (λ s, rc_out (conn_at s 1))
    (relay_run NewRelayServer ([Accept 1; Tick (20 * second); PeerSend 1 (connect_request sid); Handle 1; Pair 1;
       Tick (15 * second)] ++ join 2 sid hello ++ greetings 2 ++ [Copy 0 false 5 true]))
  = Some hello.
Proof. vm_compute. reflexivity. Qed.

(** Between the acknowledgements and the clearing of the deadlines nothing is
    copied, and the first peer's timer, if it fires, is not heard. *)
Lemma timer_while_greeting :
  option_map (λ s, (rc_out (conn_at s 1), rc_open (conn_at s 1), length (r_live s)))
    (relay_run NewRelayServer (join 1 sid [] ++ [Tick (29 * second)] ++ join 2 sid hello ++
       [Greet 2; Tick second; Timeout 1; SendError 1; Greet 2; Greet 2; Greet 2]))
  = Some (sendConnectAck sid, true, 1%nat).
Proof. vm_compute. reflexivity. Qed.

Lemma first_peer_timer_witness :
  ∃ s' x', relay_run late [Timeout 1; SendError 1; Return 1] = Some s' ∧ r_conns s' !! 1%nat = Some x' ∧
    rc_out x' = rc_out (conn_at late 1) ++ timeout_error.
Proof.
  destruct (first_peer_timer (setup ++ [Tick RelayTimeout]) late 1 (conn_at late 1) sid) as (_ & _ & Hd).
  - vm_compute. reflexivity.
  - vm_compute. reflexivity.
  - vm_compute. reflexivity.
  - right. exists 2%nat. vm_compute. reflexivity.
  - destruct (Hd 0) as (s' & x' & Hs & Hx & _ & _ & _ & Ho); [vm_compute; reflexivity|vm_compute; discriminate|].
    exists s', x'. split; [exact Hs|]. split; [exact Hx|]. apply Ho; vm_compute; reflexivity.
Defined.

Lemma relay_delivers_witness :
  ∃ l' s' y', relay_run paired l' = Some s' ∧ r_conns s' !! 1%nat = Some y' ∧
    rc_out y' = sendConnectAck sid ++ hello.
Proof.
  assert (rc_out (conn_at paired 1) ++ unread (conn_at paired 2) = sendConnectAck sid ++ hello) as <- by (vm_compute; reflexivity).
  apply (relay_delivers setup paired 0 (mkRsess sid 1 2 false false) false 2 1 (conn_at paired 2) (conn_at paired 1) setup_runs);
    vm_compute; reflexivity.
Defined.

(** Close of a server with one session and one waiting connection. *)
Definition busy_acts : list relay_act :=
  setup ++ join 3 hello [] ++ [Shutdown].
Definition busy : relay := default NewRelayServer (relay_run NewRelayServer busy_acts).

Lemma relay_shutdown_witness :
  ∃ s', relay_step busy CloseTables = Some s' ∧
    ∀ l' s2, relay_run s' l' = Some s2 →
      ∃ x2, r_conns s2 !! 2%nat = Some x2 ∧ rc_open x2 = false ∧ rc_out x2 = sendConnectAck sid.
Proof.
  assert (relay_run NewRelayServer busy_acts = Some busy) as Hr by (vm_compute; reflexivity).
  assert (relay_step busy CloseTables = Some (relay_Close busy)) as Hs by (vm_compute; reflexivity).
  exists (relay_Close busy). split; [exact Hs|].
  assert (rc_out (conn_at busy 2) = sendConnectAck sid) as <- by (vm_compute; reflexivity).
  refine (proj1 (relay_shutdown busy_acts busy _ Hr Hs) 2%nat (conn_at busy 2) _ _).
  - vm_compute. reflexivity.
  - left. exists sid, (1%nat, 2%nat). split; [vm_compute; reflexivity|]. right. reflexivity.
Defined.

(** Handlers are not waited for, and the waiting table is not emptied: a
    connection that was accepted before Close and asks afterwards is paired
    with a closed one, acknowledged, and its deadline is cleared. *)
Lemma session_after_close :
  option_map (λ s, (r_stage s, rc_out (conn_at s 2), rc_open (conn_at s 2), rc_deadline (conn_at s 2), r_live s))
    (relay_run NewRelayServer (join 1 sid [] ++ [Accept 2; Shutdown; HandlerDone 1; Return 1; CloseTables;
       PeerSend 2 (connect_request sid); Handle 2; Pair 2] ++ greetings 2 ++ [CopyEnd 0 true]))
  = Some (RClosed, sendConnectAck sid, true, None, [mkRsess sid 1 2 true false]).
Proof. vm_compute. reflexivity. Qed.

(** A second session under the id of a running one takes its place in the
    table, so that Close leaves the first one running. *)
Lemma session_missed_by_close :
  option_map (λ s, (rc_open (conn_at s 1), rc_open (conn_at s 2), rc_open (conn_at s 3)))
    (relay_run NewRelayServer (setup ++ join 3 sid [] ++ join 4 sid [] ++ [Shutdown; CloseTables]))
  = Some (true, true, false).
Proof. vm_compute. reflexivity. Qed.

Lemma relay_handshake_witness :
  relay_Connect true (stream_of (sendConnectAck sid ++ hello)) = Ret (sid, stream_of hello).
Proof. apply (relay_handshake sid hello). reflexivity. Defined.
End RelayExample.
