(* ===== verification/RelayLife.v ===== *)
(** * The life of a relay server ([internal/nat/relay.go])

    [Listen], the accept loop and [Close] with its stages around the connections
    and sessions of [Relay]: [rs.done] is closed, the listener is closed, the
    accept loop has ended and [wg.Wait] returns, the tables are closed. *)
From Stdlib Require Import Strings.Byte Strings.String.
From S2P Require Import Prelude Relay RelaySpec.

(** A relay connection with its session. *)
Record RelayedConn := mkRelayedConn { rlc_conn : nat; rlc_sessionID : bytes }.
Definition SessionID (c : RelayedConn) : bytes := rlc_sessionID c.

Inductive rl_stage := QOpen | QDone | QWaiting | QReturned.

#[global] Instance rl_stage_eq_dec : EqDecision rl_stage.
Proof. solve_decision. Defined.

Record relay_server := mkRelayServer {
  q_core : relay;
  q_listener : option bool;   (* nil, or whether it is open *)
  q_loop : bool;              (* [acceptLoop] is running: what the wait group counts *)
  q_stage : rl_stage;
}.

Definition new_relay_server : relay_server := mkRelayServer NewRelayServer None false QOpen.

(** An address that cannot be bound leaves everything as it was. *)
Definition relay_Listen (ok : bool) (v : relay_server) : outcome unit relay_server :=
  if ok then Ret (mkRelayServer (q_core v) (Some true) true (q_stage v)) else Err ().

Definition relay_Addr (v : relay_server) : bool := bool_decide (is_Some (q_listener v)).

Inductive rl_act :=
| QListen
| QAccept (c : nat)        (* the accept loop gets a connection and starts its handler *)
| QAcceptErr               (* [Accept] fails *)
| QClose                   (* [close(rs.done)] *)
| QListenerClosed
| QReturn                  (* [wg.Wait] returns, the tables are closed *)
| QInside (a : relay_act). (* a peer, a handler, a copying loop or the clock *)

(** What belongs to the accept loop and to [Close]. *)
Definition inside (a : relay_act) : bool :=
  match a with Accept _ | Shutdown | CloseTables => false | _ => true end.

Definition on_core (v : relay_server) (a : relay_act) : option relay_server :=
  core ← relay_step (q_core v) a;
  Some (mkRelayServer core (q_listener v) (q_loop v) (q_stage v)).

(** [acceptLoop]: an error ends it when [rs.done] is closed and is retried
    otherwise. A connection that was accepted is handled in either case. *)
Definition relay_acceptLoop (v : relay_server) (got : option nat) : option relay_server :=
  if negb (q_loop v) then None
  else match got with
  | Some c => if decide (q_listener v = Some true) then on_core v (Accept c) else None
  | None => Some (mkRelayServer (q_core v) (q_listener v) (negb (r_done (q_core v))) (q_stage v))
  end.

Definition relay_server_step (v : relay_server) (a : rl_act) : option relay_server :=
  match a with
  | QListen =>
      match q_listener v, q_stage v, relay_Listen true v with
      | None, QOpen, Ret v' => Some v'
      | _, _, _ => None
      end
  | QAccept c => relay_acceptLoop v (Some c)
  | QAcceptErr => relay_acceptLoop v None
  | QClose =>
      match q_stage v with
      | QOpen => core ← relay_step (q_core v) Shutdown; Some (mkRelayServer core (q_listener v) (q_loop v) QDone)
      | _ => None   (* panics *)
      end
  | QListenerClosed =>
      match q_stage v with
      | QDone => Some (mkRelayServer (q_core v) ((λ _, false) <$> q_listener v) (q_loop v) QWaiting)
      | _ => None
      end
  | QReturn =>
      match q_stage v, q_loop v with
      | QWaiting, false => core ← relay_step (q_core v) CloseTables; Some (mkRelayServer core (q_listener v) false QReturned)
      | _, _ => None
      end
  | QInside a => if inside a then on_core v a else None
  end.

Fixpoint relay_server_run (v : relay_server) (l : list rl_act) : option relay_server :=
  match l with
  | [] => Some v
  | a :: l' => v' ← relay_server_step v a; relay_server_run v' l'
  end.

(** ** The server refines the relay *)
Definition core_stage (q : rl_stage) : close_stage :=
  match q with QOpen => ROpen | QDone | QWaiting => RDone | QReturned => RClosed end.

Record life_ok (v : relay_server) : Prop := {
  lo_core : ∃ l, relay_run NewRelayServer l = Some (q_core v);
  lo_stage : r_stage (q_core v) = core_stage (q_stage v);
  lo_loop : q_loop v = true → is_Some (q_listener v);
  lo_listener : q_stage v = QWaiting ∨ q_stage v = QReturned → q_listener v ≠ Some true;
  lo_returned : q_stage v = QReturned → q_loop v = false;
}.

Lemma new_life_ok : life_ok new_relay_server.
Proof. constructor; cbn; try done. by exists []. Qed.

Lemma core_extends s s' a :
  (∃ l, relay_run NewRelayServer l = Some s) → relay_step s a = Some s' → ∃ l, relay_run NewRelayServer l = Some s'.
Proof. intros [l Hl] Hs. exists (l ++ [a]). rewrite relay_run_app, Hl. cbn. by rewrite Hs. Qed.

(** Only [Close] moves the stage. *)
Lemma stage_kept s a s' : a ≠ Shutdown → a ≠ CloseTables → relay_step s a = Some s' → r_stage s' = r_stage s.
Proof.
  intros H1 H2. destruct a as [c|c data|c|dt|c|c|c|c|c|c|k ab n ok|k ab|k|c| |]; try done; cbn [relay_step];
    unfold do_handle, copyWithHeader, copy_end, session_end, pair_or_wait, greet;
    intros Hs; repeat (case_match || simplify_option_eq); by simplify_eq/=.
Qed.

Lemma on_core_ok v a v' :
  life_ok v → a ≠ Shutdown → a ≠ CloseTables → on_core v a = Some v' → life_ok v'.
Proof.
  intros [Hc Hst H1 H2 H3] Ha Hb. unfold on_core. destruct (relay_step (q_core v) a) as [core|] eqn:E; [|done].
  intros [= <-]. constructor; cbn; try done; [by eapply core_extends|]. rewrite <- Hst. by eapply stage_kept.
Qed.

Lemma relay_server_step_ok v a v' : life_ok v → relay_server_step v a = Some v' → life_ok v'.
Proof.
  intros Hok. pose proof Hok as [Hc Hst H1 H2 H3].
  destruct a as [|c| | | | |a]; cbn [relay_server_step]; unfold relay_acceptLoop, relay_Listen.
  - destruct (q_listener v) eqn:El; [done|]. destruct (q_stage v) eqn:Eq; try done. intros [= <-].
    constructor; cbn; rewrite ?Eq; try done. by intros [].
  - destruct (q_loop v); [|done]. cbn [negb]. case_decide; [|done]. by apply on_core_ok.
  - destruct (q_loop v) eqn:El; [|done]. cbn [negb]. intros [= <-]. constructor; cbn; try done; [intros _; by apply H1|].
    intros E. specialize (H3 E). congruence.
  - destruct (q_stage v) eqn:Eq; try done. destruct (relay_step (q_core v) Shutdown) as [core|] eqn:E; [|done].
    intros [= <-]. constructor; cbn; try done; [by eapply core_extends| |by intros []].
    cbn in E. destruct (r_stage (q_core v)); try done. by injection E as <-.
  - destruct (q_stage v) eqn:Eq; try done. intros [= <-]. constructor; cbn; try done.
    + intros E. rewrite fmap_is_Some. by apply H1.
    + intros _. by destruct (q_listener v).
  - destruct (q_stage v) eqn:Eq; try done. destruct (q_loop v) eqn:El; [done|].
    destruct (relay_step (q_core v) CloseTables) as [core|] eqn:E; [|done].
    intros [= <-]. constructor; cbn; try done; [by eapply core_extends| |by intros _; apply H2; left].
    cbn in E. destruct (r_stage (q_core v)); try done. by injection E as <-.
  - destruct (inside a) eqn:Ea; [|done]. intros Hs. eapply on_core_ok; [done| | |done]; by intros ->.
Qed.

Lemma relay_server_run_ok v l v' : life_ok v → relay_server_run v l = Some v' → life_ok v'.
Proof.
  revert v. induction l as [|a l IH]; intros v Hok; cbn; [by intros [= <-]|].
  destruct (relay_server_step v a) as [v1|] eqn:E; [|done]. cbn. apply IH. by eapply relay_server_step_ok.
Qed.

(** ** Shutdown *)
Definition stop_act (a : rl_act) : bool := match a with QAcceptErr | QListenerClosed | QReturn => true | _ => false end.

Definition closing_left (v : relay_server) : nat :=
  (if q_loop v then 1 else 0) + match q_stage v with QOpen => 3 | QDone => 2 | QWaiting => 1 | QReturned => 0 end.

Lemma relay_stop_progress v :
  life_ok v → q_stage v ≠ QOpen → q_stage v ≠ QReturned →
  ∃ a v', stop_act a = true ∧ relay_server_step v a = Some v' ∧ q_stage v' ≠ QOpen ∧ closing_left v = S (closing_left v').
Proof.
  intros [_ Hst _ _ _] Ho Hr. unfold closing_left. destruct (q_loop v) eqn:El.
  { exists QAcceptErr. eexists. split; [done|]. cbn. unfold relay_acceptLoop. rewrite El. cbn. split; [done|]. split; [done|].
    unfold r_done. rewrite Hst. by destruct (q_stage v). }
  destruct (q_stage v) eqn:Eq; try done.
  - exists QListenerClosed. eexists. split; [done|]. cbn. rewrite Eq. split; [done|]. cbn. by rewrite El.
  - exists QReturn. eexists. split; [done|]. cbn. rewrite Eq, El. cbn in Hst. rewrite Hst. by split_and!.
Qed.

Lemma relay_stop_finishes n v :
  closing_left v = n → life_ok v → q_stage v ≠ QOpen →
  ∃ l v', (length l ≤ n)%nat ∧ Forall (λ a, stop_act a = true) l ∧ relay_server_run v l = Some v' ∧ q_stage v' = QReturned.
Proof.
  revert v. induction n as [|n IH]; intros v Hn Hok Ho.
  all: destruct (decide (q_stage v = QReturned)) as [Hr|Hr]; [exists [], v; split_and!; [cbn; lia|constructor|done|done]|].
  all: destruct (relay_stop_progress v Hok Ho Hr) as (a & v1 & Ha & Hs & Ho1 & Hl).
  1: lia.
  destruct (IH v1 ltac:(lia) (relay_server_step_ok _ _ _ Hok Hs) Ho1) as (l & v' & Hl' & Hf & Hrun & Hq).
  exists (a :: l), v'. split_and!; [cbn; lia|by constructor|cbn; by rewrite Hs|done].
Qed.

(** The relay server in its surroundings. However listening, accepting and the
    stages of Close interleave with peers and handlers, the connections and
    sessions are those of a run of the relay: what is proved of such runs holds
    of the server. Once [rs.done] is closed Close returns after at most three
    more steps of the server, whatever its sessions do; from the moment the
    listener is closed no connection is accepted, and when Close has returned
    the tables have been closed and the accept loop has ended. *)
Theorem relay_server_life l v :
  relay_server_run new_relay_server l = Some v →
  (∃ l', relay_run NewRelayServer l' = Some (q_core v)) ∧
  (q_stage v ≠ QOpen →
     (∃ l' v', (length l' ≤ 3)%nat ∧ Forall (λ a, stop_act a = true) l' ∧
        relay_server_run v l' = Some v' ∧ q_stage v' = QReturned ∧ q_loop v' = false ∧ r_stage (q_core v') = RClosed) ∧
     relay_server_step v QClose = None) ∧
  (q_stage v = QWaiting ∨ q_stage v = QReturned → ∀ c, relay_server_step v (QAccept c) = None).
Proof.
  intros Hr. pose proof (relay_server_run_ok _ _ _ new_life_ok Hr) as Hok. split_and!; [apply Hok| |].
  - intros Ho. split; [|cbn; by destruct (q_stage v)].
    destruct (relay_stop_finishes _ v eq_refl Hok Ho) as (l' & v' & Hl & Hf & Hrun & Hq). exists l', v'.
    pose proof (relay_server_run_ok _ _ _ Hok Hrun) as Hok'.
    split_and!; [|done|done|done|by apply Hok'|by rewrite (lo_stage _ Hok'), Hq].
    unfold closing_left in Hl. destruct (q_loop v), (q_stage v); done || lia.
  - intros Hq c. cbn. unfold relay_acceptLoop. destruct (q_loop v); [|done]. cbn. rewrite decide_False; [done|].
    by apply (lo_listener _ Hok).
Qed.

(** Between [close(rs.done)] and the closing of the listener a connection is
    still accepted; its handler runs on after Close has returned. *)
Module RelayLifeExample.
Definition late : list rl_act :=
  [QListen; QAccept 1; QClose; QAccept 2; QListenerClosed; QAcceptErr; QReturn; QInside (PeerSend 2 [x01])].

Lemma accepted_while_closing :
  (λ v, (q_stage v, q_loop v, rc_open <$> r_conns (q_core v) !! 2%nat)) <$> relay_server_run new_relay_server late
  = Some (QReturned, false, Some true).
Proof. vm_compute. reflexivity. Qed.

Lemma relay_server_life_witness :
  ∃ v, relay_server_run new_relay_server (take 5 late) = Some v ∧ ∀ c, relay_server_step v (QAccept c) = None.
Proof.
  eexists. split; [vm_compute; reflexivity|].
  refine (proj2 (proj2 (relay_server_life (take 5 late) _ _)) _); [vm_compute; reflexivity|left; reflexivity].
Defined.
End RelayLifeExample.
