(* ===== verification/Holepunch.v ===== *)
(** * UDP hole punching and the fallback strategy
    ([internal/nat/holepunch.go], the end of [internal/nat/relay.go])

    A punch packet is its bytes; the listener is a function of one received
    datagram; the punching loop is a function of the sequence of events its
    select takes (context done, success, listener error, tick). The signaling
    server is the [exchange] of [Signaling], address resolution, the text of an
    address, the random session id and the relay's answer are arguments. *)
From Stdlib Require Import Strings.Byte Strings.String.
From S2P Require Import Prelude Wire Signaling Stun Relay.

Open Scope Z_scope.

Definition HolePunchSyn : byte := x01.
Definition HolePunchSynAck : byte := x02.
Definition HolePunchAck : byte := x03.
Definition MaxPunchAttempts : nat := 5.
Definition punch_magic : Z := 0x50554E43.

(** An IPv4 address and a port. *)
Record UDPAddr := mkUDPAddr { ua_IP : bytes; ua_Port : Z }.

#[global] Instance UDPAddr_eq_dec : EqDecision UDPAddr.
Proof. solve_decision. Defined.

Inductive punch_method := NoMethod | HolePunchMethod | SimultaneousOpenMethod | RelayNeeded.

Record HolePunchResult := mkPunchResult {
  hr_Success : bool;
  hr_RemoteAddr : option UDPAddr;
  hr_Attempts : nat;
  hr_Method : punch_method;
}.

(** ** Packets *)
Definition punch_packet (msgType : byte) (sessionID : bytes) : bytes :=
  msgType :: be_put 4 punch_magic ++ copy_into (replicate 8 x00) sessionID.

(** What the listener does with a datagram. *)
Inductive listen_result :=
| Ignored
| SendSynAck             (* reply, keep listening *)
| SendAckDone            (* reply, report success, stop *)
| Done.                  (* report success, stop *)

(** The read buffer holds 64 bytes. *)
Definition listen_packet (expectedSessionID datagram : bytes) : outcome unit listen_result :=
  let buf := take 64 datagram in
  if (length buf <? 13)%nat then Ret Ignored
  else
    msgType ← or_panic (head buf);
    mb ← or_panic (slicez buf 1 5);
    sessionID ← or_panic (slicez buf 5 13);
    if decide (be_get mb ≠ punch_magic) then Ret Ignored
    else
      same ← foldl (λ acc i,
        m ← acc;
        if (m : bool) then
          a ← or_panic (sessionID !! i);
          b ← or_panic (expectedSessionID !! i);
          Ret (bool_decide (a = b))
        else Ret false) (Ret true) (seq 0 8);
      if negb same then Ret Ignored
      else if decide (msgType = HolePunchSyn) then Ret SendSynAck
      else if decide (msgType = HolePunchSynAck) then Ret SendAckDone
      else if decide (msgType = HolePunchAck) then Ret Done
      else Ret Ignored.

(** ** The punching loop *)
Inductive punch_event :=
| CtxDone
| Success (addr : UDPAddr)
| ListenError
| TickEvent.

(** [attempts] so far and the packets sent so far; [None] while the loop waits
    for a next event. An error of the listener is taken off its channel by
    [attemptHolePunch] and left there by [ScheduleAndPunch]. *)
Fixpoint punch_loop (max : nat) (method : punch_method) (targets : list UDPAddr) (sessionID : bytes)
    (attempts : nat) (sent : list (UDPAddr * bytes)) (evs : list punch_event)
    : option (HolePunchResult * list (UDPAddr * bytes)) :=
  if (max <=? attempts)%nat then Some (mkPunchResult false None attempts NoMethod, sent)
  else match evs with
  | [] => None
  | CtxDone :: _ => Some (mkPunchResult false None attempts NoMethod, sent)
  | Success addr :: _ => Some (mkPunchResult true (Some addr) attempts method, sent)
  | ListenError :: evs' => punch_loop max method targets sessionID attempts sent evs'
  | TickEvent :: evs' =>
      punch_loop max method targets sessionID (S attempts)
        (sent ++ ((λ t, (t, punch_packet HolePunchSyn sessionID)) <$> targets)) evs'
  end.

Definition punch_targets (publicAddr : UDPAddr) (localAddr : option UDPAddr) : list UDPAddr :=
  publicAddr :: match localAddr with
                | Some l => if ip_equal (ua_IP l) (ua_IP publicAddr) then [] else [l]
                | None => []
                end.

Definition attemptHolePunch (publicAddr : UDPAddr) (localAddr : option UDPAddr) (sessionID : bytes)
    (evs : list punch_event) : option (HolePunchResult * list (UDPAddr * bytes)) :=
  punch_loop MaxPunchAttempts HolePunchMethod (punch_targets publicAddr localAddr) sessionID 0 [] evs.

(** [NewSimultaneousOpen(hp, syncDelay).ScheduleAndPunch]; [initialized] says
    whether the hole puncher has its socket. *)
Inductive punch_error :=
| NotInitialized
| StunFailed (e : stun_error)
| RegistrationFailed (e : client_error)
| PeerLookupFailed (e : client_error)
| InvalidPublicAddr
| ErrHolePunchFailed
| RelayConnectionFailed (e : relay_error).

Definition ScheduleAndPunch (initialized : bool) (targetAddr : UDPAddr) (sessionID : bytes) (evs : list punch_event)
    : option (outcome punch_error (HolePunchResult * list (UDPAddr * bytes))) :=
  if negb initialized then Some (Err NotInitialized)
  else Ret <$> punch_loop (MaxPunchAttempts * 2) SimultaneousOpenMethod [targetAddr] sessionID 0 [] evs.

(** ** The hole puncher *)
Record HolePuncher := mkPuncher { hp_peerID : bytes; hp_localConn : bool; hp_publicAddr : option MappedAddress }.

Definition NewHolePuncher (peerID : bytes) : HolePuncher := mkPuncher peerID false None.

Definition GetPublicAddress (hp : HolePuncher) : option MappedAddress := hp_publicAddr hp.
Definition GetLocalConn (hp : HolePuncher) : bool := hp_localConn hp.

(** A coordinator for simultaneous opening; the delay is slept away first. *)
Record SimultaneousOpen := mkSimultaneousOpen { so_hp : HolePuncher; so_syncDelay : Z }.
Definition NewSimultaneousOpen (hp : HolePuncher) (syncDelay : Z) : SimultaneousOpen := mkSimultaneousOpen hp syncDelay.

Definition so_ScheduleAndPunch (so : SimultaneousOpen) (targetAddr : UDPAddr) (sessionID : bytes) (evs : list punch_event)
    : option (outcome punch_error (HolePunchResult * list (UDPAddr * bytes))) :=
  ScheduleAndPunch (GetLocalConn (so_hp so)) targetAddr sessionID evs.

Section puncher.
Context (exchange : bytes → stream) (resolve : bytes → option UDPAddr) (show : MappedAddress → bytes).

(** [discovered] is what [DiscoverWithNewConn] returns, [localText] the text of
    the socket's own address. The socket stays in the record when the
    registration fails, although it is closed. *)
Definition Initialize (hp : HolePuncher) (discovered : outcome stun_error MappedAddress) (localText : bytes)
    : outcome punch_error unit * HolePuncher :=
  match discovered with
  | Err e => (Err (StunFailed e), hp)
  | Panic => (Panic, hp)
  | Ret publicAddr =>
      let hp' := mkPuncher (hp_peerID hp) true (Some publicAddr) in
      match Register exchange (hp_peerID hp) (show publicAddr) localText with
      | Ret _ => (Ret (), hp')
      | Err e => (Err (RegistrationFailed e), hp')
      | Panic => (Panic, hp')
      end
  end.

(** [Connect]: the result record, or a nil record with an error. *)
Definition hp_Connect (hp : HolePuncher) (remotePeerID sessionID : bytes) (evs : list punch_event)
    : option (outcome punch_error HolePunchResult) :=
  if negb (hp_localConn hp) then Some (Err NotInitialized)
  else match LookupPeer exchange remotePeerID with
  | Err e => Some (Err (PeerLookupFailed e))
  | Panic => Some Panic
  | Ret info =>
      match resolve (pi_PublicAddr info) with
      | None => Some (Err InvalidPublicAddr)
      | Some publicAddr =>
          '(res, _) ← attemptHolePunch publicAddr (resolve (pi_LocalAddr info)) sessionID evs;
          Some (Ret res)
      end
  end.

(** The error comes with a record here. *)
Definition ConnectWithFallback (hp : HolePuncher) (remotePeerID sessionID : bytes) (evs : list punch_event)
    : option (outcome punch_error (HolePunchResult * option punch_error)) :=
  r ← hp_Connect hp remotePeerID sessionID evs;
  Some (match r with
        | Err e => Err e
        | Panic => Panic
        | Ret res =>
            if hr_Success res then Ret (res, None)
            else Ret (mkPunchResult false (hr_RemoteAddr res) (hr_Attempts res) RelayNeeded, Some ErrHolePunchFailed)
        end).

Definition hp_Close (hp : HolePuncher) : HolePuncher := mkPuncher (hp_peerID hp) false (hp_publicAddr hp).

(** ** [FallbackStrategy] *)
Inductive conn_method := ByHolePunch | ByRelay.

Record ConnectionResult := mkConnResult {
  cn_Method : conn_method;
  cn_UDPConn : bool;
  cn_RelayConn : option stream;
  cn_RemoteAddr : option UDPAddr;
  cn_Attempts : nat;
  cn_HolePunchAttempts : nat;
}.

(** [relay] is what the relay answers on a fresh connection, if one is
    configured; a failed dial is an answer that ends at once. *)
Definition connectViaRelay (relay : option stream) (attempts : nat)
    : outcome punch_error ConnectionResult :=
  match relay with
  | None => Err ErrHolePunchFailed
  | Some r =>
      match relay_Connect true r with
      | Ret (_, conn) => Ret (mkConnResult ByRelay false (Some conn) None 0 attempts)
      | Err e => Err (RelayConnectionFailed e)
      | Panic => Panic
      end
  end.

(** A nil [hpResult] is dereferenced for its attempts. *)
Definition fallback_Connect (hp : HolePuncher) (discovered : outcome stun_error MappedAddress) (localText : bytes)
    (relay : option stream) (remotePeerID sessionID : bytes) (evs : list punch_event)
    : option (outcome punch_error ConnectionResult) :=
  match Initialize hp discovered localText with
  | (Err _, _) => Some (connectViaRelay relay 0)
  | (Panic, _) => Some Panic
  | (Ret _, hp') =>
      r ← hp_Connect hp' remotePeerID sessionID evs;
      Some (match r with
            | Panic => Panic
            | Err _ => Panic
            | Ret res =>
                if hr_Success res
                then Ret (mkConnResult ByHolePunch true None (hr_RemoteAddr res) (hr_Attempts res) 0)
                else connectViaRelay relay (hr_Attempts res)
            end)
  end.

(** The strategy object. *)
Record FallbackStrategy := mkFallback { fs_holePuncher : HolePuncher; fs_relayAddr : bytes }.
Definition NewFallbackStrategy (relayAddr peerID : bytes) : FallbackStrategy := mkFallback (NewHolePuncher peerID) relayAddr.
Definition fs_Close (fs : FallbackStrategy) : FallbackStrategy := mkFallback (hp_Close (fs_holePuncher fs)) (fs_relayAddr fs).

(** [GetConn]: which connection the caller gets. *)
Definition cr_GetConn (r : ConnectionResult) : option (option stream) :=
  match cn_RelayConn r with
  | Some c => Some (Some c)
  | None => if cn_UDPConn r then Some None else None
  end.
End puncher.

(** ** Two peers and a network

    Both run [attemptHolePunch] with their own session id and their own list of
    targets. [route who t] says whom a datagram reaches that peer [who] sends to
    the address [t]: the other peer, nobody, or its own socket, as with 0.0.0.0
    and the port the sender itself is bound to. The network delivers, duplicates
    and loses datagrams; an answer goes to where the datagram came from. *)
Record punch_peer := mkPeer {
  pp_id : bytes;
  pp_targets : list UDPAddr;
  pp_attempts : nat;
  pp_listening : bool;
  pp_success : option bool;          (* the peer whose address is reported *)
}.

Record punch_net := mkNet {
  pn_a : punch_peer;
  pn_b : punch_peer;
  pn_flight : list (bool * bool * bytes);   (* from, to; true: the first peer *)
}.

Definition peer_at (n : punch_net) (who : bool) : punch_peer := if who then pn_a n else pn_b n.
Definition set_peer (n : punch_net) (who : bool) (p : punch_peer) : punch_net :=
  if who then mkNet p (pn_b n) (pn_flight n) else mkNet (pn_a n) p (pn_flight n).
Definition send (n : punch_net) (pkts : list (bool * bool * bytes)) : punch_net :=
  mkNet (pn_a n) (pn_b n) (pn_flight n ++ pkts).

Section net.
Context (route : bool → UDPAddr → option bool).

(** One SYN to each target, as far as it reaches somebody. *)
Definition syns_out (who : bool) (p : punch_peer) : list (bool * bool * bytes) :=
  omap (λ t, (λ to, (who, to, punch_packet HolePunchSyn (pp_id p))) <$> route who t) (pp_targets p).

(** A tick of the loop of peer [who]; the last one ends the loop, which stops
    the listener. *)
Definition net_tick (n : punch_net) (who : bool) : option punch_net :=
  let p := peer_at n who in
  if (pp_attempts p <? MaxPunchAttempts)%nat && bool_decide (pp_success p = None) then
    Some (send (set_peer n who (mkPeer (pp_id p) (pp_targets p) (S (pp_attempts p))
                          (pp_listening p && (S (pp_attempts p) <? MaxPunchAttempts)%nat) (pp_success p)))
            (syns_out who p))
  else None.

Definition succeeded (p : punch_peer) (remote : bool) : punch_peer :=
  mkPeer (pp_id p) (pp_targets p) (pp_attempts p) false (Some remote).

(** A datagram of [from] reaches the listener of peer [who]. *)
Definition net_receive (n : punch_net) (from who : bool) (datagram : bytes) : option punch_net :=
  let p := peer_at n who in
  if negb (pp_listening p) then Some n
  else match listen_packet (pp_id p) datagram with
  | Ret Ignored => Some n
  | Ret SendSynAck => Some (send n [(who, from, punch_packet HolePunchSynAck (pp_id p))])
  | Ret SendAckDone =>
      Some (send (set_peer n who (succeeded p from)) [(who, from, punch_packet HolePunchAck (pp_id p))])
  | Ret Done => Some (set_peer n who (succeeded p from))
  | _ => None
  end.

Inductive net_step : punch_net → punch_net → Prop :=
| net_tick_step n n' who : net_tick n who = Some n' → net_step n n'
| net_lose n fl : fl ⊆ pn_flight n → net_step n (mkNet (pn_a n) (pn_b n) fl)
| net_deliver n n' from who d :
    (from, who, d) ∈ pn_flight n → net_receive n from who d = Some n' → net_step n n'.
End net.

Definition net_start (ida : bytes) (ta : list UDPAddr) (idb : bytes) (tb : list UDPAddr) : punch_net :=
  mkNet (mkPeer ida ta 0 true None) (mkPeer idb tb 0 true None) [].
