(* ===== verification/HolepunchSpec.v ===== *)
(** * What hole punching achieves

    The exchange works between two peers that use the same session id, and
    never between peers that use different ones, which is what [Connect] gives
    them; but a peer one of whose targets is its own socket then succeeds with
    itself; the punching loop is bounded; the fallback strategy panics when the
    peer cannot be looked up. *)
From Stdlib Require Import Strings.Byte Strings.String.
From S2P Require Import Prelude Wire Signaling Stun Relay Holepunch.

Open Scope Z_scope.

(** ** The listener *)
Lemma compare_loop (a b : bytes) n :
  (n ≤ length a)%nat → (n ≤ length b)%nat →
  foldl (λ (acc : outcome unit bool) i,
    m ← acc;
    if (m : bool) then
      x ← or_panic (a !! i); y ← or_panic (b !! i); Ret (bool_decide (x = y))
    else Ret false) (Ret true) (seq 0 n) = Ret (bool_decide (take n a = take n b)).
Proof.
  intros Ha Hb. induction n as [|n IH]; [done|].
  rewrite seq_S, foldl_app, IH by lia. cbn [foldl]. rewrite Ret_bind. rewrite Nat.add_0_l.
  destruct (lookup_lt_is_Some_2 a n) as [x Hx]; [lia|]. destruct (lookup_lt_is_Some_2 b n) as [y Hy]; [lia|].
  rewrite Hx, Hy. rewrite (take_S_r _ _ _ Hx), (take_S_r _ _ _ Hy).
  case_bool_decide as E1.
  - rewrite !or_panic_bind. f_equal. apply bool_decide_ext. rewrite E1. split; [by intros ->|].
    intros E2%(inj (take n b ++.)). congruence.
  - symmetry. rewrite bool_decide_eq_false_2; [done|]. intros E2. apply E1.
    apply app_inj_1 in E2 as [? _]; [done|]. rewrite !length_take. lia.
Qed.

(** What a listener answers to a packet of the right session. *)
Definition answer (msgType : byte) : listen_result :=
  if decide (msgType = HolePunchSyn) then SendSynAck
  else if decide (msgType = HolePunchSynAck) then SendAckDone
  else if decide (msgType = HolePunchAck) then Done else Ignored.

Lemma listen_punch expected sid ty :
  length expected = 8%nat → length sid = 8%nat →
  listen_packet expected (punch_packet ty sid) = Ret (if bool_decide (sid = expected) then answer ty else Ignored).
Proof.
  intros He Hs. unfold listen_packet, punch_packet.
  assert (copy_into (replicate 8 x00) sid = sid) as ->.
  { unfold copy_into. rewrite length_replicate, take_ge, drop_ge by (rewrite ?length_replicate; lia). apply app_nil_r. }
  rewrite take_ge by (cbn [length]; rewrite length_app, length_be_put; lia).
  set (buf := ty :: be_put 4 punch_magic ++ sid).
  assert (length buf = 13%nat) as Hl by (unfold buf; cbn [length]; rewrite length_app, length_be_put; lia).
  rewrite Hl. change (13 <? 13)%nat with false. cbv iota. cbn [head buf or_panic]. rewrite Ret_bind.
  rewrite !slicez_ok by (rewrite ?Hl; lia). rewrite !or_panic_bind.
  assert (slice (Z.to_nat 1) (Z.to_nat 5) buf = be_put 4 punch_magic) as -> by reflexivity.
  assert (slice (Z.to_nat 5) (Z.to_nat 13) buf = sid) as -> by (apply (take_ge sid); lia).
  rewrite decide_False by (intros E; by apply E).
  rewrite compare_loop by lia. rewrite Ret_bind, !take_ge by lia.
  case_bool_decide; [|done]. cbn [negb]. unfold answer. by repeat case_decide.
Qed.

Section net.
Context (route : bool → UDPAddr → option bool).

(** One of the peer's targets is its own socket. *)
Definition loops_back (who : bool) (targets : list UDPAddr) : Prop :=
  ∃ t, t ∈ targets ∧ route who t = Some who.

Lemma peer_set n who p x : peer_at (set_peer n who p) x = if decide (x = who) then p else peer_at n x.
Proof. by destruct who, x. Qed.

Lemma peer_send n pkts x : peer_at (send n pkts) x = peer_at n x.
Proof. by destruct x. Qed.

Lemma flight_set n who p : pn_flight (set_peer n who p) = pn_flight n.
Proof. by destruct who. Qed.

(** ** Different session ids *)
Section apart.
Context (id : bool → bytes) (targets : bool → list UDPAddr).

Record apart (n : punch_net) : Prop := {
  ap_id who : pp_id (peer_at n who) = id who;
  ap_targets who : pp_targets (peer_at n who) = targets who;
  ap_success who x : pp_success (peer_at n who) = Some x → x = who ∧ loops_back who (targets who);
  ap_flight from to d : (from, to, d) ∈ pn_flight n →
    (∃ ty, d = punch_packet ty (id from)) ∧ (to = from → loops_back from (targets from));
}.

(** A change of one peer that keeps its id and targets, and packets it sends. *)
Lemma apart_change n who p pkts :
  apart n → pp_id p = id who → pp_targets p = targets who →
  (∀ x, pp_success p = Some x → x = who ∧ loops_back who (targets who)) →
  (∀ from to d, (from, to, d) ∈ pkts →
     (∃ ty, d = punch_packet ty (id from)) ∧ (to = from → loops_back from (targets from))) →
  apart (send (set_peer n who p) pkts).
Proof.
  intros [Hi Ht Hs Hf] Ip Tp Sp Fp. constructor.
  - intros x. rewrite peer_send, peer_set. case_decide; [by subst|done].
  - intros x. rewrite peer_send, peer_set. case_decide; [by subst|done].
  - intros x y. rewrite peer_send, peer_set. case_decide; [subst; apply Sp|apply Hs].
  - intros from to d. cbn [send pn_flight]. rewrite flight_set, elem_of_app. intros [Hd|Hd]; [by apply Hf|by apply Fp].
Qed.

Lemma set_peer_same n who : set_peer n who (peer_at n who) = n.
Proof. by destruct n, who. Qed.

Lemma send_nil n : send n [] = n.
Proof. destruct n. unfold send. simpl. by rewrite app_nil_r. Qed.

Lemma apart_step n n' :
  (∀ who, length (id who) = 8%nat) → id true ≠ id false → apart n → net_step route n n' → apart n'.
Proof.
  intros Hl Hne Ha Hs. pose proof Ha as [Hi Ht Hsu Hf].
  destruct Hs as [n n' who Etk|n fl Hsub|n n' from who d Hin Hr].
  - unfold net_tick in Etk. destruct (_ && _); [|done]. injection Etk as <-.
    apply apart_change; cbn [pp_id pp_targets pp_success]; [done..|apply Hsu|].
    intros from to d Hd. unfold syns_out in Hd. apply list_elem_of_omap in Hd as (t & Hin & Hd).
    destruct (route who t) as [to'|] eqn:Er; [|done]. injection Hd as <- -> <-. rewrite Hi.
    split; [by eexists|]. intros ->. exists t. by rewrite <- Ht.
  - constructor; [done..|]. intros from to d Hd. by apply Hf, Hsub.
  - destruct (Hf from who d Hin) as [[ty ->] Hlb].
    unfold net_receive in Hr. destruct (pp_listening (peer_at n who)); [|by injection Hr as <-]. cbn [negb] in Hr.
    rewrite listen_punch in Hr by (rewrite ?Hi; apply Hl). rewrite Hi in Hr.
    destruct (decide (who = from)) as [->|Hd].
    2:{ rewrite bool_decide_eq_false_2 in Hr by (destruct from, who; congruence). by injection Hr as <-. }
    specialize (Hlb eq_refl). rewrite bool_decide_eq_true_2 in Hr by done.
    assert (∀ b : byte, (∃ ty', punch_packet b (id from) = punch_packet ty' (id from)) ∧
      (from = from → loops_back from (targets from))) as Hreply by (intros b; split; [by eexists|done]).
    destruct (answer ty); injection Hr as <-; [done|..].
    + rewrite <- (set_peer_same n from) at 1. apply apart_change; [done..|apply Hsu|].
      intros x y d [= -> -> ->]%list_elem_of_singleton. apply Hreply.
    + apply apart_change; [done|apply Hi|apply Ht|by intros x [= <-]|].
      intros x y d [= -> -> ->]%list_elem_of_singleton. apply Hreply.
    + rewrite <- send_nil. apply apart_change; [done|apply Hi|apply Ht|by intros x [= <-]|].
      by intros x y d ?%not_elem_of_nil.
Qed.
End apart.

(** ** Receiving a packet of the own session *)
Lemma receive_own n from who ty :
  pp_listening (peer_at n who) = true → length (pp_id (peer_at n who)) = 8%nat →
  net_receive n from who (punch_packet ty (pp_id (peer_at n who))) =
    match answer ty with
    | Ignored => Some n
    | SendSynAck => Some (send n [(who, from, punch_packet HolePunchSynAck (pp_id (peer_at n who)))])
    | SendAckDone => Some (send (set_peer n who (succeeded (peer_at n who) from))
                             [(who, from, punch_packet HolePunchAck (pp_id (peer_at n who)))])
    | Done => Some (set_peer n who (succeeded (peer_at n who) from))
    end.
Proof.
  intros Hl Hid. unfold net_receive. rewrite Hl, listen_punch by done.
  rewrite bool_decide_eq_true_2 by done. cbn [negb]. by destruct (answer ty).
Qed.

(** A tick with attempts left puts a SYN on its way to whom a target reaches. *)
Lemma tick_sends n who to t :
  pp_success (peer_at n who) = None → (S (pp_attempts (peer_at n who)) < MaxPunchAttempts)%nat →
  t ∈ pp_targets (peer_at n who) → route who t = Some to →
  ∃ n1, net_step route n n1 ∧ (who, to, punch_packet HolePunchSyn (pp_id (peer_at n who))) ∈ pn_flight n1 ∧
    (∀ x, pp_id (peer_at n1 x) = pp_id (peer_at n x) ∧ pp_listening (peer_at n1 x) = pp_listening (peer_at n x)).
Proof.
  intros Hf Hat Ht Hr. eexists. split; [apply (net_tick_step _ _ _ who); unfold net_tick;
    rewrite (proj2 (Nat.ltb_lt _ _)), bool_decide_eq_true_2 by (done || lia); reflexivity|]. split.
  - cbn [send pn_flight]. apply elem_of_app. right. apply list_elem_of_omap. exists t. by rewrite Hr.
  - intros x. rewrite peer_send, peer_set. case_decide; [subst x|done]. cbn [pp_id pp_listening].
    by rewrite (proj2 (Nat.ltb_lt _ _)), andb_true_r by done.
Qed.

(** SYN, SYN-ACK and ACK between a peer and the one its SYN reaches, which uses
    the same session id and may be the peer itself: the peer succeeds, and the
    ACK is on its way. *)
Lemma syn_exchange n who to :
  pp_id (peer_at n to) = pp_id (peer_at n who) → length (pp_id (peer_at n who)) = 8%nat →
  pp_listening (peer_at n who) = true → pp_listening (peer_at n to) = true →
  (who, to, punch_packet HolePunchSyn (pp_id (peer_at n who))) ∈ pn_flight n →
  ∃ n', star (net_step route) n n' ∧ pp_success (peer_at n' who) = Some to ∧
    (to ≠ who → peer_at n' to = peer_at n to) ∧
    (who, to, punch_packet HolePunchAck (pp_id (peer_at n who))) ∈ pn_flight n'.
Proof.
  intros Hid Hl Lw Lt Hin. set (sid := pp_id (peer_at n who)) in *.
  set (n2 := send n [(to, who, punch_packet HolePunchSynAck sid)]).
  assert (net_step route n n2) as S2.
  { apply (net_deliver _ _ _ who to (punch_packet HolePunchSyn sid)); [done|]. rewrite <- Hid, receive_own by (done || by rewrite Hid).
    unfold n2. by rewrite Hid. }
  assert (net_step route n2 (send (set_peer n2 who (succeeded (peer_at n2 who) to)) [(who, to, punch_packet HolePunchAck sid)]))
    as S3.
  { apply (net_deliver _ _ _ to who (punch_packet HolePunchSynAck sid)).
    - unfold n2. cbn [send pn_flight]. apply elem_of_app. right. by apply list_elem_of_singleton.
    - assert (pp_id (peer_at n2 who) = sid) as E2 by (unfold n2; by rewrite peer_send).
      rewrite <- E2, receive_own; [done|unfold n2; by rewrite peer_send|by rewrite E2]. }
  eexists. split; [eapply star_step; [exact S2|apply star_one; exact S3]|]. split_and!.
  - by rewrite peer_send, peer_set, decide_True.
  - intros Hne. rewrite peer_send, peer_set, decide_False by done. unfold n2. by rewrite peer_send.
  - cbn [send pn_flight]. apply elem_of_app. right. by apply list_elem_of_singleton.
Qed.

(** C40: Two peers whose session ids differ never succeed with each other,
    whatever their targets are and whatever the network delivers, duplicates or
    loses: the listener of each ignores every packet of the other. [Connect]
    draws a fresh random session id on either side and nothing exchanges it. A
    peer can only ever report success with itself, when one of its targets
    leads to its own socket (the second target 0.0.0.0:port does, when the port
    is the peer's own), and then it can indeed: it answers its own SYN. *)
Theorem different_sessions_never_connect ida ta idb tb :
  length ida = 8%nat → length idb = 8%nat → ida ≠ idb →
  (∀ n who x, star (net_step route) (net_start ida ta idb tb) n → pp_success (peer_at n who) = Some x →
     x = who ∧ loops_back who (if who then ta else tb)) ∧
  (∀ who, loops_back who (if who then ta else tb) →
     ∃ n, star (net_step route) (net_start ida ta idb tb) n ∧ pp_success (peer_at n who) = Some who).
Proof.
  intros Ha Hb Hne. set (n0 := net_start ida ta idb tb). split.
  - intros n who x Hs. set (id := λ who : bool, if who then ida else idb).
    apply (star_invariant (net_step route) (apart id (λ who, if who then ta else tb))) in Hs; [apply Hs|..].
    + intros a b. apply apart_step; [by intros []|done].
    + constructor; [by intros []..|]. by intros from to d ?%not_elem_of_nil.
  - intros who (t & Ht & Hr).
    destruct (tick_sends n0 who who t) as (n1 & S1 & F1 & Hk); [by destruct who|destruct who; cbn; unfold MaxPunchAttempts; lia|by destruct who|done|].
    destruct (Hk who) as [Ei El].
    destruct (syn_exchange n1 who who) as (n2 & S2 & Hsu & _); [done|rewrite Ei; by destruct who|rewrite El; by destruct who..|by rewrite Ei|].
    exists n2. split; [by eapply star_step|done].
Qed.

(** With one session id on both sides the exchange can always complete: as
    long as both listeners run, one side has an attempt left after which it
    still waits for the answer, and one of its targets reaches the other, a SYN,
    its SYN-ACK and the final ACK take both peers to success with each other. *)
Theorem same_session_connects n sid who t :
  length sid = 8%nat → pp_id (pn_a n) = sid → pp_id (pn_b n) = sid →
  pp_listening (pn_a n) = true → pp_listening (pn_b n) = true →
  pp_success (peer_at n who) = None → (S (pp_attempts (peer_at n who)) < MaxPunchAttempts)%nat →
  t ∈ pp_targets (peer_at n who) → route who t = Some (negb who) →
  ∃ n', star (net_step route) n n' ∧ pp_success (peer_at n' who) = Some (negb who) ∧
    pp_success (peer_at n' (negb who)) = Some who.
Proof.
  intros Hs Ia Ib La Lb Hf Hat Ht Hr.
  assert (∀ x, pp_id (peer_at n x) = sid ∧ pp_listening (peer_at n x) = true) as Hn by by intros [].
  assert (negb who ≠ who) as Hne by by destruct who.
  destruct (tick_sends n who (negb who) t Hf Hat Ht Hr) as (n1 & S1 & F1 & Hk).
  assert (∀ x, pp_id (peer_at n1 x) = sid ∧ pp_listening (peer_at n1 x) = true) as Hn1
    by (intros x; destruct (Hk x) as [-> ->]; apply Hn).
  destruct (Hn1 who) as [Iw Lw]. destruct (Hn1 (negb who)) as [It Lt].
  destruct (syn_exchange n1 who (negb who)) as (n2 & S2 & Hsu & Hot & Hack); [congruence|congruence|done|done| |].
  { rewrite Iw, <- (proj1 (Hn who)). exact F1. }
  specialize (Hot Hne). exists (set_peer n2 (negb who) (succeeded (peer_at n2 (negb who)) who)). split_and!.
  - eapply star_step; [exact S1|]. eapply star_trans; [exact S2|]. apply star_one.
    apply (net_deliver _ _ _ who (negb who) (punch_packet HolePunchAck sid)); [by rewrite <- Iw|].
    rewrite <- It, <- Hot, receive_own; [done|by rewrite Hot|rewrite Hot; congruence].
  - by rewrite peer_set, decide_False.
  - by rewrite peer_set, decide_True.
Qed.
End net.

(** ** The punching loop *)
Definition is_tick (e : punch_event) : bool := match e with TickEvent => true | _ => false end.
Definition ticks (evs : list punch_event) : nat := length (List.filter is_tick evs).

Definition syns (targets : list UDPAddr) (sid : bytes) : list (UDPAddr * bytes) :=
  (λ t, (t, punch_packet HolePunchSyn sid)) <$> targets.

Lemma punch_loop_spec max method targets sid att sent evs r out :
  punch_loop max method targets sid att sent evs = Some (r, out) → (att ≤ max)%nat →
  (att ≤ hr_Attempts r ≤ max)%nat ∧
  out = sent ++ concat (replicate (hr_Attempts r - att) (syns targets sid)) ∧
  (hr_Success r = true → (hr_Attempts r < max)%nat ∧ hr_Method r = method ∧
     ∃ addr pre post, evs = pre ++ Success addr :: post ∧ hr_RemoteAddr r = Some addr ∧
       hr_Attempts r = (att + ticks pre)%nat ∧ CtxDone ∉ pre).
Proof.
  revert att sent. induction evs as [|e evs IH]; intros att sent; cbn [punch_loop].
  { destruct (Nat.leb_spec max att); [|done]. intros [= <- <-] Hle. cbn.
    rewrite Nat.sub_diag, app_nil_r. split_and!; [lia..|done|done]. }
  destruct (Nat.leb_spec max att) as [Hm|Hm].
  { intros [= <- <-] Hle. cbn. rewrite Nat.sub_diag, app_nil_r. split_and!; [lia..|done|done]. }
  destruct e as [|addr| |].
  - intros [= <- <-] _. cbn. rewrite Nat.sub_diag, app_nil_r. split_and!; [lia..|done|done].
  - intros [= <- <-] _. cbn. rewrite Nat.sub_diag, app_nil_r. split_and!; [lia..|done|]. intros _.
    split_and!; [lia|done|]. exists addr, [], evs. split_and!; [done|done|unfold ticks; simpl; lia|].
    by intros ?%not_elem_of_nil.
  - intros E Hle. destruct (IH _ _ E Hle) as (H1 & H2 & H3). split; [done|]. split; [done|]. intros Hs.
    destruct (H3 Hs) as (H4 & H5 & addr & pre & post & -> & H6 & H7 & H8). split_and!; [done..|].
    exists addr, (ListenError :: pre), post. split_and!; [done|done|done|]. set_solver.
  - intros E _. destruct (IH _ _ E) as (H1 & H2 & H3); [lia|]. split_and!; [lia..| |].
    + rewrite H2, <- app_assoc. f_equal. replace (hr_Attempts r - att)%nat with (S (hr_Attempts r - S att)) by lia. done.
    + intros Hs. destruct (H3 Hs) as (H4 & H5 & addr & pre & post & -> & H6 & H7 & H8). split_and!; [done..|].
      exists addr, (TickEvent :: pre), post. split_and!; [done|done| |set_solver].
      rewrite H7. unfold ticks. simpl. lia.
Qed.

Lemma punch_loop_returns max method targets sid att sent evs :
  (max ≤ att + ticks evs)%nat ∨ CtxDone ∈ evs → is_Some (punch_loop max method targets sid att sent evs).
Proof.
  revert att sent. induction evs as [|e evs IH]; intros att sent; cbn [punch_loop].
  { intros [Hm|?%not_elem_of_nil]; [|done]. unfold ticks in Hm. simpl in Hm.
    destruct (Nat.leb_spec max att); [eauto|lia]. }
  destruct (Nat.leb_spec max att); [eauto|]. intros Hd.
  destruct e as [|addr| |]; eauto; apply IH.
  - destruct Hd as [Hd|Hd]; [left; exact Hd|right]. by apply elem_of_cons in Hd as [?|?].
  - destruct Hd as [Hd|Hd]; [left; unfold ticks in *; simpl in Hd; lia|right]. by apply elem_of_cons in Hd as [?|?].
Qed.

(** C37: the punching loop is bounded: it returns once five ticks have passed or
    its context has ended; it makes at most five attempts, each sending one SYN
    of the session to each target; it succeeds only on a report that comes
    before the fifth tick, with the reported address, so that the answer to the
    fifth SYN is never waited for. *)
Theorem punching_is_bounded pa la sid evs :
  ((MaxPunchAttempts ≤ ticks evs)%nat ∨ CtxDone ∈ evs → is_Some (attemptHolePunch pa la sid evs)) ∧
  (∀ r sent, attemptHolePunch pa la sid evs = Some (r, sent) →
     (hr_Attempts r ≤ MaxPunchAttempts)%nat ∧
     sent = concat (replicate (hr_Attempts r) (syns (punch_targets pa la) sid)) ∧
     (hr_Success r = true → (hr_Attempts r < MaxPunchAttempts)%nat ∧
        ∃ addr pre post, evs = pre ++ Success addr :: post ∧ hr_RemoteAddr r = Some addr ∧
          ticks pre = hr_Attempts r ∧ CtxDone ∉ pre)) ∧
  (∀ r sent, attemptHolePunch pa la sid (replicate 5 TickEvent ++ evs) = Some (r, sent) → hr_Success r = false).
Proof.
  split_and!.
  - exact (punch_loop_returns MaxPunchAttempts _ _ sid 0 [] evs).
  - intros r sent E. apply punch_loop_spec in E as (H1 & H2 & H3); [|lia]. rewrite Nat.sub_0_r in H2.
    split_and!; [lia|done|]. intros Hs. destruct (H3 Hs) as (H4 & _ & addr & pre & post & -> & H5 & H6 & H7).
    split; [done|]. exists addr, pre, post. done.
  - intros r sent E. cbn in E. destruct evs; by injection E as <- _.
Qed.

(** The fallback strategy does not survive a failed lookup: when the hole
    puncher is initialized but the peer cannot be looked up or its address not
    resolved, [Connect] dereferences the nil result and panics, whether or not
    a relay is configured and reachable. *)
Theorem fallback_panics exchange resolve show hp discovered localText relay remote sid evs hp' :
  Initialize exchange show hp discovered localText = (Ret (), hp') →
  (∃ e, LookupPeer exchange remote = Err e) ∨
  (∃ info, LookupPeer exchange remote = Ret info ∧ resolve (pi_PublicAddr info) = None) →
  fallback_Connect exchange resolve show hp discovered localText relay remote sid evs = Some Panic.
Proof.
  intros Hi Hl. unfold fallback_Connect. rewrite Hi.
  assert (hp_localConn hp' = true) as Hc.
  { unfold Initialize in Hi. destruct discovered as [a| |]; [|done..].
    destruct (Register _ _ _ _); simplify_eq; done. }
  unfold hp_Connect. rewrite Hc. cbn [negb]. destruct Hl as [[e ->]|(info & -> & Hr)]; [done|]. by rewrite Hr.
Qed.

(** ** Examples *)
Module PunchExample.
Definition sa : bytes := replicate 8 x0a.
Definition sb : bytes := replicate 8 x0b.

(** Two peers behind different public addresses, both bound to port 4000: the
    announced 0.0.0.0:4000 leads back to the sender. *)
Definition pub_a : UDPAddr := mkUDPAddr [xcb; x00; x71; x05] 4000.
Definition pub_b : UDPAddr := mkUDPAddr [xc6; x33; x64; x07] 4000.
Definition wildcard : UDPAddr := mkUDPAddr [x00; x00; x00; x00] 4000.
Definition internet (who : bool) (t : UDPAddr) : option bool :=
  if decide (t = pub_a) then Some true
  else if decide (t = pub_b) then Some false
  else if decide (t = wildcard) then Some who else None.

Lemma different_sessions_never_connect_witness :
  let start := net_start sa (punch_targets pub_b (Some wildcard)) sb (punch_targets pub_a None) in
  (∀ n x, star (net_step internet) start n → pp_success (pn_b n) ≠ Some x) ∧
  ∃ n, star (net_step internet) start n ∧ pp_success (pn_a n) = Some true.
Proof.
  destruct (different_sessions_never_connect internet sa (punch_targets pub_b (Some wildcard)) sb
    (punch_targets pub_a None) eq_refl eq_refl ltac:(discriminate)) as [H1 H2]. split.
  - intros n x Hs Hx. destruct (H1 n false x Hs Hx) as [_ (t & Ht & Hr)].
    apply list_elem_of_singleton in Ht as ->. discriminate Hr.
  - apply (H2 true). exists wildcard. split; [|reflexivity]. right. by apply list_elem_of_singleton.
Defined.

Lemma same_session_connects_witness :
  ∃ n', star (net_step internet) (net_start sa [pub_b] sa [pub_a]) n' ∧
    pp_success (pn_a n') = Some false ∧ pp_success (pn_b n') = Some true.
Proof.
  apply (same_session_connects internet (net_start sa [pub_b] sa [pub_a]) sa true pub_b); try reflexivity.
  - simpl. unfold MaxPunchAttempts. lia.
  - by apply list_elem_of_singleton.
Defined.

Definition pub : UDPAddr := mkUDPAddr [xcb; x00; x71; x05] 4000.

Lemma punching_is_bounded_witness :
  attemptHolePunch pub None sa (replicate 5 TickEvent ++ [Success pub]) =
    Some (mkPunchResult false None 5 NoMethod, concat (replicate 5 [(pub, punch_packet HolePunchSyn sa)])) ∧
  hr_Success (mkPunchResult false None 5 NoMethod) = false.
Proof.
  split; [reflexivity|].
  apply (proj2 (proj2 (punching_is_bounded pub None sa [Success pub])) _
    (concat (replicate 5 [(pub, punch_packet HolePunchSyn sa)]))). reflexivity.
Defined.

(** A signaling server on which only the caller is registered. *)
Definition sig (msg : bytes) : stream :=
  match handleConnection 0 ∅ (stream_of msg) with Ret (_, out) => stream_of out | _ => stream_of [] end.

Lemma fallback_panics_witness :
  fallback_Connect sig (λ _, Some pub) (λ _, [x61]) (NewHolePuncher [x70]) (Ret (mkMapped [x01; x02; x03; x04] 9))
    [x62] (Some (stream_of (sendConnectAck [x73]))) [x71] sa [] = Some Panic.
Proof.
  apply (fallback_panics _ _ _ _ _ _ _ _ _ _ (mkPuncher [x70] true (Some (mkMapped [x01; x02; x03; x04] 9)))).
  - vm_compute. reflexivity.
  - left. exists ErrPeerNotFound. vm_compute. reflexivity.
Defined.
End PunchExample.
