(* ===== verification/Rendezvous.v ===== *)
(** * How peers find each other ([internal/nat/stun.go], [signaling.go], [holepunch.go])

    A peer learns its public address from a STUN server, announces it as a text
    to the signaling server, and another peer resolves that text and punches
    towards it. Here the texts are concrete: [MappedAddress.String], the part of
    package net that prints addresses, and [net.ResolveUDPAddr] for udp4. Names,
    services and other literals are looked up by a parameter. *)
From Stdlib Require Import Strings.Byte Strings.String.
From S2P Require Import Prelude Stun Signaling SignalingLife Holepunch.

Open Scope Z_scope.

(** ** Decimal numbers *)
Definition digit_of (d : Z) : byte := byte_of (48 + d).
Definition is_digit (b : byte) : bool := (48 <=? byte_val b) && (byte_val b <=? 57).

(** [%d] of a number below 10^20. *)
Fixpoint digits (fuel : nat) (z : Z) : bytes :=
  match fuel with
  | O => []
  | S fuel' => if z <? 10 then [digit_of z] else digits fuel' (z / 10) ++ [digit_of (z mod 10)]
  end.

Definition decimal (z : Z) : bytes := digits 20 z.

Definition digit_value (acc : Z) (b : byte) : Z := acc * 10 + (byte_val b - 48).

(** All digits, at least one. *)
Definition parse_decimal (s : bytes) : option Z :=
  match s with
  | [] => None
  | _ => if forallb is_digit s then Some (foldl digit_value 0 s) else None
  end.

(** ** Addresses as text *)
Definition colon : byte := x3a.
Definition dot_byte : byte := x2e.

(** The digits of a group, without leading zeros. *)
Fixpoint hex_digits (fuel : nat) (z : Z) : bytes :=
  match fuel with
  | O => []
  | S fuel' => if z <? 16 then [hex_digit z] else hex_digits fuel' (z / 16) ++ [hex_digit (z mod 16)]
  end.

Definition groups (ip : bytes) : list Z := (λ i, be_get (slice (2 * i) (2 * i + 2) ip)) <$> seq 0 8.

Fixpoint zero_run (gs : list Z) : nat :=
  match gs with
  | g :: gs' => if g =? 0 then S (zero_run gs') else 0%nat
  | [] => 0%nat
  end.

(** The first longest run of at least two zero groups, as its bounds. *)
Definition zero_bounds (gs : list Z) : nat * nat :=
  foldl (λ best i, let l := zero_run (drop i gs) in
           if ((2 <=? l) && (snd best - fst best <? l))%nat then (i, (i + l)%nat) else best)
    (255, 255)%nat (seq 0 8).

(** The output loop of package netip from group [i] on. *)
Fixpoint v6_loop (fuel i : nat) (gs : list Z) (zs : nat * nat) : bytes :=
  match fuel with
  | O => []
  | S fuel' =>
      if (8 <=? i)%nat then []
      else if (i =? fst zs)%nat then
        [colon; colon] ++
        (if (8 <=? snd zs)%nat then []
         else hex_digits 4 (nth (snd zs) gs 0) ++ v6_loop fuel' (S (snd zs)) gs zs)
      else (if (0 <? i)%nat then [colon] else []) ++ hex_digits 4 (nth i gs 0) ++ v6_loop fuel' (S i) gs zs
  end.

Definition v4_text (ip : bytes) : bytes :=
  match ip with
  | [a; b; c; d] =>
      decimal (byte_val a) ++ dot_byte :: decimal (byte_val b) ++ dot_byte :: decimal (byte_val c) ++ dot_byte :: decimal (byte_val d)
  | _ => []
  end.

(** [IP.String]. *)
Definition IP_String (ip : bytes) : bytes :=
  if decide (length ip = 4%nat) then v4_text ip
  else if decide (length ip = 16%nat) then
    if decide (take 12 ip = v4_in_v6) then v4_text (drop 12 ip)
    else let gs := groups ip in v6_loop 8 0 gs (zero_bounds gs)
  else match ip with [] => bytes_of_string "<nil>" | _ => x3f :: hex_encode ip end.

Definition MappedAddress_String (m : MappedAddress) : bytes := IP_String (ma_IP m) ++ colon :: decimal (ma_Port m).

(** ** Resolving *)
Fixpoint split_on (sep : byte) (s cur : bytes) : list bytes :=
  match s with
  | [] => [cur]
  | b :: s' => if decide (b = sep) then cur :: split_on sep s' [] else split_on sep s' (cur ++ [b])
  end.

(** At the last occurrence. *)
Fixpoint split_last (sep : byte) (s : bytes) : option (bytes * bytes) :=
  match s with
  | [] => None
  | b :: s' =>
      match split_last sep s' with
      | Some (h, t) => Some (b :: h, t)
      | None => if decide (b = sep) then Some ([], s') else None
      end
  end.

Definition has_byte (b : byte) (s : bytes) : bool := existsb (λ c, bool_decide (c = b)) s.

(** [net.SplitHostPort] on a text that does not start with a bracket. *)
Definition SplitHostPort (hostport : bytes) : option (bytes * bytes) :=
  '(host, port) ← split_last colon hostport;
  if has_byte colon host || has_byte x5b hostport || has_byte x5d hostport then None else Some (host, port).

(** One field of a dotted address: at most 255, no leading zero. *)
Definition parse_octet (s : bytes) : option byte :=
  v ← parse_decimal s;
  if (255 <? v) || bool_decide (head s = Some x30 ∧ (1 < length s)%nat) then None else Some (byte_of v).

Definition parse_v4 (host : bytes) : option bytes :=
  match split_on dot_byte host [] with
  | [a; b; c; d] => a ← parse_octet a; b ← parse_octet b; c ← parse_octet c; d ← parse_octet d; Some [a; b; c; d]
  | _ => None
  end.

Section resolve.
(** What the resolver makes of a host and a port that are not an IPv4 literal
    and a number. *)
Context (lookup : bytes → bytes → option UDPAddr).

(** [bracketed] texts go to the resolver whole. *)
Definition ResolveUDPAddr4 (text : bytes) : option UDPAddr :=
  if decide (head text = Some x5b) then lookup text []
  else
    '(host, port) ← SplitHostPort text;
    match parse_v4 host, parse_decimal port with
    | Some ip, Some p => if 65535 <? p then None else Some (mkUDPAddr ip p)
    | _, _ => lookup host port
    end.
End resolve.

(** ** Numbers round trip *)
Lemma digit_of_val d : 0 ≤ d < 10 → is_digit (digit_of d) = true ∧ byte_val (digit_of d) - 48 = d.
Proof.
  intros Hd. unfold is_digit, digit_of. rewrite byte_val_of, Z.mod_small by lia.
  rewrite andb_true_iff, !Z.leb_le. lia.
Qed.

Lemma digits_value fuel z :
  0 ≤ z < 10 ^ Z.of_nat fuel → (0 < fuel)%nat →
  forallb is_digit (digits fuel z) = true ∧ foldl digit_value 0 (digits fuel z) = z ∧ digits fuel z ≠ [].
Proof.
  revert z. induction fuel as [|fuel IH]; intros z Hz Hf; [lia|]. cbn [digits].
  destruct (Z.ltb_spec z 10) as [H10|H10].
  - destruct (digit_of_val z ltac:(lia)) as [H1 H2]. cbn. rewrite H1. unfold digit_value. split_and!; [done|lia|done].
  - assert (fuel ≠ 0%nat) as Hf0 by (intros ->; cbn in Hz; lia).
    assert (0 ≤ z / 10 < 10 ^ Z.of_nat fuel) as Hd.
    { split; [apply Z.div_pos; lia|]. apply Z.div_lt_upper_bound; [lia|].
      rewrite Nat2Z.inj_succ, Z.pow_succ_r in Hz by lia. lia. }
    destruct (IH (z / 10) Hd ltac:(lia)) as (H1 & H2 & H3).
    destruct (digit_of_val (z mod 10)) as [H4 H5]; [apply Z.mod_pos_bound; lia|].
    rewrite forallb_app, foldl_app, H1, H2. cbn. rewrite H4. unfold digit_value. rewrite H5. split_and!; [done| |by destruct (digits fuel (z / 10))].
    pose proof (Z.div_mod z 10). lia.
Qed.

Lemma parse_decimal_text z : 0 ≤ z < 10 ^ 20 → parse_decimal (decimal z) = Some z ∧ forallb is_digit (decimal z) = true.
Proof.
  intros Hz. destruct (digits_value 20 z Hz ltac:(lia)) as (H1 & H2 & H3). fold (decimal z) in *. split; [|done].
  unfold parse_decimal. rewrite H1. destruct (decimal z); [done|by rewrite H2].
Qed.

(** ** Texts round trip *)
Lemma octet_text b : parse_octet (decimal (byte_val b)) = Some b.
Proof. destruct b; vm_compute; reflexivity. Qed.

Lemma digits_lack c s : is_digit c = false → forallb is_digit s = true → c ∉ s.
Proof. intros Hc Hs Hin. rewrite List.forallb_forall in Hs. apply list_elem_of_In in Hin. by rewrite (Hs c Hin) in Hc. Qed.

Lemma has_byte_iff c s : has_byte c s = true ↔ c ∈ s.
Proof.
  unfold has_byte. rewrite List.existsb_exists. split.
  - intros (x & Hx & ->%bool_decide_eq_true). by apply list_elem_of_In.
  - intros Hc. exists c. split; [by apply list_elem_of_In|by apply bool_decide_eq_true].
Qed.

Lemma has_byte_false c s : c ∉ s → has_byte c s = false.
Proof. intros Hc. apply not_true_iff_false. by rewrite has_byte_iff. Qed.

Lemma split_on_here sep p rest cur :
  sep ∉ p → split_on sep (p ++ sep :: rest) cur = (cur ++ p) :: split_on sep rest [] ∧ split_on sep p cur = [cur ++ p].
Proof.
  revert cur. induction p as [|b p IH]; intros cur Hp; cbn [split_on app].
  - rewrite decide_True by done. by rewrite app_nil_r.
  - apply not_elem_of_cons in Hp as [Hb Hp]. rewrite decide_False by done.
    rewrite decide_False by done. destruct (IH (cur ++ [b]) Hp) as [-> ->]. rewrite <- app_assoc. split; reflexivity.
Qed.

Lemma split_last_none sep t : sep ∉ t → split_last sep t = None.
Proof.
  induction t as [|b t IH]; [done|]. intros [Hb Ht]%not_elem_of_cons. cbn. rewrite IH by done. by rewrite decide_False.
Qed.

Lemma split_last_here sep h t : sep ∉ t → split_last sep (h ++ sep :: t) = Some (h, t).
Proof.
  intros Ht. induction h as [|b h IH]; cbn; [|by rewrite IH]. rewrite split_last_none by done. by rewrite decide_True.
Qed.

Lemma decimal_lacks c z : is_digit c = false → 0 ≤ z < 10 ^ 20 → c ∉ decimal z.
Proof. intros Hc Hz. apply digits_lack; [done|]. by apply parse_decimal_text. Qed.

Lemma octet_lacks c (b : byte) : is_digit c = false → c ∉ decimal (byte_val b).
Proof. intros Hc. apply decimal_lacks; [done|]. pose proof (byte_val_range b). lia. Qed.

Lemma v4_text_parse a b c d : parse_v4 (v4_text [a; b; c; d]) = Some [a; b; c; d].
Proof.
  unfold parse_v4, v4_text.
  assert (∀ x rest, split_on dot_byte (decimal (byte_val x) ++ dot_byte :: rest) [] = decimal (byte_val x) :: split_on dot_byte rest []) as Hs.
  { intros x rest. by apply (split_on_here dot_byte _ rest []), octet_lacks. }
  rewrite !Hs. rewrite (proj2 (split_on_here dot_byte (decimal (byte_val d)) [] [] (octet_lacks dot_byte d eq_refl))).
  cbn [app]. rewrite !octet_text. done.
Qed.

Lemma v4_text_lacks ip c : is_digit c = false → c ≠ dot_byte → c ∉ v4_text ip.
Proof.
  intros Hc Hd. unfold v4_text. destruct ip as [|a [|b [|x [|y [|]]]]]; try apply not_elem_of_nil.
  rewrite !elem_of_app, !elem_of_cons, !elem_of_app, !elem_of_cons, !elem_of_app, !elem_of_cons.
  pose proof (octet_lacks c a Hc). pose proof (octet_lacks c b Hc). pose proof (octet_lacks c x Hc). pose proof (octet_lacks c y Hc).
  naive_solver.
Qed.

(** ** IPv6 *)
Lemma hex_digits_lack fuel z : 0 ≤ z → x5b ∉ hex_digits fuel z.
Proof.
  assert (∀ d, 0 ≤ d < 16 → x5b ≠ hex_digit d) as Hx.
  { intros d Hd E%(f_equal byte_val). unfold hex_digit in E. rewrite byte_val_of in E.
    change (byte_val x5b) with 91 in E. destruct (Z.ltb_spec d 10); rewrite Z.mod_small in E; lia. }
  revert z. induction fuel as [|fuel IH]; intros z Hz; cbn [hex_digits]; [apply not_elem_of_nil|].
  destruct (Z.ltb_spec z 16).
  - rewrite list_elem_of_singleton. apply Hx. lia.
  - rewrite elem_of_app, list_elem_of_singleton. intros [Hin|E].
    + eapply IH, Hin. apply Z.div_pos; lia.
    + eapply Hx, E. apply Z.mod_pos_bound. lia.
Qed.

Lemma hex_digits_ne fuel z : hex_digits (S fuel) z ≠ [].
Proof. cbn [hex_digits]. destruct (z <? 16); [done|]. by intros [_ [=]]%app_nil. Qed.

(** The text of a compressed IPv6 address has a colon and starts with one or
    with a hexadecimal digit. *)
Lemma v6_loop_text gs zs :
  Forall (λ g, 0 ≤ g) gs → (colon ∈ v6_loop 8 0 gs zs) ∧ ∀ rest, head (v6_loop 8 0 gs zs ++ rest) ≠ Some x5b.
Proof.
  intros Hg. cbn [v6_loop]. change (8 <=? 0)%nat with false. change (8 <=? 1)%nat with false. change (0 <? 0)%nat with false.
  cbv iota. destruct (0 =? zs.1)%nat.
  - cbn [app]. split; [left|done].
  - cbn [app]. split.
    + rewrite elem_of_app. right. destruct (1 =? zs.1)%nat; cbn [app]; left.
    + intros rest. rewrite <- app_assoc. pose proof (hex_digits_ne 3 (nth 0 gs 0)) as Hne.
      pose proof (hex_digits_lack 4 (nth 0 gs 0)) as Hl.
      destruct (hex_digits 4 (nth 0 gs 0)) as [|b ds]; [done|]. intros [= ->]. apply Hl; [|left].
      destruct gs as [|g gs]; [done|]. by inversion Hg.
Qed.

(** ** Addresses round trip *)
Lemma resolve_split lookup host port ip p :
  (colon ∉ host) → (x5b ∉ host) → (x5d ∉ host) → parse_v4 host = Some ip → 0 ≤ p < 2 ^ 16 → port = decimal p →
  ResolveUDPAddr4 lookup (host ++ colon :: port) = Some (mkUDPAddr ip p).
Proof.
  intros H1 H2 H3 Hh Hp ->. assert (0 ≤ p < 10 ^ 20) as Hp' by lia.
  unfold ResolveUDPAddr4. rewrite decide_False.
  2:{ destruct host as [|b host]; [done|]. cbn. intros [= ->]. apply H2. left. }
  unfold SplitHostPort. rewrite split_last_here by (by apply decimal_lacks). cbn [mbind option_bind].
  assert (∀ c, is_digit c = false → c ≠ colon → c ∉ host → has_byte c (host ++ colon :: decimal p) = false) as Hb.
  { intros c Hc Hc' Hn. apply has_byte_false. rewrite elem_of_app, elem_of_cons. pose proof (decimal_lacks c p Hc Hp'). naive_solver. }
  rewrite (has_byte_false colon host), !Hb by done. cbn [orb mbind option_bind].
  rewrite Hh, (proj1 (parse_decimal_text p Hp')). by destruct (Z.ltb_spec 65535 p); [lia|].
Qed.

(** An IPv4 address survives being printed and resolved; an IPv6 address does
    not: it is printed without brackets, and the text cannot be split. *)
Theorem mapped_address_text lookup (m : MappedAddress) :
  0 ≤ ma_Port m < 2 ^ 16 →
  (length (ma_IP m) = 4%nat →
     ResolveUDPAddr4 lookup (MappedAddress_String m) = Some (mkUDPAddr (ma_IP m) (ma_Port m))) ∧
  (length (ma_IP m) = 16%nat → take 12 (ma_IP m) ≠ v4_in_v6 → ResolveUDPAddr4 lookup (MappedAddress_String m) = None).
Proof.
  intros Hp. destruct m as [ip p]. unfold MappedAddress_String, IP_String. cbn [ma_IP ma_Port] in *. split.
  - intros Hl. rewrite decide_True by done. destruct ip as [|a [|b [|c [|d [|]]]]]; try done.
    apply resolve_split; try apply v4_text_lacks; try done. apply v4_text_parse.
  - intros Hl Hv. rewrite Hl. rewrite decide_False, decide_True, decide_False by done. cbv zeta.
    destruct (v6_loop_text (groups ip) (zero_bounds (groups ip))) as [Hc Hh].
    { apply Forall_fmap, Forall_true. intros i. cbn. apply be_get_bound. }
    unfold ResolveUDPAddr4. rewrite decide_False by done. unfold SplitHostPort.
    rewrite split_last_here by (apply decimal_lacks; [done|lia]). cbn [mbind option_bind].
    by rewrite (proj2 (has_byte_iff colon _)).
Qed.

(** ** From the STUN answer to the other peer's punch

    The exchange of a client with the signaling server in state [s] at time
    [now]: one connection for one request. *)
Definition over (now : Z) (s : peers) (req : bytes) : stream :=
  match handleConnection now s (stream_of req) with
  | Ret (_, out) => stream_of out
  | _ => stream_of []
  end.

(** ** The client object

    [dial timeout addr] opens a connection: what comes back on it for the bytes
    sent, if the server is reached. The deadline of the connection is the second
    part of the result. *)
Record SignalingClient := mkSignalingClient { sc_serverAddr : bytes; sc_timeout : Z }.

Definition NewSignalingClient (serverAddr : bytes) : SignalingClient := mkSignalingClient serverAddr SignalingTimeout.

Inductive sc_error := Connecting | ClientError (e : client_error).

Definition sc_lift {A} (o : outcome client_error A) : outcome sc_error A :=
  match o with Ret a => Ret a | Err e => Err (ClientError e) | Panic => Panic end.

Section client.
Context (dial : Z → bytes → option (bytes → stream)).

Definition sc_connect (c : SignalingClient) (now : Z) : outcome sc_error ((bytes → stream) * Z) :=
  match dial (sc_timeout c) (sc_serverAddr c) with
  | Some conn => Ret (conn, now + sc_timeout c)
  | None => Err Connecting
  end.

Definition sc_Register (c : SignalingClient) (now : Z) (peerID publicAddr localAddr : bytes) : outcome sc_error unit :=
  '(conn, _) ← sc_connect c now;
  sc_lift (Register conn peerID publicAddr localAddr).

Definition sc_LookupPeer (c : SignalingClient) (now : Z) (peerID : bytes) : outcome sc_error PeerInfo :=
  '(conn, _) ← sc_connect c now;
  sc_lift (LookupPeer conn peerID).
End client.

(** The server listens on [addr] and nowhere else. *)
Definition dial_server (addr : bytes) (now : Z) (s : peers) (timeout : Z) (a : bytes) : option (bytes → stream) :=
  if decide (a = addr) then Some (over now s) else None.

(** The text of the socket's own address: it is bound to [net.IPv4zero], port
    [q] chosen by the system. *)
Definition local_text (q : Z) : bytes := MappedAddress_String (mkMapped (replicate 4 x00) q).

(** What other peers do at the server within the expiry time of a registration
    of [id] at [t]. *)
Definition elsewhere (id : bytes) (t : Z) (op : sig_op) : Prop :=
  op_small op ∧
  match op with
  | SRegister _ id' _ _ => id' ≠ id
  | SLookup _ _ => True
  | STick now => now ≤ t + PeerEntryExpiry
  end.

Lemma digits_length fuel k z : 0 ≤ z < 10 ^ Z.of_nat k → (0 < k)%nat → (length (digits fuel z) ≤ k)%nat.
Proof.
  revert k z. induction fuel as [|fuel IH]; intros k z Hz Hk; cbn [digits]; [cbn; lia|].
  destruct (Z.ltb_spec z 10); [cbn; lia|]. rewrite length_app. cbn [length].
  destruct k as [|[|k]]; [lia|cbn in Hz; lia|].
  enough (length (digits fuel (z / 10)) ≤ S k)%nat by lia. apply IH; [|lia].
  split; [apply Z.div_pos; lia|]. apply Z.div_lt_upper_bound; [lia|].
  rewrite (Nat2Z.inj_succ (S k)), Z.pow_succ_r in Hz by lia. lia.
Qed.

Lemma mapped_text_length ip p : length ip = 4%nat → 0 ≤ p < 2 ^ 16 → len (MappedAddress_String (mkMapped ip p)) ≤ 21.
Proof.
  intros Hi Hp. destruct ip as [|a [|b [|c [|d [|]]]]]; try done.
  assert (∀ x : byte, length (decimal (byte_val x)) ≤ 3)%nat as Ho.
  { intros x. apply digits_length; [|lia]. pose proof (byte_val_range x). cbn. lia. }
  assert (length (decimal p) ≤ 5)%nat by (apply digits_length; [cbn; lia|lia]).
  pose proof (Ho a). pose proof (Ho b). pose proof (Ho c). pose proof (Ho d).
  unfold MappedAddress_String, IP_String, len. cbn [ma_IP ma_Port]. rewrite decide_True by done. unfold v4_text.
  repeat (rewrite length_app; cbn [length]). lia.
Qed.

Lemma dir_run_keeps id e t m ops :
  m !! id = Some e → t ≤ pi_LastSeen e → Forall (elsewhere id t) ops → (dir_run m ops).1 !! id = Some e.
Proof.
  revert m. induction ops as [|op ops IH]; intros m Hm Ht Hops; [done|].
  inversion Hops as [|? ? [_ Hop] Hops']; subst. cbn [dir_run].
  assert ((dir_step m op).1 !! id = Some e) as Hs.
  { destruct op as [now id' pub loc|now id'|now]; cbn [dir_step]; [|done|].
    - destruct (_ <=? _); [|done]. cbn [fst]. by rewrite lookup_insert_ne.
    - cbn [fst]. rewrite <- cleanup_alive. apply map_lookup_filter_Some. split; [done|]. simpl. lia. }
  specialize (IH _ Hs Ht Hops'). destruct (dir_step m op) as [m1 r]. cbn [fst] in IH.
  by destruct (dir_run m1 ops).
Qed.


Lemma over_register s t id pub loc :
  entries_fit s → 6 + len id + len pub + len loc ≤ MaxBody →
  Register (over t s) id pub loc = Ret () ∧
  sig_step s (SRegister t id pub loc) = Ret (<[id := mkPeerInfo id pub loc t]> s, RRegister (Ret ())).
Proof.
  intros Hs Hl. destruct (sig_step_dir s (SRegister t id pub loc) Hs) as [E _]; [unfold MaxBody in Hl; cbn; lia|].
  cbn [dir_step] in E. destruct (Z.leb_spec (6 + len id + len pub + len loc) MaxBody); [|lia].
  split; [|done]. cbn [sig_step] in E. unfold Register, over in *.
  destruct (handleConnection _ _ _) as [[s' out]| |]; [|done..]. rewrite Ret_bind in E. cbv beta iota in E. congruence.
Qed.

Lemma over_lookup s t id e :
  entries_fit s → 2 + len id ≤ MaxBody → s !! id = Some e →
  LookupPeer (over t s) id = Ret (mkPeerInfo [] (pi_PublicAddr e) (pi_LocalAddr e) 0).
Proof.
  intros Hs Hl He. destruct (sig_step_dir s (SLookup t id) Hs) as [E _]; [unfold MaxBody in Hl; cbn; lia|].
  cbn [dir_step] in E. destruct (Z.leb_spec (2 + len id) MaxBody); [|lia]. rewrite He in E.
  cbn [sig_step] in E. unfold LookupPeer, over in *.
  destruct (handleConnection _ _ _) as [[s' out]| |]; [|done..]. rewrite Ret_bind in E. cbv beta iota in E. congruence.
Qed.

(** Registering and looking up through the client object. *)
Theorem client_roundtrip (addr : bytes) (s : peers) (t t' : Z) (id pub loc : bytes) :
  entries_fit s → 6 + len id + len pub + len loc ≤ MaxBody →
  ∃ s', sig_step s (SRegister t id pub loc) = Ret (s', RRegister (Ret ())) ∧
    sc_Register (dial_server addr t s) (NewSignalingClient addr) t id pub loc = Ret () ∧
    sc_LookupPeer (dial_server addr t' s') (NewSignalingClient addr) t' id = Ret (mkPeerInfo [] pub loc 0) ∧
    ∀ other, other ≠ addr → sc_LookupPeer (dial_server addr t' s') (NewSignalingClient other) t' id = Err Connecting.
Proof.
  intros Hs Hl. destruct (over_register s t id pub loc Hs Hl) as [Hr E]. exists (<[id := mkPeerInfo id pub loc t]> s).
  pose proof (len_nonneg pub). pose proof (len_nonneg loc).
  unfold sc_Register, sc_LookupPeer, sc_connect, dial_server. cbn [sc_serverAddr NewSignalingClient].
  rewrite decide_True, !Ret_bind, Hr by done. split_and!; [done|done| |].
  - rewrite decide_True, Ret_bind by done. cbv beta iota. pose proof (len_nonneg id).
    rewrite (over_lookup _ t' id (mkPeerInfo id pub loc t)); [done| |lia|by rewrite lookup_insert_eq].
    intros k x [[_ <-]|[_ Hx]]%lookup_insert_Some; [cbn; lia|by eapply Hs].
  - intros other Ho. by rewrite decide_False.
Qed.

(** C26: From the STUN answer to the other peer's punch. When the first STUN
    server answers with the IPv4 address the NAT shows, [Initialize] registers
    it at the signaling server; whatever other peers register, look up and let
    expire there within the expiry time, a peer that then connects to the same
    id punches towards exactly that address. The second address it punches is
    never the peer's address in its own network: the socket is bound to the
    wildcard address, and 0.0.0.0 is what is registered as the local address. *)
Theorem public_address_travels {srv : Type} (exchange : srv → bytes → outcome stun_error bytes)
    (nat_map : srv → MappedAddress) (txIDs : nat → bytes) (first : srv) (rest : list srv) (sock : nat)
    (lookup : bytes → bytes → option UDPAddr) (s0 : peers) (id : bytes) (q t : Z) (ops : list sig_op) :
  (∀ k, length (txIDs k) = 12%nat) → valid_mapping nat_map → answers exchange nat_map first →
  ma_IP (nat_map first) ≠ replicate 4 x00 → 0 ≤ q < 2 ^ 16 →
  entries_fit s0 → len id ≤ 976 → Forall (elsewhere id t) ops →
  let a := nat_map first in
  DiscoverWithNewConn exchange (Some sock) txIDs (first :: rest) = (Ret (a, sock), []) ∧
  Initialize (over t s0) MappedAddress_String (NewHolePuncher id) (Ret a) (local_text q) = (Ret (), mkPuncher id true (Some a)) ∧
  ∃ s1 s2 rs,
    sig_step s0 (SRegister t id (MappedAddress_String a) (local_text q)) = Ret (s1, RRegister (Ret ())) ∧
    sig_run s1 ops = Ret (s2, rs) ∧
    ∀ t' b sid evs, hp_localConn b = true →
      hp_Connect (over t' s2) (ResolveUDPAddr4 lookup) b id sid evs =
      (λ r, Ret r.1) <$> punch_loop MaxPunchAttempts HolePunchMethod
        [mkUDPAddr (ma_IP a) (ma_Port a); mkUDPAddr (replicate 4 x00) q] sid 0 [] evs.
Proof.
  intros Htx Hm Hans Hz Hq Hs Hid Hops a. destruct (Hm first) as [Hi Hp]. fold a in Hi, Hp, Hz.
  assert (len (MappedAddress_String a) ≤ 21) by (destruct a; by apply mapped_text_length).
  assert (len (local_text q) ≤ 21) by (by apply mapped_text_length).
  destruct (over_register s0 t id (MappedAddress_String a) (local_text q) Hs) as [Hr E1]; [unfold MaxBody; lia|].
  set (e := mkPeerInfo id (MappedAddress_String a) (local_text q) t) in *.
  assert (entries_fit (<[id := e]> s0)) as Hs1.
  { intros k x [[_ <-]|[_ Hx]]%lookup_insert_Some; [cbn; unfold MaxBody; lia|by eapply Hs]. }
  split; [|split].
  - unfold DiscoverWithNewConn, Discover. cbn [discover_loop]. by rewrite (query_answers exchange nat_map).
  - unfold Initialize. cbn [hp_peerID NewHolePuncher]. by rewrite Hr.
  - destruct (sig_run_dir (<[id := e]> s0) ops Hs1) as [E2 Hs2]; [eapply Forall_impl; [done|by intros ? []]|].
    assert ((dir_run (<[id := e]> s0) ops).1 !! id = Some e) as He.
    { apply (dir_run_keeps id e t); [by rewrite lookup_insert_eq|simpl; lia|done]. }
    destruct (dir_run (<[id := e]> s0) ops) as [s2 rs]. cbn [fst] in He, Hs2. pose proof (len_nonneg id).
    exists (<[id := e]> s0), s2, rs. split_and!; [done|done|]. intros t' b sid evs Hb. unfold hp_Connect. rewrite Hb.
    cbn [negb]. rewrite (over_lookup s2 t' id e Hs2) by (done || (unfold MaxBody; lia)). cbn [pi_PublicAddr pi_LocalAddr e].
    rewrite (proj1 (mapped_address_text lookup a Hp) Hi). unfold local_text.
    rewrite (proj1 (mapped_address_text lookup (mkMapped (replicate 4 x00) q) Hq) eq_refl).
    unfold attemptHolePunch, punch_targets. cbn [ma_IP ma_Port ua_IP]. rewrite ip_equal_v4, bool_decide_eq_false_2 by done.
    by destruct (punch_loop _ _ _ _ _ _ _) as [[? ?]|].
Qed.

(** ** Witnesses *)
Module RendezvousExample.
Definition tx (k : nat) : bytes := replicate 12 (byte_of (Z.of_nat k)).
Definition mapping (srv : unit) : MappedAddress := mkMapped [xcb; x00; x71; x05] 40000.
Definition stun_server (srv : unit) (req : bytes) : outcome stun_error bytes :=
  Ret (binding_response (drop 8 req) (attribute StunAttrXorMappedAddress (xor_address (ma_IP (mapping srv)) (ma_Port (mapping srv))))).

Definition others : list sig_op :=
  [SLookup 10 (bytes_of_string "alice"); SRegister 11 (bytes_of_string "carol") [] []; STick (60 * second)].
Definition no_names (host port : bytes) : option UDPAddr := None.

Example text_seen : MappedAddress_String (mapping ()) = bytes_of_string "203.0.113.5:40000".
Proof. vm_compute. reflexivity. Qed.

(** 2001:db8::1 *)
Definition v6 : bytes := [x20; x01; x0d; xb8] ++ replicate 11 x00 ++ [x01].

Example v6_text_seen :
  MappedAddress_String (mkMapped v6 80) = bytes_of_string "2001:db8::1:80" ∧
  ResolveUDPAddr4 no_names (MappedAddress_String (mkMapped v6 80)) = None.
Proof. vm_compute. done. Qed.

Lemma stun_answers : answers stun_server mapping ().
Proof. intros t Ht. unfold stun_server. by rewrite request_transaction. Qed.

Lemma public_address_travels_witness :
  ∃ s1 s2 rs,
    sig_step NewSignalingServer (SRegister 0 (bytes_of_string "alice") (MappedAddress_String (mapping ())) (local_text 40000)) =
      Ret (s1, RRegister (Ret ())) ∧
    sig_run s1 others = Ret (s2, rs) ∧
    hp_Connect (over (61 * second) s2) (ResolveUDPAddr4 no_names) (mkPuncher (bytes_of_string "bob") true None)
      (bytes_of_string "alice") (replicate 8 x01) [TickEvent; Success (mkUDPAddr [xcb; x00; x71; x05] 40000)] =
    Some (Ret (mkPunchResult true (Some (mkUDPAddr [xcb; x00; x71; x05] 40000)) 1 HolePunchMethod)).
Proof.
  destruct (public_address_travels stun_server mapping tx () [] 3 no_names NewSignalingServer (bytes_of_string "alice") 40000 0 others)
    as (_ & _ & s1 & s2 & rs & H1 & H2 & H3).
  - intros k. reflexivity.
  - intros []. vm_compute. split; [reflexivity|split; [discriminate|reflexivity]].
  - exact stun_answers.
  - vm_compute. discriminate.
  - lia.
  - intros k x Hx. discriminate Hx.
  - vm_compute. discriminate.
  - repeat constructor; vm_compute; discriminate.
  - exists s1, s2, rs. split; [exact H1|split; [exact H2|]].
    rewrite (H3 (61 * second) (mkPuncher (bytes_of_string "bob") true None) (replicate 8 x01) _ eq_refl). vm_compute. reflexivity.
Defined.
End RendezvousExample.
