(* ===== verification/Metrics.v ===== *)
(** * Metrics ([internal/metrics/metrics.go])

    The Prometheus registry is a library: a recording method is the list of
    operations it performs on the registry's instruments, in order. The speed
    tracker behind the transfer gauges is the program's own. Times are
    nanoseconds, [float64] values are rationals ([Q]), so rounding is not
    represented. *)
From Stdlib Require Import Strings.Byte Strings.String QArith.
From S2P Require Import Prelude.

Open Scope Z_scope.

(** ** Instruments and what is done with them *)
Inductive instrument :=
| bytesTransferred (direction peerID : bytes)
| transferDuration (direction peerID : bytes)
| transferSpeed (direction : bytes)
| chunksTotal
| chunksDeduplicated
| chunksStored
| chunkSize
| merkleTreeDepth
| merkleNodesTotal
| merkleDiffDuration
| merkleDirtyNodes
| deltaBytesSkipped
| deltaBytesTransferred
| deltaCompressionRatio
| activeConnections
| connectionAttempts (status : bytes)
| holePunchAttempts (status : bytes)
| syncOperations (operation status : bytes)
| syncDuration (operation : bytes)
| filesWatched
| fileEvents (event_type : bytes).

#[global] Instance instrument_eq_dec : EqDecision instrument.
Proof. solve_decision. Defined.

Inductive metric_op :=
| Add (i : instrument) (v : Q)
| Observe (i : instrument) (v : Q)
| Set_ (i : instrument) (v : Q).

Definition Inc (i : instrument) : metric_op := Add i 1%Q.

(** [Duration.Seconds]. *)
Definition Seconds (d : Z) : Q := (inject_Z d / inject_Z 1000000000)%Q.

(** ** The speed tracker *)
Record speedTracker := mkTracker {
  bytesTotal : Z;
  windowBytes : list Z;
  windowTimes : list Z;
  windowSize : nat;
}.

Definition newSpeedTracker (size : nat) : speedTracker := mkTracker 0 [] [] size.

(** [Time.Sub] saturates at the ends of the 64-bit range. *)
Definition time_Sub (t u : Z) : Z := Z.max (- 2 ^ 63) (Z.min (2 ^ 63 - 1) (t - u)).

Definition window_sum (l : list Z) : Z := foldl (λ acc b, s64 (acc + b)) 0 l.

Definition window_speed (st : speedTracker) : Q :=
  match windowTimes st, last (windowTimes st) with
  | first :: _ :: _, Some t =>
      let duration := time_Sub t first in
      if duration =? 0 then 0%Q else (inject_Z (window_sum (windowBytes st)) / Seconds duration)%Q
  | _, _ => 0%Q
  end.

Definition tracker_Record (st : speedTracker) (bytes now : Z) : Q * speedTracker :=
  let wb := windowBytes st ++ [bytes] in
  let wt := windowTimes st ++ [now] in
  let trim := (windowSize st <? length wb)%nat in
  let st' := mkTracker (s64 (bytesTotal st + bytes)) (if trim then tail wb else wb)
               (if trim then tail wt else wt) (windowSize st) in
  (window_speed st', st').

(** ** The recording methods *)
Record Metrics := mkMetrics { uploadSpeedTracker : speedTracker; downloadSpeedTracker : speedTracker }.

(** The global instance, made once. *)
Definition metrics_Get (globalMetrics : option Metrics) : Metrics * option Metrics :=
  let m := default (mkMetrics (newSpeedTracker 10) (newSpeedTracker 10)) globalMetrics in (m, Some m).

Definition upload : bytes := bytes_of_string "upload".
Definition download : bytes := bytes_of_string "download".

Definition RecordUpload (m : Metrics) (peerID : bytes) (n duration now : Z) : list metric_op * Metrics :=
  let '(speed, st) := tracker_Record (uploadSpeedTracker m) n now in
  ([Add (bytesTransferred upload peerID) (inject_Z n);
    Observe (transferDuration upload peerID) (Seconds duration);
    Set_ (transferSpeed upload) speed],
   mkMetrics st (downloadSpeedTracker m)).

Definition RecordDownload (m : Metrics) (peerID : bytes) (n duration now : Z) : list metric_op * Metrics :=
  let '(speed, st) := tracker_Record (downloadSpeedTracker m) n now in
  ([Add (bytesTransferred download peerID) (inject_Z n);
    Observe (transferDuration download peerID) (Seconds duration);
    Set_ (transferSpeed download) speed],
   mkMetrics (uploadSpeedTracker m) st).

Definition RecordChunkProcessed (size : Z) : list metric_op := [Inc chunksTotal; Observe chunkSize (inject_Z size)].
Definition RecordChunkDeduplicated : list metric_op := [Inc chunksDeduplicated].
Definition RecordChunkStored : list metric_op := [Inc chunksStored].

Definition SetMerkleTreeStats (depth nodeCount : Z) : list metric_op :=
  [Set_ merkleTreeDepth (inject_Z depth); Set_ merkleNodesTotal (inject_Z nodeCount)].

Definition RecordMerkleDiff (duration dirtyNodes : Z) : list metric_op :=
  [Observe merkleDiffDuration (Seconds duration); Observe merkleDirtyNodes (inject_Z dirtyNodes)].

Definition RecordDeltaSync (bytesSkipped bytesTransferred : Z) : list metric_op :=
  let total := s64 (bytesSkipped + bytesTransferred) in
  [Add deltaBytesSkipped (inject_Z bytesSkipped); Add deltaBytesTransferred (inject_Z bytesTransferred)] ++
  (if 0 <? total then [Observe deltaCompressionRatio (inject_Z bytesSkipped / inject_Z total)%Q] else []).

Definition status_of (success : bool) : bytes := bytes_of_string (if success then "success" else "failed").

Definition RecordConnectionAttempt (success : bool) : list metric_op := [Inc (connectionAttempts (status_of success))].
Definition SetActiveConnections (count : Z) : list metric_op := [Set_ activeConnections (inject_Z count)].
Definition RecordHolePunch (success : bool) : list metric_op := [Inc (holePunchAttempts (status_of success))].

Definition RecordSyncOperation (operation : bytes) (success : bool) (duration : Z) : list metric_op :=
  [Inc (syncOperations operation (status_of success)); Observe (syncDuration operation) (Seconds duration)].

Definition SetFilesWatched (count : Z) : list metric_op := [Set_ filesWatched (inject_Z count)].
Definition RecordFileEvent (eventType : bytes) : list metric_op := [Inc (fileEvents eventType)].

(** ** The window *)
Fixpoint records (st : speedTracker) (l : list (Z * Z)) : speedTracker :=
  match l with
  | [] => st
  | (b, t) :: l' => records (tracker_Record st b t).2 l'
  end.

(** The last [n] elements. *)
Definition recent {A} (n : nat) (l : list A) : list A := drop (length l - n) l.

Lemma recent_snoc {A} n (l : list A) x :
  recent n (l ++ [x]) = if (n <? length (recent n l ++ [x]))%nat then tail (recent n l ++ [x]) else recent n l ++ [x].
Proof.
  unfold recent. rewrite !length_app, length_drop. simpl length.
  destruct (Nat.ltb_spec n (length l - (length l - n) + 1)).
  - destruct (decide (n = 0)%nat) as [->|].
    + rewrite Nat.sub_0_r, !drop_ge by (rewrite ?length_app; simpl; lia). done.
    + rewrite drop_app_le by lia.
      replace (length l + 1 - n)%nat with (length l - n + 1)%nat by lia. rewrite <- drop_drop.
      destruct (drop (length l - n) l) eqn:E; [|done].
      apply (f_equal length) in E. rewrite length_drop in E. simpl in E. lia.
  - rewrite drop_app_le by lia. by replace (length l + 1 - n)%nat with (length l - n)%nat by lia.
Qed.

Record window_of (size : nat) (l : list (Z * Z)) (st : speedTracker) : Prop := {
  wo_size : windowSize st = size;
  wo_bytes : windowBytes st = recent size (fst <$> l);
  wo_times : windowTimes st = recent size (snd <$> l);
  wo_total : bytesTotal st = foldl (λ acc b, s64 (acc + b)) 0 (fst <$> l);
}.

Lemma Record_window size l st b t :
  window_of size l st → window_of size (l ++ [(b, t)]) (tracker_Record st b t).2.
Proof.
  intros [E1 E2 E3 E4]. constructor; cbn; rewrite ?fmap_app; cbn [fmap list_fmap fst snd].
  - done.
  - by rewrite E1, E2, recent_snoc.
  - rewrite E1, E2, E3, recent_snoc. rewrite !length_app. unfold recent. by rewrite !length_drop, !length_fmap.
  - by rewrite foldl_app, E4.
Qed.

Lemma records_window size l0 l st : window_of size l0 st → window_of size (l0 ++ l) (records st l).
Proof.
  revert l0 st. induction l as [|[b t] l IH]; intros l0 st Hw; cbn [records].
  - by rewrite app_nil_r.
  - rewrite (cons_middle (b, t)), app_assoc. by apply IH, Record_window.
Qed.

Lemma new_window size l : window_of size l (records (newSpeedTracker size) l).
Proof. by apply (records_window size []). Qed.

(** ** Theorems *)

(** Samples of [b] bytes, one every [t] nanoseconds from [t0] on. *)
Definition steady (b t t0 : Z) (k : nat) : list (Z * Z) := (λ i, (b, t0 + Z.of_nat i * t)) <$> seq 0 k.

Lemma window_sum_small l acc :
  Forall (λ b, 0 ≤ b) l → 0 ≤ acc → acc + foldr Z.add 0 l < 2 ^ 63 →
  foldl (λ acc b, s64 (acc + b)) acc l = acc + foldr Z.add 0 l.
Proof.
  revert acc. induction l as [|b l IH]; intros acc Hl Ha Hs; cbn in *; [lia|].
  apply Forall_cons in Hl as [Hb Hl].
  assert (0 ≤ foldr Z.add 0 l) by (clear -Hl; induction Hl; simpl; lia).
  rewrite s64_small by lia. rewrite IH by (done || lia). lia.
Qed.

Lemma foldr_add_replicate m b : foldr Z.add 0 (replicate m b) = Z.of_nat m * b.
Proof. induction m as [|m IH]; [done|]. cbn [replicate foldr]. rewrite IH. lia. Qed.

Lemma recent_seq (g : nat → Z) k n : recent n (g <$> seq 0 k) = g <$> seq (k - n) (k - (k - n)).
Proof. unfold recent. by rewrite length_fmap, length_seq, <- fmap_drop, drop_seq. Qed.

Lemma last_fmap_seq (g : nat → Z) a m : last (g <$> seq a (S m)) = Some (g (a + m)%nat).
Proof. rewrite seq_S, fmap_app. apply last_snoc. Qed.

Lemma steady_window b t t0 k size :
  (2 ≤ k)%nat → (2 ≤ size)%nat → 0 ≤ t →
  let m := Nat.min k size in
  let st := records (newSpeedTracker size) (steady b t t0 k) in
  windowBytes st = replicate m b ∧
  ∃ rest, windowTimes st = (t0 + Z.of_nat (k - m) * t) :: rest ∧ rest ≠ [] ∧
          last (windowTimes st) = Some (t0 + Z.of_nat (k - 1) * t).
Proof.
  intros Hk Hs Ht m st. destruct (new_window size (steady b t t0 k)) as [_ Eb Et _].
  assert (k - size = k - m ∧ k - (k - size) = m)%nat as [E1 E2] by (unfold m; lia).
  fold st in Eb, Et. unfold steady in Eb, Et. rewrite <- list_fmap_compose in Eb, Et.
  rewrite recent_seq, E2, E1 in Eb, Et. split.
  - rewrite Eb. clear. generalize (k - m)%nat as a. induction m as [|m' IH]; intros a; [done|].
    cbn [seq fmap list_fmap replicate]. by rewrite IH.
  - destruct m as [|[|m']] eqn:Em; [unfold m in Em; lia|unfold m in Em; lia|].
    assert (last (windowTimes st) = Some (t0 + Z.of_nat (k - 1) * t)) as El.
    { rewrite Et, last_fmap_seq. cbn. do 4 f_equal. unfold m in Em. lia. }
    eexists. split; [by rewrite Et|]. split; [done|exact El].
Qed.

(** The speed gauge is off by one sample: when [b] bytes are recorded every [t]
    nanoseconds, the gauge shows [m / (m - 1)] times the true rate [b / t] for a
    window of [m] samples, because the bytes of the oldest sample are counted
    while the time they took is not. *)
Theorem steady_speed_overestimated (b t t0 : Z) (k size : nat) :
  (2 ≤ k)%nat → (2 ≤ size)%nat → 0 < t → 0 ≤ b →
  let m := Z.of_nat (Nat.min k size) in
  m * b < 2 ^ 63 → (m - 1) * t < 2 ^ 63 →
  (window_speed (records (newSpeedTracker size) (steady b t t0 k))
   == (inject_Z m / inject_Z (m - 1)) * (inject_Z b / Seconds t))%Q.
Proof.
  intros Hk Hs Ht Hb m Hmb Hmt.
  destruct (steady_window b t t0 k size Hk Hs) as (Eb & rest & Et & Hr & El); [lia|].
  set (st := records _ _) in *. unfold window_speed. rewrite El, Et, Eb. destruct rest as [|r rest]; [done|].
  assert (2 ≤ m) as Hm by (unfold m; lia).
  assert (time_Sub (t0 + Z.of_nat (k - 1) * t) (t0 + Z.of_nat (k - Nat.min k size) * t) = (m - 1) * t) as ->.
  { unfold time_Sub, m in *. nia. }
  destruct (Z.eqb_spec ((m - 1) * t) 0); [nia|].
  assert (window_sum (replicate (Nat.min k size) b) = m * b) as ->.
  { unfold window_sum. rewrite window_sum_small, foldr_add_replicate; rewrite ?foldr_add_replicate; [done| |lia|unfold m in *; lia].
    by apply Forall_replicate. }
  unfold Seconds. rewrite !inject_Z_mult. field.
  split_and!; intros E; unfold inject_Z, Qeq in E; simpl in E; lia.
Qed.

(** *** Accounting *)
Record transfer := mkTransfer { tf_up : bool; tf_peer : bytes; tf_bytes : Z; tf_duration : Z; tf_now : Z }.

Definition record_transfer (m : Metrics) (c : transfer) : list metric_op * Metrics :=
  (if tf_up c then RecordUpload else RecordDownload) m (tf_peer c) (tf_bytes c) (tf_duration c) (tf_now c).

Fixpoint record_all (m : Metrics) (l : list transfer) : list metric_op * Metrics :=
  match l with
  | [] => ([], m)
  | c :: l' =>
      let '(ops, m1) := record_transfer m c in
      let '(rest, m2) := record_all m1 l' in (ops ++ rest, m2)
  end.

(** What a list of operations adds to an instrument. *)
Definition added (i : instrument) (ops : list metric_op) : Q :=
  foldr (λ o acc, match o with Add j v => if decide (i = j) then (v + acc)%Q else acc | _ => acc end) 0%Q ops.

Lemma added_app i a b : (added i (a ++ b) == added i a + added i b)%Q.
Proof.
  unfold added. rewrite foldr_app. set (z := foldr _ 0%Q b). generalize z. clear z b. intros z.
  induction a as [|[j v|j v|j v] a IH]; cbn [foldr]; [ring|..|done|done].
  case_decide; [rewrite IH; ring|done].
Qed.

Definition direction (up : bool) : bytes := if up then upload else download.

Definition bytes_of_calls (up : bool) (peer : bytes) (l : list transfer) : Z :=
  foldr (λ c acc, if decide (tf_up c = up ∧ tf_peer c = peer) then tf_bytes c + acc else acc) 0 l.

#[global] Instance direction_inj : Inj (=) (=) direction.
Proof. by intros [] []. Qed.

Lemma transfer_added m c ops m' up peer :
  record_transfer m c = (ops, m') →
  (added (bytesTransferred (direction up) peer) ops ==
   if decide (tf_up c = up ∧ tf_peer c = peer) then inject_Z (tf_bytes c) else 0)%Q.
Proof.
  intros E. assert (∃ d v, ops = [Add (bytesTransferred (direction (tf_up c)) (tf_peer c)) (inject_Z (tf_bytes c));
    Observe (transferDuration (direction (tf_up c)) (tf_peer c)) d; Set_ (transferSpeed (direction (tf_up c))) v]) as (d & v & ->).
  { unfold record_transfer, RecordUpload, RecordDownload in E. destruct (tf_up c); injection E as <- _; by eexists _, _. }
  cbn [added foldr]. case_decide as E1; case_decide as E2; try ring.
  - injection E1 as Ed Ep. apply direction_inj in Ed. by destruct E2.
  - destruct E2 as [<- <-]. by destruct E1.
Qed.

(** Whatever transfers are recorded, each byte counter ends up with the bytes of
    its direction and peer, and the tracker of a direction has seen exactly the
    transfers of that direction. *)
Theorem transfers_counted (m : Metrics) (l : list transfer) (up : bool) (peer : bytes) :
  (added (bytesTransferred (direction up) peer) (record_all m l).1 == inject_Z (bytes_of_calls up peer l))%Q ∧
  (if up then uploadSpeedTracker else downloadSpeedTracker) (record_all m l).2 =
  records ((if up then uploadSpeedTracker else downloadSpeedTracker) m)
    ((λ c, (tf_bytes c, tf_now c)) <$> filter (λ c, tf_up c = up) l).
Proof.
  revert m. induction l as [|c l IH]; intros m; [by destruct up|]. cbn [record_all].
  destruct (record_transfer m c) as [ops m1] eqn:Ec. specialize (IH m1).
  destruct (record_all m1 l) as [rest m2]. cbn [fst snd] in *. destruct IH as [IH1 IH2].
  split.
  - rewrite added_app, IH1, (transfer_added _ _ _ _ _ _ Ec). cbn [bytes_of_calls foldr].
    fold (bytes_of_calls up peer l).
    case_decide; [by rewrite inject_Z_plus|ring].
  - rewrite IH2. rewrite filter_cons. unfold record_transfer, RecordUpload, RecordDownload in Ec.
    destruct (tf_up c) eqn:Eu, up; injection Ec as _ <-; cbn; rewrite ?Eu; done.
Qed.

(** The delta ratio is between 0 and 1 and is observed whenever bytes were
    moved or skipped. *)
Theorem delta_ratio_in_range (a b : Z) :
  0 ≤ a → 0 ≤ b → 0 < a + b < 2 ^ 63 →
  ∃ r, Observe deltaCompressionRatio r ∈ RecordDeltaSync a b ∧ (0 <= r <= 1)%Q ∧
       (r * inject_Z (a + b) == inject_Z a)%Q.
Proof.
  intros Ha Hb Hs. unfold RecordDeltaSync. rewrite s64_small by lia.
  destruct (Z.ltb_spec 0 (a + b)); [|lia]. eexists. split; [apply elem_of_app; right; by apply list_elem_of_singleton|].
  assert (0 < inject_Z (a + b))%Q as Hp by (unfold inject_Z, Qlt; simpl; lia).
  split.
  - split; [apply Qle_shift_div_l; [done|]|apply Qle_shift_div_r; [done|]];
      rewrite ?Qmult_0_l, ?Qmult_1_l; unfold inject_Z, Qle; simpl; lia.
  - field. intros E. rewrite E in Hp. by apply Qlt_irrefl in Hp.
Qed.

(** ** Ten kilobytes every second, after twelve seconds: the gauge of the full
    window shows ten ninths of the rate. *)
Lemma steady_example :
  (window_speed (records (newSpeedTracker 10) (steady 10000 1000000000 0 12)) == 100000 # 9)%Q.
Proof. vm_compute. reflexivity. Qed.

Lemma steady_speed_overestimated_witness :
  (window_speed (records (newSpeedTracker 10) (steady 10000 1000000000 0 12))
   == (inject_Z 10 / inject_Z 9) * (inject_Z 10000 / Seconds 1000000000))%Q.
Proof. apply (steady_speed_overestimated 10000 1000000000 0 12 10); simpl; lia. Defined.

(** ** The package-level functions

    Each makes the global instance if need be and calls its method. *)
Definition on_global {A} (g : option Metrics) (f : Metrics → A * Metrics) : A * option Metrics :=
  let '(a, m) := f (metrics_Get g).1 in (a, Some m).

Definition pkg_RecordUpload (g : option Metrics) (peerID : bytes) (n duration now : Z) : list metric_op * option Metrics :=
  on_global g (λ m, RecordUpload m peerID n duration now).
Definition pkg_RecordDownload (g : option Metrics) (peerID : bytes) (n duration now : Z) : list metric_op * option Metrics :=
  on_global g (λ m, RecordDownload m peerID n duration now).
Definition pkg_RecordChunkProcessed (g : option Metrics) (size : Z) : list metric_op * option Metrics :=
  on_global g (λ m, (RecordChunkProcessed size, m)).
Definition pkg_RecordChunkDeduplicated (g : option Metrics) : list metric_op * option Metrics :=
  on_global g (λ m, (RecordChunkDeduplicated, m)).
Definition pkg_RecordChunkStored (g : option Metrics) : list metric_op * option Metrics :=
  on_global g (λ m, (RecordChunkStored, m)).
Definition pkg_SetMerkleTreeStats (g : option Metrics) (depth nodeCount : Z) : list metric_op * option Metrics :=
  on_global g (λ m, (SetMerkleTreeStats depth nodeCount, m)).
Definition pkg_RecordMerkleDiff (g : option Metrics) (duration dirtyNodes : Z) : list metric_op * option Metrics :=
  on_global g (λ m, (RecordMerkleDiff duration dirtyNodes, m)).
Definition pkg_RecordDeltaSync (g : option Metrics) (bytesSkipped bytesTransferred : Z) : list metric_op * option Metrics :=
  on_global g (λ m, (RecordDeltaSync bytesSkipped bytesTransferred, m)).

Definition pkg_transfer (g : option Metrics) (c : transfer) : list metric_op * option Metrics :=
  (if tf_up c then pkg_RecordUpload else pkg_RecordDownload) g (tf_peer c) (tf_bytes c) (tf_duration c) (tf_now c).

Fixpoint pkg_transfers (g : option Metrics) (l : list transfer) : list metric_op * option Metrics :=
  match l with
  | [] => ([], g)
  | c :: l' =>
      let '(ops, g1) := pkg_transfer g c in
      let '(rest, g2) := pkg_transfers g1 l' in (ops ++ rest, g2)
  end.

(** The first call makes the instance, later ones share it: a sequence of calls
    counts what the same sequence of method calls on one instance counts. *)
Theorem global_transfers_counted (l : list transfer) (up : bool) (peer : bytes) :
  pkg_transfers None l =
    (let m0 := mkMetrics (newSpeedTracker 10) (newSpeedTracker 10) in
     ((record_all m0 l).1, match l with [] => None | _ => Some (record_all m0 l).2 end)) ∧
  (added (bytesTransferred (direction up) peer) (pkg_transfers None l).1 == inject_Z (bytes_of_calls up peer l))%Q.
Proof.
  assert (∀ m l, pkg_transfers (Some m) l = ((record_all m l).1, Some (record_all m l).2)) as Hs.
  { clear. intros m l. revert m. induction l as [|c l IH]; intros m; [done|]. cbn [pkg_transfers record_all].
    assert (pkg_transfer (Some m) c = ((record_transfer m c).1, Some (record_transfer m c).2)) as ->.
    { unfold pkg_transfer, record_transfer, pkg_RecordUpload, pkg_RecordDownload, on_global. cbn [metrics_Get default fst].
      destruct (tf_up c); [by destruct (RecordUpload _ _ _ _ _)|by destruct (RecordDownload _ _ _ _ _)]. }
    destruct (record_transfer m c) as [ops m1]. cbn [fst snd]. rewrite IH. by destruct (record_all m1 l). }
  assert (pkg_transfers None l =
    (let m0 := mkMetrics (newSpeedTracker 10) (newSpeedTracker 10) in
     ((record_all m0 l).1, match l with [] => None | _ => Some (record_all m0 l).2 end))) as E.
  { destruct l as [|c l]; [done|]. cbv zeta. rewrite <- Hs. cbn [pkg_transfers].
    assert (∀ d, pkg_transfer None d = pkg_transfer (Some (mkMetrics (newSpeedTracker 10) (newSpeedTracker 10))) d) as ->
      by (intros d; unfold pkg_transfer; by destruct (tf_up d)).
    done. }
  split; [exact E|]. rewrite E. apply transfers_counted.
Qed.

(** ** The endpoint *)
Inductive http_handler := PromHandler | Respond (status : Z) (body : bytes) | NotFoundHandler.

Record Server := mkServer { srv_Addr : bytes; srv_Handler : list (bytes * http_handler) }.

Definition NewServer (addr : bytes) : Server :=
  mkServer addr [(bytes_of_string "/metrics", PromHandler);
                 (bytes_of_string "/health", Respond 200 (bytes_of_string "OK"))].

(** [ServeMux] on patterns without a trailing slash and a clean path. *)
Definition route (s : Server) (path : bytes) : http_handler :=
  match list_find (λ kv, kv.1 = path) (srv_Handler s) with
  | Some (_, (_, h)) => h
  | None => NotFoundHandler
  end.

Lemma route_only addr path :
  route (NewServer addr) path =
    if decide (path = bytes_of_string "/metrics") then PromHandler
    else if decide (path = bytes_of_string "/health") then Respond 200 (bytes_of_string "OK") else NotFoundHandler.
Proof.
  unfold route, NewServer. cbn [srv_Handler list_find fst].
  repeat case_decide; subst; (done || congruence).
Qed.
