(* ===== verification/MetricsRegistry.v ===== *)
(** * The instruments of the registry ([internal/metrics/metrics.go])

    The package variables of metrics.go are registered when the program starts:
    each is a definition of [Vars] under its own name. The Prometheus client is
    a library, the class [PromLib]: what its documentation promises about names,
    buckets, registration, label values and counters are the laws. A library
    call that panics is [None] or [false]. *)
From Stdlib Require Import Strings.Byte Strings.String QArith.
From S2P Require Import Prelude Metrics.

Open Scope Z_scope.

(** ** Descriptors *)
Inductive bucket_spec :=
| ExponentialBuckets (start factor : Q) (count : nat)
| LinearBuckets (start width : Q) (count : nat).

Inductive prom_kind := KCounter | KGauge | KHistogram (b : bucket_spec).

Record Opts := mkOpts {
  o_Namespace : bytes;
  o_Subsystem : bytes;
  o_Name : bytes;
  o_Help : bytes;
  o_kind : prom_kind;
  o_labels : list bytes;           (* none for the plain constructors *)
}.

Definition LabelPeerID : bytes := bytes_of_string "peer_id".
Definition LabelDirection : bytes := bytes_of_string "direction".
Definition LabelOperation : bytes := bytes_of_string "operation".
Definition LabelStatus : bytes := bytes_of_string "status".

Definition p2psync : bytes := bytes_of_string "p2psync".

Definition opts (sub name help : string) (k : prom_kind) (labels : list bytes) : Opts :=
  mkOpts p2psync (bytes_of_string sub) (bytes_of_string name) (bytes_of_string help) k labels.

(** ** The package variables, in the order of the source *)
Module Vars.
Definition bytesTransferred : Opts :=
  opts "transfer" "bytes_total" "Total bytes transferred" KCounter [LabelDirection; LabelPeerID].
Definition transferDuration : Opts :=
  opts "transfer" "duration_seconds" "Transfer duration in seconds"
    (KHistogram (ExponentialBuckets (1 # 1000) 2 15)) [LabelDirection; LabelPeerID].
Definition transferSpeed : Opts :=
  opts "transfer" "speed_bytes_per_second" "Current transfer speed in bytes per second" KGauge [LabelDirection].
Definition chunksTotal : Opts := opts "chunks" "processed_total" "Total chunks processed" KCounter [].
Definition chunksDeduplicated : Opts :=
  opts "chunks" "deduplicated_total" "Total chunks deduplicated (already existed)" KCounter [].
Definition chunksStored : Opts := opts "chunks" "stored_total" "Total new chunks stored" KCounter [].
Definition chunkSize : Opts :=
  opts "chunks" "size_bytes" "Distribution of chunk sizes" (KHistogram (ExponentialBuckets 256 2 10)) [].
Definition merkleTreeDepth : Opts := opts "merkle" "tree_depth" "Current Merkle tree depth" KGauge [].
Definition merkleNodesTotal : Opts := opts "merkle" "nodes_total" "Total nodes in Merkle tree" KGauge [].
Definition merkleDiffDuration : Opts :=
  opts "merkle" "diff_duration_seconds" "Duration of Merkle diff operations"
    (KHistogram (ExponentialBuckets (1 # 10000) 2 15)) [].
Definition merkleDirtyNodes : Opts :=
  opts "merkle" "dirty_nodes_per_diff" "Number of dirty nodes found per diff operation"
    (KHistogram (ExponentialBuckets 1 2 12)) [].
Definition deltaBytesSkipped : Opts :=
  opts "delta" "bytes_skipped_total" "Bytes skipped due to delta sync (existing blocks)" KCounter [].
Definition deltaBytesTransferred : Opts :=
  opts "delta" "bytes_transferred_total" "Bytes transferred after delta compression" KCounter [].
Definition deltaCompressionRatio : Opts :=
  opts "delta" "compression_ratio" "Delta compression ratio (0-1, higher is better)"
    (KHistogram (LinearBuckets 0 (1 # 10) 11)) [].
Definition activeConnections : Opts := opts "connections" "active" "Number of active peer connections" KGauge [].
Definition connectionAttempts : Opts :=
  opts "connections" "attempts_total" "Total connection attempts" KCounter [LabelStatus].
Definition holePunchAttempts : Opts :=
  opts "nat" "hole_punch_attempts_total" "Total hole punch attempts" KCounter [LabelStatus].
Definition syncOperations : Opts :=
  opts "sync" "operations_total" "Total sync operations" KCounter [LabelOperation; LabelStatus].
Definition syncDuration : Opts :=
  opts "sync" "duration_seconds" "Sync operation duration"
    (KHistogram (ExponentialBuckets (1 # 10) 2 12)) [LabelOperation].
Definition filesWatched : Opts := opts "watcher" "files_total" "Number of files being watched" KGauge [].
Definition fileEvents : Opts :=
  opts "watcher" "events_total" "File system events received" KCounter [bytes_of_string "event_type"].

Definition all : list Opts :=
  [bytesTransferred; transferDuration; transferSpeed; chunksTotal; chunksDeduplicated; chunksStored; chunkSize;
   merkleTreeDepth; merkleNodesTotal; merkleDiffDuration; merkleDirtyNodes; deltaBytesSkipped;
   deltaBytesTransferred; deltaCompressionRatio; activeConnections; connectionAttempts; holePunchAttempts;
   syncOperations; syncDuration; filesWatched; fileEvents].
End Vars.

(** The variable an operation goes to, and the label values it passes. *)
Definition var_of (i : instrument) : Opts :=
  match i with
  | bytesTransferred _ _ => Vars.bytesTransferred
  | transferDuration _ _ => Vars.transferDuration
  | transferSpeed _ => Vars.transferSpeed
  | chunksTotal => Vars.chunksTotal
  | chunksDeduplicated => Vars.chunksDeduplicated
  | chunksStored => Vars.chunksStored
  | chunkSize => Vars.chunkSize
  | merkleTreeDepth => Vars.merkleTreeDepth
  | merkleNodesTotal => Vars.merkleNodesTotal
  | merkleDiffDuration => Vars.merkleDiffDuration
  | merkleDirtyNodes => Vars.merkleDirtyNodes
  | deltaBytesSkipped => Vars.deltaBytesSkipped
  | deltaBytesTransferred => Vars.deltaBytesTransferred
  | deltaCompressionRatio => Vars.deltaCompressionRatio
  | activeConnections => Vars.activeConnections
  | connectionAttempts _ => Vars.connectionAttempts
  | holePunchAttempts _ => Vars.holePunchAttempts
  | syncOperations _ _ => Vars.syncOperations
  | syncDuration _ => Vars.syncDuration
  | filesWatched => Vars.filesWatched
  | fileEvents _ => Vars.fileEvents
  end.

Definition label_values (i : instrument) : list bytes :=
  match i with
  | bytesTransferred d p | transferDuration d p => [d; p]
  | transferSpeed d => [d]
  | connectionAttempts s | holePunchAttempts s => [s]
  | syncOperations o s => [o; s]
  | syncDuration o => [o]
  | fileEvents t => [t]
  | _ => []
  end.

(** ** The library *)
Definition letter (b : byte) : bool :=
  ((97 <=? byte_val b) && (byte_val b <=? 122)) || ((65 <=? byte_val b) && (byte_val b <=? 90)) || (byte_val b =? 95).
Definition digit (b : byte) : bool := (48 <=? byte_val b) && (byte_val b <=? 57).

(** Letters, digits and underscores, not starting with a digit. *)
Definition valid_name (s : bytes) : bool :=
  match s with
  | [] => false
  | b :: rest => letter b && forallb (λ c, letter c || digit c) rest
  end.

(** Not reserved: no two leading underscores. *)
Definition valid_label (s : bytes) : bool :=
  valid_name s && match s with x5f :: x5f :: _ => false | _ => true end.

(** [utf8.ValidString]: no truncated, overlong or surrogate encodings, nothing
    above U+10FFFF. *)
Definition in_range (lo hi : Z) (b : byte) : bool := (lo <=? byte_val b) && (byte_val b <=? hi).
Definition continuation : byte → bool := in_range 128 191.

(** The bytes that may follow a first byte. *)
Definition utf8_rest (b : byte) : option (list (byte → bool)) :=
  let v := byte_val b in
  if v <? 128 then Some []
  else if (194 <=? v) && (v <=? 223) then Some [continuation]
  else if v =? 224 then Some [in_range 160 191; continuation]
  else if v =? 237 then Some [in_range 128 159; continuation]
  else if (225 <=? v) && (v <=? 239) then Some [continuation; continuation]
  else if v =? 240 then Some [in_range 144 191; continuation; continuation]
  else if (241 <=? v) && (v <=? 243) then Some [continuation; continuation; continuation]
  else if v =? 244 then Some [in_range 128 143; continuation; continuation]
  else None.

Fixpoint utf8_from (expected : list (byte → bool)) (s : bytes) : bool :=
  match s with
  | [] => match expected with [] => true | _ => false end
  | b :: s' =>
      match expected with
      | ok :: expected' => ok b && utf8_from expected' s'
      | [] => match utf8_rest b with Some e => utf8_from e s' | None => false end
      end
  end.

Definition ValidString (s : bytes) : bool := utf8_from [] s.

Example valid_strings :
  ValidString [x63; xc3; xa9] = true ∧ ValidString [xe2; x82; xac] = true ∧ ValidString [xf0; x9f; x98; x80] = true ∧
  ValidString [xff] = false ∧ ValidString [xc3] = false ∧ ValidString [xc0; xaf] = false ∧
  ValidString [xed; xa0; x80] = false ∧ ValidString [xf4; x90; x80; x80] = false.
Proof. by vm_compute. Qed.

(** A character at a time. *)
Lemma ValidString_app s t : ValidString s = true → ValidString (s ++ t) = ValidString t.
Proof.
  unfold ValidString. enough (∀ e, utf8_from e s = true → utf8_from e (s ++ t) = utf8_from [] t) as Hs by apply Hs.
  induction s as [|b s IH]; intros e Hs; simpl in *; [by destruct e|]. destruct e as [|ok e].
  - destruct (utf8_rest b); [by apply IH|done].
  - apply andb_true_iff in Hs as [-> Hs]. by apply IH.
Qed.

(** [ExponentialBuckets] and [LinearBuckets] as documented. *)
Definition bounds (b : bucket_spec) : list Q :=
  match b with
  | ExponentialBuckets start factor count => (λ i, start * factor ^ Z.of_nat i)%Q <$> seq 0 count
  | LinearBuckets start width count => (λ i, start + inject_Z (Z.of_nat i) * width)%Q <$> seq 0 count
  end.

Definition bucket_spec_ok (b : bucket_spec) : bool :=
  match b with
  | ExponentialBuckets start factor count =>
      bool_decide (0 < count)%nat && negb (Qle_bool start 0) && negb (Qle_bool factor 1)
  | LinearBuckets _ width count => bool_decide (0 < count)%nat && negb (Qle_bool width 0)
  end.

(** What a descriptor must be like to be registered. *)
Definition opts_ok (o : Opts) : bool :=
  valid_name (o_Namespace o) && valid_name (o_Subsystem o) && valid_name (o_Name o) &&
  forallb valid_label (o_labels o) && bool_decide (NoDup (o_labels o)) &&
  match o_kind o with
  | KHistogram b => bucket_spec_ok b && bool_decide (bytes_of_string "le" ∉ o_labels o)
  | _ => true
  end.

Class PromLib := {
  Registry : Type;
  NewRegistry : Registry;
  names : Registry → gset bytes;
  BuildFQName : bytes → bytes → bytes → bytes;
  buckets : bucket_spec → option (list Q);
  MustRegister : Registry → bytes → Opts → option Registry;
  WithLabelValues : Opts → list bytes → bool;
  counter_Add : Q → bool;
  names_new : names NewRegistry = ∅;
  build_fq ns sub name : ns ≠ [] → sub ≠ [] → name ≠ [] → BuildFQName ns sub name = ns ++ x5f :: sub ++ x5f :: name;
  buckets_ok b : bucket_spec_ok b = true → ∃ l, buckets b = Some l ∧ Forall2 Qeq l (bounds b);
  register_fresh r n o : opts_ok o = true → n ∉ names r →
    ∃ r', MustRegister r n o = Some r' ∧ names r' = {[n]} ∪ names r;
  register_twice r n o : n ∈ names r → MustRegister r n o = None;
  with_labels o vs : WithLabelValues o vs = true ↔ length vs = length (o_labels o) ∧ forallb ValidString vs = true;
  counter_nonneg v : counter_Add v = true ↔ (0 <= v)%Q;
}.

Section registry.
Context `{PromLib}.

Definition fq (o : Opts) : bytes := BuildFQName (o_Namespace o) (o_Subsystem o) (o_Name o).

(** The buckets are made before the histogram is. *)
Definition promauto_New (r : Registry) (o : Opts) : option Registry :=
  match o_kind o with
  | KHistogram b => _ ← buckets b; MustRegister r (fq o) o
  | _ => MustRegister r (fq o) o
  end.

Fixpoint register_all (r : Registry) (os : list Opts) : option Registry :=
  match os with
  | [] => Some r
  | o :: os' => r' ← promauto_New r o; register_all r' os'
  end.

Definition op_instrument (o : metric_op) : instrument :=
  match o with Add i _ | Set_ i _ | Observe i _ => i end.

(** Whether an operation panics: a missing or invalid label value, or a counter
    that would decrease. *)
Definition op_ok (o : metric_op) : bool :=
  match o with
  | Add i v => WithLabelValues (var_of i) (label_values i) &&
               match o_kind (var_of i) with KCounter => counter_Add v | KGauge => true | KHistogram _ => false end
  | Set_ i _ => WithLabelValues (var_of i) (label_values i) &&
               match o_kind (var_of i) with KGauge => true | _ => false end
  | Observe i _ => WithLabelValues (var_of i) (label_values i) &&
               match o_kind (var_of i) with KHistogram _ => true | _ => false end
  end.

(** ** Registration *)
Lemma register_distinct os r :
  forallb opts_ok os = true → NoDup (fq <$> os) → (∀ o, o ∈ os → fq o ∉ names r) →
  ∃ r', register_all r os = Some r' ∧ names r' = list_to_set (fq <$> os) ∪ names r.
Proof.
  revert r. induction os as [|o os IH]; intros r Hok Hnd Hfresh; cbn [register_all fmap list_fmap list_to_set].
  { exists r. split; [done|set_solver]. }
  apply andb_true_iff in Hok as [Ho Hok]. apply NoDup_cons in Hnd as [Hn Hnd].
  destruct (register_fresh r (fq o) o Ho) as (r1 & E1 & N1); [apply Hfresh; left|].
  assert (promauto_New r o = Some r1) as ->.
  { unfold promauto_New. destruct (o_kind o) as [| |b] eqn:Ek; [done|done|].
    unfold opts_ok in Ho. rewrite Ek in Ho. apply andb_true_iff in Ho as [_ [Hb _]%andb_true_iff].
    destruct (buckets_ok b Hb) as (l & -> & _). done. }
  cbn [mbind option_bind]. destruct (IH r1 Hok Hnd) as (r' & E & N).
  - intros o' Ho'. rewrite N1. intros [E|E]%elem_of_union; [|by apply (Hfresh o'); [right|]].
    apply elem_of_singleton in E. apply Hn. rewrite <- E. by apply list_elem_of_fmap_2.
  - exists r'. split; [done|]. rewrite N, N1. set_solver.
Qed.

(** Two fully qualified names differ when the components do as written. *)
Lemma fq_all :
  fq <$> Vars.all = (λ o, o_Namespace o ++ x5f :: o_Subsystem o ++ x5f :: o_Name o) <$> Vars.all.
Proof.
  apply list_fmap_ext. intros i o Ho. apply build_fq;
    apply list_elem_of_lookup_2 in Ho; unfold Vars.all in Ho;
    repeat (apply elem_of_cons in Ho as [->|Ho]); by try apply not_elem_of_nil in Ho.
Qed.

Lemma fq_distinct : NoDup (fq <$> Vars.all).
Proof. rewrite fq_all. apply (bool_decide_unpack _). vm_compute. exact I. Qed.

Lemma var_of_registered i : var_of i ∈ Vars.all.
Proof. apply list_elem_of_In. destruct i; cbn; tauto. Qed.

Lemma all_registered : ∃ r, register_all NewRegistry Vars.all = Some r ∧ names r = list_to_set (fq <$> Vars.all).
Proof.
  destruct (register_distinct Vars.all NewRegistry) as (r & E & N);
    [vm_compute; reflexivity|apply fq_distinct|intros o _; rewrite names_new; set_solver|].
  exists r. by rewrite names_new, (right_id_L ∅ (∪)) in N.
Qed.

(** The program's instruments can be registered: at the start of the
    program no bucket constructor and no registration panics, the registry then
    holds exactly the twenty-one names, no two of them equal, and every
    instrument a recording method uses is among them. *)
Theorem instruments_registered :
  ∃ r, register_all NewRegistry Vars.all = Some r ∧ names r = list_to_set (fq <$> Vars.all) ∧
    size (names r) = 21%nat ∧ ∀ i, fq (var_of i) ∈ names r.
Proof.
  destruct all_registered as (r & E & N). exists r. split_and!; [done|done| |].
  - rewrite N, size_list_to_set by apply fq_distinct. by rewrite length_fmap.
  - intros i. rewrite N. apply elem_of_list_to_set, list_elem_of_fmap_2, var_of_registered.
Qed.

(** ** Recording *)
Inductive call :=
| CUpload (peerID : bytes) (n duration now : Z)
| CDownload (peerID : bytes) (n duration now : Z)
| CChunkProcessed (size : Z)
| CChunkDeduplicated
| CChunkStored
| CMerkleTreeStats (depth nodeCount : Z)
| CMerkleDiff (duration dirtyNodes : Z)
| CDeltaSync (bytesSkipped bytesTransferred : Z)
| CConnectionAttempt (success : bool)
| CActiveConnections (count : Z)
| CHolePunch (success : bool)
| CSyncOperation (operation : bytes) (success : bool) (duration : Z)
| CFilesWatched (count : Z)
| CFileEvent (eventType : bytes).

Definition call_ops (m : Metrics) (c : call) : list metric_op * Metrics :=
  match c with
  | CUpload p n d now => RecordUpload m p n d now
  | CDownload p n d now => RecordDownload m p n d now
  | CChunkProcessed sz => (RecordChunkProcessed sz, m)
  | CChunkDeduplicated => (RecordChunkDeduplicated, m)
  | CChunkStored => (RecordChunkStored, m)
  | CMerkleTreeStats d n => (SetMerkleTreeStats d n, m)
  | CMerkleDiff d n => (RecordMerkleDiff d n, m)
  | CDeltaSync a b => (RecordDeltaSync a b, m)
  | CConnectionAttempt b => (RecordConnectionAttempt b, m)
  | CActiveConnections n => (SetActiveConnections n, m)
  | CHolePunch b => (RecordHolePunch b, m)
  | CSyncOperation o b d => (RecordSyncOperation o b d, m)
  | CFilesWatched n => (SetFilesWatched n, m)
  | CFileEvent t => (RecordFileEvent t, m)
  end.

(** The operations that are carried out, up to a panic. *)
Fixpoint carried_out (ops : list metric_op) : list metric_op * bool :=
  match ops with
  | [] => ([], true)
  | o :: ops' => if op_ok o then let '(l, b) := carried_out ops' in (o :: l, b) else ([], false)
  end.

(** What a caller has to see to. *)
Definition call_ok (c : call) : bool :=
  match c with
  | CUpload p n _ _ | CDownload p n _ _ => (0 <=? n) && ValidString p
  | CDeltaSync a b => (0 <=? a) && (0 <=? b)
  | CSyncOperation o _ _ => ValidString o
  | CFileEvent t => ValidString t
  | _ => true
  end.

Lemma carried_out_all ops : (carried_out ops).2 = forallb op_ok ops.
Proof. induction ops as [|o ops IH]; [done|]. cbn. destruct (op_ok o); [|done]. by destruct (carried_out ops). Qed.

Lemma carried_out_prefix ops : (carried_out ops).1 `prefix_of` ops.
Proof.
  induction ops as [|o ops IH]; [done|]. cbn. destruct (op_ok o); [|apply prefix_nil].
  destruct (carried_out ops). by apply prefix_cons.
Qed.

Lemma with_labels_b o vs :
  WithLabelValues o vs = bool_decide (length vs = length (o_labels o)) && forallb ValidString vs.
Proof.
  apply eq_true_iff_eq. rewrite with_labels, andb_true_iff. by rewrite bool_decide_eq_true.
Qed.

Lemma counter_inject n : counter_Add (inject_Z n) = (0 <=? n).
Proof.
  apply eq_true_iff_eq. rewrite counter_nonneg, Z.leb_le. unfold inject_Z, Qle. simpl. lia.
Qed.

Lemma counter_one : counter_Add 1 = true.
Proof. by apply counter_nonneg. Qed.

Lemma constant_values b :
  ValidString upload = true ∧ ValidString download = true ∧ ValidString (status_of b) = true.
Proof. destruct b; by vm_compute. Qed.

(** Evaluating the checks of one operation. *)
Ltac eval_ops :=
  repeat match goal with
  | |- context [forallb op_ok (?o :: ?l)] => change (forallb op_ok (o :: l)) with (op_ok o && forallb op_ok l)
  | |- context [forallb op_ok []] => change (forallb op_ok []) with true
  end;
  unfold op_ok, Inc; rewrite ?with_labels_b; cbn [label_values var_of length];
  repeat match goal with |- context [o_kind ?v] => let k := eval cbv in (o_kind v) in change (o_kind v) with k end;
  rewrite ?bool_decide_eq_true_2 by reflexivity; cbn [forallb];
  rewrite ?counter_inject, ?counter_one, ?andb_true_l, ?andb_true_r.

(** C36: The start of the program registers every instrument, under names no two
    of which are equal, and a recording method only uses registered ones, with as
    many label values as the instrument has labels and with an operation of its
    kind. It panics exactly when its caller gives it a negative number of bytes
    for a counter or a peer name, operation or event type that is not valid
    UTF-8. A call that does not panic carries out all its operations; one that
    does has carried out those before. *)
Theorem recording_panics_iff (m : Metrics) (c : call) :
  let ops := (call_ops m c).1 in
  (∃ r, register_all NewRegistry Vars.all = Some r ∧ names r = list_to_set (fq <$> Vars.all) ∧
     NoDup (fq <$> Vars.all) ∧ ∀ o, o ∈ ops → fq (var_of (op_instrument o)) ∈ names r) ∧
  ((carried_out ops).2 = call_ok c) ∧
  (call_ok c = true → (carried_out ops).1 = ops) ∧ (carried_out ops).1 `prefix_of` ops.
Proof.
  intros ops. assert (forallb op_ok ops = call_ok c) as E.
  { destruct (constant_values true) as (Hu & Hd & Hs). destruct (constant_values false) as (_ & _ & Hf).
    assert (∀ b, ValidString (status_of b) = true) as Hst by by intros [].
    unfold ops, call_ops. destruct c; cbn [fst call_ok].
    all: unfold RecordUpload, RecordDownload, RecordChunkProcessed, RecordChunkDeduplicated, RecordChunkStored,
           SetMerkleTreeStats, RecordMerkleDiff, RecordDeltaSync, RecordConnectionAttempt, SetActiveConnections,
           RecordHolePunch, RecordSyncOperation, SetFilesWatched, RecordFileEvent.
    all: try case_match; cbn [fst]; try (destruct (0 <? _); cbn [app]).
    all: eval_ops; rewrite ?Hu, ?Hd, ?Hst, ?andb_true_l, ?andb_true_r; try done.
    all: by repeat match goal with |- context [ValidString ?p] => destruct (ValidString p) end; rewrite ?andb_false_r, ?andb_true_r. }
  split_and!; [|by rewrite carried_out_all|intros Hc|apply carried_out_prefix].
  { destruct all_registered as (r & Er & N). exists r. split_and!; [done|done|apply fq_distinct|]. intros o _.
    rewrite N. apply elem_of_list_to_set, list_elem_of_fmap_2, var_of_registered. }
  rewrite Hc in E. clear -E. induction ops as [|o ops IH]; [done|]. cbn in E |- *.
  destruct (op_ok o); [|done]. specialize (IH E). destruct (carried_out ops). cbn in *. by rewrite IH.
Qed.
End registry.

(** ** Buckets

    The comments of the source give the ends of two of the bucket rows; the
    ratio of a delta, which [delta_ratio_in_range] places between 0 and 1, always
    falls into a finite bucket, and so does the size of a chunk. *)
Definition bucket_of (b : bucket_spec) (v : Q) : option (nat * Q) := list_find (λ u, Qle_bool v u = true) (bounds b).

Lemma bucket_found b v u : u ∈ bounds b → (v <= u)%Q → is_Some (bucket_of b v).
Proof. intros Hu Hv. apply (list_find_elem_of _ _ u Hu). by apply Qle_bool_iff. Qed.

Lemma duration_bucket_ends :
  Forall2 Qeq [1 # 1000; 16384 # 1000]%Q
    (omap id [head (bounds (ExponentialBuckets (1 # 1000) 2 15)); last (bounds (ExponentialBuckets (1 # 1000) 2 15))]) ∧
  Forall2 Qeq [256 # 1; 131072 # 1]%Q
    (omap id [head (bounds (ExponentialBuckets 256 2 10)); last (bounds (ExponentialBuckets 256 2 10))]).
Proof. by repeat constructor. Qed.

Lemma ratio_has_bucket r : (r <= 1)%Q → is_Some (bucket_of (LinearBuckets 0 (1 # 10) 11) r).
Proof.
  intros Hr. apply (bucket_found _ _ (0 + inject_Z 10 * (1 # 10))%Q).
  - apply list_elem_of_In. cbn. tauto.
  - apply Qle_trans with 1%Q; [exact Hr|by apply Qle_bool_iff].
Qed.

Lemma chunk_size_has_bucket n : n ≤ 131072 → is_Some (bucket_of (ExponentialBuckets 256 2 10) (inject_Z n)).
Proof.
  intros Hn. apply (bucket_found _ _ (256 * 2 ^ 9)%Q).
  - apply list_elem_of_In. cbn. tauto.
  - apply Qle_trans with (inject_Z 131072); [by rewrite <- Zle_Qle|by apply Qle_bool_iff].
Qed.

(** ** A registry that is a set of names *)
Module PromExample.
Definition nonempty (l : list bytes) : list bytes := filter (λ s, s ≠ []) l.

Fixpoint join_fq (l : list bytes) : bytes :=
  match l with
  | [] => []
  | [s] => s
  | s :: l' => s ++ x5f :: join_fq l'
  end.

#[export] Program Instance set_registry : PromLib := {
  Registry := gset bytes;
  NewRegistry := ∅;
  names r := r;
  BuildFQName ns sub name := if decide (name = []) then [] else join_fq (nonempty [ns; sub; name]);
  buckets b := if bucket_spec_ok b then Some (bounds b) else None;
  MustRegister r n o := if decide (n ∈ r) then None else if opts_ok o then Some ({[n]} ∪ r) else None;
  WithLabelValues o vs := bool_decide (length vs = length (o_labels o)) && forallb ValidString vs;
  counter_Add v := Qle_bool 0 v;
}.
Next Obligation. done. Qed.
Next Obligation.
  intros ns sub name Hn Hs Hm. cbn beta. rewrite decide_False by done. unfold nonempty.
  by repeat (rewrite filter_cons_True by done).
Qed.
Next Obligation. intros b Hb. cbn. rewrite Hb. eexists. split; [done|]. by induction (bounds b); constructor. Qed.
Next Obligation. intros r n o Ho Hn. cbn. rewrite decide_False by done. rewrite Ho. eauto. Qed.
Next Obligation. intros r n o Hn. cbn. by rewrite decide_True. Qed.
Next Obligation. intros o vs. cbn. by rewrite andb_true_iff, bool_decide_eq_true. Qed.
Next Obligation. intros v. apply Qle_bool_iff. Qed.

Example registered : size (default ∅ (register_all NewRegistry Vars.all)) = 21%nat.
Proof. vm_compute. reflexivity. Qed.

(** The counter of the skipped bytes is already increased when the other one
    refuses. *)
Example negative_delta :
  carried_out (RecordDeltaSync 5 (-2)) = ([Add deltaBytesSkipped 5], false).
Proof. vm_compute. reflexivity. Qed.

Definition no_metrics : Metrics := mkMetrics (newSpeedTracker 10) (newSpeedTracker 10).

(** A peer whose name is UTF-8 beyond ASCII, and one whose name is not UTF-8. *)
Definition peer_utf8 : bytes := [x63; xc3; xa9].
Definition peer_latin1 : bytes := [x63; xe9].

Lemma recording_panics_iff_witness :
  (carried_out (RecordUpload no_metrics peer_utf8 10 0 0).1).1 = (RecordUpload no_metrics peer_utf8 10 0 0).1 ∧
  (carried_out (RecordUpload no_metrics peer_latin1 10 0 0).1).2 = false ∧
  (carried_out (RecordDeltaSync 5 (-2))).2 = false.
Proof.
  pose proof (recording_panics_iff no_metrics (CUpload peer_utf8 10 0 0)) as (_ & _ & H1 & _).
  pose proof (recording_panics_iff no_metrics (CUpload peer_latin1 10 0 0)) as (_ & H2 & _).
  pose proof (recording_panics_iff no_metrics (CDeltaSync 5 (-2))) as (_ & H3 & _).
  split; [apply H1; reflexivity|]. split; [exact H2|exact H3].
Defined.

Lemma instruments_registered_witness : ∃ r, register_all NewRegistry Vars.all = Some r ∧ size r = 21%nat.
Proof. destruct instruments_registered as (r & E & _ & Hs & _). exists r. split; [exact E|exact Hs]. Defined.
End PromExample.
