(* ===== verification/Logging.v ===== *)
(** * Structured logging ([internal/logging/logging.go])

    The part of log/slog that the package uses: levels, loggers as a handler
    with attributes, the pairing of variadic arguments to attributes, and
    contexts as chains of key-value pairs. The state is the package's global
    logger and everything that was written so far. *)
From Stdlib Require Import Strings.Byte Strings.String.
From S2P Require Import Prelude.

Open Scope Z_scope.

Abbreviation text := bytes_of_string.

(** ** slog *)
Definition LevelDebug : Z := -4.
Definition LevelInfo : Z := 0.
Definition LevelWarn : Z := 4.
Definition LevelError : Z := 8.

(** The dynamic values the program logs. *)
Inductive value := VString (s : bytes) | VInt (z : Z).

#[global] Instance value_eq_dec : EqDecision value.
Proof. solve_decision. Defined.

Definition attr : Type := bytes * value.

(** An element of [args ...any]: an attribute or a plain value. *)
Inductive any := AAttr (a : attr) | AVal (v : value).

#[global] Instance any_eq_dec : EqDecision any.
Proof. solve_decision. Defined.

Definition badKey : bytes := text "!BADKEY".

(** The value of a record's attribute: an attribute that follows a key is taken
    as that key's value. *)
Inductive avalue := Plain (v : value) | Nested (a : attr).
Definition rattr : Type := bytes * avalue.

Definition any_value (x : any) : avalue := match x with AAttr a => Nested a | AVal v => Plain v end.

(** [slog.argsToAttr], repeated over the arguments. *)
Fixpoint argsToAttrs (args : list any) : list rattr :=
  match args with
  | [] => []
  | AVal (VString key) :: x :: rest => (key, any_value x) :: argsToAttrs rest
  | AVal (VString s) :: [] => [(badKey, Plain (VString s))]
  | AAttr (k, v) :: rest => (k, Plain v) :: argsToAttrs rest
  | AVal v :: rest => (badKey, Plain v) :: argsToAttrs rest
  end.

Inductive format := JSONHandler | TextHandler.
Inductive writer_id := Stdout | Stderr | Other (n : nat).

#[global] Instance format_eq_dec : EqDecision format.
Proof. solve_decision. Defined.
#[global] Instance writer_id_eq_dec : EqDecision writer_id.
Proof. solve_decision. Defined.

(** [slog.Logger]: the handler with its options, and the attributes of [With]. *)
Record slogger := mkSlogger {
  lg_format : format;
  lg_output : writer_id;
  lg_level : Z;
  lg_source : bool;
  lg_attrs : list rattr;
}.

(** One line of output. *)
Record entry := mkEntry {
  e_format : format;
  e_output : writer_id;
  e_source : bool;
  e_level : Z;
  e_msg : bytes;
  e_attrs : list rattr;
}.

Definition logger_With (l : slogger) (args : list any) : slogger :=
  mkSlogger (lg_format l) (lg_output l) (lg_level l) (lg_source l) (lg_attrs l ++ argsToAttrs args).

Definition Enabled (l : slogger) (level : Z) : bool := lg_level l <=? level.

Definition entry_of (l : slogger) (level : Z) (msg : bytes) (args : list any) : entry :=
  mkEntry (lg_format l) (lg_output l) (lg_source l) level msg (lg_attrs l ++ argsToAttrs args).

(** [Logger.log]. *)
Definition emit (l : slogger) (level : Z) (msg : bytes) (args : list any) : list entry :=
  if Enabled l level then [entry_of l level msg args] else [].

(** ** The package *)
Record logging := mkLogging { defaultLogger : slogger; output : list entry }.

Definition init : logging := mkLogging (mkSlogger TextHandler Stdout LevelInfo false []) [].

Record Config := mkConfig {
  Level : Z;
  Format : bytes;
  Output : writer_id;
  AddSource : bool;
  TimeFormat : bytes;
}.

Definition RFC3339 : bytes := text "2006-01-02T15:04:05Z07:00".

Definition DefaultConfig : Config := mkConfig LevelInfo (text "text") Stdout false RFC3339.

Definition Init (cfg : option Config) (g : logging) : logging :=
  let c := default DefaultConfig cfg in
  let fmt := if decide (Format c = text "json") then JSONHandler else TextHandler in
  mkLogging (mkSlogger fmt (Output c) (Level c) (AddSource c) []) (output g).

Definition Logger (g : logging) : slogger := defaultLogger g.

(** Writing with some logger. *)
Definition log_with (l : slogger) (level : Z) (msg : bytes) (args : list any) (g : logging) : logging :=
  mkLogging (defaultLogger g) (output g ++ emit l level msg args).

(** ** Contexts *)
Inductive contextKey := PeerIDKey | SessionIDKey | FilePathKey | ChunkHashKey.

#[global] Instance contextKey_eq_dec : EqDecision contextKey.
Proof. solve_decision. Defined.

(** The values of this package's keys in a context, the innermost first. *)
Definition context : Type := list (contextKey * value).

Fixpoint ctx_Value (ctx : context) (k : contextKey) : option value :=
  match ctx with
  | [] => None
  | (k', v) :: parent => if decide (k' = k) then Some v else ctx_Value parent k
  end.

(** [ctx.Value(k).(string)]. *)
Definition ctx_string (ctx : context) (k : contextKey) : option bytes :=
  match ctx_Value ctx k with Some (VString s) => Some s | _ => None end.

Definition str (s : string) : any := AVal (VString (text s)).
Definition strv (s : bytes) : any := AVal (VString s).
Definition intv (z : Z) : any := AVal (VInt z).

Definition WithContext (ctx : context) (g : logging) : slogger :=
  let logger := Logger g in
  let logger := match ctx_string ctx PeerIDKey with
                | Some peerID => logger_With logger [str "peer_id"; strv peerID] | None => logger end in
  let logger := match ctx_string ctx SessionIDKey with
                | Some sessionID => logger_With logger [str "session_id"; strv sessionID] | None => logger end in
  let logger := match ctx_string ctx FilePathKey with
                | Some filePath => logger_With logger [str "file_path"; strv filePath] | None => logger end in
  match ctx_string ctx ChunkHashKey with
  | Some chunkHash => logger_With logger [str "chunk_hash"; strv chunkHash] | None => logger end.

Definition WithPeerID (ctx : context) (peerID : bytes) : context := (PeerIDKey, VString peerID) :: ctx.
Definition WithSessionID (ctx : context) (sessionID : bytes) : context := (SessionIDKey, VString sessionID) :: ctx.
Definition WithFilePath (ctx : context) (path : bytes) : context := (FilePathKey, VString path) :: ctx.
Definition WithChunkHash (ctx : context) (hash : bytes) : context := (ChunkHashKey, VString hash) :: ctx.

(** ** Convenience functions *)
Definition Debug (msg : bytes) (args : list any) (g : logging) : logging := log_with (Logger g) LevelDebug msg args g.
Definition Info (msg : bytes) (args : list any) (g : logging) : logging := log_with (Logger g) LevelInfo msg args g.
Definition Warn (msg : bytes) (args : list any) (g : logging) : logging := log_with (Logger g) LevelWarn msg args g.
Definition Error (msg : bytes) (args : list any) (g : logging) : logging := log_with (Logger g) LevelError msg args g.

Definition DebugContext (ctx : context) (msg : bytes) (args : list any) (g : logging) : logging :=
  log_with (WithContext ctx g) LevelDebug msg args g.
Definition InfoContext (ctx : context) (msg : bytes) (args : list any) (g : logging) : logging :=
  log_with (WithContext ctx g) LevelInfo msg args g.
Definition WarnContext (ctx : context) (msg : bytes) (args : list any) (g : logging) : logging :=
  log_with (WithContext ctx g) LevelWarn msg args g.
Definition ErrorContext (ctx : context) (msg : bytes) (args : list any) (g : logging) : logging :=
  log_with (WithContext ctx g) LevelError msg args g.

Definition Component (name : bytes) (g : logging) : slogger := logger_With (Logger g) [str "component"; strv name].

Definition CASLogger : logging → slogger := Component (text "cas").
Definition MerkleLogger : logging → slogger := Component (text "merkle").
Definition NetLogger : logging → slogger := Component (text "net").
Definition SyncLogger : logging → slogger := Component (text "sync").
Definition WatcherLogger : logging → slogger := Component (text "watcher").
Definition DeltaLogger : logging → slogger := Component (text "delta").
Definition NATLogger : logging → slogger := Component (text "nat").

(** ** Operations *)
Record Operation := mkOperation {
  op_logger : slogger;
  op_name : bytes;
  op_startTime : Z;
  op_attrs : list any;
}.

Definition StartOperation (name : bytes) (attrs : list any) (now : Z) (g : logging) : Operation * logging :=
  let op := mkOperation (Logger g) name now attrs in
  (op, log_with (op_logger op) LevelInfo (text "operation started") ([str "operation"; strv name] ++ attrs) g).

(** [Duration.Milliseconds] of [time.Since]. *)
Definition Milliseconds (d : Z) : Z := Z.quot d 1000000.

Definition Success (o : Operation) (attrs : list any) (now : Z) (g : logging) : logging :=
  let allAttrs := [str "operation"; strv (op_name o); str "status"; str "success";
                   str "duration_ms"; intv (Milliseconds (now - op_startTime o))] ++ op_attrs o in
  log_with (op_logger o) LevelInfo (text "operation completed") (allAttrs ++ attrs) g.

(** A nil error ([None]) is a nil dereference. *)
Definition Failure (o : Operation) (err : option bytes) (attrs : list any) (now : Z) (g : logging)
    : outcome unit logging :=
  match err with
  | None => Panic
  | Some e =>
      let allAttrs := [str "operation"; strv (op_name o); str "status"; str "failure";
                       str "duration_ms"; intv (Milliseconds (now - op_startTime o)); str "error"; strv e] ++ op_attrs o in
      Ret (log_with (op_logger o) LevelError (text "operation failed") (allAttrs ++ attrs) g)
  end.

Record SyncEvent := mkSyncEvent {
  ev_Type : bytes;
  ev_PeerID : bytes;
  ev_FilePath : bytes;
  ev_ChunksTotal : Z;
  ev_ChunksSynced : Z;
  ev_BytesTotal : Z;
  ev_BytesSynced : Z;
  ev_Duration : Z;
  ev_Timestamp : Z;
}.

(** The caller's event gets the time stamp. *)
Definition LogSyncEvent (event : SyncEvent) (now : Z) (g : logging) : SyncEvent * logging :=
  let event' := mkSyncEvent (ev_Type event) (ev_PeerID event) (ev_FilePath event) (ev_ChunksTotal event)
                  (ev_ChunksSynced event) (ev_BytesTotal event) (ev_BytesSynced event) (ev_Duration event) now in
  (event', log_with (SyncLogger g) LevelInfo (text "sync event")
    [str "event_type"; strv (ev_Type event'); str "peer_id"; strv (ev_PeerID event');
     str "file_path"; strv (ev_FilePath event'); str "chunks_total"; intv (ev_ChunksTotal event');
     str "chunks_synced"; intv (ev_ChunksSynced event'); str "bytes_total"; intv (ev_BytesTotal event');
     str "bytes_synced"; intv (ev_BytesSynced event'); str "duration_ms"; intv (ev_Duration event')] g).

(** The root command's [PersistentPreRun] in cmd/p2p-file-sync/main.go. *)
Definition PersistentPreRun (verbose jsonLogs : bool) (g : logging) : logging :=
  let level := if verbose then LevelDebug else LevelInfo in
  let fmt := if jsonLogs then text "json" else text "text" in
  Init (Some (mkConfig level fmt Stderr false [])) g.

(** ** Pairing of arguments *)
Definition flat (l : list attr) : list any := l ≫= λ kv, [strv kv.1; AVal kv.2].
Definition plain (a : attr) : rattr := (a.1, Plain a.2).

(** Key-value arguments become exactly the attributes they spell. *)
Lemma argsToAttrs_flat l rest : argsToAttrs (flat l ++ rest) = (plain <$> l) ++ argsToAttrs rest.
Proof. induction l as [|[k v] l IH]; [done|]. cbn. f_equal. exact IH. Qed.

Lemma argsToAttrs_pairs l : argsToAttrs (flat l) = plain <$> l.
Proof. by rewrite <- (app_nil_r (flat l)), argsToAttrs_flat, app_nil_r. Qed.

(** A stray string in the arguments of a started operation takes the first key
    given to [Success] as its value, and what was that key's value is left
    without one. *)
Lemma stray_argument stray k v l rest :
  argsToAttrs (flat l ++ [strv stray] ++ [strv k; intv v] ++ flat rest) =
  (plain <$> l) ++ (stray, Plain (VString k)) :: (badKey, Plain (VInt v)) :: (plain <$> rest).
Proof. rewrite argsToAttrs_flat. f_equal. cbn. do 2 f_equal. apply argsToAttrs_pairs. Qed.

(** ** Contexts *)
Definition key_name (k : contextKey) : bytes :=
  match k with
  | PeerIDKey => text "peer_id" | SessionIDKey => text "session_id"
  | FilePathKey => text "file_path" | ChunkHashKey => text "chunk_hash"
  end.

(** The attributes a context stands for, in the order of the code. *)
Definition context_attrs (ctx : context) : list attr :=
  omap (λ k, (λ s, (key_name k, VString s)) <$> ctx_string ctx k)
    [PeerIDKey; SessionIDKey; FilePathKey; ChunkHashKey].

Lemma WithContext_attrs ctx g :
  WithContext ctx g = mkSlogger (lg_format (Logger g)) (lg_output (Logger g)) (lg_level (Logger g)) (lg_source (Logger g))
    (lg_attrs (Logger g) ++ (plain <$> context_attrs ctx)).
Proof.
  unfold WithContext, context_attrs, logger_With. destruct (Logger g) as [fmt out lv src at0].
  cbn [omap list_omap]. destruct (ctx_string ctx PeerIDKey), (ctx_string ctx SessionIDKey),
    (ctx_string ctx FilePathKey), (ctx_string ctx ChunkHashKey); cbn; by rewrite <- ?app_assoc, ?app_nil_r.
Qed.

(** The setter for each key, and the logging functions with their levels. *)
Definition setter (k : contextKey) : context → bytes → context :=
  match k with
  | PeerIDKey => WithPeerID | SessionIDKey => WithSessionID
  | FilePathKey => WithFilePath | ChunkHashKey => WithChunkHash
  end.

Definition context_logger (level : Z) : context → bytes → list any → logging → logging :=
  if decide (level = LevelDebug) then DebugContext
  else if decide (level = LevelInfo) then InfoContext
  else if decide (level = LevelWarn) then WarnContext
  else ErrorContext.

(** Logging with a context. After any configuration, each of DebugContext,
    InfoContext, WarnContext and ErrorContext writes one entry exactly when its
    level is at or above the configured one and nothing otherwise; the entry
    goes to the configured output in the configured format, and carries the
    context's values (peer id, session id, file path, chunk hash, in this
    order, each as last set) followed by the caller's attributes. A setter
    changes the value of its own key only. *)
Theorem context_logging cfg g ctx level msg l :
  level ∈ [LevelDebug; LevelInfo; LevelWarn; LevelError] →
  let g1 := Init (Some cfg) g in
  output (context_logger level ctx msg (flat l) g1) =
    output g ++
    (if Level cfg <=? level
     then [mkEntry (if decide (Format cfg = text "json") then JSONHandler else TextHandler) (Output cfg) (AddSource cfg)
             level msg ((plain <$> context_attrs ctx) ++ (plain <$> l))]
     else []) ∧
  defaultLogger (context_logger level ctx msg (flat l) g1) = defaultLogger g1 ∧
  (∀ k k' v, ctx_string (setter k ctx v) k' = if decide (k' = k) then Some v else ctx_string ctx k').
Proof.
  intros Hl g1.
  assert (context_logger level ctx msg (flat l) g1 = log_with (WithContext ctx g1) level msg (flat l) g1) as ->.
  { unfold context_logger. rewrite !elem_of_cons, elem_of_nil in Hl. destruct Hl as [->|[->|[->|[->|[]]]]]; done. }
  split_and!; [|done|].
  - unfold log_with, emit, Enabled, entry_of. rewrite WithContext_attrs. cbn [output lg_level lg_format lg_output lg_source lg_attrs].
    unfold g1, Init, Logger. cbn [default output defaultLogger lg_format lg_output lg_level lg_source lg_attrs app].
    by rewrite argsToAttrs_pairs.
  - intros k k' v. by destruct k, k'.
Qed.

(** ** Operations *)

(** What other goroutines may do to the package meanwhile. *)
Inductive log_call :=
| CallInit (cfg : option Config)
| CallLog (l : slogger) (level : Z) (msg : bytes) (args : list any).

Definition log_call_step (g : logging) (c : log_call) : logging :=
  match c with
  | CallInit cfg => Init cfg g
  | CallLog l level msg args => log_with l level msg args g
  end.

(** An operation is logged by the logger of its start. Whatever is logged or
    reconfigured between start and end, the line of Success is written to the
    output and in the format that were configured when the operation began,
    and by its level; it carries the operation's name, its status, the elapsed
    milliseconds, the attributes of the start and those of the end. The line
    of Failure does too, at level error and with the error; a nil error
    panics. *)
Theorem operation_logged (name e : bytes) (attrs more : list attr) (t0 t1 : Z) (g : logging) (calls : list log_call) :
  let '(op, g1) := StartOperation name (flat attrs) t0 g in
  let g2 := foldl log_call_step g1 calls in
  let started := Logger g in
  let line level msg tags :=
    if lg_level started <=? level then
      [mkEntry (lg_format started) (lg_output started) (lg_source started) level (text msg)
         (lg_attrs started ++ (plain <$> tags))] else [] in
  let timing := (text "duration_ms", VInt (Z.quot (t1 - t0) 1000000)) in
  let named := (text "operation", VString name) in
  output g1 = output g ++ line LevelInfo "operation started" (named :: attrs) ∧
  output g1 `prefix_of` output g2 ∧
  output (Success op (flat more) t1 g2) = output g2 ++
    line LevelInfo "operation completed" ([named; (text "status", VString (text "success")); timing] ++ attrs ++ more) ∧
  (∃ g3, Failure op (Some e) (flat more) t1 g2 = Ret g3 ∧
     output g3 = output g2 ++
       line LevelError "operation failed"
         ([named; (text "status", VString (text "failure")); timing; (text "error", VString e)] ++ attrs ++ more)) ∧
  Failure op None (flat more) t1 g2 = Panic.
Proof.
  assert (∀ g1, output g1 `prefix_of` output (foldl log_call_step g1 calls)) as Hp.
  { induction calls as [|c calls IH]; intros g1; [done|]. cbn. etrans; [|apply IH]. destruct c; cbn; [done|].
    by apply prefix_app_r. }
  assert (∀ l, argsToAttrs (flat l ++ flat more) = plain <$> (l ++ more)) as Hf
    by (intros l; by rewrite argsToAttrs_flat, argsToAttrs_pairs, fmap_app).
  unfold StartOperation. cbv zeta. split_and!; [|apply Hp| |eexists; split; [done|]|done].
  all: unfold Success, Failure, log_with, emit, Enabled, entry_of, op_logger, op_attrs, op_name, op_startTime; cbn [output app].
  all: f_equal; case_match; [|done]; do 3 f_equal; cbn -[argsToAttrs Z.quot].
  all: cbn; unfold Milliseconds; by rewrite ?Hf, ?argsToAttrs_pairs.
Qed.

(** [TimeFormat] is never read: Init gives the same logger for every value. *)
Lemma time_format_ignored lv f o a t1 t2 g :
  Init (Some (mkConfig lv f o a t1)) g = Init (Some (mkConfig lv f o a t2)) g.
Proof. done. Qed.

(** The command line logs to standard error, debug messages only with
    --verbose. *)
Lemma command_line_logging verbose jsonLogs g msg l :
  output (Debug msg (flat l) (PersistentPreRun verbose jsonLogs g)) =
  output g ++ if verbose then [mkEntry (if jsonLogs then JSONHandler else TextHandler) Stderr false LevelDebug msg (plain <$> l)]
              else [].
Proof.
  destruct verbose, jsonLogs; unfold Debug, log_with, emit, entry_of; cbn; by rewrite ?argsToAttrs_pairs.
Qed.

Module LoggingExample.
Definition cfg : Config := mkConfig LevelWarn (text "json") (Other 7) false [].
Definition ctx : context := WithFilePath (WithPeerID (WithPeerID [] (text "old")) (text "p1")) (text "a/b").

Lemma context_logging_witness :
  output (ErrorContext ctx (text "lost") (flat [(text "n", VInt 3)]) (Init (Some cfg) init)) =
  [mkEntry JSONHandler (Other 7) false LevelError (text "lost")
     [(text "peer_id", Plain (VString (text "p1"))); (text "file_path", Plain (VString (text "a/b"))); (text "n", Plain (VInt 3))]] ∧
  output (InfoContext ctx (text "quiet") [] (Init (Some cfg) init)) = [].
Proof.
  split.
  - refine (proj1 (context_logging cfg init ctx LevelError (text "lost") [(text "n", VInt 3)] _)). set_solver.
  - reflexivity.
Defined.

(** A stray argument in StartOperation. *)
Example stray :
  let '(op, g) := StartOperation (text "sync") [str "peer"] 0 init in
  e_attrs <$> last (output (Success op [str "files"; intv 3] 5000000 g)) =
  Some [(text "operation", Plain (VString (text "sync"))); (text "status", Plain (VString (text "success")));
        (text "duration_ms", Plain (VInt 5)); (text "peer", Plain (VString (text "files"))); (badKey, Plain (VInt 3))].
Proof. vm_compute. reflexivity. Qed.
End LoggingExample.
