(* ===== verification/Commands.v ===== *)
(** * The init, status and serve commands ([cmd/p2p-file-sync/main.go])

    Each command as a function of the directory's file system: [init] creates
    the chunk directory, [status] reports on it and on the Merkle tree, and
    [serve] prepares the store, the tree and the transport's configuration
    before it listens. Flags, signals and printing are left out; what is printed
    is returned. *)
From Stdlib Require Import Strings.Byte Strings.String QArith.
From S2P Require Import Prelude Sha256 Fs Chunk ChunkStore BlobStore StoreSpec Merkle MerkleSpec DiffSpec Build Manifest DiffTrees Reconstruct Wire Transport SyncNet Index Cli SyncSpec Metrics.

Open Scope Z_scope.

Section commands.
Context `{HashFn}.

Definition storageDir (absDir : path) : path := resolve absDir DefaultStorageDir.

(** 0755. *)
Definition initPermissions : Z := 493.

Definition initCmd (f : fs) (absDir : path) : fs * outcome cmd_error unit :=
  match MkdirAll f (storageDir absDir) initPermissions with
  | Ret f' => (f', Ret ())
  | Err e => (f, Err (CreatingStore (CreatingStorageDir e)))
  | Panic => (f, Panic)
  end.

(** What [status] prints; the walk over the chunk directory visits every entry
    below it. *)
Record status := mkStatus {
  su_rootHash : option bytes;      (* the first eight bytes *)
  su_files : nat;
  su_nodes : nat;
  su_depth : nat;
  su_chunks : nat;
  su_totalSize : Z;
}.

Definition stored_files (f : fs) (dir : path) : list bytes :=
  omap (λ kv, match kv.2 with
              | FFile c _ => if decide (dir `prefix_of` kv.1) then Some c else None
              | FDir _ => None
              end) (map_to_list f).

Definition statusCmd (unreadable : path → bool) (f : fs) (absDir : path)
    : outcome cmd_error (status * list metric_op) :=
  match Stat f (storageDir absDir) with
  | Err ENOENT => Err NotInitialised
  | _ =>
      match BuildFromFS unreadable f absDir with
      | Err e => Err (BuildingTree e)
      | Panic => Panic
      | Ret tree =>
          let chunks := stored_files f (storageDir absDir) in
          let depth := calculateTreeDepth (t_Root tree) in
          let nodeCount := countNodes (t_Root tree) in
          let rootHash :=
            match t_Root tree with
            | Some n => if decide (8 ≤ length (n_Hash n))%nat then Some (take 8 (n_Hash n)) else None
            | None => None
            end in
          Ret (mkStatus rootHash (countFiles (t_Root tree)) nodeCount depth (length chunks)
                 (foldl (λ acc c, s64 (acc + Z.of_nat (length c))) 0 chunks),
               SetMerkleTreeStats (Z.of_nat depth) (Z.of_nat nodeCount))
      end
  end.

(** [serve] up to the transport: the store, the tree and the configuration. *)
Definition serve_start (unreadable : path → bool) (f : fs) (absDir : path) (peerName : bytes) (fts : list faults)
    : fs * outcome cmd_error (BlobStore * Tree * Config) :=
  match Stat f (storageDir absDir) with
  | Err ENOENT => (f, Err NotInitialised)
  | _ =>
      match NewBlobStore f absDir DefaultStorageDir with
      | (f, Err e) => (f, Err (CreatingStore e))
      | (f, Panic) => (f, Panic)
      | (f, Ret s) =>
          let ix := indexDirectory unreadable f absDir s fts in
          match BuildFromFS unreadable (ix_fs ix) absDir with
          | Err e => (ix_fs ix, Err (BuildingTree e))
          | Panic => (ix_fs ix, Panic)
          | Ret tree =>
              let merkleRoot := match t_Root tree with Some n => n_Hash n | None => [] end in
              (ix_fs ix, Ret (s, tree, mkConfig peerName merkleRoot (u64 (Z.of_nat (ix_files ix))) 0))
          end
      end
  end.

(** ** The effect of [init] *)
Lemma mkdir_all_ok f done p perm :
  (∀ q, q `prefix_of` p → ∀ c m, f !! (done ++ q) ≠ Some (FFile c m)) → ∃ f', mkdir_all f done p perm = Ret f'.
Proof.
  revert f done. induction p as [|c p IH]; intros f dn Hq; cbn [mkdir_all];
    pose proof (Hq [] (prefix_nil _)) as H0; rewrite app_nil_r in H0;
    destruct (f !! dn) as [[x m|m]|] eqn:E; try (by destruct (H0 x m)); try by eexists.
  - apply IH. intros q Hp x m'. rewrite <- app_assoc. apply Hq. by apply prefix_cons.
  - apply IH. intros q Hp x m'. rewrite <- app_assoc. rewrite lookup_insert_ne.
    + apply Hq. by apply prefix_cons.
    + intros Ed. apply (f_equal length) in Ed. rewrite !length_app in Ed. simpl in Ed. lia.
Qed.

Lemma prefix_snoc_2 {A} (q l : list A) x y :
  q `prefix_of` l ++ [x; y] → q `prefix_of` l ∨ q = l ++ [x] ∨ q = l ++ [x; y].
Proof.
  intros [k E]. destruct k as [|b k _] using rev_ind.
  - rewrite app_nil_r in E. auto.
  - rewrite app_assoc in E. change [x; y] with ([x] ++ [y]) in E. rewrite app_assoc in E.
    apply app_inj_tail in E as [E _]. destruct k as [|b' k _] using rev_ind.
    + rewrite app_nil_r in E. auto.
    + rewrite app_assoc in E. apply app_inj_tail in E as [-> _]. left. by eexists.
Qed.

Definition dot_storage : bytes := bytes_of_string ".storage".
Definition chunks_name : bytes := bytes_of_string "chunks".

Lemma storageDir_eq root : storageDir root = root ++ [dot_storage; chunks_name].
Proof. apply storage_path. Qed.

(** A directory that has no [.storage] yet. *)
Record uninitialised (f : fs) (root : path) (md : Z) : Prop := {
  un_wf : fs_wf f;
  un_root : f !! root = Some (FDir md);
  un_none : f !! (root ++ [dot_storage]) = None;
}.

Lemma uninitialised_below f root md k : uninitialised f root md → f !! (root ++ dot_storage :: k) = None.
Proof.
  intros [Hf _ Hn]. destruct k as [|x k]; [done|]. destruct (f !! (root ++ dot_storage :: x :: k)) as [n|] eqn:E; [|done].
  replace (root ++ dot_storage :: x :: k) with ((root ++ [dot_storage]) ++ x :: k) in E by by rewrite <- app_assoc.
  destruct (fs_wf_above _ _ _ _ _ Hf E) as [m Hm]. congruence.
Qed.

(** No prefix of the chunk directory is a file. *)
Lemma uninitialised_no_file f root md q c m :
  uninitialised f root md → q `prefix_of` root ++ [dot_storage; chunks_name] → f !! q ≠ Some (FFile c m).
Proof.
  intros Hu. pose proof (uninitialised_below f root md) as Hb. destruct Hu as [Hf Hr Hn].
  intros [Hq|[->| ->]]%prefix_snoc_2 E.
  - destruct (decide (q = root)) as [->|Hne]; [congruence|].
    destruct (proj2 (Hf _ _ Hr) q Hq Hne) as [m' Hm']. congruence.
  - congruence.
  - rewrite Hb in E; [done|]. by constructor.
Qed.

Lemma Stat_uninitialised f root md : uninitialised f root md → Stat f (storageDir root) = Err ENOENT.
Proof.
  intros Hu. rewrite storageDir_eq. unfold Stat.
  rewrite through_file_false.
  - by rewrite (uninitialised_below f root md [chunks_name] Hu).
  - intros q Hq _ c m. by eapply uninitialised_no_file.
Qed.

(** What [init] leaves: the chunk directory exists, is empty, and nothing else
    has changed. *)
Record fresh_storage (f f' : fs) (root : path) (md : Z) : Prop := {
  fr_wf : fs_wf f';
  fr_root : f' !! root = Some (FDir md);
  fr_base : base_ok f' (storageDir root);
  fr_same q : q ≠ root ++ [dot_storage] → q ≠ storageDir root → f' !! q = f !! q;
  fr_empty k x : f' !! (storageDir root ++ x :: k) = None;
}.

Lemma init_spec f root md :
  uninitialised f root md → ∃ f', initCmd f root = (f', Ret ()) ∧ fresh_storage f f' root md.
Proof.
  intros Hu. pose proof (uninitialised_below f root md) as Hbelow.
  destruct (mkdir_all_ok f [] (storageDir root) initPermissions) as [f' Hm].
  { intros q Hq c m. rewrite storageDir_eq in Hq. by eapply uninitialised_no_file. }
  exists f'. unfold initCmd, MkdirAll. rewrite Hm. split; [done|].
  destruct (mkdir_all_post _ _ _ _ _ Hm) as (H1 & H2 & H3). rewrite storageDir_eq in *. simpl in H1.
  assert (∀ q, ¬ q `prefix_of` root ++ [dot_storage; chunks_name] → f' !! q = f !! q) as Hsame.
  { intros q Hq. apply H2. by intros r Hr ->. }
  assert (Forall plain_name root) as Hroot by by apply (un_wf _ _ _ Hu _ _ (un_root _ _ _ Hu)).
  assert (Forall plain_name (root ++ [dot_storage; chunks_name])) as Hplain.
  { apply Forall_app. split; [done|]. repeat constructor; apply (bool_decide_unpack _); reflexivity. }
  constructor.
  - intros p n Hp. destruct (decide (p `prefix_of` root ++ [dot_storage; chunks_name])) as [Hq|Hq].
    + split; [destruct Hq as [k Hq]; rewrite Hq in Hplain; by apply Forall_app in Hplain as [? _]|].
      intros r Hr _. apply H1. by etrans.
    + rewrite Hsame in Hp by done. destruct (un_wf _ _ _ Hu _ _ Hp) as [Hpl Hd]. split; [done|].
      intros r Hr Hne. destruct (Hd r Hr Hne) as [m Hrm]. exists m. by apply H3.
  - by apply H3, Hu.
  - rewrite storageDir_eq. exact H1.
  - intros q Hq Hq'. destruct (decide (q `prefix_of` root ++ [dot_storage; chunks_name])) as [Hp|Hp]; [|by apply Hsame].
    apply prefix_snoc_2 in Hp as [Hp|[->| ->]]; [|done|by rewrite storageDir_eq in Hq'].
    destruct (H1 q) as [m Hqm]; [by apply prefix_app_r|]. rewrite Hqm.
    destruct (decide (q = root)) as [->|Hne].
    { pose proof (un_root _ _ _ Hu) as E. pose proof (H3 _ _ E). congruence. }
    destruct (proj2 (un_wf _ _ _ Hu _ _ (un_root _ _ _ Hu)) q Hp Hne) as [m' Hm'].
    pose proof (H3 _ _ Hm'). congruence.
  - intros k x. rewrite Hsame.
    + rewrite storageDir_eq, <- app_assoc. by apply Hbelow.
    + intros Hp%prefix_length. rewrite storageDir_eq, !length_app in Hp. simpl in Hp. lia.
Qed.

Lemma fresh_not_stored f f' root md : fresh_storage f f' root md → stored_files f' (storageDir root) = [].
Proof.
  intros [_ _ Hb _ He]. specialize (Hb (storageDir root) ltac:(done)) as [m' Hm'].
  revert Hm' He. generalize (storageDir root) as dir. intros dir Hm' He.
  unfold stored_files. apply elem_of_nil_inv. intros c.
  rewrite list_elem_of_omap. intros ([p n] & Hp%elem_of_map_to_list & Hc). cbn in Hc.
  destruct n as [c' m|m]; [|done]. case_decide as Hq; [|done]. destruct Hq as [[|x k] ->].
  - rewrite app_nil_r in Hp. congruence.
  - by rewrite He in Hp.
Qed.

(** The visible part is what it was. *)
Lemma fresh_tree f f' root md :
  fresh_storage f f' root md →
  ∃ node, BuildFromFS (λ _, false) f' root = Ret (mkTree (Some node)) ∧ node_wf node ∧ tree_of f root node.
Proof.
  intros Hs. destruct (build_readable f' root md (fr_wf _ _ _ _ Hs) (fr_root _ _ _ _ Hs)) as (node & E & Hw & Ht).
  exists node. split_and!; [done..|].
  assert (∀ p, visible p = true → f' !! (root ++ p) = f !! (root ++ p)) as Hv.
  { intros p Hp. apply (fr_same _ _ _ _ Hs); [|rewrite storageDir_eq]; by intros ->%app_inv_head. }
  intros p. specialize (Ht p). destruct (node_at node p) as [m|].
  - destruct Ht as [Hp He]. split; [done|]. by rewrite <- Hv.
  - intros Hp. rewrite <- Hv by done. by apply Ht.
Qed.
(** No two different chunks of the files of [f] have the same hash. *)
Definition chunk_of (f : fs) (x : bytes) : Prop := ∃ p c m, f !! p = Some (FFile c m) ∧ x ∈ chunks_of ChunkSize c.
Definition distinct_hashes (f : fs) : Prop := ∀ x y, chunk_of f x → chunk_of f y → sha256 x = sha256 y → x = y.

Lemma distinct_hashes_check f : no_collisionsb (all_chunks f) = true → distinct_hashes f.
Proof.
  intros Hb. assert (∀ x, chunk_of f x → x ∈ all_chunks f) as Hc.
  { intros x (p & c & m & Hp & Hx). apply list_elem_of_In. unfold all_chunks. apply List.in_concat.
    exists (chunks_of ChunkSize c). split; [|by apply list_elem_of_In]. apply List.in_map_iff.
    exists (p, FFile c m). split; [done|]. by apply list_elem_of_In, elem_of_map_to_list. }
  intros x y Hx%Hc Hy%Hc. by apply (no_collisionsb_sound _ Hb).
Qed.

Lemma fresh_store f f' root md :
  fresh_storage f f' root md → distinct_hashes f →
  let s := mkBlobStore (storageDir root) in
  store_wf f' s ∧ content_addressed f' s ∧ no_collisions f' s.
Proof.
  intros Hs Hd s.
  assert (store_wf f' s ∧ ∀ h, long_hash h → view f' s h = None) as [Hw Hv].
  { apply empty_store; [apply Hs|apply Hs|]. apply elem_of_nil_inv. intros x [n Hx]%ReadDir_elem.
    unfold s in Hx. cbn [bs_baseDir] in Hx. by rewrite (fr_empty _ _ _ _ Hs) in Hx. }
  split_and!; [done|intros h d Hh Hx; by rewrite Hv in Hx|].
  assert (∀ x, known f' s x → chunk_of f x) as Hk.
  { intros x [(p & c & m & Hp & Hx)|(h & Hh & Hx)]; [|by rewrite Hv in Hx]. exists p, c, m. split; [|done].
    rewrite <- (fr_same _ _ _ _ Hs); [done|..].
    - intros ->. destruct (fr_base _ _ _ _ Hs (root ++ [dot_storage])) as [m' Hm']; [|congruence].
      rewrite storageDir_eq. exists [chunks_name]. by rewrite <- app_assoc.
    - revert Hp. pose proof (fr_base _ _ _ _ Hs (storageDir root) ltac:(done)) as [m' Hm']. revert Hm'.
      generalize (storageDir root) as dir. intros dir Hm' Hp ->. congruence. }
  intros x y Hx Hy. apply Hd; by apply Hk.
Qed.

(** A directory is usable once it is initialised, and not before. On a directory
    without [.storage], status and serve refuse and change nothing; init creates
    the chunk directory and nothing else, and doing it again changes nothing.
    Then status reports the statistics of the tree of the visible files and an
    empty store; and serve starts with that tree, announces its root hash, and
    has every chunk of every file of the tree in its store. *)
Theorem init_lifecycle (f : fs) (root : path) (md : Z) (name : bytes) (fts : list faults) :
  uninitialised f root md → distinct_hashes f → hidden (info_name root) = false →
  statusCmd (λ _, false) f root = Err NotInitialised ∧
  serve_start (λ _, false) f root name fts = (f, Err NotInitialised) ∧
  ∃ f' node ops, initCmd f root = (f', Ret ()) ∧ initCmd f' root = (f', Ret ()) ∧
    (∀ q, q ≠ root ++ [dot_storage] → q ≠ storageDir root → f' !! q = f !! q) ∧
    tree_of f root node ∧
    statusCmd (λ _, false) f' root =
      Ret (mkStatus (Some (take 8 (n_Hash node))) (countFiles (Some node)) (countNodes (Some node))
             (calculateTreeDepth (Some node)) 0 0, ops) ∧
    ∃ f2 node' cfg, let s := mkBlobStore (storageDir root) in
      serve_start (λ _, false) f' root name [] = (f2, Ret (s, mkTree (Some node'), cfg)) ∧
      node_wf node' ∧ tree_of f' root node' ∧ cfg_MerkleRoot cfg = n_Hash node' ∧
      fs_wf f' ∧ f' !! root = Some (FDir md) ∧ no_collisions f' s ∧ walk_inv f' s f2 ∧
      ∀ p m d, node_at node' p = Some m → n_Type m = NodeTypeFile → d ∈ n_Chunks m →
        ∃ x, view f2 s d = Some x ∧ sha256 x = d.
Proof.
  intros Hu Hd Hh. unfold statusCmd at 1, serve_start at 1. rewrite (Stat_uninitialised _ _ _ Hu).
  split_and!; [done..|]. destruct (init_spec f root md Hu) as (f' & Ei & Hs).
  destruct (fresh_tree _ _ _ _ Hs) as (node & Eb & Hnw & Ht).
  assert (∃ m, Stat f' (storageDir root) = Ret (FDir m)) as [m Est].
  { destruct (fr_base _ _ _ _ Hs (storageDir root)) as [m Hm]; [done|]. exists m.
    apply Stat_dirs; [|done]. by apply (fr_wf _ _ _ _ Hs _ _ Hm). }
  assert (MkdirAll f' (storageDir root) initPermissions = Ret f' ∧ MkdirAll f' (storageDir root) DirPermissions = Ret f')
    as [Em1 Em2] by (split; apply mkdir_all_existing, Hs).
  exists f', node. eexists. split_and!; [done|unfold initCmd; by rewrite Em1|apply Hs|done| |].
  - unfold statusCmd. rewrite Est, Eb. cbn [t_Root]. rewrite (fresh_not_stored _ _ _ _ Hs).
    rewrite decide_True by (rewrite (wf_hash_length _ Hnw); lia). done.
  - destruct (fresh_store _ _ _ _ Hs Hd) as (Hw & Hca & Hnc).
    set (s := mkBlobStore (storageDir root)) in *.
    assert (bs_baseDir s = root ++ dot_storage :: [chunks_name] ∧ hidden dot_storage = true) as Hbase
      by (split; [apply storageDir_eq|reflexivity]).
    destruct (indexDirectory_spec f' s root _ _ md (fr_wf _ _ _ _ Hs) Hw Hca Hnc Hbase (fr_root _ _ _ _ Hs) Hh)
      as (Hi & _ & Hg & Hix).
    destruct (indexed_tree f' s root _ _ md _ Hbase (fr_root _ _ _ _ Hs) Hi) as (node' & Eb' & Hw' & Ht' & _).
    eexists _, node', _. cbv zeta. split_and!; [|done|done|..].
    + unfold serve_start. rewrite Est. unfold NewBlobStore. rewrite decide_False by done.
      fold (storageDir root). rewrite Em2. fold s. by rewrite Eb'.
    + done.
    + apply Hs.
    + apply Hs.
    + done.
    + done.
    + intros p m' d Hp Hm' Hc. destruct (tree_of_file f' root node' p m' Ht' Hp Hm') as (Hv & c & cm & Hf & Hch).
      rewrite Hch in Hc. apply list_elem_of_fmap in Hc as (x & -> & Hx). exists x. split; [|done].
      by apply (Hix p c cm x).
Qed.
End commands.

(** ** An initialised directory *)
Module CommandsExample.
#[local] Existing Instance sha256_fips.

Definition str := bytes_of_string.
Definition home : fs := {[
  [] := FDir 493; [str "d"] := FDir 493; [str "d"; str "a"] := FFile (str "hello") 420;
  [str "d"; str "sub"] := FDir 493; [str "d"; str "sub"; str "b"] := FFile (str "world") 384 ]}.

Lemma home_uninitialised : uninitialised home [str "d"] 493.
Proof.
  constructor; [apply fs_wfb_sound; vm_compute; reflexivity|vm_compute; reflexivity|vm_compute; reflexivity].
Qed.

Lemma home_distinct : distinct_hashes home.
Proof.
  apply distinct_hashes_check. vm_compute. reflexivity.
Qed.

Lemma init_lifecycle_witness :
  statusCmd (λ _, false) home [str "d"] = Err NotInitialised ∧
  ∃ f', initCmd home [str "d"] = (f', Ret ()).
Proof.
  destruct (init_lifecycle home [str "d"] 493 [] [] home_uninitialised home_distinct eq_refl)
    as (Es & _ & f' & node & ops & Ei & _).
  split; [exact Es|]. exists f'. exact Ei.
Defined.
End CommandsExample.
