(* ===== verification/Daemon.v ===== *)
(** * The serve command as a whole ([cmd/p2p-file-sync/main.go])

    [serve] from its directory to its return: the preparation of [Commands], the
    transport of [TransportLife], the metrics endpoint, and what it does when it
    is told to stop. What the operating system and the certificate library
    answer is an argument. *)
From Stdlib Require Import Strings.Byte Strings.String.
From S2P Require Import Prelude Sha256 Fs ChunkStore BlobStore StoreSpec Merkle MerkleSpec Build Manifest Wire Transport TransportLife Index Cli SyncSpec Metrics Commands.

Open Scope Z_scope.

Inductive serve_error :=
| ServePreparing (e : cmd_error)
| CreatingTransport (e : transport_error)
| StartingListener (e : transport_error).

(** What the command does once the transport exists, in order; the last are the
    deferred calls. *)
Inductive serve_effect :=
| Listening (addr : bytes * Z)
| MetricsStarted (s : Server)
| Waited
| ContextCancelled
| TransportClosed
| MetricsStopped.

(** Which case of the select ends the wait. *)
Inductive wakeup := OnSignal | OnDone.

(** The first eight bytes of the root hash are printed. *)
Definition banner (merkleRoot : option bytes) : outcome serve_error (option bytes) :=
  match merkleRoot with
  | None => Ret None
  | Some h => b ← or_panic (slicez h 0 8); Ret (Some b)
  end.

Definition serve_tail (merkleRoot : option bytes) (metricsAddr : bytes) (port : Z)
    (udp_ok quic_ok : bool) (w : wakeup) : list serve_effect * outcome serve_error unit :=
  match Listen (Some (None, port)) udp_ok quic_ok with   (* ":port" has no host *)
  | Err e => ([], Err (StartingListener e))
  | Panic => ([], Panic)
  | Ret addr =>
      let metrics := bool_decide (metricsAddr ≠ []) in
      let started := Listening addr :: (if metrics then [MetricsStarted (NewServer metricsAddr)] else []) in
      let stopped := if metrics then [MetricsStopped] else [] in
      match banner merkleRoot with
      | Err e => (started ++ stopped, Err e)
      | Panic => (started ++ stopped, Panic)
      | Ret _ =>
          (started ++ [Waited] ++ (match w with OnSignal => [ContextCancelled] | OnDone => [] end) ++
           [TransportClosed] ++ stopped, Ret ())
      end
  end.

Section serve.
Context `{HashFn}.

(** It returns the transport with the store and the tree that its callbacks
    use. *)
Definition serveCmd (unreadable : path → bool) (f : fs) (absDir : path) (name metricsAddr : bytes) (port : Z)
    (fts : list faults) (generated : option (list bytes)) (udp_ok quic_ok : bool) (w : wakeup)
    : fs * list serve_effect * outcome serve_error (Transport.Transport * BlobStore * Tree) :=
  match serve_start unreadable f absDir name fts with
  | (f', Err e) => (f', [], Err (ServePreparing e))
  | (f', Panic) => (f', [], Panic)
  | (f', Ret (s, tree, cfg)) =>
      match newTransport cfg None generated with
      | Err e => (f', [], Err (CreatingTransport e))
      | Panic => (f', [], Panic)
      | Ret t =>
          let '(effs, r) := serve_tail (n_Hash <$> t_Root tree) metricsAddr port udp_ok quic_ok w in
          (f', effs, _ ← r; Ret (t, s, tree))
      end
  end.

(** A signal stops the daemon in order: it has listened on all interfaces of its
    port; it closes the transport, and stops the endpoint if it started one; it
    has announced the root of the tree it prepared under the fingerprint of its
    certificate. *)
Theorem serve_until_signal unreadable f absDir name metricsAddr port fts der rest f' s node cfg w :
  serve_start unreadable f absDir name fts = (f', Ret (s, mkTree (Some node), cfg)) → node_wf node →
  ∃ t, serveCmd unreadable f absDir name metricsAddr port fts (Some (der :: rest)) true true w =
    (f',
     [Listening (IPv4zero, port)] ++
     (if decide (metricsAddr = []) then [] else [MetricsStarted (NewServer metricsAddr)]) ++ [Waited] ++
     (match w with OnSignal => [ContextCancelled] | OnDone => [] end) ++ [TransportClosed] ++
     (if decide (metricsAddr = []) then [] else [MetricsStopped]), Ret (t, s, mkTree (Some node))) ∧
    hs_CertFingerprint (local_handshake t) = sha256 der ∧
    hs_MerkleRoot (local_handshake t) = cfg_MerkleRoot cfg ∧ hs_PeerName (local_handshake t) = cfg_PeerName cfg.
Proof.
  intros Hs Hw. unfold serveCmd. rewrite Hs. cbn [newTransport].
  exists (Transport.NewTransport cfg (CertFingerprint (Some (der :: rest)))).
  assert (slicez (n_Hash node) 0 8 = Some (take 8 (n_Hash node))) as Hb.
  { apply (slicez_ok (n_Hash node) 0 8); [lia|lia|]. rewrite (wf_hash_length _ Hw). lia. }
  split_and!; [|by apply (fingerprint_is_hash der rest)|done|done].
  unfold serve_tail, Listen, banner. cbn [negb t_Root fmap option_fmap option_map]. rewrite Hb. cbn.
  destruct (decide (metricsAddr = [])) as [->|Hm]; [by destruct w|].
  rewrite bool_decide_eq_true_2 by done. by destruct w.
Qed.

(** A failing listener or certificate ends the command with an error, and then
    nothing was started. *)
Theorem serve_fails_early unreadable f absDir name metricsAddr port fts generated udp_ok quic_ok w f' effs e :
  serveCmd unreadable f absDir name metricsAddr port fts generated udp_ok quic_ok w = (f', effs, Err e) →
  effs = [].
Proof.
  unfold serveCmd. destruct (serve_start _ _ _ _ _) as [f1 [[[s tree] cfg]|e1|]]; [|by intros [= _ <- _]|by intros [= _ <- _]].
  destruct (newTransport cfg None generated) as [t|e1|]; [|by intros [= _ <- _]|by intros [= _ <- _]].
  unfold serve_tail. destruct (Listen _ _ _) as [addr|e1|]; [|by intros [= _ <- _]|by intros [= _ <- _]].
  unfold banner. destruct (n_Hash <$> t_Root tree) as [h|]; [|by intros [= _ _]].
  destruct (slicez h 0 8); cbn; by intros [= _ _].
Qed.
End serve.

(** What [version] prints. *)
Definition versionCmd (version commit date : bytes) : list bytes :=
  [bytes_of_string "p2p-file-sync " ++ version; bytes_of_string "  commit: " ++ commit; bytes_of_string "  built:  " ++ date].

Module DaemonExample.
Import CommandsExample.
#[local] Existing Instance sha256_fips.

(** Serving the initialised directory on port 4433, with metrics. *)
Example serve_home :
  let f := (initCmd home [str "d"]).1 in
  (serveCmd (λ _, false) f [str "d"] (str "server-4433") (str ":9090") 4433 [] (Some [[x01]]) true true OnSignal).1.2 =
  [Listening ([x00; x00; x00; x00], 4433); MetricsStarted (NewServer (str ":9090")); Waited; ContextCancelled;
   TransportClosed; MetricsStopped].
Proof. vm_compute. reflexivity. Qed.

Example serve_without_init :
  (serveCmd (λ _, false) home [str "d"] (str "s") [] 4433 [] (Some [[x01]]) true true OnSignal).2 =
  Err (ServePreparing NotInitialised).
Proof. vm_compute. reflexivity. Qed.
End DaemonExample.
