(* ===== verification/Main.v ===== *)
(** * The program ([cmd/p2p-file-sync/main.go])

    [main] from the parsed command line to the exit status: the commands with
    their arguments and flags, the logging they do, and the files they leave.
    Cobra parses; it hands over the command, its arguments and the flags, and
    checks the number of arguments before anything runs. What the environment
    decides is [world], what the other goroutines of serve do while it runs
    among it. Terminal output is left out, and so are the lines that sync logs
    about single chunks and files. *)
From Stdlib Require Import Strings.Byte Strings.String.
From S2P Require Import Prelude Sha256 Fs Chunk ChunkStore BlobStore StoreSpec Merkle MerkleSpec Build Manifest Wire Transport TransportLife Index Cli SyncSpec SyncWire Metrics Logging Commands Daemon.

(** ** Log lines *)
Record log_line := mkLine { ln_level : Z; ln_msg : bytes; ln_attrs : list attr }.

Definition write_line (g : logging) (l : log_line) : logging :=
  log_with (Logger g) (ln_level l) (ln_msg l) (flat (ln_attrs l)) g.
Definition write_lines (g : logging) (ls : list log_line) : logging := foldl write_line g ls.

Definition info (msg : string) (attrs : list attr) : log_line := mkLine LevelInfo (text msg) attrs.
Definition error (msg : string) (attrs : list attr) : log_line := mkLine LevelError (text msg) attrs.
Definition sattr (k : string) (v : bytes) : attr := (text k, VString v).
Definition iattr (k : string) (v : Z) : attr := (text k, VInt v).

(** An absolute path as a string. *)
Definition path_string (p : path) : bytes := slash :: join_slash p.

(** *** The callbacks of serve *)
Definition OnPeerConnected (peer : Peer) : log_line :=
  info "peer connected" [sattr "name" (p_Name peer); sattr "id" (PeerID_Short (p_ID peer)); sattr "addr" (p_Addr peer)].

Definition OnPeerDisconnected (peer : Peer) : log_line := info "peer disconnected" [sattr "name" (p_Name peer)].

Definition callback_line (c : callback) : log_line :=
  match c with Connected p => OnPeerConnected p | Disconnected p => OnPeerDisconnected p end.

(** [OnChunkRequest] with what it logs. *)
Definition OnChunkRequest `{HashFn} (g : fs) (s : BlobStore) (peer : Peer) (req : ChunkRequest)
    : list log_line * ChunkResponse :=
  let resp := serve_chunks g s req in
  ([info "chunk request received" [sattr "peer" (p_Name peer); iattr "chunks" (Z.of_nat (length (cq_ChunkHashes req)))];
    info "sending chunks" [iattr "found" (Z.of_nat (length (cr_Chunks resp)));
                           iattr "not_found" (Z.of_nat (length (cr_NotFound resp)))]], resp).

(** [OnManifestRequest] with what it logs: indexing never reports an error, so
    only the line about a failed rebuild is left. *)
Definition manifest_lines (error_text : build_error → bytes) (peer : Peer) (built : outcome build_error Tree)
    : list log_line :=
  info "manifest request received" [sattr "peer" (p_Name peer)] ::
  match built with Err e => [error "merkle rebuild failed" [sattr "error" (error_text e)]] | _ => [] end.

(** The metrics goroutine: not started without [--metrics]; its next step, with
    what [Start] returned when it ends ([None]: [ErrServerClosed] or nothing). *)
Inductive metrics_stage := MNone | MReady | MRunning | MDone.

Definition metrics_starting : bytes := text "starting metrics server".

Definition metrics_step (metricsAddr : bytes) (m : metrics_stage) (err : option bytes)
    : metrics_stage * list log_line :=
  match m with
  | MNone => (MNone, [])
  | MReady => (MRunning, [mkLine LevelInfo metrics_starting [sattr "addr" metricsAddr]])
  | MRunning => (MDone, match err with Some e => [error "metrics server error" [sattr "error" e]] | None => [] end)
  | MDone => (MDone, [])
  end.

(** What happens beside the main goroutine of serve. *)
Inductive serve_event :=
| EvMetrics (err : option bytes)
| EvPeer (c : callback)
| EvChunkRequest (peer : Peer) (req : ChunkRequest)
| EvManifestRequest (peer : Peer) (fts : list faults).

Record serving := mkServing { sv_fs : fs; sv_metrics : metrics_stage; sv_lines : list log_line }.

Definition daemon_started (absDir : path) (listenAddr metricsAddr : bytes) : log_line :=
  info "daemon started" [sattr "dir" (path_string absDir); sattr "addr" listenAddr; sattr "metrics" metricsAddr].

Definition initialized (absDir storage : path) : log_line :=
  info "initialized sync directory" [sattr "path" (path_string absDir); sattr "storage" (path_string storage)].

(** ** The command line *)
Record flags := mkFlags {
  fl_verbose : bool;
  fl_json : bool;
  fl_metrics : bytes;
  fl_dir : bytes;
  fl_port : Z;                     (* of serve *)
}.

Definition default_flags : flags := mkFlags false false [] [] 4433.

Inductive command := CInit | CStatus | CSync | CServe | CVersion.

(** [cobra.MaximumNArgs(1)] for init, [cobra.ExactArgs(1)] for sync. *)
Definition args_ok (c : command) (args : list bytes) : bool :=
  match c with
  | CInit => (length args <=? 1)%nat
  | CSync => (length args =? 1)%nat
  | _ => true
  end.

(** What the environment decides: the working directory and whether [Getwd]
    succeeds, and what the commands take as arguments. *)
Record world := mkWorld {
  w_here : path;
  w_getwd : bool;
  w_unreadable : path → bool;
  w_faults : list faults;
  w_generated : option (list bytes);
  w_udp : bool;
  w_quic : bool;
  w_wakeup : wakeup;
  w_network : network;
  w_order : bytes → list bytes → list bytes;
  w_cancelled : nat → bool;
  w_decimal : Z → bytes;           (* [fmt.Sprintf("%d", port)] *)
  w_error_text : build_error → bytes;
  w_before : list serve_event;     (* before serve logs its start, and after *)
  w_after : list serve_event;
}.

(** [filepath.Abs]. *)
Definition Abs (w : world) (name : bytes) : option path :=
  match name with
  | b :: _ => if decide (b = slash) then Some (Join [] [name]) else if w_getwd w then Some (resolve (w_here w) name) else None
  | [] => if w_getwd w then Some (w_here w) else None
  end.

(** The directory of status, serve and sync: the error of [Abs] is dropped, and
    the empty name then stands for the working directory. *)
Definition flag_dir (w : world) (fl : flags) : path :=
  default (w_here w) (Abs w (if decide (fl_dir fl = []) then dot else fl_dir fl)).

Inductive main_error :=
| WrongNumberOfArgs
| InvalidDirectory
| CommandError (e : cmd_error)
| ServeError (e : serve_error)
| SyncError (e : client_error).

Section main.
Context `{HashFn} `{ProtoCodec}.

Definition run_init (w : world) (args : list bytes) (f : fs) (g : logging) : fs * logging * outcome main_error unit :=
  match Abs w (default dot (head args)) with
  | None => (f, g, Err InvalidDirectory)
  | Some absDir =>
      match initCmd f absDir with
      | (f', Ret _) => (f', write_line g (initialized absDir (storageDir absDir)), Ret ())
      | (f', Err e) => (f', g, Err (CommandError e))
      | (f', Panic) => (f', g, Panic)
      end
  end.

Definition run_status (w : world) (fl : flags) (f : fs) (g : logging) : fs * logging * outcome main_error unit :=
  match statusCmd (w_unreadable w) f (flag_dir w fl) with
  | Ret _ => (f, g, Ret ())
  | Err e => (f, g, Err (CommandError e))
  | Panic => (f, g, Panic)
  end.

Definition listenAddr (w : world) (fl : flags) : bytes := text ":" ++ w_decimal w (fl_port fl).

(** One event, on the files, the metrics goroutine and the lines logged so far. *)
Definition on_event (w : world) (fl : flags) (dir : path) (s : BlobStore) (tree : Tree) (st : serving) (e : serve_event)
    : serving * outcome main_error unit :=
  let '(mkServing f m ls) := st in
  match e with
  | EvMetrics err => let '(m', ls') := metrics_step (fl_metrics fl) m err in (mkServing f m' (ls ++ ls'), Ret ())
  | EvPeer c => (mkServing f m (ls ++ [callback_line c]), Ret ())
  | EvChunkRequest peer req => (mkServing f m (ls ++ (OnChunkRequest f s peer req).1), Ret ())
  | EvManifestRequest peer fts =>
      let '(f', r) := OnManifestRequest (w_unreadable w) dir s tree f fts in
      let built := BuildFromFS (w_unreadable w) f' dir in
      (mkServing f' m (ls ++ manifest_lines (w_error_text w) peer built),
       match r with Panic => Panic | _ => Ret () end)
  end.

(** A panic of any goroutine ends the program. *)
Fixpoint serve_events (w : world) (fl : flags) (dir : path) (s : BlobStore) (tree : Tree) (st : serving)
    (evs : list serve_event) : serving * outcome main_error unit :=
  match evs with
  | [] => (st, Ret ())
  | e :: evs' =>
      match on_event w fl dir s tree st e with
      | (st', Ret _) => serve_events w fl dir s tree st' evs'
      | r => r
      end
  end.

Definition metrics_at_start (fl : flags) : metrics_stage := if decide (fl_metrics fl = []) then MNone else MReady.

(** The listener accepts and the metrics goroutine runs before the main
    goroutine logs its line. *)
Definition run_serve (w : world) (fl : flags) (f : fs) (g : logging) : fs * logging * outcome main_error unit :=
  let dir := flag_dir w fl in
  let '(f', effs, r) := serveCmd (w_unreadable w) f dir (text "server-" ++ w_decimal w (fl_port fl)) (fl_metrics fl)
                          (fl_port fl) (w_faults w) (w_generated w) (w_udp w) (w_quic w) (w_wakeup w) in
  match r with
  | Ret (_, s, tree) =>
      match serve_events w fl dir s tree (mkServing f' (metrics_at_start fl) []) (w_before w) with
      | (mkServing f1 m ls, Ret _) =>
          let ls := ls ++ [daemon_started dir (listenAddr w fl) (fl_metrics fl)] in
          let '(st, r) := serve_events w fl dir s tree (mkServing f1 m ls) (w_after w) in
          (sv_fs st, write_lines g (sv_lines st), r)
      | (st, r) => (sv_fs st, write_lines g (sv_lines st), r)
      end
  | Err e => (f', g, Err (ServeError e))
  | Panic => (f', g, Panic)
  end.

Definition run_sync (w : world) (fl : flags) (args : list bytes) (f : fs) (g : logging)
    : fs * logging * outcome main_error unit :=
  match syncCmd_net (w_unreadable w) (w_order w) (flag_dir w fl) (default [] (head args)) (w_generated w) (w_network w)
          (w_cancelled w) f (w_faults w) with
  | (f', Ret _) => (f', g, Ret ())
  | (f', Err e) => (f', g, Err (SyncError e))
  | (f', Panic) => (f', g, Panic)
  end.

Definition Execute (w : world) (fl : flags) (c : command) (args : list bytes) (f : fs) (g : logging)
    : fs * logging * outcome main_error unit :=
  if args_ok c args then
    let g := PersistentPreRun (fl_verbose fl) (fl_json fl) g in
    match c with
    | CInit => run_init w args f g
    | CStatus => run_status w fl f g
    | CServe => run_serve w fl f g
    | CSync => run_sync w fl args f g
    | CVersion => (f, g, Ret ())
    end
  else (f, g, Err WrongNumberOfArgs).

(** The exit status; 2 is that of a panic. *)
Definition main (w : world) (fl : flags) (c : command) (args : list bytes) (f : fs) (g : logging) : fs * logging * Z :=
  match Execute w fl c args f g with
  | (f', g', Ret _) => (f', g', 0%Z)
  | (f', g', Err _) => (f', g', 1%Z)
  | (f', g', Panic) => (f', g', 2%Z)
  end.

(** ** What is logged *)
Definition line_entry (json : bool) (l : log_line) : entry :=
  mkEntry (if json then JSONHandler else TextHandler) Stderr false (ln_level l) (ln_msg l) (plain <$> ln_attrs l).

Lemma write_lines_output verbose json g ls :
  Forall (λ l, LevelInfo ≤ ln_level l)%Z ls →
  let g' := write_lines (PersistentPreRun verbose json g) ls in
  output g' = output g ++ (line_entry json <$> ls) ∧ defaultLogger g' = defaultLogger (PersistentPreRun verbose json g).
Proof.
  intros Hl. induction ls as [|l ls IH] using rev_ind; [split; [cbn; by rewrite app_nil_r|done]|].
  apply Forall_app in Hl as [Hls Hl]. apply Forall_inv in Hl. destruct (IH Hls) as [IH1 IH2].
  unfold write_lines in *. rewrite foldl_app, fmap_app, app_assoc. cbn [foldl fmap list_fmap].
  unfold write_line at 1 3. unfold log_with, Logger. cbn [output defaultLogger].
  rewrite IH1, IH2. split; [|done]. f_equal. unfold emit, Enabled, entry_of, line_entry.
  rewrite argsToAttrs_pairs. unfold LevelInfo in Hl.
  destruct verbose, json; cbn -[Z.leb]; by rewrite (proj2 (Z.leb_le _ _)) by (unfold LevelDebug, LevelInfo; lia).
Qed.

(** The commands that do not write, and those that were called wrongly, leave
    every file as it is; the exit status is 0 exactly when the command returned
    no error. *)
Lemma main_status w fl c args f g :
  let r := main w fl c args f g in
  (r.2 = 0 ↔ (Execute w fl c args f g).2 = Ret ())%Z ∧
  (args_ok c args = false → r = (f, g, 1%Z)) ∧
  (c = CStatus ∨ c = CVersion → r.1.1 = f).
Proof.
  cbv zeta. unfold main. split_and!.
  - destruct (Execute w fl c args f g) as [[f' g'] [[]|e|]]; cbn; split; (done || lia).
  - intros Ha. unfold Execute. by rewrite Ha.
  - unfold Execute, run_status. intros [->| ->]; cbn; [|done]. by destruct (statusCmd _ _ _).
Qed.

Lemma run_init_fresh w args f g root md :
  Abs w (default dot (head args)) = Some root → uninitialised f root md →
  ∃ f', run_init w args f g = (f', write_line g (initialized root (storageDir root)), Ret ()) ∧
    initCmd f root = (f', Ret ()) ∧ fresh_storage f f' root md.
Proof.
  intros Ha Hu. destruct (init_spec f root md Hu) as (f' & E & Hs). exists f'. unfold run_init. by rewrite Ha, E.
Qed.

(** Init does not look at the flag that tells the other commands their
    directory: with [--dir d] it initialises the working directory, and status
    with the same flags still refuses. *)
Theorem init_ignores_dir_flag (w : world) (fl : flags) (f : fs) (g : logging) (root : path) (md md' : Z) :
  w_getwd w = true → uninitialised f (w_here w) md → uninitialised f root md' →
  flag_dir w fl = root → root ≠ w_here w → root ≠ w_here w ++ [dot_storage] → root ≠ storageDir (w_here w) →
  ∃ f' g', main w fl CInit [] f g = (f', g', 0%Z) ∧ (main w fl CStatus [] f' g').2 = 1%Z.
Proof.
  intros Hg Hu Hr Hd Hne Hne1 Hne2.
  assert (Abs w dot = Some (w_here w)) as Ha by (unfold Abs, dot; cbn; by rewrite Hg).
  unfold main at 1, Execute. cbn [args_ok].
  destruct (run_init_fresh w [] f (PersistentPreRun (fl_verbose fl) (fl_json fl) g) (w_here w) md Ha Hu)
    as (f' & E & _ & Hs).
  cbn [length Nat.leb]. rewrite E. eexists f', _. split; [done|].
  assert (uninitialised f' root md') as Hr'.
  { split; [apply Hs| |].
    - rewrite (fr_same _ _ _ _ Hs) by done. apply Hr.
    - rewrite (fr_same _ _ _ _ Hs), (un_none _ _ _ Hr); [done|by intros [? _]%app_inj_tail|].
      rewrite storageDir_eq. change [dot_storage; chunks_name] with ([dot_storage] ++ [chunks_name]).
      rewrite app_assoc. by intros [_ ?]%app_inj_tail. }
  unfold main, Execute, run_status, statusCmd. cbn [args_ok]. rewrite Hd, (Stat_uninitialised _ _ _ Hr'). done.
Qed.

Lemma refused w fl c args f g md :
  uninitialised f (flag_dir w fl) md → c = CStatus ∨ c = CServe ∨ c = CSync ∧ length args = 1%nat →
  main w fl c args f g = (f, PersistentPreRun (fl_verbose fl) (fl_json fl) g, 1%Z).
Proof.
  intros Hu Hc. pose proof (Stat_uninitialised _ _ _ Hu) as Es. unfold main, Execute.
  destruct Hc as [->|[->|[-> Ha]]]; cbn [args_ok].
  - unfold run_status, statusCmd. by rewrite Es.
  - unfold run_serve, serveCmd, serve_start. by rewrite Es.
  - rewrite Ha. cbn [Nat.eqb]. unfold run_sync, syncCmd_net, client_start. fold (storageDir (flag_dir w fl)). by rewrite Es.
Qed.

(** *** What happens beside serve *)
Definition is_metrics (e : serve_event) : bool := match e with EvMetrics _ => true | _ => false end.

Definition metrics_lines (ls : list log_line) : nat := length (filter (λ l, ln_msg l = metrics_starting) ls).

Lemma metrics_lines_app ls ls' : metrics_lines (ls ++ ls') = (metrics_lines ls + metrics_lines ls')%nat.
Proof. unfold metrics_lines. by rewrite filter_app, length_app. Qed.

Definition may_start (m : metrics_stage) : nat := match m with MReady => 1%nat | _ => 0%nat end.

(** No system call of a manifest request fails. *)
Definition undisturbed (e : serve_event) : Prop := match e with EvManifestRequest _ fts => fts = [] | _ => True end.

Section beside.
Context (w : world) (fl : flags) (root : path) (s : BlobStore) (tree : Tree) (f0 : fs) (md : Z).
Context (store_dir : bytes) (below : path).
Hypothesis readable : w_unreadable w = (λ _, false).
Hypothesis f0_wf : fs_wf f0.
Hypothesis distinct : no_collisions f0 s.
Hypothesis base : bs_baseDir s = root ++ store_dir :: below ∧ hidden store_dir = true.
Hypothesis f0_root : f0 !! root = Some (FDir md).
Hypothesis root_name : hidden (info_name root) = false.

(** What an event does: the store grows and stays sound, the lines are of level
    Info at least, and the metrics goroutine announces itself at most once. *)
Definition event_ok (st st' : serving) (evs : list serve_event) : Prop :=
  walk_inv f0 s (sv_fs st') ∧ grows s (sv_fs st) (sv_fs st') ∧
  (∃ ls, sv_lines st' = sv_lines st ++ ls ∧ Forall (λ l, LevelInfo ≤ ln_level l)%Z ls ∧
     (metrics_lines ls + may_start (sv_metrics st') = may_start (sv_metrics st))%nat) ∧
  may_start (sv_metrics st') = if existsb is_metrics evs then 0%nat else may_start (sv_metrics st).

Lemma on_event_ok st e :
  walk_inv f0 s (sv_fs st) → undisturbed e →
  ∃ st', on_event w fl root s tree st e = (st', Ret ()) ∧ event_ok st st' [e].
Proof.
  destruct st as [f m ls]. cbn [sv_fs]. intros Hi Hu. pose proof (grows_refl s f) as Hg.
  destruct e as [err|c|peer req|peer fts]; cbn [on_event undisturbed] in *.
  - destruct (metrics_step (fl_metrics fl) m err) as [m' ls'] eqn:E. eexists. split; [done|].
    unfold event_ok. cbn [sv_fs sv_lines sv_metrics existsb is_metrics orb].
    assert (Forall (λ l, LevelInfo ≤ ln_level l)%Z ls' ∧ (metrics_lines ls' + may_start m' = may_start m)%nat ∧ may_start m' = 0%nat)
      as (H1 & H2 & H3) by (destruct m, err; injection E as <- <-; split_and!; repeat constructor; done).
    split_and!; [done|done|by exists ls'|done].
  - eexists. split; [done|]. split_and!; [done|done| |by destruct m]. exists [callback_line c].
    split_and!; [done|by destruct c; repeat constructor|by destruct c].
  - eexists. split; [done|]. split_and!; [done|done| |by destruct m]. eexists.
    split_and!; [done|by repeat constructor|done].
  - subst fts. unfold OnManifestRequest. rewrite readable.
    destruct (reindex_spec f0 s root store_dir below md f f0_wf distinct base f0_root root_name Hi) as (Hi' & _ & Hg' & _).
    destruct (indexed_tree f0 s root store_dir below md _ base f0_root Hi') as (node & Eb & _). rewrite Eb.
    eexists. split; [done|]. split_and!; [done|done| |by destruct m]. eexists.
    split_and!; [done|by repeat constructor|done].
Qed.

Lemma serve_events_ok st evs :
  walk_inv f0 s (sv_fs st) → Forall undisturbed evs →
  ∃ st', serve_events w fl root s tree st evs = (st', Ret ()) ∧ event_ok st st' evs.
Proof.
  intros Hi Hu. revert st Hi. induction Hu as [|e evs He Hu IH]; intros st Hi; cbn [serve_events].
  { exists st. split; [done|]. split_and!; [done|apply grows_refl| |done]. exists []. by rewrite app_nil_r. }
  destruct (on_event_ok st e Hi He) as (st1 & -> & Hi1 & Hg1 & (ls1 & E1 & L1 & M1) & S1).
  destruct (IH st1 Hi1) as (st2 & -> & Hi2 & Hg2 & (ls2 & E2 & L2 & M2) & S2).
  exists st2. split; [done|]. split_and!; [done|by eapply grows_trans| |].
  - exists (ls1 ++ ls2). split_and!; [by rewrite E2, E1, app_assoc|by apply Forall_app|].
    rewrite metrics_lines_app. lia.
  - cbn [existsb] in *. rewrite S2, S1, orb_false_r. by destruct (is_metrics e), (existsb is_metrics evs).
Qed.
End beside.

(** C30: From a plain directory to a running daemon. On a directory without
    [.storage], status, serve and sync exit with status 1 and change nothing;
    init exits with status 0, logs the directory, and creates the chunk
    directory and nothing else. After it status exits with 0 and leaves
    everything as it is. When the directory's own name does not start with a
    dot, no two chunks of its files collide, the certificate and the sockets can
    be had and no system call fails, serve runs until it is told to stop and
    exits with 0, whatever its peers ask for meanwhile; every chunk of every
    visible file of the directory is then in its store. It has logged its start,
    after the lines of what happened before and before those of what happened
    after; among them is exactly one line of the metrics goroutine's start when
    --metrics is set and the goroutine has run, and none otherwise. *)
Theorem command_lifecycle (w : world) (fl : flags) (f : fs) (g : logging) (root : path) (md : Z) (dir der : bytes)
    (rest : list bytes) :
  flag_dir w fl = root → Abs w dir = Some root → uninitialised f root md → distinct_hashes f →
  hidden (info_name root) = false → w_unreadable w = (λ _, false) → w_faults w = [] →
  w_generated w = Some (der :: rest) → w_udp w = true → w_quic w = true →
  Forall undisturbed (w_before w ++ w_after w) →
  let g0 := PersistentPreRun (fl_verbose fl) (fl_json fl) g in
  (∀ c args, c = CStatus ∨ c = CServe ∨ c = CSync ∧ length args = 1%nat → main w fl c args f g = (f, g0, 1%Z)) ∧
  ∃ f' g1 f2 g2 before after,
    main w fl CInit [dir] f g = (f', g1, 0%Z) ∧
    output g1 = output g ++ [line_entry (fl_json fl) (initialized root (storageDir root))] ∧
    (∀ q, q ≠ root ++ [dot_storage] → q ≠ storageDir root → f' !! q = f !! q) ∧
    (∀ args, main w fl CStatus args f' g = (f', g0, 0%Z)) ∧
    (∀ args, main w fl CServe args f' g = (f2, g2, 0%Z)) ∧
    output g2 = output g ++ (line_entry (fl_json fl) <$>
      (before ++ [daemon_started root (listenAddr w fl) (fl_metrics fl)] ++ after)) ∧
    metrics_lines (before ++ after) =
      (if decide (fl_metrics fl = []) then 0%nat else if existsb is_metrics (w_before w ++ w_after w) then 1%nat else 0%nat) ∧
    (∀ p c m x, visible p = true → f' !! (root ++ p) = Some (FFile c m) → x ∈ chunks_of ChunkSize c →
       ∃ y, view f2 (mkBlobStore (storageDir root)) (sha256 x) = Some y ∧ sha256 y = sha256 x).
Proof.
  intros Hd Ha Hu Hdh Hh Hun Hft Hgen Hudp Hq Hev g0.
  split; [intros c args; apply (refused w fl c args f g md); by rewrite Hd|].
  destruct (init_lifecycle f root md (text "server-" ++ w_decimal w (fl_port fl)) [] Hu Hdh Hh)
    as (_ & _ & f' & node & ops & Ei & _ & Hsame & _ & Est & f1 & node' & cfg & Esv & Hwn & Ht & _ & Hfw & Hfr & Hnc & Hi & Hv).
  destruct (serve_until_signal (λ _, false) f' root _ (fl_metrics fl) (fl_port fl) [] der rest f1 _ node' cfg (w_wakeup w) Esv Hwn)
    as (t & Es & _).
  set (s := mkBlobStore (storageDir root)) in *. set (tree := mkTree (Some node')) in *.
  assert (bs_baseDir s = root ++ dot_storage :: [chunks_name] ∧ hidden dot_storage = true) as Hbase
    by (split; [apply storageDir_eq|reflexivity]).
  apply Forall_app in Hev as [Hev1 Hev2].
  pose proof (serve_events_ok w fl root s tree f' md _ _ Hun Hfw Hnc Hbase Hfr Hh) as Hok.
  destruct (Hok (mkServing f1 (metrics_at_start fl) []) _ Hi Hev1)
    as ([f3 m3 ls3] & E3 & Hi3 & Hg3 & (before & B3 & L3 & M3) & S3).
  cbn [sv_fs sv_lines sv_metrics app] in *. subst ls3.
  destruct (Hok (mkServing f3 m3 (before ++ [daemon_started root (listenAddr w fl) (fl_metrics fl)])) _ Hi3 Hev2)
    as ([f4 m4 ls4] & E4 & _ & Hg4 & (after & B4 & L4 & M4) & S4).
  cbn [sv_fs sv_lines sv_metrics] in *. rewrite <- app_assoc in B4. set (ls := before ++ _ ++ after) in B4. subst ls4.
  assert (Forall (λ l, LevelInfo ≤ ln_level l)%Z ls) as Hls by (apply Forall_app; split; [done|by constructor]).
  exists f', (write_line g0 (initialized root (storageDir root))), f4, (write_lines g0 ls), before, after. split_and!.
  - unfold main, Execute, run_init. cbn [args_ok length Nat.leb]. fold g0.
    change (default dot (head [dir])) with dir. by rewrite Ha, Ei.
  - by apply (write_lines_output (fl_verbose fl) (fl_json fl) g [initialized root (storageDir root)]); constructor.
  - done.
  - intros args. unfold main, Execute, run_status. cbn [args_ok]. fold g0. by rewrite Hun, Hd, Est.
  - intros args. unfold main, Execute, run_serve. cbn [args_ok]. fold g0. rewrite Hd, Hft, Hgen, Hudp, Hq.
    rewrite Hun at 1. rewrite Es. by rewrite E3, E4.
  - by apply (write_lines_output (fl_verbose fl) (fl_json fl) g ls).
  - rewrite metrics_lines_app, existsb_app. clear -M3 M4 S3 S4. rewrite <- M4 in M3. rewrite S4 in M3. rewrite S3 in M3, M4, S4.
    unfold metrics_at_start in *. destruct (decide (fl_metrics fl = [])), (existsb is_metrics (w_before w)),
      (existsb is_metrics (w_after w)); cbn [may_start orb] in *; lia.
  - intros p c m x Hp Hf Hx. destruct (tree_of_entry _ _ _ _ _ Ht Hp Hf) as (b & Hb & _ & Hty & Hch & _).
    destruct (Hv p b (sha256 x) Hb Hty) as (y & Hy & Ey); [rewrite Hch; by apply list_elem_of_fmap_2|].
    exists y. split; [|done]. by apply Hg4, Hg3; [apply sha256_long..|].
Qed.

(** The daemon logs the comings and goings of its peers: in every run of the
    transport, one line per callback in the order of the callbacks, whatever the
    flags; the lines of a connection are those its goroutines have made. *)
Theorem daemon_logs_peers (fp : nat → bytes) (acts : list tact) (y : tsys) (verbose json : bool) (g : logging) :
  trun fp tstart acts = Some y →
  output (write_lines (PersistentPreRun verbose json g) (callback_line <$> y_log y)) =
    output g ++ (line_entry json <$> (callback_line <$> y_log y)) ∧
  ∀ c, callbacks c (y_log y) ≡ₚ conn_made c (y_conns y !! c).
Proof.
  intros Hr. destruct (trun_start fp acts y Hr) as [Hok _]. split; [|apply (so_log _ _ Hok)].
  apply write_lines_output. apply Forall_fmap, Forall_true. by intros [].
Qed.
End main.

(** ** A directory is initialised and served *)
Module MainExample.
Import CommandsExample.
#[local] Existing Instance sha256_fips.
#[local] Existing Instance CountableCodec.codec.

Definition shell : world :=
  mkWorld [str "d"] true (λ _, false) [] (Some [[x01]]) true true OnSignal
    (mkNetwork None None None (λ _, None) 0) (λ _ l, l) (λ _, false) (λ _, str "4433") (λ _, str "unreadable")
    [EvMetrics None] [EvPeer (Connected TransportExample.the_peer); EvManifestRequest TransportExample.the_peer []].

Definition with_metrics : flags := mkFlags false false (str ":9090") [] 4433.

Lemma command_lifecycle_witness :
  main shell with_metrics CStatus [] home init = (home, PersistentPreRun false false init, 1%Z) ∧
  ∃ f' g1 f2 g2, main shell with_metrics CInit [dot] home init = (f', g1, 0%Z) ∧ length (output g1) = 1%nat ∧
    main shell with_metrics CServe [] f' init = (f2, g2, 0%Z).
Proof.
  destruct (command_lifecycle shell with_metrics home init [str "d"] 493 dot [x01] [] eq_refl eq_refl
    home_uninitialised home_distinct eq_refl eq_refl eq_refl eq_refl eq_refl eq_refl)
    as (Hr & f' & g1 & f2 & g2 & before & after & Ei & Eo & _ & _ & Es & _); [by repeat constructor|].
  split; [apply Hr; left; reflexivity|]. exists f', g1, f2, g2.
  split; [exact Ei|]. split; [|apply Es]. rewrite Eo. reflexivity.
Defined.

(** What serve logs in this world. *)
Example served_lines :
  let '(f', _, _) := main shell with_metrics CInit [dot] home init in
  let '(_, g, status) := main shell with_metrics CServe [] f' init in
  (e_msg <$> output g, status) =
  ([text "starting metrics server"; text "daemon started"; text "peer connected"; text "manifest request received"], 0%Z).
Proof. vm_compute. reflexivity. Qed.

(** Three arguments are too many. *)
Example too_many : main shell default_flags CSync [str "a"; str "b"] home init = (home, init, 1%Z).
Proof. reflexivity. Qed.

(** [init --dir /e] in [/d]. *)
Definition two_dirs : fs := {[ [] := FDir 493; [str "d"] := FDir 493; [str "e"] := FDir 493 ]}.

Example dir_flag_ignored :
  let fl := mkFlags false false [] (str "/e") 4433 in
  let '(f', g', status) := main shell fl CInit [] two_dirs init in
  status = 0%Z ∧ (main shell fl CStatus [] f' g').2 = 1%Z ∧ is_Some (f' !! [str "d"; str ".storage"; str "chunks"]).
Proof. vm_compute. split_and!; [reflexivity|reflexivity|by eexists]. Qed.

Lemma init_ignores_dir_flag_witness :
  ∃ f' g', main shell (mkFlags false false [] (str "/e") 4433) CInit [] two_dirs init = (f', g', 0%Z).
Proof.
  destruct (init_ignores_dir_flag shell (mkFlags false false [] (str "/e") 4433) two_dirs init [str "e"] 493 493)
    as (f' & g' & E & _).
  - reflexivity.
  - constructor; [apply fs_wfb_sound; vm_compute; reflexivity|vm_compute; reflexivity|vm_compute; reflexivity].
  - constructor; [apply fs_wfb_sound; vm_compute; reflexivity|vm_compute; reflexivity|vm_compute; reflexivity].
  - vm_compute. reflexivity.
  - discriminate.
  - discriminate.
  - rewrite storageDir_eq. discriminate.
  - exists f', g'. exact E.
Defined.
End MainExample.
